(* ===== verification/_CoqProject ===== *)
-Q . S2P
Prelude.v
ParamMap.v
OpGenerator.v
Buffer.v
BufferIter.v
HttpParser.v
CircularBuffer.v
ListSet.v
Spinlock.v
SpinlockMCS.v
Locks.v
Barrier.v
Callback.v
HazardPointers.v
LockFreeList.v
LockFreeHashTable.v
Linearizability.v
ListLinearizable.v
ListReclaim.v
ConcurrentHashTable.v
ThreadPoolNormal.v
ThreadPoolFast.v
FileCache.v
RequestStats.v
IOManager.v
Connection.v
HttpConnection.v
KvConnection.v
ServiceManager.v
Exchange.v
Logging.v
Threads.v
FdStream.v
Timer.v
TestUnit.v
LockClients.v
CacheThreads.v
CacheTests.v
AsyncClient.v
TestUtil.v
Programs.v
