(* ===== verification/Prelude.v ===== *)
(** * A verification of a multi-threaded HTTP / key-value server in C++

    The program is a server with two services, files over HTTP and a key-value
    table, together with the classes it is built from and the data structures
    that were written to be measured against each other.  This development
    models its classes as Rocq definitions and proves what makes them correct.

    ** The parts and how they interact

    One thread polls the sockets ([IOManager], on epoll), hands the callbacks of
    the ready ones to a pool of workers ([ThreadPoolFast]), and runs the timers.  A
    listening socket belongs to an [Acceptor]; a client's socket to a
    [Connection], which reads into one [Buffer] and writes another.  Its
    sub-classes parse what was read ([Parser], on [Buffer::Iterator]) and answer
    from the file cache or the hash table, and count the request
    ([RequestStats]).  The [ServiceManager] owns the IO manager and the acceptors
    and stops everything.  Below are mutexes, notifications, callbacks and
    counted references; beside it are the spinning locks, the barrier, the list
    and pool variants.

    ** The files, in the order of their dependencies

    Each file has one [Module] per class, named like the class or the file; its
    definitions keep the names of the members and methods of the source.

    - [Prelude.v]: bytes, machine subtraction, generic lemmas, and schedules:
      [exec] runs a list of steps, [reachable] and [reachable_invariant] are what
      all interleaved models use;
    - [ParamMap.v] (param_map.cpp), [OpGenerator.v] (op_generator.cpp): the command
      line and the generators of operations of the benchmarks;
    - [Buffer.v] (buffer.cpp, mem_piece.hpp), [BufferIter.v]: the streaming buffer
      and its iterator; the interface [CharIter] with the laws [CharIterLaws] is
      what the parser is proved against;
    - [HttpParser.v] (http_parser.cpp, http_request.cpp, http_response.hpp);
    - [CircularBuffer.v] (circular_buffer.cpp), [ListSet.v] (list_set.cpp);
    - [Spinlock.v] (spinlock.hpp), [SpinlockMCS.v] (spinlock_mcs.hpp), [Locks.v]
      (lock.hpp), [Barrier.v] (thread_barrier.hpp);
    - [Callback.v] (callback_instances.hpp);
    - [HazardPointers.v] (hazard_pointers.hpp), [LockFreeList.v]
      (lock_free_list.hpp, markable_pointer.hpp), [LockFreeHashTable.v]
      (lock_free_hash_table.cpp, one operation at a time);
    - [Linearizability.v]: no code of its own, but what it means that an object
      of many threads is linearizable, with the class [Object] of such objects
      and the [Laws] that are enough; [ListLinearizable.v] discharges them for
      the list, [ListReclaim.v] follows its memory to the destructor, and
      [ConcurrentHashTable.v] (lock_free_hash_table.cpp again) runs the table's
      operations over the list's steps and discharges them for the table;
    - [ThreadPoolNormal.v], [ThreadPoolFast.v] (the .cpp files of these names);
    - [FileCache.v] (file_cache.cpp), [RequestStats.v] (request_stats.cpp);
    - [IOManager.v] (io_manager.cpp, descriptor_poller_epoll.cpp);
    - [Connection.v] (connection.cpp): over [Buffer] and the descriptors;
    - [HttpConnection.v] (http_connection.cpp): over the parser, the cache, the
      connection's calls, and the interface [StatsOps] and [StatsLaws], which
      [RequestStats.v]'s definitions discharge; [KvConnection.v]
      (kv_connection.cpp, kv_service.cpp): the same loop over the hash table;
    - [ServiceManager.v] (service_manager.cpp, acceptor.cpp, http_service.cpp): the
      states and steps of [IOManager.v] and [ThreadPoolFast.v] in one system;
    - [Exchange.v] models no code of its own: it composes [Connection.v]'s server
      with [HttpConnection.v]'s client;
    - [Logging.v] (log_message.cpp, log_writer.cpp), [Threads.v] (thread.cpp, thread_registry.cpp,
      thread_local.hpp, signal_handler.cpp, where a crash is reported),
      [FdStream.v] (ifdstream.hpp, child_process.cpp), [Timer.v] (timer.hpp,
      ticks_clock.cpp, and the tables of the lock benchmarks);
    - [TestUnit.v] (test_unit.hpp) runs a list of tests; [LockClients.v]: the
      tests of the spinning locks and the lock benchmarks, against the class
      [Lock] with its [LockLaws], which [Spinlock] and [Mutex] discharge (the
      queue lock cannot, and its test hangs); [CacheThreads.v],
      [CacheTests.v] (file_cache_test1.cpp, file_cache_test2.cpp): the tests of
      the cache, one after the other and by many threads;
    - [AsyncClient.v] (client_async.cpp, kv_benchmark.cpp, http_service.cpp):
      connecting, and the client that sends again from its own callback;
      [TestUtil.v] (test_util.hpp, thread_pool_benchmark.cpp): the work the
      tests and the benchmark give to the pools;
    - [Programs.v] (server.cpp, client_sync.cpp, and the benchmarks of the buffer,
      of callbacks and of false sharing): what the main functions make of their
      arguments, and the loops that are measured.

    ** How the code is modelled

    Sequential code is functions to [option], where [None] is undefined behaviour
    (an index out of range, a null pointer, an overflow of [int], a [size_t]
    below zero); exceptions are values of a sum.  Indeterminate memory is a
    parameter ([Uninit]).  Concurrent code is a state with the program counters
    of the threads, and a function that performs the next step of one of them,
    [None] when it is blocked; theorems are about every schedule.  A step is one
    access to shared memory in the lock-free code and the spinning locks, and
    one critical section, system call or execution of a callback elsewhere.
    Condition variables wake spuriously.  Memory is sequentially consistent, as
    the code's barriers and x86's atomic instructions mean it to be.  Results of
    system calls, the time and the disk are arguments.

    ** What is proved

    - Data: the buffer, ring and hash table refine a queue, a bounded queue and a
      map; the list set refines a set where malloc's block has room for its node,
      and writes outside the block where it has not; the iterator walks the contents of the buffer;
      [OpGenerator.v] shows that the stripes do not overflow and partition their
      range.
    - Text: the parser accepts the well-formed requests and no others, reads back
      what [toBuffer] wrote, and waits for more on a prefix, all but where the
      contents end with a carriage return and with their block of memory (there
      it reads the byte behind); command lines read back.
    - Lock-free data: the list is linearizable to a map, and so is the hash table
      on it, growth included; its state stays well typed (the operations of
      its vector taken as single steps), its counter is the number of keys when
      no operation runs, its destructor frees every node once; a retired node is
      kept or freed, once, and kept while protected; the kept ones are bounded.
    - Concurrency: mutual exclusion of the locks (and when the queue lock lacks
      it), the barrier, no lost wake-ups or readiness, every task runs once and
      in order, both pools stop; bytes are sent and read once and in order, and
      references protect the connection; no descriptor is used after it was
      freed.
    - Service: pipelined requests are answered in order, a client reads back what
      the server wrote and gives it to the right callback, also from end to end
      through the threads of the connection; files are served from the cache,
      whose size is bounded; the answer of the key-value service to the text of every [int];
      [stop()] and [run()] return only when everything has stopped, with the
      exact condition under which they never do.
    - Clients: the counters of the lock tests are exact over every lock with the
      laws; the tests of the cache pass in every interleaving; the asynchronous
      client has one request under way; a descriptor is read as a tape; the
      report of a crash has the stack of every registered thread, once.
    - Where the code falls short the theorem says so ([mcs_test_hangs],
      [empty_write_blocks], [kv_replies], [concurrent_stops_deadlock],
      [growth_unprotected], [accept_loop], [crash_report],
      [parse_request_sound], [stats_count_last_second],
      [list_set_refines_set]).

    ** Bounds and fuel

    Loops that are not structural take fuel, and the theorems give results, not
    just properties of results.  The loops of [readDone] get one turn more than
    there are bytes, since a message has at least one; the parser's the number of
    bytes; a number's digits one more than its binary logarithm; those of the
    lists the number of nodes; [accept_loop] states how much [doAccept] needs,
    and that nothing is enough where the code does not end.  [uint32_t] and
    [size_t] wrap or fail at their width; the pools and connections count
    threads, tasks and references in [nat], the cache its bytes and pins in [Z].

    ** What is not modelled

    Weaker memory than sequential consistency; what a [std::vector] that two
    threads use at once does (its operations are steps of [ConcurrentHashTable.v],
    which shows how the growth relies on that); the reuse of memory addresses;
    floating-point numbers and the statistics made of them; the text that the
    programs print; [simplefifo.cpp], which is not part of the system; the tests
    not named above, which call the classes one after the other; and the build. *)

From Stdlib Require Export Ascii String ZArith Lia.
From stdpp Require Export base tactics numbers option list gmap strings relations.

#[export] Set Warnings "-clear-no-such-hyp".

(** ** Notations and conventions *)

Declare Scope srv_scope.
Delimit Scope srv_scope with srv.
Open Scope srv_scope.

(** [std::string] and raw memory are lists of bytes. *)
Abbreviation bytes := (list ascii).

Definition b_ (s : string) : bytes := String.list_ascii_of_string s.

Definition CR : ascii := ascii_of_nat 13.
Definition LF : ascii := ascii_of_nat 10.
Definition SP : ascii := ascii_of_nat 32.
Definition NUL : ascii := ascii_of_nat 0.
Definition SLASH : ascii := ascii_of_nat 47.
Definition crlf : bytes := [CR; LF].

(** [b ' n] is a text line: its bytes followed by CR LF. *)
Definition line_ (s : string) : bytes := b_ s ++ crlf.

(** [os << n] for an unsigned [n]. *)
Fixpoint decimal_loop (fuel : nat) (n : Z) (acc : bytes) : bytes :=
  match fuel with
  | 0 => acc
  | S fuel =>
    let acc := ascii_of_nat (48 + Z.to_nat (n mod 10)) :: acc in
    if decide (n / 10 = 0)%Z then acc else decimal_loop fuel (n / 10) acc
  end.

Definition decimal (n : Z) : bytes := decimal_loop (S (Z.to_nat (Z.log2 n))) n [].

(** An unsigned subtraction of [size_t] values.  [None] marks the case in
    which the machine subtraction would wrap around; the theorems about a
    well-formed state show that it does not arise there. *)
Definition usub (a b : nat) : option nat :=
  if decide (b ≤ a) then Some (a - b) else None.

(** ** Automation *)

(** Hints that close the side conditions of list arithmetic. *)
Create HintDb srv.
Create Rewrite HintDb srv.

(** [opt_step] evaluates one bind of the option monad of the goal or of a
    hypothesis. *)
Ltac opt_case :=
  match goal with
  | H : context [mbind _ ?m] |- _ => destruct m eqn:?; cbn in H; [|discriminate H]
  | |- context [mbind _ ?m] => destruct m eqn:?; cbn
  end.

(** ** Unsigned subtraction *)

Lemma usub_Some a b : b ≤ a → usub a b = Some (a - b).
Proof. intros. unfold usub. by rewrite decide_True. Qed.

Lemma usub_is_Some a b c : usub a b = Some c → b ≤ a ∧ c = a - b.
Proof. unfold usub. intros. case_decide; simplify_eq. done. Qed.

#[export] Hint Rewrite usub_Some using lia : srv.

(** ** Generic lemmas on lists *)

Section lists.
Context {A : Type}.
Implicit Types l k : list A.

Lemma drop_app_l n l k : n ≤ length l → drop n (l ++ k) = drop n l ++ k.
Proof. intros. by rewrite drop_app_le. Qed.

Lemma take_S_snoc n l x : l !! n = Some x → take (S n) l = take n l ++ [x].
Proof. apply take_S_r. Qed.

Lemma lookup_snoc l x : (l ++ [x]) !! length l = Some x.
Proof. by apply list_lookup_middle. Qed.

Lemma lookup_snoc_eq l x n : n = length l → (l ++ [x]) !! n = Some x.
Proof. intros ->. apply lookup_snoc. Qed.

Lemma snoc_inv l n : length l = S n → ∃ k x, l = k ++ [x] ∧ length k = n.
Proof.
  intros Hl. destruct (exists_last (l:=l)) as (k & x & ->).
  { intros ->. done. }
  exists k, x. rewrite length_app in Hl; cbn in Hl. split; [done|lia].
Qed.

Lemma snoc_lookup_inv l x y n : (l ++ [x]) !! n = Some y → n = length l → y = x.
Proof. intros H ->. rewrite lookup_snoc in H. congruence. Qed.

Lemma insert_snoc l x y n : n = length l → <[n := y]> (l ++ [x]) = l ++ [y].
Proof. intros ->. rewrite insert_app_r_alt by lia. by rewrite Nat.sub_diag. Qed.

Lemma concat_snoc (ls : list (list A)) l : concat (ls ++ [l]) = concat ls ++ l.
Proof. rewrite concat_app. cbn. by rewrite app_nil_r. Qed.

Lemma drop_drop' n m l : drop n (drop m l) = drop (m + n) l.
Proof. apply drop_drop. Qed.

Lemma take_take_min n m l : n ≤ m → take n (take m l) = take n l.
Proof. intros. rewrite take_take. f_equal. lia. Qed.
End lists.

Lemma zip_with_snoc {A B C} (f : A → B → C) l k x y :
  length l = length k →
  zip_with f (l ++ [x]) (k ++ [y]) = zip_with f l k ++ [f x y].
Proof. intros. by rewrite zip_with_app. Qed.

(** Writing [d] at offset [o] of a memory block. *)
Definition mem_write (m : bytes) (o : nat) (d : bytes) : option bytes :=
  if decide (o + length d ≤ length m)
  then Some (take o m ++ d ++ drop (o + length d) m)
  else None.

Lemma mem_write_Some m o d :
  o + length d ≤ length m →
  mem_write m o d = Some (take o m ++ d ++ drop (o + length d) m).
Proof. intros. unfold mem_write. by rewrite decide_True. Qed.

Lemma mem_write_length m o d m' : mem_write m o d = Some m' → length m' = length m.
Proof.
  unfold mem_write. case_decide; intros; simplify_eq.
  rewrite !length_app, length_take, length_drop. lia.
Qed.

Lemma mem_write_take m o d m' :
  mem_write m o d = Some m' → take (o + length d) m' = take o m ++ d.
Proof.
  unfold mem_write. case_decide as Hd; intros; simplify_eq.
  rewrite app_assoc, take_app_le.
  - rewrite take_ge; [done|]. rewrite length_app, length_take. lia.
  - rewrite length_app, length_take. lia.
Qed.

(** ** Filters that keep everything or nothing *)

Lemma filter_keep {A} (P : A → Prop) `{∀ x, Decision (P x)} l : Forall P l → filter P l = l.
Proof. induction 1; [done|]. by rewrite filter_cons_True, IHForall. Qed.

Lemma filter_drop {A} (P : A → Prop) `{∀ x, Decision (P x)} l :
  Forall (λ x, ¬ P x) l → filter P l = [].
Proof. induction 1; [done|]. by rewrite filter_cons_False. Qed.

(** ** Sums over a list *)

Section tally.
Context {A : Type} (f : A → nat).

Fixpoint tally (l : list A) : nat :=
  match l with [] => 0 | x :: l => f x + tally l end.

Lemma tally_insert l i x y : l !! i = Some x → tally (<[i := y]> l) + f x = tally l + f y.
Proof.
  revert i. induction l as [|z l IH]; intros [|i] Hi; cbn in *; simplify_eq; [lia|].
  specialize (IH i Hi). rewrite <- !Nat.add_assoc. f_equal. exact IH.
Qed.

Lemma tally_le l i x : l !! i = Some x → f x ≤ tally l.
Proof.
  revert i. induction l as [|z l IH]; intros [|i] Hi; cbn in *; simplify_eq; [lia|].
  specialize (IH i Hi). lia.
Qed.

Lemma tally_ex l : 0 < tally l → ∃ i x, l !! i = Some x ∧ 0 < f x.
Proof.
  induction l as [|z l IH]; cbn; [lia|]. intros Hp.
  destruct (decide (0 < f z)); [by exists 0, z|].
  destruct IH as (i & x & ? & ?); [lia|]. by exists (S i), x.
Qed.

Lemma tally_app l k : tally (l ++ k) = tally l + tally k.
Proof. induction l as [|z l IH]; cbn; [done|]. rewrite IH. lia. Qed.

Lemma tally_two l i j x y : l !! i = Some x → l !! j = Some y → i ≠ j → f x + f y ≤ tally l.
Proof.
  revert i j. induction l as [|z l IH]; intros [|i] [|j] Hi Hj Hne; cbn in *; simplify_eq; try lia.
  - apply tally_le in Hj. lia.
  - apply tally_le in Hi. lia.
  - specialize (IH i j Hi Hj). lia.
Qed.

Lemma tally_single l i x :
  l !! i = Some x → (∀ j y, l !! j = Some y → j ≠ i → f y = 0) → tally l = f x.
Proof.
  revert i. induction l as [|z l IH]; intros [|i] Hi Ho; cbn in *; simplify_eq.
  - enough (tally l = 0) by lia. clear IH. induction l as [|y l IH]; cbn; [done|].
    rewrite (Ho 1 y) by done. rewrite IH; [done|]. intros [|j] y' Hj ?; [done|]. by apply (Ho (S (S j))).
  - rewrite (Ho 0 z) by done. cbn. apply (IH i); [done|]. intros j y Hj ?. apply (Ho (S j)); [done|lia].
Qed.

Lemma tally_mono (g : A → A) l : (∀ x, f x ≤ f (g x)) → tally l ≤ tally (map g l).
Proof.
  intros Hg. induction l as [|z l IH]; cbn; [lia|]. specialize (Hg z). lia.
Qed.
End tally.

(** ** Interleaved executions

    A concurrent component is a state and, for each label (a thread, or a thread
    and a choice), a function that performs the thread's next atomic action;
    [None] says that it is blocked.  A schedule is the list of the labels in
    the order in which they act. *)
Section exec.
Context {L St : Type} (step : L → St → option St).

Fixpoint exec (sched : list L) (s : St) : option St :=
  match sched with
  | [] => Some s
  | t :: sched => s' ← step t s; exec sched s'
  end.

Definition reachable (s0 s : St) : Prop := ∃ sched, exec sched s0 = Some s.

Lemma exec_app l k s : exec (l ++ k) s = s' ← exec l s; exec k s'.
Proof.
  revert s. induction l as [|t l IH]; intros s; cbn; [done|].
  destruct (step t s); cbn; [apply IH|done].
Qed.

(** A concrete schedule is run by computing whether it gets to its end; the
    state it leads to is then named, not computed. *)
Definition succeeds (sched : list L) (s : St) : bool :=
  match exec sched s with Some _ => true | None => false end.

Lemma exec_default sched d s : succeeds sched s = true → exec sched s = Some (default d (exec sched s)).
Proof. unfold succeeds. by destruct (exec sched s). Qed.

Lemma reachable_refl s : reachable s s.
Proof. by exists []. Qed.

Lemma reachable_step l s s' : step l s = Some s' → reachable s s'.
Proof. intros Hs. exists [l]. cbn. by rewrite Hs. Qed.

Lemma reachable_trans s1 s2 s3 : reachable s1 s2 → reachable s2 s3 → reachable s1 s3.
Proof. intros [l1 H1] [l2 H2]. exists (l1 ++ l2). by rewrite exec_app, H1. Qed.

(** A property that every action keeps holds in every reachable state. *)
Lemma exec_invariant (Inv : St → Prop) :
  (∀ t s s', Inv s → step t s = Some s' → Inv s') →
  ∀ sched s s', Inv s → exec sched s = Some s' → Inv s'.
Proof.
  intros Hstep sched. induction sched as [|t sched IH]; intros s s' Hs He; cbn in He.
  - by simplify_eq.
  - destruct (step t s) as [s1|] eqn:E; cbn in He; [|done].
    eapply IH; [|exact He]. by eapply Hstep.
Qed.

Lemma reachable_invariant (Inv : St → Prop) s0 s :
  (∀ t s s', Inv s → step t s = Some s' → Inv s') → Inv s0 → reachable s0 s → Inv s.
Proof. intros Hstep H0 [sched He]. by eapply exec_invariant. Qed.
End exec.

(** Local states of the threads: a function updated at one thread. *)
Definition upd {A} (t : nat) (x : A) (f : nat → A) : nat → A :=
  λ u, if decide (u = t) then x else f u.

Lemma upd_eq {A} t (x : A) f : upd t x f t = x.
Proof. unfold upd. by rewrite decide_True. Qed.
Lemma upd_ne {A} t u (x : A) f : u ≠ t → upd t x f u = f u.
Proof. intros. unfold upd. by rewrite decide_False. Qed.

(** [upd_cases u t] splits on whether [u] is the thread that was updated. *)
Ltac upd_cases u t :=
  destruct (decide (u = t)) as [->|?];
  [rewrite ?upd_eq in * | rewrite ?(upd_ne t u) in * by done].
