(* ===== verification/ParamMap.v ===== *)
(** * Command lines ([param_map.hpp], [.cpp])

    A map from the names of parameters to their values, with defaults, which a
    command line of the form [--name] or [--name=value] changes.  [printUsage]
    only prints, and is left out. *)

From S2P Require Import Prelude.

Module ParamMap.

Record ParamMap := mkParamMap {
  key_to_value_map_ : gmap bytes bytes;
  key_to_description_map_ : gmap bytes bytes;
  program_name_ : bytes
}.

(** [insert] of an [unordered_map]: whether the key is new. *)
Definition map_insert (k v : bytes) (m : gmap bytes bytes) : bool * gmap bytes bytes :=
  match m !! k with Some _ => (false, m) | None => (true, <[k := v]> m) end.

Definition addParam (param default_string description : bytes) (p : ParamMap) : bool * ParamMap :=
  let '(new, values) := map_insert param default_string (key_to_value_map_ p) in
  if (new : bool) then
    (true, mkParamMap values (map_insert param description (key_to_description_map_ p)).2 (program_name_ p))
  else (false, p).

(** The constructor. *)
Definition make : ParamMap :=
  (addParam (b_ "help") [] (b_ "prints the command usage message") (mkParamMap ∅ ∅ [])).2.

(** The value, which the code writes through a pointer that may be [NULL]. *)
Definition getParam (param : bytes) (p : ParamMap) : option bytes := key_to_value_map_ p !! param.

(** [s.find(c)] of a character; [s.find("--") == 0]. *)
Definition find_char (c : ascii) (s : bytes) : option nat := fst <$> list_find (eq c) s.
Definition starts (pre s : bytes) : bool := bool_decide (take (length pre) s = pre).

Definition EQ : ascii := "="%char.

(** The body of [parseArgv]'s loop: the name and the value, or [return false]. *)
Definition parse_param (param : bytes) : option (bytes * bytes) :=
  if negb (starts (b_ "--") param) then None
  else
    let pos := find_char EQ param in
    if decide (pos = Some 2) then None
    else
      let '(name, value) :=
        match pos with
        | None => (drop 2 param, [])
        | Some pos => (take (pos - 2) (drop 2 param), drop (pos + 1) param)
        end in
      if decide (name = b_ "help") then None else Some (name, value).

Fixpoint parse_loop (args : list bytes) (p : ParamMap) : bool * ParamMap :=
  match args with
  | [] => (true, p)
  | param :: args =>
    match parse_param param with
    | None => (false, p)
    | Some (name, value) =>
      parse_loop args (mkParamMap (<[name := value]> (key_to_value_map_ p)) (key_to_description_map_ p) (program_name_ p))
    end
  end.

(** [argv[0]] is the program's name; there is always one. *)
Definition parseArgv (program : bytes) (args : list bytes) (p : ParamMap) : bool * ParamMap :=
  parse_loop args (mkParamMap (key_to_value_map_ p) (key_to_description_map_ p) program).

(** ** What a command line means *)

(** A parameter with or without a value. *)
Definition format (x : bytes * option bytes) : bytes :=
  b_ "--" ++ x.1 ++ match x.2 with Some v => EQ :: v | None => [] end.

(** Names: no [=], not [help]; one without a value may be empty. *)
Definition param_ok (x : bytes * option bytes) : Prop :=
  (EQ ∉ x.1) ∧ x.1 ≠ b_ "help" ∧ (x.1 = [] → x.2 = None).

Definition stored (x : bytes * option bytes) : bytes * bytes := (x.1, default [] x.2).

(** The last value given for a name wins over the one before. *)
Definition given (l : list (bytes * option bytes)) (m : gmap bytes bytes) : gmap bytes bytes :=
  foldl (λ m x, <[x.1 := x.2]> m) m (map stored l).

Lemma find_char_app c s t : c ∉ s → find_char c (s ++ c :: t) = Some (length s).
Proof.
  intros Hn. unfold find_char. induction s as [|a s IH]; cbn.
  - by rewrite decide_True.
  - rewrite elem_of_cons in Hn. rewrite decide_False by (intros ->; tauto).
    specialize (IH ltac:(tauto)). destruct (list_find (eq c) (s ++ c :: t)) as [[i x]|]; cbn in *; [|done].
    injection IH as ->. done.
Qed.

Lemma find_char_none c s : c ∉ s → find_char c s = None.
Proof.
  intros Hn. unfold find_char. destruct (list_find (eq c) s) as [[i x]|] eqn:E; [|done].
  apply list_find_Some in E as (E & <- & _). apply list_elem_of_lookup_2 in E. done.
Qed.

Lemma parse_format x : param_ok x → parse_param (format x) = Some (stored x).
Proof.
  destruct x as [name v]. intros (Hn & Hh & Hv). cbn [fst snd] in *. unfold parse_param, format. cbn [fst snd].
  assert (EQ ∉ b_ "--" ++ name) as Hn2.
  { rewrite elem_of_app. intros [Hin|?]; [|done]. revert Hin. apply (bool_decide_unpack _). vm_compute. exact I. }
  assert (∀ s, starts (b_ "--") (b_ "--" ++ s) = true) as Hst by (intros s; by apply bool_decide_eq_true).
  rewrite Hst. cbn [negb]. unfold stored. cbn [fst snd]. destruct v as [v|].
  - rewrite app_assoc, find_char_app by done.
    assert (length (b_ "--" ++ name) = S (S (length name))) as Hl by done. rewrite Hl.
    rewrite decide_False.
    2: { intros [= Hz]. destruct name; [|done]. by specialize (Hv eq_refl). }
    assert (drop 2 ((b_ "--" ++ name) ++ EQ :: v) = name ++ EQ :: v) as -> by done.
    replace (S (S (length name)) - 2) with (length name) by lia. rewrite take_app_length.
    rewrite decide_False by done. rewrite drop_app_ge by lia. rewrite Hl.
    replace (S (S (length name)) + 1 - S (S (length name))) with 1 by lia. done.
  - rewrite app_nil_r, find_char_none by done. rewrite decide_False by done. cbn [drop b_ app].
    by rewrite decide_False.
Qed.

Lemma parse_loop_app l rest : Forall param_ok l → ∀ p,
  parse_loop (map format l ++ rest) p =
  parse_loop rest (mkParamMap (given l (key_to_value_map_ p)) (key_to_description_map_ p) (program_name_ p)).
Proof.
  induction 1 as [|x l Hx Hl IH]; intros p; cbn [map app].
  - by destruct p.
  - cbn [parse_loop]. rewrite parse_format by done. destruct x as [n v]. exact (IH _).
Qed.

(** Parsing undoes formatting: a command line of parameters is accepted, and every
    name gets the last value given for it, the empty one for a name without [=],
    or keeps its default.  Anything else stops the parsing with [false], and what
    came before it is kept; this holds for [--help], for [--=], and for an
    argument that does not start with [--]. *)
Lemma argv_roundtrip prog l rest bad p :
  Forall param_ok l →
  parseArgv prog (map format l) p =
    (true, mkParamMap (given l (key_to_value_map_ p)) (key_to_description_map_ p) prog) ∧
  (bad = b_ "--help" ∨ starts (b_ "--=") bad = true ∨ starts (b_ "--") bad = false →
   parseArgv prog (map format l ++ bad :: rest) p =
    (false, mkParamMap (given l (key_to_value_map_ p)) (key_to_description_map_ p) prog)).
Proof.
  intros Hl. unfold parseArgv. split.
  - rewrite <- (app_nil_r (map format l)). by rewrite parse_loop_app.
  - intros Hbad. rewrite parse_loop_app by done. cbn [parse_loop].
    assert (parse_param bad = None) as ->; [|done]. unfold parse_param.
    destruct Hbad as [-> |[Hb|Hb]]; [done| |by rewrite Hb].
    apply bool_decide_eq_true in Hb. change (length (b_ "--=")) with 3 in Hb. rewrite <- (take_drop 3 bad), Hb. cbn [app b_ negb].
    unfold starts. cbn [take length b_]. done.
Qed.

End ParamMap.
