(* ===== verification/OpGenerator.v ===== *)
(** * The generators of operations ([op_generator.hpp], [.cpp])

    A generator fills the array of one worker; the workers' arrays are stripes of
    the same range.  An [int] is a [Z]; an operation whose result is out of range
    has no meaning, and gives [None]. *)

From S2P Require Import Prelude.

Module OpGenerator.

Definition INT_MIN : Z := - 2 ^ 31.
Definition INT_MAX : Z := 2 ^ 31 - 1.

Definition int (x : Z) : option Z := if decide (INT_MIN ≤ x ≤ INT_MAX)%Z then Some x else None.

(** [num_workers*i + me + 1]. *)
Definition op_at (num_workers me i : Z) : option Z :=
  x ← int (num_workers * i); x ← int (x + me); int (x + 1).

(** [for (int i=0; i<size; i++) ops[i] = f(i)]. *)
Fixpoint fill (f : Z → option Z) (i : Z) (size : nat) : option (list Z) :=
  match size with
  | 0 => Some []
  | S size => x ← f i; l ← fill f (i + 1) size; Some (x :: l)
  end.

Definition AscPositiveStripe (num_workers me : Z) (size : nat) : option (list Z) :=
  fill (op_at num_workers me) 0 size.

Definition DescNegativeStripe (num_workers me : Z) (size : nat) : option (list Z) :=
  fill (λ i, x ← op_at num_workers me i; int (- x)) 0 size.

(** [random_shuffle] is some rearrangement, given by its random numbers. *)
Definition ShufflePositiveStripe (random_shuffle : list Z → list Z) (num_workers me : Z) (size : nat)
    : option (list Z) :=
  ops ← fill (op_at num_workers me) 0 size; Some (random_shuffle ops).

Definition ShuffleNegativeStripe (random_shuffle : list Z → list Z) (num_workers me : Z) (size : nat)
    : option (list Z) :=
  ops ← fill (λ i, x ← op_at num_workers me i; int (- x)) 0 size; Some (random_shuffle ops).

(** ** The stripes *)

Lemma int_in x : (INT_MIN ≤ x ≤ INT_MAX)%Z → int x = Some x.
Proof. intros. unfold int. by rewrite decide_True. Qed.

Lemma fill_map f g : ∀ size i, (∀ j, (i ≤ j < i + Z.of_nat size)%Z → f j = Some (g j)) →
  fill f i size = Some (map g (seqZ i (Z.of_nat size))).
Proof.
  induction size as [|size IH]; intros i Hf; [done|]. cbn [fill].
  rewrite Hf by lia. cbn [mbind option_bind]. rewrite IH by (intros j Hj; apply Hf; lia). cbn [mbind option_bind].
  rewrite (seqZ_cons i (Z.of_nat (S size))) by lia. cbn [map].
  replace (Z.pred (Z.of_nat (S size))) with (Z.of_nat size) by lia.
  by replace (Z.succ i) with (i + 1)%Z by lia.
Qed.

(** What a worker's array holds. *)
Definition stripe (k me : Z) (size : nat) : list Z := map (λ i, (k * i + me + 1)%Z) (seqZ 0 (Z.of_nat size)).

Section bounds.
Context (k : Z) (size : nat) (Hk : (0 < k)%Z) (Hmax : (k * Z.of_nat size ≤ INT_MAX)%Z).

Lemma op_in me i : (0 ≤ me < k)%Z → (0 ≤ i < Z.of_nat size)%Z →
  (1 ≤ k * i + me + 1 ≤ k * Z.of_nat size)%Z.
Proof. intros Hm Hi. nia. Qed.

Lemma op_at_in me i : (0 ≤ me < k)%Z → (0 ≤ i < Z.of_nat size)%Z →
  op_at k me i = Some (k * i + me + 1)%Z.
Proof.
  intros Hm Hi. pose proof (op_in me i Hm Hi). unfold op_at, INT_MAX in *.
  assert (0 ≤ k * i)%Z by nia. unfold INT_MIN in *.
  rewrite int_in by (unfold INT_MIN, INT_MAX; lia). cbn [mbind option_bind].
  rewrite int_in by (unfold INT_MIN, INT_MAX; lia). cbn [mbind option_bind].
  by rewrite int_in by (unfold INT_MIN, INT_MAX; lia).
Qed.

Lemma asc_fill me : (0 ≤ me < k)%Z → AscPositiveStripe k me size = Some (stripe k me size).
Proof. intros Hm. apply fill_map. intros j Hj. apply op_at_in; lia. Qed.

Lemma desc_fill me : (0 ≤ me < k)%Z → DescNegativeStripe k me size = Some (map Z.opp (stripe k me size)).
Proof.
  intros Hm. unfold stripe. rewrite map_map. apply fill_map. intros j Hj. rewrite op_at_in by lia.
  cbn [mbind option_bind]. apply int_in. pose proof (op_in me j Hm ltac:(lia)). unfold INT_MIN, INT_MAX in *. lia.
Qed.
End bounds.

(** Rows and columns. *)
Lemma concat_swap {A B} (f : A → B → Z) ms js :
  concat (map (λ m, map (f m) js) ms) ≡ₚ concat (map (λ i, map (λ m, f m i) ms) js).
Proof.
  induction js as [|i js IH]; cbn [map concat].
  - induction ms as [|m ms IHm]; cbn; [done|exact IHm].
  - rewrite <- IH. clear IH. induction ms as [|m ms IHm]; cbn [map concat]; [done|].
    cbn [app]. rewrite IHm. solve_Permutation.
Qed.

Lemma row k i : (0 ≤ k)%Z → map (λ me, (k * i + me + 1)%Z) (seqZ 0 k) = seqZ (k * i + 1) k.
Proof.
  intros Hk. apply list_eq. intros j. change (map ?f ?l) with (f <$> l). rewrite list_lookup_fmap.
  destruct (decide (Z.of_nat j < k)%Z).
  - rewrite !lookup_seqZ_lt by lia. cbn. f_equal. lia.
  - by rewrite !lookup_seqZ_ge by lia.
Qed.

Lemma rows k : (0 ≤ k)%Z → ∀ size,
  concat (map (λ i, seqZ (k * i + 1) k) (seqZ 0 (Z.of_nat size))) = seqZ 1 (k * Z.of_nat size).
Proof.
  intros Hk. induction size as [|size IH]; [by rewrite Z.mul_0_r|].
  rewrite Nat2Z.inj_succ, <- Z.add_1_r. rewrite seqZ_app by lia. cbn [Z.add]. rewrite map_app, concat_app, IH.
  rewrite Z.mul_add_distr_l, Z.mul_1_r, seqZ_app by nia. f_equal.
  rewrite seqZ_cons by lia. cbn. rewrite app_nil_r. f_equal. lia.
Qed.

(** C40. While the largest number fits an [int], no generator overflows, whatever the
    shuffle; the positive arrays of all workers together are the numbers from 1
    to [num_workers * size], each in one array; the negative ones are their
    opposites. *)
Theorem stripes_partition (random_shuffle : list Z → list Z) k size :
  (∀ l, random_shuffle l ≡ₚ l) → (0 < k)%Z → (k * Z.of_nat size ≤ INT_MAX)%Z →
  (∀ me, (0 ≤ me < k)%Z →
     AscPositiveStripe k me size = Some (stripe k me size) ∧
     DescNegativeStripe k me size = Some (map Z.opp (stripe k me size)) ∧
     (∃ l, ShufflePositiveStripe random_shuffle k me size = Some l ∧ l ≡ₚ stripe k me size) ∧
     (∃ l, ShuffleNegativeStripe random_shuffle k me size = Some l ∧ l ≡ₚ map Z.opp (stripe k me size))) ∧
  concat (map (λ me, stripe k me size) (seqZ 0 k)) ≡ₚ seqZ 1 (k * Z.of_nat size).
Proof.
  intros Hs Hk Hmax. split.
  - intros me Hm. pose proof (asc_fill k size Hk Hmax me Hm) as Ha. pose proof (desc_fill k size Hk Hmax me Hm) as Hd.
    split; [exact Ha|]. split; [exact Hd|]. unfold ShufflePositiveStripe, ShuffleNegativeStripe.
    unfold AscPositiveStripe in Ha. unfold DescNegativeStripe in Hd. rewrite Ha, Hd. cbn [mbind option_bind].
    split; (eexists; split; [reflexivity|apply Hs]).
  - unfold stripe. rewrite concat_swap. rewrite <- rows by lia.
    erewrite map_ext; [reflexivity|]. intros i. apply row. lia.
Qed.

Lemma stripes_partition_witness : AscPositiveStripe 3 1 4 = Some [2; 5; 8; 11]%Z.
Proof.
  destruct (stripes_partition reverse 3 4) as [H _].
  - intros l. apply reverse_Permutation.
  - lia.
  - unfold INT_MAX. lia.
  - refine (proj1 (H 1%Z _)). lia.
Defined.
End OpGenerator.
