(* ===== verification/Buffer.v ===== *)
(** * The streaming buffer ([buffer.hpp], [buffer.cpp], [mem_piece.hpp])

    The state is the one of the class: a deque of memory chunks, the deque of
    their fill counts, and the write and read positions.  Every operation of
    the class is a function to [option]: [None] is undefined behaviour in the
    source (indexing a deque or a chunk out of its range, or a [size_t]
    subtraction below zero).  The bytes of a fresh chunk are indeterminate;
    [uninit_byte] stands for them and every theorem holds for all its values. *)

From S2P Require Import Prelude.

(** The value of a byte of memory that was never written. *)
Class Uninit := uninit_byte : ascii.

Module MemPiece.

(** A [MemPiece] is the pointed-to bytes; [length_] is their number. *)
Record MemPiece := mk { ptr_ : bytes; length_ : nat }.

(** [MemPiece(const char* ptr, int len)]. *)
Definition of_mem (p : bytes) (len : nat) : MemPiece := mk p len.

(** [strlen]: the bytes before the first NUL. *)
Fixpoint c_str (s : bytes) : bytes :=
  match s with
  | [] => []
  | c :: s' => if decide (c = NUL) then [] else c :: c_str s'
  end.

(** [MemPiece(const char* ptr)]. *)
Definition of_cstr (s : bytes) : MemPiece := mk s (length (c_str s)).

(** [MemPiece(const std::string& s)]. *)
Definition of_string (s : bytes) : MemPiece := mk s (length s).

Definition len (p : MemPiece) : nat := length_ p.
Definition ptr (p : MemPiece) : bytes := ptr_ p.

(** The bytes a reader of the piece sees. *)
Definition data (p : MemPiece) : bytes := take (len p) (ptr p).

Lemma c_str_prefix s : take (length (c_str s)) s = c_str s.
Proof. induction s as [|c s IH]; cbn; [done|]. case_decide; cbn; congruence. Qed.

Lemma c_str_id s : NUL ∉ s → c_str s = s.
Proof.
  induction s as [|c s IH]; cbn; intros Hs; [done|].
  apply not_elem_of_cons in Hs as [? ?]. rewrite decide_False by done.
  f_equal. auto.
Qed.

Lemma data_of_string s : data (of_string s) = s.
Proof. unfold data, of_string; cbn. apply take_ge. lia. Qed.

Lemma data_of_cstr s : data (of_cstr s) = c_str s.
Proof. apply c_str_prefix. Qed.
End MemPiece.

Module Buffer.

(** [Buffer::BlockSize]. *)
Definition BlockSize : nat := Z.to_nat 4096.

(** A chunk is never unfolded into a numeral by simplification. *)
Global Opaque BlockSize.

(** [Buffer::Position]. *)
Record Position := mkPos { idx : nat; off : nat }.

#[export] Instance Position_eq_dec : EqDecision Position.
Proof. solve_decision. Defined.

Record Buffer := mkBuffer {
  chunks_ : list bytes;
  sizes_ : list nat;
  wpos_ : Position;
  rpos_ : Position
}.

Section ops.
Context `{Uninit}.
Implicit Types b other : Buffer.

(** [writeSize()]: [BlockSize - wpos_.off]. *)
Definition writeSize b : option nat := usub BlockSize (off (wpos_ b)).

(** [readSize()]: [sizes_[rpos_.idx] - rpos_.off]. *)
Definition readSize b : option nat :=
  s ← sizes_ b !! idx (rpos_ b);
  usub s (off (rpos_ b)).

(** The bytes at [readPtr()] up to [readSize()]. *)
Definition readArea b : option bytes :=
  n ← readSize b;
  c ← chunks_ b !! idx (rpos_ b);
  Some (take n (drop (off (rpos_ b)) c)).

(** The memory at [writePtr()] up to the end of the chunk. *)
Definition writeArea b : option bytes :=
  c ← chunks_ b !! idx (wpos_ b);
  Some (drop (off (wpos_ b)) c).

Definition numChunks b : nat := length (chunks_ b).

(** [addChunk()]: the position of the fresh chunk and the new state;
    [wpos_] is set by the caller. *)
Definition addChunk b : Position * Buffer :=
  let chunks := chunks_ b ++ [replicate BlockSize uninit_byte] in
  (mkPos (length chunks - 1) 0,
   mkBuffer chunks (sizes_ b ++ [0]) (wpos_ b) (rpos_ b)).

Definition set_wpos (p : Position) b : Buffer :=
  mkBuffer (chunks_ b) (sizes_ b) p (rpos_ b).

Definition set_rpos (p : Position) b : Buffer :=
  mkBuffer (chunks_ b) (sizes_ b) (wpos_ b) p.

(** [wpos_ = addChunk()]. *)
Definition newChunk b : Buffer :=
  let '(p, b') := addChunk b in set_wpos p b'.

(** The constructor: [wpos_(addChunk()), rpos_(wpos_)]. *)
Definition new : Buffer :=
  let '(p, b) := addChunk (mkBuffer [] [] (mkPos 0 0) (mkPos 0 0)) in
  set_rpos p (set_wpos p b).

(** [dropChunks(n)]. *)
Definition dropChunks (n : nat) b : option Buffer :=
  if decide (n = 0) then Some b else
  w ← usub (idx (wpos_ b)) n;
  r ← usub (idx (rpos_ b)) n;
  if decide (n ≤ length (chunks_ b)) then
    Some (mkBuffer (drop n (chunks_ b)) (drop n (sizes_ b))
            (mkPos w (off (wpos_ b))) (mkPos r (off (rpos_ b))))
  else None.

(** [reserve(bytes)]. *)
Definition reserve (n : nat) b : option (bool * Buffer) :=
  if decide (BlockSize < n) then Some (false, b) else
  ws ← writeSize b;
  if decide (n ≤ ws) then Some (true, b) else
  let should_advance := bool_decide (rpos_ b = wpos_ b) in
  let b1 := newChunk b in
  if should_advance then
    b2 ← dropChunks 1 (set_rpos (wpos_ b1) b1);
    Some (true, b2)
  else Some (true, b1).

(** [sizes_[i] += n]. *)
Definition addSize (i n : nat) b : option Buffer :=
  s ← sizes_ b !! i;
  Some (mkBuffer (chunks_ b) (<[i := s + n]> (sizes_ b)) (wpos_ b) (rpos_ b)).

(** [wpos_.off += n; sizes_[wpos_.idx] += n]. *)
Definition bump (n : nat) b : option Buffer :=
  addSize (idx (wpos_ b)) n
    (set_wpos (mkPos (idx (wpos_ b)) (off (wpos_ b) + n)) b).

(** [advance(bytes)]. *)
Definition advance (n : nat) b : option (bool * Buffer) :=
  if decide (n = 0) then Some (false, b) else
  ws ← writeSize b;
  if decide (n ≤ ws) then b' ← bump n b; Some (true, b')
  else Some (false, b).

(** Storing [d] at [writePtr()], as a producer or a [read(2)] does: the
    memory of the current chunk changes, its fill count does not. *)
Definition poke (d : bytes) b : option Buffer :=
  c ← chunks_ b !! idx (wpos_ b);
  c' ← mem_write c (off (wpos_ b)) d;
  Some (mkBuffer (<[idx (wpos_ b) := c']> (chunks_ b)) (sizes_ b)
          (wpos_ b) (rpos_ b)).

(** [write(data)]: the loop over the bytes left.  The first turn may store
    nothing (when the chunk is full); each later turn stores at least one
    byte, so one turn more than the number of bytes is fuel enough. *)
Fixpoint write_loop (fuel : nat) (src : bytes) b : option Buffer :=
  if decide (length src = 0) then Some b else
  match fuel with
  | 0 => None
  | S fuel' =>
    ws ← writeSize b;
    let bytes_in_chunk := ws `min` length src in
    b1 ← poke (take bytes_in_chunk src) b;
    b2 ← bump bytes_in_chunk b1;
    let src' := drop bytes_in_chunk src in
    let b3 := if decide (0 < length src' ∨ off (wpos_ b2) = BlockSize)
              then newChunk b2 else b2 in
    write_loop fuel' src' b3
  end.

Definition write (p : MemPiece.MemPiece) b : option Buffer :=
  write_loop (S (MemPiece.len p)) (MemPiece.data p) b.

(** [maybeRemoveLastChunk()]: the chunk removed, if any. *)
Definition maybeRemoveLastChunk b : option (option bytes * Buffer) :=
  s ← sizes_ b !! idx (wpos_ b);
  if decide (s = 0) then
    c ← chunks_ b !! idx (wpos_ b);
    Some (Some c, mkBuffer (take (length (chunks_ b) - 1) (chunks_ b))
                    (take (length (sizes_ b) - 1) (sizes_ b))
                    (wpos_ b) (rpos_ b))
  else Some (None, b).

Definition isConsumed b : bool :=
  bool_decide (idx (rpos_ b) ≠ 0 ∨ off (rpos_ b) ≠ 0).

Definition push_chunk (c : bytes) (s : nat) b : Buffer :=
  mkBuffer (chunks_ b ++ [c]) (sizes_ b ++ [s]) (wpos_ b) (rpos_ b).

(** The result of the operations that log a fatal message and return. *)
Inductive appended := Fatal | Done (this other : Buffer).

(** [appendFrom(other)]; [this] and [other] are distinct buffers. *)
Definition appendFrom b other : option appended :=
  if isConsumed other then Some Fatal else
  n ← readSize other;
  if decide (n = 0) then Some (Done b other) else
  '(last_chunk, b1) ← maybeRemoveLastChunk b;
  '(other_last_chunk, o1) ← maybeRemoveLastChunk other;
  let b2 := mkBuffer (chunks_ b1 ++ chunks_ o1) (sizes_ b1 ++ sizes_ o1)
              (wpos_ b1) (rpos_ b1) in
  back ← last (sizes_ b2);
  let b3 := if decide (back = BlockSize)
            then match last_chunk with
                 | None => (addChunk b2).2
                 | Some c => push_chunk c 0 b2
                 end
            else b2 in
  rs ← readSize b3;
  let b4 := if decide (rs = 0)
            then set_rpos (mkPos (idx (rpos_ b3) + 1) 0) b3 else b3 in
  back' ← last (sizes_ b4);
  let b5 := set_wpos (mkPos (length (chunks_ b4) - 1) back') b4 in
  let o2 := mkBuffer [] [] (wpos_ o1) (rpos_ o1) in
  let o3 := match other_last_chunk with
            | None => newChunk o2
            | Some c => push_chunk c 0 o2
            end in
  Some (Done b5 (set_rpos (wpos_ o3) o3)).

(** The body of the loop of [copyFrom] for one chunk of [other]. *)
Definition copy_chunk (first : bool) (c : bytes) (len : nat) b : option Buffer :=
  ws ← writeSize b;
  let b1 := if decide (first = false ∨ ws < len) then newChunk b else b in
  b2 ← poke (take len c) b1;
  bump len b2.

Fixpoint copy_loop (first : bool) (cs : list (bytes * nat)) b : option Buffer :=
  match cs with
  | [] => Some b
  | (c, len) :: cs' => b' ← copy_chunk first c len b; copy_loop false cs' b'
  end.

(** [copyFrom(other)]. *)
Definition copyFrom b other : option appended :=
  if isConsumed other then Some Fatal else
  n ← readSize other;
  if decide (n = 0) then Some (Done b other) else
  b1 ← copy_loop true (zip (chunks_ other) (sizes_ other)) b;
  Some (Done (if decide (off (wpos_ b1) = BlockSize) then newChunk b1 else b1) other).

(** [consume]: the loop over the chunks before the last one.  Each turn
    either uses up the bytes or moves the read position to the next
    chunk, so [wpos_.idx - rpos_.idx] turns suffice. *)
Fixpoint consume_loop (fuel todo n_drop : nat) b : option (nat * nat * Buffer) :=
  if decide (0 < todo ∧ idx (rpos_ b) < idx (wpos_ b)) then
    match fuel with
    | 0 => None
    | S fuel' =>
      rs ← readSize b;
      let n := todo `min` rs in
      let b1 := set_rpos (mkPos (idx (rpos_ b)) (off (rpos_ b) + n)) b in
      rs' ← readSize b1;
      if decide (rs' = 0)
      then consume_loop fuel' (todo - n) (S n_drop)
             (set_rpos (mkPos (S (idx (rpos_ b1))) 0) b1)
      else consume_loop fuel' (todo - n) n_drop b1
    end
  else Some (todo, n_drop, b).

(** [consume(bytes_to_consume)]. *)
Definition consume (n : nat) b : option Buffer :=
  '(todo, n_drop, b1) ← consume_loop (S (idx (wpos_ b))) n 0 b;
  b2 ← (if decide (0 < todo) then
          rs ← readSize b1;
          Some (set_rpos (mkPos (idx (rpos_ b1))
                            (off (rpos_ b1) + todo `min` rs)) b1)
        else Some b1);
  dropChunks n_drop b2.

(** [byteCount()]. *)
Definition byteCount b : option nat :=
  rs ← readSize b;
  Some (rs + sum_list (drop 1 (sizes_ b))).

(** ** Abstract content *)

(** The filled part of each chunk. *)
Definition filled b : list bytes := zip_with take (sizes_ b) (chunks_ b).

(** What a consumer has left to read. *)
Definition contents b : bytes :=
  drop (off (rpos_ b)) (concat (drop (idx (rpos_ b)) (filled b))).

(** Well-formed buffers: the write position is in the last chunk, at its
    fill count, and the read position is at a byte to read unless it is in
    the last chunk; no chunk in between is empty. *)
Record wf b : Prop := {
  wf_chunks : length (chunks_ b) = S (idx (wpos_ b));
  wf_sizes : length (sizes_ b) = S (idx (wpos_ b));
  wf_block : Forall (λ c, length c = BlockSize) (chunks_ b);
  wf_fill : Forall (λ s, s ≤ BlockSize) (sizes_ b);
  wf_last : sizes_ b !! idx (wpos_ b) = Some (off (wpos_ b));
  wf_order : idx (rpos_ b) ≤ idx (wpos_ b);
  wf_read : ∃ s, sizes_ b !! idx (rpos_ b) = Some s ∧ off (rpos_ b) ≤ s ∧
                 (idx (rpos_ b) < idx (wpos_ b) → off (rpos_ b) < s);
  wf_mid : ∀ i s, idx (rpos_ b) < i < idx (wpos_ b) →
                  sizes_ b !! i = Some s → 0 < s
}.

(** The read position is not at the end of a full last chunk. *)
Definition writable b : Prop :=
  ¬ (rpos_ b = wpos_ b ∧ off (wpos_ b) = BlockSize).

(** The chunk being written has room, as [write] and [copyFrom] leave it. *)
Definition roomy b : Prop := off (wpos_ b) < BlockSize.

(** There is something to read before the write position, or the first
    chunk of [other] fits behind it. *)
Definition copyable b other : Prop :=
  rpos_ b ≠ wpos_ b ∨
  ∀ n, head (sizes_ other) = Some n → off (wpos_ b) + n ≤ BlockSize.
(** ** Uses of a buffer

    The calls the program makes: an output buffer is written to, gets a
    whole cached buffer copied behind a header, and is consumed as the
    socket takes bytes; an input buffer is filled by reserving, reading
    into [writePtr()] and advancing, and is consumed by a parser. *)
Inductive op :=
  | OWrite (p : MemPiece.MemPiece)
  | OWriteCopy (p : MemPiece.MemPiece) (src : Buffer)
  | OFill (n : nat) (d : bytes)
  | OConsume (n : nat).

Definition apply_op b (o : op) : option Buffer :=
  match o with
  | OWrite p => write p b
  | OWriteCopy p src =>
      b1 ← write p b;
      r ← copyFrom b1 src;
      match r with Done b' _ => Some b' | Fatal => None end
  | OFill n d =>
      '(_, b1) ← reserve n b;
      b2 ← poke d b1;
      '(_, b3) ← advance (length d) b2;
      Some b3
  | OConsume n => consume n b
  end.

Fixpoint run_ops (os : list op) b : option Buffer :=
  match os with
  | [] => Some b
  | o :: os' => b' ← apply_op b o; run_ops os' b'
  end.

(** The same calls on an unbounded queue of bytes. *)
Definition queue_op (q : bytes) (o : op) : bytes :=
  match o with
  | OWrite p => q ++ MemPiece.data p
  | OWriteCopy p src => q ++ MemPiece.data p ++ contents src
  | OFill _ d => q ++ d
  | OConsume n => drop n q
  end.

Definition queue_ops (q : bytes) (os : list op) : bytes := fold_left queue_op os q.

Inductive side := Output | Input.

(** The calls made on each kind of buffer. *)
Definition ok_op (sd : side) (o : op) : Prop :=
  match sd, o with
  | Output, OWrite _ => True
  | Output, OWriteCopy p src =>
      MemPiece.data p ≠ [] ∧ wf src ∧ isConsumed src = false
  | Input, OFill n d => 0 < n ≤ BlockSize ∧ length d ≤ n
  | _, OConsume _ => True
  | _, _ => False
  end.
End ops.

Global Arguments contents : simpl never.
Global Arguments filled : simpl never.
Global Arguments newChunk : simpl never.
Global Arguments write : simpl never.
Global Arguments copyFrom : simpl never.
Global Arguments consume : simpl never.

(** ** Basic facts *)

Section facts.
Context `{Uninit}.
Implicit Types b other : Buffer.

Lemma BlockSize_val : Z.of_nat BlockSize = 4096%Z.
Proof. vm_compute. reflexivity. Qed.

Lemma BlockSize_pos : 0 < BlockSize.
Proof. pose proof BlockSize_val. lia. Qed.

(** The shape of a well-formed buffer around its last chunk. *)
Lemma wf_inv b :
  wf b → ∃ cs c ss,
    b = mkBuffer (cs ++ [c]) (ss ++ [off (wpos_ b)])
          (mkPos (length cs) (off (wpos_ b))) (rpos_ b) ∧
    length ss = length cs ∧ length c = BlockSize ∧ off (wpos_ b) ≤ BlockSize.
Proof.
  intros [Hc Hs Hb Hf Hl _ _ _].
  destruct (snoc_inv _ _ Hc) as (cs & c & Ecs & Hcs).
  destruct (snoc_inv _ _ Hs) as (ss & s & Ess & Hss).
  rewrite Ess in Hl, Hf. rewrite <- Hss in Hl. rewrite lookup_snoc in Hl.
  simplify_eq. rewrite Ecs in Hb.
  rewrite Forall_app, Forall_singleton in Hb.
  rewrite Forall_app, Forall_singleton in Hf.
  destruct Hb as [_ Hb], Hf as [_ Hf].
  exists cs, c, ss. split_and!; [|lia|done|done].
  destruct b as [? ? [] ?]; cbn in *. by subst.
Qed.

Lemma filled_snoc cs c ss s w r :
  length ss = length cs →
  filled (mkBuffer (cs ++ [c]) (ss ++ [s]) w r) = zip_with take ss cs ++ [take s c].
Proof. intros. unfold filled; cbn. by rewrite zip_with_snoc. Qed.

(** What lies before the last chunk, from the read position on. *)
Definition front (cs : list bytes) (ss : list nat) (r : Position) : bytes :=
  concat (drop (idx r) (zip_with take ss cs)).

Lemma contents_snoc cs c ss s w r :
  length ss = length cs → idx r ≤ length cs →
  contents (mkBuffer (cs ++ [c]) (ss ++ [s]) w r) =
  drop (off r) (front cs ss r ++ take s c).
Proof.
  intros Hl Hr. unfold contents. rewrite filled_snoc by done. cbn.
  rewrite drop_app_l by (rewrite length_zip_with; lia).
  by rewrite concat_snoc.
Qed.

Lemma filled_lookup b i s :
  wf b → sizes_ b !! i = Some s → ∃ x, filled b !! i = Some x ∧ length x = s.
Proof.
  intros Hwf Hi. pose proof (lookup_lt_Some _ _ _ Hi) as Hlt.
  rewrite (wf_sizes _ Hwf), <- (wf_chunks _ Hwf) in Hlt.
  destruct (lookup_lt_is_Some_2 _ _ Hlt) as [c Hc].
  exists (take s c). split.
  - unfold filled. rewrite lookup_zip_with, Hi. cbn. by rewrite Hc.
  - pose proof (Forall_lookup_1 _ _ _ _ (wf_block _ Hwf) Hc).
    pose proof (Forall_lookup_1 _ _ _ _ (wf_fill _ Hwf) Hi).
    cbn in *. rewrite length_take. lia.
Qed.

(** The bytes of the chunk under the read position, then the later ones. *)
Lemma contents_here b s :
  wf b → sizes_ b !! idx (rpos_ b) = Some s → ∃ x,
    filled b !! idx (rpos_ b) = Some x ∧ length x = s ∧ off (rpos_ b) ≤ s ∧
    contents b = drop (off (rpos_ b)) x ++ concat (drop (S (idx (rpos_ b))) (filled b)).
Proof.
  intros Hwf Hs. destruct (filled_lookup _ _ _ Hwf Hs) as (x & Hx & Hlen).
  destruct (wf_read _ Hwf) as (s' & Hs' & Hoff & _). simplify_eq.
  exists x. split_and!; [done|done|lia|].
  unfold contents. rewrite (drop_S _ _ _ Hx). cbn.
  by rewrite drop_app_l by lia.
Qed.

Lemma front_off cs c ss s w r :
  wf (mkBuffer (cs ++ [c]) (ss ++ [s]) w r) → length ss = length cs →
  off r ≤ length (front cs ss r ++ take s c).
Proof.
  intros Hwf Hl. destruct (wf_read _ Hwf) as (s' & Hs' & _).
  destruct (contents_here _ _ Hwf Hs') as (x & Hx & Hlen & Hoff & _).
  rewrite filled_snoc in Hx by done.
  pose proof (wf_order _ Hwf) as Hord. pose proof (wf_chunks _ Hwf) as Hc.
  cbn in *. rewrite length_app in Hc; cbn in Hc.
  unfold front. rewrite <- concat_snoc, <- drop_app_l
    by (rewrite length_zip_with; lia).
  rewrite (drop_S _ _ _ Hx). cbn. rewrite length_app. lia.
Qed.

(** ** Changing or adding the last chunk *)

Lemma snoc_lookup_lt (ss : list nat) s i x :
  i < length ss → (ss ++ [s]) !! i = Some x ↔ ss !! i = Some x.
Proof. intros. by rewrite lookup_app_l. Qed.

Lemma wf_change_last cs c c' ss s s' r :
  length ss = length cs → length c' = BlockSize → s ≤ s' ≤ BlockSize →
  wf (mkBuffer (cs ++ [c]) (ss ++ [s]) (mkPos (length cs) s) r) →
  wf (mkBuffer (cs ++ [c']) (ss ++ [s']) (mkPos (length cs) s') r).
Proof.
  intros Hl Hc Hs [Hch Hsz Hb Hf _ Ho Hr Hm].
  cbn [chunks_ sizes_ wpos_ rpos_ idx off] in *.
  rewrite length_app in Hch, Hsz. cbn in Hch, Hsz.
  constructor; cbn [chunks_ sizes_ wpos_ rpos_ idx off].
  - rewrite length_app; cbn; lia.
  - rewrite length_app; cbn; lia.
  - rewrite Forall_app, Forall_singleton in *. by destruct Hb.
  - rewrite Forall_app, Forall_singleton in *. destruct Hf. split; [done|lia].
  - rewrite <- Hl. apply lookup_snoc.
  - done.
  - destruct (decide (idx r < length cs)) as [Hlt|Hge].
    + rewrite lookup_app_l in * by lia. done.
    + assert (idx r = length ss) as Er by lia. rewrite Er in *.
      rewrite lookup_snoc in *. destruct Hr as (x & Hx & ? & _).
      simplify_eq. exists s'. split_and!; [done|lia|lia].
  - intros i x Hi. rewrite snoc_lookup_lt by lia.
    intros. apply (Hm i x Hi). by rewrite snoc_lookup_lt by lia.
Qed.

Lemma wf_add_last cs ss s r c0 :
  length ss = length cs → length c0 = BlockSize → 0 < s →
  r ≠ mkPos (length cs - 1) s →
  wf (mkBuffer cs ss (mkPos (length cs - 1) s) r) →
  wf (mkBuffer (cs ++ [c0]) (ss ++ [0]) (mkPos (length cs) 0) r).
Proof.
  intros Hl Hc Hs Hne [Hch Hsz Hb Hf Hlast Ho Hr Hm].
  cbn [chunks_ sizes_ wpos_ rpos_ idx off] in *.
  assert (length cs ≠ 0) by lia.
  constructor; cbn [chunks_ sizes_ wpos_ rpos_ idx off].
  - rewrite length_app; cbn; lia.
  - rewrite length_app; cbn; lia.
  - rewrite Forall_app, Forall_singleton. done.
  - rewrite Forall_app, Forall_singleton. split; [done|lia].
  - rewrite <- Hl. apply lookup_snoc.
  - lia.
  - rewrite lookup_app_l by lia. destruct Hr as (x & Hx & Hle & Hlt).
    exists x. split_and!; [done|done|]. intros _.
    destruct (decide (idx r < length cs - 1)); [auto|].
    assert (idx r = length cs - 1) as Er by lia. rewrite Er in Hx.
    simplify_eq. destruct (decide (off r = s)); [|lia].
    destruct Hne. destruct r; cbn in *. congruence.
  - intros i x Hi. rewrite snoc_lookup_lt by lia. intros Hx.
    destruct (decide (i = length cs - 1)) as [->|]; [by simplify_eq|].
    apply (Hm i x); [lia|done].
Qed.

Lemma newChunk_eq cs ss w r :
  newChunk (mkBuffer cs ss w r) =
  mkBuffer (cs ++ [replicate BlockSize uninit_byte]) (ss ++ [0])
    (mkPos (length cs) 0) r.
Proof.
  unfold newChunk, addChunk, set_wpos; cbn. rewrite length_app; cbn.
  by rewrite Nat.add_sub.
Qed.

Lemma contents_new b : wf b → contents (newChunk b) = contents b.
Proof.
  intros Hwf. pose proof (wf_chunks _ Hwf). pose proof (wf_sizes _ Hwf).
  pose proof (wf_order _ Hwf). destruct b as [cs ss w r]; cbn in *.
  rewrite newChunk_eq, contents_snoc by lia. by rewrite app_nil_r.
Qed.

Lemma wf_new_chunk b :
  wf b → rpos_ b ≠ wpos_ b → 0 < off (wpos_ b) →
  wf (newChunk b) ∧ rpos_ (newChunk b) = rpos_ b ∧
  wpos_ (newChunk b) = mkPos (S (idx (wpos_ b))) 0 ∧
  contents (newChunk b) = contents b.
Proof.
  intros Hwf Hne Hs. rewrite contents_new by done.
  pose proof (wf_chunks _ Hwf) as Hc. pose proof (wf_sizes _ Hwf) as Hss.
  destruct b as [cs ss [i s] r]; cbn in *.
  rewrite newChunk_eq; cbn. rewrite <- Hc. split_and!; try done.
  apply (wf_add_last cs ss s r); [lia|apply length_replicate|done| |].
  - by replace (length cs - 1) with i by lia.
  - by replace (length cs - 1) with i by lia.
Qed.

(** ** Producer side *)

Lemma writeArea_wf b :
  wf b → ∃ m, writeArea b = Some m ∧ length m = BlockSize - off (wpos_ b) ∧
              off (wpos_ b) ≤ BlockSize.
Proof.
  intros Hwf. destruct (wf_inv _ Hwf) as (cs & c & ss & -> & Hl & Hc & Hs).
  unfold writeArea; cbn in *. rewrite lookup_snoc; cbn.
  eexists; split; [done|]. rewrite length_drop. split; [lia|done].
Qed.

Lemma writeSize_wf b : wf b → writeSize b = Some (BlockSize - off (wpos_ b)).
Proof.
  intros Hwf. destruct (writeArea_wf _ Hwf) as (_ & _ & _ & Hs).
  unfold writeSize. by rewrite usub_Some.
Qed.

(** Storing at the write pointer changes nothing a consumer can see. *)
Lemma poke_spec b d m :
  wf b → writeArea b = Some m → length d ≤ length m → ∃ b',
    poke d b = Some b' ∧ wf b' ∧ contents b' = contents b ∧
    writeArea b' = Some (d ++ drop (length d) m) ∧
    wpos_ b' = wpos_ b ∧ rpos_ b' = rpos_ b ∧ sizes_ b' = sizes_ b.
Proof.
  intros Hwf Hm Hd. destruct (wf_inv _ Hwf) as (cs & c & ss & Eb & Hl & Hc & Hs).
  remember (off (wpos_ b)) as s. remember (rpos_ b) as r. clear Heqs Heqr.
  subst b. unfold writeArea in *; cbn in *. rewrite lookup_snoc in Hm; cbn in Hm.
  simplify_eq. rewrite length_drop in Hd. unfold poke; cbn.
  rewrite lookup_snoc; cbn. rewrite mem_write_Some by lia.
  eexists; split; [done|]. cbn. rewrite insert_snoc by done.
  rewrite lookup_snoc; cbn. split_and!; try done.
  - eapply (wf_change_last cs c _ ss s s); [done| |lia|done].
    rewrite !length_app, length_take, length_drop. lia.
  - pose proof (wf_order _ Hwf). rewrite !contents_snoc by done. do 2 f_equal.
    rewrite take_app_le by (rewrite length_take; lia). by apply take_take_min.
  - rewrite drop_app_ge by (rewrite length_take; lia).
    rewrite length_take, Nat.min_l, Nat.sub_diag, drop_drop by lia. done.
Qed.

(** Moving the write pointer over [n] bytes makes them visible. *)
Lemma bump_spec b n m :
  wf b → writeArea b = Some m → n ≤ length m → ∃ b',
    bump n b = Some b' ∧ wf b' ∧ contents b' = contents b ++ take n m ∧
    writeArea b' = Some (drop n m) ∧
    wpos_ b' = mkPos (idx (wpos_ b)) (off (wpos_ b) + n) ∧ rpos_ b' = rpos_ b.
Proof.
  intros Hwf Hm Hn. destruct (wf_inv _ Hwf) as (cs & c & ss & Eb & Hl & Hc & Hs).
  remember (off (wpos_ b)) as s. remember (rpos_ b) as r. clear Heqs Heqr.
  subst b. unfold writeArea in *; cbn in *. rewrite lookup_snoc in Hm; cbn in Hm.
  simplify_eq. rewrite length_drop in Hn. unfold bump, addSize; cbn.
  rewrite lookup_snoc_eq by done; cbn. eexists; split; [done|].
  cbn. rewrite insert_snoc by done. rewrite lookup_snoc; cbn. split_and!; try done.
  - eapply (wf_change_last cs c _ ss s); [done|lia|lia|done].
  - pose proof (wf_order _ Hwf). rewrite !contents_snoc by done.
    rewrite take_drop_commute, <- drop_app_l.
    2: { by eapply front_off. }
    rewrite <- app_assoc. do 2 f_equal.
    rewrite <- (take_take_min s (s + n)) by lia. by rewrite take_drop.
  - by rewrite drop_drop.
Qed.

(** A write of [d] that fits in the chunk. *)
Lemma poke_bump b d :
  wf b → off (wpos_ b) + length d ≤ BlockSize → ∃ b1 b2,
    poke d b = Some b1 ∧ bump (length d) b1 = Some b2 ∧ wf b2 ∧
    contents b2 = contents b ++ d ∧
    wpos_ b2 = mkPos (idx (wpos_ b)) (off (wpos_ b) + length d) ∧
    rpos_ b2 = rpos_ b.
Proof.
  intros Hwf Hd. destruct (writeArea_wf _ Hwf) as (m & Hm & Hlm & Hs).
  destruct (poke_spec b d m) as (b1 & Hp & Hwf1 & Hc1 & Hm1 & Hw1 & Hr1 & _);
    [done|done|lia|].
  destruct (bump_spec b1 (length d) _ Hwf1 Hm1) as (b2 & ? & ? & Hc2 & _ & Hw2 & Hr2).
  { rewrite length_app. lia. }
  exists b1, b2. rewrite Hc2, Hw2, Hr2, Hc1, Hw1, Hr1, take_app_length.
  split_and!; done.
Qed.

Lemma wpos_order b : wf b → rpos_ b = wpos_ b ∨ idx (rpos_ b) < idx (wpos_ b) ∨
  (idx (rpos_ b) = idx (wpos_ b) ∧ off (rpos_ b) < off (wpos_ b)).
Proof.
  intros Hwf. pose proof (wf_order _ Hwf).
  destruct (wf_read _ Hwf) as (s & Hs & Hle & _). pose proof (wf_last _ Hwf) as Hl.
  destruct (decide (idx (rpos_ b) = idx (wpos_ b))) as [E|]; [|lia].
  rewrite E in Hs. simplify_eq.
  destruct (decide (off (rpos_ b) = off (wpos_ b))); [|lia].
  left. destruct (rpos_ b), (wpos_ b); cbn in *. congruence.
Qed.

(** The loop of [write]: with one turn more than the bytes left -- or as
    many, when the chunk has room -- the bytes are appended. *)
Lemma write_loop_spec fuel : ∀ src b,
  wf b → writable b →
  length src = 0 ∨ length src < fuel ∨
    (length src ≤ fuel ∧ off (wpos_ b) < BlockSize) →
  ∃ b', write_loop fuel src b = Some b' ∧ wf b' ∧ writable b' ∧
        contents b' = contents b ++ src ∧ rpos_ b' = rpos_ b ∧
        (roomy b ∨ 0 < length src → roomy b').
Proof.
  induction fuel as [|fuel IH]; intros src b Hwf Hwr Hfuel.
  { destruct src; cbn in *; [|lia]. exists b. rewrite app_nil_r. split_and!; try done.
    intros [?|?]; [done|lia]. }
  cbn [write_loop]. case_decide as Hz.
  { apply nil_length_inv in Hz as ->. exists b. rewrite app_nil_r.
    cbn. split_and!; try done. intros [?|?]; [done|lia]. }
  destruct (writeArea_wf _ Hwf) as (m & Hm & Hlm & Hs).
  rewrite writeSize_wf by done. cbn. remember ((_ - _) `min` _) as n eqn:En.
  assert (length (take n src) = n) as Hn by (rewrite length_take; lia).
  destruct (poke_bump b (take n src)) as (b1 & b2 & -> & Hb2 & Hwf2 & Hc2 & Hw2 & Hr2);
    [done|lia|]. cbn. rewrite Hn in *. rewrite Hb2; cbn.
  set (b3 := if decide _ then _ else _).
  assert (wf b3 ∧ writable b3 ∧ contents b3 = contents b2 ∧ rpos_ b3 = rpos_ b ∧
          off (wpos_ b3) < BlockSize)
    as (Hwf3 & Hwr3 & Hc3 & Hr3 & Hw3).
  { pose proof BlockSize_pos. subst b3. rewrite length_drop in *.
    case_decide as Hfull; rewrite Hw2 in Hfull; cbn in Hfull.
    - destruct (wf_new_chunk b2) as (? & ? & Hw & ?); [done| |rewrite Hw2; cbn; lia|].
      + rewrite Hr2, Hw2. unfold writable in Hwr.
        destruct (wpos_order b Hwf) as [E|[?|[? ?]]]; intros E'.
        * apply Hwr. split; [done|]. rewrite E in E'.
          destruct (wpos_ b); cbn in *. injection E'. lia.
        * rewrite E' in *; cbn in *; lia.
        * rewrite E' in *; cbn in *; lia.
      + rewrite Hw; cbn. split_and!; try congruence; try lia.
        unfold writable. rewrite Hw; cbn. lia.
    - assert (off (wpos_ b2) < BlockSize) by (rewrite Hw2; cbn; lia).
      split_and!; try done. unfold writable. lia. }
  destruct (IH (drop n src) b3) as (b' & ? & ? & ? & Hc & ? & ?); [done|done| |].
  { rewrite length_drop in *. lia. }
  exists b'. rewrite Hc, Hc3, Hc2, <- app_assoc, take_drop.
  split_and!; try done; [congruence|auto].
Qed.

Lemma write_spec b p :
  wf b → writable b → ∃ b',
    write p b = Some b' ∧ wf b' ∧ writable b' ∧
    contents b' = contents b ++ MemPiece.data p ∧ rpos_ b' = rpos_ b ∧
    (roomy b → roomy b').
Proof.
  intros Hwf Hwr.
  destruct (write_loop_spec (S (MemPiece.len p)) (MemPiece.data p) b)
    as (b' & ? & ? & ? & ? & ? & ?); [done|done| |exists b'; naive_solver].
  right; left. unfold MemPiece.data. rewrite length_take. lia.
Qed.

Lemma advance_spec b n m :
  wf b → writeArea b = Some m → 0 < n ≤ length m → ∃ b',
    advance n b = Some (true, b') ∧ wf b' ∧ contents b' = contents b ++ take n m ∧
    rpos_ b' = rpos_ b.
Proof.
  intros Hwf Hm Hn. destruct (writeArea_wf _ Hwf) as (m' & Hm' & Hlm & Hs).
  simplify_eq. unfold advance. rewrite decide_False by lia.
  rewrite writeSize_wf by done. cbn. rewrite decide_True by lia.
  destruct (bump_spec b n m) as (b' & -> & ? & ? & _ & _ & ?); [done|done|lia|].
  cbn. eauto 10.
Qed.

(** [advance] refuses zero bytes and more bytes than the chunk has left. *)
Lemma advance_refuse b n :
  wf b → n = 0 ∨ BlockSize - off (wpos_ b) < n → advance n b = Some (false, b).
Proof.
  intros Hwf Hn. unfold advance. case_decide; [done|].
  rewrite writeSize_wf by done. cbn. by rewrite decide_False by lia.
Qed.

(** ** Dropping chunks and reserving *)

Lemma contents_eob b : wf b → rpos_ b = wpos_ b → contents b = [].
Proof.
  intros Hwf E. pose proof (wf_last _ Hwf) as Hl. rewrite <- E in Hl.
  destruct (contents_here _ _ Hwf Hl) as (x & Hx & Hlen & _ & ->).
  rewrite E in *. pose proof (wf_chunks _ Hwf). pose proof (wf_sizes _ Hwf).
  rewrite !drop_ge; [done| |lia].
  unfold filled. rewrite length_zip_with. lia.
Qed.

Lemma dropChunks_spec b n :
  wf b → n ≤ idx (rpos_ b) → ∃ b',
    dropChunks n b = Some b' ∧ wf b' ∧ contents b' = contents b ∧
    wpos_ b' = mkPos (idx (wpos_ b) - n) (off (wpos_ b)) ∧
    rpos_ b' = mkPos (idx (rpos_ b) - n) (off (rpos_ b)).
Proof.
  intros Hwf Hn. pose proof Hwf as [Hc Hs Hb Hf Hl Ho Hr Hm].
  unfold dropChunks. case_decide as Hz.
  { subst n. exists b. rewrite !Nat.sub_0_r. destruct b as [? ? [] []]. eauto 10. }
  rewrite !usub_Some by lia. cbn. rewrite decide_True by lia.
  eexists; split; [done|]. cbn. split_and!; try done.
  - constructor; cbn; rewrite ?length_drop, ?lookup_drop; try lia.
    + by apply Forall_drop.
    + by apply Forall_drop.
    + by replace (n + (idx (wpos_ b) - n)) with (idx (wpos_ b)) by lia.
    + replace (n + (idx (rpos_ b) - n)) with (idx (rpos_ b)) by lia.
      destruct Hr as (s & ? & ? & Hlt). exists s. split_and!; [done|done|].
      intros. apply Hlt. lia.
    + intros i s Hi. rewrite lookup_drop. apply Hm. lia.
  - unfold contents, filled; cbn. rewrite <- zip_with_drop, drop_drop.
    do 3 f_equal. lia.
Qed.

Lemma reserve_spec b n :
  wf b → n ≤ BlockSize → ∃ b',
    reserve n b = Some (true, b') ∧ wf b' ∧ contents b' = contents b ∧
    n ≤ BlockSize - off (wpos_ b') ∧ idx (rpos_ b') = idx (rpos_ b) ∧
    (0 < n → writable b').
Proof.
  intros Hwf Hn. unfold reserve. rewrite decide_False by lia.
  rewrite writeSize_wf by done. cbn. case_decide as Hsz.
  { exists b. split_and!; try done. intros ? [_ ?]. lia. }
  destruct (writeArea_wf _ Hwf) as (_ & _ & _ & Hs).
  destruct (decide (rpos_ b = wpos_ b)) as [E|E].
  - rewrite bool_decide_true by done.
    pose proof (wf_chunks _ Hwf) as Hch. pose proof (wf_last _ Hwf) as Hlast.
    pose proof (contents_new _ Hwf) as Hcn.
    destruct b as [cs ss [i s] r]; cbn in *. subst r. rewrite newChunk_eq in *.
    set (b1 := set_rpos _ _).
    pose proof (wf_sizes _ Hwf) as Hss. cbn in Hss.
    pose proof (wf_block _ Hwf) as Hblk. pose proof (wf_fill _ Hwf) as Hfl.
    cbn in *.
    assert (wf b1) as Hwf1.
    { subst b1. constructor; cbn; rewrite ?length_app; cbn; try lia.
      - rewrite Forall_app, Forall_singleton. split; [done|apply length_replicate].
      - rewrite Forall_app, Forall_singleton. split; [done|lia].
      - apply lookup_snoc_eq. lia.
      - exists 0. split_and!; [apply lookup_snoc_eq; lia|lia|lia]. }
    destruct (dropChunks_spec b1 1 Hwf1) as (b' & Hd & Hwf' & Hc' & Hw' & Hr');
      [subst b1; cbn; lia|].
    rewrite Hd; cbn. exists b'. split_and!; try done.
    + rewrite Hc', (contents_eob b1), (contents_eob (mkBuffer _ _ _ _)); done.
    + rewrite Hw'; cbn; lia.
    + rewrite Hr'; cbn; lia.
    + intros _ [_ Hoff]. rewrite Hw' in Hoff; cbn in Hoff.
      pose proof BlockSize_pos. lia.
  - rewrite bool_decide_false by done.
    destruct (wf_new_chunk b Hwf E) as (? & Hr & Hw & ?); [lia|].
    exists (newChunk b). rewrite Hw, Hr; cbn. split_and!; try done; try lia.
    intros _ [_ Hoff]. rewrite Hw in Hoff; cbn in Hoff.
    pose proof BlockSize_pos. lia.
Qed.

(** A request for more than a chunk is refused, and nothing changes. *)
Lemma reserve_refuse b n : BlockSize < n → reserve n b = Some (false, b).
Proof. intros. unfold reserve. by rewrite decide_True. Qed.

(** ** Consumer side *)

Lemma readSize_wf b s :
  wf b → sizes_ b !! idx (rpos_ b) = Some s →
  readSize b = Some (s - off (rpos_ b)) ∧ off (rpos_ b) ≤ s.
Proof.
  intros Hwf Hs. destruct (wf_read _ Hwf) as (s' & Hs' & ? & _). simplify_eq.
  unfold readSize. rewrite Hs; cbn. by rewrite usub_Some.
Qed.

(** The contiguous area a consumer sees is a prefix of the contents, and it
    is empty only if there is nothing to read. *)
Lemma readArea_spec b :
  wf b → ∃ area rest,
    readArea b = Some area ∧ readSize b = Some (length area) ∧
    contents b = area ++ rest ∧ (area = [] → contents b = []).
Proof.
  intros Hwf. destruct (wf_read _ Hwf) as (s & Hs & Hle & Hlt).
  destruct (contents_here _ _ Hwf Hs) as (x & Hx & Hlen & _ & Hc).
  destruct (readSize_wf _ _ Hwf Hs) as [Hrs _].
  unfold filled in Hx. rewrite lookup_zip_with_Some in Hx.
  destruct Hx as (s' & c & -> & Hs' & Hch).
  assert (s' = s) as -> by congruence. clear Hs'.
  unfold readArea. rewrite Hrs; cbn. rewrite Hch; cbn.
  exists (drop (off (rpos_ b)) (take s c)). eexists. split_and!; [| | exact Hc |].
  - f_equal. rewrite take_drop_commute. f_equal. f_equal. lia.
  - rewrite length_drop. by rewrite Hlen.
  - intros Hnil. apply (f_equal length) in Hnil.
    rewrite length_drop, Hlen in Hnil. cbn in Hnil. apply contents_eob; [done|].
    destruct (wpos_order b Hwf) as [?|[?|[E ?]]]; [done|lia|].
    pose proof (wf_last _ Hwf). rewrite E in Hs. simplify_eq. lia.
Qed.

(** Moving the read position inside its chunk. *)
Lemma read_forward b s n :
  wf b → sizes_ b !! idx (rpos_ b) = Some s → off (rpos_ b) + n ≤ s →
  (idx (rpos_ b) < idx (wpos_ b) → off (rpos_ b) + n < s) →
  let b' := set_rpos (mkPos (idx (rpos_ b)) (off (rpos_ b) + n)) b in
  wf b' ∧ contents b' = drop n (contents b).
Proof.
  intros Hwf Hs Hn Hlt b'. split.
  - destruct Hwf as [Hc Hsz Hb Hf Hl Ho Hr Hm]. constructor; try done.
    exists s. done.
  - unfold contents. subst b'; cbn. by rewrite drop_drop.
Qed.

Lemma read_next b s :
  wf b → sizes_ b !! idx (rpos_ b) = Some s → idx (rpos_ b) < idx (wpos_ b) →
  let b' := set_rpos (mkPos (S (idx (rpos_ b))) 0) b in
  wf b' ∧ contents b' = drop (s - off (rpos_ b)) (contents b).
Proof.
  intros Hwf Hs Hlt b'.
  destruct (contents_here _ _ Hwf Hs) as (x & Hx & Hlen & Hoff & Hc). split.
  - pose proof Hwf as [Hc' Hsz Hb Hf Hl Ho Hr Hm].
    constructor; cbn; try done; [|intros; eapply Hm; [|done]; lia].
    destruct (decide (S (idx (rpos_ b)) = idx (wpos_ b))) as [E|].
    + rewrite E. exists (off (wpos_ b)). split_and!; [done|lia|lia].
    + destruct (lookup_lt_is_Some_2 (sizes_ b) (S (idx (rpos_ b)))) as [s' Hs'];
        [lia|].
      exists s'. split_and!; [done|lia|]. intros. eapply Hm; [|done]. lia.
  - rewrite Hc, drop_app_ge by (rewrite length_drop; lia).
    rewrite length_drop, Hlen, Nat.sub_diag. done.
Qed.

Lemma consume_loop_done fuel n_drop b : consume_loop fuel 0 n_drop b = Some (0, n_drop, b).
Proof. destruct fuel; cbn; rewrite decide_False by lia; done. Qed.

Lemma consume_loop_spec fuel : ∀ todo n_drop b,
  wf b → idx (wpos_ b) - idx (rpos_ b) < fuel → ∃ todo' k b',
    consume_loop fuel todo n_drop b = Some (todo', n_drop + k, b') ∧ wf b' ∧
    wpos_ b' = wpos_ b ∧ todo' ≤ todo ∧
    contents b' = drop (todo - todo') (contents b) ∧
    idx (rpos_ b') = idx (rpos_ b) + k ∧
    (todo' = 0 ∨ idx (rpos_ b') = idx (wpos_ b)).
Proof.
  induction fuel as [|fuel IH]; intros todo n_drop b Hwf Hf; [lia|].
  cbn [consume_loop]. pose proof (wf_order _ Hwf).
  case_decide as Hd; [destruct Hd as [Htodo Hidx]|].
  2: { exists todo, 0, b. rewrite Nat.add_0_r, Nat.sub_diag. split_and!; try done; lia. }
  destruct (wf_read _ Hwf) as (s & Hs & Hle & Hlt). specialize (Hlt Hidx).
  destruct (readSize_wf _ _ Hwf Hs) as [-> _]. cbn.
  unfold readSize; cbn. rewrite Hs; cbn. rewrite usub_Some by lia. cbn.
  case_decide as Hz.
  - destruct (read_next b s Hwf Hs Hidx) as [Hwf1 Hc1].
    set (b1 := set_rpos _ b) in Hwf1, Hc1.
    destruct (IH (todo - (s - off (rpos_ b))) (S n_drop) b1)
      as (todo' & k & b' & He & Hwf' & Hw & Hle' & Hc & Hr & Hend).
    { done. } { cbn. lia. }
    exists todo', (S k), b'. rewrite Nat.add_succ_r.
    change (S (n_drop + k)) with (S n_drop + k). rewrite <- He.
    split_and!; try done; try (subst b1; cbn in *; lia).
    + f_equal. lia.
    + rewrite Hc, Hc1, drop_drop. f_equal. lia.
  - assert (todo `min` (s - off (rpos_ b)) = todo) as -> by lia.
    rewrite Nat.sub_diag, consume_loop_done.
    destruct (read_forward b s todo Hwf Hs) as [Hwf1 Hc1]; [lia|lia|].
    eexists 0, 0, _. rewrite Nat.add_0_r, Nat.sub_0_r.
    split_and!; try done; cbn; lia.
Qed.

(** [consume n] drops the next [n] bytes, or all of them if there are
    fewer; the index of the reading chunk does not change. *)
Lemma consume_spec b n :
  wf b → ∃ b', consume n b = Some b' ∧ wf b' ∧ contents b' = drop n (contents b) ∧
    idx (rpos_ b') = idx (rpos_ b) ∧ off (wpos_ b') = off (wpos_ b).
Proof.
  intros Hwf. unfold consume.
  destruct (consume_loop_spec (S (idx (wpos_ b))) n 0 b)
    as (todo & k & b1 & -> & Hwf1 & Hw1 & Hle & Hc1 & Hr1 & Hend); [done|lia|].
  cbn. set (m := if decide _ then _ else _).
  assert (∃ b2, m = Some b2 ∧ wf b2 ∧ contents b2 = drop n (contents b) ∧
            wpos_ b2 = wpos_ b ∧ idx (rpos_ b2) = idx (rpos_ b1))
    as (b2 & -> & Hwf2 & Hc2 & Hw2 & Hr2).
  { subst m. case_decide as Ht.
    - destruct (wf_read _ Hwf1) as (s & Hs & Hoff & _).
      destruct (readSize_wf _ _ Hwf1 Hs) as [-> _]. cbn.
      eexists; split; [done|].
      destruct (read_forward b1 s (todo `min` (s - off (rpos_ b1))) Hwf1 Hs)
        as [Hwf2 Hc2]; [lia|rewrite Hw1; lia|].
      split_and!; try done. rewrite Hc2, Hc1, drop_drop.
      destruct (decide (todo ≤ s - off (rpos_ b1))); [f_equal; lia|].
      (* everything was read *)
      assert (idx (rpos_ b1) = idx (wpos_ b1)) as E by (rewrite Hw1; lia).
      assert (length (contents b1) ≤ s - off (rpos_ b1)) as Hlen.
      { destruct (contents_here _ _ Hwf1 Hs) as (x & Hx & Hlx & _ & ->).
        rewrite drop_ge with (n := S _); [|
          unfold filled; rewrite length_zip_with;
          pose proof (wf_chunks _ Hwf1); lia].
        rewrite length_app, length_drop; cbn. lia. }
      rewrite Hc1, length_drop in Hlen. rewrite !drop_ge by lia. done.
    - exists b1. rewrite Hc1, Hw1. split_and!; try done. f_equal. lia. }
  cbn. destruct (dropChunks_spec b2 k Hwf2) as (b' & -> & Hwf' & Hc' & Hw' & Hr');
    [lia|].
  exists b'. rewrite Hc', Hw', Hr', Hw2; cbn. split_and!; try done. lia.
Qed.

Lemma sum_list_concat (ls : list bytes) :
  length (concat ls) = sum_list (length <$> ls).
Proof. induction ls; cbn; [done|]. rewrite length_app. lia. Qed.

Lemma filled_lengths b : wf b → length <$> filled b = sizes_ b.
Proof.
  intros Hwf. apply list_eq_same_length with (n := length (sizes_ b)); [done| |].
  - rewrite length_fmap. unfold filled. rewrite length_zip_with.
    pose proof (wf_chunks _ Hwf). pose proof (wf_sizes _ Hwf). lia.
  - intros i x y _ Hx Hy. destruct (filled_lookup _ _ _ Hwf Hy) as (z & Hz & <-).
    rewrite list_lookup_fmap, Hz in Hx. cbn in Hx. congruence.
Qed.

(** [byteCount] is the number of bytes to read, if reading happens in the
    first chunk. *)
Lemma byteCount_spec b :
  wf b → idx (rpos_ b) = 0 → byteCount b = Some (length (contents b)).
Proof.
  intros Hwf E. unfold byteCount.
  destruct (wf_read _ Hwf) as (s & Hs & Hle & _).
  destruct (readSize_wf _ _ Hwf Hs) as [-> _]. cbn. f_equal.
  destruct (contents_here _ _ Hwf Hs) as (x & Hx & Hlx & _ & ->).
  rewrite length_app, length_drop, Hlx, sum_list_concat, fmap_drop,
    filled_lengths, E by done. done.
Qed.

(** ** Copying from another buffer *)

Lemma rpos_lt_wpos b :
  wf b → rpos_ b ≠ wpos_ b ↔
    idx (rpos_ b) < idx (wpos_ b) ∨
    (idx (rpos_ b) = idx (wpos_ b) ∧ off (rpos_ b) < off (wpos_ b)).
Proof.
  intros Hwf. destruct (wpos_order b Hwf) as [E|E].
  - rewrite E. split; [done|lia].
  - split; [done|]. intros _ E'. rewrite E' in E. lia.
Qed.

Lemma copy_chunk_spec first c len b :
  wf b → length c = BlockSize → len ≤ BlockSize →
  (first = true ∧ off (wpos_ b) + len ≤ BlockSize) ∨
    (rpos_ b ≠ wpos_ b ∧ 0 < off (wpos_ b) + (if first then len else 0)) →
  ∃ b', copy_chunk first c len b = Some b' ∧ wf b' ∧
    contents b' = contents b ++ take len c ∧
    (rpos_ b ≠ wpos_ b ∨ 0 < len → rpos_ b' ≠ wpos_ b') ∧
    (0 < len → 0 < off (wpos_ b')) ∧ rpos_ b' = rpos_ b.
Proof.
  intros Hwf Hc Hlen Hpre. unfold copy_chunk.
  destruct (writeArea_wf _ Hwf) as (_ & _ & _ & Hs).
  rewrite writeSize_wf by done. cbn.
  set (b1 := if decide _ then _ else _).
  assert (wf b1 ∧ contents b1 = contents b ∧ off (wpos_ b1) + len ≤ BlockSize ∧
          rpos_ b1 = rpos_ b ∧ (rpos_ b ≠ wpos_ b ∨ 0 < len →
           idx (rpos_ b1) < idx (wpos_ b1) ∨ (idx (rpos_ b1) = idx (wpos_ b1) ∧
             off (rpos_ b1) < off (wpos_ b1) + len)))
    as (Hwf1 & Hc1 & Hfit & Hr1 & Hlt).
  { subst b1. case_decide as Hd.
    - destruct (wf_new_chunk b Hwf) as (? & Hr & Hw & ?).
      + intros E. destruct Hpre as [[? ?]|[? _]]; [|done].
        destruct Hd as [Hd|Hd]; [congruence|lia].
      + destruct Hpre as [[? ?]|[_ ?]]; destruct Hd, first; try done; lia.
      + rewrite Hr, Hw; cbn. split_and!; try done.
        intros _. left. pose proof (wf_order _ Hwf). lia.
    - split_and!; try done; try lia. destruct (wpos_order b Hwf) as [E|E]; [|lia].
      rewrite E. intros [?|?]; [done|]. lia. }
  assert (length (take len c) = len) as Hl by (rewrite length_take; lia).
  destruct (poke_bump b1 (take len c)) as (b2 & b3 & -> & Hb & Hwf3 & Hc3 & Hw3 & Hr3);
    [done|lia|].
  cbn. rewrite Hl in *. exists b3. rewrite Hc3, Hc1, Hw3; cbn.
  split_and!; try done; [|lia|congruence].
  intros Hd. rewrite <- Hw3, rpos_lt_wpos, Hw3, Hr3 by done. cbn. auto.
Qed.

Lemma copy_loop_spec cs : ∀ first b,
  wf b → Forall (λ p, length p.1 = BlockSize ∧ p.2 ≤ BlockSize) cs →
  (∀ i p, i < length cs - 1 → cs !! i = Some p → 0 < p.2) →
  (first = true ∧ (rpos_ b ≠ wpos_ b ∨
     ∀ p, head cs = Some p → off (wpos_ b) + p.2 ≤ BlockSize)) ∨
    (first = false ∧ rpos_ b ≠ wpos_ b ∧ 0 < off (wpos_ b)) →
  (∃ p, head cs = Some p ∧ 0 < p.2) ∨ rpos_ b ≠ wpos_ b →
  ∃ b', copy_loop first cs b = Some b' ∧ wf b' ∧ rpos_ b' ≠ wpos_ b' ∧
    rpos_ b' = rpos_ b ∧
    contents b' = contents b ++ concat ((λ p, take p.2 p.1) <$> cs).
Proof.
  induction cs as [|[c len] cs IH]; intros first b Hwf Hall Hpos Hpre Hne; cbn.
  { exists b. rewrite app_nil_r. split_and!; try done.
    destruct Hne as [(? & ? & _)|]; done. }
  apply Forall_cons in Hall as [[Hc Hlen] Hall]; cbn in *.
  destruct (copy_chunk_spec first c len b Hwf Hc Hlen)
    as (b1 & -> & Hwf1 & Hc1 & Hne1 & Hoff1 & Hr1).
  { destruct Hpre as [[-> [?|Hf]]|(-> & ? & ?)].
    - destruct (decide (0 < off (wpos_ b) + len)); [by right|left; split; [done|lia]].
    - left. split; [done|]. by apply (Hf (c, len)).
    - right. split; [done|lia]. }
  cbn. assert (rpos_ b1 ≠ wpos_ b1) as Hne'.
  { apply Hne1. destruct Hne as [(p & Hp & ?)|?]; [right|by left].
    by simplify_eq. }
  destruct cs as [|p cs].
  { cbn. exists b1. by rewrite Hc1, app_nil_r. }
  destruct (IH false b1) as (b' & -> & ? & ? & ? & Hc'); [done|done| | | |].
  - intros i q Hi Hq. apply (Hpos (S i) q); cbn in *; [lia|done].
  - right. split_and!; [done|done|]. apply Hoff1.
    apply (Hpos 0 (c, len)); cbn; [lia|done].
  - by right.
  - exists b'. rewrite Hc', Hc1, app_assoc. split_and!; try done. congruence.
Qed.

Lemma filled_zip b :
  (λ p, take p.2 p.1) <$> zip (chunks_ b) (sizes_ b) = filled b.
Proof.
  unfold filled. generalize (sizes_ b).
  induction (chunks_ b) as [|c cs IH]; intros [|s ss]; cbn; try done. by rewrite IH.
Qed.

Lemma isConsumed_false b : isConsumed b = false ↔ rpos_ b = mkPos 0 0.
Proof.
  unfold isConsumed. rewrite bool_decide_eq_false. destruct (rpos_ b); cbn.
  split; [intros; f_equal; lia|by intros [= -> ->]; lia].
Qed.

(** An unconsumed buffer with something to read starts with a filled chunk. *)
Lemma unconsumed_inv other n :
  wf other → isConsumed other = false → readSize other = Some n → n ≠ 0 →
  ∃ c cs s ss, chunks_ other = c :: cs ∧ sizes_ other = s :: ss ∧ 0 < s ∧
    length c = BlockSize ∧ s ≤ BlockSize ∧
    (∀ i x, i < length ss - 1 → ss !! i = Some x → 0 < x).
Proof.
  intros Hwf Hcons Hrs Hn. apply isConsumed_false in Hcons.
  destruct (wf_read _ Hwf) as (s & Hs & _).
  destruct (readSize_wf other s Hwf Hs) as [Hrs' _].
  rewrite Hcons in Hrs', Hs; cbn in *.
  pose proof (wf_chunks _ Hwf) as Hlc. pose proof (wf_sizes _ Hwf) as Hls.
  pose proof (wf_block _ Hwf) as Hb. pose proof (wf_fill _ Hwf) as Hf.
  pose proof (wf_mid _ Hwf) as Hm. rewrite Hcons in Hm; cbn in Hm.
  destruct (chunks_ other) as [|c cs], (sizes_ other) as [|s' ss]; cbn in *; try done.
  simplify_eq. apply Forall_cons in Hb as [? _]. apply Forall_cons in Hf as [? _].
  exists c, cs, s, ss. split_and!; try done; [lia|].
  intros i x Hi Hx. apply (Hm (S i) x); [lia|done].
Qed.

Lemma contents_unconsumed b : isConsumed b = false → contents b = concat (filled b).
Proof. intros E%isConsumed_false. unfold contents. by rewrite E. Qed.

(** [copyFrom] appends the contents of an unconsumed buffer. *)
Lemma copyFrom_spec b other :
  wf b → wf other → isConsumed other = false → copyable b other → ∃ b',
    copyFrom b other = Some (Done b' other) ∧ wf b' ∧ (writable b → writable b') ∧
    contents b' = contents b ++ contents other ∧ (roomy b → roomy b') ∧
    rpos_ b' = rpos_ b.
Proof.
  intros Hwf Hwo Hcons Hcopy. unfold copyFrom. rewrite Hcons.
  destruct (readArea_spec other Hwo) as (area & rest & _ & Hrs & Hco & Hnil).
  rewrite Hrs; cbn. case_decide as Hz.
  { apply nil_length_inv in Hz. exists b. rewrite (Hnil Hz), app_nil_r. eauto 10. }
  rewrite (contents_unconsumed other) by done.
  destruct (unconsumed_inv _ _ Hwo Hcons Hrs Hz)
    as (c & cs & s & ss & Ec & Es & Hs & Hlc & Hls & Hmid).
  pose proof (wf_block _ Hwo) as Hb. pose proof (wf_fill _ Hwo) as Hf.
  unfold copyable in Hcopy. rewrite <- filled_zip, Ec, Es in *.
  destruct (copy_loop_spec (zip (c :: cs) (s :: ss)) true b)
    as (b1 & -> & Hwf1 & Hne1 & Hr1 & Hc1).
  - done.
  - apply Forall_forall. intros [x n] Hp.
    apply list_elem_of_lookup in Hp as [i [Hi1 Hi2]%lookup_zip_Some].
    split; [apply (Forall_lookup_1 _ _ _ _ Hb Hi1)|
            apply (Forall_lookup_1 _ _ _ _ Hf Hi2)].
  - intros [|i] [x n] Hi Hp; cbn in *; [by simplify_eq|].
    rewrite length_zip in Hi. apply lookup_zip_Some in Hp as [_ Hp].
    apply (Hmid i n); [lia|done].
  - left. split; [done|]. destruct Hcopy as [?|Hfit]; [by left|right].
    intros p [= <-]. by apply Hfit.
  - left. exists (c, s). done.
  - cbn. eexists; split; [done|].
    case_decide as Hfull.
    + destruct (wf_new_chunk b1 Hwf1 Hne1) as (? & Hr & Hw & ->).
      { pose proof BlockSize_pos. lia. }
      unfold roomy, writable. rewrite Hw, Hr; cbn. pose proof BlockSize_pos.
      split_and!; try done; lia.
    + destruct (writeArea_wf _ Hwf1) as (_ & _ & _ & ?).
      unfold roomy, writable. split_and!; try done; [tauto|lia].
Qed.

(** ** Taking the chunks of another buffer *)

Lemma maybeRemove_spec b :
  wf b → ∃ lc b1, maybeRemoveLastChunk b = Some (lc, b1) ∧
    wpos_ b1 = wpos_ b ∧ rpos_ b1 = rpos_ b ∧
    length (chunks_ b1) = length (sizes_ b1) ∧
    match lc with
    | Some e => off (wpos_ b) = 0 ∧ length e = BlockSize ∧
        chunks_ b = chunks_ b1 ++ [e] ∧ sizes_ b = sizes_ b1 ++ [0]
    | None => 0 < off (wpos_ b) ∧ chunks_ b = chunks_ b1 ∧ sizes_ b = sizes_ b1
    end.
Proof.
  intros Hwf. pose proof (wf_chunks _ Hwf). pose proof (wf_sizes _ Hwf).
  unfold maybeRemoveLastChunk. rewrite (wf_last _ Hwf). cbn. case_decide as Hz.
  - destruct (wf_inv _ Hwf) as (cs & e & ss & Eb & Hl & He & Hs).
    rewrite Hz in *. rewrite Eb; cbn. rewrite lookup_snoc; cbn.
    eexists _, _; split; [done|]. cbn.
    rewrite !length_app; cbn. rewrite !Nat.add_sub, !take_app_length.
    rewrite Eb; cbn. split_and!; done.
  - eexists _, _; split; [done|]. split_and!; try done; lia.
Qed.

(** All fill counts but the last are positive from the read position on. *)
Lemma wf_glue cs ss r s back :
  length cs = length ss → Forall (λ c, length c = BlockSize) cs →
  Forall (λ x, x ≤ BlockSize) ss → last ss = Some back →
  (∀ i x, idx r < i → ss !! i = Some x → 0 < x) →
  ss !! idx r = Some s → off r < s →
  let b := mkBuffer cs ss (mkPos (length cs - 1) back) r in
  wf b ∧ r ≠ wpos_ b ∧ 0 < back.
Proof.
  intros Hl Hb Hf Hlast Hpos Hr Hlt b. subst b.
  rewrite last_lookup in Hlast. rewrite <- Hl in Hlast.
  pose proof (lookup_lt_Some _ _ _ Hr). replace (pred (length cs)) with (length cs - 1) in Hlast by lia.
  assert (idx r = length cs - 1 ∨ 0 < back) as Hback.
  { destruct (decide (idx r = length cs - 1)); [by left|right].
    apply (Hpos (length cs - 1)); [lia|done]. }
  split_and!.
  - constructor; cbn; try done; try lia.
    + exists s. split_and!; [done|lia|lia].
    + intros i x Hi Hx. apply (Hpos i x); [lia|done].
  - intros E. cbn in E. rewrite E in Hr, Hlt; cbn in *.
    rewrite Hlast in Hr. simplify_eq. lia.
  - destruct Hback as [E|]; [|done]. rewrite E, Hlast in Hr. simplify_eq. lia.
Qed.

(** Removing an empty last chunk loses no content. *)
Lemma contents_trim b b1 lc :
  wf b → maybeRemoveLastChunk b = Some (lc, b1) →
  contents b = drop (off (rpos_ b)) (concat (drop (idx (rpos_ b)) (filled b1))) ∧
  off (rpos_ b) ≤ length (concat (drop (idx (rpos_ b)) (filled b1))) ∧
  length (filled b1) = length (chunks_ b1).
Proof.
  intros Hwf Hm. destruct (maybeRemove_spec b Hwf) as (lc' & b1' & E & _ & _ & Hl & Hlc).
  rewrite Hm in E. simplify_eq.
  assert (concat (drop (idx (rpos_ b)) (filled b)) =
          concat (drop (idx (rpos_ b)) (filled b1'))) as Ef.
  { destruct lc' as [e|].
    - destruct Hlc as (_ & _ & Ec & Es). unfold filled.
      rewrite Ec, Es, zip_with_snoc, drop_app, concat_app by done. cbn.
      destruct (_ - _); cbn; by rewrite ?drop_nil, app_nil_r.
    - destruct Hlc as (_ & Ec & Es). unfold filled. by rewrite Ec, Es. }
  rewrite <- Ef. split_and!; [done| |].
  - destruct (wf_read _ Hwf) as (s & Hs & _).
    destruct (contents_here _ _ Hwf Hs) as (x & Hx & Hlx & Hle & _).
    rewrite (drop_S _ _ _ Hx). cbn. rewrite length_app. lia.
  - unfold filled. rewrite length_zip_with. lia.
Qed.

(** Where the read position of the receiver points after the append. *)
Definition next_rpos b : Position :=
  if decide (rpos_ b = wpos_ b ∧ 0 < off (wpos_ b))
  then mkPos (idx (rpos_ b) + 1) 0 else rpos_ b.

Lemma next_rpos_spec b b1 lc s0 os :
  wf b → maybeRemoveLastChunk b = Some (lc, b1) → 0 < s0 →
  Forall (λ x, 0 < x) os →
  let ss := sizes_ b1 ++ s0 :: os in
  (∃ s, ss !! idx (rpos_ b) = Some s ∧ off (rpos_ b) ≤ s ∧
        (off (rpos_ b) = s ↔ rpos_ b = wpos_ b ∧ 0 < off (wpos_ b))) ∧
  (∃ s, ss !! idx (next_rpos b) = Some s ∧ off (next_rpos b) < s) ∧
  (∀ i x, idx (rpos_ b) < i → ss !! i = Some x → 0 < x).
Proof.
  intros Hwf Hm Hs0 Hos ss.
  destruct (maybeRemove_spec b Hwf) as (lc' & b1' & E & _ & _ & Hl & Hlc).
  rewrite Hm in E. simplify_eq. pose proof Hwf as [Hc Hsz _ _ Hlast Ho Hr Hmid].
  assert (∀ i x, (s0 :: os) !! i = Some x → 0 < x) as Hpos_os.
  { intros i x Hi. eapply (Forall_lookup_1 (λ x, 0 < x)); [|exact Hi]. by constructor. }
  assert (∀ i, i < length (sizes_ b1') → sizes_ b !! i = sizes_ b1' !! i) as Hsame.
  { intros i Hi. destruct lc' as [e|]; [|by destruct Hlc as (_ & _ & ->)].
    destruct Hlc as (_ & _ & _ & ->). by rewrite lookup_app_l. }
  assert (length (sizes_ b1') = idx (wpos_ b) ∧ off (wpos_ b) = 0 ∨
          length (sizes_ b1') = S (idx (wpos_ b)) ∧ 0 < off (wpos_ b)) as Hlen.
  { destruct lc' as [e|].
    - destruct Hlc as (? & _ & _ & Es). rewrite Es, length_app in Hsz. cbn in Hsz. lia.
    - destruct Hlc as (? & _ & Es). rewrite Es in Hsz. lia. }
  assert (∃ s, ss !! idx (rpos_ b) = Some s ∧ off (rpos_ b) ≤ s ∧
        (off (rpos_ b) = s ↔ rpos_ b = wpos_ b ∧ 0 < off (wpos_ b))) as Hhere.
  { subst ss. destruct Hr as (s & Hs & Hle & Hlt).
    destruct (decide (idx (rpos_ b) < length (sizes_ b1'))) as [Hi|Hi].
    + exists s. rewrite lookup_app_l, <- Hsame by done. split_and!; [done|done|].
      split; [intros E'|].
      * destruct (decide (idx (rpos_ b) < idx (wpos_ b))); [lia|].
        assert (idx (rpos_ b) = idx (wpos_ b)) as Ei by lia.
        rewrite Ei, Hlast in Hs. simplify_eq. split; [|lia].
        destruct (rpos_ b), (wpos_ b); cbn in *; congruence.
      * intros [E' _]. rewrite E' in *. congruence.
    + destruct Hlen as [[El Hz]|]; [|lia].
      assert (idx (rpos_ b) = idx (wpos_ b)) as Ei by lia.
      rewrite Ei, Hlast in Hs. simplify_eq.
      exists s0. rewrite Ei, lookup_app_r, El, Nat.sub_diag by lia.
      split_and!; [done|lia|]. split; [lia|]. intros [_ ?]. lia. }
  subst ss. split_and!; [done| |].
  - unfold next_rpos. case_decide as Hd.
    + destruct Hd as [E ?]. exists s0. rewrite E; cbn.
      rewrite lookup_app_r by lia.
      replace (_ - _) with 0 by lia. done.
    + destruct Hhere as (s & Hs & Hle & Hiff). exists s. split; [done|].
      destruct (decide (off (rpos_ b) = s)); [tauto|lia].
  - intros i x Hi Hx. rewrite lookup_app in Hx.
    destruct (sizes_ b1' !! i) as [y|] eqn:Hy; [|by eapply Hpos_os].
    simplify_eq. pose proof (lookup_lt_Some _ _ _ Hy).
    rewrite <- Hsame in Hy by done.
    destruct (decide (i = idx (wpos_ b))) as [->|]; [simplify_eq; lia|].
    eapply Hmid; [|done]. lia.
Qed.

Lemma other_trim other n lo o1 :
  wf other → isConsumed other = false → readSize other = Some n → n ≠ 0 →
  maybeRemoveLastChunk other = Some (lo, o1) →
  contents other = concat (filled o1) ∧
  Forall (λ c, length c = BlockSize) (chunks_ o1) ∧
  Forall (λ x, x ≤ BlockSize) (sizes_ o1) ∧
  ∃ s0 os, sizes_ o1 = s0 :: os ∧ 0 < s0 ∧ Forall (λ x, 0 < x) os.
Proof.
  intros Hwf Hcons Hrs Hn Hm. pose proof (contents_trim _ _ _ Hwf Hm) as (Hc & _ & _).
  apply isConsumed_false in Hcons as E. rewrite E in Hc; cbn in Hc.
  split; [done|].
  destruct (maybeRemove_spec _ Hwf) as (lo' & o1' & E' & _ & _ & _ & Hlo).
  rewrite Hm in E'. simplify_eq.
  destruct (unconsumed_inv _ _ Hwf Hcons Hrs Hn)
    as (c & cs & s & ss & Ec & Es & Hs & _ & _ & Hmid).
  pose proof (wf_block _ Hwf) as Hb. pose proof (wf_fill _ Hwf) as Hf.
  pose proof (wf_last _ Hwf) as Hlast. pose proof (wf_sizes _ Hwf) as Hsz.
  destruct lo' as [e|].
  - destruct Hlo as (_ & _ & Eco & Eso). rewrite Eco, Forall_app in Hb.
    rewrite Eso, Forall_app in Hf. split_and!; [by destruct Hb|by destruct Hf|].
    rewrite Es in Eso. destruct (sizes_ o1') as [|s0 os]; cbn in Eso; simplify_eq; [lia|].
    eexists _, _. split_and!; [done|done|].
    apply Forall_lookup_2. intros i x Hi. apply (Hmid i x).
    + rewrite length_app; cbn. apply lookup_lt_Some in Hi. lia.
    + by apply lookup_app_l_Some.
  - destruct Hlo as (Hoff & Eco & Eso). rewrite <- Eco, <- Eso. split_and!; [done|done|].
    exists s, ss. split_and!; [done|done|]. apply Forall_lookup_2. intros i x Hi.
    destruct (decide (i < length ss - 1)); [by eapply Hmid|].
    pose proof (lookup_lt_Some _ _ _ Hi). rewrite Es in Hlast, Hsz. cbn in Hsz.
    replace (idx (wpos_ other)) with (S i) in Hlast by lia.
    change (ss !! i = Some (off (wpos_ other))) in Hlast.
    assert (x = off (wpos_ other)) by congruence. lia.
Qed.

Lemma contents_add_empty cs ss c w w' r :
  length ss = length cs → idx r ≤ length cs →
  contents (mkBuffer (cs ++ [c]) (ss ++ [0]) w r) = contents (mkBuffer cs ss w' r).
Proof. intros. rewrite contents_snoc by done. by rewrite app_nil_r. Qed.

(** The chunks glued together, seen from the new read position. *)
Lemma contents_glue b b1 lc o1 w :
  wf b → maybeRemoveLastChunk b = Some (lc, b1) →
  contents (mkBuffer (chunks_ b1 ++ chunks_ o1) (sizes_ b1 ++ sizes_ o1) w (next_rpos b)) =
  contents b ++ concat (filled o1).
Proof.
  intros Hwf Hm. destruct (contents_trim _ _ _ Hwf Hm) as (Hc & Hle & Hlf).
  destruct (maybeRemove_spec _ Hwf) as (lc' & b1' & E' & _ & _ & Hl & Hlc).
  rewrite Hm in E'. simplify_eq.
  pose proof (wf_chunks _ Hwf) as Hch. pose proof (wf_order _ Hwf) as Ho.
  assert (filled (mkBuffer (chunks_ b1' ++ chunks_ o1) (sizes_ b1' ++ sizes_ o1) w
            (next_rpos b)) = filled b1' ++ filled o1) as Ef.
  { unfold filled; cbn. by rewrite zip_with_app. }
  unfold contents at 1. rewrite Ef. cbn [rpos_]. unfold next_rpos. case_decide as Hd.
  - destruct Hd as [E ?]. rewrite (contents_eob b) by done. cbn [off idx app].
    assert (length (chunks_ b1') = S (idx (wpos_ b))) as Hn.
    { destruct lc'; destruct Hlc as (? & Hlc); [lia|]. destruct Hlc as [<- _]. done. }
    rewrite drop_app_length' by (rewrite E; lia). done.
  - assert (idx (rpos_ b) ≤ length (chunks_ b1')) as Hi.
    { destruct lc'.
      - destruct Hlc as (_ & _ & Ec & _). rewrite Ec, length_app in Hch. cbn in Hch. lia.
      - destruct Hlc as (_ & <- & _). lia. }
    rewrite (drop_app_l (idx _)) by lia.
    rewrite concat_app, drop_app_l by done. by rewrite Hc.
Qed.

(** The receiver once its positions are adjusted: [cs] and [ss] are the
    chunk added behind a full last chunk, if any. *)
Lemma append_final b b1 lc o1 back cs ss :
  wf b → maybeRemoveLastChunk b = Some (lc, b1) →
  Forall (λ c, length c = BlockSize) (chunks_ o1) →
  Forall (λ x, x ≤ BlockSize) (sizes_ o1) →
  length (chunks_ o1) = length (sizes_ o1) →
  last (sizes_ b1 ++ sizes_ o1) = Some back →
  (∀ i x, idx (rpos_ b) < i → (sizes_ b1 ++ sizes_ o1) !! i = Some x → 0 < x) →
  (∃ s, (sizes_ b1 ++ sizes_ o1) !! idx (next_rpos b) = Some s ∧
        off (next_rpos b) < s) →
  (back = BlockSize ∧ ss = [0] ∧ ∃ e, cs = [e] ∧ length e = BlockSize) ∨
    (back ≠ BlockSize ∧ ss = [] ∧ cs = []) →
  ∃ back', last ((sizes_ b1 ++ sizes_ o1) ++ ss) = Some back' ∧
  let b' := mkBuffer ((chunks_ b1 ++ chunks_ o1) ++ cs)
              ((sizes_ b1 ++ sizes_ o1) ++ ss)
              (mkPos (length ((chunks_ b1 ++ chunks_ o1) ++ cs) - 1) back')
              (next_rpos b) in
  wf b' ∧ writable b' ∧ contents b' = contents b ++ concat (filled o1).
Proof.
  intros Hwf Hm Hbo Hfo Hlo Hback Hpos (s & Hs & Hlt) Htail.
  destruct (maybeRemove_spec b Hwf) as (lc' & b1' & E & _ & _ & Hl & Hlc).
  rewrite Hm in E. simplify_eq.
  assert (Forall (λ c, length c = BlockSize) (chunks_ b1') ∧
          Forall (λ x, x ≤ BlockSize) (sizes_ b1')) as [Hb1 Hf1].
  { pose proof (wf_block _ Hwf) as Hb. pose proof (wf_fill _ Hwf) as Hf.
    destruct lc'; destruct Hlc as (_ & Hlc).
    - destruct Hlc as (_ & Ec & Es). rewrite Ec, Forall_app in Hb.
      rewrite Es, Forall_app in Hf. by destruct Hb, Hf.
    - destruct Hlc as (Ec & Es). by rewrite Ec in Hb; rewrite Es in Hf. }
  set (C := chunks_ b1' ++ chunks_ o1) in *. set (S := sizes_ b1' ++ sizes_ o1) in *.
  assert (length C = length S) as HCS by (unfold C, S; rewrite !length_app; lia).
  destruct (wf_glue C S (next_rpos b) s back) as (Hwf' & Hne & Hbk); try done.
  { by apply Forall_app. } { by apply Forall_app. }
  { intros i x Hi. apply Hpos. unfold next_rpos in Hi.
    case_decide; cbn in Hi; lia. }
  pose proof (contents_glue b b1' lc' o1 (mkPos (length C - 1) back) Hwf Hm) as Hc.
  fold C S in Hc. cbn in Hne.
  destruct Htail as [(Hful & Ess & e & Ecs & He)|(Hnf & Ess & Ecs)]; rewrite Ess, Ecs.
  - rewrite Hful in *. exists 0. rewrite last_snoc. split; [done|]. rewrite length_app; cbn [length].
    rewrite Nat.add_sub. split_and!.
    + by apply (wf_add_last C S BlockSize).
    + intros [_ Hoff]. cbn in Hoff. lia.
    + rewrite <- Hc. apply contents_add_empty; [done|].
      pose proof (wf_order _ Hwf') as Ho. cbn in Ho. lia.
  - exists back. rewrite !app_nil_r. split; [done|]. cbn zeta.
    split_and!; [done| |done]. unfold writable; cbn. tauto.
Qed.

(** [appendFrom] moves the contents of an unconsumed buffer.  The receiver
    is well formed again.  The giver is a fresh empty buffer if its last
    chunk had data in it; otherwise its write position is left past its
    only chunk. *)
Lemma appendFrom_spec b other :
  wf b → wf other → isConsumed other = false → contents other ≠ [] →
  ∃ b' other', appendFrom b other = Some (Done b' other') ∧
    wf b' ∧ writable b' ∧ contents b' = contents b ++ contents other ∧
    (0 < off (wpos_ other) → other' = new) ∧
    (off (wpos_ other) = 0 →
      (length (chunks_ other') = 1 ∧ idx (wpos_ other') = idx (wpos_ other) ∧
       0 < idx (wpos_ other)) ∧ sizes_ other' = [0] ∧ rpos_ other' = wpos_ other').
Proof.
  intros Hwf Hwo Hcons Hne. unfold appendFrom. rewrite Hcons.
  destruct (readArea_spec other Hwo) as (area & rest & _ & Hrs & _ & Hnil).
  rewrite Hrs; cbn. assert (length area ≠ 0) as Hz.
  { intros ?%nil_length_inv. auto. }
  rewrite decide_False by done.
  destruct (maybeRemove_spec b Hwf) as (lc & b1 & Hm & Hw1 & Hr1 & Hl1 & Hlc).
  destruct (maybeRemove_spec other Hwo) as (lo & o1 & Hmo & Hwo1 & _ & Hlo1 & Hlo).
  rewrite Hm, Hmo; cbn.
  destruct (other_trim _ _ _ _ Hwo Hcons Hrs Hz Hmo)
    as (Hco & Hbo & Hfo & s0 & os & Eos & Hs0 & Hos).
  destruct (next_rpos_spec b b1 lc s0 os Hwf Hm Hs0 Hos) as (Hhere & Hnext & Hpos).
  rewrite <- Eos in *.
  destruct (last (sizes_ b1 ++ sizes_ o1)) as [back|] eqn:Hback.
  2: { apply last_None in Hback. rewrite Eos in Hback. by destruct (sizes_ b1). }
  cbn. set (b3 := if decide (back = BlockSize) then _ else _).
  assert (∃ cs ss, b3 = mkBuffer ((chunks_ b1 ++ chunks_ o1) ++ cs)
            ((sizes_ b1 ++ sizes_ o1) ++ ss) (wpos_ b) (rpos_ b) ∧
          ((back = BlockSize ∧ ss = [0] ∧ ∃ e, cs = [e] ∧ length e = BlockSize) ∨
           (back ≠ BlockSize ∧ ss = [] ∧ cs = []))) as (cs & ss & -> & Htail).
  { subst b3. case_decide.
    - destruct lc as [e|].
      + exists [e], [0]. unfold push_chunk; cbn. rewrite Hw1, Hr1.
        destruct Hlc as (_ & ? & _). eauto 10.
      + eexists [_], [0]. rewrite Hw1, Hr1. split; [done|]. left.
        split_and!; [done|done|]. eexists; split; [done|]. apply length_replicate.
    - exists [], []. rewrite !app_nil_r, Hw1, Hr1. eauto 10. }
  destruct Hhere as (s & Hs & Hle & Hiff).
  unfold readSize at 1. cbn. rewrite (lookup_app_l_Some _ _ _ _ Hs); cbn.
  rewrite usub_Some by done. cbn.
  assert (s - off (rpos_ b) = 0 ↔ rpos_ b = wpos_ b ∧ 0 < off (wpos_ b)) as Hiff'
    by (rewrite <- Hiff; lia).
  match goal with |- context [if decide (s - ?o = 0) then set_rpos ?p ?x else ?y] =>
    replace (if decide (s - o = 0) then set_rpos p x else y)
      with (set_rpos (next_rpos b) y) by
      (unfold next_rpos; repeat case_decide; try done; exfalso; tauto)
  end.
  destruct (append_final b b1 lc o1 back cs ss)
    as (back' & Hback' & Hwf' & Hwr' & Hc'); try done.
  unfold set_rpos at 1; cbn. rewrite Hback'; cbn.
  eexists _, _; split; [done|]. rewrite Hco. split_and!; try done.
  - intros Hoff. destruct lo as [e|]; [destruct Hlo; lia|].
    by rewrite newChunk_eq.
  - intros Hoff. destruct lo as [e|]; [|destruct Hlo; lia]. cbn.
    rewrite Hwo1. split; [|done]. split_and!; [done|done|].
    destruct Hlo as (_ & _ & _ & Es). pose proof (wf_sizes _ Hwo) as Hsz.
    rewrite Es, Eos in Hsz. cbn in Hsz. rewrite length_app in Hsz; cbn in Hsz. lia.
Qed.

(** A fresh buffer is well formed and empty. *)
Lemma new_wf : wf new ∧ writable new ∧ contents new = [].
Proof.
  pose proof BlockSize_pos. assert (wf new) as Hwf.
  { constructor; cbn; try done; try lia.
    - rewrite Forall_singleton. apply length_replicate.
    - rewrite Forall_singleton. lia.
    - exists 0. split_and!; [done|lia|lia]. }
  split_and!; [done| |by apply contents_eob]. unfold writable; cbn. lia.
Qed.

(** A buffer whose write position is beyond its only chunk. *)
Lemma bad_giver o i :
  length (chunks_ o) = 1 ∧ idx (wpos_ o) = i ∧ 0 < i →
  sizes_ o = [0] → rpos_ o = wpos_ o →
  readSize o = None ∧ ∀ p, MemPiece.data p ≠ [] → write p o = None.
Proof.
  intros (Hl & Hi & Hpos) Hs Hr.
  assert (∀ A (l : list A), length l = 1 → l !! idx (wpos_ o) = None) as Hnone.
  { intros A l Hl'. apply lookup_ge_None_2. lia. }
  split.
  - unfold readSize. by rewrite Hr, Hs, Hnone.
  - intros p Hp. unfold write. cbn [write_loop].
    rewrite decide_False by (intros ?%nil_length_inv; done).
    unfold writeSize. destruct (usub _ _); cbn; [|done].
    unfold poke. by rewrite Hnone.
Qed.

(** ** Sequences of calls *)

(** The invariant of a buffer in use. *)
Definition in_use (sd : side) b : Prop :=
  wf b ∧ idx (rpos_ b) = 0 ∧ (sd = Output → roomy b).

Lemma roomy_writable b : roomy b → writable b.
Proof. unfold roomy, writable. lia. Qed.

Lemma nonempty_rpos b : wf b → contents b ≠ [] → rpos_ b ≠ wpos_ b.
Proof. intros Hwf Hne E. by apply Hne, contents_eob. Qed.

Lemma fill_spec b n d :
  wf b → 0 < n ≤ BlockSize → length d ≤ n → ∃ b',
    apply_op b (OFill n d) = Some b' ∧ wf b' ∧ contents b' = contents b ++ d ∧
    idx (rpos_ b') = idx (rpos_ b).
Proof.
  intros Hwf Hn Hd. cbn [apply_op].
  destruct (reserve_spec b n Hwf) as (b1 & -> & Hwf1 & Hc1 & Hsz & Hi1 & _); [lia|].
  cbn. destruct (writeArea_wf _ Hwf1) as (m & Hm & Hlm & Hs).
  destruct (poke_spec b1 d m Hwf1 Hm) as (b2 & -> & Hwf2 & Hc2 & Hm2 & Hw2 & Hr2 & _);
    [lia|]. cbn.
  destruct (decide (length d = 0)) as [Hz|Hz].
  - rewrite advance_refuse by auto. cbn. apply nil_length_inv in Hz as ->.
    rewrite app_nil_r. exists b2. rewrite Hc2, Hr2. done.
  - destruct (advance_spec b2 (length d) _ Hwf2 Hm2) as (b3 & -> & Hwf3 & Hc3 & Hr3).
    { rewrite length_app. lia. }
    cbn. exists b3. rewrite Hc3, Hc2, Hr3, Hr2, Hc1, take_app_length. done.
Qed.

Lemma apply_op_spec sd b o :
  in_use sd b → ok_op sd o → ∃ b',
    apply_op b o = Some b' ∧ in_use sd b' ∧ contents b' = queue_op (contents b) o.
Proof.
  intros (Hwf & Hi & Hroom) Hok. unfold in_use. destruct o as [p|p src|n d|n].
  - destruct sd; [|done]. specialize (Hroom eq_refl).
    destruct (write_spec b p Hwf) as (b' & ? & ? & ? & ? & Hr & ?);
      [by apply roomy_writable|].
    exists b'. rewrite Hr. naive_solver.
  - destruct sd; [|done]. specialize (Hroom eq_refl). destruct Hok as (Hp & Hws & Hcs).
    destruct (write_spec b p Hwf) as (b1 & Hw & Hwf1 & ? & Hc1 & Hr1 & Hroom1);
      [by apply roomy_writable|].
    destruct (copyFrom_spec b1 src) as (b' & Hcp & ? & ? & Hc & ? & Hr); try done.
    { left. apply nonempty_rpos; [done|]. rewrite Hc1. by destruct (contents b). }
    exists b'. cbn. rewrite Hw; cbn. rewrite Hcp; cbn. rewrite Hr, Hr1, Hc, Hc1.
    rewrite app_assoc. naive_solver.
  - destruct sd; [done|]. destruct Hok.
    destruct (fill_spec b n d) as (b' & -> & ? & ? & Hr); try done.
    exists b'. rewrite Hr. done.
  - destruct (consume_spec b n Hwf) as (b' & ? & ? & ? & Hr & Hw).
    exists b'. unfold roomy. rewrite Hr, Hw. done.
Qed.

Lemma run_ops_spec sd os : ∀ b,
  in_use sd b → Forall (ok_op sd) os → ∃ b',
    run_ops os b = Some b' ∧ in_use sd b' ∧ contents b' = queue_ops (contents b) os.
Proof.
  induction os as [|o os IH]; intros b Hb Hos; cbn; [eauto|].
  apply Forall_cons in Hos as [Ho Hos].
  destruct (apply_op_spec sd b o Hb Ho) as (b1 & -> & Hb1 & Hc1). cbn.
  destruct (IH b1 Hb1 Hos) as (b' & ? & ? & Hc'). exists b'. by rewrite Hc', Hc1.
Qed.

Lemma new_in_use sd : in_use sd new.
Proof. destruct new_wf as (? & _ & _). split_and!; [done|done|]. intros _. apply BlockSize_pos. Qed.
End facts.

#[export] Hint Resolve wf_order roomy_writable BlockSize_pos : srv.

(** ** Properties *)

Section properties.
Context `{Uninit}.

(** C8.  The buffer is a queue of bytes: after any sequence of the calls the
    program makes on an output buffer (write, write and copy a cached
    buffer, consume) or on an input buffer (reserve, read, advance,
    consume), starting from a fresh buffer, no call has undefined
    behaviour, the contents are those of an unbounded byte queue after the
    same calls, [byteCount()] is their number, and the area at [readPtr()]
    is a prefix of them that is empty only when there is nothing to read. *)
Theorem buffer_is_queue sd os :
  Forall (ok_op sd) os → ∃ b,
    run_ops os new = Some b ∧ wf b ∧ contents b = queue_ops [] os ∧
    byteCount b = Some (length (contents b)) ∧
    ∃ area rest, readArea b = Some area ∧ contents b = area ++ rest ∧
                 (area = [] → contents b = []).
Proof.
  intros Hos. destruct (run_ops_spec sd os new (new_in_use sd) Hos)
    as (b & Hrun & (Hwf & Hi & _) & Hc).
  destruct new_wf as (_ & _ & Hnew). rewrite Hnew in Hc.
  destruct (readArea_spec b Hwf) as (area & rest & ? & _ & ? & ?).
  exists b. split_and!; try done; [by apply byteCount_spec|eauto 10].
Qed.

(** [appendFrom] moves all the contents of an unconsumed, non-empty
    buffer behind those of the receiver, which is well formed again.  The
    giver is left a fresh empty buffer when its last chunk held data.  When
    its last chunk was empty (it was written up to a chunk boundary), its
    write position is left beyond its only chunk: its [readSize()] and any
    further non-empty [write] index the deques out of range. *)
Lemma append_moves b other :
  wf b → wf other → isConsumed other = false → contents other ≠ [] →
  ∃ b' other', appendFrom b other = Some (Done b' other') ∧
    wf b' ∧ contents b' = contents b ++ contents other ∧
    (0 < off (wpos_ other) → wf other' ∧ contents other' = []) ∧
    (off (wpos_ other) = 0 → readSize other' = None ∧
       ∀ p, MemPiece.data p ≠ [] → write p other' = None).
Proof.
  intros Hwf Hwo Hcons Hne.
  destruct (appendFrom_spec b other Hwf Hwo Hcons Hne)
    as (b' & o' & ? & ? & ? & ? & Hgood & Hbad).
  exists b', o'. split_and!; try done.
  - intros Hoff. rewrite (Hgood Hoff). destruct new_wf as (? & _ & ?). done.
  - intros Hoff. destruct (Hbad Hoff) as (? & ? & ?). by eapply bad_giver.
Qed.

(** A boundary the other calls do not protect: when exactly a chunk was
    filled and read, [write] puts its bytes in the next chunk but leaves the
    read position at the end of the full one.  [readSize()] is then 0
    although [byteCount()] counts the bytes written. *)
Lemma full_chunk_write_hides :
  match run_ops [OFill BlockSize (replicate BlockSize SP); OConsume BlockSize;
                 OWrite (MemPiece.of_string (b_ "abc"))] new with
  | Some b => readSize b = Some 0 ∧ byteCount b = Some 3
  | None => False
  end.
Proof. vm_compute. split; reflexivity. Qed.

(** [appendFrom] to a buffer that was read to its end moves the read
    position to the second chunk without dropping the first; [byteCount()]
    then counts the bytes to read twice. *)
Lemma append_to_drained_double_count :
  match (b ← run_ops [OWrite (MemPiece.of_string (b_ "hello")); OConsume 5] new;
         o ← run_ops [OWrite (MemPiece.of_string (b_ "abc"))] new;
         appendFrom b o) with
  | Some (Done b _) => contents b = b_ "abc" ∧ byteCount b = Some 6
  | _ => False
  end.
Proof. vm_compute. split; reflexivity. Qed.
End properties.

(** ** Witnesses *)

(** The conditions of [buffer_is_queue] hold for a request read in two parts
    and consumed. *)
Lemma buffer_is_queue_witness :
  ∃ b, run_ops (H := NUL) [OFill 1024 (b_ "GET /"); OFill 1024 (b_ "a"); OConsume 4] (new (H := NUL))
         = Some b ∧ contents b = b_ "/a".
Proof.
  destruct (buffer_is_queue (H := NUL) Input
              [OFill 1024 (b_ "GET /"); OFill 1024 (b_ "a"); OConsume 4])
    as (b & Hrun & _ & Hc & _).
  - pose proof BlockSize_val.
    apply Forall_cons; split; [cbn; lia|]. apply Forall_cons; split; [cbn; lia|].
    apply Forall_cons; split; [exact I|]. apply Forall_nil. exact I.
  - exists b. split; [exact Hrun|]. rewrite Hc. reflexivity.
Defined.

End Buffer.
