(* ===== verification/BufferIter.v ===== *)
(** * The iterator of the buffer ([Buffer::Iterator] in [buffer.hpp], [buffer.cpp])

    The iterator peeks at the contents of a buffer as if they were contiguous.
    Its operations read the buffer it points to, which is an argument here, so
    that an iterator used after the buffer changed can be modelled as well.

    [CharIter] is the interface a parser uses, [CharIterLaws] what it may rely
    on; the iterator of a well-formed buffer discharges the laws. *)

From S2P Require Import Prelude Buffer.

(** The operations of a forward character iterator.  [it_getChar] and
    [it_next] are partial: [None] is an access out of range. *)
Class CharIter (I : Type) := {
  it_eob : I → bool;
  it_getChar : I → option ascii;
  it_next : I → option I;
  it_bytesRead : I → nat;
  it_bytesTotal : I → nat
}.

(** [iter_at i k]: [i] is at position [k] of the bytes [s].  Past the last
    byte, [it_getChar] gives [stale], about which nothing is known, and
    [it_next] does not move. *)
Class CharIterLaws {I} (C : CharIter I) (s : bytes) (stale : option ascii)
    (iter_at : I → nat → Prop) := {
  iter_bound : ∀ i k, iter_at i k → k ≤ length s;
  iter_eob : ∀ i k, iter_at i k → it_eob i = bool_decide (k = length s);
  iter_getChar : ∀ i k c, iter_at i k → s !! k = Some c → it_getChar i = Some c;
  iter_stale : ∀ i, iter_at i (length s) → it_getChar i = stale;
  iter_next : ∀ i k, iter_at i k → k < length s →
    ∃ i', it_next i = Some i' ∧ iter_at i' (S k);
  iter_next_end : ∀ i, iter_at i (length s) → it_next i = Some i;
  iter_read : ∀ i k, iter_at i k → it_bytesRead i = k;
  iter_total : ∀ i k, iter_at i k → it_bytesTotal i = length s
}.

Module Iter.
Import Buffer.Buffer.

(** [chunk_start_] is the index of the chunk it points to. *)
Record Iterator := mkIter {
  pos_ : Position;
  bytes_read_ : nat;
  bytes_total_ : nat;
  budget_ : nat;
  chunk_start_ : nat
}.

Section ops.
Implicit Types (b : Buffer) (it : Iterator).

(** [getBudget()]: [sizes_[pos_.idx] - pos_.off]. *)
Definition getBudget b (p : Position) : option nat :=
  s ← sizes_ b !! idx p;
  usub s (off p).

(** The constructor [Iterator(Buffer * buffer)]. *)
Definition make b : option Iterator :=
  total ← byteCount b;
  budget ← getBudget b (rpos_ b);
  _ ← chunks_ b !! idx (rpos_ b);
  Some (mkIter (rpos_ b) 0 total budget (idx (rpos_ b))).

Definition set_pos (p : Position) it : Iterator :=
  mkIter p (bytes_read_ it) (bytes_total_ it) (budget_ it) (chunk_start_ it).

(** [begin()]. *)
Definition begin b : option Iterator :=
  it ← make b; Some (set_pos (rpos_ b) it).

(** [end()]: the position is the write position; the budget and the chunk
    are those of the read position. *)
Definition end_ b : option Iterator :=
  it ← make b; Some (set_pos (wpos_ b) it).

Definition eob b it : bool :=
  if decide (budget_ it ≠ 0) then false
  else bool_decide (idx (pos_ it) = idx (wpos_ b)) &&
       bool_decide (off (pos_ it) = off (wpos_ b)).

(** The byte at [chunk_start_ + pos_.off]. *)
Definition getChar b it : option ascii :=
  c ← chunks_ b !! chunk_start_ it;
  c !! off (pos_ it).

Definition slowNext b it : option Iterator :=
  s ← sizes_ b !! idx (pos_ it);
  if decide (off (pos_ it) < s) then
    let p := mkPos (idx (pos_ it)) (S (off (pos_ it))) in
    '(p', start) ← (if decide (off p = s ∧ idx p < idx (wpos_ b))
                    then _ ← chunks_ b !! S (idx p);
                         Some (mkPos (S (idx p)) 0, S (idx p))
                    else Some (p, chunk_start_ it));
    budget ← getBudget b p';
    Some (mkIter p' (S (bytes_read_ it)) (bytes_total_ it) budget start)
  else Some it.

Definition next b it : option Iterator :=
  if decide (1 < budget_ it) then
    Some (mkIter (mkPos (idx (pos_ it)) (S (off (pos_ it)))) (S (bytes_read_ it))
            (bytes_total_ it) (budget_ it - 1) (chunk_start_ it))
  else slowNext b it.

(** [operator==] and [operator!=] compare positions only. *)
Definition eq_it (i j : Iterator) : bool := bool_decide (pos_ i = pos_ j).
Definition ne_it (i j : Iterator) : bool := negb (eq_it i j).

(** [it] is [k] bytes into the contents of [b]. *)
Record at_ b it (k : nat) : Prop := {
  at_wf : wf (set_rpos (pos_ it) b);
  at_contents : contents (set_rpos (pos_ it) b) = drop k (contents b);
  at_le : k ≤ length (contents b);
  at_read : bytes_read_ it = k;
  at_total : bytes_total_ it = length (contents b);
  at_budget : getBudget b (pos_ it) = Some (budget_ it);
  at_start : chunk_start_ it = idx (pos_ it)
}.

(** The byte of memory behind the last byte written. *)
Definition stale b : option ascii :=
  m ← writeArea b; head m.
End ops.

#[export] Instance Iterator_iter (b : Buffer) : CharIter Iterator := {|
  it_eob := eob b;
  it_getChar := getChar b;
  it_next := next b;
  it_bytesRead := bytes_read_;
  it_bytesTotal := bytes_total_
|}.

Section facts.
Implicit Types (b : Buffer) (it : Iterator).

Lemma set_rpos_id b : set_rpos (rpos_ b) b = b.
Proof. by destruct b. Qed.

Lemma begin_spec b :
  wf b → idx (rpos_ b) = 0 → ∃ it, begin b = Some it ∧ at_ b it 0.
Proof.
  intros Hwf Hi. unfold begin, make. rewrite byteCount_spec by done. cbn.
  destruct (wf_read _ Hwf) as (s & Hs & Hle & _).
  unfold getBudget. rewrite Hs; cbn. rewrite usub_Some by done. cbn.
  destruct (lookup_lt_is_Some_2 (chunks_ b) (idx (rpos_ b))) as [c ->].
  { rewrite (wf_chunks _ Hwf). pose proof (wf_order _ Hwf). lia. }
  cbn. eexists; split; [done|]. constructor; cbn; rewrite ?set_rpos_id; try done; [lia|].
  unfold getBudget. rewrite Hs; cbn. by rewrite usub_Some.
Qed.

Lemma at_size b it k :
  at_ b it k → ∃ s, sizes_ b !! idx (pos_ it) = Some s ∧ off (pos_ it) ≤ s ∧
                    budget_ it = s - off (pos_ it).
Proof.
  intros [_ _ _ _ _ Hb _]. unfold getBudget in Hb.
  destruct (sizes_ b !! _) as [s|]; cbn in Hb; [|done].
  apply usub_is_Some in Hb as [? ->]. eauto.
Qed.

(** The budget is the length of the contiguous area at the iterator. *)
Lemma at_area b it k :
  at_ b it k → ∃ area rest, drop k (contents b) = area ++ rest ∧
    length area = budget_ it ∧ (area = [] → k = length (contents b)) ∧
    ∃ c, chunks_ b !! idx (pos_ it) = Some c ∧
      area = take (length area) (drop (off (pos_ it)) c).
Proof.
  intros Hat. destruct (at_size _ _ _ Hat) as (s & Hs & Hle & Hbud).
  pose proof Hat as [Hwf Hc Hk _ _ _ _].
  destruct (readArea_spec _ Hwf) as (area & rest & Ha & Hsz & Hc' & Hnil).
  destruct (readSize_wf _ s Hwf Hs) as [Hsz' _]. rewrite Hsz in Hsz'. cbn in Hsz'.
  exists area, rest. rewrite <- Hc, Hc'. split_and!; [done|congruence| |].
  - intros ->. rewrite Hc in Hnil. specialize (Hnil eq_refl).
    apply (f_equal length) in Hnil. rewrite length_drop in Hnil. cbn in Hnil. lia.
  - unfold readArea in Ha. rewrite Hsz in Ha. cbn in Ha.
    destruct (chunks_ b !! idx (pos_ it)) as [c|]; cbn in Ha; [|done].
    exists c. split; [done|]. congruence.
Qed.

Lemma eob_spec b it k :
  wf b → at_ b it k → eob b it = bool_decide (k = length (contents b)).
Proof.
  intros Hwf Hat. destruct (at_area _ _ _ Hat) as (area & rest & Hd & Hl & Hnil & _).
  pose proof (at_le _ _ _ Hat) as Hk. unfold eob. case_decide as Hb.
  - symmetry. apply bool_decide_false. intros ->.
    rewrite drop_ge in Hd by lia. destruct area; [cbn in Hl; lia|done].
  - assert (budget_ it = 0) as Hb0 by lia. rewrite Hb0 in Hl.
    apply nil_length_inv in Hl. rewrite (bool_decide_true (k = _)) by auto.
    destruct (at_size _ _ _ Hat) as (s & Hs & Hle & Hbud).
    pose proof (at_wf _ _ _ Hat) as Hwf'.
    destruct (wpos_order _ Hwf') as [E|E]; cbn in E.
    + rewrite E. rewrite !bool_decide_true; done.
    + pose proof (wf_last _ Hwf) as Hlast.
      destruct (wf_read _ Hwf') as (s' & Hs' & _ & Hlt). cbn in *.
      assert (s' = s) as -> by congruence.
      destruct E as [?|[E ?]]; [lia|]. rewrite E in Hs.
      assert (s = off (wpos_ b)) by congruence. lia.
Qed.

Lemma getChar_spec b it k c :
  at_ b it k → contents b !! k = Some c → getChar b it = Some c.
Proof.
  intros Hat Hk. destruct (at_area _ _ _ Hat) as (area & rest & Hd & Hl & Hnil & ch & Hch & Ha).
  assert (drop k (contents b) !! 0 = Some c) as H0 by (rewrite lookup_drop; by rewrite Nat.add_0_r).
  destruct area as [|x area].
  { pose proof (lookup_lt_Some _ _ _ Hk). specialize (Hnil eq_refl). lia. }
  rewrite Hd in H0. cbn in H0. simplify_eq.
  unfold getChar. rewrite (at_start _ _ _ Hat), Hch. cbn.
  assert (drop (off (pos_ it)) ch !! 0 = Some c) as Hx.
  { destruct (drop (off (pos_ it)) ch); cbn in *; congruence. }
  rewrite lookup_drop, Nat.add_0_r in Hx. done.
Qed.

Lemma getChar_stale b it :
  wf b → at_ b it (length (contents b)) → getChar b it = stale b.
Proof.
  intros Hwf Hat. pose proof (eob_spec _ _ _ Hwf Hat) as He.
  rewrite bool_decide_true in He by done. unfold eob in He. case_decide; [done|].
  apply andb_true_iff in He as [E1%bool_decide_eq_true E2%bool_decide_eq_true].
  unfold getChar, stale, writeArea. rewrite (at_start _ _ _ Hat), E1.
  destruct (chunks_ b !! idx (wpos_ b)) as [c|]; cbn; [|done].
  rewrite E2. destruct (drop (off (wpos_ b)) c) as [|x l] eqn:Hd.
  - apply lookup_ge_None_2. apply (f_equal length) in Hd.
    rewrite length_drop in Hd. cbn in Hd. lia.
  - cbn. rewrite <- (Nat.add_0_r (off _)), <- lookup_drop, Hd. done.
Qed.

Lemma at_budget_pos b it k :
  at_ b it k → k < length (contents b) → 0 < budget_ it.
Proof.
  intros Hat Hk. destruct (at_area _ _ _ Hat) as (area & _ & _ & Hl & Hnil & _).
  destruct area; [specialize (Hnil eq_refl); lia|cbn in Hl; lia].
Qed.

(** One position further inside the chunk. *)
Lemma at_forward b it k s p :
  at_ b it k → k < length (contents b) → sizes_ b !! idx (pos_ it) = Some s →
  off (pos_ it) + 1 ≤ s → (idx (pos_ it) < idx (wpos_ b) → off (pos_ it) + 1 < s) →
  p = mkPos (idx (pos_ it)) (S (off (pos_ it))) →
  at_ b (mkIter p (S (bytes_read_ it)) (bytes_total_ it) (s - off p) (chunk_start_ it)) (S k).
Proof.
  intros [Hwf Hc Hle Hr Ht Hb Hst] Hk Hs Hoff Hlt ->.
  destruct (read_forward _ s 1 Hwf Hs Hoff Hlt) as [Hwf' Hc'].
  cbn in *. rewrite Nat.add_1_r in *. rewrite Hc, drop_drop, Nat.add_1_r in Hc'.
  constructor; cbn; try done; [congruence|].
  unfold getBudget; cbn. rewrite Hs; cbn. rewrite usub_Some; [done|lia].
Qed.

Lemma next_spec b it k :
  wf b → at_ b it k → k < length (contents b) →
  ∃ it', next b it = Some it' ∧ at_ b it' (S k).
Proof.
  intros Hwf0 Hat Hk. pose proof (at_budget_pos _ _ _ Hat Hk) as Hpos.
  destruct (at_size _ _ _ Hat) as (s & Hs & Hle & Hbud).
  unfold next. case_decide as Hb.
  { eexists; split; [done|]. replace (budget_ it - 1) with
      (s - off (mkPos (idx (pos_ it)) (S (off (pos_ it))))) by (cbn; lia).
    eapply at_forward; try done; [lia|lia]. }
  unfold slowNext. rewrite Hs; cbn. rewrite decide_True by lia.
  pose proof Hat as [Hwf Hc Hle' Hr Ht _ Hst].
  case_decide as Hd.
  - destruct Hd as [Hend Hidx].
    destruct (read_next _ s Hwf Hs Hidx) as [Hwf' Hc']. cbn in *.
    destruct (lookup_lt_is_Some_2 (chunks_ b) (S (idx (pos_ it)))) as [c ->].
    { rewrite (wf_chunks _ Hwf0). lia. }
    cbn. destruct (wf_read _ Hwf') as (s' & Hs' & _). cbn in Hs'.
    unfold getBudget; cbn. rewrite Hs'; cbn. rewrite usub_Some by lia. cbn.
    eexists; split; [done|]. constructor; cbn; try done; try lia; try congruence.
    + rewrite Hc in Hc'. rewrite drop_drop in Hc'.
      replace (k + (s - off (pos_ it))) with (S k) in Hc' by lia. done.
    + unfold getBudget; cbn. rewrite Hs'; cbn. by rewrite usub_Some by lia.
  - unfold getBudget; cbn. rewrite Hs; cbn. rewrite usub_Some by lia. cbn.
    eexists; split; [done|]. eapply at_forward; try done; lia.
Qed.

Lemma next_end b it :
  wf b → at_ b it (length (contents b)) → next b it = Some it.
Proof.
  intros Hwf Hat. destruct (at_size _ _ _ Hat) as (s & Hs & Hle & Hbud).
  assert (budget_ it = 0) as Hz.
  { pose proof (eob_spec _ _ _ Hwf Hat) as He. rewrite bool_decide_true in He by done.
    unfold eob in He. case_decide; [done|lia]. }
  unfold next, slowNext. rewrite decide_False by lia. rewrite Hs; cbn.
  by rewrite decide_False by lia.
Qed.

(** The iterator of a well-formed buffer keeps the promises of the interface. *)
#[export] Instance Iterator_laws b (Hwf : wf b) :
  CharIterLaws (Iterator_iter b) (contents b) (stale b) (at_ b).
Proof.
  constructor; cbn.
  - intros i k Hat. apply Hat.
  - intros i k Hat. by apply eob_spec.
  - intros i k c Hat Hc. by eapply getChar_spec.
  - intros i Hat. by apply getChar_stale.
  - intros i k Hat Hk. by apply next_spec.
  - intros i Hat. by apply next_end.
  - intros i k Hat. apply Hat.
  - intros i k Hat. apply Hat.
Qed.
End facts.

(** ** Properties *)

(** Walking [k] times over [next]. *)
Fixpoint walk (b : Buffer) (k : nat) (it : Iterator) : option Iterator :=
  match k with
  | 0 => Some it
  | S k' => it' ← next b it; walk b k' it'
  end.

Lemma walk_spec b k : ∀ it j,
  wf b → at_ b it j → j + k ≤ length (contents b) →
  ∃ it', walk b k it = Some it' ∧ at_ b it' (j + k).
Proof.
  induction k as [|k IH]; intros it j Hwf Hat Hk; cbn.
  { exists it. by rewrite Nat.add_0_r. }
  destruct (next_spec b it j Hwf Hat) as (it1 & -> & Hat1); [lia|]. cbn.
  rewrite Nat.add_succ_r. apply (IH it1 (S j)); [done|done|lia].
Qed.

(**  From [begin()] on a buffer in use, [next()] steps through the contents
    in order, across chunks and never out of range: after [k] steps the
    iterator has read [k] bytes, [getChar()] is the [k]-th one, and [eob()]
    holds exactly when all of them were passed. *)
Lemma iterator_walks_contents b k :
  wf b → idx (rpos_ b) = 0 → k ≤ length (contents b) → ∃ it it',
    begin b = Some it ∧ walk b k it = Some it' ∧
    bytes_read_ it' = k ∧ bytes_total_ it' = length (contents b) ∧
    eob b it' = bool_decide (k = length (contents b)) ∧
    (∀ c, contents b !! k = Some c → getChar b it' = Some c).
Proof.
  intros Hwf Hi Hk. destruct (begin_spec b Hwf Hi) as (it & Hb & Hat).
  destruct (walk_spec b k it 0 Hwf Hat Hk) as (it' & Hw & Hat').
  exists it, it'. split_and!; try done; [apply Hat'|apply Hat'|by apply eob_spec|].
  intros c Hc. by eapply getChar_spec.
Qed.

End Iter.
