(* ===== verification/HttpParser.v ===== *)
(** * HTTP messages and their parser ([http_parser.cpp], [http_request.cpp],
    [http_response.hpp])

    The parser works on any character iterator ([CharIter]); what is proved
    about it uses only the interface's laws.  A [throw] is a value of
    [exn]; a [None] is undefined behaviour (a read outside a chunk). *)

From S2P Require Import Prelude Buffer BufferIter.

(** ** Requests and responses *)

Record Request := mkRequest { method : bytes; address : bytes; version : bytes }.
Record Response := mkResponse { statusLine : bytes; headerRemainder : bytes; body : bytes }.

Definition Request_clear (_ : Request) : Request := mkRequest [] [] [].
Definition Request_cloneFrom (_ other : Request) : Request :=
  mkRequest (method other) (address other) (version other).
Definition Response_clear (_ : Response) : Response := mkResponse [] [] [].

Section toBuffer.
Import Buffer.Buffer.
Context `{Uninit}.

(** [out->write(s.c_str())]: up to the first NUL of [s]. *)
Definition write_cstr (s : bytes) (out : Buffer) : option Buffer :=
  write (MemPiece.of_cstr s) out.

Definition Request_toBuffer (r : Request) (out : Buffer) : option Buffer :=
  out ← write_cstr (method r) out;
  out ← write_cstr [SP] out;
  out ← write_cstr (address r) out;
  out ← write_cstr [SP] out;
  out ← write_cstr (version r) out;
  write_cstr (crlf ++ crlf) out.
End toBuffer.

(** ** Exceptions and the parser's state *)

(** [OutOfRange] is [std::out_of_range], which no handler of the parser
    catches. *)
Inductive exn := IncompleteInput | ErrorInRequest | OutOfRange.

(** A statement over the iterator and the object being filled: it may throw,
    and what it changed before the throw stays changed. *)
Definition M (I S A : Type) : Type := I * S → option ((exn + A) * (I * S)).

Section monad.
Context {I S : Type}.
Definition ret {A} (a : A) : M I S A := λ st, Some (inr a, st).
Definition throw {A} (e : exn) : M I S A := λ st, Some (inl e, st).
Definition bind {A B} (m : M I S A) (k : A → M I S B) : M I S B := λ st,
  match m st with
  | None => None
  | Some (inl e, st') => Some (inl e, st')
  | Some (inr a, st') => k a st'
  end.
(** The loop body running out of fuel. *)
Definition diverge {A} : M I S A := λ _, None.

(** [m] on a field of the object. *)
Definition on {F A} (get : S → F) (set : F → S → S) (m : M I F A) : M I S A := λ st,
  match m (st.1, get st.2) with
  | None => None
  | Some (r, (i, f)) => Some (r, (i, set f st.2))
  end.
End monad.

Notation "x <- m ;; k" := (bind m (λ x, k))
  (at level 100, m at next level, right associativity) : srv_scope.
Notation "m ;;; k" := (bind m (λ _, k)) (at level 100, right associativity) : srv_scope.

(** ** The parser *)

Section parser.
Context {I : Type} {C : CharIter I}.

(** The iterator's methods as statements. *)
Definition eobM {S} : M I S bool := λ '(i, s), Some (inr (it_eob i), (i, s)).
Definition getCharM {S} : M I S ascii := λ '(i, s),
  c ← it_getChar i; Some (inr c, (i, s)).
Definition nextM {S} : M I S unit := λ '(i, s),
  i' ← it_next i; Some (inr tt, (i', s)).
(** The bytes the iterator has still to read; the fuel of the loops. *)
Definition remainingM {S} : M I S nat := λ '(i, s),
  n ← usub (it_bytesTotal i) (it_bytesRead i); Some (inr n, (i, s)).
Definition push_back (c : ascii) : M I bytes unit := λ '(i, s), Some (inr tt, (i, s ++ [c])).

Definition throw_if_eob {S} : M I S unit :=
  e <- eobM ;; if (e : bool) then throw IncompleteInput else ret tt.

Fixpoint parseString_loop (fuel : nat) : M I bytes unit :=
  match fuel with
  | 0 => diverge
  | S fuel =>
    e <- eobM ;;
    if (e : bool) then ret tt else
    c <- getCharM ;;
    if decide (c = SP) then ret tt else
    if decide (c = CR) then ret tt else
    push_back c ;;; nextM ;;; parseString_loop fuel
  end.

Definition parseString : M I bytes unit :=
  throw_if_eob ;;;
  n <- remainingM ;;
  parseString_loop (S n) ;;;
  throw_if_eob.

(** [true] when the line was complete ([return]), [false] when the loop fell
    through. *)
Fixpoint parseLine_loop (fuel : nat) : M I bytes bool :=
  match fuel with
  | 0 => diverge
  | S fuel =>
    e <- eobM ;;
    if (e : bool) then ret false else
    c <- getCharM ;;
    if decide (c = CR) then
      nextM ;;;
      c' <- getCharM ;;
      if decide (c' = LF) then nextM ;;; ret true else throw ErrorInRequest
    else
      push_back c ;;; nextM ;;; parseLine_loop fuel
  end.

Definition parseLine : M I bytes unit :=
  throw_if_eob ;;;
  n <- remainingM ;;
  done_ <- parseLine_loop (S n) ;;
  if (done_ : bool) then ret tt else throw_if_eob.

Definition skipChar {S} (skip : ascii) : M I S unit :=
  throw_if_eob ;;;
  c <- getCharM ;;
  (if decide (c ≠ skip) then throw ErrorInRequest else ret tt) ;;;
  nextM.

Definition skipNewLine {S} : M I S unit :=
  throw_if_eob ;;;
  first <- getCharM ;;
  nextM ;;;
  throw_if_eob ;;;
  second <- getCharM ;;
  (if decide (first ≠ CR ∨ second ≠ LF) then throw ErrorInRequest else ret tt) ;;;
  nextM.

Definition isEmptyLine (line : bytes) : bool :=
  bool_decide (length line = 2) && bool_decide (line = crlf).

(** *** Requests *)

Definition set_method m (r : Request) := mkRequest m (address r) (version r).
Definition set_address a (r : Request) := mkRequest (method r) a (version r).
Definition set_version v (r : Request) := mkRequest (method r) (address r) v.

(** The header loop; [dummy] holds one line at a time. *)
Fixpoint skip_headers (fuel : nat) : M I bytes unit :=
  match fuel with
  | 0 => diverge
  | S fuel =>
    (λ st, parseLine (st.1, [])) ;;;
    dummy <- (λ st, Some (inr st.2, st)) ;;
    if decide (length (dummy : bytes) = 0) then ret tt else skip_headers fuel
  end.

(** The [try] block of [parseRequest]. *)
Definition parseRequest_try : M I Request unit :=
  on method set_method parseString ;;;
  skipChar SP ;;;
  skipChar SLASH ;;;
  on address set_address parseString ;;;
  skipChar SP ;;;
  on version set_version parseString ;;;
  skipNewLine ;;;
  n <- remainingM ;;
  on (λ _, []) (λ _ r, r) (skip_headers (S n)).

(** The value the parser's entry points return; [Uncaught] is an exception
    that leaves them. *)
Inductive outcome := Code (z : Z) | Uncaught.

Definition catch {A S} (r : (exn + A) * (I * S)) : outcome * (I * S) :=
  (match r.1 with
   | inr _ => Code 0
   | inl IncompleteInput => Code 1
   | inl ErrorInRequest => Code (-1)
   | inl OutOfRange => Uncaught
   end, r.2).

Definition parseRequest (i : I) (request : Request) : option (outcome * (I * Request)) :=
  r ← parseRequest_try (i, Request_clear request);
  Some (catch r).

(** *** Responses *)

(** [line.find(pat)] as a test. *)
Fixpoint find_str (pat s : bytes) : bool :=
  bool_decide (take (length pat) s = pat) ||
  match s with [] => false | _ :: s' => find_str pat s' end.

Definition is_space (c : ascii) : bool :=
  bool_decide (c = SP) || (bool_decide (9 ≤ nat_of_ascii c) && bool_decide (nat_of_ascii c ≤ 13)).
Definition is_digit (c : ascii) : bool :=
  bool_decide (48 ≤ nat_of_ascii c) && bool_decide (nat_of_ascii c ≤ 57).
Definition digit_val (c : ascii) : Z := Z.of_nat (nat_of_ascii c) - 48.

Fixpoint skip_spaces (s : bytes) : bytes :=
  match s with
  | [] => []
  | c :: s' => if is_space c then skip_spaces s' else s
  end.

Fixpoint digits_value (acc : Z) (s : bytes) : Z :=
  match s with
  | [] => acc
  | c :: s' => if is_digit c then digits_value (10 * acc + digit_val c) s' else acc
  end.

(** [istringstream(s) >> v] for a [size_t] [v] that held [old]: leading blanks
    are skipped; at the end of the string [v] is left alone; otherwise an
    optional sign and decimal digits are read (none: 0; too many: the largest
    value; a minus sign negates modulo [2^64]). *)
Definition stream_size_t (old : Z) (s : bytes) : Z :=
  match skip_spaces s with
  | [] => old
  | c :: s' =>
    let neg := bool_decide (c = "-"%char) in
    let v := digits_value 0
               (if neg || bool_decide (c = "+"%char) then s' else c :: s') in
    if decide (2 ^ 64 ≤ v)%Z then 2 ^ 64 - 1
    else if neg then (- v) mod 2 ^ 64 else v
  end.

Definition lengthString : bytes := b_ "Content-Length:".
(** [sizeof(lengthString)] counts the final NUL. *)
Definition sizeof_lengthString : nat := 16.

Definition set_statusLine l (r : Response) := mkResponse l (headerRemainder r) (body r).
Definition append_header l (r : Response) :=
  mkResponse (statusLine r) (headerRemainder r ++ l) (body r).
Definition set_body b (r : Response) := mkResponse (statusLine r) (headerRemainder r) b.

(** [string(line, n)] throws when [n] is past the end. *)
Definition substr_from {S} (line : bytes) (n : nat) : M I S bytes :=
  if decide (length line < n) then throw OutOfRange else ret (drop n line).

(** A line into a fresh string. *)
Definition parseLine_fresh {S} : M I S bytes := λ '(i, s),
  match parseLine (i, []) with
  | None => None
  | Some (inl e, (i', _)) => Some (inl e, (i', s))
  | Some (inr _, (i', line)) => Some (inr line, (i', s))
  end.

(** The header loop; the result is [contentSize]. *)
Fixpoint read_headers (fuel : nat) (contentSize : Z) : M I Response Z :=
  match fuel with
  | 0 => diverge
  | S fuel =>
    line <- parseLine_fresh ;;
    if decide (line = []) then ret contentSize else
    contentSize <- (if find_str lengthString line
                    then str <- substr_from line sizeof_lengthString ;;
                         ret (stream_size_t contentSize str)
                    else ret contentSize) ;;
    (λ '(i, r), Some (inr tt, (i, append_header line r))) ;;;
    read_headers fuel contentSize
  end.

Fixpoint read_body (n : nat) : M I bytes unit :=
  match n with
  | 0 => ret tt
  | S n => c <- getCharM ;; push_back c ;;; nextM ;;; read_body n
  end.

Definition parseResponse_try : M I Response unit :=
  on statusLine set_statusLine parseLine ;;;
  n <- remainingM ;;
  contentSize <- read_headers (S n) 0 ;;
  left_ <- remainingM ;;
  if decide (Z.of_nat left_ < contentSize)%Z then throw IncompleteInput
  else on body set_body (read_body (Z.to_nat contentSize)).

Definition parseResponse (i : I) (response : Response) : option (outcome * (I * Response)) :=
  r ← parseResponse_try (i, Response_clear response);
  Some (catch r).
End parser.

(** ** Reasoning about the parser *)

(** [wp m i s Q]: [m], started at iterator [i] with object [s], is free of
    undefined behaviour, terminates, and its result satisfies [Q]. *)
Definition wp {I S A} (m : M I S A) (i : I) (s : S) (Q : exn + A → I → S → Prop) : Prop :=
  ∃ x i' s', m (i, s) = Some (x, (i', s')) ∧ Q x i' s'.

Definition bindQ {I S A B} (k : A → M I S B) (Q : exn + B → I → S → Prop)
    (x : exn + A) (i : I) (s : S) : Prop :=
  match x with inl e => Q (inl e) i s | inr a => wp (k a) i s Q end.

Lemma wp_bind {I S A B} (m : M I S A) (k : A → M I S B) i s Q :
  wp m i s (bindQ k Q) → wp (bind m k) i s Q.
Proof.
  intros (x & i' & s' & Hm & Hx). unfold wp, bind. rewrite Hm.
  destruct x as [e|a]; cbn in Hx; [|done]. by eexists _, _, _.
Qed.

Lemma wp_ret {I S A} (a : A) (i : I) (s : S) (Q : exn + A → I → S → Prop) :
  Q (inr a) i s → wp (ret a) i s Q.
Proof. intros. by eexists _, _, _. Qed.

Lemma wp_throw {I S A} e (i : I) (s : S) (Q : exn + A → I → S → Prop) :
  Q (inl e) i s → wp (throw e) i s Q.
Proof. intros. by eexists _, _, _. Qed.

Lemma wp_on {I S F A} get set (m : M I F A) (i : I) (s : S) Q :
  wp m i (get s) (λ x i' f, Q x i' (set f s)) → wp (on get set m) i s Q.
Proof.
  intros (x & i' & f & Hm & HQ). unfold wp, on; cbn. rewrite Hm.
  by eexists _, _, _.
Qed.

Lemma wp_mono {I S A} (m : M I S A) i s (P Q : exn + A → I → S → Prop) :
  wp m i s P → (∀ x i' s', P x i' s' → Q x i' s') → wp m i s Q.
Proof. intros (x & i' & s' & ? & ?) HPQ. exists x, i', s'. auto. Qed.

(** The bytes a token or a header line is made of. *)
Definition tok_char (c : ascii) : Prop := c ≠ SP ∧ c ≠ CR.
Definition line_char (c : ascii) : Prop := c ≠ CR.
Definition token (t : bytes) : Prop := Forall tok_char t.
Definition line (t : bytes) : Prop := Forall line_char t.

#[export] Instance tok_char_dec c : Decision (tok_char c).
Proof. unfold tok_char. apply _. Defined.
#[export] Instance line_char_dec c : Decision (line_char c).
Proof. unfold line_char. apply _. Defined.
#[export] Instance token_dec t : Decision (token t).
Proof. unfold token. apply _. Defined.
#[export] Instance line_dec t : Decision (line t).
Proof. unfold line. apply _. Defined.

(** A byte string is a run of [P]-bytes, perhaps followed by another byte. *)
Lemma split_run (P : ascii → Prop) `{∀ c, Decision (P c)} (s : bytes) :
  Forall P s ∨ ∃ t c r, s = t ++ c :: r ∧ Forall P t ∧ ¬ P c.
Proof.
  induction s as [|c s IH]; [left; constructor|].
  destruct (decide (P c)) as [Hc|Hc].
  - destruct IH as [Hs|(t & d & r & -> & Ht & Hd)]; [left; by constructor|].
    right. exists (c :: t), d, r. split_and!; [done|by constructor|done].
  - right. exists [], c, s. split_and!; [done|constructor|done].
Qed.

Section specs.
Context {I : Type} {C : CharIter I} {s : bytes} {stale : option ascii}.
Context {at_ : I → nat → Prop} {L : CharIterLaws C s stale at_}.

(** [rem i r]: the bytes [r] are left at iterator [i]. *)
Definition rem (i : I) (r : bytes) : Prop := ∃ p, s = p ++ r ∧ at_ i (length p).

Lemma rem_eob i r : rem i r → it_eob i = bool_decide (r = []).
Proof.
  intros (p & Hs & Hat). rewrite (iter_eob i _ Hat), Hs, length_app.
  apply bool_decide_ext. destruct r; cbn; split; intros; try done; lia.
Qed.

Lemma rem_getChar i c r : rem i (c :: r) → it_getChar i = Some c.
Proof.
  intros (p & Hs & Hat). apply (iter_getChar i _ c Hat).
  rewrite Hs. by apply list_lookup_middle.
Qed.

Lemma rem_next i c r : rem i (c :: r) → ∃ i', it_next i = Some i' ∧ rem i' r.
Proof.
  intros (p & Hs & Hat). destruct (iter_next i _ Hat) as (i' & Hn & Hat').
  { rewrite Hs, length_app; cbn. lia. }
  exists i'. split; [done|]. exists (p ++ [c]). rewrite <- app_assoc. split; [done|].
  rewrite length_app, Nat.add_comm. done.
Qed.

Lemma rem_nil i : rem i [] → it_getChar i = stale ∧ it_next i = Some i.
Proof.
  intros (p & Hs & Hat). rewrite app_nil_r in Hs. rewrite <- Hs in Hat.
  split; [by apply iter_stale|by apply iter_next_end].
Qed.

Lemma rem_read i r : rem i r → it_bytesRead i + length r = length s.
Proof.
  intros (p & Hs & Hat). rewrite (iter_read i _ Hat), Hs. by rewrite length_app.
Qed.

Lemma rem_remaining i r :
  rem i r → usub (it_bytesTotal i) (it_bytesRead i) = Some (length r).
Proof.
  intros Hr. pose proof (rem_read _ _ Hr). destruct Hr as (p & Hs & Hat).
  rewrite (iter_total i _ Hat). rewrite usub_Some by lia. f_equal. lia.
Qed.

(** *** Rules for the statements *)

Section rules.
Context {S : Type}.
Implicit Types (st : S).

Lemma wp_eob i r st Q :
  rem i r → Q (inr (bool_decide (r = []))) i st → wp eobM i st Q.
Proof. intros Hr HQ. eexists _, _, _. split; [|exact HQ]. cbn. by rewrite (rem_eob _ _ Hr). Qed.

Lemma wp_getChar i c r st Q :
  rem i (c :: r) → Q (inr c) i st → wp getCharM i st Q.
Proof.
  intros Hr HQ. eexists _, _, _. split; [|exact HQ]. cbn. by rewrite (rem_getChar _ _ _ Hr).
Qed.

Lemma wp_next i c r st Q :
  rem i (c :: r) → (∀ i', rem i' r → Q (inr tt) i' st) → wp nextM i st Q.
Proof.
  intros Hr HQ. destruct (rem_next _ _ _ Hr) as (i' & Hn & Hr').
  eexists _, _, _. split; [|exact (HQ _ Hr')]. cbn. by rewrite Hn.
Qed.

Lemma wp_remaining i r st Q :
  rem i r → Q (inr (length r)) i st → wp remainingM i st Q.
Proof.
  intros Hr HQ. eexists _, _, _. split; [|exact HQ]. cbn. by rewrite (rem_remaining _ _ Hr).
Qed.

Lemma wp_throw_if_eob i r st Q :
  rem i r → (r = [] → Q (inl IncompleteInput) i st) → (r ≠ [] → Q (inr tt) i st) →
  wp throw_if_eob i st Q.
Proof.
  intros Hr H1 H2. apply wp_bind. eapply wp_eob; [done|]. cbn.
  case_bool_decide; [apply wp_throw|apply wp_ret]; auto.
Qed.

Lemma skipChar_ok c i r st Q :
  rem i (c :: r) → (∀ i', rem i' r → Q (inr tt) i' st) → wp (skipChar c) i st Q.
Proof.
  intros Hr HQ. apply wp_bind. eapply wp_throw_if_eob; [done|done|intros _; cbn].
  apply wp_bind. eapply wp_getChar; [done|cbn]. apply wp_bind.
  rewrite decide_False by naive_solver. apply wp_ret; cbn. by eapply wp_next.
Qed.

Lemma skipChar_bad c d i r st Q :
  rem i (d :: r) → d ≠ c → Q (inl ErrorInRequest) i st → wp (skipChar c) i st Q.
Proof.
  intros Hr Hd HQ. apply wp_bind. eapply wp_throw_if_eob; [done|done|intros _; cbn].
  apply wp_bind. eapply wp_getChar; [done|cbn]. apply wp_bind.
  rewrite decide_True by done. by apply wp_throw.
Qed.

Lemma skipChar_end c i st Q :
  rem i [] → Q (inl IncompleteInput) i st → wp (skipChar c) i st Q.
Proof. intros Hr HQ. apply wp_bind. by eapply wp_throw_if_eob. Qed.
End rules.

(** *** Tokens, lines and the end of the first line *)

(** One statement of a parser, run at an iterator whose remaining bytes are
    known. *)
Ltac step H :=
  first [ apply wp_ret | apply wp_throw
        | apply wp_bind; cbn beta; eapply (wp_throw_if_eob _ _ _ _ H); intros ?
        | eapply (wp_throw_if_eob _ _ _ _ H); intros ?
        | apply wp_bind; eapply (wp_eob _ _ _ _ H)
        | apply wp_bind; eapply (wp_getChar _ _ _ _ _ H)
        | apply wp_bind; eapply (wp_next _ _ _ _ _ H); intros
        | eapply (wp_next _ _ _ _ _ H); intros
        | eapply (wp_getChar _ _ _ _ _ H)
        | apply wp_bind; eapply (wp_remaining _ _ _ _ H)
        | apply wp_bind ]; unfold bindQ; cbn beta iota; try done; auto.

Ltac run := unfold bindQ; cbn beta iota; repeat match goal with
  | |- wp _ ?i _ _ => match goal with H : rem i _ |- _ => step H end
  end.

Lemma wp_push_back c i d (Q : exn + () → I → bytes → Prop) :
  Q (inr tt) i (d ++ [c]) → wp (push_back c) i d Q.
Proof. intros. by eexists _, _, _. Qed.

Lemma skipNewLine_ok {S} i r (st : S) Q :
  rem i (CR :: LF :: r) → (∀ i', rem i' r → Q (inr tt) i' st) → wp skipNewLine i st Q.
Proof. intros Hr HQ. by run. Qed.

Lemma skipNewLine_bad {S} c d i r (st : S) Q :
  rem i (c :: d :: r) → ¬ (c = CR ∧ d = LF) →
  (∀ i', Q (inl ErrorInRequest) i' st) → wp skipNewLine i st Q.
Proof.
  intros Hr Hcd HQ. run. rewrite decide_True; [by run|].
  destruct (decide (c = CR)); [right|left]; naive_solver.
Qed.

Lemma skipNewLine_end {S} i r (st : S) Q :
  rem i r → length r ≤ 1 → (∀ i', rem i' [] → Q (inl IncompleteInput) i' st) →
  wp skipNewLine i st Q.
Proof.
  intros Hr Hl HQ. destruct r as [|c [|]]; [|by run|cbn in Hl; lia].
  by run.
Qed.

(** The token loop on a run of token bytes followed by [k]. *)
Lemma parseString_loop_spec t k fuel i d Q :
  rem i (t ++ k) → token t → length t < fuel →
  match k with [] => True | c :: _ => c = SP ∨ c = CR end →
  (∀ i', rem i' k → Q (inr tt) i' (d ++ t)) →
  wp (parseString_loop fuel) i d Q.
Proof.
  revert fuel i d. induction t as [|c t IH]; intros fuel i d Hr Ht Hf Hk HQ;
    destruct fuel as [|fuel]; [lia| |cbn in Hf; lia|]; cbn in Hr.
  - specialize (HQ _ Hr). rewrite app_nil_r in HQ.
    destruct k as [|c k]; [by run|]. run. by destruct Hk as [->| ->]; run.
  - apply Forall_cons in Ht as [[H1 H2] Ht].
    run. rewrite !decide_False by done. step Hr. apply wp_push_back. step Hr.
    apply (IH fuel); try done; [cbn in Hf; lia|].
    intros i2 Hr2. rewrite <- app_assoc. by apply HQ.
Qed.

Lemma parseString_ok t c r i d Q :
  rem i (t ++ c :: r) → token t → c = SP ∨ c = CR →
  (∀ i', rem i' (c :: r) → Q (inr tt) i' (d ++ t)) → wp parseString i d Q.
Proof.
  intros Hr Ht Hc HQ. step Hr; [by destruct t|]. step Hr. apply wp_bind.
  eapply parseString_loop_spec; [done|done|rewrite length_app; lia|done|].
  intros i' Hr'. by run.
Qed.

Lemma parseString_end t i d Q :
  rem i t → token t → (∀ i', rem i' [] → Q (inl IncompleteInput) i' (d ++ t)) →
  wp parseString i d Q.
Proof.
  intros Hr Ht HQ. step Hr.
  { subst. specialize (HQ _ Hr). by rewrite app_nil_r in HQ. }
  step Hr. apply wp_bind. rewrite <- (app_nil_r t) in Hr.
  eapply (parseString_loop_spec t []); [done|done|lia|done|].
  intros i' Hr'. by run.
Qed.

(** The line loop on a run of line bytes followed by [k]. *)
Lemma parseLine_loop_run t k fuel i d Q :
  rem i (t ++ k) → line t → length t < fuel →
  (∀ i' fuel', rem i' k → 0 < fuel' → wp (parseLine_loop fuel') i' (d ++ t) Q) →
  wp (parseLine_loop fuel) i d Q.
Proof.
  revert fuel i d. induction t as [|c t IH]; intros fuel i d Hr Ht Hf HQ.
  { specialize (HQ i fuel Hr Hf). by rewrite app_nil_r in HQ. }
  destruct fuel as [|fuel]; [cbn in Hf; lia|].
  apply Forall_cons in Ht as [H1 Ht]. cbn in Hr.
  run. rewrite decide_False by done. step Hr. apply wp_push_back. step Hr.
  apply (IH fuel); try done; [cbn in Hf; lia|].
  intros i2 f2 Hr2 Hf2. rewrite <- app_assoc. by apply HQ.
Qed.

(** What follows the loop in [parseLine]. *)
Definition line_end (m : M I bytes bool) : M I bytes unit :=
  done_ <- m ;; if (done_ : bool) then ret tt else throw_if_eob.

Lemma parseLine_run t k i d Q :
  rem i (t ++ k) → line t → t ++ k ≠ [] →
  (∀ i' fuel, rem i' k → 0 < fuel → wp (line_end (parseLine_loop fuel)) i' (d ++ t) Q) →
  wp parseLine i d Q.
Proof.
  intros Hr Ht Hne HQ. step Hr. step Hr. apply wp_bind.
  eapply parseLine_loop_run; [done|done|rewrite length_app; lia|].
  intros i' fuel' Hr' Hf. destruct (HQ i' fuel' Hr' Hf) as (x & i2 & d2 & Hm & Hx).
  unfold line_end, bind in Hm.
  destruct (parseLine_loop fuel' (i', d ++ t)) as [[[e|a] [i3 d3]]|] eqn:E; [| |done].
  - simplify_eq. by eexists _, _, _.
  - eexists _, _, _. split; [exact E|]. cbn. by eexists _, _, _.
Qed.

Lemma parseLine_ok t r i d Q :
  rem i (t ++ CR :: LF :: r) → line t →
  (∀ i', rem i' r → Q (inr tt) i' (d ++ t)) → wp parseLine i d Q.
Proof.
  intros Hr Ht HQ. eapply parseLine_run; [done|done|by destruct t|].
  intros i' [|fuel] Hr' Hf; [lia|]. by run.
Qed.

Lemma parseLine_bad t c r i d Q :
  rem i (t ++ CR :: c :: r) → line t → c ≠ LF →
  (∀ i', rem i' (c :: r) → Q (inl ErrorInRequest) i' (d ++ t)) → wp parseLine i d Q.
Proof.
  intros Hr Ht Hc HQ. eapply parseLine_run; [done|done|by destruct t|].
  intros i' [|fuel] Hr' Hf; [lia|]. run. rewrite decide_False by done. by run.
Qed.

Lemma parseLine_end t i d Q :
  rem i t → line t → (∀ i', rem i' [] → Q (inl IncompleteInput) i' (d ++ t)) →
  wp parseLine i d Q.
Proof.
  intros Hr Ht HQ. destruct (decide (t = [])) as [->|Hne].
  { specialize (HQ _ Hr). rewrite app_nil_r in HQ. by run. }
  eapply (parseLine_run t []); rewrite ?app_nil_r; try done.
  intros i' [|fuel] Hr' Hf; [lia|]. by run.
Qed.

(** A carriage return that is the last byte: the byte behind the written
    memory decides. *)
Lemma parseLine_cr_last t c i d Q :
  rem i (t ++ [CR]) → line t → stale = Some c →
  (∀ i', rem i' [] → Q (if decide (c = LF) then inr tt else inl ErrorInRequest) i' (d ++ t)) →
  wp parseLine i d Q.
Proof.
  intros Hr Ht Hs HQ. eapply parseLine_run; [done|done|by destruct t|].
  intros i' [|fuel] Hr' Hf; [lia|]. unfold line_end. run.
  match goal with H : rem ?j [] |- _ =>
    destruct (rem_nil _ H) as [Hg Hn]; specialize (HQ _ H);
    exists (inr c), j, (d ++ t); split; [cbn; by rewrite Hg, Hs|] end.
  case_decide; [|by run]. step Hr'.
  eexists (inr tt), _, (d ++ t). split; [cbn; by rewrite Hn|]. by run.
Qed.

(** *** Header lines *)

Definition header_line (h : bytes) : Prop := h ≠ [] ∧ line h.
Definition header_block (hs : list bytes) : bytes :=
  concat (map (λ h, h ++ crlf) hs) ++ crlf.

(** The contents do not end with a carriage return. *)
Definition quiet (r : bytes) : Prop := last r ≠ Some CR.

Lemma rem_quiet i t r : quiet s → rem i (t ++ r) → r ≠ [] → quiet r.
Proof.
  intros Hq (p & Hs & _) Hne Hr. apply Hq. rewrite Hs, !last_app, Hr. done.
Qed.

Lemma parseLine_fresh_wp {S} i (st : S) Q :
  wp parseLine i [] (λ x i' d, Q (match x with inl e => inl e | inr _ => inr d end) i' st) →
  wp parseLine_fresh i st Q.
Proof.
  intros (x & i' & d & Hm & HQ). unfold wp, parseLine_fresh. rewrite Hm.
  destruct x as [e|[]]; by eexists _, _, _.
Qed.

Lemma skip_headers_step fuel i d Q :
  wp parseLine i [] (λ x i' d', match x with
    | inl e => Q (inl e) i' d'
    | inr _ => if decide (length d' = 0) then Q (inr tt) i' d' else wp (skip_headers fuel) i' d' Q
    end) →
  wp (skip_headers (S fuel)) i d Q.
Proof.
  intros (x & i' & d' & Hm & HQ). apply wp_bind. exists x, i', d'. split; [done|].
  destruct x as [e|[]]; [done|]. apply wp_bind. exists (inr d'), i', d'.
  split; [done|]. cbn. case_decide; [by apply wp_ret|done].
Qed.

Lemma header_block_cons h hs r :
  header_block (h :: hs) ++ r = h ++ CR :: LF :: header_block hs ++ r.
Proof. unfold header_block. cbn. by rewrite <- !app_assoc. Qed.

Lemma length_block hs : 2 ≤ length (header_block hs).
Proof. unfold header_block. rewrite length_app. cbn. lia. Qed.

Lemma skip_headers_ok hs r fuel i d Q :
  rem i (header_block hs ++ r) → Forall header_line hs → length hs < fuel →
  (∀ i' d', rem i' r → Q (inr tt) i' d') → wp (skip_headers fuel) i d Q.
Proof.
  revert fuel i d. induction hs as [|h hs IH]; intros [|fuel] i d Hr Hh Hf HQ;
    [lia| |cbn in Hf; lia|]; apply skip_headers_step.
  - eapply (parseLine_ok []); [exact Hr|constructor|]. intros i' Hr'. cbn.
    rewrite decide_True by done. auto.
  - apply Forall_cons in Hh as [[Hne Hh] Hhs]. rewrite header_block_cons in Hr.
    eapply parseLine_ok; [done|done|]. intros i' Hr'. cbn.
    rewrite decide_False by (by destruct h).
    apply IH; [done|done|cbn in Hf; lia|done].
Qed.

(** [p] is a proper prefix of [t]. *)
Definition proper (p t : bytes) : Prop := ∃ q, t = p ++ q ∧ q ≠ [].

Lemma proper_app p x y :
  proper p (x ++ y) → (∃ q, x = p ++ q) ∨ ∃ p', p = x ++ p' ∧ proper p' y.
Proof.
  intros (q & Hp & Hne). apply app_eq_inv in Hp as [(k & Hk & Hq)|(k & Hk & Hq)].
  - left. by exists k.
  - right. exists k. split; [done|]. by exists q.
Qed.

Lemma proper_cons p c t : proper p (c :: t) → p = [] ∨ ∃ p', p = c :: p' ∧ proper p' t.
Proof.
  intros (q & Hp & Hne). destruct p as [|d p]; [by left|].
  right. cbn in Hp. injection Hp as -> ->. exists p. split; [done|]. by exists q.
Qed.

Lemma line_take t p q : t = p ++ q → line t → line p.
Proof. intros -> Ht. apply Forall_app in Ht. apply Ht. Qed.
Lemma token_take t p q : t = p ++ q → token t → token p.
Proof. intros -> Ht. apply Forall_app in Ht. apply Ht. Qed.

(** A line of which a proper prefix of the bytes is there. *)
Lemma parseLine_prefix h k p i d Q :
  quiet s → rem i p → proper p (h ++ CR :: LF :: k) → line h →
  (∀ i' d', rem i' [] → Q (inl IncompleteInput) i' d') →
  (∀ i' p', p = h ++ CR :: LF :: p' → proper p' k → rem i' p' → Q (inr tt) i' (d ++ h)) →
  wp parseLine i d Q.
Proof.
  intros Hq Hr Hp Hh HI HQ. apply proper_app in Hp as [(q & E)|(p1 & -> & Hp)].
  { eapply parseLine_end; [done|by eapply line_take|auto]. }
  apply proper_cons in Hp as [->|(p2 & -> & Hp)].
  { rewrite app_nil_r in Hr. eapply parseLine_end; [done|done|auto]. }
  apply proper_cons in Hp as [->|(p3 & -> & Hp)].
  { exfalso. by eapply (rem_quiet _ h); [exact Hq|exact Hr|done|]. }
  eapply parseLine_ok; [done|done|]. intros i' Hr'. by eapply HQ.
Qed.

(** A proper prefix of a header block that is not cut inside CR LF is
    recognised as incomplete. *)
Lemma skip_headers_prefix hs p fuel i d Q :
  quiet s → rem i p → proper p (header_block hs) →
  Forall header_line hs → length p < fuel →
  (∀ i' d', rem i' [] → Q (inl IncompleteInput) i' d') → wp (skip_headers fuel) i d Q.
Proof.
  revert p fuel i d. induction hs as [|h hs IH];
    intros p [|fuel] i d Hq Hr Hp Hh Hf HQ; try lia; apply skip_headers_step.
  - eapply (parseLine_prefix []); [done|done|exact Hp|constructor|auto|].
    intros i' p' _ (q & Hn & Hne). by destruct p', q.
  - apply Forall_cons in Hh as [[Hne Hh] Hhs].
    rewrite <- (app_nil_r (header_block _)), header_block_cons, app_nil_r in Hp.
    eapply parseLine_prefix; [done|done|exact Hp|done|auto|].
    intros i' p' -> Hp' Hr'. cbn. rewrite decide_False by (by destruct h).
    rewrite length_app in Hf; cbn in Hf.
    eapply (IH p'); try done. lia.
Qed.

(** The byte behind the contents can be read, or is not needed. *)
Definition readable : Prop := quiet s ∨ is_Some stale.

(** What is left is a message and the rest; or a message but for its last line
    feed, which lies in the memory behind the contents. *)
Definition passed (msg r : bytes) (i : I) : Prop :=
  (∃ rest, r = msg ++ rest ∧ rem i rest) ∨ (r ++ [LF] = msg ∧ stale = Some LF ∧ rem i []).

Lemma passed_app x msg r i : passed msg r i → passed (x ++ msg) (x ++ r) i.
Proof.
  intros [(rest & -> & Hr)|(<- & Hs & Hr)]; [left|right].
  - exists rest. by rewrite app_assoc.
  - by rewrite app_assoc.
Qed.

(** Whatever is left, the header loop ends; without an exception it passed a
    header block. *)
Lemma skip_headers_sound n r fuel i d :
  readable → rem i r → length r ≤ n → n < fuel →
  wp (skip_headers fuel) i d (λ x i' _,
    match x with
    | inr _ => ∃ hs, Forall header_line hs ∧ passed (header_block hs) r i'
    | inl e => e ≠ OutOfRange
    end).
Proof.
  revert r fuel i d. induction n as [|n IH]; intros r [|fuel] i d Hq Hr Hn Hf; try lia;
    apply skip_headers_step.
  { destruct r; [|cbn in Hn; lia]. apply (parseLine_end []); [done|constructor|done]. }
  destruct (split_run line_char r) as [Ht|(t & c & r' & -> & Ht & Hc)].
  { by eapply parseLine_end. }
  assert (c = CR) as -> by (destruct (decide (c = CR)); [done|by destruct Hc]).
  rewrite length_app in Hn; cbn in Hn. destruct r' as [|c r'].
  { destruct Hq as [Hq|[c Hs]]; [exfalso; by eapply (rem_quiet _ t); [exact Hq|exact Hr|done|]|].
    eapply parseLine_cr_last; [exact Hr|done|exact Hs|]. intros i' Hr'. cbn. case_decide as Hlf; [|done].
    destruct t as [|c1 t]; cbn.
    - rewrite decide_True by done. exists []. split; [done|]. right. subst c. by split_and!.
    - cbn in Hn. eapply wp_mono; [apply (IH []); [by right; exists c|done|cbn; lia|lia]|].
      intros [e|[]] i2 _; [done|]. intros (hs & _ & [(rest & E & _)|(E & _)]); exfalso.
      + apply (f_equal length) in E. rewrite length_app in E. cbn in E. pose proof (length_block hs). lia.
      + apply (f_equal length) in E. cbn in E. pose proof (length_block hs). lia. }
  destruct (decide (c = LF)) as [->|Hne]; [|by eapply parseLine_bad].
  eapply parseLine_ok; [done|done|]. intros i' Hr'. cbn. destruct t as [|c t]; cbn.
  { rewrite decide_True by done. exists []. split; [done|]. left. by exists r'. }
  eapply wp_mono; [apply (IH r'); [done|done|cbn in Hn; lia|lia]|].
  intros [e|[]] i2 _; [done|]. intros (hs & Hhs & Hp).
  exists ((c :: t) :: hs). split; [by constructor|].
  apply (passed_app ((c :: t) ++ crlf)) in Hp. unfold header_block in *. cbn in *.
  rewrite <- !app_assoc in *. exact Hp.
Qed.

(** *** Whole requests *)

Definition request_line (r : Request) : bytes :=
  method r ++ SP :: SLASH :: address r ++ SP :: version r ++ crlf.
Definition request_msg (r : Request) (hs : list bytes) : bytes :=
  request_line r ++ header_block hs.
Definition tokens (r : Request) : Prop :=
  token (method r) ∧ token (address r) ∧ token (version r).

Definition no_request : Request := mkRequest [] [] [].

Lemma request_line_app r k :
  request_line r ++ k =
  method r ++ SP :: SLASH :: address r ++ SP :: version r ++ CR :: LF :: k.
Proof.
  unfold request_line. rewrite <- app_assoc. cbn. rewrite <- app_assoc. cbn.
  by rewrite <- app_assoc.
Qed.

(** The headers, after the first line. *)
Definition parse_headers : M I Request unit :=
  n <- remainingM ;; on (λ _, []) (λ _ r, r) (skip_headers (S n)).

Lemma parse_headers_wp i r req Q :
  rem i r → wp (skip_headers (S (length r))) i [] (λ x i' _, Q x i' req) →
  wp parse_headers i req Q.
Proof. intros Hr HQ. step Hr. exact (wp_on (λ _, []) (λ _ r, r) _ i req Q HQ). Qed.

Lemma request_line_ok r k i Q :
  rem i (request_line r ++ k) → tokens r →
  (∀ i', rem i' k → wp parse_headers i' r Q) → wp parseRequest_try i no_request Q.
Proof.
  rewrite request_line_app. intros Hr (Hm & Ha & Hv) HQ. destruct r as [m a v]; cbn in *.
  apply wp_bind, wp_on. eapply parseString_ok; [done|done|by left|]. intros i1 H1. cbn.
  apply wp_bind. eapply skipChar_ok; [done|]. intros i2 H2. cbn.
  apply wp_bind. eapply skipChar_ok; [done|]. intros i3 H3. cbn.
  apply wp_bind, wp_on. eapply parseString_ok; [done|done|by left|]. intros i4 H4. cbn.
  apply wp_bind. eapply skipChar_ok; [done|]. intros i5 H5. cbn.
  apply wp_bind, wp_on. eapply parseString_ok; [done|done|by right|]. intros i6 H6. cbn.
  apply wp_bind. eapply skipNewLine_ok; [done|]. intros i7 H7. by apply HQ.
Qed.

Lemma length_header_block hs : length hs < length (header_block hs).
Proof.
  unfold header_block. induction hs as [|h hs IH]; cbn; [lia|].
  rewrite length_app in *. rewrite length_app, length_app in *. cbn in *. lia.
Qed.

Lemma request_ok r hs rest i :
  rem i (request_msg r hs ++ rest) → tokens r → Forall header_line hs →
  wp parseRequest_try i no_request (λ x i' r', x = inr tt ∧ r' = r ∧ rem i' rest).
Proof.
  intros Hr Ht Hh. unfold request_msg in Hr. rewrite <- app_assoc in Hr.
  eapply request_line_ok; [done|done|]. intros i' Hr'.
  eapply parse_headers_wp; [done|]. eapply skip_headers_ok; [done|done| |done].
  rewrite length_app. pose proof (length_header_block hs). lia.
Qed.

(** Whatever is left, parsing ends; without an exception a whole message was
    passed. *)
Lemma request_sound r i :
  readable → rem i r →
  wp parseRequest_try i no_request (λ x i' req,
    match x with
    | inr _ => ∃ hs, tokens req ∧ Forall header_line hs ∧ passed (request_msg req hs) r i'
    | inl e => e ≠ OutOfRange
    end).
Proof.
  intros Hq Hr. apply wp_bind, wp_on.
  destruct (split_run tok_char r) as [Hm|(m & c1 & k1 & -> & Hm & Hc1)]; [by eapply parseString_end|].
  assert (∀ c, ¬ tok_char c → c = SP ∨ c = CR) as Hsep.
  { intros c Hc. unfold tok_char in Hc. destruct (decide (c = SP)), (decide (c = CR)); auto.
    exfalso. by apply Hc. }
  eapply parseString_ok; [done|done|by apply Hsep|]. intros i1 H1. cbn. apply wp_bind.
  destruct (decide (c1 = SP)) as [->|]; [|by eapply skipChar_bad].
  eapply skipChar_ok; [done|]. intros i2 H2. cbn. apply wp_bind.
  destruct k1 as [|c2 k2]; [by eapply skipChar_end|].
  destruct (decide (c2 = SLASH)) as [->|]; [|by eapply skipChar_bad].
  eapply skipChar_ok; [done|]. intros i3 H3. cbn. apply wp_bind, wp_on.
  destruct (split_run tok_char k2) as [Ha|(a & c3 & k3 & -> & Ha & Hc3)]; [by eapply parseString_end|].
  eapply parseString_ok; [done|done|by apply Hsep|]. intros i4 H4. cbn. apply wp_bind.
  destruct (decide (c3 = SP)) as [->|]; [|by eapply skipChar_bad].
  eapply skipChar_ok; [done|]. intros i5 H5. cbn. apply wp_bind, wp_on.
  destruct (split_run tok_char k3) as [Hv|(v & c4 & k4 & -> & Hv & Hc4)]; [by eapply parseString_end|].
  eapply parseString_ok; [done|done|by apply Hsep|]. intros i6 H6. cbn. apply wp_bind.
  destruct k4 as [|c5 k5]; [by eapply skipNewLine_end|].
  destruct (decide (c4 = CR ∧ c5 = LF)) as [[-> ->]|]; [|by eapply skipNewLine_bad].
  eapply skipNewLine_ok; [done|]. intros i7 H7. cbn. eapply parse_headers_wp; [done|].
  eapply wp_mono; [apply (skip_headers_sound (length k5) k5); [done|done|lia|lia]|]. cbn.
  intros [e|[]] i8 _; [done|]. intros (hs & Hhs & Hp).
  exists hs. split_and!; try done.
  apply (passed_app (request_line (mkRequest m a v))) in Hp. rewrite (request_line_app (mkRequest m a v) k5) in Hp. exact Hp.
Qed.


(** One token, or one byte, of which a proper prefix of what follows is there. *)
Lemma parseString_prefix t c k p i d Q :
  rem i p → proper p (t ++ c :: k) → token t → c = SP ∨ c = CR →
  (∀ i' d', rem i' [] → Q (inl IncompleteInput) i' d') →
  (∀ i' p', proper p' k → rem i' (c :: p') → Q (inr tt) i' (d ++ t)) →
  wp parseString i d Q.
Proof.
  intros Hr Hp Ht Hc HI HQ. apply proper_app in Hp as [(q & E)|(p1 & -> & Hp)].
  { eapply parseString_end; [done|by eapply token_take|auto]. }
  apply proper_cons in Hp as [->|(p2 & -> & Hp)].
  { rewrite app_nil_r in Hr. eapply parseString_end; [done|done|auto]. }
  eapply parseString_ok; [done|done|done|]. intros i' Hr'. by eapply HQ.
Qed.

Lemma skipChar_prefix {S} c k p i (st : S) Q :
  rem i p → proper p (c :: k) →
  (∀ i', rem i' [] → Q (inl IncompleteInput) i' st) →
  (∀ i' p', proper p' k → rem i' p' → Q (inr tt) i' st) → wp (skipChar c) i st Q.
Proof.
  intros Hr Hp HI HQ. apply proper_cons in Hp as [->|(p2 & -> & Hp)].
  - apply skipChar_end; auto.
  - eapply skipChar_ok; [done|]. intros i' Hr'. by eapply HQ.
Qed.

Lemma request_prefix r hs p i :
  quiet s → rem i p → proper p (request_msg r hs) → tokens r → Forall header_line hs →
  wp parseRequest_try i no_request (λ x _ _, x = inl IncompleteInput).
Proof.
  intros Hq Hr Hp (Hm & Ha & Hv) Hh. unfold request_msg in Hp.
  rewrite request_line_app in Hp. destruct r as [m a v]; cbn in *.
  apply wp_bind, wp_on.
  eapply parseString_prefix; [done|done|done|by left|done|]. intros i1 p1 Hp1 H1. cbn.
  apply wp_bind. eapply skipChar_ok; [done|]. intros i2 H2. cbn.
  apply wp_bind. eapply skipChar_prefix; [done|done|done|]. intros i3 p3 Hp3 H3. cbn.
  apply wp_bind, wp_on.
  eapply parseString_prefix; [done|done|done|by left|done|]. intros i4 p4 Hp4 H4. cbn.
  apply wp_bind. eapply skipChar_ok; [done|]. intros i5 H5. cbn. apply wp_bind, wp_on.
  eapply parseString_prefix; [done|done|done|by right|done|]. intros i6 p6 Hp6 H6. cbn.
  apply wp_bind. apply proper_cons in Hp6 as [->|(p7 & -> & Hp7)].
  { eapply skipNewLine_end; [done|done|done]. }
  eapply skipNewLine_ok; [done|]. intros i7 H7. cbn. eapply parse_headers_wp; [done|].
  eapply skip_headers_prefix; [done|done|done|done|lia|done].
Qed.

(** Contents that end between the CR and the LF of a header line. *)
Lemma skip_headers_run hs k fuel i d Q :
  rem i (concat (map (λ h, h ++ crlf) hs) ++ k) → Forall header_line hs → length hs < fuel →
  (∀ i' fuel' d', rem i' k → 0 < fuel' → wp (skip_headers fuel') i' d' Q) →
  wp (skip_headers fuel) i d Q.
Proof.
  revert fuel i d. induction hs as [|h hs IH]; intros [|fuel] i d Hr Hh Hf HQ; try lia;
    [auto|]. apply skip_headers_step. apply Forall_cons in Hh as [[Hne Hh] Hhs].
  cbn in Hr. rewrite <- !app_assoc in Hr. eapply parseLine_ok; [exact Hr|done|].
  intros i' Hr'. cbn. rewrite decide_False by (by destruct h).
  apply IH; [done|done|cbn in Hf; lia|done].
Qed.

Lemma request_cr_last r hs c i :
  rem i (request_line r ++ concat (map (λ h, h ++ crlf) hs) ++ [CR]) →
  tokens r → Forall header_line hs → stale = Some c →
  wp parseRequest_try i no_request (λ x i' r',
    x = (if decide (c = LF) then inr tt else inl ErrorInRequest) ∧ r' = r ∧ rem i' []).
Proof.
  intros Hr Ht Hh Hs. eapply request_line_ok; [done|done|]. intros i' Hr'.
  eapply parse_headers_wp; [done|]. eapply skip_headers_run; [done|done| |].
  { rewrite length_app. pose proof (length_header_block hs). unfold header_block in *.
    rewrite length_app in *. cbn in *. lia. }
  intros i2 [|f2] d2 Hr2 Hf; [lia|]. apply skip_headers_step.
  eapply (parseLine_cr_last []); [exact Hr2|constructor|done|].
  intros i3 Hr3. cbn. case_decide; cbn; [|done]. rewrite decide_True by done. done.
Qed.

(** *** Responses *)

(** The value [contentSize] has after the header lines [hs]. *)
Definition content_length (n : Z) (hs : list bytes) : Z :=
  foldl (λ n h, if find_str lengthString h
                then stream_size_t n (drop sizeof_lengthString h) else n) n hs.

(** A header line on which [string(line, 16)] is defined. *)
Definition response_header (h : bytes) : Prop :=
  header_line h ∧ (find_str lengthString h = true → sizeof_lengthString ≤ length h).

Definition response_head (r : Response) (hs : list bytes) : bytes :=
  statusLine r ++ crlf ++ header_block hs.

(** The size after a header line. *)
Lemma content_size h n i (r : Response) (Q : exn + Z → I → Response → Prop) :
  (find_str lengthString h = true → sizeof_lengthString ≤ length h) →
  Q (inr (if find_str lengthString h then stream_size_t n (drop sizeof_lengthString h) else n)) i r →
  wp (if find_str lengthString h
      then str <- substr_from h sizeof_lengthString;; ret (stream_size_t n str)
      else ret n) i r Q.
Proof.
  intros Hf HQ. destruct (find_str lengthString h); [|by apply wp_ret].
  specialize (Hf eq_refl). apply wp_bind. unfold substr_from.
  rewrite decide_False by lia. apply wp_ret. by apply wp_ret.
Qed.

Lemma read_headers_run hs k fuel n i r Q :
  rem i (concat (map (λ h, h ++ crlf) hs) ++ k) → Forall response_header hs →
  length hs < fuel →
  (∀ i' fuel' , rem i' k → 0 < fuel' →
     wp (read_headers fuel' (content_length n hs)) i' (append_header (concat hs) r) Q) →
  wp (read_headers fuel n) i r Q.
Proof.
  revert fuel n i r. induction hs as [|h hs IH]; intros [|fuel] n i r Hr Hh Hf HQ; try lia.
  { specialize (HQ i (S fuel) Hr Hf). destruct r as [st hr b].
    unfold append_header in HQ. cbn in HQ. by rewrite app_nil_r in HQ. }
  apply Forall_cons in Hh as [[[Hne Hh] Hfind] Hhs].
  cbn in Hr. rewrite <- !app_assoc in Hr. cbn [read_headers].
  apply wp_bind, parseLine_fresh_wp. eapply parseLine_ok; [exact Hr|done|].
  intros i1 H1. cbn. rewrite decide_False by (by destruct h). apply wp_bind.
  apply content_size; [done|]. cbn. apply wp_bind.
  eexists (inr tt), i1, _. split; [reflexivity|]. cbn.
  apply (IH fuel); [done|done|cbn in Hf; lia|].
  intros i2 f2 H2 Hf2. specialize (HQ i2 f2 H2 Hf2). cbn in HQ.
  destruct r as [st hr b]; unfold append_header in *; cbn in *. by rewrite <- app_assoc.
Qed.

Lemma read_headers_ok hs k fuel n i r Q :
  rem i (header_block hs ++ k) → Forall response_header hs → length hs < fuel →
  (∀ i', rem i' k → Q (inr (content_length n hs)) i' (append_header (concat hs) r)) →
  wp (read_headers fuel n) i r Q.
Proof.
  intros Hr Hh Hf HQ. unfold header_block in Hr. rewrite <- app_assoc in Hr.
  eapply read_headers_run; [done|done|done|]. intros i' [|f'] Hr' Hf'; [lia|].
  apply wp_bind, parseLine_fresh_wp. eapply (parseLine_ok []); [exact Hr'|constructor|].
  intros i2 H2. cbn. apply wp_ret. auto.
Qed.

Lemma read_body_spec b k i d Q :
  rem i (b ++ k) → (∀ i', rem i' k → Q (inr tt) i' (d ++ b)) →
  wp (read_body (length b)) i d Q.
Proof.
  revert i d. induction b as [|c b IH]; intros i d Hr HQ; cbn.
  { apply wp_ret. specialize (HQ i Hr). by rewrite app_nil_r in HQ. }
  cbn in Hr. step Hr. apply wp_bind, wp_push_back. cbn. step Hr.
  apply IH; [done|]. intros i2 H2. rewrite <- app_assoc. by apply HQ.
Qed.

Definition no_response : Response := mkResponse [] [] [].

(** The head of a response and what its [contentSize] leads to. *)
Lemma response_head_ok r hs k i Q :
  rem i (response_head r hs ++ k) → line (statusLine r) → Forall response_header hs →
  headerRemainder r = concat hs →
  (∀ i', rem i' k → wp (if decide (Z.of_nat (length k) < content_length 0 hs)%Z
                        then throw IncompleteInput
                        else on body set_body (read_body (Z.to_nat (content_length 0 hs))))
                       i' (set_body [] r) Q) →
  wp parseResponse_try i no_response Q.
Proof.
  intros Hr Hst Hh Hhr HQ. unfold response_head in Hr. rewrite <- !app_assoc in Hr.
  apply wp_bind, wp_on. eapply parseLine_ok; [exact Hr|done|]. intros i1 H1.
  apply wp_bind. eapply wp_remaining; [done|]. apply wp_bind.
  eapply read_headers_ok; [exact H1|done| |].
  { rewrite length_app. pose proof (length_header_block hs). lia. }
  intros i2 H2. cbn. apply wp_bind. eapply wp_remaining; [done|]. cbn.
  specialize (HQ i2 H2). destruct r as [st hr b]; cbn in *. subst hr. exact HQ.
Qed.

Lemma response_ok r hs rest i :
  rem i (response_head r hs ++ body r ++ rest) → line (statusLine r) →
  Forall response_header hs → headerRemainder r = concat hs →
  content_length 0 hs = Z.of_nat (length (body r)) →
  wp parseResponse_try i no_response (λ x i' r', x = inr tt ∧ r' = r ∧ rem i' rest).
Proof.
  intros Hr Hst Hh Hhr Hn. eapply response_head_ok; [done|done|done|done|].
  intros i' Hr'. rewrite Hn, decide_False by (rewrite length_app; lia).
  apply wp_on. rewrite Nat2Z.id. eapply read_body_spec; [done|].
  intros i2 H2. cbn. destruct r; done.
Qed.

Lemma response_short r hs k i :
  rem i (response_head r hs ++ k) → line (statusLine r) →
  Forall response_header hs → headerRemainder r = concat hs →
  (Z.of_nat (length k) < content_length 0 hs)%Z →
  wp parseResponse_try i no_response (λ x _ r', x = inl IncompleteInput ∧ r' = set_body [] r).
Proof.
  intros Hr Hst Hh Hhr Hn. eapply response_head_ok; [done|done|done|done|].
  intros i' Hr'. rewrite decide_True by done. by apply wp_throw.
Qed.

(** A response of which a proper prefix of the head is there. *)
Lemma read_headers_prefix hs : ∀ p fuel n i r Q,
  quiet s → rem i p → proper p (header_block hs) → Forall response_header hs → length p < fuel →
  (∀ i' r', rem i' [] → Q (inl IncompleteInput) i' r') → wp (read_headers fuel n) i r Q.
Proof.
  induction hs as [|h hs IH]; intros p [|fuel] n i r Q Hq Hr Hp Hh Hf HQ; try lia;
    cbn [read_headers]; apply wp_bind, parseLine_fresh_wp.
  - eapply (parseLine_prefix []); [done|done|exact Hp|constructor|by intros; apply HQ|].
    intros i' p' _ (q & Hn & Hne). by destruct p', q.
  - apply Forall_cons in Hh as [[[Hne Hh] Hfind] Hhs].
    rewrite <- (app_nil_r (header_block _)), header_block_cons, app_nil_r in Hp.
    eapply parseLine_prefix; [done|done|exact Hp|done|by intros; apply HQ|].
    intros i1 p1 -> Hp1 H1. cbn. rewrite decide_False by (by destruct h). rewrite length_app in Hf; cbn in Hf.
    apply wp_bind, content_size; [done|]. apply wp_bind.
    eexists (inr tt), i1, _. split; [reflexivity|]. cbn. apply (IH p1); try done. lia.
Qed.

Lemma response_prefix r hs p i :
  quiet s → rem i p → proper p (response_head r hs) → line (statusLine r) → Forall response_header hs →
  wp parseResponse_try i no_response (λ x _ _, x = inl IncompleteInput).
Proof.
  intros Hq Hr Hp Hst Hh. apply wp_bind, wp_on.
  eapply (parseLine_prefix (statusLine r) (header_block hs)); [done|done|exact Hp|done|done|].
  intros i1 p1 _ Hp1 H1. apply wp_bind. eapply wp_remaining; [done|]. apply wp_bind.
  eapply read_headers_prefix; [done|done|exact Hp1|done|lia|done].
Qed.

(** A header line that is just [Content-Length:] has no sixteenth byte. *)
Lemma response_uncaught st hs k i :
  rem i (st ++ crlf ++ concat (map (λ h, h ++ crlf) hs) ++ lengthString ++ crlf ++ k) →
  line st → Forall response_header hs →
  wp parseResponse_try i no_response (λ x _ _, x = inl OutOfRange).
Proof.
  intros Hr Hst Hh. apply wp_bind, wp_on. eapply parseLine_ok; [exact Hr|done|].
  intros i1 H1. apply wp_bind. eapply wp_remaining; [done|]. apply wp_bind.
  eapply read_headers_run; [exact H1|done| |].
  { pose proof (length_header_block hs) as Hl. unfold header_block in Hl.
    rewrite length_app in *. cbn in *. lia. }
  intros i2 [|f2] H2 Hf2; [lia|]. apply wp_bind, parseLine_fresh_wp.
  eapply (parseLine_ok lengthString); [exact H2| |].
  { apply (bool_decide_unpack _). vm_compute. exact Logic.I. }
  intros i3 H3. cbn. apply wp_bind. apply wp_bind. by apply wp_throw.
Qed.
End specs.

(** ** Parsing the contents of a buffer *)

Section on_buffer.
Import Buffer.Buffer Iter.
Implicit Types (b : Buffer).

Definition request_in b (r0 : Request) : option (outcome * (Iterator * Request)) :=
  it ← begin b; parseRequest (C := Iterator_iter b) it r0.
Definition response_in b (r0 : Response) : option (outcome * (Iterator * Response)) :=
  it ← begin b; parseResponse (C := Iterator_iter b) it r0.

Lemma begin_rem b :
  wf b → idx (rpos_ b) = 0 →
  ∃ it, begin b = Some it ∧ rem (s := contents b) (at_ := at_ b) it (contents b).
Proof.
  intros Hwf Hi. destruct (begin_spec b Hwf Hi) as (it & Hb & Hat).
  exists it. split; [done|]. by exists [].
Qed.

Lemma request_in_wp b r0 (Q : exn + () → Iterator → Request → Prop) :
  wf b → idx (rpos_ b) = 0 →
  (∀ it, rem (s := contents b) (at_ := at_ b) it (contents b) →
     wp (parseRequest_try (C := Iterator_iter b)) it no_request Q) →
  ∃ x it' r, request_in b r0 = Some (catch (x, (it', r))) ∧ Q x it' r.
Proof.
  intros Hwf Hi HQ. destruct (begin_rem b Hwf Hi) as (it & Hb & Hr).
  destruct (HQ it Hr) as (x & it' & r & Hm & Hx). exists x, it', r.
  unfold request_in. rewrite Hb. cbn. unfold parseRequest, Request_clear.
  unfold no_request in Hm. by rewrite Hm.
Qed.

Lemma response_in_wp b r0 (Q : exn + () → Iterator → Response → Prop) :
  wf b → idx (rpos_ b) = 0 →
  (∀ it, rem (s := contents b) (at_ := at_ b) it (contents b) →
     wp (parseResponse_try (C := Iterator_iter b)) it no_response Q) →
  ∃ x it' r, response_in b r0 = Some (catch (x, (it', r))) ∧ Q x it' r.
Proof.
  intros Hwf Hi HQ. destruct (begin_rem b Hwf Hi) as (it & Hb & Hr).
  destruct (HQ it Hr) as (x & it' & r & Hm & Hx). exists x, it', r.
  unfold response_in. rewrite Hb. cbn. unfold parseResponse, Response_clear.
  unfold no_response in Hm. by rewrite Hm.
Qed.

Lemma rem_bytes_read b it t r :
  wf b → contents b = t ++ r → rem (s := contents b) (at_ := at_ b) it r →
  bytes_read_ it = length t.
Proof.
  intros Hwf Hc Hr. pose proof (rem_read (L := Iterator_laws b Hwf) it r Hr) as H.
  rewrite Hc, length_app in H. cbn in H. lia.
Qed.

Definition wf_request (r : Request) (hs : list bytes) : Prop :=
  tokens r ∧ Forall header_line hs.

(** C9.  A request at the front of the contents, whatever follows it, is
    parsed: the result is 0, the three fields are the request's (without the
    slash of the address), and the iterator has read exactly the message. *)
Theorem parse_request_complete b r0 r hs rest :
  wf b → idx (rpos_ b) = 0 → wf_request r hs → contents b = request_msg r hs ++ rest →
  ∃ it', request_in b r0 = Some (Code 0, (it', r)) ∧
         bytes_read_ it' = length (request_msg r hs).
Proof.
  intros Hwf Hi [Ht Hh] Hc.
  destruct (request_in_wp b r0 (λ x it' r', x = inr tt ∧ r' = r ∧
    rem (s := contents b) (at_ := at_ b) it' rest) Hwf Hi) as (x & it' & r' & He & -> & -> & Hr).
  - intros it Hr. rewrite Hc in Hr at 2. by eapply (request_ok (L := Iterator_laws b Hwf)).
  - exists it'. split; [done|]. by eapply rem_bytes_read.
Qed.

(** C33.  Parsing returns one of its three codes, without an access out of range,
    unless the contents end with a carriage return and with the block of memory
    they are in; and a 0 means that the contents start with a request that has the
    fields found and is as long as what the iterator read, or else that they are
    such a request without its last line feed, in the place of which the byte of
    memory behind them happens to be one. *)
Theorem parse_request_sound b r0 :
  wf b → idx (rpos_ b) = 0 → quiet (contents b) ∨ is_Some (stale b) → ∃ z it' r,
    request_in b r0 = Some (Code z, (it', r)) ∧ (z = 0 ∨ z = 1 ∨ z = -1)%Z ∧
    (z = 0%Z → ∃ hs, wf_request r hs ∧
       ((∃ rest, contents b = request_msg r hs ++ rest ∧ bytes_read_ it' = length (request_msg r hs)) ∨
        (contents b ++ [LF] = request_msg r hs ∧ stale b = Some LF ∧ bytes_read_ it' = length (contents b)))).
Proof.
  intros Hwf Hi Hq.
  edestruct (request_in_wp b r0) as (x & it' & r & He & HQ); [done|done| |].
  { intros it Hr. by apply (request_sound (L := Iterator_laws b Hwf) (contents b)). }
  cbn in HQ. destruct x as [[]|[]]; cbn in He.
  - exists 1%Z, it', r. split_and!; [done|auto|done].
  - exists (-1)%Z, it', r. split_and!; [done|auto|done].
  - done.
  - exists 0%Z, it', r. split_and!; [done|auto|]. intros _.
    destruct HQ as (hs & Ht & Hh & Hp). exists hs. split; [done|].
    destruct Hp as [(rest & Hc & Hr)|(Hc & Hs & Hr)]; [left|right].
    + exists rest. split; [done|]. by eapply rem_bytes_read.
    + split_and!; [done|done|]. eapply rem_bytes_read; [done|by rewrite app_nil_r|done].
Qed.

(**  A request of which only a part has arrived, not cut behind a carriage
    return, is reported as incomplete. *)
Lemma parse_request_incomplete b r0 r hs :
  wf b → idx (rpos_ b) = 0 → wf_request r hs → quiet (contents b) →
  proper (contents b) (request_msg r hs) →
  ∃ it' r', request_in b r0 = Some (Code 1, (it', r')).
Proof.
  intros Hwf Hi [Ht Hh] Hq Hp.
  destruct (request_in_wp b r0 (λ x _ _, x = inl IncompleteInput) Hwf Hi)
    as (x & it' & r' & He & ->).
  - intros it Hr. by eapply (request_prefix (L := Iterator_laws b Hwf)).
  - by exists it', r'.
Qed.

(** When the last line has arrived up to its carriage return, the parser
    looks at the byte of memory behind the contents: the result is 0 if that
    byte happens to be a line feed and -1 otherwise, never 1. *)
Lemma parse_request_cr_reads_stale b r0 r hs c :
  wf b → idx (rpos_ b) = 0 → wf_request r hs → stale b = Some c →
  contents b = request_line r ++ concat (map (λ h, h ++ crlf) hs) ++ [CR] →
  ∃ it', request_in b r0 =
    Some (Code (if decide (c = LF) then 0 else -1), (it', r)).
Proof.
  intros Hwf Hi [Ht Hh] Hs Hc.
  destruct (request_in_wp b r0 (λ x _ r', x = (if decide (c = LF) then inr tt else
     inl ErrorInRequest) ∧ r' = r) Hwf Hi) as (x & it' & r' & He & -> & ->).
  - intros it Hr. rewrite Hc in Hr at 2.
    eapply wp_mono; [by eapply (request_cr_last (L := Iterator_laws b Hwf))|].
    cbn. intros x i' r' (-> & -> & _). done.
  - exists it'. rewrite He. by case_decide.
Qed.

(**  A response whose body has arrived in full is parsed: the status line,
    the header lines run together and the body are found, with [contentSize]
    the value of the last [Content-Length] header; with a byte missing it is
    reported as incomplete. *)
Lemma parse_response b r0 r hs rest :
  wf b → idx (rpos_ b) = 0 → line (statusLine r) → Forall response_header hs →
  headerRemainder r = concat hs →
  contents b = response_head r hs ++ rest →
  (∀ more, rest = body r ++ more → content_length 0 hs = Z.of_nat (length (body r)) →
     ∃ it', response_in b r0 = Some (Code 0, (it', r)) ∧
            bytes_read_ it' + length more = length (contents b)) ∧
  ((Z.of_nat (length rest) < content_length 0 hs)%Z →
     ∃ it', response_in b r0 = Some (Code 1, (it', set_body [] r))).
Proof.
  intros Hwf Hi Hst Hh Hhr Hc. split.
  - intros more -> Hn.
    destruct (response_in_wp b r0 (λ x it' r', x = inr tt ∧ r' = r ∧
      rem (s := contents b) (at_ := at_ b) it' more) Hwf Hi) as (x & it' & r' & He & -> & -> & Hr).
    + intros it Hr. rewrite Hc in Hr at 2. by eapply (response_ok (L := Iterator_laws b Hwf)).
    + exists it'. split; [done|]. apply (rem_read (L := Iterator_laws b Hwf) it' more Hr).
  - intros Hlt.
    destruct (response_in_wp b r0 (λ x _ r', x = inl IncompleteInput ∧ r' = set_body [] r) Hwf Hi)
      as (x & it' & r' & He & -> & ->).
    + intros it Hr. rewrite Hc in Hr at 2. by eapply (response_short (L := Iterator_laws b Hwf)).
    + by exists it'.
Qed.

(** A header line that is exactly [Content-Length:] ends the parser with
    an exception that it does not catch. *)
Lemma parse_response_uncaught b r0 st hs k :
  wf b → idx (rpos_ b) = 0 → line st → Forall response_header hs →
  contents b = st ++ crlf ++ concat (map (λ h, h ++ crlf) hs) ++ lengthString ++ crlf ++ k →
  ∃ st', response_in b r0 = Some (Uncaught, st').
Proof.
  intros Hwf Hi Hst Hh Hc.
  destruct (response_in_wp b r0 (λ x _ _, x = inl OutOfRange) Hwf Hi)
    as (x & it' & r' & He & ->).
  - intros it Hr. rewrite Hc in Hr at 2. by eapply (response_uncaught (L := Iterator_laws b Hwf)).
  - by exists (it', r').
Qed.

(** *** The round trip *)

Lemma write_cstr_spec `{Uninit} s b :
  wf b → writable b → NUL ∉ s →
  ∃ b', write_cstr s b = Some b' ∧ wf b' ∧ writable b' ∧
        contents b' = contents b ++ s ∧ rpos_ b' = rpos_ b.
Proof.
  intros Hwf Hw Hn. unfold write_cstr.
  destruct (write_spec b (MemPiece.of_cstr s) Hwf Hw) as (b' & ? & ? & ? & Hc & ? & _).
  exists b'. split_and!; try done.
  by rewrite Hc, MemPiece.data_of_cstr, MemPiece.c_str_id.
Qed.

(** C32.  What [toBuffer] writes into an empty buffer is parsed back into the
    same request, with the slash of the address removed, and nothing is left
    over. *)
Theorem toBuffer_parse_roundtrip `{Uninit} b r a r0 :
  wf b → writable b → idx (rpos_ b) = 0 → contents b = [] →
  address r = SLASH :: a → tokens r →
  NUL ∉ method r → NUL ∉ address r → NUL ∉ version r → ∃ b' it',
    Request_toBuffer r b = Some b' ∧ wf b' ∧
    request_in b' r0 = Some (Code 0, (it', mkRequest (method r) a (version r))) ∧
    bytes_read_ it' = length (contents b').
Proof.
  intros Hwf Hw Hi Hc Ha (Htm & Hta & Htv) Hm Han Hv.
  assert (∀ c, c ≠ NUL → NUL ∉ [c]) as H1 by (intros c Hne; rewrite list_elem_of_singleton; done).
  destruct (write_cstr_spec (method r) b) as (b1 & E1 & W1 & R1 & C1 & P1); try done.
  destruct (write_cstr_spec [SP] b1) as (b2 & E2 & W2 & R2 & C2 & P2); [done|done|by apply H1|].
  destruct (write_cstr_spec (address r) b2) as (b3 & E3 & W3 & R3 & C3 & P3); try done.
  destruct (write_cstr_spec [SP] b3) as (b4 & E4 & W4 & R4 & C4 & P4); [done|done|by apply H1|].
  destruct (write_cstr_spec (version r) b4) as (b5 & E5 & W5 & R5 & C5 & P5); try done.
  destruct (write_cstr_spec (crlf ++ crlf) b5) as (b6 & E6 & W6 & R6 & C6 & P6); [done|done| |].
  { apply (bool_decide_unpack _). vm_compute. exact I. }
  assert (contents b6 = request_msg (mkRequest (method r) a (version r)) []) as Hc6.
  { rewrite C6, C5, C4, C3, C2, C1, Hc, Ha. unfold request_msg, request_line; cbn.
    repeat (rewrite <- app_assoc; cbn). done. }
  assert (wf_request (mkRequest (method r) a (version r)) []) as Hwr.
  { split; [|constructor]. rewrite Ha in Hta. apply Forall_cons in Hta as [_ Hta]. done. }
  assert (idx (rpos_ b6) = 0) as Hi6 by congruence.
  edestruct (request_in_wp b6 r0) as (x & it' & r' & He & HQ); [done|done| |].
  { intros it Hr. rewrite <- (app_nil_r (contents b6)), Hc6 in Hr at 2.
    apply (request_ok (L := Iterator_laws b6 W6) _ _ _ _ Hr); apply Hwr. }
  destruct HQ as (-> & -> & Hr). exists b6, it'. split_and!; [|done|done|].
  - unfold Request_toBuffer. rewrite E1; cbn. rewrite E2; cbn. rewrite E3; cbn.
    rewrite E4; cbn. by rewrite E5.
  - eapply rem_bytes_read; [done|by rewrite app_nil_r|done].
Qed.
End on_buffer.

(** ** Instances of the properties *)

Section witnesses.
Import Buffer.Buffer Iter.

(** A new buffer into which [s] was written; [u] fills unwritten memory. *)
Definition buf (u : ascii) (s : bytes) : Buffer :=
  default (new (H := u)) (write (H := u) (MemPiece.of_string s) (new (H := u))).

Lemma buf_spec u s :
  wf (buf u s) ∧ idx (rpos_ (buf u s)) = 0 ∧ contents (buf u s) = s.
Proof.
  unfold buf. destruct (new_wf (H := u)) as (Hn & Hw & Hc).
  destruct (write_spec (H := u) (new (H := u)) (MemPiece.of_string s) Hn Hw)
    as (b & -> & Hwb & _ & Hcb & Hr & _). cbn.
  rewrite Hr, Hcb, Hc. unfold MemPiece.data. cbn. by rewrite take_ge.
Qed.

Definition get_x : Request := mkRequest (b_ "GET") (b_ "x.html") (b_ "HTTP/1.1").
Definition host : list bytes := [b_ "Host: localhost"].

Lemma get_x_wf : wf_request get_x host.
Proof. split; [split; [|split]|]; by apply (bool_decide_unpack _); vm_compute. Qed.

Lemma parse_request_complete_witness : ∃ it',
  request_in (buf NUL (line_ "GET /x.html HTTP/1.1" ++ line_ "Host: localhost" ++ crlf ++ b_ "ABC"))
    no_request = Some (Code 0, (it', get_x)) ∧ bytes_read_ it' = 41.
Proof.
  destruct (buf_spec NUL (line_ "GET /x.html HTTP/1.1" ++ line_ "Host: localhost" ++ crlf ++ b_ "ABC"))
    as (Hw & Hi & Hc).
  destruct (parse_request_complete _ no_request get_x host (b_ "ABC") Hw Hi get_x_wf)
    as (it' & He & Hr); [rewrite Hc; reflexivity|].
  exists it'. split; [exact He|]. rewrite Hr. reflexivity.
Defined.

Lemma parse_request_sound_witness : ∃ z it' r,
  request_in (buf NUL (line_ "GET x")) no_request = Some (Code z, (it', r)) ∧ (z = 0 ∨ z = 1 ∨ z = -1)%Z.
Proof.
  destruct (buf_spec NUL (line_ "GET x")) as (Hw & Hi & Hc).
  destruct (parse_request_sound _ no_request Hw Hi) as (z & it' & r & He & Hz & _).
  - left. rewrite Hc. unfold quiet. vm_compute. discriminate.
  - exists z, it', r. split; [exact He|exact Hz].
Defined.

Definition ok_ab : Response :=
  mkResponse (b_ "HTTP/1.1 200 OK") (b_ "Content-Length: 2") (b_ "ab").

Lemma ok_ab_headers : Forall response_header [b_ "Content-Length: 2"].
Proof.
  constructor; [|constructor]. split; [split; [done|]|].
  - by apply (bool_decide_unpack _); vm_compute.
  - intros _. cbn. unfold sizeof_lengthString. lia.
Qed.

Lemma toBuffer_parse_roundtrip_witness : ∃ b' it',
  Request_toBuffer (H := NUL) (mkRequest (b_ "GET") (b_ "/x.html") (b_ "HTTP/1.1")) (new (H := NUL))
    = Some b' ∧ request_in b' no_request = Some (Code 0, (it', get_x)).
Proof.
  destruct (new_wf (H := NUL)) as (Hn & Hw & Hc).
  destruct (toBuffer_parse_roundtrip (H := NUL) (new (H := NUL))
    (mkRequest (b_ "GET") (b_ "/x.html") (b_ "HTTP/1.1")) (b_ "x.html") no_request Hn Hw)
    as (b' & it' & He & _ & Hp & _).
  1-4: first [reflexivity|exact Hc|
    split; [|split]; by apply (bool_decide_unpack _); vm_compute].
  1-3: by apply (bool_decide_unpack _); vm_compute.
  exists b', it'. split; [exact He|exact Hp].
Defined.
End witnesses.
