(* ===== verification/CircularBuffer.v ===== *)
(** * The fixed-size circular buffer ([circular_buffer.hpp], [circular_buffer.cpp])

    A ring of slots with a read and a write position.  It refines a queue that
    holds at most [length] values and forgets its oldest value when full. *)

From S2P Require Import Prelude.

Module Ring.

(** A slot; [None] is a value that was never written. *)
Record slot := mkSlot { value : option Z; read_ : bool }.

Record CircularBuffer := mkRing {
  buffer : list slot;
  read_position : nat;
  write_position : nat;
  length_ : nat
}.

(** A slot marked read, its value kept. *)
Definition mark_read (s : slot) : slot := mkSlot (value s) true.

(** The constructor.  [new] with a negative size does not return. *)
Definition make (slots : Z) : option CircularBuffer :=
  if decide (slots < 0)%Z then None else
  let len := if decide (slots = 0%Z) then 10 else Z.to_nat slots in
  Some (mkRing (map mark_read (replicate len (mkSlot None false))) 0 0 len).

(** [p++; if (p == length) p = 0;] *)
Definition step (len p : nat) : nat := if decide (S p = len) then 0 else S p.

(** [None] is an access out of the array. *)
Definition write (v : Z) (c : CircularBuffer) : option CircularBuffer :=
  s ← buffer c !! write_position c;
  let rp := if read_ s then read_position c else step (length_ c) (read_position c) in
  Some (mkRing (<[write_position c := mkSlot (Some v) false]> (buffer c)) rp
          (step (length_ c) (write_position c)) (length_ c)).

(** The result is the value returned; [None] inside it would be an
    indeterminate value. *)
Definition read (c : CircularBuffer) : option (option Z * CircularBuffer) :=
  s ← buffer c !! read_position c;
  if read_ s then Some (Some (-1)%Z, c)
  else Some (value s,
    mkRing (<[read_position c := mark_read s]> (buffer c)) (step (length_ c) (read_position c))
      (write_position c) (length_ c)).

Definition clear (c : CircularBuffer) : CircularBuffer :=
  mkRing (map mark_read (buffer c)) 0 0 (length_ c).

(** ** The specification: a bounded queue that forgets *)

Definition q_write (cap : nat) (v : Z) (q : list Z) : list Z :=
  if decide (length q < cap) then q ++ [v] else tail q ++ [v].

Definition q_read (q : list Z) : Z * list Z :=
  match q with [] => ((-1)%Z, []) | v :: q' => (v, q') end.

(** The slot that is [i] places behind the read position. *)
Definition place (c : CircularBuffer) (i : nat) : nat :=
  (read_position c + i) mod length_ c.

(** [c] holds the queue [q]. *)
Record holds (c : CircularBuffer) (q : list Z) : Prop := {
  h_len : length (buffer c) = length_ c;
  h_pos : 0 < length_ c;
  h_read : read_position c < length_ c;
  h_cap : length q ≤ length_ c;
  h_write : write_position c = place c (length q);
  h_unread : ∀ i v, q !! i = Some v → buffer c !! place c i = Some (mkSlot (Some v) false);
  h_rest : ∀ i, length q ≤ i < length_ c →
    ∃ s, buffer c !! place c i = Some s ∧ read_ s = true
}.

Lemma step_mod len p : p < len → step len p = (p + 1) mod len.
Proof.
  intros. unfold step. case_decide as E.
  - replace (p + 1) with len by lia. rewrite Nat.Div0.mod_same. done.
  - rewrite Nat.mod_small by lia. lia.
Qed.

Lemma place_lt c i : 0 < length_ c → place c i < length_ c.
Proof. intros. apply Nat.mod_upper_bound. lia. Qed.

Lemma place_0 c : read_position c < length_ c → place c 0 = read_position c.
Proof. intros. unfold place. rewrite Nat.add_0_r. by apply Nat.mod_small. Qed.

(** Places are distinct within one turn of the ring. *)
Lemma place_inj c i j :
  read_position c < length_ c → i < length_ c → j < length_ c →
  place c i = place c j → i = j.
Proof.
  unfold place. intros Hr Hi Hj E.
  assert (∀ k, k < length_ c → (read_position c + k) mod length_ c =
    if decide (read_position c + k < length_ c) then read_position c + k
    else read_position c + k - length_ c) as Hm.
  { intros k Hk. case_decide; [by apply Nat.mod_small|].
    symmetry. apply (Nat.mod_unique _ _ 1); lia. }
  rewrite !Hm in E by done. repeat case_decide; lia.
Qed.

(** Moving the read position by one shifts the places. *)
Lemma place_shift c i b w :
  read_position c < length_ c →
  place (mkRing b (step (length_ c) (read_position c)) w (length_ c)) i = place c (S i).
Proof.
  intros. unfold place; cbn. rewrite step_mod by done.
  rewrite Nat.Div0.add_mod_idemp_l. f_equal. lia.
Qed.

Lemma step_place c i : 0 < length_ c → step (length_ c) (place c i) = place c (S i).
Proof.
  intros. rewrite step_mod by by apply place_lt. unfold place.
  rewrite Nat.Div0.add_mod_idemp_l. f_equal. lia.
Qed.

Lemma place_same c b w i :
  place (mkRing b (read_position c) w (length_ c)) i = place c i.
Proof. done. Qed.

Lemma place_turn c : read_position c < length_ c → place c (length_ c) = place c 0.
Proof.
  intros. rewrite place_0 by done. symmetry. apply (Nat.mod_unique _ _ 1); lia.
Qed.

Lemma make_holds slots c : make slots = Some c → holds c [].
Proof.
  unfold make. case_decide; [done|]. intros [= <-].
  set (len := if decide (slots = 0%Z) then 10 else Z.to_nat slots).
  assert (0 < len) by (unfold len; case_decide; lia).
  constructor; cbn; rewrite ?length_map, ?length_replicate; try done; try lia.
  - unfold place; cbn. by rewrite Nat.Div0.mod_0_l.
  - intros i [_ Hi]. exists (mkSlot None true). split; [|done].
    rewrite fmap_replicate. apply lookup_replicate_2. by apply place_lt.
Qed.

Lemma read_holds c q :
  holds c q → ∃ c', read c = Some (Some (q_read q).1, c') ∧ holds c' (q_read q).2 ∧
                    length_ c' = length_ c.
Proof.
  intros [Hl Hp Hr Hc Hw Hu Hrest]. unfold read. destruct q as [|v q].
  - destruct (Hrest 0) as (s & Hs & Hrd); [cbn; lia|]. rewrite place_0 in Hs by done.
    rewrite Hs. cbn. rewrite Hrd. by exists c.
  - pose proof (Hu 0 v eq_refl) as Hs. rewrite place_0 in Hs by done. rewrite Hs. cbn.
    eexists. split_and!; [reflexivity| |done]. cbn in Hc.
    constructor; cbn; rewrite ?length_insert; try done; try lia.
    + rewrite step_mod by done. apply Nat.mod_upper_bound. lia.
    + rewrite place_shift by done. done.
    + intros i w Hi. rewrite place_shift by done.
      rewrite list_lookup_insert_ne; [by apply (Hu (S i))|].
      pose proof (lookup_lt_Some _ _ _ Hi). rewrite <- place_0 by done.
      intros E. apply place_inj in E; lia.
    + intros i Hi. rewrite place_shift by done.
      destruct (decide (S i = length_ c)) as [E|E].
      * rewrite E, place_turn, place_0 by done. eexists.
        split; [apply list_lookup_insert_eq; lia|done].
      * destruct (Hrest (S i)) as (s & Hs' & Hrd); [cbn; lia|]. exists s. split; [|done].
        rewrite list_lookup_insert_ne; [done|].
        rewrite <- place_0 by done. intros E'. apply place_inj in E'; lia.
Qed.

Lemma write_holds c q v :
  holds c q → ∃ c', write v c = Some c' ∧ holds c' (q_write (length_ c) v q) ∧
                    length_ c' = length_ c.
Proof.
  intros [Hl Hp Hr Hc Hw Hu Hrest]. unfold write, q_write. case_decide as Hq.
  - destruct (Hrest (length q)) as (s & Hs & Hrd); [lia|]. rewrite <- Hw in Hs.
    rewrite Hs. cbn. rewrite Hrd. eexists. split_and!; [reflexivity| |done].
    constructor; cbn; rewrite ?length_insert, ?length_app; cbn; try done; try lia.
    + rewrite Hw, step_place by done. rewrite place_same. f_equal. lia.
    + intros i w Hi. rewrite place_same, Hw.
      apply lookup_snoc_Some in Hi as [[Hi Hiv]|[-> ->]].
      * rewrite list_lookup_insert_ne; [by apply Hu|]. intros E. apply place_inj in E; lia.
      * apply list_lookup_insert_eq. rewrite Hl. by apply place_lt.
    + intros i Hi. rewrite place_same, Hw. destruct (Hrest i) as (s' & Hs' & Hrd'); [lia|].
      exists s'. split; [|done]. rewrite list_lookup_insert_ne; [done|].
      intros E. apply place_inj in E; lia.
  - assert (length q = length_ c) as Hfull by lia.
    destruct q as [|v0 q]; [cbn in *; lia|]. cbn [tail]. cbn in Hfull.
    pose proof (Hu 0 v0 eq_refl) as Hs. cbn in Hw. rewrite Hfull, place_turn in Hw by done.
    rewrite <- Hw in Hs. rewrite Hs. cbn. eexists. split_and!; [reflexivity| |done].
    constructor; cbn; rewrite ?length_insert, ?length_app; cbn; try done; try lia.
    + rewrite step_mod by done. apply Nat.mod_upper_bound. lia.
    + rewrite place_shift by done. rewrite Hw, step_place by done.
      replace (S (length q + 1)) with (S (length_ c)) by lia.
      rewrite <- !step_place, place_turn by done. done.
    + intros i w Hi. rewrite place_shift, Hw by done.
      apply lookup_snoc_Some in Hi as [[Hi Hiv]|[-> ->]].
      * rewrite list_lookup_insert_ne; [by apply (Hu (S i))|].
        intros E. apply place_inj in E; lia.
      * rewrite Hfull, place_turn by done. apply list_lookup_insert_eq.
        rewrite Hl. by apply place_lt.
Qed.

Lemma clear_holds c q : holds c q → holds (clear c) [].
Proof.
  intros [Hl Hp Hr Hc Hw Hu Hrest].
  constructor; cbn; rewrite ?length_map; try done; try lia.
  - unfold place; cbn. by rewrite Nat.Div0.mod_0_l by lia.
  - intros i [_ Hi].
    destruct (lookup_lt_is_Some_2 (buffer c) (place (clear c) i)) as [s Hs].
    { rewrite Hl. apply (place_lt (clear c)). done. }
    exists (mark_read s). split; [|done]. by rewrite list_lookup_fmap, Hs.
Qed.

(** ** Runs *)

Inductive op := OWrite (v : Z) | ORead | OClear.

(** A run gives the values the reads returned. *)
Fixpoint run (ops : list op) (c : CircularBuffer) : option (list (option Z) * CircularBuffer) :=
  match ops with
  | [] => Some ([], c)
  | OWrite v :: ops => c ← write v c; run ops c
  | ORead :: ops => '(v, c) ← read c; '(vs, c) ← run ops c; Some (v :: vs, c)
  | OClear :: ops => run ops (clear c)
  end.

Fixpoint q_run (cap : nat) (ops : list op) (q : list Z) : list Z * list Z :=
  match ops with
  | [] => ([], q)
  | OWrite v :: ops => q_run cap ops (q_write cap v q)
  | ORead :: ops => let '(v, q) := q_read q in let '(vs, q) := q_run cap ops q in (v :: vs, q)
  | OClear :: ops => q_run cap ops []
  end.

Lemma run_spec ops : ∀ c q, holds c q → ∃ c',
  run ops c = Some (map Some (q_run (length_ c) ops q).1, c') ∧
  holds c' (q_run (length_ c) ops q).2 ∧ length_ c' = length_ c.
Proof.
  induction ops as [|[v| |] ops IH]; intros c q Hh; cbn.
  - by exists c.
  - destruct (write_holds c q v Hh) as (c' & -> & Hh' & Hl). cbn.
    rewrite <- Hl. rewrite <- Hl in Hh'. by apply IH.
  - destruct (read_holds c q Hh) as (c' & -> & Hh' & Hl). cbn.
    destruct (q_read q) as [v q']; cbn in *.
    destruct (IH c' q' Hh') as (c2 & -> & H2 & Hl2). rewrite Hl in *. cbn.
    destruct (q_run _ ops q') as [vs q2]; cbn in *. by exists c2.
  - apply (IH (clear c) []). by eapply clear_holds.
Qed.

(** C29.  Any sequence of writes, reads and clears on a new buffer gives exactly
    the values a queue of bounded capacity that forgets its oldest value would
    give ([-1] when it is empty), and never leaves the array; the capacity is
    the number of slots asked for, or 10. *)
Theorem ring_is_bounded_queue slots ops :
  (0 ≤ slots)%Z → ∃ c c',
    make slots = Some c ∧
    let cap := if decide (slots = 0%Z) then 10 else Z.to_nat slots in
    run ops c = Some (map Some (q_run cap ops []).1, c') ∧
    length (q_run cap ops []).2 ≤ cap.
Proof.
  intros Hs. destruct (make slots) as [c|] eqn:Hm.
  2:{ unfold make in Hm. case_decide; [lia|done]. }
  pose proof (make_holds _ _ Hm) as Hh. destruct (run_spec ops c [] Hh) as (c' & Hr & Hh' & Hl).
  exists c, c'. split; [done|]. unfold make in Hm. case_decide; [done|].
  injection Hm as <-. cbn in *. split; [done|]. pose proof (h_cap _ _ Hh') as Hc.
  lia.
Qed.

Lemma ring_is_bounded_queue_witness : ∃ c c',
  make 2 = Some c ∧
  run [OWrite 1; OWrite 2; OWrite 3; ORead; ORead; ORead] c =
    Some ([Some 2; Some 3; Some (-1)]%Z, c').
Proof.
  destruct (ring_is_bounded_queue 2 [OWrite 1; OWrite 2; OWrite 3; ORead; ORead; ORead])
    as (c & c' & Hm & Hr & _); [lia|].
  exists c, c'. split; [exact Hm|exact Hr].
Defined.
End Ring.
