(* ===== verification/ListSet.v ===== *)
(** * The list-based set ([list_set.hpp], [list_set.cpp])

    A singly linked list of nodes in a heap, kept in increasing order.  Each
    public operation but [clear] runs inside one critical section of the
    read-write mutex, so it is one step here.  [insert] asks [malloc] for the size
    of a pointer and writes a node: how much room the block has is the
    allocator's choice, and so a parameter. *)

From Stdlib Require Import Sorted.
From S2P Require Import Prelude.

Module ListBasedSet.

Record node := mkNode { data : Z; next : option nat }.
(** The heap the nodes live in and the pointer [head]; [None] is [NULL]. *)
Record ListBasedSet := mkSet { heap : gmap nat node; head : option nat }.

Implicit Types (s : ListBasedSet) (h : gmap nat node) (v : Z).

(** An address that is not in use. *)
Definition malloc h : nat := S (map_fold (λ a _ m, a `max` m) 0 h).

Definition make : ListBasedSet := mkSet ∅ None.

(** The search loop of [insert]: [current], [previous] (not set at first) and
    [found] when it ends.  [None] is a use of a dangling pointer. *)
Fixpoint insert_loop (fuel : nat) h v (current previous : option nat)
    : option (option nat * option nat * bool) :=
  match fuel with
  | 0 => None
  | S fuel =>
    match current with
    | None => Some (None, previous, false)
    | Some a =>
      n ← h !! a;
      if decide (data n > v)%Z then Some (current, previous, false)
      else if decide (data n = v) then Some (current, previous, true)
      else insert_loop fuel h v (next n) current
    end
  end.

(** *** The memory of a node *)

Definition sizeof_int : Z := 4.
Definition sizeof_pointer : Z := 8.
(** [struct node]: [data], four bytes of padding, [next]. *)
Definition offset_data : Z := 0.
Definition offset_next : Z := 8.
Definition sizeof_node : Z := (offset_next + sizeof_pointer)%Z.

(** The assignments to the members of the new node, in the block that [malloc]
    returned for the size of a pointer; [usable n] is the room in a block for which
    [n] bytes were asked.  [None] is a write outside the block. *)
Definition init_node (usable : Z → Z) (newnode : nat) v (p : option nat) h : option (gmap nat node) :=
  let room := usable sizeof_pointer in
  if decide (offset_data + sizeof_int ≤ room ∧ offset_next + sizeof_pointer ≤ room)%Z
  then Some (<[newnode := mkNode v p]> h) else None.

(** [previous->next = p]; [None] when [previous] was not set. *)
Definition set_next (previous p : option nat) h : option (gmap nat node) :=
  a ← previous; n ← h !! a; Some (<[a := mkNode (data n) p]> h).

Definition insert (usable : Z → Z) v s : option (bool * ListBasedSet) :=
  '(current, previous, found) ←
     insert_loop (S (size (heap s))) (heap s) v (head s) None;
  if (found : bool) then Some (false, s) else
  let newnode := malloc (heap s) in
  if decide (current = head s) then
    h ← init_node usable newnode v (head s) (heap s);
    Some (true, mkSet h (Some newnode))
  else match current with
  | Some _ =>
    p ← previous; n ← heap s !! p;
    h ← init_node usable newnode v (next n) (heap s);
    h ← set_next previous (Some newnode) h;
    Some (true, mkSet h (head s))
  | None =>
    h ← init_node usable newnode v None (heap s);
    h ← set_next previous (Some newnode) h;
    Some (true, mkSet h (head s))
  end.

Fixpoint remove_loop (fuel : nat) v s (current previous : option nat)
    : option (bool * ListBasedSet) :=
  match fuel with
  | 0 => None
  | S fuel =>
    match current with
    | None => Some (false, s)
    | Some a =>
      n ← heap s !! a;
      if decide (data n = v) then
        s' ← (if decide (current = head s) then Some (mkSet (heap s) None)
              else h ← set_next previous (next n) (heap s); Some (mkSet h (head s)));
        Some (true, mkSet (delete a (heap s')) (head s'))
      else remove_loop fuel v s (next n) current
    end
  end.

Definition remove v s : option (bool * ListBasedSet) :=
  remove_loop (S (size (heap s))) v s (head s) None.

Fixpoint lookup_loop (fuel : nat) v h (current : option nat) : option bool :=
  match fuel with
  | 0 => None
  | S fuel =>
    match current with
    | None => Some false
    | Some a => n ← h !! a; if decide (data n = v) then Some true
                            else lookup_loop fuel v h (next n)
    end
  end.

Definition lookup v s : option bool :=
  lookup_loop (S (size (heap s))) v (heap s) (head s).

Fixpoint clear_loop (fuel : nat) h (current : option nat) : option (gmap nat node) :=
  match fuel with
  | 0 => None
  | S fuel =>
    match current with
    | None => Some h
    | Some a => n ← h !! a; clear_loop fuel (delete a h) (next n)
    end
  end.

Definition clear s : option ListBasedSet :=
  h ← clear_loop (S (size (heap s))) (heap s) (head s); Some (mkSet h None).

Fixpoint sorted_loop (fuel : nat) h (previous : Z) (current : option nat) : option bool :=
  match fuel with
  | 0 => None
  | S fuel =>
    match current with
    | None => Some true
    | Some a => n ← h !! a; if decide (previous >= data n)%Z then Some false
                            else sorted_loop fuel h (data n) (next n)
    end
  end.

Definition checkIntegrity s : option bool :=
  match head s with
  | None => Some true
  | Some a =>
    n ← heap s !! a;
    match next n with
    | None => Some true
    | Some b => sorted_loop (S (size (heap s))) (heap s) (data n) (Some b)
    end
  end.

Arguments insert : simpl never.
Arguments remove : simpl never.
Arguments lookup : simpl never.
Arguments clear : simpl never.
Arguments checkIntegrity : simpl never.

(** ** Linked lists in the heap *)

(** [chain h p l]: from [p] on, the nodes of [h] are at the addresses of [l]
    with the data of [l]. *)
Fixpoint chain h (p : option nat) (l : list (nat * Z)) : Prop :=
  match l with
  | [] => p = None
  | (a, d) :: l => p = Some a ∧ ∃ q, h !! a = Some (mkNode d q) ∧ chain h q l
  end.

Definition ptr (l : list (nat * Z)) : option nat := fst <$> list.head l.

Lemma malloc_fresh h : h !! malloc h = None.
Proof.
  assert (∀ a, is_Some (h !! a) → a ≤ map_fold (λ a _ m, a `max` m) 0 h) as Hm.
  { apply (map_fold_weak_ind (λ m h, ∀ a, is_Some (h !! a) → a ≤ m)).
    - intros a. rewrite lookup_empty. by intros [].
    - intros i x h' m Hi IH a [y Hy]. destruct (decide (a = i)) as [->|]; [lia|].
      rewrite lookup_insert_ne in Hy by done. specialize (IH a (mk_is_Some _ _ Hy)). lia. }
  apply eq_None_not_Some. intros Hs. apply Hm in Hs. unfold malloc in Hs. lia.
Qed.

Lemma chain_ptr h p l : chain h p l → p = ptr l.
Proof. destruct l as [|[a d] l]; [done|]. by intros [-> _]. Qed.

Lemma chain_dom h p l a : chain h p l → a ∈ l.*1 → is_Some (h !! a).
Proof.
  revert p. induction l as [|[b d] l IH]; intros p Hc Ha; [by apply not_elem_of_nil in Ha|].
  destruct Hc as (_ & q & Hb & Hc). cbn in Ha.
  apply elem_of_cons in Ha as [->|Ha]; [by eexists|]. by eapply IH.
Qed.

Lemma chain_insert h p l a n : a ∉ l.*1 → chain (<[a := n]> h) p l ↔ chain h p l.
Proof.
  revert p. induction l as [|[b d] l IH]; intros p Ha; cbn; [done|].
  cbn in Ha. apply not_elem_of_cons in Ha as [Hb Ha].
  setoid_rewrite IH; [|done]. by setoid_rewrite (lookup_insert_ne h a b n Hb).
Qed.

Lemma chain_delete h p l a : a ∉ l.*1 → chain (delete a h) p l ↔ chain h p l.
Proof.
  revert p. induction l as [|[b d] l IH]; intros p Ha; cbn; [done|].
  cbn in Ha. apply not_elem_of_cons in Ha as [Hb Ha].
  setoid_rewrite IH; [|done]. by setoid_rewrite (lookup_delete_ne h a b Hb).
Qed.

Lemma chain_length h p l : chain h p l → NoDup l.*1 → length l ≤ size h.
Proof.
  intros Hc Hn. rewrite <- (length_fmap fst l).
  rewrite <- (size_list_to_set (C := gset nat) l.*1 Hn), <- (size_dom (D := gset nat)).
  apply subseteq_size. intros a Ha. apply elem_of_list_to_set in Ha.
  apply elem_of_dom. by eapply chain_dom.
Qed.

(** Making the node at [a] point to [q] instead. *)
Lemma chain_relink h p l1 a d l2 l3 q :
  chain h p (l1 ++ (a, d) :: l2) → chain h q l3 → a ∉ l1.*1 → a ∉ l3.*1 →
  chain (<[a := mkNode d q]> h) p (l1 ++ (a, d) :: l3).
Proof.
  revert p. induction l1 as [|[b e] l1 IH]; intros p Hc Hq Ha1 Ha3; cbn in *.
  - destruct Hc as [-> _]. split; [done|]. exists q. rewrite lookup_insert_eq.
    split; [done|]. by apply chain_insert.
  - apply not_elem_of_cons in Ha1 as [Hb Ha1]. destruct Hc as (-> & r & Hr & Hc).
    split; [done|]. exists r. rewrite lookup_insert_ne by done. auto.
Qed.

Lemma chain_app_inv h p l1 a d l2 :
  chain h p (l1 ++ (a, d) :: l2) → ∃ q, h !! a = Some (mkNode d q) ∧ chain h q l2.
Proof.
  revert p. induction l1 as [|[b e] l1 IH]; intros p Hc; cbn in Hc.
  - by destruct Hc as (_ & q & ?); exists q.
  - destruct Hc as (_ & q & _ & Hc). eauto.
Qed.

(** ** The set as a sorted list of values *)

Definition sorted (vs : list Z) : Prop := StronglySorted Z.lt vs.

(** [s] is the list [l], in increasing order. *)
Record repr s (l : list (nat * Z)) : Prop := {
  r_chain : chain (heap s) (head s) l;
  r_nodup : NoDup l.*1;
  r_sorted : sorted l.*2
}.

(** Insertion in order, as a specification. *)
Fixpoint ins v (vs : list Z) : list Z :=
  match vs with
  | [] => [v]
  | x :: vs' => if decide (v < x)%Z then v :: vs
                else if decide (v = x) then vs else x :: ins v vs'
  end.

(** What [remove] does to the values: removing the first one loses them all. *)
Definition del v (vs : list Z) : list Z :=
  if decide (list.head vs = Some v) then [] else filter (λ x, x ≠ v) vs.

Lemma elem_of_ins v x vs : x ∈ ins v vs ↔ x = v ∨ x ∈ vs.
Proof.
  induction vs as [|y vs IH]; cbn; [set_solver|].
  repeat case_decide; subst; rewrite ?elem_of_cons, ?IH; tauto.
Qed.

Lemma ins_sorted v vs : sorted vs → sorted (ins v vs).
Proof.
  unfold sorted. induction 1 as [|y vs Hs IH Hy]; cbn; [by repeat constructor|].
  repeat case_decide; subst.
  - constructor; [by constructor|]. constructor; [done|].
    eapply Forall_impl; [exact Hy|]. cbn. lia.
  - by constructor.
  - constructor; [done|]. rewrite Forall_forall in *. intros x Hx.
    apply elem_of_ins in Hx as [->|Hx]; [lia|auto].
Qed.

(** Below, at and above a place of a sorted list. *)
Lemma ins_at v (l1 l2 : list Z) :
  Forall (λ x, x < v)%Z l1 →
  match l2 with [] => True | x :: _ => (v < x)%Z end → ins v (l1 ++ l2) = l1 ++ v :: l2.
Proof.
  intros H1 H2. induction l1 as [|y l1 IH]; cbn.
  - destruct l2; [done|]. cbn. by rewrite decide_True.
  - apply Forall_cons in H1 as [Hy H1]. rewrite !decide_False by lia. by rewrite IH.
Qed.

Lemma ins_found v (l1 l2 : list Z) :
  Forall (λ x, x < v)%Z l1 → ins v (l1 ++ v :: l2) = l1 ++ v :: l2.
Proof.
  intros H1. induction l1 as [|y l1 IH]; cbn.
  - rewrite decide_False by lia. by rewrite decide_True.
  - apply Forall_cons in H1 as [Hy H1]. rewrite !decide_False by lia. by rewrite IH.
Qed.

Lemma sorted_app_lt l1 x l2 :
  sorted (l1 ++ x :: l2) → Forall (λ y, y < x)%Z l1 ∧ Forall (λ y, x < y)%Z l2.
Proof.
  induction l1 as [|y l1 IH]; cbn; intros Hs; apply StronglySorted_inv in Hs as [Hs Hy].
  - split; [constructor|done].
  - destruct (IH Hs) as [H1 H2]. split; [|done]. constructor; [|done].
    rewrite Forall_app, Forall_cons in Hy. tauto.
Qed.

Lemma not_in_below v l1 : Forall (λ y, y < v)%Z l1 → v ∉ l1.
Proof. rewrite Forall_forall. intros H Hv. specialize (H v Hv). lia. Qed.

(** *** Insertion *)

Lemma insert_loop_spec h v l : ∀ l1 fuel prev,
  chain h (ptr l) l → length l < fuel → prev = (fst <$> last l1) →
  Forall (λ x, x < v)%Z l1.*2 → ∃ l1' l2 found,
    l1 ++ l = l1' ++ l2 ∧ Forall (λ x, x < v)%Z l1'.*2 ∧
    insert_loop fuel h v (ptr l) prev = Some (ptr l2, fst <$> last l1', found) ∧
    match l2 with
    | [] => found = false
    | (_, x) :: _ => if found then x = v else (v < x)%Z
    end.
Proof.
  induction l as [|[a d] l IH]; intros l1 [|fuel] prev Hc Hf Hp Hlt; try (cbn in Hf; lia); cbn.
  - exists l1, [], false. by subst prev.
  - destruct Hc as (_ & q & Ha & Hc). rewrite Ha. cbn.
    case_decide; [|case_decide].
    + exists l1, ((a, d) :: l), false. split_and!; try done; [by subst|lia].
    + exists l1, ((a, d) :: l), true. by subst.
    + pose proof (chain_ptr _ _ _ Hc) as ->.
      destruct (IH (l1 ++ [(a, d)]) fuel (Some a)) as (l1' & l2 & found & Heq & ? & ? & ?).
      * done.
      * cbn in Hf. lia.
      * by rewrite last_snoc.
      * rewrite fmap_app, Forall_app. split; [done|]. cbn. constructor; [lia|constructor].
      * exists l1', l2, found. split_and!; try done. by rewrite <- Heq, <- app_assoc.
Qed.

Lemma repr_fuel s l : repr s l → length l < S (size (heap s)).
Proof. intros [Hc Hn _]. pose proof (chain_length _ _ _ Hc Hn). lia. Qed.

Lemma repr_head s l : repr s l → head s = ptr l.
Proof. intros [Hc _ _]. by apply chain_ptr in Hc. Qed.

Lemma repr_fresh s l : repr s l → malloc (heap s) ∉ l.*1.
Proof.
  intros [Hc _ _] Hin. pose proof (chain_dom _ _ _ _ Hc Hin) as [n Hn].
  by rewrite malloc_fresh in Hn.
Qed.

(** A new node between [l1] and [l2] keeps the representation. *)
Lemma repr_middle s s' l1 l2 a v :
  repr s (l1 ++ l2) → a ∉ (l1 ++ l2).*1 → Forall (λ x, x < v)%Z l1.*2 →
  match l2 with [] => True | (_, x) :: _ => (v < x)%Z end →
  chain (heap s') (head s') (l1 ++ (a, v) :: l2) → repr s' (l1 ++ (a, v) :: l2).
Proof.
  intros [Hc Hn Hs] Ha H1 H2 Hc'. constructor; [done| |].
  - rewrite fmap_app in *. cbn. rewrite NoDup_app in *.
    destruct Hn as (Hn1 & Hd & Hn2). apply not_elem_of_app in Ha as [Ha1 Ha2].
    split_and!; [done| |by constructor]. intros x Hx.
    rewrite not_elem_of_cons. split; [|auto]. by intros ->.
  - rewrite fmap_app in *. cbn. rewrite <- ins_at; [by apply ins_sorted|done|].
    by destruct l2 as [|[]].
Qed.

Lemma last_Some_inv {A} (l : list A) x : last l = Some x → ∃ k, l = k ++ [x].
Proof. intros H. apply last_Some in H as [k ->]. by exists k. Qed.

Lemma ptr_ne (k l : list (nat * Z)) x :
  NoDup ((k ++ [x]) ++ l).*1 → ptr l ≠ ptr ((k ++ [x]) ++ l).
Proof.
  rewrite !fmap_app. intros Hn E. destruct l as [|[b e] l]; [by destruct k as [|[]], x|].
  cbn in Hn. rewrite NoDup_app in Hn. destruct Hn as (_ & Hd & _).
  apply (Hd b); [|by left]. destruct k as [|[c f] k]; cbn in *; [destruct x|];
    injection E as ->; set_solver.
Qed.

(** Linking a new node [a] behind [p]. *)
Lemma chain_link h q k p d l a v :
  chain h q (k ++ (p, d) :: l) → NoDup (k ++ (p, d) :: l).*1 → a ∉ (k ++ (p, d) :: l).*1 →
  chain (<[p := mkNode d (Some a)]> (<[a := mkNode v (ptr l)]> h)) q (k ++ (p, d) :: (a, v) :: l).
Proof.
  intros Hc Hn Ha. destruct (chain_app_inv _ _ _ _ _ _ Hc) as (q' & Hp & Hq).
  pose proof (chain_ptr _ _ _ Hq) as ->.
  rewrite fmap_app in Hn, Ha. cbn in Hn, Ha.
  apply NoDup_app in Hn as (_ & Hd & Hn). apply NoDup_cons in Hn as [Hpl _].
  apply not_elem_of_app in Ha as [Hak Ha]. apply not_elem_of_cons in Ha as [Hap Hal].
  eapply chain_relink.
  - apply chain_insert; [|exact Hc]. rewrite fmap_app. cbn.
    by rewrite not_elem_of_app, not_elem_of_cons.
  - cbn. split; [done|]. exists (ptr l). rewrite lookup_insert_eq. split; [done|].
    by apply chain_insert.
  - intros Hin. apply (Hd p Hin). by left.
  - cbn. rewrite not_elem_of_cons. split; [by intros ->|done].
Qed.

(** The values of a set into which [v] goes between [l1] and [l2]. *)
Lemma between_new (l1 l2 : list (nat * Z)) v :
  sorted (l1 ++ l2).*2 → Forall (λ x, x < v)%Z l1.*2 →
  match l2 with [] => True | (_, x) :: _ => (v < x)%Z end →
  bool_decide (v ∉ (l1 ++ l2).*2) = true ∧
  ∀ a : nat, (l1 ++ (a, v) :: l2).*2 = ins v (l1 ++ l2).*2.
Proof.
  intros Hs H1 Hlt. split.
  - apply bool_decide_true. rewrite fmap_app, not_elem_of_app. split; [by apply not_in_below|].
    destruct l2 as [|[a x] l2]; cbn; [apply not_elem_of_nil|].
    rewrite fmap_app in Hs; cbn in Hs. apply sorted_app_lt in Hs as [_ Hs].
    rewrite not_elem_of_cons. split; [lia|]. rewrite Forall_forall in Hs.
    intros Hv. specialize (Hs v Hv). lia.
  - intros a. rewrite !fmap_app; cbn. rewrite ins_at; [done|done|]. by destruct l2 as [|[]].
Qed.

(** The allocator's block has room for a node; or for the [int] only. *)
Definition roomy (usable : Z → Z) : Prop := (sizeof_node ≤ usable sizeof_pointer)%Z.

Lemma init_node_roomy usable a v p h : roomy usable → init_node usable a v p h = Some (<[a := mkNode v p]> h).
Proof.
  unfold roomy, init_node, sizeof_node, offset_data, offset_next, sizeof_pointer, sizeof_int.
  intros Hu. by rewrite decide_True by lia.
Qed.

Lemma init_node_short usable a v p h : ¬ roomy usable → init_node usable a v p h = None.
Proof.
  unfold roomy, init_node, sizeof_node. intros Hu. rewrite decide_False; [done|]. intros [_ H]. by apply Hu.
Qed.

Lemma insert_repr usable s l v : roomy usable →
  repr s l → ∃ s' l', insert usable v s = Some (bool_decide (v ∉ l.*2), s') ∧ repr s' l' ∧
                      l'.*2 = ins v l.*2.
Proof.
  intros Hu Hr. pose proof Hr as [Hc Hn Hs]. pose proof (repr_head _ _ Hr) as Hh.
  pose proof (repr_fresh _ _ Hr) as Hfr. unfold insert. rewrite Hh.
  destruct (insert_loop_spec (heap s) v l [] (S (size (heap s))) None)
    as (l1 & l2 & found & Heq & H1 & -> & H2); [by rewrite <- Hh|by apply repr_fuel|done|constructor|].
  cbn in Heq. subst l. cbn. destruct found.
  { destruct l2 as [|[a x] l2]; [done|]. subst x. exists s, (l1 ++ (a, v) :: l2).
    split_and!; [|done|].
    - rewrite bool_decide_false; [done|]. rewrite fmap_app; cbn. set_solver.
    - rewrite fmap_app. cbn. by rewrite ins_found. }
  assert (match l2 with [] => True | (_, x) :: _ => (v < x)%Z end) as Hlt by by destruct l2 as [|[]].
  destruct (between_new l1 l2 v Hs H1 Hlt) as [Hnew Hins].
  rewrite Hnew. set (a := malloc (heap s)) in *. specialize (Hins a).
  assert (∀ s', chain (heap s') (head s') (l1 ++ (a, v) :: l2) → repr s' (l1 ++ (a, v) :: l2))
    as Hmid by (intros s' ?; by eapply repr_middle).
  destruct (last l1) as [[p d]|] eqn:Hl.
  - apply last_Some_inv in Hl as [k ->].
    assert (ptr l2 ≠ ptr ((k ++ [(p, d)]) ++ l2)) as Hne by by apply ptr_ne.
    rewrite decide_False by done. rewrite <- !app_assoc in *. cbn in *.
    destruct (chain_app_inv _ _ _ _ _ _ Hc) as (q & Hp & Hq).
    pose proof (chain_ptr _ _ _ Hq) as ->.
    assert (p ≠ a) as Hpa by (intros ->; unfold a in Hp; by rewrite malloc_fresh in Hp).
    exists (mkSet (<[p := mkNode d (Some a)]> (<[a := mkNode v (ptr l2)]> (heap s))) (ptr (k ++ (p, d) :: l2))),
      (k ++ (p, d) :: (a, v) :: l2). split_and!.
    + destruct l2 as [|[b e] l2]; cbn; rewrite ?Hp; cbn; rewrite init_node_roomy by done; cbn;
        unfold set_next; cbn; rewrite lookup_insert_ne by done; by rewrite Hp.
    + apply Hmid. cbn. apply (chain_link _ _ k p d l2 a v); try done. by rewrite <- Hh.
    + done.
  - apply last_None in Hl as ->. cbn in *. rewrite decide_True by done.
    rewrite init_node_roomy by done. cbn.
    eexists _, ((a, v) :: l2). split_and!; [reflexivity| |done].
    apply Hmid. cbn. split; [done|]. exists (ptr l2). rewrite lookup_insert_eq.
    split; [done|]. apply chain_insert; [done|]. by rewrite <- Hh.
Qed.

(** *** Removal *)

(** The state after the node at [a], behind the nodes [m], was taken out and
    freed. *)
Definition unlinked s (m : list (nat * Z)) (a : nat) (r : list (nat * Z)) : ListBasedSet :=
  match last m with
  | None => mkSet (delete a (heap s)) None
  | Some (p, d) => mkSet (delete a (<[p := mkNode d (ptr r)]> (heap s))) (head s)
  end.

Lemma remove_loop_spec s v l : ∀ l1 fuel,
  repr s (l1 ++ l) → length l < fuel → v ∉ l1.*2 →
  ((v ∉ l.*2) ∧ remove_loop fuel v s (ptr l) (fst <$> last l1) = Some (false, s)) ∨
  ∃ m a r, l1 ++ l = m ++ (a, v) :: r ∧ (v ∉ m.*2) ∧ (v ∈ l.*2) ∧
    remove_loop fuel v s (ptr l) (fst <$> last l1) = Some (true, unlinked s m a r).
Proof.
  induction l as [|[a d] l IH]; intros l1 [|fuel] Hr Hf Hv; try (cbn in Hf; lia); cbn.
  { left. split; [apply not_elem_of_nil|done]. }
  pose proof Hr as [Hc Hn _]. destruct (chain_app_inv _ _ _ _ _ _ Hc) as (q & Ha & Hq).
  pose proof (chain_ptr _ _ _ Hq) as ->. rewrite Ha. cbn. case_decide as Hd.
  - subst d. right. exists l1, a, l. split_and!; [done|done|by left|].
    unfold unlinked. rewrite (repr_head _ _ Hr). destruct (last l1) as [[p d]|] eqn:Hl; cbn.
    + apply last_Some_inv in Hl as [k ->].
      rewrite decide_False by exact (ptr_ne k ((a, v) :: l) (p, d) Hn).
      rewrite <- app_assoc in Hc. cbn in Hc.
      destruct (chain_app_inv _ _ _ _ _ _ Hc) as (q & Hp & _). by rewrite Hp.
    + apply last_None in Hl as ->. by rewrite decide_True.
  - destruct (IH (l1 ++ [(a, d)]) fuel) as [[Hnv He]|(m & b & r & Heq & Hm & Hin & He)].
    + by rewrite <- app_assoc.
    + cbn in Hf. lia.
    + rewrite fmap_app, not_elem_of_app; cbn. by rewrite list_elem_of_singleton.
    + left. rewrite last_snoc in He. split; [by apply not_elem_of_cons|done].
    + right. rewrite last_snoc in He. exists m, b, r. rewrite <- app_assoc in Heq.
      split_and!; [done|done|by right|done].
Qed.

Lemma filter_absent v (vs : list Z) : v ∉ vs → filter (λ x, x ≠ v) vs = vs.
Proof.
  intros Hv. induction vs as [|x vs IH]; [done|].
  apply not_elem_of_cons in Hv as [Hx Hv]. rewrite filter_cons_True by done. by rewrite IH.
Qed.

Lemma sorted_NoDup (vs : list Z) : sorted vs → NoDup vs.
Proof.
  unfold sorted. induction 1 as [|x vs Hs IH Hx]; constructor; [|done].
  intros Hin. rewrite Forall_forall in Hx. specialize (Hx x Hin). lia.
Qed.

Lemma sorted_filter v (vs : list Z) : sorted vs → sorted (filter (λ x, x ≠ v) vs).
Proof.
  unfold sorted. induction 1 as [|x vs Hs IH Hx]; [constructor|].
  rewrite filter_cons. case_decide; [|done]. constructor; [done|].
  rewrite Forall_forall in *. intros y Hy. apply list_elem_of_filter in Hy as [_ Hy]. auto.
Qed.

Lemma del_at v (l1 l2 : list Z) :
  NoDup (l1 ++ v :: l2) → del v (l1 ++ v :: l2) = if decide (l1 = []) then [] else l1 ++ l2.
Proof.
  intros Hn. apply NoDup_app in Hn as (_ & Hd & Hn). apply NoDup_cons in Hn as [Hv _].
  assert (v ∉ l1) as Hv1 by (intros Hin; apply (Hd v Hin); by left).
  unfold del. destruct l1 as [|x l1]; [by rewrite !decide_True|].
  rewrite (decide_False (P := x :: l1 = [])) by done. rewrite decide_False.
  - rewrite filter_app, (filter_cons_False _ v) by (intros Hx; by apply Hx). by rewrite !filter_absent.
  - cbn. intros [= ->]. apply Hv1. by left.
Qed.

Lemma del_absent v (vs : list Z) : v ∉ vs → del v vs = vs.
Proof.
  intros Hv. unfold del. rewrite decide_False; [by apply filter_absent|].
  intros E. destruct vs as [|x vs]; [done|]. cbn in E. simplify_eq. apply Hv. by left.
Qed.

Lemma unlinked_repr s m a v r :
  repr s (m ++ (a, v) :: r) →
  repr (unlinked s m a r) (if decide (m = []) then [] else m ++ r).
Proof.
  intros Hr. pose proof Hr as [Hc Hn Hs]. unfold unlinked.
  destruct (last m) as [[p d]|] eqn:Hl.
  2:{ apply last_None in Hl as ->. rewrite decide_True by done.
      constructor; [done|constructor|constructor]. }
  apply last_Some_inv in Hl as [k ->]. rewrite decide_False by (by destruct k).
  rewrite <- app_assoc in *. cbn in *.
  destruct (chain_app_inv _ _ k p d _ Hc) as (q & Hp & Hq). destruct Hq as (-> & q' & Ha & Hq).
  pose proof (chain_ptr _ _ _ Hq) as ->.
  rewrite fmap_app in Hn. cbn in Hn. pose proof Hn as Hn'.
  apply NoDup_app in Hn' as (Hnk & Hd & Hn'). apply NoDup_cons in Hn' as [Hpa Hn'].
  apply NoDup_cons in Hn' as [Har Hnr]. apply not_elem_of_cons in Hpa as [Hpa Hpr].
  constructor; cbn.
  - apply chain_delete.
    + rewrite fmap_app. cbn. rewrite not_elem_of_app, not_elem_of_cons. split_and!; [|done|done].
      intros Hin. apply (Hd a Hin). right. by left.
    + eapply chain_relink; [exact Hc|done| |done].
      intros Hin. apply (Hd p Hin). by left.
  - rewrite fmap_app. cbn. apply NoDup_app. split_and!; [done| |by constructor].
    intros x Hx. specialize (Hd x Hx). rewrite !not_elem_of_cons in *. tauto.
  - rewrite fmap_app in Hs |- *. cbn in *.
    pose proof (sorted_NoDup _ Hs) as Hnd. pose proof (sorted_filter v _ Hs) as Hf.
    rewrite (cons_middle d), app_assoc in Hnd, Hf.
    pose proof (del_at v _ _ Hnd) as Hdel. unfold del in Hdel.
    rewrite (decide_False (P := k.*2 ++ [d] = [])) in Hdel by (by destruct k).
    rewrite decide_False in Hdel.
    + rewrite Hdel, <- app_assoc in Hf. done.
    + apply NoDup_app in Hnd as (_ & Hdj & _). intros E.
      apply (Hdj v); [|by left]. destruct k as [|[? ?] k]; cbn in *; simplify_eq; by left.
Qed.

Lemma remove_repr s l v :
  repr s l → ∃ s' l', remove v s = Some (bool_decide (v ∈ l.*2), s') ∧ repr s' l' ∧
                      l'.*2 = del v l.*2.
Proof.
  intros Hr. unfold remove. rewrite (repr_head _ _ Hr).
  destruct (remove_loop_spec s v l [] (S (size (heap s))) Hr) as [[Hv He]|(m & a & r & Heq & Hm & Hv & He)].
  - by apply repr_fuel.
  - apply not_elem_of_nil.
  - exists s, l. rewrite bool_decide_false by done.
    split_and!; [exact He|done|by rewrite del_absent].
  - change ([] ++ l) with l in Heq. subst l. rewrite bool_decide_true by done.
    exists (unlinked s m a r), (if decide (m = []) then [] else m ++ r).
    split_and!; [exact He|by eapply unlinked_repr|].
    pose proof (sorted_NoDup _ (r_sorted _ _ Hr)) as Hn. rewrite fmap_app in *. cbn in *.
    rewrite del_at by done. destruct m; [by rewrite !decide_True|].
    rewrite !decide_False by done. by rewrite fmap_app.
Qed.

(** *** Lookup, integrity and clearing *)

Lemma lookup_loop_spec h v l : ∀ fuel,
  chain h (ptr l) l → length l < fuel →
  lookup_loop fuel v h (ptr l) = Some (bool_decide (v ∈ l.*2)).
Proof.
  induction l as [|[a d] l IH]; intros [|fuel] Hc Hf; try (cbn in Hf; lia); [done|].
  destruct Hc as (_ & q & Ha & Hc). pose proof (chain_ptr _ _ _ Hc) as ->.
  cbn. rewrite Ha. cbn. destruct (decide (d = v)) as [->|Hd].
  - rewrite bool_decide_true; [done|]. by left.
  - rewrite IH; [|done|cbn in Hf; lia]. f_equal. apply bool_decide_ext.
    rewrite elem_of_cons. split; [auto|]. intros [E|]; [congruence|done].
Qed.

Lemma lookup_repr s l v : repr s l → lookup v s = Some (bool_decide (v ∈ l.*2)).
Proof.
  intros Hr. unfold lookup. rewrite (repr_head _ _ Hr). apply lookup_loop_spec.
  - rewrite <- (repr_head _ _ Hr). apply Hr.
  - by apply repr_fuel.
Qed.

Lemma sorted_loop_spec h l : ∀ fuel x,
  chain h (ptr l) l → length l < fuel → sorted (x :: l.*2) →
  sorted_loop fuel h x (ptr l) = Some true.
Proof.
  induction l as [|[a d] l IH]; intros [|fuel] x Hc Hf Hs; try (cbn in Hf; lia); [done|].
  destruct Hc as (_ & q & Ha & Hc). pose proof (chain_ptr _ _ _ Hc) as ->.
  apply StronglySorted_inv in Hs as [Hs Hx]. cbn in Hx. apply Forall_cons in Hx as [Hx _].
  cbn. rewrite Ha. cbn. rewrite decide_False by lia. apply IH; [done|cbn in Hf; lia|done].
Qed.

Lemma checkIntegrity_repr s l : repr s l → checkIntegrity s = Some true.
Proof.
  intros Hr. pose proof Hr as [Hc _ Hs]. pose proof (repr_fuel _ _ Hr) as Hf.
  unfold checkIntegrity. destruct l as [|[a d] l]; cbn in Hc; [by rewrite Hc|].
  destruct Hc as (-> & q & -> & Hc). cbn. pose proof (chain_ptr _ _ _ Hc) as ->.
  assert (sorted_loop (S (size (heap s))) (heap s) d (ptr l) = Some true) as H.
  { apply sorted_loop_spec; [done|cbn in Hf; lia|exact Hs]. }
  by destruct (ptr l).
Qed.

Lemma clear_loop_spec l : ∀ h fuel,
  chain h (ptr l) l → NoDup l.*1 → length l < fuel → is_Some (clear_loop fuel h (ptr l)).
Proof.
  induction l as [|[a d] l IH]; intros h [|fuel] Hc Hn Hf; try (cbn in Hf; lia); [by eexists|].
  destruct Hc as (_ & q & Ha & Hc). pose proof (chain_ptr _ _ _ Hc) as ->.
  apply NoDup_cons in Hn as [Hal Hn].
  cbn. rewrite Ha. cbn. apply IH; [by apply chain_delete|done|cbn in Hf; lia].
Qed.

Lemma clear_repr s l : repr s l → ∃ s', clear s = Some s' ∧ repr s' [].
Proof.
  intros Hr. pose proof Hr as [Hc Hn _]. pose proof (repr_head _ _ Hr) as Hh.
  destruct (clear_loop_spec l (heap s) (S (size (heap s)))) as [h Hh'].
  - by rewrite <- Hh.
  - done.
  - by apply repr_fuel.
  - exists (mkSet h None). unfold clear. rewrite Hh, Hh'. split; [done|].
    constructor; [done|constructor|constructor].
Qed.

(** ** Runs against a mathematical set *)

Inductive op := OInsert (v : Z) | ORemove (v : Z) | OLookup (v : Z) | OCheck | OClear.

Definition apply_op (usable : Z → Z) (o : op) s : option (list bool * ListBasedSet) :=
  match o with
  | OInsert v => '(b, s) ← insert usable v s; Some ([b], s)
  | ORemove v => '(b, s) ← remove v s; Some ([b], s)
  | OLookup v => b ← lookup v s; Some ([b], s)
  | OCheck => b ← checkIntegrity s; Some ([b], s)
  | OClear => s ← clear s; Some ([], s)
  end.

Fixpoint run (usable : Z → Z) (ops : list op) s : option (list bool * ListBasedSet) :=
  match ops with
  | [] => Some ([], s)
  | o :: ops => '(bs, s) ← apply_op usable o s; '(bs', s) ← run usable ops s; Some (bs ++ bs', s)
  end.

Definition is_min v (X : gset Z) : Prop := v ∈ X ∧ set_Forall (λ x, (v ≤ x)%Z) X.

#[global] Instance is_min_dec v X : Decision (is_min v X).
Proof. unfold is_min. apply _. Defined.

(** What the operations do to the set of values. *)
Definition set_op (o : op) (X : gset Z) : list bool * gset Z :=
  match o with
  | OInsert v => ([bool_decide (v ∉ X)], {[v]} ∪ X)
  | ORemove v => ([bool_decide (v ∈ X)], if decide (is_min v X) then ∅ else X ∖ {[v]})
  | OLookup v => ([bool_decide (v ∈ X)], X)
  | OCheck => ([true], X)
  | OClear => ([], ∅)
  end.

Fixpoint set_run (ops : list op) (X : gset Z) : list bool * gset Z :=
  match ops with
  | [] => ([], X)
  | o :: ops => let '(bs, X) := set_op o X in let '(bs', X) := set_run ops X in (bs ++ bs', X)
  end.

Lemma ins_set v vs : list_to_set (ins v vs) =@{gset Z} {[v]} ∪ list_to_set vs.
Proof. apply set_eq. intros x. rewrite elem_of_list_to_set, elem_of_ins. set_solver. Qed.

Lemma sorted_head_min v vs :
  sorted vs → list.head vs = Some v ↔ is_min v (list_to_set vs).
Proof.
  intros Hs. unfold is_min. destruct vs as [|x vs]; cbn; [set_solver|].
  apply StronglySorted_inv in Hs as [Hs Hx]. rewrite Forall_forall in Hx. split.
  - intros [= ->]. split; [set_solver|]. intros y Hy.
    apply elem_of_union in Hy as [->%elem_of_singleton|Hy%elem_of_list_to_set]; [lia|].
    specialize (Hx y Hy). lia.
  - intros [Hv Hmin]. specialize (Hmin x ltac:(set_solver)). f_equal. cbn in Hmin.
    apply elem_of_union in Hv as [->%elem_of_singleton|Hv%elem_of_list_to_set]; [lia|].
    specialize (Hx v Hv). lia.
Qed.

Lemma del_set v vs : sorted vs →
  list_to_set (del v vs) =@{gset Z}
    if decide (is_min v (list_to_set vs)) then ∅ else list_to_set vs ∖ {[v]}.
Proof.
  intros Hs. unfold del. pose proof (sorted_head_min v vs Hs) as Hm.
  destruct (decide (list.head vs = Some v)) as [H1|H1], (decide (is_min v (list_to_set vs))) as [H2|H2];
    [done|tauto|tauto|].
  apply set_eq. intros x. rewrite elem_of_list_to_set, list_elem_of_filter.
  set_solver.
Qed.

Lemma apply_op_repr usable o s l : roomy usable →
  repr s l → ∃ s' l', apply_op usable o s = Some ((set_op o (list_to_set l.*2)).1, s') ∧
    repr s' l' ∧ list_to_set l'.*2 = (set_op o (list_to_set l.*2)).2.
Proof.
  intros Hu Hr. destruct o as [v|v|v| |]; cbn; rewrite ?elem_of_list_to_set.
  - destruct (insert_repr usable s l v Hu Hr) as (s' & l' & -> & Hr' & He). exists s', l'.
    cbn. split_and!; [|done|by rewrite He, ins_set]. do 3 f_equal.
    apply bool_decide_ext. by rewrite elem_of_list_to_set.
  - destruct (remove_repr s l v Hr) as (s' & l' & -> & Hr' & He). exists s', l'.
    cbn. split_and!; [|done|rewrite He; apply del_set, Hr]. do 3 f_equal.
    apply bool_decide_ext. by rewrite elem_of_list_to_set.
  - rewrite (lookup_repr _ _ _ Hr). exists s, l. cbn. split_and!; [|done|done]. do 3 f_equal.
    apply bool_decide_ext. by rewrite elem_of_list_to_set.
  - rewrite (checkIntegrity_repr _ _ Hr). by exists s, l.
  - destruct (clear_repr _ _ Hr) as (s' & -> & Hr'). by exists s', [].
Qed.

Lemma run_repr usable ops : roomy usable → ∀ s l, repr s l → ∃ s' l',
  run usable ops s = Some ((set_run ops (list_to_set l.*2)).1, s') ∧ repr s' l' ∧
  list_to_set l'.*2 = (set_run ops (list_to_set l.*2)).2.
Proof.
  intros Hu. induction ops as [|o ops IH]; intros s l Hr; cbn; [by exists s, l|].
  destruct (apply_op_repr usable o s l Hu Hr) as (s1 & l1 & -> & Hr1 & He1). cbn.
  destruct (set_op o _) as [bs X1]; cbn in *. subst X1.
  destruct (IH s1 l1 Hr1) as (s2 & l2 & -> & Hr2 & He2). cbn.
  destruct (set_run ops _) as [bs2 X2]; cbn in *. by exists s2, l2.
Qed.

Lemma make_repr : repr make [].
Proof. constructor; [done|constructor|constructor]. Qed.

(** Nothing but an insertion writes to the memory of a node: on a list without
    nodes the other operations have their results. *)
Lemma run_short usable ops : ¬ roomy usable → ∀ s, head s = None →
  (run usable ops s = None ↔ ∃ v, OInsert v ∈ ops).
Proof.
  intros Hu. induction ops as [|o ops IH]; intros s Hh; cbn [run].
  { split; [done|]. by intros (v & ?%elem_of_nil). }
  assert (∀ s' bs, head s' = None → (∀ v, o ≠ OInsert v) → apply_op usable o s = Some (bs, s') →
    ('(bs, s) ← apply_op usable o s; '(bs', s) ← run usable ops s; Some (bs ++ bs', s)) = None ↔
    ∃ v, OInsert v ∈ o :: ops) as Hstep.
  { intros s' bs Hs' Ho ->. cbn. setoid_rewrite elem_of_cons. specialize (IH s' Hs').
    destruct (run usable ops s') as [[bs' s2]|]; cbn.
    - split; [done|]. intros (v & [Hv|Hv]); [by destruct (Ho v)|].
      assert (∃ v, OInsert v ∈ ops) as H%IH by eauto. done.
    - split; [|done]. intros _. destruct (proj1 IH eq_refl) as [v Hv]. exists v. by right. }
  destruct o as [v|v|v| |].
  - split; [intros _; exists v; by left|]. intros _. cbn. unfold insert. rewrite Hh. cbn.
    rewrite init_node_short by done. done.
  - eapply (Hstep s [false]); [done|done|]. cbn. unfold remove. rewrite Hh. done.
  - eapply (Hstep s [false]); [done|done|]. cbn. unfold lookup. rewrite Hh. done.
  - eapply (Hstep s [true]); [done|done|]. cbn. unfold checkIntegrity. rewrite Hh. done.
  - eapply (Hstep (mkSet (heap s) None) []); [done|done|]. cbn. unfold clear. rewrite Hh. done.
Qed.

(** C39.  Any sequence of operations on a new list.  When the blocks that the
    allocator returns for the eight bytes asked for have room for the sixteen of
    a node, no access is out of a block or dangling, every loop ends, and every
    result is that of a mathematical set, except that removing the smallest value
    empties it; the list stays in strictly increasing order, so [checkIntegrity]
    always says true.  When the blocks are shorter, the sequences that write
    outside a block are exactly those with an insertion. *)
Theorem list_set_refines_set usable ops :
  ((sizeof_node ≤ usable sizeof_pointer)%Z → ∃ s l, run usable ops make = Some ((set_run ops ∅).1, s) ∧
     repr s l ∧ list_to_set l.*2 = (set_run ops ∅).2) ∧
  ((usable sizeof_pointer < sizeof_node)%Z → run usable ops make = None ↔ ∃ v, OInsert v ∈ ops).
Proof.
  split; intros Hu.
  - destruct (run_repr usable ops Hu make [] make_repr) as (s & l & ?). by exists s, l.
  - apply run_short; [unfold roomy; lia|done].
Qed.

(** Removing the smallest value of a set that holds others loses the
    others: their lookups fail afterwards. *)
Lemma remove_smallest_loses_all s l v w :
  repr s l → list.head l.*2 = Some v →
  ∃ s', remove v s = Some (true, s') ∧ lookup w s' = Some false.
Proof.
  intros Hr Hv. destruct (remove_repr s l v Hr) as (s' & l' & He & Hr' & Hl').
  exists s'. rewrite He, bool_decide_true.
  - split; [done|]. rewrite (lookup_repr _ _ _ Hr'). f_equal. apply bool_decide_false.
    rewrite Hl'. unfold del. rewrite decide_True by done. apply not_elem_of_nil.
  - destruct l.*2; [done|]. cbn in Hv. simplify_eq. by left.
Qed.

(** An allocator whose blocks are multiples of sixteen bytes, eight of which it
    uses itself, with room for twenty-four at least; and one that gives what it is
    asked for. *)
Definition rounding (n : Z) : Z := 24 `max` ((n + 8 + 15) / 16 * 16 - 8).
Definition exact (n : Z) : Z := n.

Lemma list_set_refines_set_witness :
  (∃ s, run rounding [OInsert 3; OInsert 1; OInsert 3; ORemove 3; OLookup 1] make
        = Some ([true; true; false; true; true], s)) ∧
  run exact [OLookup 3; OInsert 3] make = None.
Proof.
  destruct (list_set_refines_set rounding [OInsert 3; OInsert 1; OInsert 3; ORemove 3; OLookup 1]) as [Hr _].
  destruct (list_set_refines_set exact [OLookup 3; OInsert 3]) as [_ He]. split.
  - destruct Hr as (s & l & E & _); [vm_compute; discriminate|]. exists s. rewrite E. reflexivity.
  - apply He; [vm_compute; reflexivity|]. exists 3%Z. right. left.
Defined.

End ListBasedSet.
