(* ===== verification/Spinlock.v ===== *)
(** * The spinning lock with backoff ([spinlock.hpp])

    The lock is a shared flag and, per thread, a program counter; one step is
    one access to shared memory.  The schedule is arbitrary, the threads are
    all the natural numbers. *)

From S2P Require Import Prelude.

Module Spinlock.

(** Where a thread is: outside; about to do the first load or the first
    test-and-set of the fast path; in the waiting loop with [wait] tries left;
    at the test-and-set of the last loop; holding the lock. *)
Inductive pc := Out | Load | TestAndSet | Spin (wait : Z) | Sleep | Held.

#[global] Instance pc_eq_dec : EqDecision pc.
Proof. solve_decision. Defined.

Record state := mkState { locked_ : bool; pcs : nat → pc }.

Definition init : state := mkState false (λ _, Out).

(** [loadLockState()]. *)
Definition loadLockState (s : state) : bool := locked_ s.

(** [__sync_lock_test_and_set(&locked_, true)]: the old value. *)
Definition test_and_set (s : state) : bool * state := (locked_ s, mkState true (pcs s)).

Definition goto (t : nat) (p : pc) (s : state) : state := mkState (locked_ s) (upd t p (pcs s)).

(** One step of [lock()]. *)
Definition lock_step (t : nat) (p : pc) (s : state) : option state :=
  match p with
  | Out => Some (goto t Load s)
  | Load => Some (goto t (if loadLockState s then Spin 1000 else TestAndSet) s)
  | TestAndSet =>
    let '(old, s) := test_and_set s in
    Some (goto t (if old then Spin 1000 else Held) s)
  | Spin wait =>
    Some (goto t (if decide (0 < wait)%Z
                  then if loadLockState s then Spin (wait - 1) else Sleep
                  else Sleep) s)
  | Sleep =>
    let '(old, s) := test_and_set s in
    Some (goto t (if old then Sleep else Held) s)
  | Held => None
  end.

(** [unlock()]: [__sync_lock_release]. *)
Definition unlock (t : nat) (s : state) : state := goto t Out (mkState false (pcs s)).

(** A thread takes the lock and, when it has it, releases it. *)
Definition step (t : nat) (s : state) : option state :=
  match pcs s t with
  | Held => Some (unlock t s)
  | p => lock_step t p s
  end.

(** The lock is taken exactly when one thread holds it. *)
Definition Inv (s : state) : Prop :=
  (∀ t, pcs s t = Held → locked_ s = true) ∧
  (∀ t u, pcs s t = Held → pcs s u = Held → t = u).

(** Moving a thread that ends outside the critical section. *)
Lemma Inv_goto t p s : Inv s → p ≠ Held → Inv (goto t p s).
Proof.
  intros [H1 H2] Hp. split; cbn.
  - intros u Hu. upd_cases u t; [done|by eapply H1].
  - intros u v Hu Hv. upd_cases u t; [done|]. upd_cases v t; [done|by apply H2].
Qed.

(** The test-and-set that finds the lock free. *)
Lemma Inv_acquire t s : Inv s → locked_ s = false → Inv (goto t Held (mkState true (pcs s))).
Proof.
  intros [H1 H2] Hl. assert (∀ u, pcs s u ≠ Held) as Hn.
  { intros u Hu. specialize (H1 u Hu). congruence. }
  split; cbn; [done|]. intros u v Hu Hv.
  upd_cases u t; upd_cases v t; try done; [by apply Hn in Hv|by apply Hn in Hu|by apply Hn in Hu].
Qed.

Lemma Inv_busy t p s : Inv s → locked_ s = true → p ≠ Held → Inv (goto t p (mkState true (pcs s))).
Proof. intros HI Hl Hp. destruct s; cbn in *; subst. by apply Inv_goto. Qed.

Lemma Inv_step t s s' : Inv s → step t s = Some s' → Inv s'.
Proof.
  intros HI Hs. unfold step, lock_step in Hs.
  destruct (pcs s t) eqn:Hp; cbn in Hs; simplify_eq.
  - by apply Inv_goto.
  - apply Inv_goto; [done|]. by destruct (loadLockState s).
  - destruct (locked_ s) eqn:Hl; [by apply Inv_busy|by apply Inv_acquire].
  - apply Inv_goto; [done|]. case_decide; [by destruct (loadLockState s)|done].
  - destruct (locked_ s) eqn:Hl; [by apply Inv_busy|by apply Inv_acquire].
  - destruct HI as [H1 H2]. split; cbn.
    + intros u Hu. upd_cases u t; [done|]. exfalso. eauto.
    + intros u v Hu Hv. upd_cases u t; [done|]. upd_cases v t; [done|]. by apply H2.
Qed.

Lemma Inv_init : Inv init.
Proof. by split. Qed.

(**  Mutual exclusion: whatever the schedule and the number of threads, no
    two threads hold the lock at the same time, and it is marked as taken
    whenever a thread holds it. *)
Lemma spinlock_mutual_exclusion sched s t u :
  exec step sched init = Some s → pcs s t = Held →
  locked_ s = true ∧ (pcs s u = Held → u = t).
Proof.
  intros He Ht. destruct (exec_invariant step Inv Inv_step sched _ _ Inv_init He) as [H1 H2].
  split; [by eapply H1|]. intros Hu. by apply H2.
Qed.

(** *** Progress *)

(** How many steps a thread needs, alone, on a free lock. *)
Definition distance (p : pc) : nat :=
  match p with Held => 0 | TestAndSet | Sleep => 1 | Load | Spin _ => 2 | Out => 3 end.

Lemma free_step t s :
  locked_ s = false → pcs s t ≠ Held → ∃ s',
    step t s = Some s' ∧ distance (pcs s t) = S (distance (pcs s' t)) ∧
    (pcs s' t = Held ∨ locked_ s' = false).
Proof.
  intros Hl Hp. unfold step, lock_step, loadLockState.
  destruct (pcs s t) as [| | |w| |] eqn:E; try done; cbn; rewrite ?Hl;
    eexists; (split; [reflexivity|]); cbn; rewrite ?upd_eq; cbn; auto.
  case_decide; auto.
Qed.

(** Progress: from any reachable state in which the lock is free, a thread
    anywhere inside [lock()] that runs without interference holds the lock
    after at most three steps. *)
Lemma spinlock_free_is_taken t s :
  locked_ s = false → pcs s t ≠ Held →
  ∃ s', exec step (replicate (distance (pcs s t)) t) s = Some s' ∧ pcs s' t = Held ∧
        distance (pcs s t) ≤ 3.
Proof.
  intros Hl Hp. remember (distance (pcs s t)) as n eqn:Hn.
  assert (n ≤ 3) as Hle by (subst n; destruct (pcs s t); cbn; lia).
  revert s Hl Hp Hn. induction n as [|n IH]; intros s Hl Hp Hn.
  { destruct (pcs s t) eqn:E; cbn in Hn; done. }
  destruct (free_step t s Hl Hp) as (s1 & Hs & Hd & Hor). cbn. rewrite Hs. cbn.
  destruct (decide (pcs s1 t = Held)) as [Hh|Hh].
  - rewrite Hh in Hd. cbn in Hd. assert (n = 0) as -> by lia. by exists s1.
  - destruct (IH ltac:(lia) s1) as (s2 & He & Hh2 & _); [by destruct Hor|done|lia|].
    exists s2. split_and!; [done|done|lia].
Qed.

End Spinlock.
