(* ===== verification/SpinlockMCS.v ===== *)
(** * The queue lock ([spinlock_mcs.hpp])

    The tail of the queue, a node per thread and, per thread, a program counter;
    one step is one access to shared memory, and reading [tail_] for the
    argument of the compare and swap is a step of its own. *)

From S2P Require Import Prelude.

Module SpinlockMCS.

(** Node [t] is the one thread [t] passes to [lock] and [unlock]. *)
Record Node := mkNode { next : option nat; locked : bool }.

(** A thread in [lock()]: about to evaluate the argument [tail_]; about to
    compare and swap with the value read; about to set its flag; about to link
    itself behind its predecessor; spinning.  In [unlock()]: at the first test
    of [next]; at the compare and swap; waiting for a successor; about to wake
    it. *)
Inductive pc :=
  | Out | ReadTail | Swap (expected : option nat) | Flag (pred : nat) | Link (pred : nat)
  | Spin | Held | TestNext | Release | AwaitNext | Wake.

Record state := mkState { tail_ : option nat; nodes : nat → Node; pcs : nat → pc }.

Definition init (nodes : nat → Node) : state := mkState None nodes (λ _, Out).

Definition goto t p (s : state) : state := mkState (tail_ s) (nodes s) (upd t p (pcs s)).
Definition set_node t n (s : state) : state := mkState (tail_ s) (upd t n (nodes s)) (pcs s).
Definition set_next t x (s : state) := set_node t (mkNode x (locked (nodes s t))) s.
Definition set_locked t b (s : state) := set_node t (mkNode (next (nodes s t)) b) s.

(** [__sync_val_compare_and_swap(&tail_, expected, value)]: the value found. *)
Definition cas_tail (expected value : option nat) (s : state) : option nat * state :=
  (tail_ s, if decide (tail_ s = expected) then mkState value (nodes s) (pcs s) else s).

Definition lock_step (t : nat) (p : pc) (s : state) : option state :=
  match p with
  | Out => Some (goto t ReadTail (set_next t None s))
  | ReadTail => Some (goto t (Swap (tail_ s)) s)
  | Swap expected =>
    let '(predecessor, s) := cas_tail expected (Some t) s in
    Some (goto t (match predecessor with Some q => Flag q | None => Held end) s)
  | Flag q => Some (goto t (Link q) (set_locked t true s))
  | Link q => Some (goto t Spin (set_next q (Some t) s))
  | Spin => Some (if locked (nodes s t) then s else goto t Held s)
  | _ => None
  end.

Definition unlock_step (t : nat) (p : pc) (s : state) : option state :=
  match p with
  | Held => Some (goto t TestNext s)
  | TestNext => Some (goto t (match next (nodes s t) with None => Release | Some _ => Wake end) s)
  | Release =>
    let '(old, s) := cas_tail (Some t) None s in
    Some (goto t (if decide (old = Some t) then Out else AwaitNext) s)
  | AwaitNext => Some (match next (nodes s t) with None => s | Some _ => goto t Wake s end)
  | Wake => q ← next (nodes s t); Some (goto t Out (set_locked q false s))
  | _ => None
  end.

Definition step (t : nat) (s : state) : option state :=
  match pcs s t with
  | Held | TestNext | Release | AwaitNext | Wake => unlock_step t (pcs s t) s
  | p => lock_step t p s
  end.

(** The lock does not exclude: a thread that read [tail_] before the holder
    released the lock finds it empty at its compare and swap, takes the failed
    exchange for an acquisition, and a third thread gets the lock as well. *)
Lemma mcs_two_holders nodes :
  ∃ sched s, exec step sched (init nodes) = Some s ∧ pcs s 1 = Held ∧ pcs s 2 = Held.
Proof.
  exists [0; 0; 0; 1; 1; 0; 0; 0; 1; 2; 2; 2]. eexists.
  split; [reflexivity|]. split; reflexivity.
Qed.

(** *** Exclusion when the exchange succeeds *)

(** The exchange of [lock()] finds the tail it read. *)
Definition undisturbed (t : nat) (s : state) : Prop :=
  match pcs s t with Swap e => tail_ s = e | _ => True end.

#[global] Instance undisturbed_dec t s : Decision (undisturbed t s).
Proof. unfold undisturbed. destruct (pcs s t); apply _. Defined.

(** Executions in which that is always so. *)
Definition calm_step (t : nat) (s : state) : option state :=
  if decide (undisturbed t s) then step t s else None.

(** [b] is behind [a] in the queue: not yet linked, or linked and spinning. *)
Definition behind s (a b : nat) : Prop :=
  (pcs s b = Flag a ∧ next (nodes s a) = None) ∨
  (pcs s b = Link a ∧ next (nodes s a) = None ∧ locked (nodes s b) = true) ∨
  (pcs s b = Spin ∧ next (nodes s a) = Some b ∧ locked (nodes s b) = true).

(** Every thread of the queue is behind the one before it; the last has no
    successor. *)
Definition links s (q : list nat) : Prop :=
  (∀ i x y, q !! i = Some x → q !! S i = Some y → behind s x y) ∧
  (∀ x, last q = Some x → next (nodes s x) = None).

(** The first of the queue holds the lock, is releasing it, or was woken. *)
Definition front s (a : nat) (q : list nat) : Prop :=
  match pcs s a with
  | Held | TestNext | Release => True
  | AwaitNext => 1 < length q
  | Wake => next (nodes s a) ≠ None
  | Spin => locked (nodes s a) = false
  | _ => False
  end.

Definition outside s (t : nat) : Prop :=
  match pcs s t with
  | Out => True
  | ReadTail | Swap _ => next (nodes s t) = None
  | _ => False
  end.

(** The threads in the queue, in order. *)
Record queued s (q : list nat) : Prop := {
  q_nodup : NoDup q;
  q_tail : tail_ s = last q;
  q_out : ∀ t, t ∉ q → outside s t;
  q_front : ∀ a, q !! 0 = Some a → front s a q;
  q_links : links s q
}.

Lemma queued_init ns : queued (init ns) [].
Proof. by split; [constructor|done|done|done|split]. Qed.

(** A thread of the queue that is not in front has one before it. *)
Lemma queued_behind s q t :
  queued s q → t ∈ q → ¬ front s t q → ∃ i x, q !! i = Some x ∧ q !! S i = Some t ∧ behind s x t.
Proof.
  intros Hq [i Hi]%list_elem_of_lookup Hf. destruct i as [|i].
  { destruct Hf. by apply Hq. }
  destruct (lookup_lt_is_Some_2 q i) as [x Hx]; [apply lookup_lt_Some in Hi; lia|].
  exists i, x. split_and!; [done|done|]. by eapply (q_links _ _ Hq).
Qed.

Lemma queued_in s q t : queued s q → ¬ outside s t → t ∈ q.
Proof. intros Hq Ho. destruct (decide (t ∈ q)); [done|]. by destruct Ho; apply (q_out _ _ Hq). Qed.

Lemma NoDup_place (q : list nat) i j x : NoDup q → q !! i = Some x → q !! j = Some x → i = j.
Proof. intros. by eapply NoDup_lookup. Qed.

Lemma last_place (q : list nat) i x y :
  NoDup q → q !! i = Some x → q !! S i = Some y → last q ≠ Some x.
Proof.
  intros Hn Hx Hy Hl. rewrite last_lookup in Hl.
  pose proof (NoDup_place _ _ _ _ Hn Hx Hl). apply lookup_lt_Some in Hy. lia.
Qed.

(** A thread in front is the first of the queue: the others spin on a raised
    flag or have not linked themselves. *)
Lemma queued_first s q t : queued s q → ¬ outside s t → front s t q → q !! 0 = Some t.
Proof.
  intros Hq Ho Hf. pose proof (queued_in _ _ _ Hq Ho) as Hin.
  apply list_elem_of_lookup in Hin as [[|i] Hi]; [done|]. exfalso.
  destruct (lookup_lt_is_Some_2 q i) as [x Hx]; [apply lookup_lt_Some in Hi; lia|].
  destruct (q_links _ _ Hq) as [Hb _]. specialize (Hb i x t Hx Hi). unfold front, behind in *.
  destruct Hb as [[E _]|[[E _]|(E & _ & Hl)]]; rewrite E in Hf; congruence.
Qed.

(** *** What each kind of step does to the queue *)

(** A thread outside stays outside. *)
Lemma queued_outside s s' t q :
  queued s q → t ∉ q → tail_ s' = tail_ s →
  (∀ u, u ≠ t → nodes s' u = nodes s u ∧ pcs s' u = pcs s u) → outside s' t → queued s' q.
Proof.
  intros [H1 H2 H3 H4 [H5 H6]] Ht Htl Hu Ho.
  assert (∀ x i, q !! i = Some x → nodes s' x = nodes s x ∧ pcs s' x = pcs s x) as Hne.
  { intros x i Hx. apply Hu. intros ->. by apply Ht, list_elem_of_lookup_2 with i. }
  split; [done|by rewrite Htl| | |split].
  - intros u Huq. destruct (decide (u = t)) as [->|Hut]; [done|].
    specialize (H3 u Huq). unfold outside in *. by destruct (Hu u Hut) as [-> ->].
  - intros a Ha. specialize (H4 a Ha). unfold front in *. by destruct (Hne a 0 Ha) as [-> ->].
  - intros i x y Hx Hy. specialize (H5 i x y Hx Hy). unfold behind in *.
    destruct (Hne x i Hx) as [-> _], (Hne y (S i) Hy) as [-> ->]. done.
  - intros x Hx. pose proof Hx as Hx'. rewrite last_lookup in Hx'.
    destruct (Hne x _ Hx') as [-> _]. by apply H6.
Qed.

(** The threads that have not yet exchanged the tail are not in the queue. *)
Lemma queued_away s q t :
  queued s q → match pcs s t with Out | ReadTail | Swap _ => True | _ => False end → t ∉ q.
Proof.
  intros Hq Hp [[|i] Hi]%list_elem_of_lookup.
  - pose proof (q_front _ _ Hq t Hi) as Hf. unfold front in Hf. by destruct (pcs s t).
  - destruct (lookup_lt_is_Some_2 q i) as [x Hx]; [apply lookup_lt_Some in Hi; lia|].
    destruct (q_links _ _ Hq) as [Hb _]. specialize (Hb i x t Hx Hi). unfold behind in Hb.
    destruct Hb as [[E _]|[[E _]|[E _]]]; by rewrite E in Hp.
Qed.

(** The first thread moves on, keeping its node. *)
Lemma queued_front s t p q :
  queued s q → q !! 0 = Some t → front (goto t p s) t q → queued (goto t p s) q.
Proof.
  intros [H1 H2 H3 H4 [H5 H6]] Ht Hf. split; [done|done| | |split; [|done]].
  - intros u Hu. specialize (H3 u Hu). unfold outside in *. cbn.
    rewrite upd_ne; [done|]. intros ->. by apply Hu, list_elem_of_lookup_2 with 0.
  - intros a Ha. by assert (a = t) as -> by congruence.
  - intros i x y Hx Hy. specialize (H5 i x y Hx Hy). unfold behind in *. cbn.
    rewrite upd_ne; [done|]. intros ->. pose proof (NoDup_place _ _ _ _ H1 Ht Hy). lia.
Qed.

(** A thread behind [x] raises its flag. *)
Lemma queued_flag s t x i q :
  queued s q → q !! i = Some x → q !! S i = Some t → pcs s t = Flag x →
  queued (goto t (Link x) (set_locked t true s)) q.
Proof.
  intros [H1 H2 H3 H4 [H5 H6]] Hx Ht Hp.
  assert (∀ y, next (nodes (goto t (Link x) (set_locked t true s)) y) = next (nodes s y)) as Hn.
  { intros y. cbn. by upd_cases y t. }
  split; [done|done| | |split].
  - intros u Hu. specialize (H3 u Hu). unfold outside in *. cbn.
    rewrite !upd_ne; [done| |]; intros ->; by apply Hu, list_elem_of_lookup_2 with (S i).
  - intros a Ha. specialize (H4 a Ha). unfold front in *. cbn.
    rewrite !upd_ne; [done| |]; intros ->; pose proof (NoDup_place _ _ _ _ H1 Ht Ha); lia.
  - intros j y z Hy Hz. specialize (H5 j y z Hy Hz). unfold behind in *. rewrite Hn.
    destruct (decide (z = t)) as [->|Hne]; cbn.
    + rewrite !upd_eq. pose proof (NoDup_place _ _ _ _ H1 Ht Hz) as [= <-].
      assert (y = x) as -> by congruence. right. left. split_and!; [done| |done].
      destruct H5 as [[_ E]|[[E _]|[E _]]]; [done|congruence|congruence].
    + rewrite !(upd_ne t z) by done. done.
  - intros y Hy. rewrite Hn. by apply H6.
Qed.

(** A thread links itself behind [x]. *)
Lemma queued_link s t x i q :
  queued s q → q !! i = Some x → q !! S i = Some t → pcs s t = Link x →
  queued (goto t Spin (set_next x (Some t) s)) q.
Proof.
  intros [H1 H2 H3 H4 [H5 H6]] Hx Ht Hp.
  assert (x ≠ t) as Hxt by (intros ->; pose proof (NoDup_place _ _ _ _ H1 Hx Ht); lia).
  assert (∀ y, locked (nodes (goto t Spin (set_next x (Some t) s)) y) = locked (nodes s y)) as Hl.
  { intros y. cbn. by upd_cases y x. }
  split; [done|done| | |split].
  - intros u Hu. specialize (H3 u Hu). unfold outside in *. cbn.
    rewrite !upd_ne; [done| |]; intros ->;
      [by apply Hu, list_elem_of_lookup_2 with i|by apply Hu, list_elem_of_lookup_2 with (S i)].
  - intros a Ha. specialize (H4 a Ha). unfold front in *. rewrite Hl. cbn.
    rewrite (upd_ne t a); [|intros ->; pose proof (NoDup_place _ _ _ _ H1 Ht Ha); lia].
    destruct (pcs s a); try done. by upd_cases a x.
  - intros j y z Hy Hz. pose proof (H5 j y z Hy Hz) as Hb. unfold behind in *. rewrite Hl.
    destruct (decide (z = t)) as [->|Hzt]; cbn.
    + pose proof (NoDup_place _ _ _ _ H1 Ht Hz) as [= <-].
      assert (y = x) as -> by congruence. rewrite !upd_eq. right. right.
      split_and!; [done|done|]. destruct Hb as [[E _]|[(_ & _ & E)|[E _]]]; congruence.
    + rewrite (upd_ne t z) by done. rewrite (upd_ne x y); [done|].
      intros ->. pose proof (NoDup_place _ _ _ _ H1 Hx Hy) as <-. congruence.
  - intros y Hy. cbn. rewrite upd_ne; [by apply H6|]. intros ->.
    exact (last_place q i x t H1 Hx Ht Hy).
Qed.

(** A thread joins the queue. *)
Lemma queued_push s t p q :
  queued s q → t ∉ q → next (nodes s t) = None →
  p = match last q with Some x => Flag x | None => Held end →
  queued (goto t p (mkState (Some t) (nodes s) (pcs s))) (q ++ [t]).
Proof.
  intros [H1 H2 H3 H4 [H5 H6]] Ht Hn ->.
  assert (∀ i x, q !! i = Some x → x ≠ t) as Hne.
  { intros i x Hx ->. by apply Ht, list_elem_of_lookup_2 with i. }
  split.
  - apply NoDup_app. split_and!; [done| |apply NoDup_singleton].
    intros x Hx Hxt. apply list_elem_of_singleton in Hxt as ->. done.
  - by rewrite last_snoc.
  - intros u Hu. rewrite not_elem_of_app in Hu. destruct Hu as [Hu Hut].
    specialize (H3 u Hu). unfold outside in *. cbn. rewrite upd_ne; [done|].
    intros ->. apply Hut. by left.
  - intros a Ha. destruct q as [|b q]; cbn in *.
    { simplify_eq. unfold front. cbn. by rewrite upd_eq. }
    simplify_eq. specialize (H4 a eq_refl). unfold front in *. cbn.
    rewrite upd_ne by (apply (Hne 0); done). rewrite length_app. cbn.
    destruct (pcs s a); try done. lia.
  - split; [|intros x Hx; rewrite last_snoc in Hx; cbn; congruence].
    intros i x y Hx Hy. apply lookup_snoc_Some in Hy as [[Hi Hy]|[Hi ->]].
    + apply lookup_snoc_Some in Hx as [[_ Hx]|[-> _]]; [|lia].
      specialize (H5 i x y Hx Hy). unfold behind in *. cbn.
      rewrite upd_ne by (by eapply Hne). done.
    + apply lookup_snoc_Some in Hx as [[_ Hx]|[-> _]]; [|lia].
      assert (last q = Some x) as Hl by (rewrite last_lookup; rewrite <- Hi; done).
      unfold behind. cbn. rewrite upd_eq, Hl. left. auto.
Qed.

(** The first thread hands over to the second. *)
Lemma queued_wake s t b q :
  queued s (t :: q) → next (nodes s t) = Some b →
  queued (goto t Out (set_locked b false s)) q.
Proof.
  intros [H1 H2 H3 H4 [H5 H6]] Hn. apply NoDup_cons in H1 as [Htq Hq].
  destruct q as [|c q].
  { rewrite (H6 t eq_refl) in Hn. done. }
  pose proof (H5 0 t c eq_refl eq_refl) as Hb.
  assert (c = b ∧ pcs s b = Spin) as [-> Hsp].
  { destruct Hb as [[_ E]|[(_ & E & _)|(E & E' & _)]]; [congruence|congruence|].
    assert (c = b) as -> by congruence. done. }
  assert (b ≠ t) as Hbt by (intros ->; apply Htq; by left).
  assert (∀ x, next (nodes (goto t Out (set_locked b false s)) x) = next (nodes s x)) as Hnx.
  { intros x. cbn. by upd_cases x b. }
  split; [done|done| | |split].
  - intros u Hu. destruct (decide (u = t)) as [->|Hut].
    { unfold outside. cbn. by rewrite upd_eq. }
    specialize (H3 u). unfold outside in *. rewrite Hnx. cbn. rewrite upd_ne by done.
    apply H3. rewrite not_elem_of_cons. done.
  - intros a [= ->]. unfold front. cbn. rewrite upd_ne by done. rewrite Hsp, upd_eq. done.
  - intros i x y Hx Hy. specialize (H5 (S i) x y Hx Hy). unfold behind in *. rewrite Hnx. cbn.
    assert (y ≠ t) by (intros ->; apply Htq, list_elem_of_lookup_2 with (S i); done).
    assert (y ≠ b) by (intros ->; pose proof (NoDup_place _ (S i) 0 _ Hq Hy eq_refl); lia).
    rewrite !upd_ne by done. done.
  - intros x Hx. rewrite Hnx. apply H6. done.
Qed.

(** The only thread of the queue leaves. *)
Lemma queued_pop s t q :
  queued s q → q !! 0 = Some t → last q = Some t →
  queued (goto t Out (mkState None (nodes s) (pcs s))) [].
Proof.
  intros [H1 H2 H3 H4 _] Ht Hl. split; [constructor|done| |done|split; done].
  intros u _. unfold outside. destruct (decide (u = t)) as [->|Hne]; cbn.
  - by rewrite upd_eq.
  - rewrite upd_ne by done. apply H3. rewrite last_lookup in Hl.
    pose proof (NoDup_place _ _ _ _ H1 Ht Hl) as Hlen.
    destruct q as [|a [|b q]]; cbn in *; [done| |lia]. simplify_eq.
    by rewrite list_elem_of_singleton.
Qed.

(** *** The invariant *)

Definition Inv s : Prop := ∃ q, queued s q.

Lemma Inv_lock t s s' p :
  Inv s → pcs s t = p → undisturbed t s → lock_step t p s = Some s' → Inv s'.
Proof.
  intros [q Hq] Hp Hund Hs. destruct p as [| |e|x|x| | | | | |]; cbn in Hs; simplify_eq.
  - exists q. eapply (queued_outside s _ t); [done| |done| |].
    + eapply queued_away; [done|]. by rewrite Hp.
    + intros u Hu. cbn. by rewrite !upd_ne.
    + unfold outside. cbn. by rewrite !upd_eq.
  - assert (t ∉ q) as Ht by (eapply queued_away; [done|by rewrite Hp]).
    exists q. eapply (queued_outside s _ t); [done|done|done| |].
    + intros u Hu. cbn. by rewrite upd_ne.
    + pose proof (q_out _ _ Hq t Ht) as Ho. unfold outside in *. rewrite Hp in Ho. cbn.
      by rewrite upd_eq.
  - assert (t ∉ q) as Ht by (eapply queued_away; [done|by rewrite Hp]).
    unfold undisturbed in Hund. rewrite Hp in Hund. rewrite decide_True by done.
    pose proof (q_out _ _ Hq t Ht) as Ho. unfold outside in Ho. rewrite Hp in Ho.
    exists (q ++ [t]). eapply queued_push; [done|done|done|].
    by rewrite <- (q_tail _ _ Hq).
  - destruct (queued_behind s q t Hq) as (i & y & Hy & Ht & Hb).
    + eapply queued_in; [done|]. unfold outside. rewrite Hp. tauto.
    + unfold front. rewrite Hp. tauto.
    + assert (y = x) as ->.
      { destruct Hb as [[E _]|[[E _]|[E _]]]; rewrite Hp in E; congruence. }
      exists q. by eapply queued_flag.
  - destruct (queued_behind s q t Hq) as (i & y & Hy & Ht & Hb).
    + eapply queued_in; [done|]. unfold outside. rewrite Hp. tauto.
    + unfold front. rewrite Hp. tauto.
    + assert (y = x) as ->.
      { destruct Hb as [[E _]|[[E _]|[E _]]]; rewrite Hp in E; congruence. }
      exists q. by eapply queued_link.
  - exists q. destruct (locked (nodes s t)) eqn:Hl; [done|]. apply queued_front; [done| |].
    + eapply queued_first; [done| |]; unfold outside, front; rewrite Hp; tauto.
    + unfold front. cbn. by rewrite upd_eq.
Qed.

Lemma Inv_unlock t s s' p : Inv s → pcs s t = p → unlock_step t p s = Some s' → Inv s'.
Proof.
  intros [q Hq] Hp Hs.
  assert (match p with Held | TestNext | Release | AwaitNext | Wake => True | _ => False end) as Hpc.
  { by destruct p. }
  assert (q !! 0 = Some t) as Hfirst.
  { assert (t ∈ q) as Hin.
    { eapply queued_in; [done|]. unfold outside. rewrite Hp. destruct p; tauto. }
    destruct (decide (q !! 0 = Some t)) as [|Hne]; [done|]. exfalso.
    apply list_elem_of_lookup in Hin as [[|i] Hi]; [done|].
    destruct (lookup_lt_is_Some_2 q i) as [x Hx]; [apply lookup_lt_Some in Hi; lia|].
    destruct (q_links _ _ Hq) as [Hb _]. specialize (Hb i x t Hx Hi).
    destruct Hb as [[E _]|[[E _]|[E _]]]; rewrite Hp in E; by rewrite E in Hpc. }
  pose proof (q_front _ _ Hq t Hfirst) as Hf. unfold front in Hf. rewrite Hp in Hf.
  destruct p; try done; cbn in Hs.
  - simplify_eq. exists q. apply queued_front; [done|done|]. unfold front. cbn. by rewrite upd_eq.
  - simplify_eq. exists q. apply queued_front; [done|done|]. unfold front. cbn. rewrite upd_eq.
    destruct (next (nodes s t)); done.
  - destruct (decide (tail_ s = Some t)) as [Htl|Htl]; cbn in Hs; simplify_eq.
    + exists []. apply (queued_pop s t q); [done|done|]. by rewrite <- (q_tail _ _ Hq).
    + exists q. apply queued_front; [done|done|]. unfold front. cbn. rewrite upd_eq.
      rewrite (q_tail _ _ Hq), last_lookup in Htl.
      destruct q as [|a [|b q]]; cbn in *; [done|congruence|lia].
  - simplify_eq. exists q. destruct (next (nodes s t)) eqn:Hn; [|done].
    apply queued_front; [done|done|]. unfold front. cbn. rewrite upd_eq. congruence.
  - destruct (next (nodes s t)) as [b|] eqn:Hn; cbn in Hs; [|done]. simplify_eq.
    destruct q as [|t' q]; [done|]. cbn in Hfirst. simplify_eq. exists q. by apply queued_wake.
Qed.

Lemma Inv_calm t s s' : Inv s → calm_step t s = Some s' → Inv s'.
Proof.
  intros HI Hs. unfold calm_step in Hs. case_decide as Hu; [|done]. unfold step in Hs.
  destruct (pcs s t) eqn:Hp; first [by eapply Inv_lock|by eapply Inv_unlock].
Qed.

(**  Mutual exclusion as long as no thread changes the tail between
    another's reading it and its exchange: in such executions no two threads
    hold the lock or are in the middle of releasing it. *)
Lemma mcs_exclusive_when_undisturbed ns sched s t u :
  exec calm_step sched (init ns) = Some s → pcs s t = Held → pcs s u = Held → t = u.
Proof.
  intros He Ht Hu.
  destruct (exec_invariant calm_step Inv Inv_calm sched (init ns) s) as [q Hq]; [|done|].
  { exists []. apply queued_init. }
  assert (∀ x, pcs s x = Held → q !! 0 = Some x) as H0.
  { intros x Hx. eapply queued_first; [done| |]; unfold outside, front; rewrite Hx; tauto. }
  pose proof (H0 t Ht). pose proof (H0 u Hu). congruence.
Qed.

End SpinlockMCS.
