(* ===== verification/Locks.v ===== *)
(** * Mutexes, condition variables and notifications ([lock.hpp])

    The wrappers around the pthread objects, with the documented behaviour of
    those, and the class [Notification] built from them. *)

From S2P Require Import Prelude.

(** ** The pthread objects *)

(** A mutex is the thread that holds it.  [None] as a result: the call blocks
    ([lock]) or is not allowed ([unlock] by another thread). *)
Record Mutex := mkMutex { owner : option nat }.

Definition Mutex_init : Mutex := mkMutex None.

Definition Mutex_lock (t : nat) (m : Mutex) : option Mutex :=
  match owner m with None => Some (mkMutex (Some t)) | Some _ => None end.

Definition Mutex_unlock (t : nat) (m : Mutex) : option Mutex :=
  if decide (owner m = Some t) then Some (mkMutex None) else None.

(** A read-write mutex: the threads that hold it to read, or the one that
    holds it to write. *)
Record RWMutex := mkRWMutex { readers : gset nat; writer : option nat }.

Definition RWMutex_init : RWMutex := mkRWMutex ∅ None.

Definition RWMutex_rLock (t : nat) (m : RWMutex) : option RWMutex :=
  match writer m with None => Some (mkRWMutex ({[t]} ∪ readers m) None) | Some _ => None end.

Definition RWMutex_wLock (t : nat) (m : RWMutex) : option RWMutex :=
  if decide (writer m = None ∧ readers m = ∅) then Some (mkRWMutex ∅ (Some t)) else None.

Definition RWMutex_unlock (t : nat) (m : RWMutex) : option RWMutex :=
  if decide (writer m = Some t) then Some (mkRWMutex (readers m) None)
  else if decide (t ∈ readers m) then Some (mkRWMutex (readers m ∖ {[t]}) (writer m))
  else None.

(** A condition variable is the set of the threads that sleep on it. *)
Record ConditionVar := mkCV { sleepers : gset nat }.

Definition CV_init : ConditionVar := mkCV ∅.

(** [wait]: the mutex is released and the thread sleeps, in one action. *)
Definition CV_wait (t : nat) (cv : ConditionVar) (m : Mutex) : option (ConditionVar * Mutex) :=
  m ← Mutex_unlock t m; Some (mkCV ({[t]} ∪ sleepers cv), m).

(** [signal] wakes [w], one of the sleepers; nobody only if nobody sleeps. *)
Definition CV_signal (w : option nat) (cv : ConditionVar) : option ConditionVar :=
  match w with
  | Some w => if decide (w ∈ sleepers cv) then Some (mkCV (sleepers cv ∖ {[w]})) else None
  | None => if decide (sleepers cv = ∅) then Some cv else None
  end.

Definition CV_signalAll (cv : ConditionVar) : ConditionVar := mkCV ∅.

(** ** Notifications *)

Module Notification.

(** In [wait()]: about to lock; about to test the flag; about to sleep; asleep
    or woken; about to unlock.  In [notify()] and [reset()] likewise. *)
Inductive pc :=
  | Out
  | WaitLock | WaitTest | WaitSleep | Asleep | WaitUnlock
  | NotifyLock | NotifySet | NotifySignal | NotifyUnlock
  | ResetLock | ResetSet | ResetUnlock.

Record state := mkState {
  m_ : Mutex;
  cv_ : ConditionVar;
  notified_ : bool;
  pcs : nat → pc
}.

Definition init : state := mkState Mutex_init CV_init false (λ _, Out).

(** A thread calls one of the operations, goes on, goes on with a choice of the
    thread its signal wakes, or wakes up without a signal. *)
Inductive label := Wait (t : nat) | Notify (t : nat) | Reset (t : nat)
  | Go (t : nat) | Signal (t : nat) (w : option nat) | Spurious (w : nat).

Definition goto t p (s : state) : state := mkState (m_ s) (cv_ s) (notified_ s) (upd t p (pcs s)).
Definition set_mutex m (s : state) : state := mkState m (cv_ s) (notified_ s) (pcs s).
Definition set_cv c (s : state) : state := mkState (m_ s) c (notified_ s) (pcs s).
Definition set_notified b (s : state) : state := mkState (m_ s) (cv_ s) b (pcs s).

(** The body of [wait]: lock, [while (!notified_) cv_.wait(&m_)], unlock. *)
Definition wait_step (t : nat) (p : pc) (s : state) : option state :=
  match p with
  | WaitLock => m ← Mutex_lock t (m_ s); Some (goto t WaitTest (set_mutex m s))
  | WaitTest => Some (goto t (if notified_ s then WaitUnlock else WaitSleep) s)
  | WaitSleep => '(c, m) ← CV_wait t (cv_ s) (m_ s); Some (goto t Asleep (set_cv c (set_mutex m s)))
  | Asleep =>
    if decide (t ∈ sleepers (cv_ s)) then None
    else m ← Mutex_lock t (m_ s); Some (goto t WaitTest (set_mutex m s))
  | WaitUnlock => m ← Mutex_unlock t (m_ s); Some (goto t Out (set_mutex m s))
  | _ => None
  end.

(** The body of [notify]: lock, set the flag, signal, unlock. *)
Definition notify_step (t : nat) (p : pc) (s : state) : option state :=
  match p with
  | NotifyLock => m ← Mutex_lock t (m_ s); Some (goto t NotifySet (set_mutex m s))
  | NotifySet => Some (goto t NotifySignal (set_notified true s))
  | NotifyUnlock => m ← Mutex_unlock t (m_ s); Some (goto t Out (set_mutex m s))
  | _ => None
  end.

Definition notify_signal (t : nat) (w : option nat) (s : state) : option state :=
  c ← CV_signal w (cv_ s); Some (goto t NotifyUnlock (set_cv c s)).

(** The body of [reset]: lock, clear the flag, unlock. *)
Definition reset_step (t : nat) (p : pc) (s : state) : option state :=
  match p with
  | ResetLock => m ← Mutex_lock t (m_ s); Some (goto t ResetSet (set_mutex m s))
  | ResetSet => Some (goto t ResetUnlock (set_notified false s))
  | ResetUnlock => m ← Mutex_unlock t (m_ s); Some (goto t Out (set_mutex m s))
  | _ => None
  end.

Definition step (l : label) (s : state) : option state :=
  match l with
  | Wait t => match pcs s t with Out => Some (goto t WaitLock s) | _ => None end
  | Notify t => match pcs s t with Out => Some (goto t NotifyLock s) | _ => None end
  | Reset t => match pcs s t with Out => Some (goto t ResetLock s) | _ => None end
  | Go t =>
    match pcs s t with
    | WaitLock | WaitTest | WaitSleep | Asleep | WaitUnlock => wait_step t (pcs s t) s
    | NotifyLock | NotifySet | NotifyUnlock => notify_step t (pcs s t) s
    | ResetLock | ResetSet | ResetUnlock => reset_step t (pcs s t) s
    | Out | NotifySignal => None
    end
  | Signal t w => match pcs s t with NotifySignal => notify_signal t w s | _ => None end
  | Spurious w =>
    if decide (w ∈ sleepers (cv_ s)) then Some (set_cv (mkCV (sleepers (cv_ s) ∖ {[w]})) s) else None
  end.

(** Where a thread holds the mutex. *)
Definition holds_mutex (p : pc) : bool :=
  match p with
  | WaitTest | WaitSleep | WaitUnlock | NotifySet | NotifySignal | NotifyUnlock
  | ResetSet | ResetUnlock => true
  | _ => false
  end.

(** Only [w] ever waits.  A thread holds the mutex exactly where it should; [w]
    goes to sleep only while the flag is down; and while the flag is up and [w]
    sleeps, some thread is about to signal. *)
Record Inv (w : nat) (s : state) : Prop := {
  i_mutex : ∀ t, holds_mutex (pcs s t) = true ↔ owner (m_ s) = Some t;
  i_sleep : ∀ t, t ∈ sleepers (cv_ s) → t = w ∧ pcs s t = Asleep;
  i_only : ∀ t, match pcs s t with
                | WaitLock | WaitTest | WaitSleep | Asleep | WaitUnlock => t = w
                | _ => True end;
  i_flag : pcs s w = WaitSleep → notified_ s = false;
  i_wake : notified_ s = true → w ∈ sleepers (cv_ s) → ∃ n, pcs s n = NotifySignal
}.

Definition waits_only (w : nat) (l : label) : Prop :=
  match l with Wait t => t = w | _ => True end.

Lemma Inv_initial w : Inv w init.
Proof. split; cbn; try done; set_solver. Qed.

(** The three ways in which a step treats the mutex. *)
Definition mutex_ok (m : Mutex) (f : nat → pc) : Prop :=
  ∀ t, holds_mutex (f t) = true ↔ owner m = Some t.

Lemma mutex_keep m f t p :
  mutex_ok m f → holds_mutex p = holds_mutex (f t) → mutex_ok m (upd t p f).
Proof. intros Hm Hp u. specialize (Hm u). upd_cases u t; [by rewrite Hp|done]. Qed.

Lemma mutex_take m m' f t p :
  mutex_ok m f → Mutex_lock t m = Some m' → holds_mutex p = true → mutex_ok m' (upd t p f).
Proof.
  unfold Mutex_lock. intros Hm Hl Hp u. destruct (owner m) eqn:Ho; [done|]. simplify_eq. cbn.
  specialize (Hm u). rewrite Ho in Hm. upd_cases u t; [by rewrite Hp|].
  split; intros H; [by apply Hm in H|congruence].
Qed.

Lemma mutex_drop m m' f t p :
  mutex_ok m f → Mutex_unlock t m = Some m' → holds_mutex p = false → mutex_ok m' (upd t p f).
Proof.
  unfold Mutex_unlock. intros Hm Hl Hp u. case_decide as Ho; [|done]. simplify_eq. cbn.
  specialize (Hm u). rewrite Ho in Hm. upd_cases u t; [by rewrite Hp|].
  split; intros H; [apply Hm in H; congruence|done].
Qed.

Lemma mutex_unique m f t u :
  mutex_ok m f → holds_mutex (f t) = true → holds_mutex (f u) = true → t = u.
Proof. intros Hm Ht%Hm Hu%Hm. congruence. Qed.

(** A move of [t] that leaves the flag and the sleepers alone. *)
Lemma Inv_move w s s' t p :
  Inv w s → cv_ s' = cv_ s → notified_ s' = notified_ s → pcs s' = upd t p (pcs s) →
  mutex_ok (m_ s') (pcs s') →
  match p with WaitLock | WaitTest | WaitSleep | Asleep | WaitUnlock => t = w | _ => True end →
  (p = WaitSleep → notified_ s = false) → t ∉ sleepers (cv_ s) → pcs s t ≠ NotifySignal →
  Inv w s'.
Proof.
  intros [H1 H2 H3 H4 H5] Hc Hn Hp Hm Ho Hf Hs Ht.
  split; [done| | | |]; rewrite ?Hc, ?Hn, ?Hp.
  - intros u Hu. destruct (H2 u Hu) as [-> Hw]. split; [done|]. rewrite upd_ne; [done|congruence].
  - intros u. specialize (H3 u). upd_cases u t; [done|done].
  - intros Hw. upd_cases w t; auto.
  - intros Hf' Hw. destruct (H5 Hf' Hw) as [n Hn']. exists n. rewrite upd_ne; [done|congruence].
Qed.

Lemma awake w s t : Inv w s → pcs s t ≠ Asleep → t ∉ sleepers (cv_ s).
Proof. intros HI Hp Hin. by destruct (i_sleep _ _ HI t Hin). Qed.

Lemma Inv_wait w s s' t p :
  Inv w s → pcs s t = p → wait_step t p s = Some s' → Inv w s'.
Proof.
  intros HI Hp Hs. pose proof (i_mutex _ _ HI) as Hm. pose proof (i_only _ _ HI t) as Ho.
  rewrite Hp in Ho. destruct p; try done; subst t; cbn in Hs.
  - destruct (Mutex_lock w (m_ s)) as [m|] eqn:El; cbn in Hs; simplify_eq.
    eapply (Inv_move _ s _ w WaitTest); try done; [by eapply mutex_take|eapply awake|]; eauto; congruence.
  - simplify_eq. eapply (Inv_move _ s _ w); try done.
    + eapply mutex_keep; [done|]. rewrite Hp. by destruct (notified_ s).
    + by destruct (notified_ s).
    + by destruct (notified_ s).
    + eapply awake; [done|congruence].
    + congruence.
  - unfold CV_wait in Hs. destruct (Mutex_unlock w (m_ s)) as [m|] eqn:El; cbn in Hs; simplify_eq.
    pose proof HI as [H1 H2 H3 H4 H5]. split; cbn.
    + by eapply mutex_drop.
    + intros u [->%elem_of_singleton|Hu]%elem_of_union; [by rewrite upd_eq|].
      destruct (H2 u Hu) as [-> _]. by rewrite upd_eq.
    + intros u. specialize (H3 u). upd_cases u w; done.
    + by rewrite upd_eq.
    + intros Hf. rewrite H4 in Hf by done. done.
  - case_decide as Hsl; [done|].
    destruct (Mutex_lock w (m_ s)) as [m|] eqn:El; cbn in Hs; simplify_eq.
    eapply (Inv_move _ s _ w WaitTest); try done; [by eapply mutex_take|congruence].
  - destruct (Mutex_unlock w (m_ s)) as [m|] eqn:El; cbn in Hs; simplify_eq.
    eapply (Inv_move _ s _ w Out); try done; [by eapply mutex_drop|eapply awake|]; eauto; congruence.
Qed.

(** Raising the flag: the thread that does it is the one about to signal. *)
Lemma Inv_raise w s t :
  Inv w s → pcs s t = NotifySet → Inv w (goto t NotifySignal (set_notified true s)).
Proof.
  intros [H1 H2 H3 H4 H5] Hp. split; cbn.
  - eapply mutex_keep; [done|]. by rewrite Hp.
  - intros u Hu. destruct (H2 u Hu) as [-> Hw]. split; [done|]. rewrite upd_ne; [done|congruence].
  - intros u. specialize (H3 u). upd_cases u t; done.
  - intros Hw. upd_cases w t; [done|]. exfalso.
    assert (w = t) by (eapply mutex_unique; [exact H1| |]; by rewrite ?Hw, ?Hp). congruence.
  - intros _ _. exists t. by rewrite upd_eq.
Qed.

(** Clearing the flag. *)
Lemma Inv_clear w s t :
  Inv w s → pcs s t = ResetSet → Inv w (goto t ResetUnlock (set_notified false s)).
Proof.
  intros [H1 H2 H3 H4 H5] Hp. split; cbn; try done.
  - eapply mutex_keep; [done|]. by rewrite Hp.
  - intros u Hu. destruct (H2 u Hu) as [-> Hw]. split; [done|]. rewrite upd_ne; [done|congruence].
  - intros u. specialize (H3 u). upd_cases u t; done.
Qed.

Lemma Inv_others w s s' t p :
  Inv w s → pcs s t = p → notify_step t p s = Some s' ∨ reset_step t p s = Some s' → Inv w s'.
Proof.
  intros HI Hp Hs. pose proof (i_mutex _ _ HI) as Hm.
  destruct p; cbn in Hs; (destruct Hs as [Hs|Hs]; [try done|try done]).
  all: try (destruct (Mutex_lock t (m_ s)) as [m|] eqn:El; cbn in Hs; [simplify_eq|done];
    eapply (Inv_move _ s _ t); try reflexivity; try done;
    [by eapply mutex_take|eapply awake; [done|congruence]|congruence]).
  all: try (destruct (Mutex_unlock t (m_ s)) as [m|] eqn:El; cbn in Hs; [simplify_eq|done];
    eapply (Inv_move _ s _ t); try reflexivity; try done;
    [by eapply mutex_drop|eapply awake; [done|congruence]|congruence]).
  - simplify_eq. by apply Inv_raise.
  - simplify_eq. by apply Inv_clear.
Qed.

(** After a signal, or a wake-up without one, [w] does not sleep. *)
Lemma Inv_woken w s s' :
  Inv w s → m_ s' = m_ s → notified_ s' = notified_ s → w ∉ sleepers (cv_ s') →
  sleepers (cv_ s') ⊆ sleepers (cv_ s) → mutex_ok (m_ s') (pcs s') →
  (∀ t, pcs s' t = pcs s t ∨ pcs s t = NotifySignal ∧ pcs s' t = NotifyUnlock) → Inv w s'.
Proof.
  intros [H1 H2 H3 H4 H5] Em En Hw Hsub Hm Hp. split; [done| | | |].
  - intros t Ht. destruct (H2 t (Hsub t Ht)) as [-> _]. done.
  - intros t. specialize (H3 t). destruct (Hp t) as [->|[_ ->]]; done.
  - rewrite En. destruct (Hp w) as [->|[_ ->]]; done.
  - done.
Qed.

Lemma Inv_signal w s s' t x :
  Inv w s → pcs s t = NotifySignal → notify_signal t x s = Some s' → Inv w s'.
Proof.
  intros HI Hp Hs. unfold notify_signal in Hs.
  destruct (CV_signal x (cv_ s)) as [c|] eqn:Ec; cbn in Hs; [simplify_eq|done].
  assert ((w ∉ sleepers c) ∧ sleepers c ⊆ sleepers (cv_ s)) as [Hw Hsub].
  { unfold CV_signal in Ec. destruct x as [x|]; case_decide as Hx; simplify_eq; cbn; [|set_solver].
    destruct (i_sleep _ _ HI x Hx) as [-> _]. set_solver. }
  eapply Inv_woken; try done.
  - eapply mutex_keep; [exact (i_mutex _ _ HI)|]. cbn. by rewrite Hp.
  - intros u. cbn. upd_cases u t; auto.
Qed.

Lemma Inv_notification w l s s' : waits_only w l → Inv w s → step l s = Some s' → Inv w s'.
Proof.
  intros Hl HI Hs. pose proof (i_mutex _ _ HI) as Hm.
  assert (∀ t p, pcs s t = Out → holds_mutex p = false →
     match p with WaitLock | WaitTest | WaitSleep | Asleep | WaitUnlock => t = w | _ => True end →
     p ≠ WaitSleep → Inv w (goto t p s)) as Hcall.
  { intros t p Hp Hh Ho Hns. eapply (Inv_move _ s _ t); try reflexivity; try done.
    - eapply mutex_keep; [done|]. by rewrite Hp.
    - eapply awake; [done|congruence].
    - congruence. }
  destruct l as [t|t|t|t|t x|x]; cbn in Hs.
  - destruct (pcs s t) eqn:Hp; simplify_eq. by apply Hcall.
  - destruct (pcs s t) eqn:Hp; simplify_eq. by apply Hcall.
  - destruct (pcs s t) eqn:Hp; simplify_eq. by apply Hcall.
  - destruct (pcs s t) eqn:Hp; try done; first [by eapply Inv_wait|eapply Inv_others; eauto].
  - destruct (pcs s t) eqn:Hp; try done. by eapply Inv_signal.
  - case_decide as Hx; simplify_eq. destruct (i_sleep _ _ HI x Hx) as [-> _].
    eapply Inv_woken; try done; cbn; [set_solver|set_solver|auto].
Qed.

Lemma Inv_exec w sched : ∀ s s',
  Forall (waits_only w) sched → Inv w s → exec step sched s = Some s' → Inv w s'.
Proof.
  induction sched as [|l sched IH]; intros s s' Hf HI He; cbn in He; [by simplify_eq|].
  apply Forall_cons in Hf as [Hl Hf].
  destruct (step l s) as [s1|] eqn:E; cbn in He; [|done].
  eapply IH; [done| |done]. by eapply Inv_notification.
Qed.

(**  No wake-up is lost when one thread waits: in whatever order waits,
    notifications and resets interleave, spurious wake-ups included, if the
    notification is up and the waiting thread sleeps then a notifier holds the
    mutex and is about to signal, and its signal wakes the sleeper. *)
Lemma notification_reaches_waiter w sched s :
  Forall (waits_only w) sched → exec step sched init = Some s →
  notified_ s = true → w ∈ sleepers (cv_ s) → ∃ n s',
    pcs s n = NotifySignal ∧ owner (m_ s) = Some n ∧
    step (Signal n (Some w)) s = Some s' ∧ w ∉ sleepers (cv_ s').
Proof.
  intros Hf He Hn Hw. pose proof (Inv_exec w sched _ _ Hf (Inv_initial w) He) as HI.
  destruct (i_wake _ _ HI Hn Hw) as [n Hp]. eexists n, _. split_and!; [done| | |].
  - apply (i_mutex _ _ HI). by rewrite Hp.
  - cbn. rewrite Hp. unfold notify_signal, CV_signal. rewrite decide_True by done. done.
  - cbn. set_solver.
Qed.

(** With two waiting threads one notification can leave one of them asleep
    for good: the flag is up, nobody holds the mutex or is about to signal, and
    no thread but a new caller can move. *)
Lemma notification_wakes_only_one :
  ∃ sched s, exec step sched init = Some s ∧ notified_ s = true ∧
    0 ∈ sleepers (cv_ s) ∧ owner (m_ s) = None ∧
    (∀ t, step (Go t) s = None) ∧ (∀ t w, step (Signal t w) s = None).
Proof.
  exists [Wait 0; Wait 1; Go 0; Go 0; Go 0; Go 1; Go 1; Go 1; Notify 2; Go 2; Go 2;
          Signal 2 (Some 1); Go 2; Go 1; Go 1; Go 1].
  eexists. split; [reflexivity|]. split_and!; [done|set_solver|done| |].
  - intros [|[|[|t]]]; reflexivity.
  - intros [|[|[|t]]] w; reflexivity.
Qed.
End Notification.
