(* ===== verification/Barrier.v ===== *)
(** * The thread barrier ([thread_barrier.hpp])

    Two semaphores and a counter.  One step is one semaphore operation or one
    access to the counter.  The threads are the participants; with each goes
    the number of calls of [wait()] it has completed. *)

From S2P Require Import Prelude.

Module Barrier.

(** In [wait()]: about to increment the counter; about to post after that;
    about to wait for the departure; about to decrement; about to post after
    that. *)
Inductive pc := Out | Incr | PostArrival | WaitDeparture | Decr | PostDeparture.

Record thread := mkThread { at_ : pc; completed : nat }.

Record state := mkState {
  arrival_ : nat;
  departure_ : nat;
  num_participants_ : Z;
  counter_ : Z;
  threads : list thread
}.

(** The constructor, and the participants outside. *)
Definition make (n : nat) : state := mkState 1 0 (Z.of_nat n) 0 (replicate n (mkThread Out 0)).

(** [sem_wait]: blocks at 0. *)
Definition sem_wait (v : nat) : option nat := match v with 0 => None | S v => Some v end.
Definition sem_post (v : nat) : nat := S v.

Definition step (t : nat) (s : state) : option state :=
  th ← threads s !! t;
  let n := num_participants_ s in
  let c := counter_ s in
  let goto p := <[t := mkThread p (completed th)]> (threads s) in
  match at_ th with
  | Out => a ← sem_wait (arrival_ s); Some (mkState a (departure_ s) n c (goto Incr))
  | Incr => Some (mkState (arrival_ s) (departure_ s) n (c + 1) (goto PostArrival))
  | PostArrival =>
    if decide (c < n)%Z
    then Some (mkState (sem_post (arrival_ s)) (departure_ s) n c (goto WaitDeparture))
    else Some (mkState (arrival_ s) (sem_post (departure_ s)) n c (goto WaitDeparture))
  | WaitDeparture => d ← sem_wait (departure_ s); Some (mkState (arrival_ s) d n c (goto Decr))
  | Decr => Some (mkState (arrival_ s) (departure_ s) n (c - 1) (goto PostDeparture))
  | PostDeparture =>
    let ths := <[t := mkThread Out (S (completed th))]> (threads s) in
    if decide (c > 0)%Z
    then Some (mkState (arrival_ s) (sem_post (departure_ s)) n c ths)
    else Some (mkState (sem_post (arrival_ s)) (departure_ s) n c ths)
  end.

(** ** Counting threads *)

#[global] Instance pc_eq_dec : EqDecision pc.
Proof. solve_decision. Defined.

Definition num (p : pc) : nat :=
  match p with Out => 0 | Incr => 1 | PostArrival => 2 | WaitDeparture => 3 | Decr => 4
             | PostDeparture => 5 end.
Definition one (p : pc) (th : thread) : nat := if num (at_ th) =? num p then 1 else 0.
Definition count (p : pc) (l : list thread) : nat := tally (one p) l.

Lemma count_insert p l t th th' :
  l !! t = Some th → count p (<[t := th']> l) + one p th = count p l + one p th'.
Proof. apply tally_insert. Qed.

Lemma one_sum x :
  one Out x + one Incr x + one PostArrival x + one WaitDeparture x + one Decr x +
  one PostDeparture x = 1.
Proof. unfold one. destruct x as [[] r]; reflexivity. Qed.

Lemma count_all l :
  count Out l + count Incr l + count PostArrival l + count WaitDeparture l + count Decr l +
  count PostDeparture l = length l.
Proof.
  unfold count. induction l as [|x l IH]; cbn; [done|].
  pose proof (one_sum x). lia.
Qed.

Lemma count_pos p l t th : l !! t = Some th → at_ th = p → 0 < count p l.
Proof.
  intros Ht <-. pose proof (tally_le (one (at_ th)) l t th Ht) as Hl.
  unfold one in Hl at 1. rewrite Nat.eqb_refl in Hl. exact Hl.
Qed.

Lemma count_ex p l : 0 < count p l → ∃ t th, l !! t = Some th ∧ at_ th = p.
Proof.
  intros (t & th & Ht & Ho)%tally_ex. exists t, th. split; [done|].
  unfold one in Ho. destruct p, (at_ th); cbn in Ho; done || lia.
Qed.

Arguments count : simpl never.

(** ** The two phases of a round *)

(** Everybody has completed [k] rounds; those who have counted themselves wait
    for the departure. *)
Record arriving (n k : nat) (s : state) : Prop := {
  a_len : length (threads s) = n;
  a_num : num_participants_ s = Z.of_nat n;
  a_token : arrival_ s + count Incr (threads s) + count PostArrival (threads s) = 1;
  a_closed : departure_ s = 0 ∧ count Decr (threads s) = 0 ∧ count PostDeparture (threads s) = 0;
  a_counter : counter_ s = Z.of_nat (count PostArrival (threads s) + count WaitDeparture (threads s));
  a_more : arrival_ s = 1 → (counter_ s < Z.of_nat n)%Z;
  a_round : ∀ t th, threads s !! t = Some th → completed th = k
}.

(** Everybody has arrived; those who have left have completed round [k + 1]. *)
Record departing (n k : nat) (s : state) : Prop := {
  d_len : length (threads s) = n;
  d_num : num_participants_ s = Z.of_nat n;
  d_token : departure_ s + count Decr (threads s) + count PostDeparture (threads s) = 1;
  d_closed : arrival_ s = 0 ∧ count Incr (threads s) = 0 ∧ count PostArrival (threads s) = 0;
  d_counter : counter_ s = Z.of_nat (count WaitDeparture (threads s) + count Decr (threads s));
  d_more : departure_ s = 1 → (0 < counter_ s)%Z;
  d_round : ∀ t th, threads s !! t = Some th →
    completed th = if decide (at_ th = Out) then S k else k
}.

Definition Inv (n : nat) (s : state) : Prop := ∃ k, arriving n k s ∨ departing n k s.

(** What a move of thread [t] does to all the counts at once. *)
Ltac move_counts l t th th' Ht :=
  pose proof (count_insert Out l t th th' Ht); pose proof (count_insert Incr l t th th' Ht);
  pose proof (count_insert PostArrival l t th th' Ht);
  pose proof (count_insert WaitDeparture l t th th' Ht);
  pose proof (count_insert Decr l t th th' Ht); pose proof (count_insert PostDeparture l t th th' Ht);
  unfold one in *; cbn in *.

Lemma round_insert (P : thread → Prop) (l : list thread) (t : nat) (th' : thread) :
  (∀ u th, l !! u = Some th → P th) → P th' → ∀ u th, <[t := th']> l !! u = Some th → P th.
Proof.
  intros Hl Hp u th Hu. apply list_lookup_insert_Some in Hu as [(<- & <- & _)|[_ Hu]]; eauto.
Qed.

Lemma arriving_step n k t s s' :
  arriving n k s → step t s = Some s' → arriving n k s' ∨ departing n k s'.
Proof.
  intros [Hl Hn Htok (Hd & H4 & H5) Hc Hm Hr] Hs. unfold step in Hs.
  destruct (threads s !! t) as [th|] eqn:Ht; cbn in Hs; [|done].
  pose proof (Hr t th Ht) as Hk. pose proof (count_all (threads s)) as Hall.
  destruct th as [p r]; cbn in *. subst r.
  destruct p; cbn in Hs.
  - destruct (arrival_ s) as [|a] eqn:Ea; cbn in Hs; [done|]. simplify_eq. left.
    move_counts (threads s) t (mkThread Out k) (mkThread Incr k) Ht.
    split; cbn; rewrite ?length_insert; try done; try (split_and!; lia); try (intros; lia).
    apply (round_insert (λ th, completed th = k)); done.
  - simplify_eq. left. move_counts (threads s) t (mkThread Incr k) (mkThread PostArrival k) Ht.
    split; cbn; rewrite ?length_insert; try done; try (split_and!; lia); try (intros; lia).
    apply (round_insert (λ th, completed th = k)); done.
  - pose proof (count_pos PostArrival _ t _ Ht eq_refl).
    move_counts (threads s) t (mkThread PostArrival k) (mkThread WaitDeparture k) Ht.
    case_decide as Hlt; simplify_eq; [left|right].
    + split; cbn; rewrite ?length_insert; try done; try (split_and!; lia); try (intros; lia).
      apply (round_insert (λ th, completed th = k)); done.
    + split; cbn; rewrite ?length_insert; try done; try (split_and!; lia); try (intros; lia).
      pose proof (count_all (<[t := mkThread WaitDeparture k]> (threads s))) as Hall'.
      rewrite length_insert in Hall'.
      intros u th Hu.
      assert (completed th = k) as Hth by exact (round_insert (λ th, completed th = k) (threads s) t
        (mkThread WaitDeparture k) Hr eq_refl u th Hu).
      rewrite decide_False; [done|]. intros Ho.
      pose proof (count_pos Out _ u _ Hu Ho). lia.
  - rewrite Hd in Hs. done.
  - pose proof (count_pos Decr _ t _ Ht eq_refl). lia.
  - pose proof (count_pos PostDeparture _ t _ Ht eq_refl). lia.
Qed.

Lemma departing_step n k t s s' :
  departing n k s → step t s = Some s' → departing n k s' ∨ arriving n (S k) s'.
Proof.
  intros [Hl Hn Htok (Ha & H4 & H5) Hc Hm Hr] Hs. unfold step in Hs.
  destruct (threads s !! t) as [th|] eqn:Ht; cbn in Hs; [|done].
  pose proof (Hr t th Ht) as Hk. pose proof (count_all (threads s)) as Hall.
  destruct th as [p r]; cbn in *.
  destruct p; cbn in Hs, Hk.
  - rewrite Ha in Hs. done.
  - pose proof (count_pos Incr _ t _ Ht eq_refl). lia.
  - pose proof (count_pos PostArrival _ t _ Ht eq_refl). lia.
  - rewrite decide_False in Hk by done. subst r.
    destruct (departure_ s) as [|d] eqn:Ed; cbn in Hs; [done|]. simplify_eq. left.
    move_counts (threads s) t (mkThread WaitDeparture k) (mkThread Decr k) Ht.
    split; cbn; rewrite ?length_insert; try done; try (split_and!; lia); try (intros; lia).
    apply (round_insert (λ th, completed th = if decide (at_ th = Out) then S k else k)); done.
  - rewrite decide_False in Hk by done. subst r.
    simplify_eq. left. move_counts (threads s) t (mkThread Decr k) (mkThread PostDeparture k) Ht.
    pose proof (count_pos Decr _ t _ Ht eq_refl).
    split; cbn; rewrite ?length_insert; try done; try (split_and!; lia); try (intros; lia).
    apply (round_insert (λ th, completed th = if decide (at_ th = Out) then S k else k)); done.
  - rewrite decide_False in Hk by done. subst r.
    pose proof (count_pos PostDeparture _ t _ Ht eq_refl).
    move_counts (threads s) t (mkThread PostDeparture k) (mkThread Out (S k)) Ht.
    case_decide as Hlt; simplify_eq; [left|right].
    + split; cbn; rewrite ?length_insert; try done; try (split_and!; lia); try (intros; lia).
      apply (round_insert (λ th, completed th = if decide (at_ th = Out) then S k else k)); [done|].
      cbn. by rewrite decide_True.
    + split; cbn; rewrite ?length_insert; try done; try (split_and!; lia); try (intros; lia).
      pose proof (count_all (<[t := mkThread Out (S k)]> (threads s))) as Hall'.
      rewrite length_insert in Hall'.
      intros u th Hu.
      assert (completed th = if decide (at_ th = Out) then S k else k) as Hth.
      { exact (round_insert (λ th, completed th = if decide (at_ th = Out) then S k else k)
                 (threads s) t (mkThread Out (S k)) Hr eq_refl u th Hu). }
      rewrite Hth. case_decide as Ho; [done|].
      destruct th as [p r]; cbn in *. pose proof (count_pos p _ u _ Hu eq_refl).
      destruct p; try done; lia.
Qed.

Lemma Inv_barrier n t s s' : Inv n s → step t s = Some s' → Inv n s'.
Proof.
  intros [k [Ha|Hd]] Hs.
  - exists k. by eapply arriving_step.
  - destruct (departing_step n k t s s' Hd Hs); [exists k|exists (S k)]; auto.
Qed.

Lemma count_replicate p n x : count p (replicate n x) = n * one p x.
Proof. unfold count. induction n as [|n IH]; cbn in *; [done|]. rewrite IH. lia. Qed.

Lemma Inv_make n : 0 < n → Inv n (make n).
Proof.
  intros Hn. exists 0. left. unfold make.
  split; cbn; rewrite ?length_replicate, ?count_replicate; unfold one; cbn; try lia; try done.
  intros t th Ht. apply lookup_replicate in Ht as [-> _]. done.
Qed.

(** C28.  The barrier synchronises: in any interleaving of [n] participants,
    when one has completed [r] calls of [wait()], every other one has completed
    at least [r - 1] and, if only that many, has arrived at the barrier for its
    [r]-th. *)
Theorem barrier_synchronises n sched s t u th uh :
  0 < n → exec step sched (make n) = Some s →
  threads s !! t = Some th → threads s !! u = Some uh →
  completed th ≤ completed uh ∨
  (completed th = S (completed uh) ∧
   (at_ uh = WaitDeparture ∨ at_ uh = Decr ∨ at_ uh = PostDeparture)).
Proof.
  intros Hn He Ht Hu.
  destruct (exec_invariant step (Inv n) (Inv_barrier n) sched _ _ (Inv_make n Hn) He)
    as [k [[_ _ _ _ _ _ Hr]|[Hl _ _ (_ & H1 & H2) _ _ Hr]]].
  - left. rewrite (Hr t th Ht), (Hr u uh Hu). done.
  - assert (completed th ≤ S k) as Hle by (rewrite (Hr t th Ht); case_decide; lia).
    pose proof (Hr u uh Hu) as Hk. destruct uh as [p r]; cbn in *.
    pose proof (count_pos p _ u _ Hu eq_refl) as Hpos.
    destruct (decide (p = Out)) as [->|Hp]; [left; lia|].
    destruct (decide (completed th ≤ r)); [by left|right]. split; [lia|].
    destruct p; try done; auto; lia.
Qed.

Lemma barrier_synchronises_witness : ∃ s th uh,
  exec step [0; 0; 0; 1; 1; 1; 0; 0; 0] (make 2) = Some s ∧
  threads s !! 0 = Some th ∧ threads s !! 1 = Some uh ∧ completed th = 1 ∧ at_ uh = WaitDeparture ∧
  (completed th ≤ completed uh ∨
   (completed th = S (completed uh) ∧
    (at_ uh = WaitDeparture ∨ at_ uh = Decr ∨ at_ uh = PostDeparture))).
Proof.
  assert (exec step [0; 0; 0; 1; 1; 1; 0; 0; 0] (make 2) =
          Some (mkState 0 1 2 1 [mkThread Out 1; mkThread WaitDeparture 0])) as He.
  { vm_compute. reflexivity. }
  eexists _, _, _. split; [exact He|]. do 4 (split; [reflexivity|]).
  refine (barrier_synchronises 2 [0; 0; 0; 1; 1; 1; 0; 0; 0] _ 0 1 _ _ _ He _ _);
    [lia|reflexivity|reflexivity].
Defined.

(**  It never gets stuck: in every reachable state some participant can take
    a step. *)
Lemma barrier_progress n sched s :
  0 < n → exec step sched (make n) = Some s → ∃ t s', step t s = Some s'.
Proof.
  intros Hn He.
  assert (∀ p, 0 < count p (threads s) →
    (p = Out → 0 < arrival_ s) → (p = WaitDeparture → 0 < departure_ s) →
    ∃ t s', step t s = Some s') as Hgo.
  { intros p Hp Ho Hw. destruct (count_ex p _ Hp) as (t & [q r] & Ht & E). cbn in E. subst q.
    exists t. unfold step. rewrite Ht. cbn. destruct p; cbn; repeat case_decide; eauto.
    - destruct (arrival_ s); [specialize (Ho eq_refl); lia|]. cbn. eauto.
    - destruct (departure_ s); [specialize (Hw eq_refl); lia|]. cbn. eauto. }
  destruct (exec_invariant step (Inv n) (Inv_barrier n) sched _ _ (Inv_make n Hn) He)
    as [k [[Hl _ Htok (Hd & H4 & H5) Hc Hm _]|[Hl _ Htok (Ha & H1 & H2) Hc Hm _]]];
    pose proof (count_all (threads s)).
  - destruct (decide (0 < count Incr (threads s))); [by apply (Hgo Incr)|].
    destruct (decide (0 < count PostArrival (threads s))); [by apply (Hgo PostArrival)|].
    assert (arrival_ s = 1) as Ea by lia. specialize (Hm Ea).
    apply (Hgo Out); [lia|lia|done].
  - destruct (decide (0 < count Decr (threads s))); [by apply (Hgo Decr)|].
    destruct (decide (0 < count PostDeparture (threads s))); [by apply (Hgo PostDeparture)|].
    assert (departure_ s = 1) as Ed by lia. specialize (Hm Ed).
    apply (Hgo WaitDeparture); [lia|done|lia].
Qed.

End Barrier.
