(* ===== verification/Callback.v ===== *)
(** * Callbacks ([callback_instances.hpp])

    A callback packs a member function, the object it is called on and its
    first arguments.  [CallableOnce_n_b] and [CallableMany_n_b] are for a
    function of [n] arguments of which [b] are bound; a [Once] callback deletes
    itself when it is called.  The object a callback works on is the state [W],
    which the member function may change. *)

From S2P Require Import Prelude.

Module Callback.

(** The interface [Callback<Res, Arg...>]: [A] is the tuple of the arguments
    that are not bound, [R] the result ([unit] for [void]).  [operator()] calls
    the target and, if the callback is for one use, deletes it. *)
Record Callback (W A R : Type) := mkCallback {
  target : W → A → W * R;
  once : bool
}.
Arguments mkCallback {W A R} _ _.
Arguments target {W A R} _ _ _.
Arguments once {W A R} _.

(** The memory cell of a callback: [None] once it was deleted. *)
Definition cell (W A R : Type) : Type := option (Callback W A R).

(** [operator()] on the callback in a cell: the result, the object and the cell afterwards.
    [None] is a call of a deleted callback. *)
Definition call {W A R} (c : cell W A R) (w : W) (a : A) : option (R * W * cell W A R) :=
  cb ← c;
  let '(w', ret) := target cb w a in
  Some (ret, w', if once cb then None else Some cb).

Section instances.
Context {W R : Type}.

(** [0] arguments, [0] of them bound. *)
Definition CallableOnce_0_0 (f : W → W * R) : Callback W unit R :=
  mkCallback (λ w _, f w) true.
Definition CallableOnce_0_0_void (f : W → W * unit) : Callback W unit unit :=
  mkCallback (λ w _, f w) true.
Definition CallableMany_0_0 (f : W → W * R) : Callback W unit R :=
  mkCallback (λ w _, f w) false.
Definition makeCallableOnce_0_0 (f : W → W * R) : cell W unit R :=
  Some (CallableOnce_0_0 f).
Definition makeCallableMany_0_0 (f : W → W * R) : cell W unit R :=
  Some (CallableMany_0_0 f).

(** [1] arguments, [0] of them bound. *)
Definition CallableOnce_1_0 {A1 : Type} (f : W → A1 → W * R) : Callback W A1 R :=
  mkCallback (λ w a1, f w a1) true.
Definition CallableOnce_1_0_void {A1 : Type} (f : W → A1 → W * unit) : Callback W A1 unit :=
  mkCallback (λ w a1, f w a1) true.
Definition CallableMany_1_0 {A1 : Type} (f : W → A1 → W * R) : Callback W A1 R :=
  mkCallback (λ w a1, f w a1) false.
Definition makeCallableOnce_1_0 {A1 : Type} (f : W → A1 → W * R) : cell W A1 R :=
  Some (CallableOnce_1_0 f).
Definition makeCallableMany_1_0 {A1 : Type} (f : W → A1 → W * R) : cell W A1 R :=
  Some (CallableMany_1_0 f).

(** [1] arguments, [1] of them bound. *)
Definition CallableOnce_1_1 {B1 : Type} (f : W → B1 → W * R) (b1 : B1) : Callback W unit R :=
  mkCallback (λ w _, f w b1) true.
Definition CallableOnce_1_1_void {B1 : Type} (f : W → B1 → W * unit) (b1 : B1) : Callback W unit unit :=
  mkCallback (λ w _, f w b1) true.
Definition CallableMany_1_1 {B1 : Type} (f : W → B1 → W * R) (b1 : B1) : Callback W unit R :=
  mkCallback (λ w _, f w b1) false.
Definition makeCallableOnce_1_1 {B1 : Type} (f : W → B1 → W * R) (b1 : B1) : cell W unit R :=
  Some (CallableOnce_1_1 f b1).
Definition makeCallableMany_1_1 {B1 : Type} (f : W → B1 → W * R) (b1 : B1) : cell W unit R :=
  Some (CallableMany_1_1 f b1).

(** [2] arguments, [0] of them bound. *)
Definition CallableOnce_2_0 {A1 A2 : Type} (f : W → A1 → A2 → W * R) : Callback W (A1 * A2) R :=
  mkCallback (λ w '(a1, a2), f w a1 a2) true.
Definition CallableOnce_2_0_void {A1 A2 : Type} (f : W → A1 → A2 → W * unit) : Callback W (A1 * A2) unit :=
  mkCallback (λ w '(a1, a2), f w a1 a2) true.
Definition CallableMany_2_0 {A1 A2 : Type} (f : W → A1 → A2 → W * R) : Callback W (A1 * A2) R :=
  mkCallback (λ w '(a1, a2), f w a1 a2) false.
Definition makeCallableOnce_2_0 {A1 A2 : Type} (f : W → A1 → A2 → W * R) : cell W (A1 * A2) R :=
  Some (CallableOnce_2_0 f).
Definition makeCallableMany_2_0 {A1 A2 : Type} (f : W → A1 → A2 → W * R) : cell W (A1 * A2) R :=
  Some (CallableMany_2_0 f).

(** [2] arguments, [1] of them bound. *)
Definition CallableOnce_2_1 {B1 A1 : Type} (f : W → B1 → A1 → W * R) (b1 : B1) : Callback W A1 R :=
  mkCallback (λ w a1, f w b1 a1) true.
Definition CallableOnce_2_1_void {B1 A1 : Type} (f : W → B1 → A1 → W * unit) (b1 : B1) : Callback W A1 unit :=
  mkCallback (λ w a1, f w b1 a1) true.
Definition CallableMany_2_1 {B1 A1 : Type} (f : W → B1 → A1 → W * R) (b1 : B1) : Callback W A1 R :=
  mkCallback (λ w a1, f w b1 a1) false.
Definition makeCallableOnce_2_1 {B1 A1 : Type} (f : W → B1 → A1 → W * R) (b1 : B1) : cell W A1 R :=
  Some (CallableOnce_2_1 f b1).
Definition makeCallableMany_2_1 {B1 A1 : Type} (f : W → B1 → A1 → W * R) (b1 : B1) : cell W A1 R :=
  Some (CallableMany_2_1 f b1).

(** [2] arguments, [2] of them bound. *)
Definition CallableOnce_2_2 {B1 B2 : Type} (f : W → B1 → B2 → W * R) (b1 : B1) (b2 : B2) : Callback W unit R :=
  mkCallback (λ w _, f w b1 b2) true.
Definition CallableOnce_2_2_void {B1 B2 : Type} (f : W → B1 → B2 → W * unit) (b1 : B1) (b2 : B2) : Callback W unit unit :=
  mkCallback (λ w _, f w b1 b2) true.
Definition CallableMany_2_2 {B1 B2 : Type} (f : W → B1 → B2 → W * R) (b1 : B1) (b2 : B2) : Callback W unit R :=
  mkCallback (λ w _, f w b1 b2) false.
Definition makeCallableOnce_2_2 {B1 B2 : Type} (f : W → B1 → B2 → W * R) (b1 : B1) (b2 : B2) : cell W unit R :=
  Some (CallableOnce_2_2 f b1 b2).
Definition makeCallableMany_2_2 {B1 B2 : Type} (f : W → B1 → B2 → W * R) (b1 : B1) (b2 : B2) : cell W unit R :=
  Some (CallableMany_2_2 f b1 b2).

(** [3] arguments, [0] of them bound. *)
Definition CallableOnce_3_0 {A1 A2 A3 : Type} (f : W → A1 → A2 → A3 → W * R) : Callback W (A1 * A2 * A3) R :=
  mkCallback (λ w '(a1, a2, a3), f w a1 a2 a3) true.
Definition CallableOnce_3_0_void {A1 A2 A3 : Type} (f : W → A1 → A2 → A3 → W * unit) : Callback W (A1 * A2 * A3) unit :=
  mkCallback (λ w '(a1, a2, a3), f w a1 a2 a3) true.
Definition CallableMany_3_0 {A1 A2 A3 : Type} (f : W → A1 → A2 → A3 → W * R) : Callback W (A1 * A2 * A3) R :=
  mkCallback (λ w '(a1, a2, a3), f w a1 a2 a3) false.
Definition makeCallableOnce_3_0 {A1 A2 A3 : Type} (f : W → A1 → A2 → A3 → W * R) : cell W (A1 * A2 * A3) R :=
  Some (CallableOnce_3_0 f).
Definition makeCallableMany_3_0 {A1 A2 A3 : Type} (f : W → A1 → A2 → A3 → W * R) : cell W (A1 * A2 * A3) R :=
  Some (CallableMany_3_0 f).

(** [3] arguments, [1] of them bound. *)
Definition CallableOnce_3_1 {B1 A1 A2 : Type} (f : W → B1 → A1 → A2 → W * R) (b1 : B1) : Callback W (A1 * A2) R :=
  mkCallback (λ w '(a1, a2), f w b1 a1 a2) true.
Definition CallableOnce_3_1_void {B1 A1 A2 : Type} (f : W → B1 → A1 → A2 → W * unit) (b1 : B1) : Callback W (A1 * A2) unit :=
  mkCallback (λ w '(a1, a2), f w b1 a1 a2) true.
Definition CallableMany_3_1 {B1 A1 A2 : Type} (f : W → B1 → A1 → A2 → W * R) (b1 : B1) : Callback W (A1 * A2) R :=
  mkCallback (λ w '(a1, a2), f w b1 a1 a2) false.
Definition makeCallableOnce_3_1 {B1 A1 A2 : Type} (f : W → B1 → A1 → A2 → W * R) (b1 : B1) : cell W (A1 * A2) R :=
  Some (CallableOnce_3_1 f b1).
Definition makeCallableMany_3_1 {B1 A1 A2 : Type} (f : W → B1 → A1 → A2 → W * R) (b1 : B1) : cell W (A1 * A2) R :=
  Some (CallableMany_3_1 f b1).

(** [3] arguments, [2] of them bound. *)
Definition CallableOnce_3_2 {B1 B2 A1 : Type} (f : W → B1 → B2 → A1 → W * R) (b1 : B1) (b2 : B2) : Callback W A1 R :=
  mkCallback (λ w a1, f w b1 b2 a1) true.
Definition CallableOnce_3_2_void {B1 B2 A1 : Type} (f : W → B1 → B2 → A1 → W * unit) (b1 : B1) (b2 : B2) : Callback W A1 unit :=
  mkCallback (λ w a1, f w b1 b2 a1) true.
Definition CallableMany_3_2 {B1 B2 A1 : Type} (f : W → B1 → B2 → A1 → W * R) (b1 : B1) (b2 : B2) : Callback W A1 R :=
  mkCallback (λ w a1, f w b1 b2 a1) false.
Definition makeCallableOnce_3_2 {B1 B2 A1 : Type} (f : W → B1 → B2 → A1 → W * R) (b1 : B1) (b2 : B2) : cell W A1 R :=
  Some (CallableOnce_3_2 f b1 b2).
Definition makeCallableMany_3_2 {B1 B2 A1 : Type} (f : W → B1 → B2 → A1 → W * R) (b1 : B1) (b2 : B2) : cell W A1 R :=
  Some (CallableMany_3_2 f b1 b2).

(** [3] arguments, [3] of them bound. *)
Definition CallableOnce_3_3 {B1 B2 B3 : Type} (f : W → B1 → B2 → B3 → W * R) (b1 : B1) (b2 : B2) (b3 : B3) : Callback W unit R :=
  mkCallback (λ w _, f w b1 b2 b3) true.
Definition CallableOnce_3_3_void {B1 B2 B3 : Type} (f : W → B1 → B2 → B3 → W * unit) (b1 : B1) (b2 : B2) (b3 : B3) : Callback W unit unit :=
  mkCallback (λ w _, f w b1 b2 b3) true.
Definition CallableMany_3_3 {B1 B2 B3 : Type} (f : W → B1 → B2 → B3 → W * R) (b1 : B1) (b2 : B2) (b3 : B3) : Callback W unit R :=
  mkCallback (λ w _, f w b1 b2 b3) false.
Definition makeCallableOnce_3_3 {B1 B2 B3 : Type} (f : W → B1 → B2 → B3 → W * R) (b1 : B1) (b2 : B2) (b3 : B3) : cell W unit R :=
  Some (CallableOnce_3_3 f b1 b2 b3).
Definition makeCallableMany_3_3 {B1 B2 B3 : Type} (f : W → B1 → B2 → B3 → W * R) (b1 : B1) (b2 : B2) (b3 : B3) : cell W unit R :=
  Some (CallableMany_3_3 f b1 b2 b3).

End instances.

(** Calling the same callback with each of a list of arguments. *)
Fixpoint calls {W A R} (c : cell W A R) (w : W) (args : list A) : option (list R * W * cell W A R) :=
  match args with
  | [] => Some ([], w, c)
  | a :: args =>
    '(r, w, c) ← call c w a;
    '(rs, w, c) ← calls c w args;
    Some (r :: rs, w, c)
  end.

(** Applying a function to the object with each of a list of arguments. *)
Fixpoint apply_all {W A R} (f : W → A → W * R) (w : W) (args : list A) : list R * W :=
  match args with
  | [] => ([], w)
  | a :: args => let '(w, r) := f w a in let '(rs, w) := apply_all f w args in (r :: rs, w)
  end.

Lemma calls_many {W A R} (cb : Callback W A R) args : ∀ w,
  once cb = false →
  calls (Some cb) w args = Some ((apply_all (target cb) w args).1, (apply_all (target cb) w args).2, Some cb).
Proof.
  induction args as [|a args IH]; intros w Ho; cbn; [done|].
  destruct (target cb w a) as [w' r]. rewrite Ho. cbn. rewrite IH by done. cbn.
  by destruct (apply_all (target cb) w' args).
Qed.

Lemma calls_once {W A R} (cb : Callback W A R) args w :
  once cb = true →
  calls (Some cb) w args =
    match args with
    | [] => Some ([], w, Some cb)
    | [a] => Some ([(target cb w a).2], (target cb w a).1, None)
    | _ => None
    end.
Proof.
  intros Ho. destruct args as [|a [|a' args]]; cbn; [done| |];
    destruct (target cb w a); by rewrite Ho.
Qed.

(**  A callback for one use can be called exactly once: the call runs the
    member function on the bound and then the given arguments and frees the
    callback, and a second call would use freed memory; a callback for many uses
    can be called any number of times, each call running the function, and is
    still there afterwards. *)
Lemma callback_uses {W R B1 B2 A1} (f : W → B1 → B2 → A1 → W * R) b1 b2 (w : W) args :
  calls (makeCallableMany_3_2 f b1 b2) w args =
    (let '(rs, w') := apply_all (λ w a, f w b1 b2 a) w args in
     Some (rs, w', makeCallableMany_3_2 f b1 b2)) ∧
  calls (makeCallableOnce_3_2 f b1 b2) w args =
    match args with
    | [] => Some ([], w, makeCallableOnce_3_2 f b1 b2)
    | [a] => Some ([(f w b1 b2 a).2], (f w b1 b2 a).1, None)
    | _ => None
    end.
Proof.
  split.
  - unfold makeCallableMany_3_2. rewrite calls_many by done. cbn.
    by destruct (apply_all _ w args).
  - unfold makeCallableOnce_3_2. by rewrite calls_once.
Qed.
End Callback.
