(* ===== verification/HazardPointers.v ===== *)
(** * Hazard pointers ([hazard_pointers.hpp], [cpu_arch.hpp])

    Per thread an array of hazard pointers and a list of retired nodes.  A scan
    of the hazard pointers decides which of a thread's retired nodes are
    deleted; what it reads of the other threads' pointers is an argument, since
    those may change while it runs. *)

From S2P Require Import Prelude.

Module HazardPointers.

(** [CacheArch::LINE_SIZE] and [MAX_RETIRED_NODES_PER_THREAD]. *)
Definition LINE_SIZE : Z := 64.
Definition MAX_RETIRED_NODES_PER_THREAD : nat := 10.

Section hazard.
(** The template's [NUM_PTRS]. *)
Context (NUM_PTRS : nat).

(** Nodes are addresses.  [deleted] lists the nodes passed to [delete], in
    order. *)
Record HazardPointers := mkHP {
  num_threads_ : nat;
  hold_hp_recs_ : Z;                      (* the address that was allocated *)
  start_ : Z;                             (* the address of [hp_recs_] *)
  hp_recs_ : list (list (option nat));
  retired_lists_ : list (gset nat);
  deleted : list nat
}.

(** [sizeof(HPRec)]: the pointers and the padding. *)
Definition sizeof_pointers : Z := 8 * Z.of_nat NUM_PTRS.
Definition sizeof_HPRec : Z := sizeof_pointers + (LINE_SIZE - sizeof_pointers).

(** Where the records start in the allocation at [hold]. *)
Definition align (hold : Z) : Z :=
  let start := (hold mod LINE_SIZE)%Z in
  if decide (start > 0)%Z then (hold + LINE_SIZE - start)%Z else hold.

(** The constructor; [mem] is what the allocated memory contains, which it does
    not clear. *)
Definition make (num_threads : nat) (hold : Z) (mem : list (list (option nat))) : HazardPointers :=
  mkHP num_threads hold (align hold) mem (replicate num_threads ∅) [].

(** [getHPRec(thread_num)[j] = p]. *)
Definition protect (thread_num j : nat) (q : option nat) (hp : HazardPointers) : option HazardPointers :=
  rec ← hp_recs_ hp !! thread_num;
  _ ← rec !! j;
  Some (mkHP (num_threads_ hp) (hold_hp_recs_ hp) (start_ hp)
          (<[thread_num := <[j := q]> rec]> (hp_recs_ hp)) (retired_lists_ hp) (deleted hp)).

(** The snapshot of the nodes in use, from the pointers that were read. *)
Definition active_list (read : list (list (option nat))) : gset nat :=
  list_to_set (omap id (concat read)).

Definition set_retired (thread_num : nat) (l : gset nat) (del : list nat) (hp : HazardPointers) :=
  mkHP (num_threads_ hp) (hold_hp_recs_ hp) (start_ hp) (hp_recs_ hp)
    (<[thread_num := l]> (retired_lists_ hp)) (deleted hp ++ del).

(** The scan: [read] are the pointers it reads.  The result is the number of
    nodes deleted. *)
Definition maybeFreeNodes (read : list (list (option nat))) (thread_num : nat) (hp : HazardPointers)
    : option (nat * HazardPointers) :=
  l ← retired_lists_ hp !! thread_num;
  let active := active_list read in
  let free := elements (l ∖ active) in
  Some (length free, set_retired thread_num (l ∩ active) free hp).

Definition retireNode (read : list (list (option nat))) (thread_num : nat) (node : nat)
    (hp : HazardPointers) : option (nat * HazardPointers) :=
  l ← retired_lists_ hp !! thread_num;
  let l := {[node]} ∪ l in
  let hp := set_retired thread_num l [] hp in
  if decide (MAX_RETIRED_NODES_PER_THREAD < size l)
  then maybeFreeNodes read thread_num hp
  else Some (0, hp).

(** The destructor: every node still retired is deleted. *)
Definition destroy (hp : HazardPointers) : list nat :=
  deleted hp ++ concat (map elements (retired_lists_ hp)).

(** ** Alignment *)

(** The records start at a cache line boundary and fit, with all threads'
    records, into the [(num_threads + 1) * sizeof(HPRec)] bytes allocated. *)
Lemma records_aligned (num_threads : nat) (hold : Z) :
  (0 ≤ hold)%Z → (8 * Z.of_nat NUM_PTRS < LINE_SIZE)%Z →
  (align hold mod LINE_SIZE = 0)%Z ∧
  (hold ≤ align hold)%Z ∧
  (align hold + Z.of_nat num_threads * sizeof_HPRec ≤
     hold + (Z.of_nat num_threads + 1) * sizeof_HPRec)%Z ∧ sizeof_HPRec = LINE_SIZE.
Proof.
  intros Hh Hn. unfold sizeof_HPRec, sizeof_pointers, align, LINE_SIZE in *.
  pose proof (Z.mod_pos_bound hold 64 ltac:(lia)) as Hb.
  pose proof (Z.div_mod hold 64 ltac:(lia)) as Hd.
  case_decide as E; (split_and!; [|lia|lia|lia]).
  - replace (hold + 64 - hold mod 64)%Z with ((hold / 64 + 1) * 64)%Z by lia.
    by rewrite Z.mod_mul.
  - lia.
Qed.

(** ** Safe and bounded reclamation *)

Lemma elem_of_active read q :
  q ∈ active_list read ↔ ∃ i rec j, read !! i = Some rec ∧ rec !! j = Some (Some q).
Proof.
  unfold active_list. rewrite elem_of_list_to_set, list_elem_of_omap. split.
  - intros (o & Ho & E). cbn in E. subst o. apply list_elem_of_In, in_concat in Ho as (rec & Hr & Hin).
    apply list_elem_of_In, list_elem_of_lookup in Hr as [i Hi].
    apply list_elem_of_In, list_elem_of_lookup in Hin as [j Hj]. by exists i, rec, j.
  - intros (i & rec & j & Hi & Hj). exists (Some q). split; [|done].
    apply list_elem_of_In, in_concat. exists rec. rewrite <- !list_elem_of_In.
    split; by eapply list_elem_of_lookup_2.
Qed.

Lemma size_list_to_set_length (l : list nat) : size (list_to_set l : gset nat) ≤ length l.
Proof.
  induction l as [|x l IH]; cbn; [by rewrite size_empty|].
  rewrite size_union_alt, size_singleton.
  pose proof (subseteq_size ((list_to_set l : gset nat) ∖ {[x]}) (list_to_set l) ltac:(set_solver)). lia.
Qed.

Lemma length_omap_id (l : list (option nat)) : length (omap id l) ≤ length l.
Proof. induction l as [|[x|] l IH]; cbn in *; lia. Qed.

(** A snapshot holds at most one node per hazard pointer. *)
Lemma size_active read n :
  length read ≤ n → Forall (λ rec, length rec = NUM_PTRS) read →
  size (active_list read) ≤ n * NUM_PTRS.
Proof.
  intros Hn Hk. unfold active_list. etrans; [apply size_list_to_set_length|].
  etrans; [apply length_omap_id|]. revert n Hn.
  induction Hk as [|rec read Hr Hk IH]; intros n Hn; cbn; [lia|].
  cbn in Hn. destruct n as [|n]; [lia|]. specialize (IH n ltac:(lia)).
  rewrite length_app. cbn. lia.
Qed.

(** The pointers read are those of all threads. *)
Definition full_read (read : list (list (option nat))) (hp : HazardPointers) : Prop :=
  length read = num_threads_ hp ∧ Forall (λ rec, length rec = NUM_PTRS) read.

(** A pointer to [q] is among those read. *)
Definition protects (read : list (list (option nat))) (q : nat) : Prop :=
  ∃ i rec j, read !! i = Some rec ∧ rec !! j = Some (Some q).

Lemma elements_split (l a : gset nat) : elements (l ∩ a) ++ elements (l ∖ a) ≡ₚ elements l.
Proof.
  rewrite <- elements_disj_union by set_solver.
  replace ((l ∩ a) ∪ l ∖ a) with l; [done|]. apply set_eq. intros x.
  rewrite elem_of_union, elem_of_intersection, elem_of_difference.
  destruct (decide (x ∈ a)); tauto.
Qed.

(** C22.  Retiring a node is exact, safe and bounded.  The thread's retired nodes
    and the new one are, each once, either kept in its list or deleted, and
    nothing else is deleted; the other lists and the hazard pointers stay as they
    are, and the count returned is the number deleted.  Up to ten nodes nothing is
    deleted.  Above that the kept ones are those that a hazard pointer read by the
    scan protects and the deleted ones those that none does, in particular none
    that is protected throughout it; so no more are kept than there are hazard
    pointers. *)
Theorem retire_safe_and_bounded read t node hp l :
  full_read read hp → retired_lists_ hp !! t = Some l → ∃ n hp' kept del,
    retireNode read t node hp = Some (n, hp') ∧
    retired_lists_ hp' = <[t := kept]> (retired_lists_ hp) ∧ hp_recs_ hp' = hp_recs_ hp ∧
    deleted hp' = deleted hp ++ del ∧ length del = n ∧
    elements kept ++ del ≡ₚ elements ({[node]} ∪ l) ∧
    (size ({[node]} ∪ l) ≤ MAX_RETIRED_NODES_PER_THREAD → del = []) ∧
    (MAX_RETIRED_NODES_PER_THREAD < size ({[node]} ∪ l) →
      (∀ q, q ∈ del → ¬ protects read q) ∧ (∀ q, q ∈ kept → protects read q) ∧
      size kept ≤ num_threads_ hp * NUM_PTRS).
Proof.
  intros [Hlen Hrec] Hl. unfold retireNode. rewrite Hl. cbn [mbind option_bind].
  pose proof (lookup_lt_Some _ _ _ Hl) as Ht. case_decide as Hsz.
  - unfold maybeFreeNodes. cbn [set_retired retired_lists_]. rewrite list_lookup_insert_eq by done.
    cbn [mbind option_bind]. set (m := {[node]} ∪ l) in *.
    eexists (length (elements (m ∖ active_list read))), _, (m ∩ active_list read), (elements (m ∖ active_list read)).
    split; [reflexivity|]. cbn. rewrite app_nil_r, list_insert_insert_eq.
    split_and!; try done; [apply elements_split|lia|]. intros _. split_and!.
    + intros q Hq Hp. apply elem_of_elements, elem_of_difference in Hq as [_ Hq]. by apply Hq, elem_of_active.
    + intros q Hq. apply elem_of_intersection in Hq as [_ Hq]. by apply elem_of_active.
    + rewrite <- Hlen. etrans; [apply subseteq_size, intersection_subseteq_r|]. by apply size_active.
  - eexists 0, _, ({[node]} ∪ l), []. split; [reflexivity|]. cbn. rewrite !app_nil_r. by split_and!.
Qed.

(** ** Every retired node is deleted once *)

Inductive op := Protect (t j : nat) (q : option nat)
  | Retire (t node : nat) (read : list (list (option nat)))
  | Scan (t : nat) (read : list (list (option nat))).

Definition apply_op (o : op) (hp : HazardPointers) : option HazardPointers :=
  match o with
  | Protect t j q => protect t j q hp
  | Retire t node read => '(_, hp) ← retireNode read t node hp; Some hp
  | Scan t read => '(_, hp) ← maybeFreeNodes read t hp; Some hp
  end.

Fixpoint run (ops : list op) (hp : HazardPointers) : option HazardPointers :=
  match ops with [] => Some hp | o :: ops => hp ← apply_op o hp; run ops hp end.

(** The nodes a sequence of operations retires. *)
Definition retires (ops : list op) : list nat :=
  omap (λ o, match o with Retire _ node _ => Some node | _ => None end) ops.

(** All nodes that are deleted or waiting to be. *)
Definition owned (hp : HazardPointers) : list nat := destroy hp.

Lemma concat_insert_perm (ls : list (gset nat)) t l l' del :
  ls !! t = Some l → elements l' ++ del ≡ₚ elements l →
  del ++ concat (map elements (<[t := l']> ls)) ≡ₚ concat (map elements ls).
Proof.
  intros Ht Hp. revert t Ht. induction ls as [|x ls IH]; intros [|t] Ht; cbn in *; simplify_eq.
  - rewrite app_assoc. apply Permutation_app_tail. by rewrite Permutation_app_comm.
  - rewrite app_assoc, (Permutation_app_comm del), <- app_assoc.
    apply Permutation_app_head. by apply IH.
Qed.

Lemma scan_owned read t hp n hp' :
  maybeFreeNodes read t hp = Some (n, hp') → owned hp' ≡ₚ owned hp.
Proof.
  unfold maybeFreeNodes, owned, destroy. intros Hs.
  destruct (retired_lists_ hp !! t) as [l|] eqn:Hl; cbn in Hs; [|done]. simplify_eq. cbn.
  rewrite <- app_assoc. apply Permutation_app_head.
  eapply concat_insert_perm; [done|]. apply elements_split.
Qed.

Lemma add_owned t node l hp :
  retired_lists_ hp !! t = Some l → node ∉ l →
  owned (set_retired t ({[node]} ∪ l) [] hp) ≡ₚ node :: owned hp.
Proof.
  intros Hl Hn. unfold owned, destroy, set_retired. cbn. rewrite app_nil_r.
  rewrite Permutation_middle. apply Permutation_app_head.
  revert t Hl. induction (retired_lists_ hp) as [|x ls IH]; intros [|t] Hl; cbn in *; simplify_eq.
  - by rewrite elements_union_singleton.
  - rewrite IH by done. by rewrite Permutation_middle.
Qed.

Lemma retire_owned read t node hp n hp' :
  retireNode read t node hp = Some (n, hp') → node ∉ owned hp → owned hp' ≡ₚ node :: owned hp.
Proof.
  unfold retireNode. intros Hr Hn. destruct (retired_lists_ hp !! t) as [l|] eqn:Hl; cbn in Hr; [|done].
  assert (node ∉ l) as Hnl.
  { intros Hin. apply Hn. unfold owned, destroy. apply elem_of_app. right.
    apply list_elem_of_In, in_concat. exists (elements l). rewrite <- !list_elem_of_In.
    split; [|by apply elem_of_elements]. apply list_elem_of_fmap. exists l. split; [done|].
    by eapply list_elem_of_lookup_2. }
  case_decide; simplify_eq; [|by apply add_owned].
  rewrite (scan_owned _ _ _ _ _ Hr). by apply add_owned.
Qed.

Lemma protect_owned t j q hp hp' : protect t j q hp = Some hp' → owned hp' = owned hp.
Proof.
  unfold protect. intros Hp. destruct (hp_recs_ hp !! t) as [rec|]; cbn in Hp; [|done].
  destruct (rec !! j); cbn in Hp; by simplify_eq.
Qed.

Lemma run_owned ops : ∀ hp hp',
  run ops hp = Some hp' → NoDup (retires ops ++ owned hp) → owned hp' ≡ₚ retires ops ++ owned hp.
Proof.
  induction ops as [|o ops IH]; intros hp hp' Hr Hn; cbn in Hr; [by simplify_eq|].
  destruct (apply_op o hp) as [h1|] eqn:Ho; cbn in Hr; [|done].
  destruct o as [t j q|t node read|t read]; cbn in Ho, Hn |- *.
  - apply protect_owned in Ho. rewrite <- Ho in *. by apply IH.
  - destruct (retireNode read t node hp) as [[n h]|] eqn:E; cbn in Ho; simplify_eq.
    apply NoDup_cons in Hn as [Hnot Hn]. rewrite not_elem_of_app in Hnot.
    destruct Hnot as [Hn1 Hn2]. pose proof (retire_owned _ _ _ _ _ _ E Hn2) as Hp.
    rewrite (IH h1 hp' Hr); [by rewrite Hp, Permutation_middle|].
    rewrite Hp, <- Permutation_middle. constructor; [|done]. by rewrite not_elem_of_app.
  - destruct (maybeFreeNodes read t hp) as [[n h]|] eqn:E; cbn in Ho; simplify_eq.
    pose proof (scan_owned _ _ _ _ _ E) as Hp. rewrite (IH h1 hp' Hr); [by rewrite Hp|]. by rewrite Hp.
Qed.

(**  No leak and no double free: when each node is retired once, then after
    any sequence of protections, retirements and scans the destructor has
    deleted every retired node exactly once and nothing else. *)
Lemma retired_deleted_exactly_once num_threads hold mem ops hp :
  run ops (make num_threads hold mem) = Some hp → NoDup (retires ops) →
  destroy hp ≡ₚ retires ops ∧ NoDup (destroy hp).
Proof.
  intros Hr Hn. assert (owned (make num_threads hold mem) = []) as H0.
  { unfold owned, destroy, make. cbn. clear. induction num_threads as [|n IH]; cbn; [done|].
    by rewrite elements_empty. }
  pose proof (run_owned ops _ _ Hr) as Hp. rewrite H0, app_nil_r in Hp. specialize (Hp Hn).
  split; [done|]. unfold owned in Hp. by rewrite Hp.
Qed.
End hazard.

(** ** The exchange of two pointers in [LockFreeList::lookupInternal] *)

(** [temp = hp[0]; hp[0] = hp[1];] *)
Definition swap_first (t : nat) (hp : HazardPointers) : option (option nat * HazardPointers) :=
  rec ← hp_recs_ hp !! t;
  temp ← rec !! 0; q ← rec !! 1;
  hp ← protect t 0 q hp;
  Some (temp, hp).

(** [hp[1] = temp;] *)
Definition swap_second (t : nat) (temp : option nat) (hp : HazardPointers) : option HazardPointers :=
  protect t 1 temp hp.

(** Between the two assignments the node that [hp[0]] protected, into which the
    traversal is about to go, is not protected by the thread: a scan that reads the
    pointers then deletes it if it was retired. *)
Lemma swap_window t a q hp temp hp1 hp2 :
  hp_recs_ hp !! t = Some [Some a; q] → q ≠ Some a →
  (∀ u rec, u ≠ t → hp_recs_ hp !! u = Some rec → Some a ∉ rec) →
  swap_first t hp = Some (temp, hp1) → swap_second t temp hp1 = Some hp2 →
  protects (hp_recs_ hp) a ∧ ¬ protects (hp_recs_ hp1) a ∧ protects (hp_recs_ hp2) a.
Proof.
  intros Ht Hq Ho. pose proof (lookup_lt_Some _ _ _ Ht) as Hlt. unfold swap_first, swap_second, protect.
  rewrite Ht. cbn [lookup list_lookup mbind option_bind]. intros E. simplify_eq/=.
  rewrite list_lookup_insert_eq by done. cbn. intros E. simplify_eq/=. split_and!.
  - by exists t, [Some a; q], 0.
  - intros (i & rec & j & Hi & Hj). destruct (decide (i = t)) as [->|Hne].
    + rewrite list_lookup_insert_eq in Hi by done. simplify_eq. by destruct j as [|[|j]]; cbn in Hj; simplify_eq.
    + rewrite list_lookup_insert_ne in Hi by done. apply (Ho i rec Hne Hi). by eapply list_elem_of_lookup_2.
  - exists t, [q; Some a], 1. split; [|done]. rewrite list_lookup_insert_eq; [done|by rewrite length_insert].
Qed.

(** Thread 0 retires eleven nodes while thread 1 protects node 3; the eleventh
    makes it scan. *)
Definition pointers : list (list (option nat)) := [[None; None]; [Some 3; None]].
Definition two_threads : HazardPointers := make 2 0 pointers.
Definition ten_retired : HazardPointers :=
  default two_threads (run (map (λ i, Retire 0 i pointers) (seq 1 10)) two_threads).

Lemma retire_safe_and_bounded_witness : ∃ hp' kept del,
  retireNode pointers 0 11 ten_retired = Some (10, hp') ∧ retired_lists_ hp' = [kept; ∅] ∧
  elements kept = [3] ∧ deleted hp' = del ∧ length del = 10 ∧
  elements kept ++ del ≡ₚ elements ({[11]} ∪ list_to_set (seq 1 10) : gset nat).
Proof.
  destruct (retire_safe_and_bounded 2 pointers 0 11 ten_retired (list_to_set (seq 1 10)))
    as (n & hp' & kept & del & E & Hl & _ & Hd & Hn & Hp & _).
  - split; [vm_compute; reflexivity|]. repeat constructor.
  - vm_compute. reflexivity.
  - assert (retireNode pointers 0 11 ten_retired = Some (10, hp')) as E' by (rewrite E; vm_compute in E |- *; congruence).
    exists hp', kept, del. assert (n = 10) as -> by congruence.
    assert (elements kept = [3]) as Hk.
    { assert (hp' = default two_threads (snd <$> retireNode pointers 0 11 ten_retired)) as E2 by (rewrite E; reflexivity).
      assert (<[0 := kept]> (retired_lists_ ten_retired) !! 0 = retired_lists_ hp' !! 0) as E3 by (by rewrite Hl).
      rewrite E2 in E3. vm_compute in E3. injection E3 as ->. vm_compute. reflexivity. }
    split; [exact E'|]. split; [rewrite Hl; reflexivity|]. split; [exact Hk|].
    split; [rewrite Hd; reflexivity|]. split; [exact Hn|exact Hp].
Defined.

End HazardPointers.
