(* ===== verification/LockFreeList.v ===== *)
(** * The lock-free list ([lock_free_list.hpp], [markable_pointer.hpp])

    Michael's list-based set: nodes with a markable next pointer, logical
    deletion by a mark and physical deletion by a compare and swap.  Any number
    of threads run [insert], [remove] and [lookup]; one step is one access to
    shared memory.  Nodes are not freed while the list is in use, nor reused: that
    is what the hazard pointers are for, whose assignments in [lookupInternal] are
    not steps here (see [HazardPointers], and [swap_window] there for the moment at
    which they do not keep this promise). *)

From Stdlib Require Import Sorted.
From S2P Require Import Prelude.

Module LockFreeList.

(** ** Markable pointers *)

(** A pointer and its least significant bit; [None] is [NULL]. *)
Record mptr := mkPtr { p_ : option nat; m_ : bool }.

Definition mark (x : mptr) : mptr := mkPtr (p_ x) true.
Definition unmark (x : mptr) : mptr := mkPtr (p_ x) false.
Definition isMarked (x : mptr) : bool := m_ x.
(** A pointer without a mark. *)
Definition clean (a : option nat) : mptr := mkPtr a false.

#[global] Instance mptr_eq_dec : EqDecision mptr.
Proof. solve_decision. Defined.

(** ** The shared state *)

(** [value] is [None] when it was not set. *)
Record Node := mkNode { data : Z; value : option Z; next : mptr }.

(** [LookupContext]'s [prev]: the address of [head_], of the local variable
    [start_], or of a node's [next]. *)
Inductive loc := Head | Start | NextOf (a : nat).

(** The operation a thread executes: key, and what it inserts; [Cleanup k] is
    the second search of [remove(k)], whose result does not matter. *)
Inductive op := Insert (k : Z) (v : option Z) | Remove (k : Z) | Lookup (k : Z) | Cleanup (k : Z).

Definition key (o : op) : Z :=
  match o with Insert k _ | Remove k | Lookup k | Cleanup k => k end.

(** Where a thread is.  In [lookupInternal]: at [try_again]; at the loop's test;
    before the first test of [*prev]; before reading [cur->next]; before
    unlinking the marked [cur]; before the second test of [*prev].  After it:
    before the exchange of [insert]; before the two exchanges of [remove].
    [Done] holds the result and the node found or inserted. *)
Inductive pc :=
  | Idle
  | TryAgain
  | Loop (prev : loc) (cur : option nat)
  | Check1 (prev : loc) (cur : nat)
  | ReadNext (prev : loc) (cur : nat)
  | Unlink (prev : loc) (cur : nat) (n : option nat)
  | Check2 (prev : loc) (cur : nat) (n : option nat)
  | CasInsert (prev : loc) (cur : option nat)
  | CasMark (prev : loc) (cur : nat) (n : option nat)
  | CasDelete (prev : loc) (cur : nat) (n : option nat)
  | Done (res : bool) (found : option nat).

(** A thread: its operation, its variable [start_] and where it is. *)
Record thread := mkThread { oper : op; start_ : option nat; at_ : pc }.

Record state := mkState {
  head_ : option nat;
  nodes : gmap nat Node;
  retired : list nat;
  threads : nat → thread
}.

Definition no_op : op := Lookup 0.
Definition init : state := mkState None ∅ [] (λ _, mkThread no_op None Idle).

(** ** Memory *)

(** [*prev] for thread [t]. *)
Definition load (t : nat) (l : loc) (s : state) : option mptr :=
  match l with
  | Head => Some (clean (head_ s))
  | Start => Some (clean (start_ (threads s t)))
  | NextOf a => n ← nodes s !! a; Some (next n)
  end.

Definition set_next (x : mptr) (n : Node) : Node := mkNode (data n) (value n) x.

Definition store (t : nat) (l : loc) (x : mptr) (s : state) : option state :=
  match l with
  | Head => Some (mkState (p_ x) (nodes s) (retired s) (threads s))
  | Start =>
    let th := threads s t in
    Some (mkState (head_ s) (nodes s) (retired s)
            (upd t (mkThread (oper th) (p_ x) (at_ th)) (threads s)))
  | NextOf a =>
    n ← nodes s !! a;
    Some (mkState (head_ s) (<[a := set_next x n]> (nodes s)) (retired s) (threads s))
  end.

(** [__sync_bool_compare_and_swap]. *)
Definition cas (t : nat) (l : loc) (old new : mptr) (s : state) : option (bool * state) :=
  x ← load t l s;
  if decide (x = old) then s' ← store t l new s; Some (true, s') else Some (false, s).

Definition goto (t : nat) (c : pc) (s : state) : state :=
  let th := threads s t in
  mkState (head_ s) (nodes s) (retired s) (upd t (mkThread (oper th) (start_ th) c) (threads s)).

Definition set_op (t : nat) (o : op) (s : state) : state :=
  let th := threads s t in
  mkState (head_ s) (nodes s) (retired s) (upd t (mkThread o (start_ th) (at_ th)) (threads s)).

(** [hps_.retireNode(ME(), cur)]. *)
Definition retire (a : nat) (s : state) : state :=
  mkState (head_ s) (nodes s) (retired s ++ [a]) (threads s).

(** An address that is not in use. *)
Definition malloc (h : gmap nat Node) : nat := S (map_fold (λ a _ x, a `max` x) 0 h).

(** The operations' [startingPointer]. *)
Definition startingPointer (th : thread) : loc :=
  match start_ th with None => Head | Some _ => Start end.

(** ** The steps *)

(** [lookupInternal] returns: what the operation does with the result. *)
Definition returned (o : op) (res : bool) (prev : loc) (cur : option nat) (n : option nat) : pc :=
  match o with
  | Lookup _ => Done res cur
  | Insert _ _ => if res then Done false cur else CasInsert prev cur
  | Remove _ => match cur with
                | Some c => if res then CasMark prev c n else Done false None
                | None => Done false None
                end
  | Cleanup _ => Done true None
  end.

Definition lookupInternal_step (t : nat) (s : state) : option state :=
  let th := threads s t in
  let k := key (oper th) in
  match at_ th with
  | TryAgain =>
    x ← load t (startingPointer th) s;
    Some (goto t (Loop (startingPointer th) (p_ x)) s)
  | Loop prev None => Some (goto t (returned (oper th) false prev None None) s)
  | Loop prev (Some cur) => Some (goto t (Check1 prev cur) s)
  | Check1 prev cur =>
    x ← load t prev s;
    Some (goto t (if decide (x = clean (Some cur)) then ReadNext prev cur else TryAgain) s)
  | ReadNext prev cur =>
    n ← nodes s !! cur;
    Some (goto t (if isMarked (next n) then Unlink prev cur (p_ (unmark (next n)))
                  else Check2 prev cur (p_ (next n))) s)
  | Unlink prev cur n =>
    '(ok, s) ← cas t prev (clean (Some cur)) (clean n) s;
    Some (if (ok : bool) then goto t (Loop prev n) (retire cur s) else goto t TryAgain s)
  | Check2 prev cur n =>
    c ← nodes s !! cur;
    x ← load t prev s;
    Some (goto t (if decide (x ≠ clean (Some cur)) then TryAgain
                  else if decide (data c >= k)%Z
                       then returned (oper th) (bool_decide (data c = k)) prev (Some cur) n
                       else Loop (NextOf cur) n) s)
  | _ => None
  end.

(** The exchange of [insert]: the new node, private until now, is linked. *)
Definition insert_step (t : nat) (k : Z) (v : option Z) (prev : loc) (cur : option nat) (s : state)
    : option state :=
  let new_node := malloc (nodes s) in
  x ← load t prev s;
  if decide (x = clean cur) then
    let s := mkState (head_ s) (<[new_node := mkNode k v (clean cur)]> (nodes s)) (retired s)
               (threads s) in
    s ← store t prev (clean (Some new_node)) s;
    Some (goto t (Done true (Some new_node)) s)
  else Some (goto t TryAgain s).

(** The exchanges of [remove]: the mark, then the physical deletion. *)
Definition mark_step (t : nat) (prev : loc) (cur : nat) (n : option nat) (s : state) : option state :=
  '(ok, s) ← cas t (NextOf cur) (clean n) (mark (clean n)) s;
  Some (goto t (if (ok : bool) then CasDelete prev cur n else TryAgain) s).

Definition delete_step (t : nat) (prev : loc) (cur : nat) (n : option nat) (s : state)
    : option state :=
  '(ok, s) ← cas t prev (clean (Some cur)) (clean n) s;
  Some (if (ok : bool) then goto t (Done true None) (retire cur s)
        else goto t TryAgain (set_op t (Cleanup (key (oper (threads s t)))) s)).

Definition go (t : nat) (s : state) : option state :=
  let th := threads s t in
  match at_ th, oper th with
  | Idle, _ => None
  | CasInsert prev cur, Insert k v => insert_step t k v prev cur s
  | CasInsert _ _, _ => None
  | CasMark prev cur n, _ => mark_step t prev cur n s
  | CasDelete prev cur n, _ => delete_step t prev cur n s
  | Done _ _, _ => Some (goto t Idle s)
  | _, _ => lookupInternal_step t s
  end.

(** Keys of nodes that operations may start from; such nodes are not removed. *)
Class Sentinel := sentinel : Z → bool.

(** A call is allowed when it starts at the head or at a sentinel with a smaller
    key, and does not remove a sentinel. *)
Definition callable `{Sentinel} (o : op) (start : option nat) (s : state) : bool :=
  match start with
  | None => true
  | Some a => match nodes s !! a with
              | Some n => sentinel (data n) && bool_decide (data n < key o)%Z
              | None => false
              end
  end &&
  match o with Remove k => negb (sentinel k) | Cleanup _ => false | _ => true end.

Inductive label := Call (t : nat) (o : op) (start : option nat) | Go (t : nat).

Definition step `{Sentinel} (l : label) (s : state) : option state :=
  match l with
  | Call t o start =>
    match at_ (threads s t) with
    | Idle => if callable o start s
              then Some (mkState (head_ s) (nodes s) (retired s)
                           (upd t (mkThread o start TryAgain) (threads s)))
              else None
    | _ => None
    end
  | Go t => go t s
  end.

(** [checkIntegrity()]: along the chain the keys increase.  Meant for a quiet
    list; marks are ignored when following it. *)
Fixpoint integrity_loop (fuel : nat) (h : gmap nat Node) (prev : Z) (cur : option nat) : option bool :=
  match fuel with
  | 0 => None
  | S fuel =>
    match cur with
    | None => Some true
    | Some a => n ← h !! a; if decide (prev >= data n)%Z then Some false
                            else integrity_loop fuel h (data n) (p_ (next n))
    end
  end.

Definition checkIntegrity (s : state) : option bool :=
  match head_ s with
  | None => Some true
  | Some a => n ← nodes s !! a; integrity_loop (S (size (nodes s))) (nodes s) (data n) (p_ (next n))
  end.

(** ** The chain of nodes *)

(** [chain h q l]: following [next], marks ignored, from [q] on one meets the
    nodes of [l] with the keys of [l]. *)
Fixpoint chain (h : gmap nat Node) (q : option nat) (l : list (nat * Z)) : Prop :=
  match l with
  | [] => q = None
  | (a, d) :: l => q = Some a ∧ ∃ n, h !! a = Some n ∧ data n = d ∧ chain h (p_ (next n)) l
  end.

Definition first (l : list (nat * Z)) : option nat := fst <$> head l.

(** The set of keys: those of the nodes that are not marked. *)
Definition member (s : state) (k : Z) : Prop :=
  ∃ a n, nodes s !! a = Some n ∧ data n = k ∧ isMarked (next n) = false.

(** The invariant of the shared state. *)
Record shared `{Sentinel} (s : state) (l : list (nat * Z)) : Prop := {
  s_chain : chain (nodes s) (head_ s) l;
  s_sorted : StronglySorted Z.lt l.*2;
  s_nodup : NoDup l.*1;
  s_live : ∀ a n, nodes s !! a = Some n → isMarked (next n) = false → a ∈ l.*1;
  s_closed : ∀ a n b, nodes s !! a = Some n → p_ (next n) = Some b → is_Some (nodes s !! b);
  s_sentinel : ∀ a n, nodes s !! a = Some n → sentinel (data n) = true → isMarked (next n) = false;
  s_retired : NoDup (retired s) ∧ ∀ a, a ∈ retired s → (a ∉ l.*1) ∧ is_Some (nodes s !! a)
}.

Lemma malloc_new (h : gmap nat Node) : h !! malloc h = None.
Proof.
  assert (∀ a, is_Some (h !! a) → a ≤ map_fold (λ a _ x, a `max` x) 0 h) as Hm.
  { apply (map_fold_weak_ind (λ x h, ∀ a, is_Some (h !! a) → a ≤ x)).
    - intros a. rewrite lookup_empty. by intros [].
    - intros i x h' r Hi IH a [y Hy]. destruct (decide (a = i)) as [->|]; [lia|].
      rewrite lookup_insert_ne in Hy by done. specialize (IH a (mk_is_Some _ _ Hy)). lia. }
  apply eq_None_not_Some. intros Hs. apply Hm in Hs. unfold malloc in Hs. lia.
Qed.

Lemma chain_first h q l : chain h q l → q = first l.
Proof. destruct l as [|[a d] l]; [done|]. by intros [-> _]. Qed.

Lemma chain_in h q l a : chain h q l → a ∈ l.*1 → is_Some (h !! a).
Proof.
  revert q. induction l as [|[b d] l IH]; intros q Hc Ha; [by apply not_elem_of_nil in Ha|].
  destruct Hc as (_ & n & Hb & _ & Hc). cbn in Ha.
  apply elem_of_cons in Ha as [->|Ha]; [by eexists|]. by eapply IH.
Qed.

(** Changing a node outside the chain. *)
Lemma chain_frame h q l a n : a ∉ l.*1 → chain h q l → chain (<[a := n]> h) q l.
Proof.
  revert q. induction l as [|[b d] l IH]; intros q Ha; cbn; [done|].
  cbn in Ha. apply not_elem_of_cons in Ha as [Hb Ha]. intros (-> & x & Hx & Hd & Hc).
  split; [done|]. exists x. rewrite lookup_insert_ne by done. auto.
Qed.

(** Changing the mark of a node. *)
Lemma chain_mark h q l a n b :
  h !! a = Some n → chain h q l → chain (<[a := set_next (mkPtr (p_ (next n)) b) n]> h) q l.
Proof.
  intros Ha. revert q. induction l as [|[c d] l IH]; intros q; cbn; [done|].
  intros (-> & x & Hx & Hd & Hc). split; [done|].
  destruct (decide (c = a)) as [->|Hne].
  - rewrite lookup_insert_eq. eexists. split; [done|]. simplify_eq. split; [done|]. cbn. by apply IH.
  - rewrite lookup_insert_ne by done. exists x. auto.
Qed.

(** Making the node at [a] point to [q'] instead. *)
Lemma chain_redirect h q l1 a d l2 n q' l3 :
  chain h q (l1 ++ (a, d) :: l2) → h !! a = Some n → chain h (p_ q') l3 →
  a ∉ l1.*1 → a ∉ l3.*1 → chain (<[a := set_next q' n]> h) q (l1 ++ (a, d) :: l3).
Proof.
  intros Hc Ha Hq Ha1 Ha3. revert q Hc Ha1. induction l1 as [|[b e] l1 IH]; intros q Hc Ha1; cbn in *.
  - destruct Hc as (-> & x & Hx & Hd & _). split; [done|]. rewrite lookup_insert_eq.
    simplify_eq. eexists. split_and!; [done|done|]. cbn. by apply chain_frame.
  - apply not_elem_of_cons in Ha1 as [Hb Ha1]. destruct Hc as (-> & x & Hx & Hd & Hc).
    split; [done|]. exists x. rewrite lookup_insert_ne by done. auto.
Qed.

Lemma chain_split h q l1 a d l2 :
  chain h q (l1 ++ (a, d) :: l2) → ∃ n, h !! a = Some n ∧ data n = d ∧ chain h (p_ (next n)) l2.
Proof.
  revert q. induction l1 as [|[b e] l1 IH]; intros q Hc; cbn in Hc.
  - destruct Hc as (_ & n & ?). by exists n.
  - destruct Hc as (_ & n & _ & _ & Hc). eauto.
Qed.

Lemma chain_tail h q l1 l2 : chain h q (l1 ++ l2) → chain h (first l2) l2.
Proof.
  revert q. induction l1 as [|[b d] l1 IH]; intros q Hc; cbn in Hc.
  - by rewrite <- (chain_first _ _ _ Hc).
  - destruct Hc as (_ & n & _ & _ & Hc). by eapply IH.
Qed.

(** *** Keys *)

Definition increasing (l : list Z) : Prop := StronglySorted Z.lt l.

Lemma increasing_app l1 x l2 :
  increasing (l1 ++ x :: l2) → Forall (λ y, y < x)%Z l1 ∧ Forall (λ y, x < y)%Z l2.
Proof.
  unfold increasing. induction l1 as [|y l1 IH]; cbn; intros Hs;
    apply StronglySorted_inv in Hs as [Hs Hy].
  - split; [constructor|done].
  - destruct (IH Hs) as [H1 H2]. split; [|done]. constructor; [|done].
    rewrite Forall_app, Forall_cons in Hy. tauto.
Qed.

Lemma increasing_glue l1 l2 :
  increasing (l1 ++ l2) ↔ increasing l1 ∧ increasing l2 ∧ ∀ x y, x ∈ l1 → y ∈ l2 → (x < y)%Z.
Proof.
  unfold increasing. induction l1 as [|z l1 IH]; cbn.
  - split; [|tauto]. intros H. split_and!; [constructor|done|]. intros x y Hx.
    by apply not_elem_of_nil in Hx.
  - split.
    + intros [Hs Hz]%StronglySorted_inv. apply IH in Hs as (H1 & H2 & H3).
      rewrite Forall_app in Hz. destruct Hz as [Hz1 Hz2]. rewrite Forall_forall in Hz2.
      split_and!; [by constructor|done|]. intros x y [->|Hx]%elem_of_cons Hy; auto.
    + intros (Hs & H2 & H3). apply StronglySorted_inv in Hs as [H1 Hz].
      constructor; [apply IH; split_and!; try done|].
      * intros x y Hx Hy. apply H3; [by right|done].
      * rewrite Forall_app, (Forall_forall _ l2). split; [done|]. intros y Hy. apply H3; [by left|done].
Qed.

(** *** A place of the chain *)

(** [prev] is the head or the [next] of a node with a smaller key. *)
Definition below (s : state) (prev : loc) (k : Z) : Prop :=
  match prev with
  | Head => True
  | Start => False
  | NextOf a => ∃ n, nodes s !! a = Some n ∧ (data n < k)%Z
  end.

(** The nodes up to [prev] and those behind it. *)
Record place (s : state) (l : list (nat * Z)) (prev : loc) (q : option nat) (k : Z)
    (l1 l2 : list (nat * Z)) : Prop := {
  pl_split : l = l1 ++ l2;
  pl_first : first l2 = q;
  pl_below : Forall (λ x, x < k)%Z l1.*2;
  pl_prev : (prev = Head ∧ l1 = []) ∨
            ∃ a n l0, prev = NextOf a ∧ nodes s !! a = Some n ∧ l1 = l0 ++ [(a, data n)] ∧
                      isMarked (next n) = false
}.

Section places.
Context `{Sentinel}.
Implicit Types (s : state) (l : list (nat * Z)).

(** An unmarked pointer read at [prev] is in the chain. *)
Lemma locate s l t prev q k :
  shared s l → below s prev k → load t prev s = Some (clean q) →
  ∃ l1 l2, place s l prev q k l1 l2.
Proof.
  intros Hs Hb Hl. destruct prev as [| |a]; [| done|]; cbn in *.
  - simplify_eq. exists [], l. split; [done| |constructor|by left].
    symmetry. eapply chain_first, (s_chain _ _ Hs).
  - destruct Hb as (n & Hn & Hk). rewrite Hn in Hl. cbn in Hl. injection Hl as Hx.
    assert (a ∈ l.*1) as Hin by (eapply (s_live _ _ Hs); [done|by rewrite Hx]).
    apply list_elem_of_fmap in Hin as ([a' d] & -> & Hin).
    apply list_elem_of_split in Hin as (l0 & l2 & ->). cbn in *.
    destruct (chain_split _ _ _ _ _ _ (s_chain _ _ Hs)) as (n' & Hn' & <- & Hc). simplify_eq.
    exists (l0 ++ [(a', data n)]), l2. split.
    + by rewrite <- app_assoc.
    + apply chain_first in Hc. by rewrite <- Hc, Hx.
    + pose proof (s_sorted _ _ Hs) as Hso. rewrite fmap_app in *. cbn in *.
      apply increasing_app in Hso as [H1 _]. apply Forall_app. split.
      * eapply Forall_impl; [exact H1|]. cbn. lia.
      * by constructor.
    + right. exists a', n, l0. split_and!; try done. by rewrite Hx.
Qed.

(** A key strictly between two neighbours is not in the set. *)
Lemma absent s l prev q k l1 l2 :
  shared s l → place s l prev q k l1 l2 →
  match l2 with [] => True | (_, d) :: _ => (k < d)%Z end → ¬ member s k.
Proof.
  intros Hs [-> _ Hb _] Hlt (b & n & Hn & Hd & Hm).
  pose proof (s_live _ _ Hs b n Hn Hm) as Hin.
  assert (k ∈ (l1 ++ l2).*2) as Hk.
  { apply list_elem_of_fmap in Hin as ([b' d] & -> & Hin).
    pose proof Hin as Hin'. apply list_elem_of_split in Hin' as (x & y & E).
    pose proof (s_chain _ _ Hs) as Hc. rewrite E in Hc.
    destruct (chain_split _ _ _ _ _ _ Hc) as (n' & Hn' & Hd' & _).
    assert (n' = n) as -> by (cbn in Hn; congruence).
    apply list_elem_of_fmap. exists (b', d). split; [cbn; congruence|done]. }
  rewrite fmap_app in Hk. apply elem_of_app in Hk as [Hk|Hk].
  - rewrite Forall_forall in Hb. specialize (Hb k Hk). lia.
  - pose proof (s_sorted _ _ Hs) as Hso. rewrite fmap_app in Hso.
    destruct l2 as [|[c d] l2]; [by apply not_elem_of_nil in Hk|]. cbn in *.
    apply increasing_app in Hso as [_ H2]. rewrite Forall_forall in H2.
    apply elem_of_cons in Hk as [->|Hk]; [lia|]. specialize (H2 k Hk). lia.
Qed.

(** Two live nodes with the same key are the same. *)
Lemma key_unique s l a b n x :
  shared s l → nodes s !! a = Some n → isMarked (next n) = false →
  nodes s !! b = Some x → isMarked (next x) = false → data n = data x → a = b.
Proof.
  intros Hs Ha Hma Hb Hmb Hd.
  assert (∀ a n, nodes s !! a = Some n → isMarked (next n) = false →
    ∃ i, l !! i = Some (a, data n)) as Hpos.
  { clear -Hs. intros a n Ha Hm. pose proof (s_live _ _ Hs a n Ha Hm) as Hin.
    apply list_elem_of_fmap in Hin as ([a' d] & -> & Hin). pose proof Hin as Hin'.
    apply list_elem_of_split in Hin' as (x & y & E). pose proof (s_chain _ _ Hs) as Hc.
    rewrite E in Hc. destruct (chain_split _ _ _ _ _ _ Hc) as (n' & Hn' & Hd & _).
    cbn in Ha. assert (n' = n) as -> by congruence. apply list_elem_of_lookup.
    by rewrite Hd. }
  destruct (Hpos a n Ha Hma) as [i Hi], (Hpos b x Hb Hmb) as [j Hj].
  assert (NoDup l.*2) as Hnd.
  { pose proof (s_sorted _ _ Hs) as Hso. clear -Hso. induction Hso as [|z zs Hso IH Hz]; constructor; [|done].
    intros Hin. rewrite Forall_forall in Hz. specialize (Hz z Hin). lia. }
  assert (i = j) as ->.
  { eapply (NoDup_lookup l.*2); [done| |]; rewrite list_lookup_fmap.
    - by rewrite Hi.
    - rewrite Hj. cbn. by rewrite Hd. }
  congruence.
Qed.

(** The shared memory after an exchange at [prev]. *)
Definition stored (prev : loc) (x : mptr) (h : gmap nat Node) : gmap nat Node :=
  match prev with
  | NextOf a => match h !! a with Some n => <[a := set_next x n]> h | None => h end
  | _ => h
  end.
Definition stored_head (prev : loc) (x : mptr) (hd : option nat) : option nat :=
  match prev with Head => p_ x | _ => hd end.

Lemma store_eq t prev x s :
  prev ≠ Start → is_Some (load t prev s) →
  store t prev x s = Some (mkState (stored_head prev x (head_ s)) (stored prev x (nodes s))
                             (retired s) (threads s)).
Proof.
  intros Hp [y Hy]. destruct prev as [| |a]; [done|done|]. cbn in *.
  destruct (nodes s !! a); done.
Qed.

(** The chain after it: the nodes up to [prev], then those from the new pointer
    on, in a memory [h] that has at least the chain's nodes. *)
Lemma chain_stored s l prev q k l1 l2 h x l3 :
  shared s l → place s l prev q k l1 l2 → chain h (head_ s) (l1 ++ l2) →
  chain h (p_ x) l3 → (∀ a, a ∈ l1.*1 → a ∉ l3.*1) →
  chain (stored prev x h) (stored_head prev x (head_ s)) (l1 ++ l3).
Proof.
  intros Hs [-> _ _ [[-> ->]|(a & n & l0 & -> & Hn & -> & _)]] Hc Hx Hd; [done|].
  cbn. rewrite <- !app_assoc in *. cbn in *.
  destruct (chain_split _ _ _ _ _ _ Hc) as (n' & Hn' & Hd' & _). rewrite Hn'.
  eapply chain_redirect; [exact Hc|done|done| |].
  - pose proof (s_nodup _ _ Hs) as Hnd. rewrite fmap_app in Hnd. cbn in Hnd. apply NoDup_app in Hnd as (_ & Hdj & _). intros Hin. apply (Hdj a Hin). by left.
  - apply Hd. rewrite fmap_app. cbn. set_solver.
Qed.

Lemma stored_inv prev x h b n' :
  stored prev x h !! b = Some n' →
  (prev ≠ NextOf b ∧ h !! b = Some n') ∨
  (prev = NextOf b ∧ ∃ n, h !! b = Some n ∧ n' = set_next x n).
Proof.
  destruct prev as [| |a]; cbn; [auto|auto|]. destruct (h !! a) as [n|] eqn:Ha.
  - destruct (decide (b = a)) as [->|Hne].
    + rewrite lookup_insert_eq. intros [= <-]. right. eauto.
    + rewrite lookup_insert_ne by done. left. split; [congruence|done].
  - intros Hb. left. split; [|done]. intros [= ->]. congruence.
Qed.

Lemma stored_some prev x h b : is_Some (stored prev x h !! b) ↔ is_Some (h !! b).
Proof.
  destruct prev as [| |a]; cbn; [done|done|]. destruct (h !! a) as [n|] eqn:Ha; [|done].
  rewrite lookup_insert_is_Some. split; [|destruct (decide (a = b)); auto].
  intros [->|[_ ?]]; [by eexists|done].
Qed.

(** Storing an unmarked pointer where one was keeps the set. *)
Lemma member_stored s prev x hd r ths h j :
  m_ x = false →
  (∀ a n, prev = NextOf a → h !! a = Some n → isMarked (next n) = false) →
  member (mkState hd (stored prev x h) r ths) j ↔
  ∃ a n, h !! a = Some n ∧ data n = j ∧ isMarked (next n) = false.
Proof.
  intros Hx Hp. unfold member; cbn. split.
  - intros (a & n & Ha & Hd & Hm). apply stored_inv in Ha as [[_ Ha]|(-> & n' & Ha & ->)]; [eauto|].
    exists a, n'. split_and!; [done|done|]. by apply (Hp a).
  - intros (a & n & Ha & Hd & Hm). destruct (stored_some prev x h a) as [_ Hs].
    destruct Hs as [n' Hn']; [by eexists|]. exists a, n'. split; [done|].
    apply stored_inv in Hn' as [[_ Hn']|(_ & n2 & Hn2 & ->)]; simplify_eq; [done|].
    split; [done|]. exact Hx.
Qed.

Lemma place_unmarked s l prev q k l1 l2 a n :
  place s l prev q k l1 l2 → prev = NextOf a → nodes s !! a = Some n → isMarked (next n) = false.
Proof.
  intros [_ _ _ [[-> _]|(b & n' & l0 & -> & Hn & _ & Hm)]] E Ha; [done|]. by simplify_eq.
Qed.

Lemma shared_keys_below s l prev q k l1 l2 :
  shared s l → place s l prev q k l1 l2 →
  match l2 with [] => True | (_, d) :: _ => (k < d)%Z end →
  increasing (l1 ++ l2).*2 → increasing (l1.*2 ++ k :: l2.*2).
Proof.
  intros Hs [_ _ Hb _] Hlt Hi. rewrite fmap_app in Hi. apply increasing_glue in Hi as (H1 & H2 & H3).
  rewrite Forall_forall in Hb. apply increasing_glue. split_and!; [done| |].
  - constructor; [done|]. destruct l2 as [|[c d] l2]; cbn in *; [constructor|].
    apply StronglySorted_inv in H2 as [_ H2]. constructor; [done|].
    eapply Forall_impl; [exact H2|]. cbn. lia.
  - intros x y Hx [->|Hy]%elem_of_cons; [by apply Hb|by apply H3].
Qed.

(** A node linked at a place whose neighbours have smaller and larger keys. *)
Lemma shared_insert s l prev q k v l1 l2 ths :
  shared s l → place s l prev q k l1 l2 →
  match l2 with [] => True | (_, d) :: _ => (k < d)%Z end →
  let a := malloc (nodes s) in
  let h := <[a := mkNode k v (clean q)]> (nodes s) in
  let s' := mkState (stored_head prev (clean (Some a)) (head_ s))
              (stored prev (clean (Some a)) h) (retired s) ths in
  shared s' (l1 ++ (a, k) :: l2) ∧ (∀ j, member s' j ↔ j = k ∨ member s j).
Proof.
  intros Hs Hpl Hlt a h s'. pose proof (malloc_new (nodes s)) as Hfr. fold a in Hfr.
  pose proof Hpl as [-> Hq Hb Hprev].
  assert (a ∉ (l1 ++ l2).*1) as Hal.
  { intros Hin. destruct (chain_in _ _ _ _ (s_chain _ _ Hs) Hin). congruence. }
  assert (∀ b n, prev = NextOf b → h !! b = Some n → isMarked (next n) = false) as Hun.
  { intros b n E Hbn. unfold h in Hbn. destruct (decide (b = a)) as [->|Hne].
    - rewrite lookup_insert_eq in Hbn. by simplify_eq.
    - rewrite lookup_insert_ne in Hbn by done. by eapply (place_unmarked s). }
  assert (chain h (head_ s) (l1 ++ l2)) as Hch by (apply chain_frame; [done|apply Hs]).
  assert (chain h q l2) as Hc2.
  { apply chain_frame; [rewrite fmap_app, not_elem_of_app in Hal; tauto|]. rewrite <- Hq.
    eapply chain_tail, Hs. }
  rewrite fmap_app, not_elem_of_app in Hal. destruct Hal as [Hal1 Hal2].
  pose proof (s_nodup _ _ Hs) as Hnd. rewrite fmap_app in Hnd.
  apply NoDup_app in Hnd as (Hnd1 & Hdj & Hnd2).
  assert (∀ b n, h !! b = Some n → b = a ∧ n = mkNode k v (clean q) ∨ nodes s !! b = Some n) as Hh.
  { intros b n Hb'. unfold h in Hb'. apply lookup_insert_Some in Hb' as [[<- <-]|[_ ?]]; auto. }
  assert (∀ b, is_Some (nodes s !! b) → is_Some (stored prev (clean (Some a)) h !! b)) as Hsub.
  { intros b Hb'. apply stored_some. unfold h. apply lookup_insert_is_Some'. auto. }
  split; [split; cbn|].
  - eapply (chain_stored s (l1 ++ l2)); [done|done|done| |].
    + cbn. split; [done|]. exists (mkNode k v (clean q)). unfold h. rewrite lookup_insert_eq. done.
    + intros b Hb1. cbn. rewrite not_elem_of_cons. split; [by intros ->|auto].
  - rewrite fmap_app. cbn. eapply shared_keys_below; [done|done|done|apply Hs].
  - rewrite fmap_app. cbn. apply NoDup_app. split_and!; [done| |by constructor].
    intros b Hb1. rewrite not_elem_of_cons. split; [by intros ->|auto].
  - intros b n Hn Hm. rewrite fmap_app. cbn. rewrite elem_of_app, elem_of_cons.
    assert (∃ n, h !! b = Some n ∧ isMarked (next n) = false) as (n0 & Hn0 & Hm0).
    { apply stored_inv in Hn as [[_ Hn]|(E & n' & Hn & ->)]; eauto. }
    destruct (Hh b n0 Hn0) as [[-> _]|Hb']; [auto|].
    pose proof (s_live _ _ Hs b n0 Hb' Hm0) as Hin. rewrite fmap_app in Hin.
    apply elem_of_app in Hin as [?|?]; auto.
  - intros b n c Hn Hc.
    assert (is_Some (stored prev (clean (Some a)) h !! a)) as Ha.
    { apply stored_some. unfold h. rewrite lookup_insert_eq. by eexists. }
    apply stored_inv in Hn as [[_ Hn]|(E & n' & Hn & ->)]; [|cbn in Hc; by simplify_eq].
    destruct (Hh b n Hn) as [[-> ->]|Hb'].
    + cbn in Hc. subst q. apply Hsub. destruct l2 as [|[c' d] l2]; [done|]. cbn in Hc. simplify_eq.
      eapply chain_in; [apply Hs|]. rewrite fmap_app. cbn. set_solver.
    + apply Hsub. by eapply (s_closed _ _ Hs).
  - intros b n Hn Hse. apply stored_inv in Hn as [[_ Hn]|(E & n' & Hn & ->)]; [|done].
    destruct (Hh b n Hn) as [[-> ->]|Hb']; [done|]. by eapply (s_sentinel _ _ Hs).
  - destruct (s_retired _ _ Hs) as [Hr1 Hr2]. split; [done|]. intros b Hb'.
    destruct (Hr2 b Hb') as [Hr3 Hr4]. split; [|by apply Hsub].
    rewrite fmap_app in *. cbn. rewrite not_elem_of_app, not_elem_of_cons in *.
    split_and!; [tauto| |tauto]. intros ->. rewrite Hfr in Hr4. by destruct Hr4.
  - intros j. unfold s'. rewrite (member_stored s) by done. unfold member. split.
    + intros (b & n & Hn & Hd & Hm). destruct (Hh b n Hn) as [[-> ->]|Hb']; [by left|right; eauto].
    + intros [->|(b & n & Hn & Hd & Hm)].
      * exists a, (mkNode k v (clean q)). unfold h. by rewrite lookup_insert_eq.
      * exists b, n. unfold h. rewrite lookup_insert_ne; [done|]. intros ->. congruence.
Qed.

(** A marked node taken out of the chain and handed to the reclaimer. *)
Lemma shared_unlink s l prev cur k l1 l2 c n ths :
  shared s l → place s l prev (Some cur) k l1 l2 →
  nodes s !! cur = Some c → next c = mkPtr n true →
  let s' := mkState (stored_head prev (clean n) (head_ s)) (stored prev (clean n) (nodes s))
              (retired s ++ [cur]) ths in
  (∃ l', shared s' l' ∧ ∀ a, a ∈ l.*1 ↔ a = cur ∨ a ∈ l'.*1) ∧ (∀ j, member s' j ↔ member s j).
Proof.
  intros Hs Hpl Hc Hn s'. pose proof Hpl as [-> Hq Hb Hprev].
  destruct l2 as [|[cur' d] l3]; [done|]. cbn in Hq. simplify_eq.
  assert (∀ b x, prev = NextOf b → nodes s !! b = Some x → isMarked (next x) = false) as Hun.
  { intros b x E Hx. by eapply (place_unmarked s). }
  pose proof (s_nodup _ _ Hs) as Hnd. rewrite fmap_app in Hnd. cbn in Hnd.
  apply NoDup_app in Hnd as (Hnd1 & Hdj & Hnd2). apply NoDup_cons in Hnd2 as [Hcl3 Hnd3].
  assert (cur ∉ l1.*1) as Hcl1 by (intros Hin; apply (Hdj cur Hin); by left).
  destruct (chain_split _ _ _ _ _ _ (s_chain _ _ Hs)) as (c' & Hc' & _ & Hch).
  assert (c' = c) as -> by congruence.
  rewrite Hn in Hch. cbn in Hch.
  assert (∀ b, is_Some (nodes s !! b) → is_Some (stored prev (clean n) (nodes s) !! b)) as Hsub.
  { intros b. apply stored_some. }
  split; [exists (l1 ++ l3); split; [split; cbn|rewrite !fmap_app; cbn; set_solver]|].
  - eapply (chain_stored s (l1 ++ (cur, d) :: l3)); [done|done|apply Hs|done|].
    intros b Hb1 Hb3. apply (Hdj b Hb1). by right.
  - pose proof (s_sorted _ _ Hs) as Hso. rewrite fmap_app in *. cbn in *.
    apply increasing_glue in Hso as (H1 & H2 & H3). apply StronglySorted_inv in H2 as [H2 _].
    apply increasing_glue. split_and!; [done|done|]. intros x y Hx Hy. apply H3; [done|by right].
  - rewrite fmap_app. apply NoDup_app. split_and!; [done| |done].
    intros b Hb1 Hb3. apply (Hdj b Hb1). by right.
  - intros b x Hx Hm. assert (∃ y, nodes s !! b = Some y ∧ isMarked (next y) = false) as (y & Hy & Hmy).
    { apply stored_inv in Hx as [[_ Hx]|(E & y & Hy & ->)]; eauto. }
    pose proof (s_live _ _ Hs b y Hy Hmy) as Hin. rewrite fmap_app in *. cbn in Hin.
    rewrite elem_of_app, elem_of_cons in *. destruct Hin as [?|[->|?]]; auto.
    assert (y = c) as -> by congruence. by rewrite Hn in Hmy.
  - intros b x e Hx He. apply Hsub.
    apply stored_inv in Hx as [[_ Hx]|(E & y & Hy & ->)]; [by eapply (s_closed _ _ Hs)|].
    cbn in He. eapply (s_closed _ _ Hs cur); [done|]. by rewrite Hn.
  - intros b x Hx Hse. apply stored_inv in Hx as [[_ Hx]|(E & y & Hy & ->)]; [|done].
    by eapply (s_sentinel _ _ Hs).
  - destruct (s_retired _ _ Hs) as [Hr1 Hr2]. split.
    + apply NoDup_app. split_and!; [done| |apply NoDup_singleton].
      intros b Hb' ->%list_elem_of_singleton. destruct (Hr2 cur Hb') as [Hnot _].
      apply Hnot. rewrite fmap_app. cbn. set_solver.
    + intros b [Hb'| ->%list_elem_of_singleton]%elem_of_app.
      * destruct (Hr2 b Hb') as [Hr3 Hr4]. split; [|by apply Hsub].
        rewrite fmap_app in *. cbn in Hr3. rewrite not_elem_of_app, not_elem_of_cons in *. tauto.
      * split; [|apply Hsub; by eexists]. rewrite fmap_app, not_elem_of_app. done.
  - intros j. unfold s'. by rewrite (member_stored s).
Qed.

(** Marking a node takes its key out of the set. *)
Lemma shared_mark s l cur c n ths :
  shared s l → nodes s !! cur = Some c → next c = clean n → sentinel (data c) = false →
  let s' := mkState (head_ s) (<[cur := set_next (mark (clean n)) c]> (nodes s)) (retired s) ths in
  shared s' l ∧ member s (data c) ∧ (∀ j, member s' j ↔ member s j ∧ j ≠ data c).
Proof.
  intros Hs Hc Hn Hse s'.
  assert (∀ b x, nodes s' !! b = Some x →
    b = cur ∧ x = set_next (mark (clean n)) c ∨ b ≠ cur ∧ nodes s !! b = Some x) as Hh.
  { intros b x Hx. cbn in Hx. apply lookup_insert_Some in Hx as [[<- <-]|[? ?]]; auto. }
  assert (∀ b, is_Some (nodes s !! b) → is_Some (nodes s' !! b)) as Hsub.
  { intros b Hb. cbn. apply lookup_insert_is_Some'. auto. }
  split; [split; cbn|split].
  - pose proof (chain_mark (nodes s) (head_ s) l cur c true Hc (s_chain _ _ Hs)) as Hm.
    rewrite Hn in Hm. exact Hm.
  - apply Hs.
  - apply Hs.
  - intros b x Hx Hm. destruct (Hh b x Hx) as [[_ ->]|[_ Hb]]; [done|]. by eapply (s_live _ _ Hs).
  - intros b x e Hx He. apply Hsub. destruct (Hh b x Hx) as [[-> ->]|[_ Hb]].
    + eapply (s_closed _ _ Hs cur); [done|]. by rewrite Hn.
    + by eapply (s_closed _ _ Hs).
  - intros b x Hx Hs'. destruct (Hh b x Hx) as [[_ ->]|[_ Hb]]; [cbn in Hs'; congruence|].
    by eapply (s_sentinel _ _ Hs).
  - destruct (s_retired _ _ Hs) as [Hr1 Hr2]. split; [done|]. intros b Hb.
    destruct (Hr2 b Hb). auto.
  - exists cur, c. by rewrite Hn.
  - intros j. split.
    + intros (b & x & Hx & Hd & Hm). destruct (Hh b x Hx) as [[_ ->]|[Hne Hb]]; [done|].
      split; [by exists b, x|]. intros ->. apply Hne.
      apply (key_unique s l b cur x c); try done. by rewrite Hn.
    + intros [(b & x & Hx & Hd & Hm) Hne]. exists b, x. cbn. rewrite lookup_insert_ne; [done|].
      intros <-. congruence.
Qed.
End places.

(** ** The threads *)

Section threads.
Context `{Sentinel}.
Implicit Types (s : state) (th : thread).

(** What thread [t] has seen since its call: a state in which its key was in
    the set, or one in which it was not. *)
Definition saw (l : label) s' (w : nat → Prop) (P : Z → Prop) : nat → Prop := λ u,
  (match l with Call t _ _ => u ≠ t ∧ w u | Go _ => w u end) ∨ P (key (oper (threads s' u))).

Inductive reach : state → (nat → Prop) → (nat → Prop) → Prop :=
  | reach_init : reach init (λ _, False) (λ _, False)
  | reach_step l s s' seen_in seen_out :
      reach s seen_in seen_out → step l s = Some s' →
      reach s' (saw l s' seen_in (member s')) (saw l s' seen_out (λ k, ¬ member s' k)).

Definition known s (o : option nat) : Prop :=
  match o with None => True | Some a => is_Some (nodes s !! a) end.

Definition prev_ok s th (prev : loc) : Prop :=
  match prev with
  | Head => True
  | Start => start_ th ≠ None
  | NextOf a => ∃ n, nodes s !! a = Some n ∧ (data n < key (oper th))%Z
  end.

(** What the result of an operation says about what was seen. *)
Definition result_ok (o : op) (res : bool) (seen_in seen_out : Prop) : Prop :=
  match o with
  | Lookup _ => if res then seen_in else seen_out
  | Insert _ _ => if res then True else seen_in
  | Remove _ => if res then True else seen_out
  | Cleanup _ => True
  end.

Definition pc_ok s th (seen_in seen_out : Prop) : Prop :=
  let k := key (oper th) in
  match at_ th with
  | Idle | TryAgain => True
  | Loop prev cur =>
    prev_ok s th prev ∧ known s cur ∧ (prev = Start → cur = start_ th) ∧ (cur = None → seen_out)
  | Check1 prev cur | ReadNext prev cur =>
    prev_ok s th prev ∧ known s (Some cur) ∧ (prev = Start → Some cur = start_ th)
  | Unlink prev cur n =>
    below s prev k ∧ known s n ∧ ∃ c, nodes s !! cur = Some c ∧ next c = mkPtr n true
  | Check2 prev cur n =>
    prev_ok s th prev ∧ (prev = Start → Some cur = start_ th) ∧ known s n ∧
    ∃ c, nodes s !! cur = Some c ∧ (data c = k → seen_in) ∧
         (n = None → (data c < k)%Z → seen_out)
  | CasInsert prev cur =>
    (∃ v, oper th = Insert k v) ∧ below s prev k ∧
    (∀ c, cur = Some c → ∃ x, nodes s !! c = Some x ∧ (k < data x)%Z)
  | CasMark prev cur n =>
    oper th = Remove k ∧ below s prev k ∧ ∃ c, nodes s !! cur = Some c ∧ data c = k
  | CasDelete prev cur n =>
    oper th = Remove k ∧ below s prev k ∧ ∃ c, nodes s !! cur = Some c ∧ next c = mkPtr n true
  | Done res _ => result_ok (oper th) res seen_in seen_out
  end.

Record thread_ok s th (seen_in seen_out : Prop) : Prop := {
  t_start : ∀ a, start_ th = Some a →
    ∃ n, nodes s !! a = Some n ∧ sentinel (data n) = true ∧ (data n < key (oper th))%Z;
  t_oper : ∀ k, oper th = Remove k → sentinel k = false;
  t_pc : pc_ok s th seen_in seen_out
}.

Definition Inv s (seen_in seen_out : nat → Prop) : Prop :=
  (∃ l, shared s l) ∧ ∀ t, thread_ok s (threads s t) (seen_in t) (seen_out t).

(** *** Memory only grows *)

Definition grows s s' : Prop := ∀ a n, nodes s !! a = Some n → ∃ n',
  nodes s' !! a = Some n' ∧ data n' = data n ∧ (isMarked (next n) = true → next n' = next n).

Lemma grows_same s s' : nodes s' = nodes s → grows s s'.
Proof. intros E a n Ha. rewrite E. eauto. Qed.

Lemma grows_known s s' o : grows s s' → known s o → known s' o.
Proof.
  intros Hg. destruct o as [a|]; [|done]. intros [n Hn]. destruct (Hg a n Hn) as (n' & Hn' & _).
  by exists n'.
Qed.

Lemma grows_below s s' prev k : grows s s' → below s prev k → below s' prev k.
Proof.
  intros Hg. destruct prev as [| |a]; [done|done|]. intros (n & Hn & Hk).
  destruct (Hg a n Hn) as (n' & Hn' & Hd & _). exists n'. by rewrite Hd.
Qed.

Lemma grows_prev s s' th prev : grows s s' → prev_ok s th prev → prev_ok s' th prev.
Proof.
  intros Hg. destruct prev as [| |a]; [done|done|]. intros (n & Hn & Hk).
  destruct (Hg a n Hn) as (n' & Hn' & Hd & _). exists n'. by rewrite Hd.
Qed.

(** What a thread knows stays true when others move. *)
Lemma thread_ok_grows s s' th (wi wo wi' wo' : Prop) :
  grows s s' → (wi → wi') → (wo → wo') → thread_ok s th wi wo → thread_ok s' th wi' wo'.
Proof.
  intros Hg Hi Ho [H1 H2 H3]. split; [|done|].
  { intros a Ha. destruct (H1 a Ha) as (n & Hn & Hs & Hk).
    destruct (Hg a n Hn) as (n' & Hn' & Hd & _). exists n'. by rewrite Hd. }
  unfold pc_ok in *.
  destruct (at_ th) as [| |prev cur|prev cur|prev cur|prev cur n|prev cur n|prev cur|prev cur n
    |prev cur n|res f]; try done.
  - destruct H3 as (? & ? & ? & ?). split_and!; eauto using grows_prev, grows_known.
  - destruct H3 as (? & ? & ?).
    split_and!; [by eapply grows_prev|by eapply (grows_known s s' (Some cur))|done].
  - destruct H3 as (? & ? & ?).
    split_and!; [by eapply grows_prev|by eapply (grows_known s s' (Some cur))|done].
  - destruct H3 as (? & ? & c & Hc & Hn). split_and!; eauto using grows_below, grows_known.
    destruct (Hg cur c Hc) as (c' & Hc' & _ & Hm). exists c'. rewrite Hm; [done|by rewrite Hn].
  - destruct H3 as (? & ? & ? & c & Hc & Hin & Hout). split_and!; eauto using grows_prev, grows_known.
    destruct (Hg cur c Hc) as (c' & Hc' & Hd & _). exists c'. rewrite Hd. auto.
  - destruct H3 as (? & ? & Hx). split_and!; eauto using grows_below. intros c E.
    destruct (Hx c E) as (x & Hx' & Hk). destruct (Hg c x Hx') as (x' & ? & Hd & _).
    exists x'. by rewrite Hd.
  - destruct H3 as (? & ? & c & Hc & Hk). split_and!; eauto using grows_below.
    destruct (Hg cur c Hc) as (c' & Hc' & Hd & _). exists c'. by rewrite Hd.
  - destruct H3 as (? & ? & c & Hc & Hn). split_and!; eauto using grows_below.
    destruct (Hg cur c Hc) as (c' & Hc' & _ & Hm). exists c'. rewrite Hm; [done|by rewrite Hn].
  - unfold result_ok in *. destruct (oper th), res; auto.
Qed.

(** *** Steps *)

(** A step of [t] that leaves memory [s1] and ends at [c]. *)
Lemma Inv_pc t c s s1 wi wo :
  Inv s wi wo → grows s s1 → threads s1 = threads s → (∃ l, shared s1 l) →
  (let th := threads s t in let k := key (oper th) in
   pc_ok s1 (mkThread (oper th) (start_ th) c) (wi t ∨ member s1 k) (wo t ∨ ¬ member s1 k)) →
  Inv (goto t c s1) (saw (Go t) (goto t c s1) wi (member (goto t c s1)))
                    (saw (Go t) (goto t c s1) wo (λ k, ¬ member (goto t c s1) k)).
Proof.
  intros [_ Ht] Hg Eth [l Hl] Hpc. split.
  { exists l. destruct Hl. by split. }
  assert (grows s (goto t c s1)) as Hg' by done.
  intros u. unfold saw. cbn. rewrite Eth. destruct (decide (u = t)) as [->|Hne].
  - rewrite upd_eq. cbn. destruct (Ht t) as [H1 H2 _]. split; [|done|done].
    intros a Ha. destruct (H1 a Ha) as (n & Hn & Hs & Hk).
    destruct (Hg a n Hn) as (n' & Hn' & Hd & _). exists n'. by rewrite Hd.
  - rewrite upd_ne by done. eapply (thread_ok_grows s); [done| | |exact (Ht u)]; by left.
Qed.

(** A step that only reads. *)
Lemma Inv_read t c s wi wo :
  Inv s wi wo →
  (let th := threads s t in let k := key (oper th) in
   pc_ok s (mkThread (oper th) (start_ th) c) (wi t ∨ member s k) (wo t ∨ ¬ member s k)) →
  Inv (goto t c s) (saw (Go t) (goto t c s) wi (member (goto t c s)))
                   (saw (Go t) (goto t c s) wo (λ k, ¬ member (goto t c s) k)).
Proof.
  intros HI Hpc. apply (Inv_pc t c s); [done|by apply grows_same|done|apply HI|done].
Qed.

(** At the end of the chain, or between neighbours, the key is absent. *)
Lemma between_absent s l t prev q k :
  shared s l → below s prev k → load t prev s = Some (clean q) →
  (∀ c, q = Some c → ∃ x, nodes s !! c = Some x ∧ (k < data x)%Z) → ¬ member s k.
Proof.
  intros Hs Hb Hl Hq. destruct (locate s l t prev q k Hs Hb Hl) as (l1 & l2 & Hpl).
  eapply absent; [done|done|]. pose proof Hpl as [-> Hf _ _].
  destruct l2 as [|[c d] l2]; [done|]. cbn in Hf.
  destruct (Hq c (eq_sym Hf)) as (x & Hx & Hlt).
  destruct (chain_split _ _ _ _ _ _ (s_chain _ _ Hs)) as (n & Hn & <- & _). congruence.
Qed.

Lemma place_next s l prev q k l1 l2 :
  shared s l → place s l prev q k l1 l2 →
  (∀ c, q = Some c → ∃ x, nodes s !! c = Some x ∧ (k < data x)%Z) →
  match l2 with [] => True | (_, d) :: _ => (k < d)%Z end.
Proof.
  intros Hs [-> Hf _ _] Hq. destruct l2 as [|[c d] l2]; [done|]. cbn in Hf.
  destruct (Hq c (eq_sym Hf)) as (x & Hx & Hlt).
  destruct (chain_split _ _ _ _ _ _ (s_chain _ _ Hs)) as (n & Hn & <- & _). congruence.
Qed.

(** A place with nothing to its right, or a larger key. *)
Lemma prev_below s th prev : prev_ok s th prev → prev ≠ Start → below s prev (key (oper th)).
Proof. by destruct prev. Qed.

Lemma below_prev s th prev : below s prev (key (oper th)) → prev_ok s th prev.
Proof. by destruct prev. Qed.

Lemma start_unmarked s l th wi wo cur c :
  shared s l → thread_ok s th wi wo → Some cur = start_ th → nodes s !! cur = Some c →
  isMarked (next c) = false ∧ (data c < key (oper th))%Z.
Proof.
  intros Hs Ht E Hc. destruct (t_start _ _ _ _ Ht cur (eq_sym E)) as (n & Hn & Hse & Hk).
  simplify_eq. split; [by eapply (s_sentinel _ _ Hs)|done].
Qed.

Lemma Inv_try t s s' wi wo :
  Inv s wi wo → at_ (threads s t) = TryAgain → lookupInternal_step t s = Some s' →
  Inv s' (saw (Go t) s' wi (member s')) (saw (Go t) s' wo (λ k, ¬ member s' k)).
Proof.
  intros HI Hat Hs. unfold lookupInternal_step in Hs. rewrite Hat in Hs.
  pose proof HI as [[l Hl] Ht]. destruct (Ht t) as [Hst _ _].
  unfold startingPointer in *. destruct (start_ (threads s t)) as [a|] eqn:Ea; cbn in Hs;
    rewrite ?Ea in Hs; simplify_eq; apply Inv_read; try done; unfold pc_ok; cbn; rewrite Ea.
  - destruct (Hst a eq_refl) as (n & Hn & _). split_and!; [done|by eexists|done|done].
  - split_and!; [done| |done|].
    + pose proof (chain_first _ _ _ (s_chain _ _ Hl)) as Hh.
      destruct l as [|[b d] l]; cbn in Hh; rewrite Hh; [done|]. cbn.
      eapply chain_in; [apply Hl|]. by left.
    + intros Hn. right. eapply (between_absent s l t Head None); [done|done| |done].
      cbn. by rewrite Hn.
Qed.

Lemma Inv_loop t s s' wi wo prev cur :
  Inv s wi wo → at_ (threads s t) = Loop prev cur → lookupInternal_step t s = Some s' →
  Inv s' (saw (Go t) s' wi (member s')) (saw (Go t) s' wo (λ k, ¬ member s' k)).
Proof.
  intros HI Hat Hs. unfold lookupInternal_step in Hs. rewrite Hat in Hs.
  pose proof HI as [_ Ht]. destruct (Ht t) as [_ _ Hpc]. unfold pc_ok in Hpc. rewrite Hat in Hpc.
  destruct Hpc as (Hp & Hk & Hst & Hout). destruct cur as [cur|]; simplify_eq; apply Inv_read; try done.
  specialize (Hout eq_refl). unfold pc_ok; cbn.
  destruct (oper (threads s t)) as [k v|k|k|k] eqn:Eo; cbn; auto.
  split_and!; [by exists v| |done].
  pose proof (prev_below s (threads s t) prev Hp) as Hb. rewrite Eo in Hb. apply Hb. intros ->.
  specialize (Hst eq_refl). cbn in Hp. congruence.
Qed.

Lemma Inv_check1 t s s' wi wo prev cur :
  Inv s wi wo → at_ (threads s t) = Check1 prev cur → lookupInternal_step t s = Some s' →
  Inv s' (saw (Go t) s' wi (member s')) (saw (Go t) s' wo (λ k, ¬ member s' k)).
Proof.
  intros HI Hat Hs. unfold lookupInternal_step in Hs. rewrite Hat in Hs.
  pose proof HI as [_ Ht]. destruct (Ht t) as [_ _ Hpc]. unfold pc_ok in Hpc. rewrite Hat in Hpc.
  destruct (load t prev s) as [x|]; cbn in Hs; [|done]. simplify_eq. apply Inv_read; [done|].
  by case_decide.
Qed.

Lemma Inv_readnext t s s' wi wo prev cur :
  Inv s wi wo → at_ (threads s t) = ReadNext prev cur → lookupInternal_step t s = Some s' →
  Inv s' (saw (Go t) s' wi (member s')) (saw (Go t) s' wo (λ k, ¬ member s' k)).
Proof.
  intros HI Hat Hs. unfold lookupInternal_step in Hs. rewrite Hat in Hs.
  pose proof HI as [[l Hl] Ht]. pose proof (Ht t) as Htt. pose proof (t_pc _ _ _ _ Htt) as Hpc.
  unfold pc_ok in Hpc. rewrite Hat in Hpc. destruct Hpc as (Hp & Hk & Hst).
  destruct (nodes s !! cur) as [c|] eqn:Hc; cbn in Hs; [|done]. simplify_eq.
  assert (known s (p_ (next c))) as Hkn.
  { destruct (p_ (next c)) as [b|] eqn:Eb; [|done]. by eapply (s_closed _ _ Hl). }
  apply Inv_read; [done|]. destruct (isMarked (next c)) eqn:Hm; unfold pc_ok; cbn.
  - split_and!; [|done|exists c; split; [done|]; by destruct (next c); cbn in *; subst].
    apply (prev_below s (threads s t)); [done|]. intros ->.
    destruct (start_unmarked s l _ _ _ cur c Hl Htt (Hst eq_refl) Hc). congruence.
  - split_and!; [done|done|done|]. exists c. split_and!; [done| |].
    + intros Hd. right. by exists cur, c.
    + intros Hn Hlt. right. eapply (between_absent s l t (NextOf cur) None); [done|by exists c| |done].
      cbn. rewrite Hc. cbn. unfold clean. destruct (next c); cbn in *; by subst.
Qed.

Lemma Inv_check2 t s s' wi wo prev cur n :
  Inv s wi wo → at_ (threads s t) = Check2 prev cur n → lookupInternal_step t s = Some s' →
  Inv s' (saw (Go t) s' wi (member s')) (saw (Go t) s' wo (λ k, ¬ member s' k)).
Proof.
  intros HI Hat Hs. unfold lookupInternal_step in Hs. rewrite Hat in Hs.
  pose proof HI as [[l Hl] Ht]. pose proof (Ht t) as Htt. pose proof (t_pc _ _ _ _ Htt) as Hpc.
  unfold pc_ok in Hpc. rewrite Hat in Hpc. destruct Hpc as (Hp & Hst & Hkn & c & Hc & Hin & Hout).
  rewrite Hc in Hs. cbn in Hs. destruct (load t prev s) as [x|] eqn:Hx; cbn in Hs; [|done].
  simplify_eq. apply Inv_read; [done|]. cbn zeta. case_decide as Hx'; [done|].
  assert (x = clean (Some cur)) as -> by (destruct (decide (x = clean (Some cur))); [done|tauto]).
  case_decide as Hge.
  2:{ unfold pc_ok; cbn. split_and!; [exists c; split; [done|lia]|done|done|].
      intros ->. left. apply Hout; [done|lia]. }
  assert (below s prev (key (oper (threads s t)))) as Hb.
  { apply prev_below; [done|]. intros ->.
    destruct (start_unmarked s l _ _ _ cur c Hl Htt (Hst eq_refl) Hc). lia. }
  case_bool_decide as Hk.
  - specialize (Hin Hk). unfold pc_ok, result_ok; destruct (oper (threads s t)) eqn:Eo; cbn in *;
      [by left| |by left|done]. split_and!; [done|done|]. by exists c.
  - assert (¬ member s (key (oper (threads s t)))) as Habs.
    { eapply (between_absent s l t prev); [done|done|exact Hx|].
      intros b [= <-]. exists c. split; [done|lia]. }
    unfold pc_ok, result_ok; destruct (oper (threads s t)) eqn:Eo; cbn in *;
      [|by right|by right|done]. split_and!; [by eexists|done|]. intros b [= <-]. exists c. split; [done|lia].
Qed.

(** A compare and swap: it fails and changes nothing, or succeeds. *)
Lemma cas_inv t prev old new s ok s1 :
  cas t prev old new s = Some (ok, s1) → prev ≠ Start →
  (ok = false ∧ s1 = s) ∨
  (ok = true ∧ load t prev s = Some old ∧
   s1 = mkState (stored_head prev new (head_ s)) (stored prev new (nodes s)) (retired s) (threads s)).
Proof.
  unfold cas. intros Hc Hp. destruct (load t prev s) as [x|] eqn:Hx; cbn in Hc; [|done].
  case_decide as E; [subst x|simplify_eq; auto].
  rewrite store_eq in Hc; [|done|by eexists]. cbn in Hc. simplify_eq. auto.
Qed.

(** Storing an unmarked pointer over an unmarked one only changes pointers. *)
Lemma grows_stored s prev x hd r ths :
  (∀ a n, prev = NextOf a → nodes s !! a = Some n → isMarked (next n) = false) →
  grows s (mkState hd (stored prev x (nodes s)) r ths).
Proof.
  intros Hun a n Ha. cbn. destruct (stored_some prev x (nodes s) a) as [_ [n' Hn']]; [by eexists|].
  exists n'. split; [done|].
  apply stored_inv in Hn' as [[_ Hn']|(E & y & Hy & ->)].
  - assert (n' = n) as -> by congruence. done.
  - assert (y = n) as -> by congruence. split; [done|]. by rewrite (Hun a n).
Qed.

(** Unlinking, in [lookupInternal] and in [remove]. *)
Lemma unlink_chain t s l prev cur n k :
  shared s l → below s prev k → load t prev s = Some (clean (Some cur)) →
  (∃ c, nodes s !! cur = Some c ∧ next c = mkPtr n true) →
  let s' := retire cur (mkState (stored_head prev (clean n) (head_ s)) (stored prev (clean n) (nodes s))
              (retired s) (threads s)) in
  (∃ l', shared s' l' ∧ ∀ a, a ∈ l.*1 ↔ a = cur ∨ a ∈ l'.*1) ∧ (∀ j, member s' j ↔ member s j) ∧ grows s s'.
Proof.
  intros Hs Hb Hl (c & Hc & Hn). destruct (locate s l t prev _ k Hs Hb Hl) as (l1 & l2 & Hpl).
  destruct (shared_unlink s l prev cur k l1 l2 c n (threads s) Hs Hpl Hc Hn) as [Hsh Hm].
  split_and!; [done|done|]. apply grows_stored. intros a x E Hx. by eapply place_unmarked.
Qed.

Lemma unlink_shared t s l prev cur n k :
  shared s l → below s prev k → load t prev s = Some (clean (Some cur)) →
  (∃ c, nodes s !! cur = Some c ∧ next c = mkPtr n true) →
  let s' := retire cur (mkState (stored_head prev (clean n) (head_ s)) (stored prev (clean n) (nodes s))
              (retired s) (threads s)) in
  (∃ l', shared s' l') ∧ (∀ j, member s' j ↔ member s j) ∧ grows s s'.
Proof.
  intros Hs Hb Hl Hc. destruct (unlink_chain t s l prev cur n k Hs Hb Hl Hc) as ([l' [Hl' _]] & Hm & Hg).
  split_and!; [by exists l'|done|done].
Qed.

Lemma Inv_unlink t s s' wi wo prev cur n :
  Inv s wi wo → at_ (threads s t) = Unlink prev cur n → lookupInternal_step t s = Some s' →
  Inv s' (saw (Go t) s' wi (member s')) (saw (Go t) s' wo (λ k, ¬ member s' k)).
Proof.
  intros HI Hat Hs. unfold lookupInternal_step in Hs. rewrite Hat in Hs.
  pose proof HI as [[l Hl] Ht]. pose proof (t_pc _ _ _ _ (Ht t)) as Hpc.
  unfold pc_ok in Hpc. rewrite Hat in Hpc. destruct Hpc as (Hb & Hkn & Hc).
  destruct (cas t prev _ _ s) as [[ok s1]|] eqn:Hcas; cbn in Hs; [|done].
  apply cas_inv in Hcas as [[-> ->]|(-> & Hld & ->)]; [| |by intros ->]; simplify_eq.
  - by apply Inv_read.
  - destruct (unlink_shared t s l prev cur n _ Hl Hb Hld Hc) as ([l' Hl'] & Hm & Hg).
    eapply Inv_pc; [done|exact Hg|done|by exists l'|]. unfold pc_ok; cbn.
    split_and!.
    + apply below_prev. cbn. by eapply grows_below.
    + by eapply grows_known.
    + by intros ->.
    + intros ->. right. eapply (between_absent _ l' t prev None); [exact Hl'|by eapply grows_below| |done].
      destruct prev as [| |a]; [done|done|]. cbn in Hb |- *. destruct Hb as (x & Hx & _).
      rewrite Hx. cbn. by rewrite lookup_insert_eq.
Qed.

Lemma Inv_lookupInternal t s s' wi wo :
  Inv s wi wo → lookupInternal_step t s = Some s' →
  Inv s' (saw (Go t) s' wi (member s')) (saw (Go t) s' wo (λ k, ¬ member s' k)).
Proof.
  intros HI Hs. destruct (at_ (threads s t)) eqn:Hat;
    try (unfold lookupInternal_step in Hs; rewrite Hat in Hs; done).
  - by eapply Inv_try.
  - by eapply Inv_loop.
  - by eapply Inv_check1.
  - by eapply Inv_readnext.
  - by eapply Inv_unlink.
  - by eapply Inv_check2.
Qed.

(** *** The exchanges of [insert] and [remove] *)

(** [insert]'s exchange: it fails, or the key was absent and is inserted. *)
Lemma insert_cases t k v prev cur s l s' :
  shared s l → below s prev k →
  (∀ c, cur = Some c → ∃ x, nodes s !! c = Some x ∧ (k < data x)%Z) →
  insert_step t k v prev cur s = Some s' →
  s' = goto t TryAgain s ∨
  ∃ s1, s' = goto t (Done true (Some (malloc (nodes s)))) s1 ∧ threads s1 = threads s ∧ grows s s1 ∧
        (∃ l', shared s1 l') ∧ ¬ member s k ∧ (∀ j, member s1 j ↔ j = k ∨ member s j).
Proof.
  intros Hs Hb Hq Hi. unfold insert_step in Hi.
  destruct (load t prev s) as [x|] eqn:Hx; cbn in Hi; [|done].
  case_decide as E; [subst x|simplify_eq; auto]. right.
  destruct (locate s l t prev cur k Hs Hb Hx) as (l1 & l2 & Hpl).
  pose proof (place_next s l prev cur k l1 l2 Hs Hpl Hq) as Hlt.
  destruct (shared_insert s l prev cur k v l1 l2 (threads s) Hs Hpl Hlt) as [Hsh Hm].
  set (a := malloc (nodes s)) in *.
  set (h := <[a := mkNode k v (clean cur)]> (nodes s)) in *.
  assert (prev ≠ Start) as Hps by by intros ->.
  assert (is_Some (load t prev (mkState (head_ s) h (retired s) (threads s)))) as Hld.
  { destruct prev as [| |b]; [by eexists|done|]. cbn in *. destruct Hb as (n & Hn & _). unfold h.
    destruct (decide (b = a)) as [->|Hne]; [rewrite lookup_insert_eq|rewrite lookup_insert_ne, Hn by done];
      by eexists. }
  rewrite store_eq in Hi by done. cbn in Hi. simplify_eq.
  eexists. split_and!; [reflexivity|done| |by eexists|by eapply absent|done].
  assert (∀ b n, prev = NextOf b → h !! b = Some n → isMarked (next n) = false) as Hun.
  { intros b n -> Hn. unfold h in Hn. apply lookup_insert_Some in Hn as [[_ <-]|[_ Hn]]; [done|].
    by eapply place_unmarked. }
  intros b n Hn.
  assert (b ≠ a) as Hne.
  { intros ->. pose proof (malloc_new (nodes s)) as Hf. fold a in Hf. congruence. }
  apply (grows_stored (mkState (head_ s) h (retired s) (threads s)) prev); [done|].
  cbn. unfold h. by rewrite lookup_insert_ne.
Qed.

Lemma Inv_insert t s s' wi wo prev cur k v :
  Inv s wi wo → at_ (threads s t) = CasInsert prev cur → oper (threads s t) = Insert k v →
  insert_step t k v prev cur s = Some s' →
  Inv s' (saw (Go t) s' wi (member s')) (saw (Go t) s' wo (λ k, ¬ member s' k)).
Proof.
  intros HI Hat Ho Hs. pose proof HI as [[l Hl] Ht]. pose proof (t_pc _ _ _ _ (Ht t)) as Hpc.
  unfold pc_ok in Hpc. rewrite Hat in Hpc. destruct Hpc as (_ & Hb & Hq).
  rewrite Ho in Hb, Hq. cbn in Hb, Hq.
  destruct (insert_cases t k v prev cur s l s' Hl Hb Hq Hs)
    as [->|(s1 & -> & Eth & Hg & Hsh & _ & _)]; [by apply Inv_read|].
  eapply Inv_pc; try done. unfold pc_ok; cbn. by rewrite Ho.
Qed.

(** [remove]'s first exchange: it fails, or the key was there and is taken out. *)
Lemma mark_cases t prev cur n s l s' c :
  shared s l → nodes s !! cur = Some c → sentinel (data c) = false →
  mark_step t prev cur n s = Some s' →
  s' = goto t TryAgain s ∨
  ∃ s1, s' = goto t (CasDelete prev cur n) s1 ∧ threads s1 = threads s ∧ grows s s1 ∧
        shared s1 l ∧ (∃ c', nodes s1 !! cur = Some c' ∧ next c' = mkPtr n true) ∧
        member s (data c) ∧ (∀ j, member s1 j ↔ member s j ∧ j ≠ data c).
Proof.
  intros Hs Hc Hse Hm. unfold mark_step in Hm.
  destruct (cas t _ _ _ s) as [[ok s1]|] eqn:Hcas; cbn in Hm; [|done].
  apply cas_inv in Hcas as [[-> ->]|(-> & Hld & ->)]; [| |done]; simplify_eq; [by left|right].
  cbn in *. rewrite Hc in *. cbn in Hld. injection Hld as Hn.
  destruct (shared_mark s l cur c n (threads s) Hs Hc Hn Hse) as (Hsh & Hin & Hmem).
  eexists. split_and!; [reflexivity|done| |exact Hsh| |done|done].
  - intros a x Hx. cbn. destruct (decide (a = cur)) as [->|Hne].
    + rewrite lookup_insert_eq. assert (x = c) as -> by congruence.
      eexists. split_and!; [done|done|]. by rewrite Hn.
    + rewrite lookup_insert_ne by done. eauto.
  - cbn. rewrite lookup_insert_eq. by eexists.
Qed.

Lemma Inv_mark t s s' wi wo prev cur n :
  Inv s wi wo → at_ (threads s t) = CasMark prev cur n → mark_step t prev cur n s = Some s' →
  Inv s' (saw (Go t) s' wi (member s')) (saw (Go t) s' wo (λ k, ¬ member s' k)).
Proof.
  intros HI Hat Hs. pose proof HI as [[l Hl] Ht]. pose proof (Ht t) as Htt.
  pose proof (t_pc _ _ _ _ Htt) as Hpc. unfold pc_ok in Hpc. rewrite Hat in Hpc.
  destruct Hpc as (Ho & Hb & c & Hc & Hk).
  destruct (mark_cases t prev cur n s l s' c Hl Hc) as [->|(s1 & -> & Eth & Hg & Hsh & Hc' & _)].
  - rewrite Hk. by apply (t_oper _ _ _ _ Htt).
  - done.
  - by apply Inv_read.
  - eapply Inv_pc; try done; [by exists l|]. unfold pc_ok; cbn.
    split_and!; [done|by eapply grows_below|done].
Qed.

Lemma Inv_delete t s s' wi wo prev cur n :
  Inv s wi wo → at_ (threads s t) = CasDelete prev cur n → delete_step t prev cur n s = Some s' →
  Inv s' (saw (Go t) s' wi (member s')) (saw (Go t) s' wo (λ k, ¬ member s' k)).
Proof.
  intros HI Hat Hs. pose proof HI as [[l Hl] Ht]. pose proof (Ht t) as Htt.
  pose proof (t_pc _ _ _ _ Htt) as Hpc. unfold pc_ok in Hpc. rewrite Hat in Hpc.
  destruct Hpc as (Ho & Hb & Hc). unfold delete_step in Hs.
  destruct (cas t prev _ _ s) as [[ok s1]|] eqn:Hcas; cbn in Hs; [|done].
  apply cas_inv in Hcas as [[-> ->]|(-> & Hld & ->)]; [| |by intros ->]; simplify_eq.
  - split; [exists l; by destruct Hl; split|]. intros u. unfold saw. cbn.
    destruct (decide (u = t)) as [->|Hne].
    + rewrite !upd_eq. cbn. split; [|done|done]. intros a Ha.
      destruct (t_start _ _ _ _ Htt a Ha) as (x & Hx). by exists x.
    + rewrite !upd_ne by done. eapply (thread_ok_grows s); [by apply grows_same| | |exact (Ht u)];
        by left.
  - destruct (unlink_shared t s l prev cur n _ Hl Hb Hld Hc) as (Hsh & _ & Hg).
    eapply Inv_pc; [done|exact Hg|done|done|]. unfold pc_ok; cbn. by rewrite Ho.
Qed.

Lemma Inv_call t o start s s' wi wo :
  Inv s wi wo → step (Call t o start) s = Some s' →
  Inv s' (saw (Call t o start) s' wi (member s')) (saw (Call t o start) s' wo (λ k, ¬ member s' k)).
Proof.
  intros [[l Hl] Ht] Hs. cbn in Hs. destruct (at_ (threads s t)); try done.
  destruct (callable o start s) eqn:Hca; [|done]. simplify_eq.
  unfold callable in Hca. apply andb_true_iff in Hca as [Hca1 Hca2].
  split; [exists l; by destruct Hl; split|]. intros u. unfold saw. cbn.
  destruct (decide (u = t)) as [->|Hne].
  - rewrite upd_eq. split; cbn; [| |done].
    + intros a ->. destruct (nodes s !! a) as [n|] eqn:Hn; [|done].
      apply andb_true_iff in Hca1 as [? ?%bool_decide_eq_true]. by exists n.
    + intros k ->. by apply negb_true_iff in Hca2.
  - rewrite upd_ne by done. eapply (thread_ok_grows s); [by apply grows_same| | |exact (Ht u)];
      by left.
Qed.

Lemma Inv_reach s wi wo : reach s wi wo → Inv s wi wo.
Proof.
  induction 1 as [|l s s' wi wo Hr IH Hs].
  - split; [|intros t; by split]. exists [].
    split; cbn; try done; try constructor; try constructor; intros; set_solver.
  - destruct l as [t o start|t]; [by apply (Inv_call t o start s)|]. cbn in Hs. unfold go in Hs.
    destruct (at_ (threads s t)) eqn:Hat; try done; try (by eapply Inv_lookupInternal).
    + destruct (oper (threads s t)) eqn:Ho; try done. by eapply Inv_insert.
    + by eapply Inv_mark.
    + by eapply Inv_delete.
    + simplify_eq. by apply Inv_read.
Qed.

Lemma reach_exec sched : ∀ s s' wi wo,
  reach s wi wo → exec step sched s = Some s' → ∃ wi' wo', reach s' wi' wo'.
Proof.
  induction sched as [|l sched IH]; intros s s' wi wo Hr He; cbn in He.
  - simplify_eq. eauto.
  - destruct (step l s) as [s1|] eqn:Hs; cbn in He; [|done].
    eapply IH; [|exact He]. by eapply reach_step.
Qed.

(** What a step does to the set of keys. *)
Inductive effect s s' : label → Prop :=
  | effect_none l : (∀ j, member s' j ↔ member s j) → effect s s' l
  | effect_insert t k v a :
      oper (threads s t) = Insert k v → ¬ member s k → (∀ j, member s' j ↔ j = k ∨ member s j) →
      at_ (threads s' t) = Done true (Some a) → effect s s' (Go t)
  | effect_remove t k prev cur n :
      oper (threads s t) = Remove k → member s k → (∀ j, member s' j ↔ member s j ∧ j ≠ k) →
      at_ (threads s' t) = CasDelete prev cur n → effect s s' (Go t).

Lemma lookupInternal_effect t s s' wi wo :
  Inv s wi wo → lookupInternal_step t s = Some s' → ∀ j, member s' j ↔ member s j.
Proof.
  intros [[l Hl] Ht] Hs. pose proof (t_pc _ _ _ _ (Ht t)) as Hpc.
  unfold lookupInternal_step in Hs. unfold pc_ok in Hpc.
  destruct (at_ (threads s t)) as [| |prev cur|prev cur|prev cur|prev cur n|prev cur n|prev cur
    |prev cur n|prev cur n|res f] eqn:Hat; try done.
  - destruct (load t _ s); cbn in Hs; by simplify_eq.
  - destruct cur; by simplify_eq.
  - destruct (load t _ s); cbn in Hs; by simplify_eq.
  - destruct (nodes s !! cur); cbn in Hs; by simplify_eq.
  - destruct Hpc as (Hb & Hkn & Hc).
    destruct (cas t prev _ _ s) as [[ok s1]|] eqn:Hcas; cbn in Hs; [|done].
    apply cas_inv in Hcas as [[-> ->]|(-> & Hld & ->)]; [| |by intros ->]; simplify_eq; [done|].
    by destruct (unlink_shared t s l prev cur n _ Hl Hb Hld Hc) as (_ & Hm & _).
  - destruct (nodes s !! cur); cbn in Hs; [|done]. destruct (load t _ s); cbn in Hs; by simplify_eq.
Qed.

(**  Linearizability of the successful operations: in every interleaving, the
    set of keys changes only when the exchange of an [insert] succeeds, which
    adds its key, absent before, and makes that [insert] return true, or when the
    mark of a [remove] succeeds, which takes out its key, present before; every
    other step, a physical deletion included, leaves the set as it is. *)
Lemma list_steps_are_atomic sched l s s' :
  exec step sched init = Some s → step l s = Some s' → effect s s' l.
Proof.
  intros He Hs. destruct (reach_exec sched _ _ _ _ reach_init He) as (wi & wo & Hr).
  apply Inv_reach in Hr as HI. pose proof HI as [[c Hl] Ht].
  destruct l as [t o start|t]; cbn in Hs.
  { destruct (at_ (threads s t)); try done. destruct (callable o start s); [|done].
    simplify_eq. by apply effect_none. }
  pose proof (t_pc _ _ _ _ (Ht t)) as Hpc. unfold pc_ok in Hpc. unfold go in Hs.
  destruct (at_ (threads s t)) eqn:Hat; try done;
    try (apply effect_none; by eapply lookupInternal_effect).
  - destruct (oper (threads s t)) as [k v| | |] eqn:Ho; try done. destruct Hpc as (_ & Hb & Hq).
    destruct (insert_cases t k v _ _ s c s' Hl Hb Hq Hs)
      as [->|(s1 & -> & Eth & _ & _ & Habs & Hm)]; [by apply effect_none|].
    eapply effect_insert; [done|done|done|]. cbn. by rewrite upd_eq.
  - destruct Hpc as (Ho & Hb & x & Hx & Hk).
    destruct (mark_cases t prev cur n s c s' x Hl Hx) as [->|(s1 & -> & Eth & _ & _ & _ & Hin & Hm)].
    + rewrite Hk. by apply (t_oper _ _ _ _ (Ht t)).
    + done.
    + by apply effect_none.
    + rewrite Hk in Hin, Hm. eapply effect_remove; [done|done|done|]. cbn. by rewrite upd_eq.
  - destruct Hpc as (Ho & Hb & Hx). unfold delete_step in Hs. apply effect_none.
    destruct (cas t prev _ _ s) as [[ok s1]|] eqn:Hcas; cbn in Hs; [|done].
    apply cas_inv in Hcas as [[-> ->]|(-> & Hld & ->)]; [| |by intros ->]; simplify_eq; [done|].
    by destruct (unlink_shared t s c _ _ _ _ Hl Hb Hld Hx) as (_ & Hm & _).
  - simplify_eq. by apply effect_none.
Qed.

(**  The other results are those of some moment of the call: when [lookup]
    returns true, or [insert] false, the key was in the set at some state since
    the call; when [lookup] or [remove] returns false, it was not. *)
Lemma list_results_seen s seen_in seen_out t res found :
  reach s seen_in seen_out → at_ (threads s t) = Done res found →
  match oper (threads s t), res with
  | Lookup _, true | Insert _ _, false => seen_in t
  | Lookup _, false | Remove _, false => seen_out t
  | _, _ => True
  end.
Proof.
  intros Hr Hat. apply Inv_reach in Hr as [_ Ht]. pose proof (t_pc _ _ _ _ (Ht t)) as Hpc.
  unfold pc_ok in Hpc. rewrite Hat in Hpc. unfold result_ok in Hpc.
  by destruct (oper (threads s t)), res.
Qed.

(** *** Order and reclamation *)

Lemma integrity_spec h l : ∀ fuel x q,
  chain h q l → length l < fuel → increasing (x :: l.*2) → integrity_loop fuel h x q = Some true.
Proof.
  induction l as [|[a d] l IH]; intros [|fuel] x q Hc Hf Hi; try (cbn in Hf; lia); cbn in Hc.
  { by subst q. }
  destruct Hc as (-> & n & Ha & Hd & Hc). apply StronglySorted_inv in Hi as [Hi Hx].
  cbn in Hx. apply Forall_cons in Hx as [Hx _]. cbn. rewrite Ha. cbn. rewrite Hd.
  rewrite decide_False by lia. apply IH; [done|cbn in Hf; lia|done].
Qed.

Lemma chain_size h q l : chain h q l → NoDup l.*1 → length l ≤ size h.
Proof.
  intros Hc Hn. rewrite <- (length_fmap fst l).
  rewrite <- (size_list_to_set (C := gset nat) l.*1 Hn), <- (size_dom (D := gset nat)).
  apply subseteq_size. intros a Ha. apply elem_of_list_to_set in Ha.
  apply elem_of_dom. by eapply chain_in.
Qed.

(**  In every interleaving the list stays in increasing order, so that
    [checkIntegrity] ends and says true, and every node is handed to the hazard
    pointers at most once and only after it was marked and unlinked. *)
Lemma list_ordered_and_retired_once sched s :
  exec step sched init = Some s →
  checkIntegrity s = Some true ∧ NoDup (retired s) ∧
  ∃ l, chain (nodes s) (head_ s) l ∧
       ∀ a, a ∈ retired s → (a ∉ l.*1) ∧ ∃ n, nodes s !! a = Some n ∧ isMarked (next n) = true.
Proof.
  intros He. destruct (reach_exec sched _ _ _ _ reach_init He) as (wi & wo & Hr).
  apply Inv_reach in Hr as [[l Hl] _]. destruct (s_retired _ _ Hl) as [Hr1 Hr2].
  split_and!; [|done|].
  - unfold checkIntegrity. pose proof (s_chain _ _ Hl) as Hc. pose proof (s_sorted _ _ Hl) as Hso.
    pose proof (chain_size _ _ _ Hc (s_nodup _ _ Hl)) as Hsz.
    destruct l as [|[a d] l]; cbn in Hc; [by rewrite Hc|].
    destruct Hc as (-> & n & Hn & Hd & Hc). rewrite Hn. cbn [mbind option_bind].
    eapply integrity_spec; [done|cbn in Hsz; lia|]. by rewrite Hd.
  - exists l. split; [apply Hl|]. intros a Ha. destruct (Hr2 a Ha) as [Hnot [n Hn]].
    split; [done|]. exists n. split; [done|]. destruct (isMarked (next n)) eqn:Hm; [done|].
    destruct Hnot. by eapply (s_live _ _ Hl).
Qed.
End threads.

(** ** Instances of the properties *)

(** One thread inserts 5, then another one removes it while a third looks for it. *)
Definition insert_5 : list label :=
  [Call 0 (Insert 5 (Some 50%Z)) None; Go 0; Go 0].
Definition race_5 : list label :=
  insert_5 ++ [Go 0; Call 1 (Remove 5) None; Call 2 (Lookup 5) None] ++
  [Go 1; Go 1; Go 1; Go 1; Go 1; Go 2; Go 2; Go 2; Go 2; Go 2].

Definition after (sched : list label) : state :=
  default init (exec (step (H := λ _, false)) sched init).

Lemma exec_after sched :
  is_Some (exec (step (H := λ _, false)) sched init) →
  exec (step (H := λ _, false)) sched init = Some (after sched).
Proof. unfold after. by intros [s ->]. Qed.

End LockFreeList.
