(* ===== verification/LockFreeHashTable.v ===== *)
(** * The split-ordered hash table ([lock_free_hash_table.hpp], [.cpp])

    Buckets point to dummy nodes of one sorted list; keys are kept in the order
    of their reversed bits.  The list is the sorted set with values that
    [LockFreeList] implements; an operation that starts at a node sees the keys
    from that node on.  The operations are those of one thread at a time;
    [ConcurrentHashTable] has those of many. *)

From S2P Require Import Prelude.

Module HashTable.

(** ** Bits *)

(** [uint32_t]. *)
Definition u32 (x : Z) : Z := x mod 2 ^ 32.

(** The cast to [int]. *)
Definition to_int (x : Z) : Z := if decide (u32 x < 2 ^ 31)%Z then u32 x else u32 x - 2 ^ 32.

(** One line of [reverse]: the bits of [hi] move down by [n], those of [lo] up. *)
Definition swap_bits (hi lo n x : Z) : Z :=
  Z.lor (Z.shiftr (Z.land x hi) n) (u32 (Z.shiftl (Z.land x lo) n)).

Definition reverse (x : Z) : Z :=
  let x := swap_bits 0xaaaaaaaa 0x55555555 1 x in
  let x := swap_bits 0xcccccccc 0x33333333 2 x in
  let x := swap_bits 0xf0f0f0f0 0x0f0f0f0f 4 x in
  let x := swap_bits 0xff00ff00 0x00ff00ff 8 x in
  Z.lor (Z.shiftr x 16) (u32 (Z.shiftl x 16)).

Definition reverseRegularKey (key : Z) : Z := reverse (Z.lor key (Z.shiftl 1 31)).
Definition reverseDummyKey (key : Z) : Z := reverse key.

(** [__builtin_clz]: the number of leading zeros of a number that is not 0. *)
Definition clz (x : Z) : Z := 31 - Z.log2 x.

Definition getParent (bucketNo : Z) : Z :=
  let pos := clz bucketNo in
  Z.lxor bucketNo (Z.shiftl 1 (8 * 4 - 1 - pos)).

(** ** The table *)

(** The list: keys to values ([None] for a value never set). *)
Abbreviation list_ := (gmap Z (option Z)).

(** [buckets_] holds pointers to nodes, here the keys of those nodes. *)
Record LockFreeHashTable := mkTable {
  lockfreelist_ : list_;
  buckets_ : list (option Z);
  count_ : Z;
  size_ : Z;
  loadFactor_ : Z
}.

(** A key can be met by a search that starts at [start]. *)
Definition visible (start : option Z) (k : Z) : bool :=
  match start with None => true | Some d => bool_decide (d ≤ k)%Z end.

(** [LockFreeList::insert]; a node put before the one the search starts at is
    linked to a local variable and lost. *)
Definition list_insert (k : Z) (v : option Z) (start : option Z) (l : list_) : bool * list_ :=
  if visible start k then
    match l !! k with Some _ => (false, l) | None => (true, <[k := v]> l) end
  else (true, l).

Definition list_remove (k : Z) (start : option Z) (l : list_) : bool * list_ :=
  if visible start k then
    match l !! k with Some _ => (true, delete k l) | None => (false, l) end
  else (false, l).

Definition list_lookup (k : Z) (start : option Z) (l : list_) : option (option Z) :=
  if visible start k then l !! k else None.

Definition set_list l (t : LockFreeHashTable) :=
  mkTable l (buckets_ t) (count_ t) (size_ t) (loadFactor_ t).
Definition set_buckets b (t : LockFreeHashTable) :=
  mkTable (lockfreelist_ t) b (count_ t) (size_ t) (loadFactor_ t).

(** [buckets_.at(i)]: [None] is [std::out_of_range]. *)
Definition bucket_at (i : Z) (t : LockFreeHashTable) : option (option Z) := buckets_ t !! Z.to_nat i.

(** The lines of [initialize_bucket] after the parent is known.  When the
    dummy key is already in the list, the bucket points to the node found. *)
Definition link_bucket (parent bucketNo : Z) (t : LockFreeHashTable) : option LockFreeHashTable :=
  start ← bucket_at parent t;
  let dummy := reverseDummyKey bucketNo in
  let t := set_list (list_insert dummy None start (lockfreelist_ t)).2 t in
  _ ← bucket_at bucketNo t;
  Some (set_buckets (<[Z.to_nat bucketNo := Some dummy]> (buckets_ t)) t).

(** The recursion goes to the parent bucket. *)
Fixpoint initialize_bucket (fuel : nat) (bucketNo : Z) (t : LockFreeHashTable)
    : option LockFreeHashTable :=
  match fuel with
  | 0 => None
  | S fuel =>
    if decide (bucketNo ≠ 0%Z) then
      let parent := getParent bucketNo in
      b ← bucket_at parent t;
      t ← (match b with None => initialize_bucket fuel parent t | Some _ => Some t end);
      link_bucket parent bucketNo t
    else link_bucket 0 bucketNo t
  end.

(** The recursion is at most as deep as a bucket number has bits. *)
Definition FUEL : nat := 33.

(** The first lines of [insertKey], [removeKey] and [findKey]. *)
Definition ready (data : Z) (t : LockFreeHashTable) : option (Z * LockFreeHashTable) :=
  let bucket := (data mod size_ t)%Z in
  b ← bucket_at bucket t;
  t ← (match b with None => initialize_bucket FUEL bucket t | Some _ => Some t end);
  Some (bucket, t).

Definition insertKey (data value : Z) (t : LockFreeHashTable) : option (bool * LockFreeHashTable) :=
  '(bucket, t) ← ready data t;
  start ← bucket_at bucket t;
  let '(ok, l) := list_insert (reverseRegularKey data) (Some value) start (lockfreelist_ t) in
  let t := set_list l t in
  if (ok : bool) then
    let csize := size_ t in
    let count := u32 (count_ t + 1) in
    let t := mkTable l (buckets_ t) count csize (loadFactor_ t) in
    if decide (count / csize > loadFactor_ t)%Z then
      let buckets := buckets_ t ++ replicate (Z.to_nat (to_int csize)) None in
      Some (true, mkTable l buckets count (u32 (2 * csize)) (loadFactor_ t))
    else Some (true, t)
  else Some (false, t).

Definition removeKey (data : Z) (t : LockFreeHashTable) : option (bool * LockFreeHashTable) :=
  '(bucket, t) ← ready data t;
  start ← bucket_at bucket t;
  let '(ok, l) := list_remove (reverseRegularKey data) start (lockfreelist_ t) in
  let t := set_list l t in
  if (ok : bool)
  then Some (true, mkTable l (buckets_ t) (u32 (count_ t - 1)) (size_ t) (loadFactor_ t))
  else Some (false, t).

(** The value found, if any; the table changes when a bucket is initialised. *)
Definition findKey (data : Z) (t : LockFreeHashTable)
    : option (option (option Z) * LockFreeHashTable) :=
  '(bucket, t) ← ready data t;
  start ← bucket_at bucket t;
  Some (list_lookup (reverseRegularKey data) start (lockfreelist_ t), t).

(** The constructor. *)
Definition make : option LockFreeHashTable :=
  '(_, t) ← insertKey 0 0 (mkTable ∅ [None; None] 0 2 10); Some t.

Definition getSize (t : LockFreeHashTable) : Z := size_ t.
Definition getCount (t : LockFreeHashTable) : Z := count_ t.

(** ** Reversing bits *)

Lemma u32_bits x i : (0 ≤ i < 32)%Z → Z.testbit (u32 x) i = Z.testbit x i.
Proof. intros. unfold u32. apply Z.mod_pow2_bits_low. lia. Qed.

Lemma swap_bits_spec hi lo n x i :
  (0 ≤ i < 32)%Z → (0 ≤ n)%Z →
  Z.testbit (swap_bits hi lo n x) i =
    (Z.testbit x (i + n) && Z.testbit hi (i + n)) ||
    (bool_decide (n ≤ i)%Z && (Z.testbit x (i - n) && Z.testbit lo (i - n))).
Proof.
  intros Hi Hn. unfold swap_bits.
  rewrite Z.lor_spec, Z.shiftr_spec, Z.land_spec, u32_bits by lia. f_equal.
  case_bool_decide as E.
  - rewrite Z.shiftl_spec_high, Z.land_spec by lia. done.
  - by rewrite Z.shiftl_spec_low by lia.
Qed.

(** All bit numbers. *)
Definition bits : list Z := seqZ 0 32.

Lemma all_bits (P : Z → Prop) : Forall P bits → ∀ i, (0 ≤ i < 32)%Z → P i.
Proof. rewrite Forall_forall. intros Hf i Hi. apply Hf. apply elem_of_seqZ. lia. Qed.

(** The masks exchange the blocks of [n] bits of a word. *)
Definition exchanges (hi lo n i : Z) : bool :=
  if bool_decide (Z.lxor i n = i + n)%Z
  then Z.testbit hi (i + n) && negb (bool_decide (n ≤ i)%Z && Z.testbit lo (i - n))
  else bool_decide (Z.lxor i n = i - n)%Z && bool_decide (n ≤ i)%Z &&
       Z.testbit lo (i - n) && negb (Z.testbit hi (i + n)).

Lemma swap_bits_bit hi lo n x i :
  forallb (exchanges hi lo n) bits = true → (0 ≤ n)%Z → (0 ≤ i < 32)%Z →
  Z.testbit (swap_bits hi lo n x) i = Z.testbit x (Z.lxor i n).
Proof.
  intros Hf Hn Hi. rewrite swap_bits_spec by done.
  rewrite forallb_forall in Hf.
  assert (Hb := Hf i ltac:(apply list_elem_of_In, elem_of_seqZ; lia)). unfold exchanges in Hb.
  case_bool_decide as E; rewrite !andb_true_iff, negb_true_iff in Hb.
  - destruct Hb as [-> [-> | ->]%andb_false_iff]; rewrite E;
      by rewrite andb_true_r, ?andb_false_r, orb_false_r.
  - rewrite !bool_decide_eq_true in Hb. destruct Hb as [[[-> Hle] ->] ->].
    rewrite bool_decide_true by done. by rewrite andb_false_r, andb_true_r.
Qed.

Lemma lxor_range i n : (0 ≤ i < 32)%Z → (0 ≤ n < 32)%Z → (0 ≤ Z.lxor i n < 32)%Z.
Proof.
  assert (Hf : forallb (λ i, forallb (λ n, (0 <=? Z.lxor i n) && (Z.lxor i n <? 32))%Z bits) bits = true)
    by (vm_compute; done).
  intros Hi Hn. rewrite forallb_forall in Hf.
  specialize (Hf i ltac:(apply list_elem_of_In, elem_of_seqZ; lia)). rewrite forallb_forall in Hf.
  specialize (Hf n ltac:(apply list_elem_of_In, elem_of_seqZ; lia)). lia.
Qed.

(** No bit above the width. *)
Lemma high_bit x i : (0 ≤ x < 2 ^ 32)%Z → (32 ≤ i)%Z → Z.testbit x i = false.
Proof.
  intros Hx Hi. destruct (decide (x = 0)%Z) as [->|]; [apply Z.bits_0|].
  apply Z.bits_above_log2; [lia|]. assert (Z.log2 x < 32)%Z by (apply Z.log2_lt_pow2; lia). lia.
Qed.

Lemma u32_range x : (0 ≤ u32 x < 2 ^ 32)%Z.
Proof. apply Z.mod_pos_bound. done. Qed.

Lemma swap_bits_high hi lo n x i :
  (0 ≤ hi < 2 ^ 32)%Z → (0 ≤ n)%Z → (32 ≤ i)%Z → Z.testbit (swap_bits hi lo n x) i = false.
Proof.
  intros Hh Hn Hi. unfold swap_bits.
  rewrite Z.lor_spec, Z.shiftr_spec, Z.land_spec by lia.
  rewrite (high_bit hi), (high_bit (u32 _)) by (try apply u32_range; lia).
  by rewrite andb_false_r.
Qed.

Lemma bits_below x : (0 ≤ x)%Z → (∀ i, (32 ≤ i)%Z → Z.testbit x i = false) → (0 ≤ x < 2 ^ 32)%Z.
Proof.
  intros Hx Hb. split; [done|]. destruct (decide (x = 0)%Z) as [->|]; [lia|].
  apply Z.log2_lt_pow2; [lia|]. destruct (decide (Z.log2 x < 32)%Z) as [|Hl]; [done|].
  specialize (Hb (Z.log2 x)). rewrite Z.bit_log2 in Hb by lia. by specialize (Hb ltac:(lia)).
Qed.

Lemma reverse_bits x i : (0 ≤ i < 32)%Z → Z.testbit (reverse x) i = Z.testbit x (31 - i).
Proof.
  intros Hi. unfold reverse. set (y := swap_bits 0xff00ff00 0x00ff00ff 8 _).
  assert (Hx : ∀ n, (0 ≤ n < 32)%Z → (0 ≤ Z.lxor i n < 32)%Z) by (intros; by apply lxor_range).
  transitivity (Z.testbit y (Z.lxor i 16)).
  { rewrite Z.lor_spec, Z.shiftr_spec, u32_bits by lia.
    destruct (decide (i < 16)%Z).
    - rewrite Z.shiftl_spec_low, orb_false_r by lia. f_equal. clear y Hx. revert i Hi l.
      apply (all_bits (λ i, i < 16 → i + 16 = Z.lxor i 16))%Z. repeat constructor; simpl; lia.
    - rewrite Z.shiftl_spec_high by lia. unfold y at 1. rewrite swap_bits_high by lia. simpl.
      f_equal. clear y Hx. revert i Hi n.
      apply (all_bits (λ i, ¬ i < 16 → i - 16 = Z.lxor i 16))%Z. repeat constructor; simpl; lia. }
  unfold y. rewrite swap_bits_bit by (try apply Hx; done || lia).
  rewrite swap_bits_bit by (try (apply lxor_range; [apply Hx|]); done || lia).
  rewrite swap_bits_bit by (try (repeat (apply lxor_range; [|lia])); done || lia).
  rewrite swap_bits_bit by (try (repeat (apply lxor_range; [|lia])); done || lia).
  f_equal. clear y Hx. revert i Hi.
  apply (all_bits (λ i, Z.lxor (Z.lxor (Z.lxor (Z.lxor (Z.lxor i 16) 8) 4) 2) 1 = 31 - i))%Z.
  repeat constructor.
Qed.

Lemma reverse_range x : (0 ≤ reverse x < 2 ^ 32)%Z.
Proof.
  unfold reverse. set (y := swap_bits 0xff00ff00 0x00ff00ff 8 _).
  assert (0 ≤ y)%Z.
  { unfold y, swap_bits. apply Z.lor_nonneg. split; [|apply u32_range].
    apply Z.shiftr_nonneg, Z.land_nonneg. lia. }
  apply bits_below.
  - apply Z.lor_nonneg. split; [by apply Z.shiftr_nonneg|apply u32_range].
  - intros i Hi. rewrite Z.lor_spec, Z.shiftr_spec, (high_bit (u32 _)) by (try apply u32_range; lia).
    unfold y. by rewrite swap_bits_high by lia.
Qed.

Lemma word_ext x y :
  (0 ≤ x < 2 ^ 32)%Z → (0 ≤ y < 2 ^ 32)%Z →
  (∀ i, (0 ≤ i < 32)%Z → Z.testbit x i = Z.testbit y i) → x = y.
Proof.
  intros Hx Hy Hb. apply Z.bits_inj'. intros i Hi. destruct (decide (i < 32)%Z); [apply Hb; lia|].
  by rewrite !high_bit by lia.
Qed.

(** A number whose bits are all bits of another is not above it. *)
Lemma bits_le x y :
  (0 ≤ x)%Z → (0 ≤ y)%Z → (∀ i, Z.testbit x i = true → Z.testbit y i = true) → (x ≤ y)%Z.
Proof.
  intros Hx Hy Hb. assert (Z.ldiff x y = 0)%Z as Hd.
  { apply Z.bits_inj'. intros i _. rewrite Z.ldiff_spec, Z.bits_0.
    specialize (Hb i). destruct (Z.testbit x i); [by rewrite Hb|done]. }
  by apply Z.ldiff_le.
Qed.

Lemma reverse_le x y :
  (∀ i, (0 ≤ i < 32)%Z → Z.testbit x i = true → Z.testbit y i = true) →
  (reverse x ≤ reverse y)%Z.
Proof.
  intros Hb. apply bits_le; [apply reverse_range..|]. intros i Hi.
  destruct (decide (0 ≤ i < 32)%Z) as [Hr|Hr].
  - rewrite reverse_bits in Hi |- * by done. apply Hb; [lia|done].
  - destruct (decide (i < 0)%Z); [by rewrite Z.testbit_neg_r in Hi by lia|].
    rewrite high_bit in Hi; [done|apply reverse_range|lia].
Qed.

Lemma reverse_inj x y :
  reverse x = reverse y → ∀ i, (0 ≤ i < 32)%Z → Z.testbit x i = Z.testbit y i.
Proof.
  intros He i Hi. replace i with (31 - (31 - i))%Z by lia.
  by rewrite <- !reverse_bits, He by lia.
Qed.

(** ** The order of the keys *)

Lemma getParent_bits b i :
  (0 < b)%Z → (0 ≤ i)%Z → Z.testbit (getParent b) i = xorb (Z.testbit b i) (Z.log2 b =? i)%Z.
Proof.
  intros Hb Hi. unfold getParent, clz.
  replace (8 * 4 - 1 - (31 - Z.log2 b))%Z with (Z.log2 b) by lia.
  assert (0 ≤ Z.log2 b)%Z by apply Z.log2_nonneg.
  rewrite Z.lxor_spec, Z.shiftl_1_l, Z.pow2_bits_eqb by lia. done.
Qed.

(** The parent of a bucket is the bucket without its highest bit. *)
Lemma getParent_range b : (0 < b)%Z → (0 ≤ getParent b < 2 ^ Z.log2 b)%Z.
Proof.
  intros Hb. assert (0 ≤ Z.log2 b)%Z by apply Z.log2_nonneg.
  assert (0 ≤ getParent b)%Z as Hp.
  { unfold getParent. apply Z.lxor_nonneg. split; intros; [|lia].
    rewrite Z.shiftl_nonneg. lia. }
  split; [done|]. destruct (decide (getParent b = 0)%Z) as [->|Hz]; [lia|].
  apply Z.log2_lt_pow2; [lia|].
  destruct (decide (Z.log2 (getParent b) < Z.log2 b)%Z) as [|Hl]; [done|exfalso].
  assert (Hbit : Z.testbit (getParent b) (Z.log2 (getParent b)) = true) by (apply Z.bit_log2; lia).
  rewrite getParent_bits in Hbit by (try apply Z.log2_nonneg; done).
  destruct (Z.eqb_spec (Z.log2 b) (Z.log2 (getParent b))) as [He|Hne].
  - rewrite <- He, Z.bit_log2 in Hbit by lia. done.
  - rewrite Z.bits_above_log2 in Hbit by lia. done.
Qed.

Lemma parent_dummy_le b :
  (0 < b)%Z → (reverseDummyKey (getParent b) ≤ reverseDummyKey b)%Z.
Proof.
  intros Hb. apply reverse_le. intros i Hi. rewrite getParent_bits by lia.
  destruct (Z.eqb_spec (Z.log2 b) i) as [<-|]; [by rewrite Z.bit_log2 by lia|by rewrite xorb_false_r].
Qed.

Lemma regular_bits k i :
  (0 ≤ i < 32)%Z → Z.testbit (Z.lor k (Z.shiftl 1 31)) i = Z.testbit k i || (31 =? i)%Z.
Proof.
  intros Hi. rewrite Z.lor_spec, Z.shiftl_1_l, Z.pow2_bits_eqb by lia. done.
Qed.

(** A key comes after the dummy node of its bucket. *)
Lemma dummy_le_regular k j :
  (0 ≤ j)%Z → (reverseDummyKey (k mod 2 ^ j) ≤ reverseRegularKey k)%Z.
Proof.
  intros Hj. apply reverse_le. intros i Hi Hb. rewrite regular_bits by lia.
  destruct (decide (i < j)%Z).
  - rewrite Z.mod_pow2_bits_low in Hb by lia. by rewrite Hb.
  - rewrite Z.mod_pow2_bits_high in Hb by lia. done.
Qed.

Lemma dummy_not_regular b k : (0 ≤ b < 2 ^ 31)%Z → reverseDummyKey b ≠ reverseRegularKey k.
Proof.
  intros Hb He. assert (H31 := reverse_inj _ _ He 31 ltac:(lia)).
  rewrite regular_bits, orb_true_r in H31 by lia.
  destruct (decide (b = 0)%Z) as [->|]; [by rewrite Z.bits_0 in H31|].
  rewrite Z.bits_above_log2 in H31; [done|lia|apply Z.log2_lt_pow2; lia].
Qed.

(** Two keys are the same to the list when they agree below bit 31. *)
Lemma regular_eq k k' :
  reverseRegularKey k = reverseRegularKey k' ↔ (k mod 2 ^ 31 = k' mod 2 ^ 31)%Z.
Proof.
  split.
  - intros He. apply Z.bits_inj'. intros i Hi. destruct (decide (i < 31)%Z).
    + rewrite !Z.mod_pow2_bits_low by lia.
      assert (Hb := reverse_inj _ _ He i ltac:(lia)).
      rewrite !regular_bits in Hb by lia.
      by rewrite (proj2 (Z.eqb_neq 31 i)), !orb_false_r in Hb by lia.
    + by rewrite !Z.mod_pow2_bits_high by lia.
  - intros He. apply word_ext; [apply reverse_range..|]. intros i Hi.
    unfold reverseRegularKey. rewrite !reverse_bits, !regular_bits by lia.
    destruct (Z.eqb_spec 31 (31 - i)) as [|Hn]; [by rewrite !orb_true_r|].
    rewrite !orb_false_r.
    rewrite <- (Z.mod_pow2_bits_low k 31), He, Z.mod_pow2_bits_low by lia. done.
Qed.

(** ** The table is a map *)

#[local] Opaque reverseDummyKey reverseRegularKey reverse.

(** The key the table keeps for [data]. *)
Definition norm (data : Z) : Z := data mod 2 ^ 31.

(** The table [t] stores the map [M]. *)
Record represents (t : LockFreeHashTable) (M : gmap Z Z) : Prop := mkRep {
  rep_size : ∃ j, (1 ≤ j ≤ 28)%Z ∧ size_ t = (2 ^ j)%Z;
  rep_len : length (buckets_ t) = Z.to_nat (size_ t);
  rep_factor : loadFactor_ t = 10%Z;
  rep_buckets : ∀ b d, buckets_ t !! b = Some (Some d) →
    d = reverseDummyKey (Z.of_nat b) ∧ is_Some (lockfreelist_ t !! d);
  rep_keys : ∀ k, (0 ≤ k < 2 ^ 31)%Z →
    lockfreelist_ t !! reverseRegularKey k = Some <$> (M !! k);
  rep_dom : ∀ k, is_Some (M !! k) → (0 ≤ k < 2 ^ 31)%Z;
  rep_count : count_ t = Z.of_nat (size M);
  rep_load : (count_ t < 11 * size_ t)%Z
}.

Lemma size_bounds t M : represents t M → (2 ≤ size_ t ≤ 2 ^ 28)%Z.
Proof.
  intros Hr. destruct (rep_size _ _ Hr) as (j & Hj & ->).
  split; [change 2%Z with (2 ^ 1)%Z at 1|]; apply Z.pow_le_mono_r; lia.
Qed.

Lemma norm_regular k : reverseRegularKey (norm k) = reverseRegularKey k.
Proof. apply regular_eq. unfold norm. by rewrite Zmod_mod. Qed.

Lemma norm_range k : (0 ≤ norm k < 2 ^ 31)%Z.
Proof. apply Z.mod_pos_bound. done. Qed.

Lemma rep_lookup t M k :
  represents t M → lockfreelist_ t !! reverseRegularKey k = Some <$> (M !! norm k).
Proof. intros Hr. rewrite <- norm_regular. apply (rep_keys _ _ Hr), norm_range. Qed.

(** Pointing an empty bucket to its dummy node keeps the map. *)
Lemma represents_dummy t M b start :
  represents t M → (0 ≤ b < size_ t)%Z → visible start (reverseDummyKey b) = true →
  represents (set_buckets (<[Z.to_nat b := Some (reverseDummyKey b)]> (buckets_ t))
    (set_list (list_insert (reverseDummyKey b) None start (lockfreelist_ t)).2 t)) M.
Proof.
  intros Hr Hb Hv. assert (Hs := size_bounds _ _ Hr). unfold list_insert. rewrite Hv.
  set (l' := (match lockfreelist_ t !! reverseDummyKey b with
              | Some _ => _ | None => _ end).2).
  assert (is_Some (l' !! reverseDummyKey b) ∧
               ∀ k, k ≠ reverseDummyKey b → l' !! k = lockfreelist_ t !! k) as [Hd Ho].
  { subst l'. destruct (lockfreelist_ t !! reverseDummyKey b) eqn:E; simpl; [by rewrite E|].
    rewrite lookup_insert_eq. split; [done|]. intros k Hk. by rewrite lookup_insert_ne. }
  destruct Hr as [H1 H2 H3 H4 H5 H6 H7 H8]. split; simpl; try done.
  - by rewrite length_insert.
  - intros b' d Hbd. destruct (decide (b' = Z.to_nat b)) as [->|Hne].
    + rewrite list_lookup_insert_eq in Hbd by lia. simplify_eq. rewrite Z2Nat.id by lia. done.
    + rewrite list_lookup_insert_ne in Hbd by done. apply H4 in Hbd as [-> Hin]. split; [done|].
      destruct (decide (reverseDummyKey (Z.of_nat b') = reverseDummyKey b)) as [->|Hk]; [done|].
      by rewrite Ho.
  - intros k Hk. rewrite Ho; [by apply H5|]. apply not_eq_sym, dummy_not_regular. lia.
Qed.

Lemma link_bucket_spec parent b t M start :
  represents t M → (0 ≤ b < size_ t)%Z → bucket_at parent t = Some start →
  visible start (reverseDummyKey b) = true →
  ∃ t', link_bucket parent b t = Some t' ∧ represents t' M ∧ size_ t' = size_ t ∧
        buckets_ t' !! Z.to_nat b = Some (Some (reverseDummyKey b)).
Proof.
  intros Hr Hb Hst Hv. assert (Hlen := rep_len _ _ Hr).
  destruct (lookup_lt_is_Some_2 (buckets_ t) (Z.to_nat b)) as [x Hx]; [lia|].
  unfold link_bucket. rewrite Hst. unfold bucket_at. simpl. rewrite Hx. simpl.
  eexists. split; [done|]. split; [by apply represents_dummy|]. split; [done|].
  simpl. apply list_lookup_insert_eq. lia.
Qed.

(** A bucket in range, empty or not. *)
Lemma bucket_at_rep t M b :
  represents t M → (0 ≤ b < size_ t)%Z →
  bucket_at b t = Some None ∨ bucket_at b t = Some (Some (reverseDummyKey b)).
Proof.
  intros Hr Hb. assert (Hlen := rep_len _ _ Hr). unfold bucket_at.
  destruct (lookup_lt_is_Some_2 (buckets_ t) (Z.to_nat b)) as [[d|] Hx]; [lia| |by left].
  right. rewrite Hx. apply (rep_buckets _ _ Hr) in Hx as [-> _]. by rewrite Z2Nat.id by lia.
Qed.

Lemma initialize_bucket_S fuel bucketNo t :
  initialize_bucket (S fuel) bucketNo t =
    if decide (bucketNo ≠ 0%Z) then
      b ← bucket_at (getParent bucketNo) t;
      t ← (match b with None => initialize_bucket fuel (getParent bucketNo) t | Some _ => Some t end);
      link_bucket (getParent bucketNo) bucketNo t
    else link_bucket 0 bucketNo t.
Proof. done. Qed.

(** The recursion over the parents ends, and initialises the bucket. *)
Lemma initialize_bucket_spec M fuel : ∀ b t,
  represents t M → (0 ≤ b < size_ t)%Z → (b < 2 ^ Z.of_nat fuel)%Z →
  ∃ t', initialize_bucket (S fuel) b t = Some t' ∧ represents t' M ∧ size_ t' = size_ t ∧
        buckets_ t' !! Z.to_nat b = Some (Some (reverseDummyKey b)).
Proof.
  induction fuel as [|fuel IH]; intros b t Hr Hb Hf.
  all: match goal with |- context [initialize_bucket (S ?n)] => rewrite (initialize_bucket_S n) end;
    destruct (decide (b ≠ 0%Z)) as [Hz|Hz].
  2, 4: assert (b = 0%Z) as -> by lia;
    destruct (bucket_at_rep t M 0 Hr Hb) as [Hs|Hs]; by eapply link_bucket_spec.
  { simpl in Hf. lia. }
  destruct (getParent_range b) as [Hp0 Hp1]; [lia|].
  assert (Hl : (2 ^ Z.log2 b ≤ b)%Z) by (apply Z.log2_spec; lia).
  assert (Hpb : (getParent b < 2 ^ Z.of_nat fuel)%Z).
  { eapply Z.lt_le_trans; [apply Hp1|]. apply Z.pow_le_mono_r; [lia|].
    assert (Z.log2 b < Z.of_nat (S fuel))%Z by (apply Z.log2_lt_pow2; lia). lia. }
  assert (Hv : visible (Some (reverseDummyKey (getParent b))) (reverseDummyKey b) = true).
  { simpl. rewrite bool_decide_true; [done|]. apply parent_dummy_le. lia. }
  destruct (bucket_at_rep t M (getParent b) Hr) as [Hs|Hs]; [lia|..]; rewrite Hs;
    cbn [mbind option_bind].
  - destruct (IH (getParent b) t Hr) as (t1 & -> & Hr1 & Hs1 & Hb1); [lia..|].
    cbn [mbind option_bind]. rewrite <- Hs1 in Hb |- *. by eapply link_bucket_spec.
  - by eapply link_bucket_spec.
Qed.

Lemma ready_spec data t M :
  represents t M →
  ∃ t', ready data t = Some (data mod size_ t, t')%Z ∧ represents t' M ∧ size_ t' = size_ t ∧
        ∃ d, bucket_at (data mod size_ t) t' = Some (Some d) ∧
             visible (Some d) (reverseRegularKey data) = true.
Proof.
  intros Hr. assert (Hs := size_bounds _ _ Hr).
  assert (Hb : (0 ≤ data mod size_ t < size_ t)%Z) by (apply Z.mod_pos_bound; lia).
  assert (Hv : visible (Some (reverseDummyKey (data mod size_ t))) (reverseRegularKey data) = true).
  { destruct (rep_size _ _ Hr) as (j & Hj & ->). simpl. rewrite bool_decide_true; [done|].
    apply dummy_le_regular. lia. }
  unfold ready. destruct (bucket_at_rep t M _ Hr Hb) as [He|He]; rewrite He; cbn [mbind option_bind].
  - destruct (initialize_bucket_spec M 32 (data mod size_ t) t Hr Hb)
      as (t' & E & Hr' & Hs' & Hb').
    { eapply Z.lt_le_trans; [apply Hb|]. etransitivity; [apply Hs|]. apply Z.pow_le_mono_r; lia. }
    change (S 32) with FUEL in E. rewrite E. cbn [mbind option_bind]. eauto 10.
  - eauto 10.
Qed.

Lemma map_size_bound (M : gmap Z Z) n :
  (0 ≤ n)%Z → (∀ k, is_Some (M !! k) → (0 ≤ k < n)%Z) → (Z.of_nat (size M) ≤ n)%Z.
Proof.
  intros Hn Hd. rewrite <- size_dom.
  assert (dom M ⊆ list_to_set (C := gset Z) (seqZ 0 n)) as Hs.
  { intros k Hk. apply elem_of_list_to_set, elem_of_seqZ. apply elem_of_dom, Hd in Hk. lia. }
  apply subseteq_size in Hs. rewrite size_list_to_set, length_seqZ in Hs by apply NoDup_seqZ. lia.
Qed.

Lemma to_int_small x : (0 ≤ x < 2 ^ 31)%Z → to_int x = x.
Proof.
  intros Hx. unfold to_int, u32. rewrite Z.mod_small by lia.
  by rewrite decide_True by lia.
Qed.

Lemma u32_id x : (0 ≤ x < 2 ^ 32)%Z → u32 x = x.
Proof. intros. by apply Z.mod_small. Qed.

(** A new key in the list, with the counter and, if need be, the table grown. *)
Lemma represents_insert t M k v :
  represents t M → M !! norm k = None →
  let M' := <[norm k := v]> M in
  let l := <[reverseRegularKey k := Some v]> (lockfreelist_ t) in
  let count := u32 (count_ t + 1) in
  (¬ (count / size_ t > loadFactor_ t)%Z →
   represents (mkTable l (buckets_ t) count (size_ t) (loadFactor_ t)) M') ∧
  ((count / size_ t > loadFactor_ t)%Z →
   represents (mkTable l (buckets_ t ++ replicate (Z.to_nat (to_int (size_ t))) None)
     count (u32 (2 * size_ t)) (loadFactor_ t)) M').
Proof.
  intros Hr Hn M' l count. assert (Hs := size_bounds _ _ Hr). assert (Hk := norm_range k).
  assert (Hdom : ∀ k', is_Some (M' !! k') → (0 ≤ k' < 2 ^ 31)%Z).
  { intros k' [x Hx]. unfold M' in Hx. destruct (decide (k' = norm k)) as [->|]; [lia|].
    rewrite lookup_insert_ne in Hx by done. apply (rep_dom _ _ Hr). eauto. }
  assert (Hc : count = Z.of_nat (size M')).
  { unfold count, M'. rewrite map_size_insert_None, (rep_count _ _ Hr) by done.
    assert (H31 := map_size_bound _ (2 ^ 31) ltac:(done) (rep_dom _ _ Hr)). rewrite u32_id by lia. lia. }
  assert (H31 := map_size_bound M' (2 ^ 31) ltac:(done) Hdom).
  assert (Hkeys : ∀ k', (0 ≤ k' < 2 ^ 31)%Z → l !! reverseRegularKey k' = Some <$> (M' !! k')).
  { intros k' Hk'. unfold l, M'. destruct (decide (k' = norm k)) as [->|Hne].
    - by rewrite norm_regular, !lookup_insert_eq.
    - rewrite !lookup_insert_ne; [by apply (rep_keys _ _ Hr)|done|].
      rewrite regular_eq. fold (norm k). by rewrite (Z.mod_small k') by done. }
  assert (Hbk : ∀ b d, buckets_ t !! b = Some (Some d) →
    d = reverseDummyKey (Z.of_nat b) ∧ is_Some (l !! d)).
  { intros b d Hb. apply (rep_buckets _ _ Hr) in Hb as [-> Hin]. split; [done|]. unfold l.
    apply lookup_insert_is_Some'. by right. }
  destruct Hr as [(j & Hj & Hsz) Hlen Hlf _ _ _ Hcnt Hload]. rewrite Hlf.
  assert (Hdm := Z.div_mod count (size_ t) ltac:(lia)).
  assert (Hmb := Z.mod_pos_bound count (size_ t) ltac:(lia)).
  split; intros Hq; [split; simpl; eauto; nia|].
  assert (j ≤ 27)%Z as Hj27.
  { destruct (decide (j = 28)%Z) as [->|]; [|lia]. exfalso. nia. }
  assert (size_ t ≤ 2 ^ 27)%Z by (rewrite Hsz; apply Z.pow_le_mono_r; lia).
  assert (u32 (2 * size_ t) = 2 * size_ t)%Z as Hd by (apply u32_id; lia).
  split; simpl; rewrite ?Hd; eauto.
  - exists (j + 1)%Z. rewrite Z.pow_add_r, <- Hsz by lia. lia.
  - rewrite length_app, length_replicate, to_int_small by lia. lia.
  - intros b d Hb. apply lookup_app_Some in Hb as [Hb|[_ Hb]]; [eauto|].
    by apply lookup_replicate in Hb as [? _].
  - assert (count ≤ count_ t + 1)%Z by (unfold count, u32; apply Z.mod_le; lia). lia.
Qed.

Lemma represents_delete t M k :
  represents t M → is_Some (M !! norm k) →
  represents (mkTable (delete (reverseRegularKey k) (lockfreelist_ t)) (buckets_ t)
    (u32 (count_ t - 1)) (size_ t) (loadFactor_ t)) (delete (norm k) M).
Proof.
  intros Hr [v Hv]. assert (Hs := size_bounds _ _ Hr). assert (Hk := norm_range k).
  assert (H31 := map_size_bound _ (2 ^ 31) ltac:(done) (rep_dom _ _ Hr)).
  destruct Hr as [Hsz Hlen Hlf Hbk Hkeys Hdom Hcnt Hload].
  assert (size M ≠ 0). { intros H0%map_size_empty_inv. subst. done. }
  assert (u32 (count_ t - 1) = count_ t - 1)%Z as Hc by (apply u32_id; lia).
  split; simpl; rewrite ?Hc; eauto.
  - intros b d Hb. assert (b < length (buckets_ t)) by (by eapply lookup_lt_Some).
    apply Hbk in Hb as [-> Hin]. split; [done|]. rewrite lookup_delete_ne; [done|].
    apply not_eq_sym, dummy_not_regular. lia.
  - intros k' Hk'. destruct (decide (k' = norm k)) as [->|Hne].
    + by rewrite norm_regular, !lookup_delete_eq.
    + rewrite !lookup_delete_ne; [by apply Hkeys|done|].
      rewrite regular_eq. fold (norm k). by rewrite (Z.mod_small k') by done.
  - intros k' [x [_ Hx]%lookup_delete_Some]. eauto.
  - rewrite map_size_delete, Hv. lia.
  - lia.
Qed.

(** ** Operations and sequences of them *)

Inductive op := Insert (data value : Z) | Remove (data : Z) | Find (data : Z).

(** What an operation returns, with the value a search has found. *)
Inductive result := RBool (b : bool) | RFind (v : option (option Z)).

Definition perform (o : op) (t : LockFreeHashTable) : option (result * LockFreeHashTable) :=
  match o with
  | Insert k v => '(b, t) ← insertKey k v t; Some (RBool b, t)
  | Remove k => '(b, t) ← removeKey k t; Some (RBool b, t)
  | Find k => '(v, t) ← findKey k t; Some (RFind v, t)
  end.

Fixpoint perform_all (os : list op) (t : LockFreeHashTable)
    : option (list result * LockFreeHashTable) :=
  match os with
  | [] => Some ([], t)
  | o :: os => '(r, t) ← perform o t; '(rs, t) ← perform_all os t; Some (r :: rs, t)
  end.

(** The same on a map. *)
Definition map_perform (o : op) (M : gmap Z Z) : result * gmap Z Z :=
  match o with
  | Insert k v => match M !! norm k with
                  | Some _ => (RBool false, M)
                  | None => (RBool true, <[norm k := v]> M)
                  end
  | Remove k => (RBool (bool_decide (is_Some (M !! norm k))), delete (norm k) M)
  | Find k => (RFind (Some <$> M !! norm k), M)
  end.

Fixpoint map_perform_all (os : list op) (M : gmap Z Z) : list result * gmap Z Z :=
  match os with
  | [] => ([], M)
  | o :: os => let '(r, M) := map_perform o M in
               let '(rs, M) := map_perform_all os M in (r :: rs, M)
  end.

Lemma perform_spec o t M :
  represents t M →
  ∃ t', perform o t = Some ((map_perform o M).1, t') ∧ represents t' (map_perform o M).2.
Proof.
  intros Hr. destruct o as [k v|k|k]; simpl;
    destruct (ready_spec k t M Hr) as (t1 & E & Hr1 & Hs1 & d & Hd & Hv);
    unfold insertKey, removeKey, findKey; rewrite E; cbn [mbind option_bind];
    rewrite Hd; cbn [mbind option_bind]; unfold list_insert, list_remove, list_lookup;
    rewrite Hv, (rep_lookup _ _ k Hr1).
  - destruct (M !! norm k) eqn:Hk; simpl; [destruct t1; eauto|].
    destruct (represents_insert t1 M k v Hr1 Hk) as [H1 H2].
    destruct (decide _); simpl; eauto.
  - destruct (M !! norm k) eqn:Hk; simpl.
    + eexists. split; [done|]. by apply represents_delete.
    + eexists. split; [done|]. rewrite delete_id by done. by destruct t1.
  - eauto.
Qed.

Lemma represents_empty : represents (mkTable ∅ [None; None] 0 2 10) ∅.
Proof.
  split; simpl; try done.
  - by exists 1%Z.
  - by intros [|[|b]] d Hb.
  - intros k [x Hx]. by rewrite lookup_empty in Hx.
Qed.

Lemma make_spec : ∃ t, make = Some t ∧ represents t {[0%Z := 0%Z]}.
Proof.
  destruct (perform_spec (Insert 0 0) _ _ represents_empty) as (t & E & Hr). simpl in E, Hr.
  rewrite lookup_empty in E, Hr. unfold make.
  destruct (insertKey 0 0 (mkTable ∅ [None; None] 0 2 10)) as [[b t']|]; simpl in E; [|done].
  exists t. split; [by simplify_eq|]. by rewrite <- insert_empty.
Qed.

Lemma perform_all_spec os : ∀ t M,
  represents t M →
  ∃ t', perform_all os t = Some ((map_perform_all os M).1, t') ∧
        represents t' (map_perform_all os M).2.
Proof.
  induction os as [|o os IH]; intros t M Hr; simpl; [eauto|].
  destruct (perform_spec o t M Hr) as (t1 & -> & Hr1). simpl.
  destruct (map_perform o M) as [r M1]. simpl in *.
  destruct (IH t1 M1 Hr1) as (t2 & -> & Hr2). destruct (map_perform_all os M1). simpl. eauto.
Qed.

(** The split-ordered table is a map: whatever operations are made on a new
    table, none of them fails on a bucket out of range or runs without end, every
    one returns what it returns on a map that at first binds 0 to 0, the counter
    is the number of keys and there are fewer than eleven keys per bucket. *)
Lemma hash_table_is_map os :
  ∃ t0 t rs M, make = Some t0 ∧ perform_all os t0 = Some (rs, t) ∧
    map_perform_all os {[0%Z := 0%Z]} = (rs, M) ∧
    (∀ k, list_lookup (reverseRegularKey k) None (lockfreelist_ t) = Some <$> M !! norm k) ∧
    getCount t = Z.of_nat (size M) ∧ (getCount t < 11 * getSize t)%Z.
Proof.
  destruct make_spec as (t0 & Hm & Hr0).
  destruct (perform_all_spec os t0 _ Hr0) as (t & E & Hr).
  destruct (map_perform_all os {[0%Z := 0%Z]}) as [rs M]. simpl in *.
  exists t0, t, rs, M. repeat split; try done.
  - intros k. by apply rep_lookup.
  - apply (rep_count _ _ Hr).
  - apply (rep_load _ _ Hr).
Qed.

(** Keys are only told apart below bit 31: in any state that operations lead
    to, a key and the same key plus 2^31 are found with the same value, and the
    second cannot be inserted beside the first.  On a new table 0 cannot be
    inserted, since the constructor has already put it there. *)
Lemma keys_collide os k v w t rs :
  (t0 ← make; perform_all os t0) = Some (rs, t) →
  (∃ t', findKey k t = Some (Some (Some v), t')) →
  (∃ t1, findKey (k + 2 ^ 31) t = Some (Some (Some v), t1)) ∧
  (∃ t2, insertKey (k + 2 ^ 31) w t = Some (false, t2)) ∧
  (∃ t3, (t0 ← make; insertKey 0 w t0) = Some (false, t3)).
Proof.
  intros Hrun [t' Hf]. destruct make_spec as (t0 & Hm & Hr0). rewrite Hm in Hrun |- *. simpl in Hrun |- *.
  destruct (perform_all_spec os t0 _ Hr0) as (t'' & E & Hr). rewrite E in Hrun.
  destruct (map_perform_all os {[0%Z := 0%Z]}) as [rs' M]. simpl in *. simplify_eq.
  assert (Hn : norm (k + 2 ^ 31) = norm k).
  { unfold norm. by rewrite <- (Z.mul_1_l (2 ^ 31)) at 1; rewrite Z_mod_plus_full. }
  destruct (perform_spec (Find k) t M Hr) as (? & E1 & _). simpl in E1. rewrite Hf in E1.
  simpl in E1. destruct (M !! norm k) as [y|] eqn:Hk; [|discriminate E1]. simpl in E1.
  assert (y = v) as -> by congruence.
  destruct (perform_spec (Find (k + 2 ^ 31)) t M Hr) as (? & E2 & _).
  destruct (perform_spec (Insert (k + 2 ^ 31) w) t M Hr) as (? & E3 & _).
  destruct (perform_spec (Insert 0 w) t0 _ Hr0) as (? & E4 & _).
  change (norm 0) with 0%Z in E4. simpl in E2, E3, E4. rewrite lookup_singleton_eq in E4. rewrite Hn, Hk in E2, E3. split_and!.
  - destruct (findKey (k + 2 ^ 31) t) as [[]|]; simpl in *; [|done]. simplify_eq. eauto.
  - destruct (insertKey (k + 2 ^ 31) w t) as [[]|]; simpl in *; [|done]. simplify_eq. eauto.
  - destruct (insertKey 0 w t0) as [[]|]; simpl in *; [|done]. simplify_eq. eauto.
Qed.

End HashTable.
