(* ===== verification/Linearizability.v ===== *)
(** * Linearizability

    What it means that a concurrent object behaves like an atomic one, and a
    criterion for it.  A thread's operation may take effect at one of its own
    steps; an operation that changes nothing may have taken effect at any state
    of its call, and it is often known only later at which one.  The interface
    [Laws] asks of an object what holds step by step; [linearizable] derives
    that every history of calls and returns is one of the atomic object.
    [ListLinearizable] and [ConcurrentHashTable] are its clients. *)

From S2P Require Import Prelude.

Module Lin.

(** ** The atomic object *)

(** What a client sees. *)
Inductive event {Op Res : Type} := ECall (t : nat) (o : Op) | EReturn (t : nat) (r : Res).
Arguments event : clear implicits.

(** Where a thread is: it makes no call; its operation has not taken effect; it
    has, and will return [r]. *)
Inductive phase {Op Res : Type} := Resting | Running (o : Op) | Answered (r : Res).
Arguments phase : clear implicits.

Section objects.
Context {St Lb Op Res A : Type}.
Context (apply : Op → A → Res * A).

(** The histories of the object whose operations take effect at one instant
    between their call and their return. *)
Inductive atomic (a0 : A) : list (event Op Res) → A → (nat → phase Op Res) → Prop :=
  | atomic_start : atomic a0 [] a0 (λ _, Resting)
  | atomic_call es a p t o :
      atomic a0 es a p → p t = Resting → atomic a0 (es ++ [ECall t o]) a (upd t (Running o) p)
  | atomic_effect es a p t o r a' :
      atomic a0 es a p → p t = Running o → apply o a = (r, a') →
      atomic a0 es a' (upd t (Answered r) p)
  | atomic_return es a p t r :
      atomic a0 es a p → p t = Answered r → atomic a0 (es ++ [EReturn t r]) a (upd t Resting p).

(** ** Concurrent objects *)

(** Its steps; the abstract value of a state; where each thread is, as far as
    its own steps tell; what a client sees of a step. *)
Class Object := mkObject {
  ostep : Lb → St → option St;
  abs : St → A;
  view : St → nat → phase Op Res;
  visible : Lb → St → option (event Op Res)
}.

Context `{Object}.

(** At [s], the operation of [t] would return [r] and change nothing. *)
Definition justifies (s : St) (t : nat) (r : Res) : Prop :=
  ∃ o, view s t = Running o ∧ apply o (abs s) = (r, abs s).

(** A run, with the results that some state since each thread's call justifies. *)
Inductive run (s0 : St) : St → (nat → Res → Prop) → list (event Op Res) → Prop :=
  | run_start : run s0 s0 (λ _ _, False) []
  | run_step l s s' J es :
      run s0 s J es → ostep l s = Some s' →
      run s0 s' (λ t r, justifies s' t r ∨ (J t r ∧ ∀ o, visible l s ≠ Some (ECall t o)))
        (es ++ option_list (visible l s)).

(** What a step may do: a call; nothing; the effect of the operation of [t]; a
    return, of the result of the effect or of a justified result. *)
Inductive moves (J : nat → Res → Prop) (s s' : St) : option (event Op Res) → Prop :=
  | moves_call t o :
      view s t = Resting → view s' t = Running o → abs s' = abs s →
      (∀ u, u ≠ t → view s' u = view s u) → moves J s s' (Some (ECall t o))
  | moves_silent :
      abs s' = abs s → (∀ u, view s' u = view s u) → moves J s s' None
  | moves_effect t o r :
      view s t = Running o → apply o (abs s) = (r, abs s') → view s' t = Answered r →
      (∀ u, u ≠ t → view s' u = view s u) → moves J s s' None
  | moves_return t r :
      view s t = Answered r ∨ (J t r ∧ ∃ o, view s t = Running o) → view s' t = Resting →
      abs s' = abs s → (∀ u, u ≠ t → view s' u = view s u) → moves J s s' (Some (EReturn t r)).

(** The interface. *)
Class Laws (s0 : St) : Prop := {
  law_start t : view s0 t = Resting;
  law_step l s s' J es : run s0 s J es → ostep l s = Some s' → moves J s s' (visible l s)
}.

(** ** The criterion *)

(** The threads of the atomic object when those of [c] have already taken effect. *)
Definition ahead (c : gmap nat Res) (s : St) (t : nat) : phase Op Res :=
  match c !! t with Some r => Answered r | None => view s t end.

(** [c] chooses results that were justified, of threads still running. *)
Definition choice (J : nat → Res → Prop) (s : St) (c : gmap nat Res) : Prop :=
  ∀ t r, c !! t = Some r → J t r ∧ ∃ o, view s t = Running o.

Definition matched (s0 : St) es (s : St) (c : gmap nat Res) : Prop :=
  ∃ p, atomic (abs s0) es (abs s) p ∧ ∀ t, p t = ahead c s t.

Lemma choice_split (P Q : nat → Res → Prop) (c : gmap nat Res) :
  (∀ t r, c !! t = Some r → P t r ∨ Q t r) →
  ∃ d e, c = d ∪ e ∧ d ##ₘ e ∧ (∀ t r, d !! t = Some r → P t r) ∧ (∀ t r, e !! t = Some r → Q t r).
Proof.
  induction c as [|t r c Ht IH] using map_ind; intros Hc.
  { exists ∅, ∅. split_and!; [by rewrite map_empty_union|apply map_disjoint_empty_l|done|done]. }
  destruct IH as (d & e & -> & Hde & Hd & He).
  { intros u r' Hu. apply Hc. rewrite lookup_insert_ne; [done|]. intros ->. congruence. }
  apply lookup_union_None in Ht as [Htd Hte].
  destruct (Hc t r) as [Hp|Hq]; [by rewrite lookup_insert_eq|exists (<[t:=r]> d), e|exists d, (<[t:=r]> e)].
  - split_and!; [by rewrite insert_union_l|by apply map_disjoint_insert_l|intros u r'|done].
    rewrite lookup_insert_Some. intros [[<- <-]|[_ ?]]; auto.
  - split_and!; [by rewrite insert_union_r|by apply map_disjoint_insert_r|done|intros u r'].
    rewrite lookup_insert_Some. intros [[<- <-]|[_ ?]]; auto.
Qed.

(** Operations that change nothing take effect in any order. *)
Lemma matched_effects s0 es s c d :
  matched s0 es s c → d ##ₘ c → (∀ t r, d !! t = Some r → justifies s t r) → matched s0 es s (d ∪ c).
Proof.
  intros Hm. induction d as [|t r d Ht IH] using map_ind; intros Hdc Hd.
  { by rewrite map_empty_union. }
  apply map_disjoint_insert_l in Hdc as [Hct Hdc].
  destruct IH as (p & Hp & Ep); [done| |].
  { intros u r' Hu. apply Hd. rewrite lookup_insert_ne; [done|]. intros ->. congruence. }
  destruct (Hd t r) as (o & Ho & Ha); [by rewrite lookup_insert_eq|].
  exists (upd t (Answered r) p). split.
  - eapply atomic_effect; [exact Hp| |exact Ha]. rewrite Ep. unfold ahead.
    by rewrite (proj2 (lookup_union_None d c t) (conj Ht Hct)).
  - intros u. unfold ahead. rewrite <- insert_union_l. upd_cases u t.
    + by rewrite lookup_insert_eq.
    + rewrite lookup_insert_ne by done. apply Ep.
Qed.

(** One step, with a choice that stays one. *)
Lemma matched_step s0 l s s' J es c :
  moves J s s' (visible l s) →
  (∀ c, choice J s c → matched s0 es s c) →
  (∀ t r, c !! t = Some r → (J t r ∧ ∀ o, visible l s ≠ Some (ECall t o)) ∧ ∃ o, view s' t = Running o) →
  matched s0 (es ++ option_list (visible l s)) s' c.
Proof.
  intros Hmv Hs Hc. unfold matched, ahead in *.
  assert (∀ t v, view s' t = v → (∀ o, v ≠ Running o) → c !! t = None) as Hno.
  { intros t v Hv Hr. destruct (c !! t) as [r|] eqn:E; [|done].
    destruct (Hc t r E) as (_ & o & Ho). by destruct (Hr o); congruence. }
  inversion Hmv as [t o H1 H2 H3 H4 E|H1 H2 E|t o r H1 H2 H3 H4 E|t r H1 H2 H3 H4 E];
    rewrite <- E in *; clear E; cbn [option_list]; rewrite ?app_nil_r.
  - assert (c !! t = None) as Ht.
    { destruct (c !! t) eqn:Et; [|done]. destruct (Hc _ _ Et) as [[_ Hn] _]. by destruct (Hn o). }
    destruct (Hs c) as (p & Hp & Ep).
    { intros u r Hu. destruct (Hc u r Hu) as [[? _] [o' Ho]]. split; [done|].
      exists o'. rewrite <- H4; [done|]. intros ->. congruence. }
    exists (upd t (Running o) p). rewrite H3. split.
    + apply atomic_call; [done|]. by rewrite Ep, Ht.
    + intros u. upd_cases u t; [by rewrite Ht|]. by rewrite Ep, H4.
  - destruct (Hs c) as (p & Hp & Ep).
    { intros u r Hu. destruct (Hc u r Hu) as [[? _] [o' Ho]]. rewrite H2 in Ho. eauto. }
    exists p. rewrite H1. split; [done|]. intros u. by rewrite Ep, H2.
  - assert (c !! t = None) as Ht by by eapply Hno.
    destruct (Hs c) as (p & Hp & Ep).
    { intros u r' Hu. destruct (Hc u r' Hu) as [[? _] [o' Ho]]. split; [done|].
      exists o'. rewrite <- H4; [done|]. intros ->. congruence. }
    exists (upd t (Answered r) p). split.
    + eapply atomic_effect; [exact Hp| |exact H2]. by rewrite Ep, Ht.
    + intros u. upd_cases u t; [by rewrite Ht|]. by rewrite Ep, H4.
  - assert (c !! t = None) as Ht by by eapply Hno.
    destruct (Hs (match view s t with Running _ => <[t := r]> c | _ => c end)) as (p & Hp & Ep).
    { assert (∀ u r', u ≠ t → c !! u = Some r' → J u r' ∧ ∃ o, view s u = Running o) as Ho.
      { intros u r' Hne Hu. destruct (Hc u r' Hu) as [[? _] [o' Ho]]. rewrite H4 in Ho by done. eauto. }
      intros u r'. destruct H1 as [-> |[HJ [o Hv]]]; [|rewrite Hv].
      - intros Hu. apply Ho; [|done]. intros ->. congruence.
      - rewrite lookup_insert_Some. intros [[<- <-]|[? ?]]; eauto. }
    exists (upd t Resting p). rewrite H3. split.
    + eapply atomic_return; [exact Hp|]. rewrite Ep. destruct H1 as [Hv|[_ [o Hv]]]; rewrite Hv.
      * by rewrite Ht.
      * by rewrite lookup_insert_eq.
    + intros u. upd_cases u t; [by rewrite Ht|]. rewrite Ep, H4 by done.
      destruct (view s t); [done|by rewrite lookup_insert_ne|done].
Qed.

Lemma run_matched s0 s J es :
  Laws s0 → run s0 s J es → ∀ c, choice J s c → matched s0 es s c.
Proof.
  intros HL. induction 1 as [|l s s' J es Hr IH Hs]; intros c Hc.
  - exists (λ _, Resting). split; [constructor|]. intros t. unfold ahead. rewrite law_start.
    destruct (c !! t) eqn:E; [|done]. by destruct (Hc _ _ E).
  - destruct (choice_split (justifies s')
      (λ t r, (J t r ∧ ∀ o, visible l s ≠ Some (ECall t o)) ∧ ∃ o, view s' t = Running o) c)
      as (d & e & -> & Hde & Hd & He).
    { intros t r Ht. destruct (Hc t r Ht) as [[?|?] ?]; auto. }
    apply matched_effects; [|done|done].
    eapply matched_step; [by eapply law_step|done|done].
Qed.

(** Every history of an object with these laws is a history of the atomic one,
    which ends with the same value. *)
Lemma linearizable s0 s J es :
  Laws s0 → run s0 s J es → ∃ p, atomic (abs s0) es (abs s) p.
Proof.
  intros HL Hr. destruct (run_matched s0 s J es HL Hr ∅) as (p & Hp & _); [|by exists p].
  intros t r Ht. by rewrite lookup_empty in Ht.
Qed.

(** ** Histories of schedules *)

Fixpoint history (sched : list Lb) (s : St) : list (event Op Res) :=
  match sched with
  | [] => []
  | l :: sched =>
    option_list (visible l s) ++
    match ostep l s with Some s' => history sched s' | None => [] end
  end.

Lemma run_history s0 sched : ∀ s s' J es,
  run s0 s J es → exec ostep sched s = Some s' → ∃ J', run s0 s' J' (es ++ history sched s).
Proof.
  induction sched as [|l sched IH]; intros s s' J es Hr He; cbn in He |- *.
  - simplify_eq. exists J. by rewrite app_nil_r.
  - destruct (ostep l s) as [s1|] eqn:Hs; cbn in He; [|done].
    destruct (IH s1 s' _ _ (run_step s0 l s s1 J es Hr Hs) He) as [J' HJ].
    exists J'. by rewrite app_assoc.
Qed.

Lemma linearizable_history s0 sched s :
  Laws s0 → exec ostep sched s0 = Some s → ∃ p, atomic (abs s0) (history sched s0) (abs s) p.
Proof.
  intros HL He. destruct (run_history s0 sched s0 s _ [] (run_start s0) He) as [J HJ].
  by eapply linearizable.
Qed.

End objects.
End Lin.
