(* ===== verification/ListLinearizable.v ===== *)
(** * The lock-free list is linearizable

    The steps of [LockFreeList] as an object of [Linearizability]: its abstract
    value is the map from the keys of the nodes that are not marked to their
    values.  An [insert] takes effect when its new node is linked, a [remove]
    when it marks the node; the other results were right at some state of the
    call.  For the clients: which nodes an insertion returns, and that no thread
    ever follows a dangling pointer. *)

From S2P Require Import Prelude.
From S2P Require Import LockFreeList.
From S2P Require Import Linearizability.

Module ListLin.
Import LockFreeList Lin.

(** ** The atomic list *)

(** What a call returns: a lookup, the value of the node it has found. *)
Inductive result := RBool (b : bool) | RFind (v : option (option Z)).

Definition list_apply (o : op) (m : gmap Z (option Z)) : result * gmap Z (option Z) :=
  match o with
  | Insert k v => match m !! k with
                  | Some _ => (RBool false, m)
                  | None => (RBool true, <[k := v]> m)
                  end
  | Remove k => match m !! k with
                | Some _ => (RBool true, delete k m)
                | None => (RBool false, m)
                end
  | Lookup k => (RFind (m !! k), m)
  | Cleanup _ => (RBool true, m)
  end.

(** ** The concurrent list as an object *)

(** The keys and values of the nodes that are not marked. *)
Definition contents (h : gmap nat Node) : gmap Z (option Z) :=
  map_fold (λ _ n m, if isMarked (next n) then m else <[data n := value n]> m) ∅ h.

(** Where a thread is: after its exchange, [insert] and [remove] return true. *)
Definition phase_of (th : thread) : phase op result :=
  match at_ th, oper th with
  | Idle, _ => Resting
  | Done true _, (Insert _ _ | Remove _) => Answered (RBool true)
  | CasDelete _ _ _, _ => Answered (RBool true)
  | _, Cleanup _ => Answered (RBool true)
  | _, o => Running o
  end.

(** The result of a call that is [Done]; [lookupInternal] reads the value of the
    node it has found. *)
Definition result_of (s : state) (o : op) (res : bool) (found : option nat) : result :=
  match o with
  | Lookup _ => RFind (if res then a ← found; n ← nodes s !! a; Some (value n) else None)
  | _ => RBool res
  end.

Definition visible (l : label) (s : state) : option (event op result) :=
  match l with
  | Call t o _ => Some (ECall t o)
  | Go t => match at_ (threads s t) with
            | Done res found => Some (EReturn t (result_of s (oper (threads s t)) res found))
            | _ => None
            end
  end.

#[export] Instance list_object `{Sentinel} : Object (St := state) (A := gmap Z (option Z)) :=
  {| ostep := step; abs := λ s, contents (nodes s); Lin.view := λ s t, phase_of (threads s t); Lin.visible := visible |}.

(** ** The map of the list *)

Definition live (h : gmap nat Node) (a : nat) (n : Node) : Prop :=
  h !! a = Some n ∧ isMarked (next n) = false.

(** Two live nodes with the same key are the same. *)
Definition unique (h : gmap nat Node) : Prop :=
  ∀ a n b x, live h a n → live h b x → data n = data x → a = b.

Lemma contents_lookup h k v :
  unique h → contents h !! k = Some v ↔ ∃ a n, live h a n ∧ data n = k ∧ value n = v.
Proof.
  unfold contents. revert k v. apply (map_fold_weak_ind (λ m h, ∀ k v, unique h →
    m !! k = Some v ↔ ∃ a n, live h a n ∧ data n = k ∧ value n = v)).
  { intros k v _. rewrite lookup_empty. split; [done|]. intros (a & n & [Ha _] & _).
    by rewrite lookup_empty in Ha. }
  intros a n h' m Ha IH k v Hu.
  assert (∀ b x, live h' b x → live (<[a:=n]> h') b x ∧ b ≠ a) as Hl.
  { intros b x [Hb Hm]. assert (b ≠ a) by congruence. split; [|done]. split; [|done].
    by rewrite lookup_insert_ne. }
  assert (unique h') as Hu'.
  { intros b x c y Hb Hc. apply Hu; by apply Hl. }
  specialize (IH k v Hu').
  assert (∀ b x, live (<[a:=n]> h') b x → b = a ∧ x = n ∧ isMarked (next n) = false ∨ live h' b x) as Hinv.
  { intros b x [Hb Hm]. apply lookup_insert_Some in Hb as [[<- <-]|[_ Hb]]; [by left|by right]. }
  destruct (isMarked (next n)) eqn:Hm.
  - rewrite IH. split.
    + intros (b & x & Hb & ?). exists b, x. split; [by apply Hl|done].
    + intros (b & x & Hb & ?). destruct (Hinv b x Hb) as [(_ & _ & ?)|?]; [done|eauto].
  - assert (live (<[a:=n]> h') a n) as Hn by (split; [by rewrite lookup_insert_eq|done]).
    destruct (decide (data n = k)) as [<-|Hne].
    + rewrite lookup_insert_eq. split; [intros [= <-]; by exists a, n|].
      intros (b & x & Hb & Hd & <-). f_equal.
      destruct (Hinv b x Hb) as [(_ & -> & _)|Hb']; [done|].
      destruct (Hl b x Hb') as [_ []]. by eapply Hu.
    + rewrite lookup_insert_ne, IH by done. split.
      * intros (b & x & Hb & ?). exists b, x. split; [by apply Hl|done].
      * intros (b & x & Hb & Hd & ?). destruct (Hinv b x Hb) as [(_ & -> & _)|?]; [done|eauto].
Qed.

(** ** Memory *)

(** Nodes keep their key and value, and their mark; the nodes that are new are
    those of [new]. *)
Definition evolves (h h' : gmap nat Node) (new : option Node) : Prop :=
  (∀ a n, h !! a = Some n → ∃ n', h' !! a = Some n' ∧ data n' = data n ∧ value n' = value n ∧
     (isMarked (next n) = true → isMarked (next n') = true)) ∧
  (∀ a n', h' !! a = Some n' → is_Some (h !! a) ∨
     ∃ x, new = Some x ∧ data n' = data x ∧ value n' = value x).

Lemma evolves_refl h : evolves h h None.
Proof. split; eauto. Qed.

(** Writing an unmarked pointer. *)
Lemma evolves_next h a n x :
  h !! a = Some n → isMarked (next n) = false → evolves h (<[a := set_next x n]> h) None.
Proof.
  intros Ha Hm. split.
  - intros b y Hb. destruct (decide (b = a)) as [->|Hne].
    + rewrite lookup_insert_eq. assert (y = n) as -> by congruence. eexists. split_and!; try done. congruence.
    + rewrite lookup_insert_ne by done. eauto.
  - intros b y Hb. left. apply lookup_insert_Some in Hb as [[<- _]|[_ ?]]; by eexists.
Qed.

(** Exchanges never change a marked pointer. *)
Lemma evolves_cas t l old new s ok s' :
  cas t l old new s = Some (ok, s') → isMarked old = false → evolves (nodes s) (nodes s') None.
Proof.
  unfold cas. intros Hc Ho. destruct (load t l s) as [x|] eqn:Hx; cbn in Hc; [|done].
  case_decide as E; [subst x|simplify_eq; apply evolves_refl].
  destruct (store t l new s) as [s1|] eqn:Hs; cbn in Hc; [|done]. simplify_eq.
  destruct l as [| |a]; cbn in Hs; try (simplify_eq; apply evolves_refl).
  cbn in Hx. destruct (nodes s !! a) as [n|] eqn:Ha; cbn in *; [|done]. simplify_eq.
  by apply evolves_next.
Qed.

(** The exchange that links the new node. *)
Lemma evolves_link t s a n l q x s1 :
  nodes s !! a = None → load t l s = Some (clean q) →
  store t l x (mkState (head_ s) (<[a := n]> (nodes s)) (retired s) (threads s)) = Some s1 →
  evolves (nodes s) (nodes s1) (Some n).
Proof.
  intros Ha Hl Hs.
  assert (evolves (nodes s) (<[a := n]> (nodes s)) (Some n)) as [H1 H2].
  { split.
    - intros b y Hb. rewrite lookup_insert_ne; [eauto|]. intros ->. congruence.
    - intros b y Hb. apply lookup_insert_Some in Hb as [[<- <-]|[_ ?]]; [right|left]; eauto. }
  destruct l as [| |b]; cbn in Hs; simplify_eq; [by split..|].
  cbn in Hl. destruct (nodes s !! b) as [m|] eqn:Hb; cbn in Hl; [|done]. simplify_eq.
  assert (b ≠ a) as Hba by congruence. rewrite lookup_insert_ne, Hb in Hs by done.
  cbn in Hs. simplify_eq. cbn.
  destruct (evolves_next (<[a:=n]> (nodes s)) b m x) as [H3 H4].
  { by rewrite lookup_insert_ne. }
  { by match goal with E : next m = _ |- _ => rewrite E end. }
  split.
  - intros c y Hc. destruct (H1 c y Hc) as (y1 & Hy1 & E1 & E2 & Hm1).
    destruct (H3 c y1 Hy1) as (y2 & ? & E3 & E4 & ?). exists y2. split_and!; [done|congruence|congruence|auto].
  - intros c y Hc. destruct (decide (c = b)) as [->|Hcb]; [left; by eexists|].
    rewrite lookup_insert_ne in Hc by done. by apply H2 in Hc.
Qed.

(** ** What a step does to memory and to the map *)

Section steps.
Context `{Sentinel}.
Implicit Types (s : state).

Lemma shared_unique s l : shared s l → unique (nodes s).
Proof. intros Hs a n b x [Ha Hma] [Hb Hmb] Hd. by eapply (key_unique s l a b n x). Qed.

Lemma member_live s k : member s k ↔ ∃ a n, live (nodes s) a n ∧ data n = k.
Proof.
  split; [intros (a & n & Ha & Hd & Hm)|intros (a & n & [Ha Hm] & Hd)]; exists a, n; [|done].
  by split.
Qed.

Lemma contents_member s l k : shared s l → member s k ↔ is_Some (contents (nodes s) !! k).
Proof.
  intros Hs. rewrite member_live. split.
  - intros (a & n & Hn & Hd). exists (value n). apply contents_lookup; [by eapply shared_unique|eauto].
  - intros [v Hv]. apply contents_lookup in Hv as (a & n & ? & ? & _); [eauto|by eapply shared_unique].
Qed.

(** A key keeps its value when it stays and no new node has it. *)
Lemma contents_keep s l s' l' new j :
  shared s l → shared s' l' → evolves (nodes s) (nodes s') new →
  (∀ x, new = Some x → data x ≠ j) → (member s' j ↔ member s j) →
  contents (nodes s') !! j = contents (nodes s) !! j.
Proof.
  intros Hs Hs' [H1 H2] Hnew Hj.
  pose proof (shared_unique s l Hs) as Hu. pose proof (shared_unique s' l' Hs') as Hu'.
  assert (∀ a n', live (nodes s') a n' → data n' = j →
    ∃ n, live (nodes s) a n ∧ data n = j ∧ value n = value n') as Hback.
  { intros a n' [Ha Hm] Hd. destruct (H2 a n' Ha) as [[n Hn]|(x & Ex & Hx & _)].
    - exists n. destruct (H1 a n Hn) as (n2 & Hn2 & Hd2 & Hv2 & Hm2).
      assert (n2 = n') as -> by congruence. split_and!; [|congruence|done].
      split; [done|]. destruct (isMarked (next n)); [|done]. by rewrite Hm2 in Hm.
    - destruct (Hnew x Ex). congruence. }
  apply option_eq. intros v. rewrite !contents_lookup by done. split.
  - intros (a & n' & Hn' & Hd & <-). destruct (Hback a n' Hn' Hd) as (n & ? & ? & ?). eauto.
  - intros (a & n & Hn & Hd & <-). destruct Hj as [_ Hj].
    destruct Hj as (b & n' & Hb & Hd' & Hm'); [apply member_live; eauto|].
    destruct (Hback b n' (conj Hb Hm') Hd') as (x & Hx & Hdx & Hvx).
    assert (a = b) as <- by (eapply Hu; [done|done|congruence]).
    exists a, n'. split_and!; [by split|done|]. rewrite <- Hvx. destruct Hn, Hx. congruence.
Qed.

Lemma contents_same s l s' l' :
  shared s l → shared s' l' → evolves (nodes s) (nodes s') None →
  (∀ j, member s' j ↔ member s j) → contents (nodes s') = contents (nodes s).
Proof. intros Hs Hs' Hev Hm. apply map_eq. intros j. by eapply contents_keep. Qed.

Lemma contents_insert s l s' l' k v p :
  shared s l → shared s' l' → evolves (nodes s) (nodes s') (Some (mkNode k v p)) →
  ¬ member s k → (∀ j, member s' j ↔ j = k ∨ member s j) →
  contents (nodes s) !! k = None ∧ contents (nodes s') = <[k := v]> (contents (nodes s)).
Proof.
  intros Hs Hs' Hev Hk Hm. split.
  { apply eq_None_not_Some. by rewrite <- contents_member. }
  apply map_eq. intros j. destruct (decide (j = k)) as [->|Hne].
  - rewrite lookup_insert_eq. apply contents_lookup; [by eapply shared_unique|].
    destruct (proj2 (Hm k)) as (a & n & Ha & Hd & Hma); [by left|].
    exists a, n. split_and!; [by split|done|]. destruct Hev as [H1 H2].
    destruct (H2 a n Ha) as [[y Hy]|(x & [= <-] & _ & Hv)]; [|done].
    destruct Hk, (H1 a y Hy) as (n2 & Hn2 & Hd2 & _ & Hm2). exists a, y.
    assert (n2 = n) as -> by congruence. split_and!; [done|congruence|].
    destruct (isMarked (next y)); [|done]. by rewrite Hm2 in Hma.
  - rewrite lookup_insert_ne by done. eapply contents_keep; [done|done|done| |].
    + intros x [= <-]. by apply not_eq_sym.
    + rewrite Hm. naive_solver.
Qed.

Lemma contents_remove s l s' l' k :
  shared s l → shared s' l' → evolves (nodes s) (nodes s') None →
  member s k → (∀ j, member s' j ↔ member s j ∧ j ≠ k) →
  is_Some (contents (nodes s) !! k) ∧ contents (nodes s') = delete k (contents (nodes s)).
Proof.
  intros Hs Hs' Hev Hk Hm. split; [by apply (contents_member s l)|].
  apply map_eq. intros j. destruct (decide (j = k)) as [->|Hne].
  - rewrite lookup_delete_eq. apply eq_None_not_Some. rewrite <- contents_member by done.
    rewrite Hm. tauto.
  - rewrite lookup_delete_ne by done. eapply contents_keep; [done|done|done|done|].
    rewrite Hm. naive_solver.
Qed.

(** *** [lookupInternal] *)

(** The phase of a thread that searches. *)
Definition searching (o : op) : phase op result :=
  match o with Cleanup _ => Answered (RBool true) | o => Running o end.

Lemma phase_returned o st res prev cur n :
  phase_of (mkThread o st (returned o res prev cur n)) = searching o.
Proof. by destruct o, res, cur. Qed.

Lemma view_goto t c s u p :
  phase_of (mkThread (oper (threads s t)) (start_ (threads s t)) c) = p →
  phase_of (threads s t) = p → phase_of (threads (goto t c s) u) = phase_of (threads s u).
Proof. intros <- Hp. cbn. by upd_cases u t. Qed.

Lemma lookupInternal_evolves t s s' :
  lookupInternal_step t s = Some s' → evolves (nodes s) (nodes s') None.
Proof.
  unfold lookupInternal_step. intros Hs.
  destruct (at_ (threads s t)) as [| |prev cur|prev cur|prev cur|prev cur n|prev cur n| | | |];
    try done; repeat (first [case_match|done|progress simplify_eq/=|progress simplify_option_eq]);
    try apply evolves_refl; try (eapply evolves_cas; [eassumption|done]).
Qed.

Lemma cas_threads t l old new s ok s1 u :
  cas t l old new s = Some (ok, s1) →
  oper (threads s1 u) = oper (threads s u) ∧ at_ (threads s1 u) = at_ (threads s u).
Proof.
  unfold cas. intros Hc. destruct (load t l s) as [x|]; cbn in Hc; [|done].
  case_decide; [|by simplify_eq]. destruct (store t l new s) as [s2|] eqn:Hs; cbn in Hc; [|done].
  simplify_eq. destruct l as [| |a]; cbn in Hs; simplify_eq; [done| |].
  - cbn. by upd_cases u t.
  - destruct (nodes s !! a); cbn in Hs; by simplify_eq.
Qed.

Lemma phase_eq th th' : oper th = oper th' → at_ th = at_ th' → phase_of th = phase_of th'.
Proof. unfold phase_of. by intros -> ->. Qed.

Lemma lookupInternal_phase t s s' u :
  lookupInternal_step t s = Some s' → phase_of (threads s' u) = phase_of (threads s u).
Proof.
  intros Hs. assert (∀ c, phase_of (mkThread (oper (threads s t)) (start_ (threads s t)) c) =
    searching (oper (threads s t)) → phase_of (threads s t) = searching (oper (threads s t)) →
    phase_of (threads (goto t c s) u) = phase_of (threads s u)) as Hg.
  { intros c Hc Ht. by eapply view_goto. }
  assert (at_ (threads s t) ≠ Idle ∧ (∀ r f, at_ (threads s t) ≠ Done r f) ∧
    (∀ p c n, at_ (threads s t) ≠ CasDelete p c n)) as (H1 & H2 & H3).
  { unfold lookupInternal_step in Hs. split_and!; intros; intros E; by rewrite E in Hs. }
  assert (phase_of (threads s t) = searching (oper (threads s t))) as Ht.
  { unfold phase_of, searching. destruct (at_ (threads s t)), (oper (threads s t)); naive_solver. }
  unfold lookupInternal_step in Hs.
  destruct (at_ (threads s t)) as [| |prev cur|prev cur|prev cur|prev cur n|prev cur n| | | |] eqn:Hat;
    try done.
  - destruct (load t _ s); cbn in Hs; [|done]. simplify_eq. apply Hg; [|done]. by destruct (oper _).
  - destruct cur; simplify_eq; apply Hg; try done; [by destruct (oper _)|apply phase_returned].
  - destruct (load t _ s); cbn in Hs; [|done]. simplify_eq. apply Hg; [|done].
    case_decide; by destruct (oper _).
  - destruct (nodes s !! cur); cbn in Hs; [|done]. simplify_eq. apply Hg; [|done].
    case_match; by destruct (oper _).
  - destruct (cas t prev _ _ s) as [[ok s1]|] eqn:Hc; cbn in Hs; [|done].
    assert (∀ c, phase_of (mkThread (oper (threads s t)) (start_ (threads s1 t)) c) =
      searching (oper (threads s t)) →
      phase_of (threads (goto t c s1) u) = phase_of (threads s u)) as Hg1.
    { intros c E. pose proof (cas_threads _ _ _ _ _ _ _ t Hc) as [E1 _].
      pose proof (cas_threads _ _ _ _ _ _ _ u Hc) as [E2 E3]. cbn.
      upd_cases u t; [by rewrite E1, E|by apply phase_eq]. }
    destruct ok; simplify_eq; apply Hg1; by destruct (oper _).
  - destruct (nodes s !! cur); cbn in Hs; [|done]. destruct (load t _ s); cbn in Hs; [|done].
    simplify_eq. apply Hg; [|done]. repeat case_decide; first [apply phase_returned|by destruct (oper _)].
Qed.

(** *** All steps of a thread *)

Inductive change (t : nat) (s s' : state) : Prop :=
  | change_none :
      contents (nodes s') = contents (nodes s) → evolves (nodes s) (nodes s') None →
      (∀ u, phase_of (threads s' u) = phase_of (threads s u)) →
      (∀ res f, at_ (threads s t) ≠ Done res f) → change t s s'
  | change_effect r new :
      phase_of (threads s t) = Running (oper (threads s t)) →
      list_apply (oper (threads s t)) (contents (nodes s)) = (r, contents (nodes s')) →
      phase_of (threads s' t) = Answered r → evolves (nodes s) (nodes s') new →
      (∀ res f, at_ (threads s t) ≠ Done res f) → change t s s'
  | change_return res found :
      at_ (threads s t) = Done res found → s' = goto t Idle s → change t s s'.

Lemma insert_change t s s' l l' prev cur k v :
  shared s l → shared s' l' → at_ (threads s t) = CasInsert prev cur →
  oper (threads s t) = Insert k v → pc_ok s (threads s t) True True →
  insert_step t k v prev cur s = Some s' → change t s s'.
Proof.
  intros Hs Hs' Hat Ho Hpc Hi. unfold pc_ok in Hpc. rewrite Hat, Ho in Hpc.
  destruct Hpc as (_ & Hb & Hq). cbn in Hb, Hq.
  assert (phase_of (threads s t) = Running (Insert k v)) as Hph by (unfold phase_of; by rewrite Hat, Ho).
  destruct (insert_cases t k v prev cur s l s' Hs Hb Hq Hi) as [->|(s1 & -> & Eth & _ & _ & Hno & Hm)].
  { apply change_none; [done|apply evolves_refl| |by rewrite Hat].
    intros u. eapply view_goto; [|exact Hph]. by rewrite Ho. }
  assert (evolves (nodes s) (nodes s1) (Some (mkNode k v (clean cur)))) as Hev.
  { unfold insert_step in Hi. destruct (load t prev s) as [x|] eqn:Hx; cbn in Hi; [|done].
    case_decide as E; [subst x|].
    2:{ injection Hi as _ En _ _. destruct Hno, (proj2 (Hm k)) as (a & n & ?); [by left|].
        exists a, n. by rewrite En. }
    destruct (store t prev _ _) as [s2|] eqn:Hst; cbn in Hi; [|done].
    assert (nodes s1 = nodes s2) as -> by (unfold goto in Hi; congruence).
    eapply evolves_link; [apply malloc_new|exact Hx|exact Hst]. }
  destruct (contents_insert s l (goto t (Done true (Some (malloc (nodes s)))) s1) l' k v (clean cur)
    Hs Hs' Hev Hno Hm) as [Hk Hc].
  eapply change_effect; [by rewrite Ho| |by cbn; rewrite upd_eq, Eth, Ho|exact Hev|].
  all: try by rewrite Hat. rewrite Ho. cbn [list_apply]. rewrite Hk. by rewrite Hc.
Qed.

Lemma mark_change t s s' l l' prev cur n :
  shared s l → shared s' l' → at_ (threads s t) = CasMark prev cur n →
  thread_ok s (threads s t) True True → mark_step t prev cur n s = Some s' → change t s s'.
Proof.
  intros Hs Hs' Hat [_ Hop Hpc] Hi. unfold pc_ok in Hpc. rewrite Hat in Hpc.
  destruct Hpc as (Ho & Hb & c & Hc & Hk).
  assert (phase_of (threads s t) = Running (oper (threads s t))) as Hph.
  { unfold phase_of. rewrite Hat. by rewrite Ho. }
  assert (evolves (nodes s) (nodes s') None) as Hev.
  { unfold mark_step in Hi. destruct (cas t _ _ _ s) as [[ok s1]|] eqn:Hcas; cbn in Hi; [|done].
    simplify_eq. by eapply (evolves_cas _ _ _ _ s _ s1). }
  destruct (mark_cases t prev cur n s l s' c Hs Hc) as [->|(s1 & -> & Eth & _ & _ & _ & Hin & Hm)];
    [rewrite Hk; by apply Hop|done| |].
  { apply change_none; [done|apply evolves_refl| |by rewrite Hat].
    intros u. eapply view_goto; [|exact Hph]. cbn. by rewrite Ho. }
  destruct (contents_remove s l (goto t (CasDelete prev cur n) s1) l' (data c) Hs Hs' Hev Hin Hm)
    as [[v Hv] Hc']. rewrite Hk in Hv, Hc'.
  eapply change_effect; [done| |by cbn; rewrite upd_eq|exact Hev|by rewrite Hat].
  rewrite Ho, Hc'. cbn [list_apply key]. cbn [key] in Hv. by rewrite Ho in *; cbn in *; rewrite Hv.
Qed.

Lemma delete_change t s s' l l' prev cur n :
  shared s l → shared s' l' → at_ (threads s t) = CasDelete prev cur n →
  pc_ok s (threads s t) True True → delete_step t prev cur n s = Some s' → change t s s'.
Proof.
  intros Hs Hs' Hat Hpc Hi. unfold pc_ok in Hpc. rewrite Hat in Hpc.
  destruct Hpc as (Ho & Hb & Hx). unfold delete_step in Hi.
  assert (phase_of (threads s t) = Answered (RBool true)) as Hph.
  { unfold phase_of. by rewrite Hat. }
  destruct (cas t prev _ _ s) as [[ok s1]|] eqn:Hcas; cbn in Hi; [|done].
  assert (evolves (nodes s) (nodes s1) None) as Hev by by eapply evolves_cas.
  apply cas_inv in Hcas as [[-> ->]|(-> & Hld & ->)]; [| |by intros ->]; simplify_eq.
  - apply change_none; [done|done| |by rewrite Hat]. intros u. cbn. upd_cases u t; [|done].
    by rewrite Hph.
  - destruct (unlink_shared t s l _ _ _ _ Hs Hb Hld Hx) as (_ & Hm & _).
    apply change_none; [by eapply contents_same|done| |by rewrite Hat].
    intros u. cbn. upd_cases u t; [|done]. by rewrite Hph, Ho.
Qed.

Lemma go_change t s s' wi wo wi' wo' :
  Inv s wi wo → Inv s' wi' wo' → go t s = Some s' → change t s s'.
Proof.
  intros HI [[l' Hl'] _] Hs. pose proof HI as [[l Hl] Ht].
  assert (thread_ok s (threads s t) True True) as Hok.
  { eapply thread_ok_grows; [by apply grows_same| | |exact (Ht t)]; done. }
  assert (lookupInternal_step t s = Some s' → change t s s') as Hli.
  { intros Hi. apply change_none; [|by eapply lookupInternal_evolves|intros; by eapply lookupInternal_phase|].
    - eapply contents_same; [done|done|by eapply lookupInternal_evolves|by eapply lookupInternal_effect].
    - intros res f E. unfold lookupInternal_step in Hi. by rewrite E in Hi. }
  pose proof (t_pc _ _ _ _ Hok) as Hpc. unfold go in Hs.
  destruct (at_ (threads s t)) eqn:Hat; try done; try by apply Hli.
  - destruct (oper (threads s t)) eqn:Ho; try done. by eapply insert_change.
  - by eapply mark_change.
  - by eapply delete_change.
  - simplify_eq. by eapply change_return.
Qed.

(** *** Results that were right at some state of the call *)

(** What a call returns when its key is there, with [v], or is not; [None] when
    such a call changes the map. *)
Definition found_result (o : op) (v : option Z) : option result :=
  match o with
  | Lookup _ => Some (RFind (Some v))
  | Insert _ _ => Some (RBool false)
  | _ => None
  end.

Definition absent_result (o : op) : option result :=
  match o with Lookup _ => Some (RFind None) | Remove _ => Some (RBool false) | _ => None end.

(** What a thread knows of the node it has found. *)
Definition pledge (h : gmap nat Node) (J : result → Prop) (th : thread) : Prop :=
  let k := key (oper th) in
  match at_ th with
  | Check2 _ cur _ =>
    ∃ c, h !! cur = Some c ∧ (data c = k → ∀ r, found_result (oper th) (value c) = Some r → J r)
  | Done res found =>
    match oper th with
    | Insert _ _ => ∃ a c, found = Some a ∧ h !! a = Some c ∧ data c = k ∧ (res = false → J (RBool false))
    | Lookup _ => if res then ∃ a c, found = Some a ∧ h !! a = Some c ∧ data c = k ∧ J (RFind (Some (value c)))
                  else J (RFind None)
    | Remove _ => res = false → J (RBool false)
    | Cleanup _ => res = true
    end
  | _ => True
  end.

Lemma found_justifies s t v r :
  phase_of (threads s t) = Running (oper (threads s t)) →
  contents (nodes s) !! key (oper (threads s t)) = Some v →
  found_result (oper (threads s t)) v = Some r → justifies list_apply s t r.
Proof.
  intros Hph Hv Hr. exists (oper (threads s t)). split; [exact Hph|]. cbn.
  destruct (oper (threads s t)); cbn in *; rewrite ?Hv; by simplify_eq.
Qed.

Lemma absent_justifies s t r :
  phase_of (threads s t) = Running (oper (threads s t)) →
  contents (nodes s) !! key (oper (threads s t)) = None →
  absent_result (oper (threads s t)) = Some r → justifies list_apply s t r.
Proof.
  intros Hph Hv Hr. exists (oper (threads s t)). split; [exact Hph|]. cbn.
  destruct (oper (threads s t)); cbn in *; rewrite ?Hv; by simplify_eq.
Qed.

(** Pledges last when memory evolves. *)
Lemma pledge_evolves h h' new (J J' : result → Prop) th th' :
  evolves h h' new → (∀ r, J r → J' r) → oper th' = oper th → at_ th' = at_ th →
  pledge h J th → pledge h' J' th'.
Proof.
  intros [H1 _] HJ Eo Ea. unfold pledge. rewrite Eo, Ea.
  destruct (at_ th) as [| | | | | |prev cur n| | | |res found]; try done.
  - intros (c & Hc & Hr). destruct (H1 cur c Hc) as (c' & Hc' & Hd & Hv & _).
    exists c'. rewrite Hd, Hv. eauto.
  - destruct (oper th); [|auto| |done].
    + intros (a & c & -> & Hc & Hk & Hr). destruct (H1 a c Hc) as (c' & Hc' & Hd & _).
      exists a, c'. rewrite Hd. split_and!; auto.
    + destruct res; [|auto]. intros (a & c & -> & Hc & Hk & Hr).
      destruct (H1 a c Hc) as (c' & Hc' & Hd & Hv & _). exists a, c'. rewrite Hd, Hv. split_and!; auto.
Qed.

(** A step of [t] leaves the other threads as they are. *)
Lemma cas_others t l old new s ok s1 u :
  cas t l old new s = Some (ok, s1) → u ≠ t → threads s1 u = threads s u.
Proof.
  unfold cas. intros Hc Hu. destruct (load t l s) as [x|]; cbn in Hc; [|done].
  case_decide; [|by simplify_eq]. destruct (store t l new s) as [s2|] eqn:Hs; cbn in Hc; [|done].
  simplify_eq. destruct l as [| |a]; cbn in Hs; simplify_eq; [done| |].
  - cbn. by rewrite upd_ne.
  - destruct (nodes s !! a); cbn in Hs; by simplify_eq.
Qed.

Lemma store_others t l x s s1 u : store t l x s = Some s1 → u ≠ t → threads s1 u = threads s u.
Proof.
  intros Hs Hu. destruct l as [| |a]; cbn in Hs; simplify_eq; [done| |].
  - cbn. by rewrite upd_ne.
  - destruct (nodes s !! a); cbn in Hs; by simplify_eq.
Qed.

Lemma go_others t s s' u : go t s = Some s' → u ≠ t → threads s' u = threads s u.
Proof.
  intros Hs Hu. assert (∀ c s1, threads (goto t c s1) u = threads s1 u) as Hg.
  { intros. cbn. by rewrite upd_ne. }
  unfold go in Hs.
  destruct (at_ (threads s t)) as [| |prev cur|prev cur|prev cur|prev cur n|prev cur n|prev cur
    |prev cur n|prev cur n|res f] eqn:Hat; try done;
    try (unfold lookupInternal_step in Hs; rewrite Hat in Hs;
         repeat (first [case_match|done|progress simplify_eq/=|progress simplify_option_eq]);
         rewrite ?upd_ne by done; try done; by eapply cas_others).
  - destruct (oper (threads s t)) as [k v| | |]; try done. unfold insert_step in Hs.
    destruct (load t prev s); cbn in Hs; [|done]. case_decide; simplify_eq; [|apply Hg].
    destruct (store t prev _ _) as [s2|] eqn:Hst; cbn in Hs; [|done]. simplify_eq.
    rewrite Hg. by rewrite (store_others _ _ _ _ _ u Hst Hu).
  - unfold mark_step in Hs. destruct (cas t _ _ _ s) as [[ok s1]|] eqn:Hc; cbn in Hs; [|done].
    simplify_eq. rewrite Hg. by eapply cas_others.
  - unfold delete_step in Hs. destruct (cas t _ _ _ s) as [[ok s1]|] eqn:Hc; cbn in Hs; [|done].
    apply (cas_others _ _ _ _ _ _ _ u) in Hc; [|done].
    destruct ok; simplify_eq; rewrite Hg; cbn; [done|]. by rewrite upd_ne.
  - simplify_eq. apply Hg.
Qed.

Definition who (l : label) : nat := match l with Call t _ _ | Go t => t end.

Lemma step_others l s s' u : step l s = Some s' → u ≠ who l → threads s' u = threads s u.
Proof.
  intros Hs Hu. destruct l as [t o st|t]; [|by eapply go_others]. cbn in Hs.
  destruct (at_ _); try done. destruct (callable _ _ _); [|done]. simplify_eq. cbn. by rewrite upd_ne.
Qed.

Lemma exec_others sched : ∀ s s' u,
  exec step sched s = Some s' → Forall (λ l, who l ≠ u) sched → threads s' u = threads s u.
Proof.
  induction sched as [|l sched IH]; intros s s' u He Hf; cbn in He; [by simplify_eq|].
  destruct (step l s) as [s1|] eqn:Hs; cbn in He; [|done]. apply Forall_cons in Hf as [Hl Hf].
  rewrite (IH _ _ _ He Hf). by eapply step_others.
Qed.

Lemma store_data t l x s s1 a n :
  store t l x s = Some s1 → nodes s !! a = Some n → ∃ n', nodes s1 !! a = Some n' ∧ data n' = data n.
Proof.
  intros Hs Ha. destruct l as [| |b]; cbn in Hs; simplify_eq; [by exists n..|].
  destruct (nodes s !! b) as [m|] eqn:Hb; cbn in Hs; [|done]. simplify_eq. cbn.
  destruct (decide (a = b)) as [->|Hne]; [|rewrite lookup_insert_ne by done; by exists n].
  rewrite lookup_insert_eq. eexists. split; [done|]. cbn. congruence.
Qed.

Lemma store_oper t l x s s1 u : store t l x s = Some s1 → oper (threads s1 u) = oper (threads s u).
Proof.
  intros Hs. destruct l as [| |a]; cbn in Hs; simplify_eq; [done| |].
  - cbn. by upd_cases u t.
  - destruct (nodes s !! a); cbn in Hs; by simplify_eq.
Qed.

Lemma pledge_linked (J J' : result → Prop) t prev cur k v s s' :
  oper (threads s t) = Insert k v → insert_step t k v prev cur s = Some s' →
  pledge (nodes s') J' (threads s' t).
Proof.
  intros Ho Hi. unfold insert_step in Hi. destruct (load t prev s); cbn in Hi; [|done].
  case_decide; [|simplify_eq; cbn; by rewrite upd_eq].
  destruct (store t prev _ _) as [s2|] eqn:Hst; cbn in Hi; [|done]. simplify_eq. cbn.
  rewrite upd_eq. unfold pledge. cbn.
  destruct (store_data _ _ _ _ _ (malloc (nodes s)) (mkNode k v (clean cur)) Hst) as (n' & Hn & Hd).
  { cbn. by rewrite lookup_insert_eq. }
  assert (oper (threads s2 t) = Insert k v) as ->.
  { by rewrite (store_oper _ _ _ _ _ t Hst). }
  exists (malloc (nodes s)), n'. by split_and!.
Qed.

(** What is known of thread [t] after a step to [s']: [J] was justified before,
    [J'] is now. *)
Record knows (t : nat) (s' : state) (J J' : result → Prop) (seen_in seen_out : nat → Prop) : Prop := {
  k_inv : Inv s' seen_in seen_out;
  k_mono : ∀ r, J r → J' r;
  k_just : ∀ r, justifies list_apply s' t r → J' r;
  k_out : ∀ r, phase_of (threads s' t) = Running (oper (threads s' t)) → seen_out t →
     absent_result (oper (threads s' t)) = Some r → J' r
}.

(** A call that has not found its key. *)
Lemma pledge_absent t s' J J' wi wo o st f :
  knows t s' J J' wi wo → threads s' t = mkThread o st (Done false f) → is_Some (absent_result o) →
  pledge (nodes s') J' (threads s' t).
Proof.
  intros [[_ Ht] Hmono Hjust Hout] E Ho. pose proof (t_pc _ _ _ _ (Ht t)) as Hpc.
  unfold pc_ok in Hpc. rewrite E in Hpc, Hout |- *. unfold pledge; cbn in *.
  destruct o as [k v|k|k|k]; cbn in *; [by destruct Ho|intros _| |by destruct Ho]; by apply Hout.
Qed.

Lemma pledge_returned t s' J J' wi wo o st prev cur n :
  knows t s' J J' wi wo → threads s' t = mkThread o st (returned o false prev cur n) → pledge (nodes s') J' (threads s' t).
Proof.
  intros HK E. destruct o as [k v|k|k|k]; cbn in E; try (by rewrite E).
  - by destruct cur; eapply pledge_absent.
  - by eapply pledge_absent.
Qed.

Lemma pledge_lookupInternal t s s' J J' wi wo :
  knows t s' J J' wi wo → lookupInternal_step t s = Some s' → pledge (nodes s) J (threads s t) →
  pledge (nodes s') J' (threads s' t).
Proof.
  intros HK Hs Hp. unfold lookupInternal_step in Hs. unfold pledge in Hp.
  destruct (at_ (threads s t)) as [| |prev cur|prev cur|prev cur|prev cur n|prev cur n| | | |] eqn:Hat;
    try done.
  - destruct (load t _ s); cbn in Hs; [|done]. simplify_eq. cbn. by rewrite upd_eq.
  - destruct cur as [cur|]; simplify_eq; [cbn; by rewrite upd_eq|].
    eapply pledge_returned; [exact HK|]. cbn. by rewrite upd_eq.
  - destruct (load t _ s); cbn in Hs; [|done]. simplify_eq. cbn. rewrite upd_eq. by case_decide.
  - destruct (nodes s !! cur) as [c|] eqn:Hc; cbn in Hs; [|done]. simplify_eq.
    destruct (isMarked (next c)) eqn:Hm; [cbn; by rewrite upd_eq|].
    cbn. rewrite upd_eq. exists c. split; [done|]. cbn. intros Hk r Hr. apply (k_just _ _ _ _ _ _ HK).
    assert (phase_of (threads s t) = Running (oper (threads s t))) as Hph.
    { unfold phase_of. rewrite Hat. by destruct (oper (threads s t)). }
    assert (contents (nodes s) !! key (oper (threads s t)) = Some (value c)) as Hv.
    { destruct (k_inv _ _ _ _ _ _ HK) as [[l Hl] _]. apply contents_lookup; [|by exists cur, c].
      exact (shared_unique _ _ Hl). }
    eapply found_justifies; cbn; rewrite ?upd_eq; cbn; [|exact Hv|exact Hr].
    unfold phase_of; cbn. by destruct (oper (threads s t)).
  - destruct (cas t prev _ _ s) as [[ok s1]|] eqn:Hcas; cbn in Hs; [|done].
    destruct ok; simplify_eq; cbn; by rewrite upd_eq.
  - destruct Hp as (c & Hc & Hp). rewrite Hc in Hs. cbn in Hs.
    destruct (load t _ s); cbn in Hs; [|done]. simplify_eq.
    case_decide; [cbn; by rewrite upd_eq|]. case_decide; [|cbn; by rewrite upd_eq].
    case_bool_decide as Hk.
    + specialize (Hp Hk). pose proof (k_mono _ _ _ _ _ _ HK) as Hmono. cbn. rewrite upd_eq. unfold pledge. cbn.
      destruct (oper (threads s t)) eqn:Ho; cbn in *; try done.
      * exists cur, c. split_and!; auto.
      * exists cur, c. split_and!; auto.
    + eapply pledge_returned; [exact HK|]. cbn. by rewrite upd_eq.
Qed.

Lemma pledge_go t s s' J J' wi wo :
  knows t s' J J' wi wo →
  (∀ p c n, at_ (threads s t) = CasDelete p c n → oper (threads s t) = Remove (key (oper (threads s t)))) →
  go t s = Some s' → pledge (nodes s) J (threads s t) → pledge (nodes s') J' (threads s' t).
Proof.
  intros HK Hdel Hs Hp. unfold go in Hs.
  destruct (at_ (threads s t)) eqn:Hat; try done; try by eapply pledge_lookupInternal.
  - destruct (oper (threads s t)) eqn:Ho; try done. by eapply pledge_linked.
  - unfold mark_step in Hs. destruct (cas t _ _ _ s) as [[ok s1]|]; cbn in Hs; [|done].
    destruct ok; simplify_eq; cbn; by rewrite upd_eq.
  - unfold delete_step in Hs. destruct (cas t _ _ _ s) as [[ok s1]|] eqn:Hcas; cbn in Hs; [|done].
    destruct ok; simplify_eq; cbn; rewrite ?upd_eq; [|done]. unfold pledge. cbn.
    pose proof (cas_threads _ _ _ _ _ _ _ t Hcas) as [-> _].
    by rewrite (Hdel _ _ _ eq_refl).
  - simplify_eq. cbn. by rewrite upd_eq.
Qed.

(** ** The laws *)

(** A run of the object, beside the ghosts of [LockFreeList.reach]. *)
Record sound s (J : nat → result → Prop) (seen_in seen_out : nat → Prop) : Prop := {
  so_reach : reach s seen_in seen_out;
  so_out : ∀ t r, phase_of (threads s t) = Running (oper (threads s t)) → seen_out t →
    absent_result (oper (threads s t)) = Some r → J t r;
  so_pledge : ∀ t, pledge (nodes s) (J t) (threads s t)
}.

Lemma phase_running th o : phase_of th = Running o → oper th = o.
Proof. unfold phase_of. destruct (at_ th) as [| | | | | | | | | |[] ?], (oper th); naive_solver. Qed.

(** A thread that has not moved past its exchange had not before. *)
Lemma running_before l s s' t :
  step l s = Some s' → (∀ o, visible l s ≠ Some (ECall t o)) → Inv s (λ _, True) (λ _, True) →
  (∃ wi wo, Inv s' wi wo) → phase_of (threads s' t) = Running (oper (threads s' t)) →
  phase_of (threads s t) = Running (oper (threads s t)) ∧ oper (threads s' t) = oper (threads s t).
Proof.
  intros Hs Hn HI (wi & wo & HI') Hph. destruct l as [u o start|u]; cbn in Hs.
  - destruct (at_ (threads s u)); try done. destruct (callable o start s); [|done]. simplify_eq.
    cbn in *. upd_cases t u; [|done]. by destruct (Hn o).
  - destruct (decide (t = u)) as [->|Hne].
    2:{ by rewrite (go_others u s s' t Hs Hne) in *. }
    destruct (go_change u s s' _ _ _ _ HI HI' Hs) as [_ _ Hp _|r new _ _ Hp _ _|res f _ ->].
    + rewrite Hp in Hph. pose proof (phase_running _ _ Hph) as E. by rewrite <- E in Hph.
    + congruence.
    + cbn in Hph. rewrite upd_eq in Hph. done.
Qed.

Lemma Inv_weaken s wi wo : Inv s wi wo → Inv s (λ _, True) (λ _, True).
Proof.
  intros [Hl Ht]. split; [done|]. intros t.
  by eapply thread_ok_grows; [by apply grows_same| | |exact (Ht t)].
Qed.

Lemma step_evolves l s s' wi wo wi' wo' :
  Inv s wi wo → Inv s' wi' wo' → step l s = Some s' → ∃ new, evolves (nodes s) (nodes s') new.
Proof.
  intros HI HI' Hs. destruct l as [u o start|u]; cbn in Hs.
  - destruct (at_ (threads s u)); try done. destruct (callable o start s); [|done]. simplify_eq.
    exists None. apply evolves_refl.
  - destruct (go_change u s s' _ _ _ _ HI HI' Hs) as [_ ? _ _|r new _ _ _ ? _|res f _ ->]; [eauto..|].
    exists None. apply evolves_refl.
Qed.

Lemma sound_pledge l s s' wi wo wi' wo' (J J' : nat → result → Prop) t :
  Inv s wi wo → step l s = Some s' → pledge (nodes s) (J t) (threads s t) →
  ((∀ o, visible l s ≠ Some (ECall t o)) → knows t s' (J t) (J' t) wi' wo') →
  Inv s' wi' wo' → pledge (nodes s') (J' t) (threads s' t).
Proof.
  intros HI Hs Hp HK HI'. destruct (step_evolves l s s' _ _ _ _ HI HI' Hs) as [new Hev].
  destruct l as [u o start|u]; cbn in Hs.
  - destruct (at_ (threads s u)); try done. destruct (callable o start s); [|done]. simplify_eq.
    cbn. upd_cases t u; [done|]. eapply pledge_evolves; [exact Hev| |done|done|exact Hp].
    apply HK. cbn. congruence.
  - assert (knows t s' (J t) (J' t) wi' wo') as HK'.
    { apply HK. cbn. by case_match. }
    destruct (decide (t = u)) as [->|Hne].
    + eapply pledge_go; [exact HK'| |exact Hs|exact Hp]. intros p c n Hat.
      pose proof (t_pc _ _ _ _ (proj2 HI u)) as Hpc. unfold pc_ok in Hpc. rewrite Hat in Hpc. apply Hpc.
    + rewrite (go_others u s s' t Hs Hne).
      eapply pledge_evolves; [exact Hev|apply HK'|done|done|exact Hp].
Qed.

Lemma run_sound s J es : run list_apply init s J es → ∃ wi wo, sound s J wi wo.
Proof.
  induction 1 as [|l s s' J es Hr IH Hs].
  { eexists _, _. split; [apply reach_init|done|]. by intros t. }
  destruct IH as (wi & wo & [Hreach Hout Hpl]). cbn in Hs.
  pose proof (Inv_reach _ _ _ Hreach) as HI.
  pose proof (reach_step _ _ _ _ _ Hreach Hs) as Hreach'.
  pose proof (Inv_reach _ _ _ Hreach') as HI'.
  set (J' := λ t r, _ ∨ _). set (wo' := saw l s' wo _) in *. set (wi' := saw l s' wi _) in *.
  assert (∀ t r, phase_of (threads s' t) = Running (oper (threads s' t)) → wo' t →
    absent_result (oper (threads s' t)) = Some r → J' t r) as Hout'.
  { intros t r Hph [Hw|Hw] Ha.
    - assert (∀ o, visible l s ≠ Some (ECall t o)) as Hn.
      { intros o E. destruct l as [u o' st|u]; cbn in E; [|by case_match].
        simplify_eq. by destruct Hw. }
      destruct (running_before l s s' t Hs Hn (Inv_weaken _ _ _ HI) ltac:(eauto) Hph) as [Hph' E].
      right. split; [|exact Hn]. rewrite E in Ha. apply Hout; [done| |done].
      by destruct l; [destruct Hw|].
    - left. apply absent_justifies; [done| |done]. destruct HI' as [[c Hc] _].
      apply eq_None_not_Some. by rewrite <- (contents_member _ _ _ Hc). }
  exists wi', wo'. split; [done|done|]. intros t.
  apply (sound_pledge l s s' wi wo wi' wo' J J' t); [done|done|apply Hpl| |done].
  intros Hn. split; [done| |by left|apply Hout']. intros r Hj. by right.
Qed.

(** A call of the list moves as the object's laws say. *)
Lemma list_moves l s s' J es :
  run list_apply init s J es → step l s = Some s' → moves list_apply J s s' (visible l s).
Proof.
  intros Hr Hs. destruct (run_sound s J es Hr) as (wi & wo & [Hreach Hout Hpl]).
  pose proof (Inv_reach _ _ _ Hreach) as HI.
  pose proof (Inv_reach _ _ _ (reach_step _ _ _ _ _ Hreach Hs)) as HI'.
  destruct l as [t o start|t]; cbn in Hs.
  { destruct (at_ (threads s t)) eqn:Hat; try done.
    destruct (callable o start s) eqn:Hca; [|done]. simplify_eq.
    apply moves_call; cbn; [unfold phase_of; by rewrite Hat| |done|].
    - rewrite upd_eq. apply andb_true_iff in Hca as [_ Hca]. by destruct o.
    - intros u Hu. by rewrite upd_ne. }
  assert (∀ u, u ≠ t → threads s' u = threads s u) as Hoth by (intros; by eapply go_others).
  destruct (go_change t s s' _ _ _ _ HI HI' Hs) as [Hc _ Hp Hnd|r new Hp Ha Hp' _ Hnd|res f Hat ->].
  - replace (visible (Go t) s) with (@None (event op result)).
    { by apply moves_silent. }
    cbn. destruct (at_ (threads s t)); try done. by destruct (Hnd res found).
  - replace (visible (Go t) s) with (@None (event op result)).
    { eapply moves_effect; [exact Hp|exact Ha|exact Hp'|]. intros u Hu. cbn. by rewrite Hoth. }
    cbn. destruct (at_ (threads s t)); try done. by destruct (Hnd res found).
  - cbn. rewrite Hat. apply moves_return; cbn; [|by rewrite upd_eq|done|intros u Hu; by rewrite upd_ne].
    specialize (Hpl t). unfold pledge in Hpl. rewrite Hat in Hpl. unfold phase_of. rewrite Hat.
    destruct (oper (threads s t)) as [k v|k|k|k], res; cbn in *; try done; eauto.
    + right. destruct Hpl as (a & c & _ & _ & _ & Hj). eauto.
    + right. destruct Hpl as (a & c & -> & Hc & _ & Hj). cbn. rewrite Hc. cbn. eauto.
Qed.

#[export] Instance list_laws : Laws list_apply init.
Proof.
  split; [done|]. intros l s s' J es Hr Hs. by eapply list_moves.
Qed.

(** *** No dangling pointers *)

Lemma load_some s th t prev :
  th = threads s t → prev_ok s th prev → is_Some (load t prev s).
Proof. intros -> Hp. destruct prev as [| |a]; [by eexists..|]. destruct Hp as (n & Hn & _). cbn. by rewrite Hn. Qed.

Lemma store_some t l x s : is_Some (load t l s) → is_Some (store t l x s).
Proof.
  intros [y Hy]. destruct l as [| |a]; cbn in *; [by eexists..|].
  destruct (nodes s !! a); cbn in *; [by eexists|done].
Qed.

Lemma cas_some t l old new s : is_Some (load t l s) → is_Some (cas t l old new s).
Proof.
  intros Hl. destruct (store_some t l new s Hl) as [s' Hs]. destruct Hl as [x Hx].
  unfold cas. rewrite Hx. cbn. case_decide; [rewrite Hs|]; by eexists.
Qed.

(** A thread in a call can move: every pointer it follows leads to a node. *)
Lemma go_progress t s wi wo :
  Inv s wi wo → at_ (threads s t) ≠ Idle → is_Some (go t s).
Proof.
  intros [_ Ht] Hat. pose proof (t_pc _ _ _ _ (Ht t)) as Hpc. unfold pc_ok in Hpc.
  assert (∀ prev, prev_ok s (threads s t) prev → is_Some (load t prev s)) as Hld
    by by intros; eapply load_some.
  assert (∀ prev, below s prev (key (oper (threads s t))) → is_Some (load t prev s)) as Hbl
    by by intros; apply Hld, below_prev.
  unfold go, lookupInternal_step.
  destruct (at_ (threads s t)) as [| |prev cur|prev cur|prev cur|prev cur n|prev cur n|prev cur
    |prev cur n|prev cur n|res f]; try done.
  - unfold startingPointer. destruct (start_ (threads s t)); cbn; by eexists.
  - destruct cur; by eexists.
  - destruct (Hld prev) as [x ->]; [apply Hpc|]. by eexists.
  - destruct Hpc as (_ & [n Hn] & _). rewrite Hn. by eexists.
  - destruct (cas_some t prev (clean (Some cur)) (clean n) s) as [[ok s1] Hc]; [apply Hbl, Hpc|].
    rewrite Hc. by eexists.
  - destruct Hpc as (Hp & _ & _ & c & Hc & _). rewrite Hc. cbn.
    destruct (Hld prev Hp) as [x ->]. by eexists.
  - destruct Hpc as ((v & Ho) & Hb & _). rewrite Ho. unfold insert_step.
    destruct (Hbl prev Hb) as [x Hx]. rewrite Hx. cbn. case_decide; [|by eexists].
    destruct (store_some t prev (clean (Some (malloc (nodes s))))
      (mkState (head_ s) (<[malloc (nodes s) := mkNode (key (oper (threads s t))) v (clean cur)]> (nodes s))
         (retired s) (threads s))) as [s2 Hs2].
    { destruct prev as [| |a]; [by eexists..|]. destruct Hb as (n & Hn & _). cbn.
      rewrite lookup_insert_ne by (intros E; rewrite <- E, malloc_new in Hn; done).
      rewrite Hn. by eexists. }
    rewrite Hs2. by eexists.
  - destruct Hpc as (_ & _ & c & Hc & _). unfold mark_step.
    destruct (cas_some t (NextOf cur) (clean n) (mark (clean n)) s) as [[ok s1] Hcas].
    { cbn. rewrite Hc. by eexists. }
    rewrite Hcas. by eexists.
  - unfold delete_step.
    destruct (cas_some t prev (clean (Some cur)) (clean n) s) as [[ok s1] Hc]; [apply Hbl, Hpc|].
    rewrite Hc. by eexists.
Qed.

(** A thread in a call stays in it until it is [Done]; only a [remove] changes
    what it does, to its second search. *)
Lemma go_stays t s s' wi wo :
  Inv s wi wo → go t s = Some s' → (∀ res f, at_ (threads s t) ≠ Done res f) →
  at_ (threads s' t) ≠ Idle ∧
  (oper (threads s' t) = oper (threads s t) ∨
   ∃ d, oper (threads s t) = Remove d ∧ oper (threads s' t) = Cleanup d).
Proof.
  intros [_ Ht] Hs Hnd. pose proof (t_pc _ _ _ _ (Ht t)) as Hpc. unfold pc_ok in Hpc.
  assert (∀ c s1, oper (threads s1 t) = oper (threads s t) → c ≠ Idle →
    at_ (threads (goto t c s1) t) ≠ Idle ∧
    (oper (threads (goto t c s1) t) = oper (threads s t) ∨
     ∃ d, oper (threads s t) = Remove d ∧ oper (threads (goto t c s1) t) = Cleanup d)) as Hg.
  { intros c s1 E Hc. cbn. rewrite upd_eq. cbn. auto. }
  assert (∀ o res prev cur m, returned o res prev cur m ≠ Idle) as Hret
    by by intros o res prev cur m; destruct o, res, cur.
  unfold go, lookupInternal_step in Hs.
  destruct (at_ (threads s t)) as [| |prev cur|prev cur|prev cur|prev cur n|prev cur n|prev cur
    |prev cur n|prev cur n|res f]; try done.
  - destruct (load t _ s); cbn in Hs; [|done]. simplify_eq. by apply Hg.
  - destruct cur; simplify_eq; by apply Hg.
  - destruct (load t _ s); cbn in Hs; [|done]. simplify_eq. apply Hg; [done|by case_decide].
  - destruct (nodes s !! cur); cbn in Hs; [|done]. simplify_eq. apply Hg; [done|by case_match].
  - destruct (cas t prev _ _ s) as [[ok s1]|] eqn:Hc; cbn in Hs; [|done].
    pose proof (cas_threads _ _ _ _ _ _ _ t Hc) as [E _]. destruct ok; simplify_eq; by apply Hg.
  - destruct (nodes s !! cur); cbn in Hs; [|done]. destruct (load t _ s); cbn in Hs; [|done].
    simplify_eq. apply Hg; [done|]. repeat case_decide; done.
  - destruct (oper (threads s t)) eqn:Ho; try done. unfold insert_step in Hs.
    destruct (load t prev s); cbn in Hs; [|done]. case_decide; simplify_eq; [|by apply Hg].
    destruct (store t prev _ _) as [s2|] eqn:Hst; cbn in Hs; [|done]. simplify_eq.
    apply Hg; [|done]. by rewrite (store_oper _ _ _ _ _ t Hst).
  - unfold mark_step in Hs. destruct (cas t _ _ _ s) as [[ok s1]|] eqn:Hc; cbn in Hs; [|done].
    pose proof (cas_threads _ _ _ _ _ _ _ t Hc) as [E _]. simplify_eq. apply Hg; [done|by destruct ok].
  - unfold delete_step in Hs. destruct (cas t _ _ _ s) as [[ok s1]|] eqn:Hc; cbn in Hs; [|done].
    pose proof (cas_threads _ _ _ _ _ _ _ t Hc) as [E _]. destruct ok; simplify_eq; [by apply Hg|].
    cbn. rewrite !upd_eq. cbn. destruct Hpc as (Ho & _). split; [done|]. right. rewrite E, Ho. eauto.
  - by destruct (Hnd res f).
Qed.

(** C6. Linearizability of the lock-free list: in every interleaving of any
    number of threads, the history of calls and returns is one of a map whose
    operations take effect at one instant between call and return, and the keys
    and values of the nodes that are not marked are those of that map. *)
Theorem list_linearizable sched s :
  exec step sched init = Some s →
  ∃ p, atomic list_apply ∅ (history sched init) (contents (nodes s)) p.
Proof. apply (linearizable_history list_apply init sched s list_laws). Qed.

End steps.

(** *** An instance *)

(** Thread 1 marks the node of key 5 while thread 2, which has read it before,
    looks for it: the lookup still returns the value, and took effect first. *)
Definition late_lookup : list label :=
  insert_5 ++ [Go 0; Go 0; Call 1 (Remove 5) None; Call 2 (Lookup 5) None] ++
  [Go 1; Go 1; Go 1; Go 1; Go 1; Go 2; Go 2; Go 2; Go 2; Go 1; Go 2; Go 1; Go 1; Go 2].

Lemma list_linearizable_witness : ∃ p,
  atomic list_apply ∅
    [ECall 0 (Insert 5 (Some 50%Z)); EReturn 0 (RBool true); ECall 1 (Remove 5); ECall 2 (Lookup 5);
     EReturn 1 (RBool true); EReturn 2 (RFind (Some (Some 50%Z)))] ∅ p.
Proof.
  apply (list_linearizable (H := λ _, false) late_lookup (after late_lookup)).
  apply exec_after. vm_compute. eexists. reflexivity.
Defined.

End ListLin.
