(* ===== verification/ListReclaim.v ===== *)
(** * The nodes of the lock-free list are all freed, and once ([lock_free_list.hpp])

    The list hands the nodes it unlinks to the hazard pointers and frees the
    others in its destructor.  In any interleaving a node is linked or retired,
    never both and never neither; a node that is marked and still linked has a
    thread that will unlink it, so that a quiet list has no marked node, and its
    destructor, which follows [next] without looking at marks, is safe. *)

From S2P Require Import Prelude.
From S2P Require Import LockFreeList.
From S2P Require Import Linearizability.
From S2P Require Import ListLinearizable.

Module ListReclaim.
Import LockFreeList ListLin.

(** ** The destructor *)

(** The loop of [~LockFreeList()]: [head_] moves on, the node is deleted.  A
    marked pointer is not an address, and a deleted node cannot be read. *)
Fixpoint destroy (fuel : nat) (h : gmap nat Node) (head : mptr) (freed : list nat) : option (list nat) :=
  match fuel with
  | 0 => None
  | S fuel =>
    match p_ head, isMarked head with
    | None, false => Some freed
    | Some hold, false => n ← h !! hold; destroy fuel (delete hold h) (next n) (freed ++ [hold])
    | _, true => None
    end
  end.

Definition destructor (s : state) : option (list nat) :=
  destroy (S (size (nodes s))) (nodes s) (clean (head_ s)) [].

(** ** Every node is linked or retired *)

Section reclaim.
Context `{Sentinel}.
Implicit Types (s : state).

Definition accounted s (l : list (nat * Z)) : Prop :=
  ∀ a, is_Some (nodes s !! a) → a ∈ l.*1 ∨ a ∈ retired s.

(** ** Who unlinks a marked node *)

(** [t] has marked the node at [a], and unlinks it or looks for it. *)
Definition responsible s (t a : nat) (n : Node) : Prop :=
  let th := threads s t in
  match at_ th with
  | CasDelete _ cur _ => cur = a ∧ data n = key (oper th)
  | TryAgain | Loop _ (Some _) | Check1 _ _ | ReadNext _ _ | Unlink _ _ _ => oper th = Cleanup (data n)
  | Check2 _ cur next =>
    oper th = Cleanup (data n) ∧ cur ≠ a ∧
    (next = None → ∀ c, nodes s !! cur = Some c → ¬ (data c < data n)%Z)
  | _ => False
  end.

Definition covered s (l : list (nat * Z)) : Prop :=
  ∀ a n, a ∈ l.*1 → nodes s !! a = Some n → isMarked (next n) = true → ∃ t, responsible s t a n.

(** *** Where keys are in the chain *)

Lemma chain_key s l a n : shared s l → a ∈ l.*1 → nodes s !! a = Some n → (a, data n) ∈ l.
Proof.
  intros Hs Ha Hn. apply list_elem_of_fmap in Ha as ([a' d] & -> & Hin). cbn in Hn.
  pose proof Hin as Hin'. apply list_elem_of_split in Hin' as (l1 & l2 & E).
  pose proof (s_chain _ _ Hs) as Hc. rewrite E in Hc.
  destruct (chain_split _ _ _ _ _ _ Hc) as (n' & Hn' & Hd & _). by simplify_eq.
Qed.

(** Behind a place there are only nodes with keys at least those of its first. *)
Lemma behind s l prev q k l1 l2 a n :
  shared s l → place s l prev q k l1 l2 → a ∈ l.*1 → nodes s !! a = Some n → (k ≤ data n)%Z →
  ∃ c x, q = Some c ∧ nodes s !! c = Some x ∧ (c = a ∨ data x < data n)%Z.
Proof.
  intros Hs [-> Hq Hb _] Ha Hn Hk. pose proof (chain_key s _ a n Hs Ha Hn) as Hin.
  apply elem_of_app in Hin as [Hin|Hin].
  { rewrite Forall_forall in Hb. specialize (Hb (data n)).
    rewrite list_elem_of_fmap in Hb. specialize (Hb ltac:(by exists (a, data n))). lia. }
  destruct l2 as [|[c d] l2]; [by apply not_elem_of_nil in Hin|]. cbn in Hq.
  destruct (chain_split _ _ _ _ _ _ (s_chain _ _ Hs)) as (x & Hx & Hd & _).
  exists c, x. split_and!; [done|done|]. apply elem_of_cons in Hin as [[= <- <-]|Hin]; [by left|right].
  pose proof (s_sorted _ _ Hs) as Hso. rewrite fmap_app in Hso. cbn in Hso.
  apply increasing_app in Hso as [_ Hso]. rewrite Forall_forall in Hso. rewrite Hd.
  apply Hso, list_elem_of_fmap. by exists (a, data n).
Qed.

(** At the end of the chain a larger key is not linked. *)
Lemma not_at_end s l t prev k a n :
  shared s l → below s prev k → load t prev s = Some (clean None) →
  a ∈ l.*1 → nodes s !! a = Some n → (k ≤ data n)%Z → False.
Proof.
  intros Hs Hb Hl Ha Hn Hk. destruct (locate s l t prev None k Hs Hb Hl) as (l1 & l2 & Hpl).
  by destruct (behind s l prev None k l1 l2 a n Hs Hpl Ha Hn Hk) as (c & x & ? & _).
Qed.

(** Memory after a step that does not mark: what is marked was. *)
Definition unmarks s s' : Prop :=
  ∀ a n', nodes s' !! a = Some n' → isMarked (next n') = true →
    nodes s !! a = Some n'.

Lemma unmarks_same s s' : nodes s' = nodes s → unmarks s s'.
Proof. intros E a n' Ha _. by rewrite <- E. Qed.

Lemma unmarks_stored s prev x hd r ths h :
  (∀ a n, h !! a = Some n → isMarked (next n) = true → nodes s !! a = Some n) →
  isMarked x = false → unmarks s (mkState hd (stored prev x h) r ths).
Proof.
  intros Hh Hx a n' Ha Hm. cbn in Ha. apply stored_inv in Ha as [[_ Ha]|(_ & n & _ & ->)]; [by apply Hh|].
  cbn in Hm. congruence.
Qed.

(** *** Steps keep marked nodes covered *)

Lemma responsible_others s s' u a n wi wo :
  Inv s wi wo → grows s s' → threads s' u = threads s u →
  responsible s u a n → responsible s' u a n.
Proof.
  intros [_ Ht] Hg Et Hr. unfold responsible in *. rewrite Et.
  pose proof (t_pc _ _ _ _ (Ht u)) as Hpc. unfold pc_ok in Hpc.
  destruct (at_ (threads s u)) as [| | | | | |prev cur m| | | |]; try done.
  destruct Hr as (Ho & Hne & Hm). split_and!; [done|done|]. intros -> c Hc.
  destruct Hpc as (_ & _ & _ & c0 & Hc0 & _). destruct (Hg cur c0 Hc0) as (c' & Hc' & Hd & _).
  simplify_eq. rewrite Hd. by apply (Hm eq_refl).
Qed.

Lemma covered_step t s s' l l' wi wo :
  Inv s wi wo → grows s s' → (∀ u, u ≠ t → threads s' u = threads s u) → covered s l →
  (∀ a n, a ∈ l'.*1 → nodes s' !! a = Some n → isMarked (next n) = true →
     (a ∈ l.*1 ∧ nodes s !! a = Some n ∧ (responsible s t a n → responsible s' t a n)) ∨
     responsible s' t a n) → covered s' l'.
Proof.
  intros HI Hg Hth Hc Hs a n Ha Hn Hm. destruct (Hs a n Ha Hn Hm) as [(Ha0 & Hn0 & Hr)|Hr]; [|eauto].
  destruct (Hc a n Ha0 Hn0 Hm) as [u Hu]. destruct (decide (u = t)) as [->|Hne]; [eauto|].
  exists u. eapply responsible_others; eauto.
Qed.

(** A step that only reads. *)
Lemma covered_read t c s l wi wo :
  Inv s wi wo → covered s l →
  (∀ a n, a ∈ l.*1 → nodes s !! a = Some n → isMarked (next n) = true →
     responsible s t a n → responsible (goto t c s) t a n) → covered (goto t c s) l.
Proof.
  intros HI Hc Hr. eapply (covered_step t s); [done|by apply grows_same|by intros u Hu; cbn; rewrite upd_ne|done|].
  intros a n Ha Hn Hm. left. split_and!; [done|done|by apply Hr].
Qed.

(** Where a responsible thread may go on to. *)
Definition seeking (c : pc) : bool :=
  match c with
  | TryAgain | Loop _ (Some _) | Check1 _ _ | ReadNext _ _ | Unlink _ _ _ => true
  | _ => false
  end.

Lemma responsible_seeking t s1 c a n :
  seeking c = true → oper (threads s1 t) = Cleanup (data n) → responsible (goto t c s1) t a n.
Proof.
  intros Hc Ho. unfold responsible. cbn. rewrite upd_eq. cbn.
  by destruct c as [| |prev [cur|]| | | | | | | |].
Qed.

(** The search a thread is responsible by. *)
Lemma responsible_oper s t a n :
  responsible s t a n → (∀ p c m, at_ (threads s t) ≠ CasDelete p c m) →
  oper (threads s t) = Cleanup (data n).
Proof.
  unfold responsible. intros Hr Hn. destruct (at_ (threads s t)) as [| |prev [cur|]| | | | | | | |]; try done.
  - by destruct Hr.
  - by destruct (Hn prev cur n0).
Qed.

Lemma covered_lookupInternal t s s' l wi wo :
  Inv s wi wo → shared s l → covered s l → lookupInternal_step t s = Some s' → nodes s' = nodes s →
  (∀ p c n, at_ (threads s t) ≠ Unlink p c n) → covered s' l.
Proof.
  intros HI Hl Hc Hs Hsame Hnu. pose proof (t_pc _ _ _ _ (proj2 HI t)) as Hpc.
  unfold pc_ok in Hpc. unfold lookupInternal_step in Hs.
  assert (∀ p c m, at_ (threads s t) ≠ CasDelete p c m) as Hnd.
  { intros p c m E. by rewrite E in Hs. }
  assert (∀ c, seeking c = true → covered (goto t c s) l) as Hseek.
  { intros c Hsk. eapply covered_read; [done|done|]. intros a n Ha Hn Hm Hr.
    apply responsible_seeking; [done|]. by apply responsible_oper in Hr. }
  assert (∀ c, (∀ a n, a ∈ l.*1 → nodes s !! a = Some n → isMarked (next n) = true →
    responsible s t a n → False) → covered (goto t c s) l) as Hnone.
  { intros c Hno. eapply covered_read; [done|done|]. intros a n Ha Hn Hm Hr. by destruct (Hno a n). }
  destruct (at_ (threads s t)) as [| |prev cur|prev cur|prev cur|prev cur m|prev cur m| | | |] eqn:Hat; try done.
  - destruct (load t _ s) as [x|] eqn:Hx; cbn in Hs; [|done]. simplify_eq.
    destruct (p_ x) as [b|] eqn:Ex; [by apply Hseek|]. apply Hnone. intros a n Ha Hn Hm Hr.
    unfold startingPointer in Hx. destruct (start_ (threads s t)) eqn:Es; cbn in Hx; simplify_eq; cbn in Ex.
    + congruence.
    + eapply (not_at_end s l t Head); [done|done| |exact Ha|exact Hn|reflexivity]. cbn. by rewrite Ex.
  - destruct cur as [cur|]; simplify_eq; [by apply Hseek|]. apply Hnone. intros a n _ _ _.
    unfold responsible. by rewrite Hat.
  - destruct (load t prev s) as [x|]; cbn in Hs; [|done]. simplify_eq. apply Hseek. by case_decide.
  - destruct (nodes s !! cur) as [c|] eqn:Hcur; cbn in Hs; [|done]. simplify_eq.
    destruct (isMarked (next c)) eqn:Hmc; [by apply Hseek|].
    eapply covered_read; [done|done|]. intros a n Ha Hn Hm Hr. apply responsible_oper in Hr as Ho; [|by rewrite Hat].
    unfold responsible. cbn. rewrite upd_eq. cbn. split_and!; [done|congruence|].
    intros En c' Hc' Hlt. simplify_eq.
    eapply (not_at_end s l t (NextOf cur) (data n)); [done|by exists c| |exact Ha|exact Hn|reflexivity].
    cbn. rewrite Hcur. cbn. unfold clean. destruct (next c); cbn in *; by subst.
  - by destruct (Hnu prev cur m).
  - destruct (nodes s !! cur) as [c|] eqn:Hcur; cbn in Hs; [|done].
    destruct (load t prev s) as [x|] eqn:Hx; cbn in Hs; [|done]. simplify_eq.
    case_decide as E1; [by apply Hseek|].
    assert (x = clean (Some cur)) as -> by (destruct (decide (x = clean (Some cur))); [done|tauto]).
    case_decide as Hge.
    + apply Hnone. intros a n Ha Hn Hm Hr. unfold responsible in Hr. rewrite Hat in Hr.
      destruct Hr as (Ho & Hne & _). rewrite Ho in Hge. cbn in Hge.
      destruct Hpc as (Hp & Hst & _ & c0 & Hc0 & _). simplify_eq.
      assert (below s prev (data n)) as Hb.
      { pose proof (prev_below s (threads s t) prev Hp) as Hb. rewrite Ho in Hb. apply Hb. intros ->.
        destruct (start_unmarked s l _ _ _ cur c0 Hl (proj2 HI t) (Hst eq_refl) Hcur) as [_ Hlt].
        rewrite Ho in Hlt. cbn in Hlt. lia. }
      destruct (locate s l t prev _ (data n) Hl Hb Hx) as (l1 & l2 & Hpl).
      destruct (behind s l prev _ _ l1 l2 a n Hl Hpl Ha Hn ltac:(lia)) as (c & y & [= <-] & Hy & [->|Hlt]); [done|].
      simplify_eq; lia.
    + destruct m as [m|]; [by apply Hseek|]. apply Hnone. intros a n Ha Hn Hm Hr.
      unfold responsible in Hr. rewrite Hat in Hr. destruct Hr as (Ho & _ & Hlt).
      apply (Hlt eq_refl c Hcur). rewrite Ho in Hge. cbn in Hge. lia.
Qed.

(** *** The exchanges *)

Definition kept s : Prop := ∃ l, shared s l ∧ accounted s l ∧ covered s l.

Lemma chain_goto t c s l : shared s l → shared (goto t c s) l.
Proof. intros [? ? ? ? ? ? ?]. by split. Qed.

Lemma kept_read t c s l : shared s l → accounted s l → covered (goto t c s) l → kept (goto t c s).
Proof. intros Hl Ha Hc. exists l. split_and!; [by apply chain_goto|exact Ha|done]. Qed.

(** The memory after an unlinking, before the thread moves on. *)
Abbreviation unlinked prev cur n s :=
  (retire cur (mkState (stored_head prev (clean n) (head_ s)) (stored prev (clean n) (nodes s))
     (retired s) (threads s))).

Lemma kept_unlinked t s s' l prev cur n k c wi wo :
  Inv s wi wo → shared s l → accounted s l → covered s l → below s prev k →
  load t prev s = Some (clean (Some cur)) → (∃ x, nodes s !! cur = Some x ∧ next x = mkPtr n true) →
  s' = goto t c (unlinked prev cur n s) →
  (∀ a x l', shared s' l' → a ∈ l'.*1 → a ≠ cur → nodes s' !! a = Some x → nodes s !! a = Some x →
     responsible s t a x → responsible s' t a x) → kept s'.
Proof.
  intros HI Hl Hacc Hcov Hb Hld Hx -> Hown.
  destruct (unlink_chain t s l prev cur n k Hl Hb Hld Hx) as ([l' [Hl' Hin]] & _ & Hg).
  apply (chain_goto t c) in Hl'. exists l'. split; [done|].
  destruct (s_retired _ _ Hl') as [_ Hret].
  assert (unmarks s (goto t c (unlinked prev cur n s))) as Hun.
  { apply (unmarks_stored s prev (clean n) (stored_head prev (clean n) (head_ s)) (retired s) (threads s)); [auto|done]. }
  split.
  - intros a Ha. cbn in Ha. apply stored_some in Ha. cbn. rewrite elem_of_app.
    destruct (Hacc a Ha) as [Hal|]; [|by right; left]. apply Hin in Hal as [->|]; [|by left].
    right. right. by left.
  - eapply (covered_step t s); [exact HI|exact Hg|by intros u Hu; cbn; rewrite upd_ne|exact Hcov|].
    intros a x Ha Hx' Hm. left. split; [apply Hin; by right|]. split; [by apply Hun|].
    apply (Hown a x l'); [done|done| |done|by apply Hun].
    intros ->. destruct (Hret cur) as [Hno _]; [|done]. cbn. apply elem_of_app. right. by left.
Qed.

Lemma kept_unlink t s s' wi wo prev cur n :
  Inv s wi wo → kept s → at_ (threads s t) = Unlink prev cur n → lookupInternal_step t s = Some s' → kept s'.
Proof.
  intros HI (l & Hl & Hacc & Hcov) Hat Hs. unfold lookupInternal_step in Hs. rewrite Hat in Hs.
  pose proof (t_pc _ _ _ _ (proj2 HI t)) as Hpc. unfold pc_ok in Hpc. rewrite Hat in Hpc.
  destruct Hpc as (Hb & _ & Hx).
  destruct (cas t prev _ _ s) as [[ok s1]|] eqn:Hcas; cbn in Hs; [|done].
  apply cas_inv in Hcas as [[-> ->]|(-> & Hld & ->)]; [| |by intros ->]; injection Hs as <-.
  - apply (kept_read t _ s l); [done|done|]. eapply covered_read; [exact HI|done|].
    intros a x _ _ _ Hr. apply responsible_seeking; [done|]. apply (responsible_oper s t a x Hr). by rewrite Hat.
  - eapply (kept_unlinked t s _ l prev cur n _ (Loop prev n)); [exact HI|done|done|done|exact Hb|done|done|done|].
    intros a x l' Hl' Ha _ Ha' _ Hr. apply responsible_oper in Hr; [|by rewrite Hat].
    destruct n as [n|]; [by apply responsible_seeking|exfalso]. rewrite Hr in Hb. cbn in Hb.
    eapply (not_at_end _ l' t prev (data x)); [exact Hl'| | |exact Ha|exact Ha'|reflexivity].
    + destruct prev as [| |b]; [done|done|]. destruct Hb as (y & Hy & Hlt). cbn. rewrite Hy.
      exists (set_next (clean None) y). rewrite lookup_insert_eq. by split.
    + destruct prev as [| |b]; [done|done|]. destruct Hb as (y & Hy & _). cbn. rewrite Hy.
      by rewrite lookup_insert_eq.
Qed.

Lemma kept_delete t s s' wi wo prev cur n :
  Inv s wi wo → kept s → at_ (threads s t) = CasDelete prev cur n → delete_step t prev cur n s = Some s' → kept s'.
Proof.
  intros HI (l & Hl & Hacc & Hcov) Hat Hs. unfold delete_step in Hs.
  pose proof (t_pc _ _ _ _ (proj2 HI t)) as Hpc. unfold pc_ok in Hpc. rewrite Hat in Hpc.
  destruct Hpc as (Ho & Hb & Hx).
  destruct (cas t prev _ _ s) as [[ok s1]|] eqn:Hcas; cbn in Hs; [|done].
  apply cas_inv in Hcas as [[-> ->]|(-> & Hld & ->)]; [| |by intros ->]; injection Hs as <-.
  - exists l. split_and!; [by apply chain_goto; destruct Hl; split|exact Hacc|].
    eapply (covered_step t s); [exact HI|by apply grows_same|by intros u Hu; cbn; rewrite !upd_ne|done|].
    intros a x Ha Hx' Hm. left. split; [done|]. split; [done|]. unfold responsible at 1. rewrite Hat.
    intros [_ Hk]. apply responsible_seeking; [done|]. cbn. rewrite upd_eq. cbn. by rewrite Hk.
  - eapply (kept_unlinked t s _ l prev cur n _ (Done true None)); [exact HI|done|done|done|exact Hb|done|done|done|].
    intros a x l' _ _ Hne _ _. unfold responsible at 1. rewrite Hat. by intros [-> _].
Qed.

Lemma kept_mark t s s' wi wo prev cur n :
  Inv s wi wo → kept s → at_ (threads s t) = CasMark prev cur n → mark_step t prev cur n s = Some s' → kept s'.
Proof.
  intros HI (l & Hl & Hacc & Hcov) Hat Hs. pose proof (proj2 HI t) as Ht.
  pose proof (t_pc _ _ _ _ Ht) as Hpc. unfold pc_ok in Hpc. rewrite Hat in Hpc.
  destruct Hpc as (Ho & Hb & c & Hc & Hk). unfold mark_step in Hs.
  assert (∀ a x, ¬ responsible s t a x) as Hno.
  { intros a x Hr. unfold responsible in Hr. by rewrite Hat in Hr. }
  destruct (cas t _ _ _ s) as [[ok s1]|] eqn:Hcas; cbn in Hs; [|done].
  apply cas_inv in Hcas as [[-> ->]|(-> & Hld & ->)]; [| |done]; injection Hs as <-.
  - apply (kept_read t _ s l); [done|done|]. eapply covered_read; [exact HI|done|].
    intros a x _ _ _ Hr. by destruct (Hno a x).
  - cbn in Hld. rewrite Hc in Hld. cbn in Hld. injection Hld as Hn.
    destruct (shared_mark s l cur c n (threads s) Hl Hc Hn) as (Hsh & _ & _).
    { rewrite Hk. by apply (t_oper _ _ _ _ Ht). }
    cbn. rewrite Hc. exists l. split_and!; [by apply chain_goto| |].
    + intros a Ha. cbn in Ha. apply Hacc. apply lookup_insert_is_Some in Ha as [->|[_ ?]]; [by eexists|done].
    + eapply (covered_step t s); [exact HI| |by intros u Hu; cbn; rewrite upd_ne|done|].
      * intros a x Ha. cbn. destruct (decide (a = cur)) as [->|Hne].
        -- rewrite lookup_insert_eq. assert (x = c) as -> by congruence. eexists.
           split_and!; [done|done|]. by rewrite Hn.
        -- rewrite lookup_insert_ne by done. eauto.
      * intros a x Ha Hx Hm. cbn in Hx. apply lookup_insert_Some in Hx as [[<- <-]|[Hne Hx]].
        -- right. unfold responsible. cbn. rewrite upd_eq. cbn. by split.
        -- left. split; [done|]. split; [done|]. intros Hr. by destruct (Hno a x).
Qed.

(** The memory after a new node is linked. *)
Lemma link_memory s l prev cur k v l1 l2 :
  place s l prev cur k l1 l2 →
  let a0 := malloc (nodes s) in
  let h' := stored prev (clean (Some a0)) (<[a0 := mkNode k v (clean cur)]> (nodes s)) in
  (∀ a, is_Some (h' !! a) → a = a0 ∨ is_Some (nodes s !! a)) ∧
  (∀ hd r ths, grows s (mkState hd h' r ths)) ∧
  (∀ a y, h' !! a = Some y → isMarked (next y) = true → a ≠ a0 ∧ nodes s !! a = Some y).
Proof.
  intros Hpl a0 h'. set (n0 := mkNode k v (clean cur)) in *.
  pose proof (malloc_new (nodes s)) as Hnew. fold a0 in Hnew. split_and!.
  - intros a Ha. apply stored_some, lookup_insert_is_Some in Ha as [->|[_ ?]]; auto.
  - intros hd r ths a x Ha. assert (a ≠ a0) as Hne by congruence.
    assert (grows (mkState hd (<[a0 := n0]> (nodes s)) r ths) (mkState hd h' r ths)) as Hg.
    { refine (grows_stored (mkState hd (<[a0 := n0]> (nodes s)) r ths) prev (clean (Some a0)) hd r ths _).
      intros b y -> Hy. cbn in Hy.
      apply lookup_insert_Some in Hy as [[_ <-]|[_ Hy]]; [done|by eapply place_unmarked]. }
    apply Hg. cbn. by rewrite lookup_insert_ne.
  - intros a y Hy Hm. apply stored_inv in Hy as [[_ Hy]|(_ & y' & _ & ->)]; [|done].
    apply lookup_insert_Some in Hy as [[_ <-]|[? ?]]; [done|by split].
Qed.

Lemma kept_insert t s s' wi wo prev cur k v :
  Inv s wi wo → kept s → at_ (threads s t) = CasInsert prev cur → oper (threads s t) = Insert k v →
  insert_step t k v prev cur s = Some s' → kept s'.
Proof.
  intros HI (l & Hl & Hacc & Hcov) Hat Ho Hs.
  pose proof (t_pc _ _ _ _ (proj2 HI t)) as Hpc. unfold pc_ok in Hpc. rewrite Hat, Ho in Hpc.
  destruct Hpc as (_ & Hb & Hq). cbn in Hb, Hq. unfold insert_step in Hs.
  assert (∀ a x, ¬ responsible s t a x) as Hno.
  { intros a x Hr. unfold responsible in Hr. by rewrite Hat in Hr. }
  destruct (load t prev s) as [x|] eqn:Hx; cbn in Hs; [|done].
  case_decide as E; [subst x|injection Hs as <-].
  2:{ apply (kept_read t _ s l); [done|done|]. eapply covered_read; [exact HI|done|].
      intros a x' _ _ _ Hr. by destruct (Hno a x'). }
  destruct (locate s l t prev cur k Hl Hb Hx) as (l1 & l2 & Hpl).
  pose proof (place_next s l prev cur k l1 l2 Hl Hpl Hq) as Hlt.
  destruct (shared_insert s l prev cur k v l1 l2 (threads s) Hl Hpl Hlt) as [Hsh _].
  destruct (link_memory s l prev cur k v l1 l2 Hpl) as (Hdom & Hg & Hun).
  destruct (store t prev _ _) as [s1|] eqn:Hst; cbn in Hs; [|done]. injection Hs as <-.
  assert (prev ≠ Start) as Hps by by intros ->.
  assert (s1 = mkState (stored_head prev (clean (Some (malloc (nodes s)))) (head_ s))
    (stored prev (clean (Some (malloc (nodes s)))) (<[malloc (nodes s) := mkNode k v (clean cur)]> (nodes s)))
    (retired s) (threads s)) as ->.
  { destruct prev as [| |b]; cbn in Hst |- *; [congruence|done|].
    destruct (<[_ := _]> (nodes s) !! b); cbn in Hst; [congruence|done]. }
  pose proof Hpl as [El _ _ _]. eexists. split; [apply chain_goto; exact Hsh|].
  rewrite El in *. split.
  - intros a Ha. cbn in Ha |- *. rewrite fmap_app in *. cbn. rewrite elem_of_app, elem_of_cons.
    destruct (Hdom a Ha) as [->|Ha']; [tauto|]. specialize (Hacc a Ha').
    rewrite fmap_app, elem_of_app in Hacc. tauto.
  - eapply (covered_step t s); [exact HI|exact (Hg _ _ _)|by intros u Hu; cbn; rewrite upd_ne|exact Hcov|].
    intros a y Ha Hy Hm. destruct (Hun a y Hy Hm) as [Hne Hy0].
    left. split; [|split; [done|intros Hr; by destruct (Hno a y)]].
    rewrite fmap_app in *. cbn in Ha. rewrite elem_of_app, elem_of_cons in *. tauto.
Qed.

(** *** All states *)

Lemma lookupInternal_memory t s s' :
  lookupInternal_step t s = Some s' → (∀ p c n, at_ (threads s t) ≠ Unlink p c n) →
  nodes s' = nodes s ∧ retired s' = retired s ∧ head_ s' = head_ s.
Proof.
  intros Hs Hn. unfold lookupInternal_step in Hs.
  destruct (at_ (threads s t)) as [| |prev cur|prev cur|prev cur|prev cur m|prev cur m| | | |]; try done;
    try (by destruct (Hn prev cur m));
    repeat (first [case_match|done|progress simplify_eq/=|progress simplify_option_eq]).
Qed.

Lemma kept_lookupInternal t s s' wi wo :
  Inv s wi wo → kept s → lookupInternal_step t s = Some s' →
  (∀ p c n, at_ (threads s t) ≠ Unlink p c n) → kept s'.
Proof.
  intros HI (l & Hl & Hacc & Hcov) Hs Hn.
  destruct (lookupInternal_memory t s s' Hs Hn) as (En & Er & Eh). exists l. split_and!.
  - destruct Hl. split; unfold member in *; rewrite ?En, ?Er, ?Eh; done.
  - intros a. rewrite En, Er. apply Hacc.
  - by eapply covered_lookupInternal.
Qed.

Lemma kept_step lb s s' wi wo : Inv s wi wo → kept s → step lb s = Some s' → kept s'.
Proof.
  intros HI Hk Hs. destruct lb as [t o start|t]; cbn in Hs.
  - destruct Hk as (l & Hl & Hacc & Hcov). destruct (at_ (threads s t)) eqn:Hat; try done.
    destruct (callable o start s); [|done]. injection Hs as <-.
    exists l. split_and!; [by destruct Hl; split|exact Hacc|].
    eapply (covered_step t s); [exact HI|by apply grows_same|by intros u Hu; cbn; rewrite upd_ne|done|].
    intros a n Ha Hn Hm. left. split; [done|]. split; [done|]. unfold responsible at 1. by rewrite Hat.
  - unfold go in Hs. destruct (at_ (threads s t)) eqn:Hat; try done;
      try (eapply kept_lookupInternal; [exact HI|done|exact Hs|by rewrite Hat]).
    + by eapply kept_unlink.
    + destruct (oper (threads s t)) eqn:Ho; try done. by eapply kept_insert.
    + by eapply kept_mark.
    + by eapply kept_delete.
    + injection Hs as <-. destruct Hk as (l & Hl & Hacc & Hcov). apply (kept_read t Idle s l); [done|done|].
      eapply covered_read; [exact HI|done|]. intros a n _ _ _. unfold responsible at 1. by rewrite Hat.
Qed.

Lemma kept_reach s wi wo : reach s wi wo → kept s.
Proof.
  induction 1 as [|lb s s' wi wo Hr IH Hs].
  - exists []. split_and!.
    + split; cbn; try done; try constructor; try constructor; intros; set_solver.
    + intros a [n Hn]. cbn in Hn. by rewrite lookup_empty in Hn.
    + intros a n Ha. by apply not_elem_of_nil in Ha.
  - eapply kept_step; [by eapply Inv_reach|exact IH|exact Hs].
Qed.

(** ** The destructor *)

(** Along a chain without marks it frees the nodes in order. *)
Lemma destroy_chain l : ∀ fuel h q freed,
  length l < fuel → chain h q l → NoDup l.*1 →
  (∀ a n, a ∈ l.*1 → h !! a = Some n → isMarked (next n) = false) →
  destroy fuel h (clean q) freed = Some (freed ++ l.*1).
Proof.
  induction l as [|[a d] l IH]; intros [|fuel] h q freed Hf Hc Hn Hm; try (cbn in Hf; lia); cbn in Hc.
  - subst q. cbn. by rewrite app_nil_r.
  - destruct Hc as (-> & n & Ha & _ & Hc). cbn in Hn. apply NoDup_cons in Hn as [Hal Hn].
    cbn. rewrite Ha. cbn.
    assert (next n = clean (p_ (next n))) as ->.
    { specialize (Hm a n ltac:(by left) Ha). unfold clean. destruct (next n); cbn in *; by subst. }
    cbn. rewrite (IH fuel); [by rewrite <- app_assoc|cbn in Hf; lia| |done|].
    + clear -Hc Hal. revert Hc. generalize (p_ (next n)). induction l as [|[b e] l IH]; intros q; cbn; [done|].
      cbn in Hal. apply not_elem_of_cons in Hal as [Hab Hal]. intros (-> & x & Hx & Hd & Hc). split; [done|].
      exists x. rewrite lookup_delete_ne by done. split_and!; [done|done|by apply IH].
    + intros b x Hb Hx. apply lookup_delete_Some in Hx as [_ Hx]. apply (Hm b x); [by right|done].
Qed.

Lemma destroyed s wi wo :
  reach s wi wo → (∀ t, at_ (threads s t) = Idle) →
  ∃ freed, destructor s = Some freed ∧ NoDup freed ∧
    (∀ a, is_Some (nodes s !! a) ↔ a ∈ freed ∨ a ∈ retired s) ∧ (∀ a, a ∈ freed → a ∉ retired s).
Proof.
  intros Hr Hi.
  destruct (kept_reach _ _ _ Hr) as (l & Hl & Hacc & Hcov).
  destruct (s_retired _ _ Hl) as [_ Hret]. exists l.*1. split_and!.
  - unfold destructor. rewrite (destroy_chain l); [done|pose proof (chain_size _ _ _ (s_chain _ _ Hl) (s_nodup _ _ Hl)); lia
      |apply Hl|apply Hl|].
    intros a n Ha Hn. destruct (isMarked (next n)) eqn:Hm; [|done].
    destruct (Hcov a n Ha Hn Hm) as [t Ht]. unfold responsible in Ht. by rewrite Hi in Ht.
  - apply Hl.
  - intros a. split; [apply Hacc|]. intros [Ha|Ha]; [by eapply chain_in; [apply Hl|]|]. by apply Hret.
  - intros a Ha Ha'. by destruct (Hret a Ha').
Qed.

(** C10. The destructor of the list, run when no thread is in a call, ends and
    frees exactly the nodes that were not handed to the hazard pointers, each
    once; it meets no marked pointer and reads no freed node.  Every node ever
    inserted is freed here or retired, never both. *)
Theorem quiet_list_destroyed sched s :
  exec step sched init = Some s → (∀ t, at_ (threads s t) = Idle) →
  ∃ freed, destructor s = Some freed ∧ NoDup freed ∧
    (∀ a, is_Some (nodes s !! a) ↔ a ∈ freed ∨ a ∈ retired s) ∧ (∀ a, a ∈ freed → a ∉ retired s).
Proof.
  intros He. destruct (reach_exec sched _ _ _ _ reach_init He) as (wi & wo & Hr). by eapply destroyed.
Qed.

End reclaim.

(** ** An instance *)

(** Two keys, of which one is removed. *)
Definition one_removed : list label :=
  late_lookup ++ Call 0 (Insert 7 None) None :: replicate 4 (Go 0).

Lemma one_removed_run : exec (step (H := λ _, false)) one_removed init = Some (after one_removed).
Proof. apply exec_after. vm_compute. eexists. reflexivity. Qed.

Lemma one_removed_idle t : at_ (threads (after one_removed) t) = Idle.
Proof.
  destruct (decide (t < 3)) as [Ht|Ht].
  - destruct t as [|[|[|t]]]; [vm_compute; reflexivity..|lia].
  - rewrite (exec_others (H := λ _, false) one_removed init _ t one_removed_run); [reflexivity|].
    apply Forall_forall. intros l Hl. assert (Forall (λ l, who l < 3) one_removed) as Hf
      by (apply (bool_decide_unpack _); vm_compute; exact I).
    rewrite Forall_forall in Hf. specialize (Hf l Hl). lia.
Qed.

Lemma quiet_list_destroyed_witness :
  (size (nodes (after one_removed)), retired (after one_removed), destructor (after one_removed)) =
    (2, [1], Some [2]) ∧
  ∃ freed, destructor (after one_removed) = Some freed ∧ NoDup freed ∧
    (∀ a, is_Some (nodes (after one_removed) !! a) ↔ a ∈ freed ∨ a ∈ retired (after one_removed)) ∧
    (∀ a, a ∈ freed → a ∉ retired (after one_removed)).
Proof.
  split; [vm_compute; reflexivity|].
  exact (quiet_list_destroyed (H := λ _, false) one_removed _ one_removed_run one_removed_idle).
Defined.

End ListReclaim.
