(* ===== verification/ConcurrentHashTable.v ===== *)
(** * The hash table under concurrency ([lock_free_hash_table.hpp], [.cpp])

    [LockFreeHashTable] has the table's operations one at a time; here any number
    of threads run them.  One step is one access to the table's shared members,
    or one step of the [LockFreeList] below, with which the thread takes part in
    the list's own races.  Each of the vector's operations is a step, although the
    code does nothing to make it so (see [growth_unprotected]): the states of this
    model are those of the code as long as no [vector_race] is reached, which takes
    an insertion next to another operation ([table_well_typed]). *)

From S2P Require Import Prelude.
From S2P Require Import LockFreeList.
From S2P Require Import LockFreeHashTable.
From S2P Require Import Linearizability.
From S2P Require Import ListLinearizable.
From S2P Require Import ListReclaim.

Module ConcurrentTable.
Import HashTable(u32, to_int, reverseRegularKey, reverseDummyKey, getParent, norm).
Import Lin.

(** ** The shared state *)

(** Dummy keys are the even ones; their nodes are where operations start. *)
#[local] Existing Instance ListLin.list_object.
#[export] Instance dummies : LockFreeList.Sentinel := Z.even.

Abbreviation op := HashTable.op.
Abbreviation result := HashTable.result.

(** [data], the key of an operation. *)
Definition data_of (o : op) : Z :=
  match o with HashTable.Insert k _ | HashTable.Remove k | HashTable.Find k => k end.

(** The call of the list an operation makes. *)
Definition list_op (o : op) : LockFreeList.op :=
  match o with
  | HashTable.Insert k v => LockFreeList.Insert (reverseRegularKey k) (Some v)
  | HashTable.Remove k => LockFreeList.Remove (reverseRegularKey k)
  | HashTable.Find k => LockFreeList.Lookup (reverseRegularKey k)
  end.

(** Where a thread is: before reading [size_]; before testing its bucket; in
    [initialize_bucket(b)], called from those of [callers]: before testing the
    parent, before reading the parent and calling the list, in that call, before
    storing the node; before reading its bucket and calling the list; in that
    call.  After it, in [insertKey]: before [csize = size_]; before the counter is
    incremented; before the load is tested; in the loop that grows the table,
    before its test and before [push_back]; before the exchange of [size_].  In
    [removeKey]: before the counter is decremented. *)
Inductive pc :=
  | Idle
  | ReadSize
  | TestBucket (b : Z)
  | TestParent (b : Z) (callers : list Z)
  | StartDummy (b : Z) (callers : list Z)
  | InsertDummy (b : Z) (callers : list Z)
  | StoreBucket (b : Z) (callers : list Z) (dummy : nat)
  | StartOp (b : Z)
  | InList
  | ReadCsize
  | AddCount (csize : Z)
  | TestLoad (csize : Z)
  | PushTest (csize i : Z)
  | PushBack (csize i : Z)
  | GrowSize (csize : Z)
  | SubCount
  | Returned (r : result).

Record thread := mkThread { call : op; at_ : pc }.

Record state := mkState {
  lockfreelist_ : LockFreeList.state;
  buckets_ : list (option nat);
  count_ : Z;
  size_ : Z;
  loadFactor_ : Z;
  threads : nat → thread
}.

Definition goto (t : nat) (c : pc) (s : state) : state :=
  mkState (lockfreelist_ s) (buckets_ s) (count_ s) (size_ s) (loadFactor_ s)
    (upd t (mkThread (call (threads s t)) c) (threads s)).

Definition set_list (l : LockFreeList.state) (s : state) : state :=
  mkState l (buckets_ s) (count_ s) (size_ s) (loadFactor_ s) (threads s).
Definition set_buckets (b : list (option nat)) (s : state) : state :=
  mkState (lockfreelist_ s) b (count_ s) (size_ s) (loadFactor_ s) (threads s).
Definition set_count (c : Z) (s : state) : state :=
  mkState (lockfreelist_ s) (buckets_ s) c (size_ s) (loadFactor_ s) (threads s).
Definition set_size (n : Z) (s : state) : state :=
  mkState (lockfreelist_ s) (buckets_ s) (count_ s) n (loadFactor_ s) (threads s).

(** ** The steps *)

(** [buckets_.at(b)]: [None] is [std::out_of_range]. *)
Definition bucket_at (b : Z) (s : state) : option (option nat) := buckets_ s !! Z.to_nat b.

(** The first line of [initialize_bucket]. *)
Definition initialize_bucket (b : Z) (callers : list Z) : pc :=
  if decide (b ≠ 0%Z) then TestParent b callers else StartDummy b callers.

Definition parent_of (b : Z) : Z := if decide (b ≠ 0%Z) then getParent b else 0.

(** A call of the list, and a step in it; the list's own state says when the
    call is over, with its result and the node found or inserted. *)
Definition call_list (t : nat) (o : LockFreeList.op) (start : option nat) (c : pc) (s : state)
    : option state :=
  l ← LockFreeList.step (LockFreeList.Call t o start) (lockfreelist_ s);
  Some (goto t c (set_list l s)).

Definition list_step (t : nat) (k : bool → option nat → option pc) (s : state) : option state :=
  l ← LockFreeList.step (LockFreeList.Go t) (lockfreelist_ s);
  match LockFreeList.at_ (LockFreeList.threads (lockfreelist_ s) t) with
  | LockFreeList.Done res found => c ← k res found; Some (goto t c (set_list l s))
  | _ => Some (set_list l s)
  end.

(** What follows the call of the list in [insertKey], [removeKey], [findKey]; the
    value of a node never changes. *)
Definition outcome (l : LockFreeList.state) (o : op) (res : bool) (found : option nat) : pc :=
  match o with
  | HashTable.Insert _ _ => if res then ReadCsize else Returned (HashTable.RBool false)
  | HashTable.Remove _ => if res then SubCount else Returned (HashTable.RBool false)
  | HashTable.Find _ =>
    Returned (HashTable.RFind
      (if res then a ← found; n ← LockFreeList.nodes l !! a; Some (LockFreeList.value n) else None))
  end.

Definition go (t : nat) (s : state) : option state :=
  let th := threads s t in
  match at_ th with
  | Idle => None
  | ReadSize =>
    if decide (size_ s = 0%Z) then None else Some (goto t (TestBucket (data_of (call th) mod size_ s)) s)
  | TestBucket b =>
    p ← bucket_at b s;
    Some (goto t (match p with None => initialize_bucket b [] | Some _ => StartOp b end) s)
  | TestParent b callers =>
    p ← bucket_at (getParent b) s;
    Some (goto t (match p with
                  | None => initialize_bucket (getParent b) (b :: callers)
                  | Some _ => StartDummy b callers
                  end) s)
  | StartDummy b callers =>
    start ← bucket_at (parent_of b) s;
    call_list t (LockFreeList.Insert (reverseDummyKey b) None) start (InsertDummy b callers) s
  | InsertDummy b callers => list_step t (λ _ dummy, StoreBucket b callers <$> dummy) s
  | StoreBucket b callers dummy =>
    _ ← bucket_at b s;
    Some (goto t (match callers with [] => StartOp b | b' :: callers => StartDummy b' callers end)
            (set_buckets (<[Z.to_nat b := Some dummy]> (buckets_ s)) s))
  | StartOp b => start ← bucket_at b s; call_list t (list_op (call th)) start InList s
  | InList => list_step t (λ res found, Some (outcome (lockfreelist_ s) (call th) res found)) s
  | ReadCsize => Some (goto t (AddCount (size_ s)) s)
  | AddCount csize => Some (goto t (TestLoad csize) (set_count (u32 (count_ s + 1)) s))
  | TestLoad csize =>
    if decide (csize = 0%Z) then None
    else Some (goto t (if decide (count_ s / csize > u32 (loadFactor_ s))%Z
                       then PushTest csize 0 else Returned (HashTable.RBool true)) s)
  | PushTest csize i =>
    Some (goto t (if decide (i < to_int (size_ s))%Z then PushBack csize i else GrowSize csize) s)
  | PushBack csize i => Some (goto t (PushTest csize (i + 1)) (set_buckets (buckets_ s ++ [None]) s))
  | GrowSize csize =>
    Some (goto t (Returned (HashTable.RBool true))
            (if decide (size_ s = csize) then set_size (u32 (2 * csize)) s else s))
  | SubCount => Some (goto t (Returned (HashTable.RBool true)) (set_count (u32 (count_ s - 1)) s))
  | Returned _ => Some (goto t Idle s)
  end.

Inductive label := Call (t : nat) (o : op) | Go (t : nat).

Definition step (l : label) (s : state) : option state :=
  match l with
  | Call t o =>
    match at_ (threads s t) with
    | Idle => Some (mkState (lockfreelist_ s) (buckets_ s) (count_ s) (size_ s) (loadFactor_ s)
                      (upd t (mkThread o ReadSize) (threads s)))
    | _ => None
    end
  | Go t => go t s
  end.

(** The constructor: its members, then [insertKey(0,0)] by one thread. *)
Definition members : state :=
  mkState LockFreeList.init [None; None] 0 2 10 (λ _, mkThread (HashTable.Find 0) Idle).
Definition constructor : list label := Call 0 (HashTable.Insert 0 0) :: replicate 21 (Go 0).
Definition make : state := default members (exec step constructor members).

Definition getSize (s : state) : Z := size_ s.
Definition getCount (s : state) : Z := count_ s.
Definition checkIntegrity (s : state) : option bool := LockFreeList.checkIntegrity (lockfreelist_ s).
(** The destructor deletes the list; the vector does not own its nodes. *)
Definition destructor (s : state) : option (list nat) := ListReclaim.destructor (lockfreelist_ s).

(** ** Keys of nodes *)

Lemma even_bit x : Z.even x = negb (Z.testbit x 0).
Proof. by rewrite Z.bit0_odd, Z.negb_odd. Qed.

Lemma dummy_even b : (0 ≤ b < 2 ^ 31)%Z → Z.even (reverseDummyKey b) = true.
Proof.
  intros Hb. rewrite even_bit. unfold reverseDummyKey. rewrite HashTable.reverse_bits by lia.
  destruct (decide (b = 0)%Z) as [->|]; [done|].
  rewrite Z.bits_above_log2; [done|lia|]. apply Z.log2_lt_pow2; lia.
Qed.

Lemma regular_odd k : Z.even (reverseRegularKey k) = false.
Proof.
  rewrite even_bit. unfold reverseRegularKey.
  by rewrite HashTable.reverse_bits, HashTable.regular_bits, orb_true_r by lia.
Qed.

Lemma dummy_inj b b' :
  (0 ≤ b < 2 ^ 32)%Z → (0 ≤ b' < 2 ^ 32)%Z → reverseDummyKey b = reverseDummyKey b' → b = b'.
Proof. intros Hb Hb' E. apply HashTable.word_ext; [done..|]. by apply HashTable.reverse_inj. Qed.

Lemma parent_range b : (0 < b < 2 ^ 31)%Z → (0 ≤ getParent b < b)%Z ∧ (getParent b < 2 ^ 31)%Z.
Proof.
  intros Hb. destruct (HashTable.getParent_range b) as [H1 H2]; [lia|].
  destruct (Z.log2_spec b) as [H3 _]; [lia|]. lia.
Qed.

Lemma parent_dummy_lt b :
  (0 < b < 2 ^ 31)%Z → (reverseDummyKey (getParent b) < reverseDummyKey b)%Z.
Proof.
  intros Hb. pose proof (HashTable.parent_dummy_le b ltac:(lia)) as Hle.
  destruct (parent_range b Hb) as [Hp ?].
  assert (reverseDummyKey (getParent b) ≠ reverseDummyKey b); [|lia].
  intros E%dummy_inj; lia.
Qed.

Lemma bucket_range k j : (0 ≤ j ≤ 31)%Z → (0 ≤ k mod 2 ^ j < 2 ^ 31)%Z.
Proof.
  intros Hj. pose proof (Z.mod_pos_bound k (2 ^ j) ltac:(lia)).
  assert (2 ^ j ≤ 2 ^ 31)%Z by (apply Z.pow_le_mono_r; lia). lia.
Qed.

Lemma dummy_lt_regular k j :
  (0 ≤ j ≤ 31)%Z → (reverseDummyKey (k mod 2 ^ j) < reverseRegularKey k)%Z.
Proof.
  intros Hj. pose proof (HashTable.dummy_le_regular k j ltac:(lia)).
  pose proof (HashTable.dummy_not_regular (k mod 2 ^ j) k (bucket_range k j Hj)). lia.
Qed.

(** The key of a node, read back. *)
Definition decode (d : Z) : Z := norm (HashTable.reverse d).

Lemma decode_regular k : decode (reverseRegularKey k) = norm k.
Proof.
  apply Z.bits_inj'. intros i Hi. unfold decode, norm.
  destruct (decide (i < 31)%Z); [|by rewrite !Z.mod_pow2_bits_high by lia].
  rewrite !Z.mod_pow2_bits_low, HashTable.reverse_bits by lia. unfold reverseRegularKey.
  rewrite HashTable.reverse_bits, HashTable.regular_bits by lia.
  replace (31 - (31 - i))%Z with i by lia.
  rewrite (proj2 (Z.eqb_neq 31 i)) by lia. by rewrite orb_false_r.
Qed.

#[local] Opaque reverseDummyKey reverseRegularKey.

(** ** The map of the table *)

(** The list holds dummy nodes, and regular ones that have a value. *)
Definition table_list (m : gmap Z (option Z)) : Prop :=
  ∀ d ov, m !! d = Some ov → Z.even d = true ∨ ∃ k v, d = reverseRegularKey k ∧ ov = Some v.

Definition entry (x : Z * option Z) : option (Z * Z) :=
  if Z.even x.1 then None else v ← x.2; Some (decode x.1, v).

(** The keys of the regular nodes, read back, and their values. *)
Definition table_map (m : gmap Z (option Z)) : gmap Z Z := list_to_map (omap entry (map_to_list m)).

Lemma table_map_lookup m k v :
  table_list m →
  table_map m !! norm k = Some v ↔ m !! reverseRegularKey k = Some (Some v).
Proof.
  intros Hm. unfold table_map.
  assert (∀ d v', (d, Some v') ∈ map_to_list m → Z.even d = false →
    ∃ k', d = reverseRegularKey k') as Hreg.
  { intros d v' Hd%elem_of_map_to_list He. destruct (Hm d _ Hd) as [?|(k' & ? & -> & _)]; [congruence|eauto]. }
  assert (NoDup (omap entry (map_to_list m)).*1) as Hnd.
  { pose proof (NoDup_fst_map_to_list m) as Hn. revert Hn Hreg.
    induction (map_to_list m) as [|[d ov] l IH]; cbn; intros Hn Hreg; [constructor|].
    apply NoDup_cons in Hn as [Hd Hn].
    assert (NoDup (omap entry l).*1) as IH'.
    { apply IH; [done|]. intros d' v' Hd'. apply (Hreg d' v'). by right. }
    destruct (entry (d, ov)) as [[k' v']|] eqn:E; [|done].
    unfold entry in E. cbn in E. destruct (Z.even d) eqn:He; [done|].
    destruct ov as [v''|]; cbn in E; [|done]. simplify_eq. cbn. constructor; [|done].
    intros ([k2 v2] & E2 & ([d2 ov2] & Hin & Ho)%list_elem_of_omap)%list_elem_of_fmap.
    unfold entry in Ho. cbn in E2, Ho. destruct (Z.even d2) eqn:He2; [done|].
    destruct ov2 as [v3|]; cbn in Ho; [|done]. simplify_eq.
    destruct (Hreg d v') as [k1 ->]; [by left|done|].
    destruct (Hreg d2 v2) as [k2 ->]; [by right|done|].
    match goal with E : decode _ = decode _ |- _ => rewrite !decode_regular in E; rename E into E3 end.
    apply Hd. apply list_elem_of_fmap. exists (reverseRegularKey k2, Some v2).
    split; [|done]. cbn. by rewrite <- (HashTable.norm_regular k1), <- E3, HashTable.norm_regular. }
  rewrite <- elem_of_list_to_map by done. rewrite list_elem_of_omap. split.
  - intros ([d ov] & Hin & E). unfold entry in E. cbn in E. destruct (Z.even d) eqn:He; [done|].
    destruct ov as [v'|]; cbn in E; [|done]. simplify_eq.
    destruct (Hreg d v Hin He) as [k' ->].
    match goal with E' : decode _ = norm _ |- _ => rewrite decode_regular in E'; rename E' into E3 end.
    apply elem_of_map_to_list in Hin. by rewrite <- (HashTable.norm_regular k), <- E3, HashTable.norm_regular.
  - intros Hk. exists (reverseRegularKey k, Some v). rewrite elem_of_map_to_list. split; [done|].
    unfold entry. cbn. by rewrite regular_odd, decode_regular.
Qed.

Lemma table_map_some m j v : table_map m !! j = Some v → norm j = j.
Proof.
  intros Hj. apply elem_of_list_to_map_2 in Hj.
  apply list_elem_of_omap in Hj as ([d ov] & _ & E). unfold entry in E. cbn in E.
  destruct (Z.even d); [done|]. destruct ov; cbn in E; [|done]. simplify_eq.
  unfold decode, norm. apply Zmod_mod.
Qed.

(** Two maps of the table are the same when they agree on the keys there are. *)
Lemma table_ext m (M : gmap Z Z) :
  (∀ j v, M !! j = Some v → norm j = j) → (∀ k, table_map m !! norm k = M !! norm k) → table_map m = M.
Proof.
  intros HM Hk. apply map_eq. intros j. destruct (decide (norm j = j)) as [<-|Hne]; [by apply Hk|].
  transitivity (@None Z); [|symmetry]; apply eq_None_not_Some; intros [v Hv]; apply Hne;
    [by eapply table_map_some|by eapply HM].
Qed.

Lemma table_map_eq m m' k k' :
  table_list m → table_list m' → m' !! reverseRegularKey k' = m !! reverseRegularKey k →
  table_map m' !! norm k' = table_map m !! norm k.
Proof. intros Hm Hm' E. apply option_eq. intros v. by rewrite !table_map_lookup, E. Qed.

Lemma norm_ne k k' : reverseRegularKey k ≠ reverseRegularKey k' ↔ norm k ≠ norm k'.
Proof. unfold norm. by rewrite HashTable.regular_eq. Qed.

Lemma table_list_insert m k v :
  table_list m → table_list (<[reverseRegularKey k := Some v]> m).
Proof.
  intros Hm d ov. rewrite lookup_insert_Some. intros [[<- <-]|[_ ?]]; [right; eauto|by apply Hm].
Qed.

Lemma table_list_delete m d : table_list m → table_list (delete d m).
Proof. intros Hm d' ov [_ ?]%lookup_delete_Some. by apply Hm. Qed.

Lemma table_list_dummy m b :
  (0 ≤ b < 2 ^ 31)%Z → table_list m → table_list (<[reverseDummyKey b := None]> m).
Proof.
  intros Hb Hm d ov. rewrite lookup_insert_Some. intros [[<- <-]|[_ ?]]; [|by apply Hm].
  left. by apply dummy_even.
Qed.

Lemma table_map_insert m k v :
  table_list m → table_map (<[reverseRegularKey k := Some v]> m) = <[norm k := v]> (table_map m).
Proof.
  intros Hm. pose proof (table_list_insert m k v Hm) as Hm'. apply table_ext.
  - intros j w. rewrite lookup_insert_Some. intros [[<- _]|[_ ?]]; [apply Zmod_mod|by eapply table_map_some].
  - intros j. destruct (decide (norm j = norm k)) as [E|Hne].
    + rewrite E, lookup_insert_eq. by rewrite table_map_lookup, lookup_insert_eq.
    + rewrite lookup_insert_ne by done. apply table_map_eq; [done|done|].
      apply lookup_insert_ne, norm_ne. by apply not_eq_sym.
Qed.

Lemma table_map_delete m k :
  table_list m → table_map (delete (reverseRegularKey k) m) = delete (norm k) (table_map m).
Proof.
  intros Hm. pose proof (table_list_delete m (reverseRegularKey k) Hm) as Hm'. apply table_ext.
  - intros j w [_ ?]%lookup_delete_Some. by eapply table_map_some.
  - intros j. destruct (decide (norm j = norm k)) as [E|Hne].
    + rewrite E, lookup_delete_eq. apply eq_None_not_Some. intros [v Hv].
      apply table_map_lookup in Hv; [|done]. by rewrite lookup_delete_eq in Hv.
    + rewrite lookup_delete_ne by done. apply table_map_eq; [done|done|].
      apply lookup_delete_ne, norm_ne. by apply not_eq_sym.
Qed.

Lemma table_map_dummy m b :
  (0 ≤ b < 2 ^ 31)%Z → table_list m → table_map (<[reverseDummyKey b := None]> m) = table_map m.
Proof.
  intros Hb Hm. apply table_ext; [by intros; eapply table_map_some|]. intros k.
  apply table_map_eq; [done|by apply table_list_dummy|].
  apply lookup_insert_ne. by apply HashTable.dummy_not_regular.
Qed.

(** ** What a call of the list does to the map of the table *)

Definition conv (r : ListLin.result) : result :=
  match r with ListLin.RBool b => HashTable.RBool b | ListLin.RFind v => HashTable.RFind v end.

Lemma list_apply_table o m r m' :
  table_list m → ListLin.list_apply (list_op o) m = (r, m') →
  table_list m' ∧ HashTable.map_perform o (table_map m) = (conv r, table_map m').
Proof.
  intros Hm E.
  assert (∀ k, m !! reverseRegularKey k = Some <$> (table_map m !! norm k)) as Hl.
  { intros k. destruct (m !! reverseRegularKey k) as [ov|] eqn:Ek.
    - destruct (Hm _ _ Ek) as [He|(k' & v & _ & ->)]; [by rewrite regular_odd in He|].
      by rewrite (proj2 (table_map_lookup m k v Hm) Ek).
    - destruct (table_map m !! norm k) as [v|] eqn:Ev; [|done].
      apply table_map_lookup in Ev; [congruence|done]. }
  destruct o as [k v|k|k]; cbn in E |- *; rewrite Hl in E; destruct (table_map m !! norm k) eqn:Ek;
    cbn in E; simplify_eq; cbn.
  - done.
  - split; [by apply table_list_insert|]. by rewrite table_map_insert.
  - split; [by apply table_list_delete|]. by rewrite table_map_delete.
  - split; [done|]. by rewrite delete_id.
  - done.
  - done.
Qed.

Lemma list_apply_dummy b m r m' :
  (0 ≤ b < 2 ^ 31)%Z → table_list m →
  ListLin.list_apply (LockFreeList.Insert (reverseDummyKey b) None) m = (r, m') →
  table_list m' ∧ table_map m' = table_map m.
Proof.
  intros Hb Hm E. cbn in E. destruct (m !! reverseDummyKey b); simplify_eq; [done|].
  split; [by apply table_list_dummy|by apply table_map_dummy].
Qed.

(** ** Well-formed states *)

Abbreviation lnodes s := (LockFreeList.nodes (lockfreelist_ s)).
Abbreviation lthread s t := (LockFreeList.threads (lockfreelist_ s) t).

(** [t] makes no call of the list, or makes one. *)
Definition rests (s : state) (t : nat) : Prop := LockFreeList.at_ (lthread s t) = LockFreeList.Idle.

(** The node at [a] is the dummy node of bucket [b]. *)
Definition dummy_node (s : state) (b : Z) (a : nat) : Prop :=
  ∃ n, lnodes s !! a = Some n ∧ LockFreeList.data n = reverseDummyKey b.

(** The bucket points to a node. *)
Definition has (s : state) (b : Z) : Prop := ∃ a, bucket_at b s = Some (Some a).

Definition len (s : state) : Z := Z.of_nat (length (buckets_ s)).

(** [b] is the bucket of key [k] in a table of some size there was. *)
Definition bucket_for (s : state) (k b : Z) : Prop :=
  (∃ j, (0 ≤ j ≤ 31)%Z ∧ b = (k mod 2 ^ j)%Z) ∧ (b < len s)%Z.

(** [initialize_bucket(b)] was called for the bucket of [k], through [callers]. *)
Fixpoint calls_ok (s : state) (k b : Z) (callers : list Z) : Prop :=
  (0 < b < 2 ^ 31)%Z ∧ (b < len s)%Z ∧
  match callers with
  | [] => bucket_for s k b
  | b' :: callers => getParent b' = b ∧ calls_ok s k b' callers
  end.

(** [csize] was the size at some time. *)
Definition csize_ok (s : state) (c : Z) : Prop :=
  (0 ≤ c)%Z ∧ ((c ≤ size_ s)%Z ∨ size_ s = 0%Z) ∧ (c = 0%Z → size_ s = 0%Z).

(** While the size is still [c], the vector has [n] elements. *)
Definition room (s : state) (c n : Z) : Prop := csize_ok s c ∧ c ≠ 0%Z ∧ (size_ s = c → (n ≤ len s)%Z).

Definition pc_ok (s : state) (t : nat) (k : Z) (c : pc) : Prop :=
  match c with
  | Idle | ReadSize | ReadCsize | SubCount | Returned _ => rests s t
  | TestBucket b => rests s t ∧ bucket_for s k b
  | TestParent b cs => rests s t ∧ calls_ok s k b cs
  | StartDummy b cs => rests s t ∧ calls_ok s k b cs ∧ has s (getParent b)
  | InsertDummy b cs =>
    ¬ rests s t ∧ calls_ok s k b cs ∧
    LockFreeList.oper (lthread s t) = LockFreeList.Insert (reverseDummyKey b) None
  | StoreBucket b cs a => rests s t ∧ calls_ok s k b cs ∧ dummy_node s b a
  | StartOp b => rests s t ∧ bucket_for s k b ∧ has s b
  | InList =>
    ¬ rests s t ∧
    let o := list_op (call (threads s t)) in
    (LockFreeList.oper (lthread s t) = o ∨
     ∃ d, o = LockFreeList.Remove d ∧ LockFreeList.oper (lthread s t) = LockFreeList.Cleanup d)
  | AddCount c | TestLoad c => rests s t ∧ csize_ok s c
  | PushTest c i | PushBack c i => rests s t ∧ (0 ≤ i)%Z ∧ room s c (c + i)
  | GrowSize c => rests s t ∧ room s c (u32 (2 * c))
  end.

Definition thread_ok (s : state) (t : nat) : Prop :=
  pc_ok s t (data_of (call (threads s t))) (at_ (threads s t)).

(** The shared members: the list is in a state its threads lead to; the size is a
    power of two, or has wrapped around, and is not above the vector's length;
    a bucket that is not [NULL] points to its dummy node, as bucket 0 does. *)
Record shared_ok (s : state) : Prop := {
  ok_list : ∃ J es, run ListLin.list_apply LockFreeList.init (lockfreelist_ s) J es;
  ok_map : table_list (ListLin.contents (lnodes s));
  ok_size : (∃ j, (1 ≤ j ≤ 31)%Z ∧ size_ s = (2 ^ j)%Z) ∨ size_ s = 0%Z;
  ok_factor : loadFactor_ s = 10%Z;
  ok_len : (size_ s ≤ len s)%Z;
  ok_buckets : ∀ b a, buckets_ s !! b = Some (Some a) → dummy_node s (Z.of_nat b) a;
  ok_first : has s 0
}.

Definition ok (s : state) : Prop := shared_ok s ∧ ∀ t, thread_ok s t.

(** ** What stays true when other threads move *)

Record extends (s s' : state) : Prop := {
  x_nodes : ∀ a n, lnodes s !! a = Some n → ∃ n',
    lnodes s' !! a = Some n' ∧ LockFreeList.data n' = LockFreeList.data n;
  x_len : length (buckets_ s) ≤ length (buckets_ s');
  x_has : ∀ b, has s b → has s' b;
  x_size : size_ s' = size_ s ∨ size_ s ≠ 0%Z ∧ (size_ s' = 0%Z ∨ (size_ s < size_ s')%Z)
}.

Section extends.
Context {s s' : state} (Hx : extends s s').

Lemma len_extends : (len s ≤ len s')%Z.
Proof. unfold len. pose proof (x_len _ _ Hx). lia. Qed.

Lemma dummy_extends b a : dummy_node s b a → dummy_node s' b a.
Proof.
  intros (n & Hn & Hd). destruct (x_nodes _ _ Hx a n Hn) as (n' & Hn' & E).
  exists n'. by rewrite E.
Qed.

Lemma bucket_for_extends k b : bucket_for s k b → bucket_for s' k b.
Proof. intros [Hj Hb]. split; [done|]. pose proof len_extends. lia. Qed.

Lemma calls_extends k cs : ∀ b, calls_ok s k b cs → calls_ok s' k b cs.
Proof.
  pose proof len_extends. induction cs as [|b' cs IH]; intros b (H1 & H2 & H3); cbn.
  - split_and!; [lia..|by apply bucket_for_extends].
  - destruct H3 as [E H3]. split_and!; [lia..|done|by apply IH].
Qed.

Lemma csize_extends c : csize_ok s c → csize_ok s' c.
Proof. unfold csize_ok. pose proof (x_size _ _ Hx). lia. Qed.

Lemma room_extends c n : room s c n → room s' c n.
Proof.
  intros (H1 & H2 & H3). split_and!; [by apply csize_extends|done|]. intros E.
  pose proof len_extends. pose proof (x_size _ _ Hx). unfold csize_ok in H1.
  assert (size_ s = c) as Es by lia. specialize (H3 Es). lia.
Qed.

Lemma pc_ok_extends t k c :
  lthread s' t = lthread s t → c ≠ InList ∨ call (threads s' t) = call (threads s t) →
  pc_ok s t k c → pc_ok s' t k c.
Proof.
  intros El Et. assert (rests s' t ↔ rests s t) as Hr by (unfold rests; by rewrite El).
  destruct c; cbn; rewrite ?Hr, ?El; try done;
    try (destruct Et as [Et|Et]; [done|by rewrite Et]);
    intuition (eauto using bucket_for_extends, calls_extends, csize_extends, room_extends,
                 dummy_extends, x_has).
Qed.

Lemma thread_ok_extends t :
  threads s' t = threads s t → lthread s' t = lthread s t → thread_ok s t → thread_ok s' t.
Proof.
  intros Et El. unfold thread_ok. rewrite Et. apply pc_ok_extends; [done|]. right. by rewrite Et.
Qed.
End extends.

Lemma ok_step_of t s s' :
  ok s → extends s s' → shared_ok s' → (∀ u, u ≠ t → threads s' u = threads s u) →
  (∀ u, u ≠ t → lthread s' u = lthread s u) → thread_ok s' t → ok s'.
Proof.
  intros [_ Ht] Hx Hs Hth Hl Hok. split; [done|]. intros u. destruct (decide (u = t)) as [->|Hne]; [done|].
  apply (thread_ok_extends Hx); [by apply Hth|by apply Hl|done].
Qed.

Lemma extends_same s s' :
  lockfreelist_ s' = lockfreelist_ s → buckets_ s' = buckets_ s → size_ s' = size_ s → extends s s'.
Proof.
  intros El Eb Es. split; rewrite ?El, ?Eb; [eauto|done| |by left].
  intros b. unfold has, bucket_at. by rewrite Eb.
Qed.

(** A step that only moves the thread, or changes the counter. *)
Lemma ok_local t s c n :
  ok s → pc_ok s t (data_of (call (threads s t))) c → c ≠ InList → ok (goto t c (set_count n s)).
Proof.
  intros Hok Hc Hne. assert (extends s (goto t c (set_count n s))) as Hx by by apply extends_same.
  eapply (ok_step_of t s); [done|done| |by intros u Hu; cbn; rewrite upd_ne|done|].
  - destruct (proj1 Hok) as [? ? ? ? ? ? ?]. by split.
  - unfold thread_ok. cbn. rewrite upd_eq. by apply (pc_ok_extends Hx); [|left|].
Qed.

Lemma ok_goto t s c :
  ok s → pc_ok s t (data_of (call (threads s t))) c → c ≠ InList → ok (goto t c s).
Proof. intros Hok Hc Hne. by apply (ok_local t s c (count_ s)). Qed.

(** ** Steps keep states well-formed *)

Lemma table_size_bounds s : shared_ok s → (0 ≤ size_ s ≤ 2 ^ 31)%Z ∧ (size_ s ≠ 0 → 2 ≤ size_ s)%Z.
Proof.
  intros Hs. destruct (ok_size _ Hs) as [(j & Hj & ->)| ->]; [|lia].
  assert (2 ^ 1 ≤ 2 ^ j)%Z by (apply Z.pow_le_mono_r; lia).
  assert (2 ^ j ≤ 2 ^ 31)%Z by (apply Z.pow_le_mono_r; lia). lia.
Qed.

Lemma ok_ReadSize t s :
  ok s → at_ (threads s t) = ReadSize → size_ s ≠ 0%Z →
  ok (goto t (TestBucket (data_of (call (threads s t)) mod size_ s)) s).
Proof.
  intros Hok Hat Hz. pose proof Hok as [Hs Ht]. apply ok_goto; [done| |done].
  specialize (Ht t). unfold thread_ok in Ht. rewrite Hat in Ht. split; [done|].
  destruct (table_size_bounds s Hs) as [Hb Hb2]. pose proof (ok_len _ Hs). split.
  - destruct (ok_size _ Hs) as [(j & Hj & Ej)|]; [|done]. exists j. rewrite Ej. split; [lia|done].
  - pose proof (Z.mod_pos_bound (data_of (call (threads s t))) (size_ s)). lia.
Qed.

Lemma bucket_pos s k b : shared_ok s → bucket_for s k b → bucket_at b s = Some None →
  calls_ok s k b [].
Proof.
  intros Hs [(j & Hj & Eb) Hl] Hn. assert (b ≠ 0%Z) as Hz.
  { intros ->. destruct (ok_first _ Hs) as [a Ha]. congruence. }
  pose proof (bucket_range k j Hj). cbn. split_and!; [lia|lia|lia|]. split; [by exists j|lia].
Qed.

Lemma calls_range s k b cs : calls_ok s k b cs → (0 < b < 2 ^ 31)%Z ∧ (b < len s)%Z.
Proof. by destruct cs; intros (? & ? & _). Qed.

Lemma ok_TestBucket t s b p :
  ok s → at_ (threads s t) = TestBucket b → bucket_at b s = Some p →
  ok (goto t (match p with None => initialize_bucket b [] | Some _ => StartOp b end) s).
Proof.
  intros Hok Hat Hp. pose proof Hok as [Hs Ht]. specialize (Ht t). unfold thread_ok in Ht.
  rewrite Hat in Ht. destruct Ht as [Hr Hb]. destruct p as [a|].
  - apply ok_goto; [done| |done]. split_and!; [done|done|by exists a].
  - pose proof (bucket_pos s _ b Hs Hb Hp) as Hc. unfold initialize_bucket.
    destruct (calls_range _ _ _ _ Hc). rewrite decide_True by lia. by apply ok_goto.
Qed.

Lemma ok_TestParent t s b cs p :
  ok s → at_ (threads s t) = TestParent b cs → bucket_at (getParent b) s = Some p →
  ok (goto t (match p with
              | None => initialize_bucket (getParent b) (b :: cs)
              | Some _ => StartDummy b cs
              end) s).
Proof.
  intros Hok Hat Hp. pose proof Hok as [Hs Ht]. specialize (Ht t). unfold thread_ok in Ht.
  rewrite Hat in Ht. destruct Ht as [Hr Hc]. destruct (calls_range _ _ _ _ Hc) as [Hb Hl].
  destruct (parent_range b Hb) as [Hpr Hpr2]. destruct p as [a|].
  - apply ok_goto; [done| |done]. split_and!; [done|done|by exists a].
  - assert (getParent b ≠ 0%Z) as Hz.
    { intros E. rewrite E in Hp. destruct (ok_first _ Hs) as [a Ha]. congruence. }
    unfold initialize_bucket. rewrite decide_True by lia. apply ok_goto; [done| |done].
    split; [done|]. cbn. split_and!; [lia|lia|lia|done|done].
Qed.

Lemma ok_StoreBucket t s b cs a :
  ok s → at_ (threads s t) = StoreBucket b cs a → 
  ok (goto t (match cs with [] => StartOp b | b' :: cs => StartDummy b' cs end)
        (set_buckets (<[Z.to_nat b := Some a]> (buckets_ s)) s)).
Proof.
  intros Hok Hat. pose proof Hok as [Hs Ht]. specialize (Ht t). unfold thread_ok in Ht.
  rewrite Hat in Ht. destruct Ht as (Hr & Hc & Hd). destruct (calls_range _ _ _ _ Hc) as [Hb Hl].
  set (s1 := goto t _ _).
  assert (extends s s1) as Hx.
  { split; cbn; [eauto|by rewrite length_insert| |by left].
    intros b' [a' Ha']. unfold has, bucket_at in *. cbn.
    destruct (decide (Z.to_nat b' = Z.to_nat b)) as [->|Hne].
    - exists a. apply list_lookup_insert_eq. unfold len in Hl. lia.
    - exists a'. by rewrite list_lookup_insert_ne. }
  assert (has s1 b) as Hh.
  { exists a. apply list_lookup_insert_eq. unfold len in Hl. lia. }
  eapply (ok_step_of t s); [done|done| |by intros u Hu; cbn; rewrite upd_ne|done|].
  - destruct Hs as [? ? ? ? Hle Hbk Hf]. split; cbn; try done.
    + unfold len in *. cbn. by rewrite length_insert.
    + intros b' a' Hb'. destruct (decide (b' = Z.to_nat b)) as [->|Hne].
      * rewrite list_lookup_insert_eq in Hb' by (unfold len in Hl; lia). simplify_eq.
        rewrite Z2Nat.id by lia. done.
      * rewrite list_lookup_insert_ne in Hb' by done. by apply Hbk.
    + by apply (x_has _ _ Hx).
  - unfold thread_ok. cbn. rewrite upd_eq.
    apply (calls_extends Hx) in Hc. assert (rests s1 t) as Hr1 by exact Hr.
    destruct cs as [|b' cs]; cbn in Hc |- *.
    + destruct Hc as (_ & _ & Hc). by split_and!.
    + destruct Hc as (_ & _ & E & Hc). rewrite E. by split_and!.
Qed.

Lemma ok_PushBack t s c i :
  ok s → at_ (threads s t) = PushBack c i →
  ok (goto t (PushTest c (i + 1)) (set_buckets (buckets_ s ++ [None]) s)).
Proof.
  intros Hok Hat. pose proof Hok as [Hs Ht]. specialize (Ht t). unfold thread_ok in Ht.
  rewrite Hat in Ht. destruct Ht as (Hr & Hi & Hc & Hz & Hroom).
  set (s1 := goto t _ _).
  assert (extends s s1) as Hx.
  { split; cbn; [eauto|rewrite length_app; lia| |by left].
    intros b' [a' Ha']. exists a'. unfold bucket_at in *. cbn.
    rewrite lookup_app_l; [done|]. by apply lookup_lt_Some in Ha'. }
  assert (len s1 = len s + 1)%Z as El by (unfold len; cbn; rewrite length_app; cbn; lia).
  eapply (ok_step_of t s); [done|done| |by intros u Hu; cbn; rewrite upd_ne|done|].
  - destruct Hs as [? ? ? ? Hle Hbk Hf]. split; try done; [rewrite El; cbn; lia| |by apply (x_has _ _ Hx)].
    cbn. intros b' a' Hb'. apply lookup_app_Some in Hb' as [Hb'|[_ Hb']]; [by apply Hbk|].
    by apply list_lookup_singleton_Some in Hb' as [_ ?].
  - unfold thread_ok. cbn. rewrite upd_eq. split_and!; [done|lia|]. split_and!; [done|done|].
    intros E. rewrite El. specialize (Hroom E). lia.
Qed.

Lemma ok_GrowSize t s c r :
  ok s → at_ (threads s t) = GrowSize c →
  ok (goto t (Returned r) (if decide (size_ s = c) then set_size (u32 (2 * c)) s else s)).
Proof.
  intros Hok Hat. pose proof Hok as [Hs Ht]. specialize (Ht t). unfold thread_ok in Ht.
  rewrite Hat in Ht. destruct Ht as (Hr & Hc & Hz & Hroom).
  case_decide as E; [|by apply ok_goto]. subst c. specialize (Hroom eq_refl).
  assert (∃ j, (1 ≤ j ≤ 31)%Z ∧ size_ s = (2 ^ j)%Z) as (j & Hj & Ej).
  { by destruct (ok_size _ Hs). }
  assert ((j < 31)%Z ∧ u32 (2 * size_ s) = (2 ^ (j + 1))%Z ∨ u32 (2 * size_ s) = 0%Z) as Hn.
  { rewrite Ej. destruct (decide (j = 31%Z)) as [->|]; [by right|left]. split; [lia|].
    rewrite Z.add_comm, Z.pow_add_r by lia. apply HashTable.u32_id.
    assert (2 ^ j ≤ 2 ^ 30)%Z by (apply Z.pow_le_mono_r; lia). lia. }
  assert (extends s (goto t (Returned r) (set_size (u32 (2 * size_ s)) s))) as Hx.
  { split; cbn; [eauto|done|done|]. right. split; [done|].
    destruct Hn as [[Hj' ->]| ->]; [right|by left]. rewrite Ej. apply Z.pow_lt_mono_r; lia. }
  eapply (ok_step_of t s); [done|done| |by intros u Hu; cbn; rewrite upd_ne|done|].
  - destruct Hs as [? ? ? ? Hle Hbk Hf]. split; try done; cbn.
    destruct Hn as [[Hj' ->]| ->]; [left|by right]. exists (j + 1)%Z. split; [lia|done].
  - unfold thread_ok. cbn. by rewrite upd_eq.
Qed.

Lemma ok_PushTest t s c i :
  ok s → at_ (threads s t) = PushTest c i →
  ok (goto t (if decide (i < to_int (size_ s))%Z then PushBack c i else GrowSize c) s).
Proof.
  intros Hok Hat. pose proof Hok as [Hs Ht]. specialize (Ht t). unfold thread_ok in Ht.
  rewrite Hat in Ht. destruct Ht as (Hr & Hi & Hc & Hz & Hroom). case_decide as E.
  - by apply ok_goto.
  - apply ok_goto; [done| |done]. split; [done|]. split_and!; [done|done|]. intros <-.
    specialize (Hroom eq_refl). destruct (table_size_bounds s Hs) as [Hb _].
    destruct (ok_size _ Hs) as [(j & Hj & Ej)|]; [|done].
    destruct (decide (j = 31%Z)) as [->|Hne].
    + rewrite Ej. change (u32 (2 * 2 ^ 31)) with 0%Z. pose proof (ok_len _ Hs). lia.
    + assert (2 ^ j ≤ 2 ^ 30)%Z by (apply Z.pow_le_mono_r; lia).
      rewrite HashTable.u32_id by lia. rewrite HashTable.to_int_small in E by lia. lia.
Qed.

(** *** Steps of the list *)

Lemma list_sound s :
  shared_ok s → ∃ J wi wo, ListLin.sound (lockfreelist_ s) J wi wo ∧
    LockFreeList.Inv (lockfreelist_ s) wi wo.
Proof.
  intros Hs. destruct (ok_list _ Hs) as (J & es & Hr).
  destruct (ListLin.run_sound _ _ _ Hr) as (wi & wo & Hso). exists J, wi, wo.
  split; [done|]. apply LockFreeList.Inv_reach, Hso.
Qed.

Lemma list_run_step s ll l' :
  shared_ok s → LockFreeList.step ll (lockfreelist_ s) = Some l' →
  ∃ J es, run ListLin.list_apply LockFreeList.init l' J es.
Proof.
  intros Hs Hl. destruct (ok_list _ Hs) as (J & es & Hr).
  eexists _, _. by eapply (run_step ListLin.list_apply _ ll).
Qed.

(** What the threads of the table ask of the list. *)
Definition busy_ok (s : state) (t : nat) : Prop :=
  (∃ o, LockFreeList.oper (lthread s t) = list_op o) ∨
  (∃ d, LockFreeList.oper (lthread s t) = LockFreeList.Cleanup d) ∨
  (∃ b, (0 ≤ b < 2 ^ 31)%Z ∧ LockFreeList.oper (lthread s t) = LockFreeList.Insert (reverseDummyKey b) None).

(** The list keeps dummy nodes, and regular ones with a value. *)
Lemma list_go_table t s l :
  shared_ok s → busy_ok s t → LockFreeList.step (LockFreeList.Go t) (lockfreelist_ s) = Some l →
  table_list (ListLin.contents (LockFreeList.nodes l)).
Proof.
  intros Hs Hb Hl. destruct (list_sound s Hs) as (J & wi & wo & Hso & HI).
  pose proof (LockFreeList.Inv_reach _ _ _ (LockFreeList.reach_step _ _ _ _ _
    (ListLin.so_reach _ _ _ _ Hso) Hl)) as HI'.
  pose proof (ok_map _ Hs) as Hm.
  destruct (ListLin.go_change t _ l _ _ _ _ HI HI' Hl) as [E _ _ _|r new Hp Ha _ _ _|res f _ ->];
    [by rewrite E| |done].
  destruct Hb as [[o Eo]|[[d Eo]|(b & Hb & Eo)]].
  - rewrite Eo in Ha. by eapply list_apply_table.
  - apply ListLin.phase_running in Hp as E. unfold ListLin.phase_of in Hp. rewrite Eo in Hp.
    by destruct (LockFreeList.at_ _) as [| | | | | | | | | |[] ?].
  - rewrite Eo in Ha. by eapply list_apply_dummy.
Qed.

Lemma shared_set_list s l :
  shared_ok s → (∃ J es, run ListLin.list_apply LockFreeList.init l J es) →
  table_list (ListLin.contents (LockFreeList.nodes l)) →
  (∀ a n, lnodes s !! a = Some n → ∃ n',
    LockFreeList.nodes l !! a = Some n' ∧ LockFreeList.data n' = LockFreeList.data n) →
  shared_ok (set_list l s) ∧ extends s (set_list l s).
Proof.
  intros Hs Hr Hm Hn. assert (extends s (set_list l s)) as Hx by by split; [exact Hn|..|left].
  split; [|done]. destruct Hs as [? ? ? ? Hle Hbk Hf]. split; try done.
  intros b a Hb. by apply (dummy_extends Hx), Hbk.
Qed.

Lemma shared_goto t c s : shared_ok s → shared_ok (goto t c s).
Proof. intros [? ? ? ? ? ? ?]. by split. Qed.

Lemma list_go_shared t s l :
  shared_ok s → busy_ok s t → LockFreeList.step (LockFreeList.Go t) (lockfreelist_ s) = Some l →
  shared_ok (set_list l s) ∧ extends s (set_list l s).
Proof.
  intros Hs Hb Hl. apply shared_set_list; [done|by eapply list_run_step|by eapply list_go_table|].
  destruct (list_sound s Hs) as (J & wi & wo & Hso & HI).
  pose proof (LockFreeList.Inv_reach _ _ _ (LockFreeList.reach_step _ _ _ _ _
    (ListLin.so_reach _ _ _ _ Hso) Hl)) as HI'.
  destruct (ListLin.step_evolves _ _ _ _ _ _ _ HI HI' Hl) as [new [Hev _]].
  intros a n Hn. destruct (Hev a n Hn) as (n' & ? & ? & _). eauto.
Qed.

(** The call of the list, from its call to its return. *)
Lemma ok_call_list t s o start c s' :
  ok s → call_list t o start c s = Some s' →
  (c = InList ∧ o = list_op (call (threads s t)) ∨
   ∃ b cs, c = InsertDummy b cs ∧ o = LockFreeList.Insert (reverseDummyKey b) None ∧
           calls_ok s (data_of (call (threads s t))) b cs) → ok s'.
Proof.
  intros Hok Hc Hcases. pose proof Hok as [Hs Ht]. unfold call_list in Hc.
  destruct (LockFreeList.step _ _) as [l|] eqn:Hl; cbn in Hc; [|done]. simplify_eq.
  pose proof (list_run_step _ _ _ Hs Hl) as Hrun. cbn in Hl.
  destruct (LockFreeList.at_ (lthread s t)); try done.
  destruct (LockFreeList.callable _ _ _); [|done]. injection Hl as <-.
  match type of Hrun with context [run _ _ ?l _ _] => set (l1 := l) in * end.
  destruct (shared_set_list s l1 Hs Hrun) as [Hs1 Hx]; [exact (ok_map _ Hs)|cbn; eauto|].
  eapply (ok_step_of t s); [done| |by apply shared_goto|..].
  - destruct Hx as [? ? ? ?]. by split.
  - intros u Hu. cbn. by rewrite upd_ne.
  - intros u Hu. cbn. by rewrite upd_ne.
  - unfold thread_ok. cbn. rewrite upd_eq. cbn.
    destruct Hcases as [[-> ->]|(b & cs & -> & -> & Hb)]; cbn; unfold rests; cbn;
      rewrite !upd_eq; cbn; [by auto|]. split_and!; [done| |done].
    eapply calls_extends; [|exact Hb]. by destruct Hx; split.
Qed.

Lemma busy_InList s t :
  thread_ok s t → at_ (threads s t) = InList → busy_ok s t.
Proof.
  intros Ht Hat. unfold thread_ok in Ht. rewrite Hat in Ht. destruct Ht as [_ [E|(d & _ & E)]].
  - left. eauto.
  - right. left. eauto.
Qed.

Lemma busy_InsertDummy s t b cs :
  thread_ok s t → at_ (threads s t) = InsertDummy b cs → busy_ok s t.
Proof.
  intros Ht Hat. unfold thread_ok in Ht. rewrite Hat in Ht. destruct Ht as (_ & Hc & E).
  right. right. exists b. apply calls_range in Hc. split; [lia|done].
Qed.

(** A step inside a call of the list that goes on. *)
Lemma ok_in_list t s l :
  ok s → (at_ (threads s t) = InList ∨ ∃ b cs, at_ (threads s t) = InsertDummy b cs) →
  LockFreeList.step (LockFreeList.Go t) (lockfreelist_ s) = Some l →
  (∀ res f, LockFreeList.at_ (lthread s t) ≠ LockFreeList.Done res f) → ok (set_list l s).
Proof.
  intros Hok Hat Hl Hnd. pose proof Hok as [Hs Ht]. specialize (Ht t).
  assert (busy_ok s t) as Hb.
  { destruct Hat as [?|(b & cs & ?)]; [by apply busy_InList|by eapply busy_InsertDummy]. }
  destruct (list_go_shared t s l Hs Hb Hl) as [Hs1 Hx].
  destruct (list_sound s Hs) as (J & wi & wo & _ & HI).
  destruct (ListLin.go_stays t _ l _ _ HI Hl Hnd) as [Hni Hop].
  eapply (ok_step_of t s); [done|done|done|done| |].
  { intros u Hu. cbn. by eapply ListLin.go_others. }
  unfold thread_ok in *. cbn. destruct Hat as [Hat|(b & cs & Hat)]; rewrite Hat in Ht |- *; cbn in *.
  - destruct Ht as [_ Ho]. split; [exact Hni|].
    destruct Ho as [Ho|(d & Ho & Ho2)]; destruct Hop as [E|(d' & E1 & E2)]; rewrite ?E; eauto.
    + right. exists d'. by rewrite <- Ho.
    + congruence.
  - destruct Ht as (_ & Hc & Ho). split_and!; [exact Hni|by eapply (calls_extends Hx)|].
    destruct Hop as [E|(d' & E1 & E2)]; [by rewrite E|congruence].
Qed.

(** The return of a call of the list. *)
Lemma ok_list_return t s l c res found :
  ok s → (at_ (threads s t) = InList ∨ ∃ b cs, at_ (threads s t) = InsertDummy b cs) →
  LockFreeList.step (LockFreeList.Go t) (lockfreelist_ s) = Some l →
  LockFreeList.at_ (lthread s t) = LockFreeList.Done res found →
  (∀ s', rests s' t → extends s s' → pc_ok s' t (data_of (call (threads s t))) c) →
  ok (goto t c (set_list l s)).
Proof.
  intros Hok Hat Hl Hd Hpc. pose proof Hok as [Hs Ht]. specialize (Ht t).
  assert (busy_ok s t) as Hb.
  { destruct Hat as [?|(b & cs & ?)]; [by apply busy_InList|by eapply busy_InsertDummy]. }
  destruct (list_go_shared t s l Hs Hb Hl) as [Hs1 Hx].
  assert (extends s (goto t c (set_list l s))) as Hx1 by by destruct Hx; split.
  eapply (ok_step_of t s); [done|exact Hx1|by apply shared_goto| | |].
  - intros u Hu. cbn. by rewrite upd_ne.
  - intros u Hu. cbn. by eapply ListLin.go_others.
  - unfold thread_ok. cbn. rewrite upd_eq. apply Hpc; [|done]. unfold rests. cbn.
    cbn in Hl. unfold LockFreeList.go in Hl. rewrite Hd in Hl. simplify_eq. cbn. by rewrite upd_eq.
Qed.

(** The node a call for a dummy node gives. *)
Lemma found_dummy s t b cs res found :
  ok s → at_ (threads s t) = InsertDummy b cs →
  LockFreeList.at_ (lthread s t) = LockFreeList.Done res found →
  ∃ a, found = Some a ∧ dummy_node s b a.
Proof.
  intros [Hs Ht] Hat Hd. specialize (Ht t). unfold thread_ok in Ht. rewrite Hat in Ht.
  destruct Ht as (_ & _ & Ho). destruct (list_sound s Hs) as (J & wi & wo & Hso & _).
  pose proof (ListLin.so_pledge _ _ _ _ Hso t) as Hp. unfold ListLin.pledge in Hp.
  rewrite Hd, Ho in Hp. destruct Hp as (a & n & -> & Hn & Hk & _). exists a. split; [done|].
  exists n. by split.
Qed.

Lemma ok_list_step t s k s' :
  ok s → (at_ (threads s t) = InList ∨ ∃ b cs, at_ (threads s t) = InsertDummy b cs) →
  list_step t k s = Some s' →
  (∀ res found c, LockFreeList.at_ (lthread s t) = LockFreeList.Done res found → k res found = Some c →
     ∀ s', rests s' t → extends s s' → pc_ok s' t (data_of (call (threads s t))) c) → ok s'.
Proof.
  intros Hok Hat Hst Hk. unfold list_step in Hst.
  destruct (LockFreeList.step _ _) as [l|] eqn:Hl; cbn [mbind option_bind] in Hst; [|done].
  destruct (LockFreeList.at_ (lthread s t)) as [| | | | | | | | | |res found] eqn:Hd;
    try (simplify_eq; eapply ok_in_list; [done|done|done|by rewrite Hd]).
  destruct (k res found) as [c|] eqn:Ec; cbn in Hst; [|done]. simplify_eq.
  eapply ok_list_return; eauto.
Qed.

Lemma ok_go t s s' : ok s → go t s = Some s' → ok s'.
Proof.
  intros Hok Hg. unfold go in Hg. pose proof (proj2 Hok t) as Ht. unfold thread_ok in Ht.
  destruct (at_ (threads s t)) as [| |b|b cs|b cs|b cs|b cs a|b| | |c|c|c i|c i|c| |r] eqn:Hat; try done.
  - case_decide; [done|]. simplify_eq. by apply ok_ReadSize.
  - destruct (bucket_at b s) eqn:Hb; cbn in Hg; [|done]. simplify_eq. by apply ok_TestBucket.
  - destruct (bucket_at (getParent b) s) eqn:Hb; cbn in Hg; [|done]. simplify_eq. by apply ok_TestParent.
  - destruct (bucket_at (parent_of b) s) eqn:Hb; cbn in Hg; [|done].
    eapply ok_call_list; [done|exact Hg|right]. exists b, cs. split_and!; [done|done|]. apply Ht.
  - eapply ok_list_step; [done|eauto|exact Hg|]. intros res found c Hd Hk s1 Hr Hx.
    destruct (found_dummy s t b cs res found Hok Hat Hd) as (a & -> & Hn). cbn in Hk. simplify_eq.
    cbn. split_and!; [done|by eapply (calls_extends Hx), Ht|by eapply (dummy_extends Hx)].
  - destruct (bucket_at b s) eqn:Hb; cbn in Hg; [|done]. simplify_eq. by eapply ok_StoreBucket.
  - destruct (bucket_at b s) eqn:Hb; cbn in Hg; [|done].
    eapply ok_call_list; [done|exact Hg|by left].
  - eapply ok_list_step; [done|by left|exact Hg|]. intros res found c Hd Hk s1 Hr Hx. injection Hk as <-.
    unfold outcome. destruct (call (threads s t)), res; exact Hr.
  - simplify_eq. apply ok_goto; [done| |done]. split; [done|]. unfold csize_ok.
    destruct (table_size_bounds s (proj1 Hok)). split_and!; [lia|lia|done].
  - simplify_eq. apply ok_local; [done| |done]. exact Ht.
  - case_decide as Hz; [done|]. simplify_eq. case_decide; apply ok_goto; try done; [|apply Ht].
    destruct Ht as [Hr Hc]. split_and!; [done|done|]. split_and!; [done|done|]. intros <-.
    pose proof (ok_len _ (proj1 Hok)). lia.
  - simplify_eq. by apply ok_PushTest.
  - simplify_eq. by apply ok_PushBack.
  - simplify_eq. by apply ok_GrowSize.
  - simplify_eq. apply ok_local; [done| |done]. exact Ht.
  - simplify_eq. by apply ok_goto.
Qed.

Lemma ok_step l s s' : ok s → step l s = Some s' → ok s'.
Proof.
  intros Hok Hs. destruct l as [t o|t]; cbn in Hs; [|by eapply ok_go].
  destruct (at_ (threads s t)) eqn:Hat; try done. simplify_eq.
  eapply (ok_step_of t s); [done|by apply extends_same| |by intros u Hu; cbn; rewrite upd_ne|done|].
  - destruct (proj1 Hok) as [? ? ? ? ? ? ?]. by split.
  - pose proof (proj2 Hok t) as Ht. unfold thread_ok in Ht |- *. rewrite Hat in Ht. cbn. by rewrite upd_eq.
Qed.

(** *** The constructor *)

Definition who (l : label) : nat := match l with Call t _ | Go t => t end.

(** A step of the table is at most one step of the list, by the same thread. *)
Lemma step_list l s s' :
  step l s = Some s' → lockfreelist_ s' = lockfreelist_ s ∨
  ∃ ll, LockFreeList.step ll (lockfreelist_ s) = Some (lockfreelist_ s') ∧
    match ll with LockFreeList.Call t _ _ | LockFreeList.Go t => t = who l end.
Proof.
  intros Hs. destruct l as [t o|t]; cbn in Hs.
  { destruct (at_ (threads s t)); try done. simplify_eq. by left. }
  assert (∀ o start c s', call_list t o start c s = Some s' →
    ∃ ll, LockFreeList.step ll (lockfreelist_ s) = Some (lockfreelist_ s') ∧
    match ll with LockFreeList.Call u _ _ | LockFreeList.Go u => u = t end) as Hcall.
  { intros o start c s1. unfold call_list.
    destruct (LockFreeList.step _ _) as [l|] eqn:El; cbn; [|done]. intros [= <-].
    exists (LockFreeList.Call t o start). by split. }
  assert (∀ k s', list_step t k s = Some s' →
    ∃ ll, LockFreeList.step ll (lockfreelist_ s) = Some (lockfreelist_ s') ∧
    match ll with LockFreeList.Call u _ _ | LockFreeList.Go u => u = t end) as Hst.
  { intros k s1. unfold list_step. destruct (LockFreeList.step _ _) as [l|] eqn:El; cbn [mbind option_bind]; [|done].
    destruct (LockFreeList.at_ (lthread s t)) as [| | | | | | | | | |res f];
      try (intros [= <-]; by exists (LockFreeList.Go t)).
    destruct (k res f); cbn; [|done]. intros [= <-]. by exists (LockFreeList.Go t). }
  unfold go in Hs.
  destruct (at_ (threads s t)) as [| |b|b cs|b cs|b cs|b cs a|b| | |c|c|c i|c i|c| |r]; try done;
    try (left; simplify_eq; done); try (right; by eapply Hst).
  - case_decide; [done|]. simplify_eq. by left.
  - destruct (bucket_at b s); cbn in Hs; [|done]. simplify_eq. by left.
  - destruct (bucket_at (getParent b) s); cbn in Hs; [|done]. simplify_eq. by left.
  - destruct (bucket_at (parent_of b) s); cbn in Hs; [|done]. right. by eapply Hcall.
  - destruct (bucket_at b s); cbn in Hs; [|done]. simplify_eq. by left.
  - destruct (bucket_at b s); cbn in Hs; [|done]. right. by eapply Hcall.
  - case_decide; [done|]. simplify_eq. by left.
  - left. simplify_eq. by case_decide.
Qed.

Lemma step_threads l s s' u : step l s = Some s' → u ≠ who l → threads s' u = threads s u.
Proof.
  intros Hs Hu. destruct l as [t o|t]; cbn in Hs, Hu.
  { destruct (at_ (threads s t)); try done. simplify_eq. cbn. by rewrite upd_ne. }
  assert (∀ c s1, threads s1 = threads s → threads (goto t c s1) u = threads s u) as Hg.
  { intros c s1 E. cbn. by rewrite upd_ne, E. }
  assert (∀ o start c s', call_list t o start c s = Some s' → threads s' u = threads s u) as Hcall.
  { intros o start c s1. unfold call_list. destruct (LockFreeList.step _ _); cbn; [|done].
    intros [= <-]. cbn. by rewrite upd_ne. }
  assert (∀ k s', list_step t k s = Some s' → threads s' u = threads s u) as Hst.
  { intros k s1. unfold list_step. destruct (LockFreeList.step _ _) as [l|]; cbn [mbind option_bind]; [|done].
    destruct (LockFreeList.at_ (lthread s t)); try (by intros [= <-]).
    destruct (k _ _); cbn; [|done]. intros [= <-]. cbn. by rewrite upd_ne. }
  unfold go in Hs.
  destruct (at_ (threads s t)) as [| |b|b cs|b cs|b cs|b cs a|b| | |c|c|c i|c i|c| |r]; try done;
    try (simplify_eq; by apply Hg); try (by eapply Hst).
  - case_decide; [done|]. simplify_eq. by apply Hg.
  - destruct (bucket_at b s); cbn in Hs; [|done]. simplify_eq. by apply Hg.
  - destruct (bucket_at (getParent b) s); cbn in Hs; [|done]. simplify_eq. by apply Hg.
  - destruct (bucket_at (parent_of b) s); cbn in Hs; [|done]. by eapply Hcall.
  - destruct (bucket_at b s); cbn in Hs; [|done]. simplify_eq. by apply Hg.
  - destruct (bucket_at b s); cbn in Hs; [|done]. by eapply Hcall.
  - case_decide; [done|]. simplify_eq. by apply Hg.
  - simplify_eq. apply Hg. by case_decide.
Qed.

Lemma step_lthreads l s s' u : step l s = Some s' → u ≠ who l → lthread s' u = lthread s u.
Proof.
  intros Hs Hu. destruct (step_list l s s' Hs) as [->|(ll & Hl & Hw)]; [done|].
  eapply ListLin.step_others; [exact Hl|]. destruct ll; cbn; congruence.
Qed.

Lemma exec_frame sched : ∀ s s' u,
  exec step sched s = Some s' → Forall (λ l, who l ≠ u) sched →
  threads s' u = threads s u ∧ lthread s' u = lthread s u.
Proof.
  induction sched as [|l sched IH]; intros s s' u He Hf; cbn in He; [by simplify_eq|].
  destruct (step l s) as [s1|] eqn:Hs; cbn in He; [|done]. apply Forall_cons in Hf as [Hl Hf].
  destruct (IH _ _ _ He Hf) as [-> ->].
  split; [eapply step_threads|eapply step_lthreads]; eauto.
Qed.

Lemma exec_list_run sched : ∀ s s',
  exec step sched s = Some s' →
  (∃ J es, run ListLin.list_apply LockFreeList.init (lockfreelist_ s) J es) →
  ∃ J es, run ListLin.list_apply LockFreeList.init (lockfreelist_ s') J es.
Proof.
  induction sched as [|l sched IH]; intros s s' He Hr; cbn in He; [by simplify_eq|].
  destruct (step l s) as [s1|] eqn:Hs; cbn in He; [|done]. apply (IH s1 s' He).
  destruct (step_list l s s1 Hs) as [->|(ll & Hl & _)]; [done|].
  destruct Hr as (J & es & Hr). eexists _, _. by eapply (run_step ListLin.list_apply _ ll).
Qed.

Lemma make_runs : exec step constructor members = Some make.
Proof. apply (exec_default step). vm_compute. reflexivity. Qed.

#[local] Opaque make.

Lemma make_contents :
  ListLin.contents (lnodes make) = {[0%Z := None; reverseRegularKey 0 := Some 0%Z]}.
Proof. vm_compute. reflexivity. Qed.

Lemma make_idle t : at_ (threads make t) = Idle ∧ rests make t.
Proof.
  destruct (decide (t = 0)) as [->|Hne]; [vm_compute; done|].
  destruct (exec_frame constructor members make t make_runs) as [Et El].
  { repeat constructor; done. }
  split; [rewrite Et; reflexivity|]. unfold rests. rewrite El. reflexivity.
Qed.

Lemma make_ok : ok make.
Proof.
  split.
  - split.
    + eapply exec_list_run; [exact make_runs|]. eexists _, _. apply run_start.
    + rewrite make_contents. intros d ov. rewrite lookup_insert_Some, lookup_singleton_Some.
      intros [[<- <-]|[_ [<- <-]]]; [by left|right; eauto].
    + left. exists 1%Z. split; [lia|]. vm_compute. done.
    + vm_compute. done.
    + vm_compute. done.
    + assert (buckets_ make = [Some 1; None]) as -> by (vm_compute; done).
      intros [|[|b]] a Hb; cbn in Hb; simplify_eq.
      unfold dummy_node. assert (∃ n, lnodes make !! 1 = Some n ∧ LockFreeList.data n = 0%Z) as (n & Hn & Hd).
      { eexists. split; [vm_compute; reflexivity|]. done. }
      exists n. split; [exact Hn|]. rewrite Hd. vm_compute. reflexivity.
    + exists 1. vm_compute. done.
  - intros t. destruct (make_idle t) as [Ha Hr]. unfold thread_ok. rewrite Ha. exact Hr.
Qed.

Lemma ok_reachable sched s : exec step sched make = Some s → ok s.
Proof.
  intros He. exact (exec_invariant step ok ok_step sched make s make_ok He).
Qed.

(** *** Progress *)

Lemma bucket_at_some s b : (0 ≤ b < len s)%Z → is_Some (bucket_at b s).
Proof. intros Hb. apply lookup_lt_is_Some_2. unfold len in Hb. lia. Qed.

Lemma bucket_for_at s k b : bucket_for s k b → (0 ≤ b < 2 ^ 31)%Z ∧ is_Some (bucket_at b s).
Proof.
  intros [(j & Hj & ->) Hl]. pose proof (bucket_range k j Hj). split; [done|].
  apply bucket_at_some. lia.
Qed.

(** A call of the list that starts at a bucket with a smaller dummy key. *)
Lemma call_list_some t s o b start c :
  shared_ok s → rests s t → (0 ≤ b < 2 ^ 31)%Z → bucket_at b s = Some start →
  (reverseDummyKey b < LockFreeList.key o)%Z →
  match o with
  | LockFreeList.Remove k => Z.even k = false
  | LockFreeList.Cleanup _ => False
  | _ => True
  end → is_Some (call_list t o start c s).
Proof.
  intros Hs Hr Hb Hst Hk Ho. unfold call_list. cbn. unfold rests in Hr. rewrite Hr.
  assert (LockFreeList.callable o start (lockfreelist_ s) = true) as ->; [|by eexists].
  unfold LockFreeList.callable. apply andb_true_iff. split.
  - destruct start as [a|]; [|done]. destruct (ok_buckets _ Hs _ _ Hst) as (n & Hn & Hd).
    rewrite Z2Nat.id in Hd by lia. rewrite Hn, Hd. apply andb_true_iff. split; [by apply dummy_even|].
    by apply bool_decide_eq_true.
  - destruct o; try done. unfold LockFreeList.sentinel, dummies. by rewrite Ho.
Qed.

Lemma list_step_some t s k :
  shared_ok s → ¬ rests s t →
  (∀ res found, LockFreeList.at_ (lthread s t) = LockFreeList.Done res found → is_Some (k res found)) →
  is_Some (list_step t k s).
Proof.
  intros Hs Hr Hk. destruct (list_sound s Hs) as (J & wi & wo & _ & HI).
  unfold list_step. cbn [LockFreeList.step].
  destruct (ListLin.go_progress t _ wi wo HI Hr) as [l ->]. cbn [mbind option_bind].
  destruct (LockFreeList.at_ (lthread s t)) as [| | | | | | | | | |res found]; try by eexists.
  destruct (Hk res found eq_refl) as [c ->]. by eexists.
Qed.

Lemma progress s t :
  ok s → size_ s ≠ 0%Z → at_ (threads s t) ≠ Idle → is_Some (go t s).
Proof.
  intros Hok Hz Hat. pose proof Hok as [Hs Ht]. specialize (Ht t). unfold thread_ok in Ht. unfold go.
  destruct (at_ (threads s t)) as [| |b|b cs|b cs|b cs|b cs a|b| | |c|c|c i|c i|c| |r] eqn:Ha;
    try done; cbn in Ht.
  - rewrite decide_False by done. by eexists.
  - destruct Ht as [_ Hb]. apply bucket_for_at in Hb as [_ [p ->]]. by eexists.
  - destruct Ht as [_ Hc]. destruct (calls_range _ _ _ _ Hc) as [Hb Hl].
    destruct (parent_range b Hb). destruct (bucket_at_some s (getParent b)) as [p ->]; [lia|]. by eexists.
  - destruct Ht as (Hr & Hc & a & Hp). destruct (calls_range _ _ _ _ Hc) as [Hb Hl].
    unfold parent_of. rewrite decide_True by lia. rewrite Hp. cbn.
    destruct (parent_range b Hb). eapply call_list_some; [done|done| |exact Hp| |done]; [lia|].
    by apply parent_dummy_lt.
  - apply list_step_some; [done|apply Ht|]. intros res found Hd.
    destruct (found_dummy s t b cs res found Hok Ha Hd) as (a & -> & _). by eexists.
  - destruct Ht as (_ & Hc & _). destruct (calls_range _ _ _ _ Hc) as [Hb Hl].
    destruct (bucket_at_some s b) as [p ->]; [lia|]. by eexists.
  - destruct Ht as (Hr & Hb & _). destruct (bucket_for_at _ _ _ Hb) as [Hb1 [p Hp]]. rewrite Hp. cbn.
    eapply call_list_some; [done|done|done|exact Hp| |].
    + destruct Hb as [(j & Hj & ->) _]. destruct (call (threads s t)); by apply dummy_lt_regular.
    + destruct (call (threads s t)); try done. apply regular_odd.
  - apply list_step_some; [done|apply Ht|]. by eexists.
  - destruct Ht as [_ (_ & _ & Hc)]. rewrite decide_False by auto. by eexists.
Qed.

(** *** Races on the vector *)

(** The next step adds an element to the vector; it uses the vector. *)
Definition grows (c : pc) : bool := match c with PushBack _ _ => true | _ => false end.
Definition uses (c : pc) : bool :=
  match c with
  | TestBucket _ | TestParent _ _ | StartDummy _ _ | StoreBucket _ _ _ | StartOp _ | PushBack _ _ => true
  | _ => false
  end.

(** Two threads are about to use the vector and one of them makes it grow: the code
    may move the elements while the other thread is at them. *)
Definition vector_race (s : state) : Prop :=
  ∃ t u, t ≠ u ∧ grows (at_ (threads s t)) = true ∧ uses (at_ (threads s u)) = true.

Definition is_insert (o : op) : bool := match o with HashTable.Insert _ _ => true | _ => false end.

(** The part of [insertKey] behind the call of the list. *)
Definition counting (c : pc) : bool :=
  match c with ReadCsize | AddCount _ | TestLoad _ | PushTest _ _ | PushBack _ _ | GrowSize _ => true | _ => false end.

Definition counting_ok (s : state) : Prop :=
  ∀ t, counting (at_ (threads s t)) = true → is_insert (call (threads s t)) = true.

Lemma counting_goto t c s s1 :
  threads s1 = threads s → (counting c = true → is_insert (call (threads s t)) = true) →
  counting (at_ (threads (goto t c s1) t)) = true → is_insert (call (threads (goto t c s1) t)) = true.
Proof. intros E. cbn. by rewrite upd_eq, E. Qed.

Lemma counting_go t s s' :
  go t s = Some s' → (counting (at_ (threads s t)) = true → is_insert (call (threads s t)) = true) →
  counting (at_ (threads s' t)) = true → is_insert (call (threads s' t)) = true.
Proof.
  intros Hg Hc.
  assert (∀ o start c s', call_list t o start c s = Some s' → counting c = false →
    counting (at_ (threads s' t)) = true → is_insert (call (threads s' t)) = true) as Hcall.
  { intros o start c s1. unfold call_list. destruct (LockFreeList.step _ _); cbn [mbind option_bind]; [|done].
    intros [= <-] E. apply (counting_goto t c s); [done|by rewrite E]. }
  assert (∀ k s', list_step t k s = Some s' →
    (∀ r f c, k r f = Some c → counting c = true → is_insert (call (threads s t)) = true) →
    counting (at_ (threads s' t)) = true → is_insert (call (threads s' t)) = true) as Hst.
  { intros k s1. unfold list_step. destruct (LockFreeList.step _ _) as [l|]; cbn [mbind option_bind]; [|done].
    destruct (LockFreeList.at_ (lthread s t)) as [| | | | | | | | | |r f]; try (intros [= <-] _; exact Hc).
    destruct (k r f) as [c|] eqn:Ek; cbn [mbind option_bind]; [|done]. intros [= <-] Hk.
    apply (counting_goto t c s); [done|by eapply Hk]. }
  unfold go in Hg.
  destruct (at_ (threads s t)) as [| |b|b cs|b cs|b cs|b cs a|b| | |c|c|c i|c i|c| |r]; try done.
  - case_decide; [done|]. simplify_eq. by apply (counting_goto t _ s).
  - destruct (bucket_at b s) as [p|]; cbn [mbind option_bind] in Hg; [|done]. simplify_eq.
    apply (counting_goto t _ s); [done|]. unfold initialize_bucket. destruct p; [done|]. by case_decide.
  - destruct (bucket_at (getParent b) s) as [p|]; cbn [mbind option_bind] in Hg; [|done]. simplify_eq.
    apply (counting_goto t _ s); [done|]. unfold initialize_bucket. destruct p; [done|]. by case_decide.
  - destruct (bucket_at (parent_of b) s); cbn [mbind option_bind] in Hg; [|done].
    exact (Hcall _ _ _ _ Hg eq_refl).
  - apply (Hst _ _ Hg). intros r [f|] c; cbn; [|done]. by intros [= <-].
  - destruct (bucket_at b s); cbn [mbind option_bind] in Hg; [|done]. simplify_eq.
    apply (counting_goto t _ s); [done|]. by destruct cs.
  - destruct (bucket_at b s); cbn [mbind option_bind] in Hg; [|done].
    exact (Hcall _ _ _ _ Hg eq_refl).
  - apply (Hst _ _ Hg). intros r f c [= <-]. unfold outcome. destruct (call (threads s t)), r; done.
  - simplify_eq. apply (counting_goto t _ s); [done|auto].
  - simplify_eq. apply (counting_goto t _ s); [done|auto].
  - case_decide; [done|]. simplify_eq. apply (counting_goto t _ s); [done|auto].
  - simplify_eq. apply (counting_goto t _ s); [done|auto].
  - simplify_eq. apply (counting_goto t _ s); [done|auto].
  - simplify_eq. apply (counting_goto t _ s); [by case_decide|auto].
  - simplify_eq. by apply (counting_goto t _ s).
  - simplify_eq. by apply (counting_goto t _ s).
Qed.

Lemma counting_step l s s' : counting_ok s → step l s = Some s' → counting_ok s'.
Proof.
  intros Hc Hs u. destruct (decide (u = who l)) as [->|Hu]; [|rewrite (step_threads l s s' u Hs Hu); apply Hc].
  destruct l as [t o|t]; cbn [step who] in Hs |- *; [|exact (counting_go t s s' Hs (Hc t))].
  destruct (at_ (threads s t)); try done. simplify_eq. cbn. by rewrite upd_eq.
Qed.

Lemma counting_reachable sched s : exec step sched make = Some s → counting_ok s.
Proof.
  apply (exec_invariant step counting_ok counting_step). intros t. by rewrite (proj1 (make_idle t)).
Qed.


(** A quiet table is destroyed safely: every node, dummy nodes included, is freed
    once, by the destructor or by the hazard pointers. *)
Lemma quiet_table_destroyed sched s :
  exec step sched make = Some s → (∀ t, at_ (threads s t) = Idle) →
  ∃ freed, destructor s = Some freed ∧ NoDup freed ∧
    (∀ a, is_Some (lnodes s !! a) ↔ a ∈ freed ∨ a ∈ LockFreeList.retired (lockfreelist_ s)).
Proof.
  intros He Hi. destruct (ok_reachable sched s He) as [Hs Ht].
  destruct (list_sound s Hs) as (J & wi & wo & Hso & _).
  destruct (ListReclaim.destroyed (lockfreelist_ s) wi wo) as (freed & Hd & Hn & Ha & _); [apply Hso| |eauto].
  intros t. specialize (Ht t). unfold thread_ok in Ht. by rewrite Hi in Ht.
Qed.

(** ** Linearizability *)

(** Where a thread is, as far as its own steps tell. *)
Definition phase_of (s : state) (t : nat) : phase op result :=
  match at_ (threads s t) with
  | Idle => Resting
  | InList => match ListLin.phase_of (lthread s t) with
              | Answered r => Answered (conv r)
              | _ => Running (call (threads s t))
              end
  | ReadCsize | AddCount _ | TestLoad _ | PushTest _ _ | PushBack _ _ | GrowSize _ | SubCount
  | Returned (HashTable.RBool true) => Answered (HashTable.RBool true)
  | _ => Running (call (threads s t))
  end.

Definition seen_of (l : label) (s : state) : option (event op result) :=
  match l with
  | Call t o => Some (ECall t o)
  | Go t => match at_ (threads s t) with Returned r => Some (EReturn t r) | _ => None end
  end.

#[export] Instance table_object : Object (St := state) (A := gmap Z Z) :=
  {| ostep := step; abs := λ s, table_map (ListLin.contents (lnodes s));
     Lin.view := phase_of; Lin.visible := seen_of |}.

(** The kinds of steps. *)
Inductive kind (t : nat) (s s' : state) : Prop :=
  | kind_local c :
      lockfreelist_ s' = lockfreelist_ s → threads s' = upd t (mkThread (call (threads s t)) c) (threads s) →
      c ≠ InList → phase_of s' t = phase_of s t → (∀ r, at_ (threads s t) ≠ Returned r) →
      (∀ r, c = Returned r → r = HashTable.RBool true) → at_ (threads s t) ≠ InList → kind t s s'
  | kind_return r : at_ (threads s t) = Returned r → s' = goto t Idle s → kind t s s'
  | kind_call c o start l :
      LockFreeList.step (LockFreeList.Call t o start) (lockfreelist_ s) = Some l →
      s' = goto t c (set_list l s) → phase_of s t = Running (call (threads s t)) →
      (∀ r, at_ (threads s t) ≠ Returned r) →
      c = InList ∧ o = list_op (call (threads s t)) ∨ (∃ b cs, c = InsertDummy b cs) → kind t s s'
  | kind_list l :
      LockFreeList.step (LockFreeList.Go t) (lockfreelist_ s) = Some l → s' = set_list l s →
      at_ (threads s t) = InList ∨ (∃ b cs, at_ (threads s t) = InsertDummy b cs) →
      (∀ res f, LockFreeList.at_ (lthread s t) ≠ LockFreeList.Done res f) → kind t s s'
  | kind_done c l res found :
      LockFreeList.step (LockFreeList.Go t) (lockfreelist_ s) = Some l → s' = goto t c (set_list l s) →
      LockFreeList.at_ (lthread s t) = LockFreeList.Done res found →
      at_ (threads s t) = InList ∧ c = outcome (lockfreelist_ s) (call (threads s t)) res found ∨
      (∃ b cs a, at_ (threads s t) = InsertDummy b cs ∧ c = StoreBucket b cs a) → kind t s s'.

Lemma list_step_kind t s k s' :
  list_step t k s = Some s' →
  at_ (threads s t) = InList ∨ (∃ b cs, at_ (threads s t) = InsertDummy b cs) →
  (∀ res found c, k res found = Some c →
    at_ (threads s t) = InList ∧ c = outcome (lockfreelist_ s) (call (threads s t)) res found ∨
    (∃ b cs a, at_ (threads s t) = InsertDummy b cs ∧ c = StoreBucket b cs a)) → kind t s s'.
Proof.
  intros Hs Hat Hk. unfold list_step in Hs.
  destruct (LockFreeList.step _ _) as [l|] eqn:Hl; cbn [mbind option_bind] in Hs; [|done].
  destruct (LockFreeList.at_ (lthread s t)) as [| | | | | | | | | |res found] eqn:Hd;
    try (simplify_eq; eapply kind_list; [exact Hl|done|done|by rewrite Hd]).
  destruct (k res found) as [c|] eqn:Ec; cbn in Hs; [|done]. injection Hs as <-.
  eapply kind_done; [exact Hl|done|exact Hd|by apply Hk].
Qed.

Lemma call_list_kind t s o start c s' :
  call_list t o start c s = Some s' → phase_of s t = Running (call (threads s t)) →
  (∀ r, at_ (threads s t) ≠ Returned r) →
  c = InList ∧ o = list_op (call (threads s t)) ∨ (∃ b cs, c = InsertDummy b cs) → kind t s s'.
Proof.
  intros Hs Hp Hr Hc. unfold call_list in Hs.
  destruct (LockFreeList.step _ _) as [l|] eqn:Hl; cbn [mbind option_bind] in Hs; [|done].
  injection Hs as <-. by eapply kind_call.
Qed.

Lemma go_kind t s s' : go t s = Some s' → kind t s s'.
Proof.
  intros Hs.
  assert (∀ c s1, lockfreelist_ s1 = lockfreelist_ s → threads s1 = threads s → c ≠ InList →
    phase_of (goto t c s1) t = phase_of s t → (∀ r, at_ (threads s t) ≠ Returned r) →
    (∀ r, c = Returned r → r = HashTable.RBool true) → at_ (threads s t) ≠ InList →
    kind t s (goto t c s1)) as Hloc.
  { intros c s1 El Et Hc Hp Hr Hr' Hni. eapply (kind_local t s _ c); [by rewrite <- El|by cbn; rewrite Et|done..]. }
  assert (∀ c s1, phase_of (goto t c s1) t =
    match c with
    | Idle => Resting
    | InList => phase_of (goto t c s1) t
    | ReadCsize | AddCount _ | TestLoad _ | PushTest _ _ | PushBack _ _ | GrowSize _ | SubCount
    | Returned (HashTable.RBool true) => Answered (HashTable.RBool true)
    | _ => Running (call (threads s1 t))
    end) as Hph.
  { intros c s1. unfold phase_of. cbn. rewrite upd_eq. cbn. destruct c as [| | | | | | | | | | | | | | | |[[]|]]; done. }
  unfold go in Hs.
  destruct (at_ (threads s t)) as [| |b|b cs|b cs|b cs|b cs a|b| | |c|c|c i|c i|c| |r] eqn:Hat;
    try done.
  all: assert (phase_of s t = phase_of s t) as Hv by done; unfold phase_of in Hv at 2; rewrite Hat in Hv.
  - case_decide; [done|]. injection Hs as <-. apply Hloc; try done. by rewrite Hph, Hv.
  - destruct (bucket_at b s) as [p|]; cbn in Hs; [|done]. injection Hs as <-.
    apply Hloc; try done; [|rewrite Hph, Hv|]; destruct p; try done; unfold initialize_bucket; by case_decide.
  - destruct (bucket_at (getParent b) s) as [p|]; cbn in Hs; [|done]. injection Hs as <-.
    apply Hloc; try done; [|rewrite Hph, Hv|]; destruct p; try done; unfold initialize_bucket; by case_decide.
  - destruct (bucket_at (parent_of b) s) as [p|]; cbn in Hs; [|done].
    eapply call_list_kind; [exact Hs|done|by rewrite Hat|eauto].
  - eapply list_step_kind; [exact Hs|eauto|]. intros res [a|] c E; cbn in E; [|done].
    simplify_eq. right. eauto.
  - destruct (bucket_at b s) as [p|]; cbn in Hs; [|done]. injection Hs as <-.
    apply Hloc; try done; [|rewrite Hph, Hv|]; by destruct cs.
  - destruct (bucket_at b s) as [p|]; cbn in Hs; [|done].
    eapply call_list_kind; [exact Hs|done|by rewrite Hat|by left].
  - eapply list_step_kind; [exact Hs|by left|]. intros res found c E. injection E as <-. by left.
  - injection Hs as <-. apply Hloc; try done. by rewrite Hph, Hv.
  - injection Hs as <-. apply Hloc; try done. by rewrite Hph, Hv.
  - case_decide; [done|]. injection Hs as <-.
    apply Hloc; try done; [|rewrite Hph, Hv|]; case_decide; try done. by intros r [= <-].
  - injection Hs as <-. apply Hloc; try done; [|rewrite Hph, Hv|]; by case_decide.
  - injection Hs as <-. apply Hloc; try done. by rewrite Hph, Hv.
  - injection Hs as <-. apply Hloc; try done; [by case_decide..|by rewrite Hph, Hv|by intros r [= <-]].
  - injection Hs as <-. apply Hloc; try done; [by rewrite Hph, Hv|by intros r [= <-]].
  - injection Hs as <-. by eapply kind_return.
Qed.

(** *** What the list's calls justify *)

(** [J] holds what the calls of the table justify, [Jl] those of the list. *)
Record linked (s : state) (J : nat → result → Prop) (Jl : nat → ListLin.result → Prop) : Prop := {
  l_list t r : at_ (threads s t) = InList → phase_of s t = Running (call (threads s t)) →
    Jl t r → J t (conv r);
  l_returned t r : at_ (threads s t) = Returned r → phase_of s t = Running (call (threads s t)) → J t r
}.

(** A running call of the list is that of the operation. *)
Lemma in_list_oper s t :
  thread_ok s t → at_ (threads s t) = InList → phase_of s t = Running (call (threads s t)) →
  ListLin.phase_of (lthread s t) = Running (list_op (call (threads s t))) ∧
  LockFreeList.oper (lthread s t) = list_op (call (threads s t)).
Proof.
  intros Ht Hat Hp. unfold thread_ok in Ht. unfold phase_of in Hp. rewrite Hat in Ht, Hp.
  destruct Ht as [Hr Ho]. destruct (ListLin.phase_of (lthread s t)) as [|o|r] eqn:Hl; [| |done].
  - exfalso. unfold ListLin.phase_of in Hl. unfold rests in Hr.
    by destruct (LockFreeList.at_ _) as [| | | | | | | | | |[] ?], (LockFreeList.oper _).
  - apply ListLin.phase_running in Hl as E. destruct Ho as [Ho|(d & _ & Ho)]; [by rewrite <- Ho, E|].
    exfalso. rewrite Ho in E. subst o. unfold ListLin.phase_of in Hl. rewrite Ho in Hl.
    by destruct (LockFreeList.at_ _) as [| | | | | | | | | |[] ?].
Qed.

(** What is justified for the list is for the table. *)
Lemma justifies_conv s t r :
  ok s → at_ (threads s t) = InList → phase_of s t = Running (call (threads s t)) →
  justifies ListLin.list_apply (lockfreelist_ s) t r → justifies HashTable.map_perform s t (conv r).
Proof.
  intros [Hs Ht] Hat Hp (o & Ho & Ha). cbn in Ho, Ha.
  destruct (in_list_oper s t (Ht t) Hat Hp) as [Hl _]. rewrite Hl in Ho. injection Ho as <-.
  exists (call (threads s t)). split; [exact Hp|]. cbn.
  by apply (list_apply_table _ _ _ _ (ok_map _ Hs)) in Ha as [_ Ha].
Qed.

(** The list's ghost moves with the list. *)
Lemma linked_list s s' (J J' : nat → result → Prop) Jl ll :
  ok s → ok s' → linked s J Jl → LockFreeList.step ll (lockfreelist_ s) = Some (lockfreelist_ s') →
  (∀ t, at_ (threads s' t) = InList → (∀ o, ListLin.visible ll (lockfreelist_ s) ≠ Some (ECall t o)) →
     at_ (threads s t) = InList ∧ call (threads s t) = call (threads s' t)) →
  (∀ t r, at_ (threads s' t) = InList → (∀ o, ListLin.visible ll (lockfreelist_ s) ≠ Some (ECall t o)) →
     J t r → J' t r) →
  (∀ t r, justifies HashTable.map_perform s' t r → J' t r) →
  ∀ t r, at_ (threads s' t) = InList → phase_of s' t = Running (call (threads s' t)) →
    justifies ListLin.list_apply (lockfreelist_ s') t r ∨
    (Jl t r ∧ ∀ o, ListLin.visible ll (lockfreelist_ s) ≠ Some (ECall t o)) → J' t (conv r).
Proof.
  intros Hok Hok' HL Hl Hin HJ Hj t r Hat Hp [Hr|[Hr Hn]].
  - apply Hj. by apply justifies_conv.
  - destruct (Hin t Hat Hn) as [Hat0 Ec]. apply HJ; [done|done|]. apply (l_list _ _ _ HL); [done| |done].
    destruct (in_list_oper s' t (proj2 Hok' t) Hat Hp) as [Hl' Eo'].
    destruct (list_sound s (proj1 Hok)) as (J0 & wi & wo & _ & HI).
    destruct (list_sound s' (proj1 Hok')) as (J0' & wi' & wo' & _ & HI').
    destruct (ListLin.running_before ll _ _ t Hl Hn (ListLin.Inv_weaken _ _ _ HI)
      (ex_intro _ wi' (ex_intro _ wo' HI'))) as [Hl0 _]; [by rewrite Eo'|].
    unfold phase_of. by rewrite Hat0, Hl0.
Qed.

(** The result a call of the list returns to an operation that runs. *)
Lemma done_result s t J Jl l es res found r :
  ok s → linked s J Jl → run ListLin.list_apply LockFreeList.init (lockfreelist_ s) Jl es →
  LockFreeList.step (LockFreeList.Go t) (lockfreelist_ s) = Some l →
  at_ (threads s t) = InList → LockFreeList.at_ (lthread s t) = LockFreeList.Done res found →
  outcome (lockfreelist_ s) (call (threads s t)) res found = Returned r →
  phase_of s t = Running (call (threads s t)) ∧ J t r.
Proof.
  intros Hok HL Hr Hl Hat Hd Ho. pose proof (ListLin.list_moves _ _ _ _ _ Hr Hl) as Hm.
  pose proof (proj2 Hok t) as Ht. unfold thread_ok in Ht. rewrite Hat in Ht.
  destruct Ht as [_ Hop].
  assert (phase_of s t = Running (call (threads s t)) ∧
    r = conv (ListLin.result_of (lockfreelist_ s) (LockFreeList.oper (lthread s t)) res found)) as [Hp ->].
  { unfold phase_of. rewrite Hat. unfold ListLin.phase_of, ListLin.result_of. rewrite Hd.
    unfold outcome in Ho.
    destruct (call (threads s t)) as [k v|k|k] eqn:Ec, res; try done; injection Ho as <-;
      destruct Hop as [Hop|(d & E & Hop)]; cbn in *; try done; rewrite Hop; try done.
    exfalso. destruct (list_sound s (proj1 Hok)) as (J0 & wi & wo & Hso & _).
    pose proof (ListLin.so_pledge _ _ _ _ Hso t) as Hpl. unfold ListLin.pledge in Hpl.
    by rewrite Hd, Hop in Hpl. }
  split; [done|]. apply (l_list _ _ _ HL); [done|done|].
  destruct (in_list_oper s t (proj2 Hok t) Hat Hp) as [Hlp _].
  cbn in Hm. rewrite Hd in Hm. inversion Hm as [| | |u r' Hv _ _ _ Eu]; subst.
  destruct Hv as [Hv|[Hj _]]; [|exact Hj]. cbn in Hv. congruence.
Qed.

Abbreviation list_runs l J es := (run ListLin.list_apply LockFreeList.init l J es).

Lemma phase_frame s s' u :
  threads s' u = threads s u → (at_ (threads s u) = InList → lthread s' u = lthread s u) →
  phase_of s' u = phase_of s u.
Proof.
  intros Et El. unfold phase_of. rewrite Et. destruct (at_ (threads s u)) eqn:Hat; try done.
  by rewrite El.
Qed.

(** A step of [t] that does not end in a call of the list or in its return. *)
Lemma linked_frame t s s' J (J' : nat → result → Prop) Jl :
  linked s J Jl → lockfreelist_ s' = lockfreelist_ s → (∀ u, u ≠ t → threads s' u = threads s u) →
  at_ (threads s' t) ≠ InList →
  (∀ r, at_ (threads s' t) = Returned r → phase_of s' t ≠ Running (call (threads s' t))) →
  (∀ u r, u ≠ t → J u r → J' u r) → linked s' J' Jl.
Proof.
  intros [H1 H2] El Et Hin Hret HJ.
  assert (∀ u, u ≠ t → phase_of s' u = phase_of s u) as Hph.
  { intros u Hu. apply phase_frame; [by apply Et|by rewrite El]. }
  split; intros u r Hat Hp; (destruct (decide (u = t)) as [->|Hu]; [|rewrite Et in Hat by done]).
  - done.
  - intros Hr. apply HJ; [done|]. apply H1; [done| |done]. by rewrite <- Hph, Hp, Et.
  - by destruct (Hret r Hat).
  - apply HJ; [done|]. apply H2; [done|]. by rewrite <- Hph, Hp, Et.
Qed.

(** What the call of the list leaves to show of returned threads. *)
Lemma linked_moved t s s' J (J' : nat → result → Prop) Jl Jl' :
  linked s J Jl → (∀ u, u ≠ t → threads s' u = threads s u) →
  (∀ u r, J u r → J' u r) →
  (∀ r, at_ (threads s' t) = Returned r → J' t r) →
  (∀ u r, at_ (threads s' u) = InList → phase_of s' u = Running (call (threads s' u)) → Jl' u r →
    J' u (conv r)) → linked s' J' Jl'.
Proof.
  intros HL Et HJ Hret Hin. split; [done|]. intros u r Hat Hp.
  destruct (decide (u = t)) as [->|Hu]; [by apply Hret|]. apply HJ. rewrite Et in Hat, Hp by done.
  apply (l_returned _ _ _ HL); [done|]. by rewrite <- Hp; unfold phase_of; rewrite Et, Hat.
Qed.

Lemma outcome_not_list l o res found : outcome l o res found ≠ InList.
Proof. by destruct o, res. Qed.

Lemma linked_go t s s' J (J' : nat → result → Prop) Jl esl :
  ok s → ok s' → go t s = Some s' → linked s J Jl → list_runs (lockfreelist_ s) Jl esl →
  (∀ u r, J u r → J' u r) → (∀ u r, justifies HashTable.map_perform s' u r → J' u r) →
  ∃ Jl' esl', list_runs (lockfreelist_ s') Jl' esl' ∧ linked s' J' Jl'.
Proof.
  intros Hok Hok' Hs HL Hr HJ Hj.
  destruct (go_kind t s s' Hs) as [c El Et Hc Hp Hnr Hret _|r Hat ->|c o start l Hl -> Hp Hnr Hc
    |l Hl -> Hat Hnd|c l res found Hl -> Hd Hat].
  - exists Jl, esl. rewrite El. split; [done|].
    eapply (linked_frame t); [exact HL|done|by intros u Hu; rewrite Et, upd_ne| | |auto].
    + rewrite Et, upd_eq. done.
    + intros r. unfold phase_of. rewrite Et, upd_eq. cbn. intros ->. by rewrite (Hret r eq_refl).
  - exists Jl, esl. split; [done|].
    eapply (linked_frame t); [exact HL|done|by intros u Hu; cbn; rewrite upd_ne| | |auto];
      cbn; by rewrite upd_eq.
  - eexists _, _. split; [eapply (run_step ListLin.list_apply _ (LockFreeList.Call t o start)); [exact Hr|exact Hl]|].
    eapply (linked_moved t); [exact HL|by intros u Hu; cbn; rewrite upd_ne|done| |].
    + intros r. cbn. rewrite upd_eq. cbn. by destruct Hc as [[-> _]|(b & cs & ->)].
    + intros u r Hat Hpu. eapply (linked_list s); [done|done|exact HL|exact Hl| |auto|done|done|done].
      intros v Hv Hn. cbn in Hv |- *. destruct (decide (v = t)) as [->|Hne]; [by destruct (Hn o)|].
      by rewrite !upd_ne in Hv |- * by done.
  - eexists _, _. split; [eapply (run_step ListLin.list_apply _ (LockFreeList.Go t)); [exact Hr|exact Hl]|].
    eapply (linked_moved t); [exact HL|done|done| |].
    + intros r Er. cbn in Er. by destruct Hat as [Hat|(b & cs & Hat)]; rewrite Hat in Er.
    + intros u r Hau Hpu. eapply (linked_list s); [done|done|exact HL|exact Hl|done|auto|done|done|done].
  - eexists _, _. split; [eapply (run_step ListLin.list_apply _ (LockFreeList.Go t)); [exact Hr|exact Hl]|].
    assert (c ≠ InList) as Hni.
    { destruct Hat as [[_ ->]|(b & cs & a & _ & ->)]; [apply outcome_not_list|done]. }
    eapply (linked_moved t); [exact HL|by intros u Hu; cbn; rewrite upd_ne|done| |].
    + intros r. cbn. rewrite upd_eq. cbn. intros Ec.
      destruct Hat as [[Hat E]|(b & cs & a & _ & ->)]; [|done]. rewrite E in Ec.
      apply HJ. by destruct (done_result s t J Jl l esl res found r Hok HL Hr Hl Hat Hd Ec).
    + intros u r Hau Hpu. eapply (linked_list s); [done|done|exact HL|exact Hl| |auto|done|done|done].
      intros v Hv _. cbn in Hv |- *. destruct (decide (v = t)) as [->|Hne].
      * by rewrite upd_eq in Hv.
      * by rewrite !upd_ne in Hv |- * by done.
Qed.

Lemma table_linked s J es :
  run HashTable.map_perform make s J es →
  ok s ∧ ∃ Jl esl, list_runs (lockfreelist_ s) Jl esl ∧ linked s J Jl.
Proof.
  induction 1 as [|l s s' J es Hr IH Hs].
  - split; [exact make_ok|]. destruct (ok_list _ (proj1 make_ok)) as (Jl & esl & Hl).
    exists Jl, esl. split; [done|]. split; intros t r Hat; destruct (make_idle t) as [E _]; congruence.
  - destruct IH as (Hok & Jl & esl & Hl & HL). cbn in Hs. pose proof (ok_step l s s' Hok Hs) as Hok'.
    split; [done|]. destruct l as [t o|t].
    + cbn in Hs. destruct (at_ (threads s t)) eqn:Hat; try done. injection Hs as <-.
      exists Jl, esl. split; [done|].
      eapply (linked_frame t); [exact HL|done|by intros u Hu; cbn; rewrite upd_ne| | |];
        [cbn; by rewrite upd_eq..|]. intros u r Hu Hj. right. split; [done|]. cbn. congruence.
    + eapply (linked_go t s s'); [done|done|exact Hs|exact HL|exact Hl| |by left].
      intros u r Hj. right. split; [done|]. cbn. by case_match.
Qed.

(** *** The laws *)

Lemma list_go_inv s t l :
  shared_ok s → LockFreeList.step (LockFreeList.Go t) (lockfreelist_ s) = Some l →
  ListLin.change t (lockfreelist_ s) l.
Proof.
  intros Hs Hl. destruct (list_sound s Hs) as (J & wi & wo & Hso & HI).
  pose proof (LockFreeList.Inv_reach _ _ _ (LockFreeList.reach_step _ _ _ _ _
    (ListLin.so_reach _ _ _ _ Hso) Hl)) as HI'.
  by eapply ListLin.go_change.
Qed.

(** The phase does not change when a call of the list returns. *)
Lemma phase_done s t c l res found :
  ok s → LockFreeList.at_ (lthread s t) = LockFreeList.Done res found →
  at_ (threads s t) = InList ∧ c = outcome (lockfreelist_ s) (call (threads s t)) res found ∨
  (∃ b cs a, at_ (threads s t) = InsertDummy b cs ∧ c = StoreBucket b cs a) →
  phase_of (goto t c (set_list l s)) t = phase_of s t.
Proof.
  intros Hok Hd [[Hat ->]|(b & cs & a & Hat & ->)].
  2:{ unfold phase_of. cbn. by rewrite upd_eq, Hat. }
  pose proof (proj2 Hok t) as Ht. unfold thread_ok in Ht. rewrite Hat in Ht. destruct Ht as [_ Hop].
  unfold phase_of. cbn. rewrite upd_eq. cbn. rewrite Hat. unfold ListLin.phase_of, outcome. rewrite Hd.
  destruct (call (threads s t)) as [k v|k|k] eqn:Ec;
    (destruct Hop as [Hop|(d & E & Hop)]; cbn in *; [rewrite Hop|try done; rewrite Hop]); destruct res; try done.
  exfalso. destruct (list_sound s (proj1 Hok)) as (J0 & wi & wo & Hso & _).
  pose proof (ListLin.so_pledge _ _ _ _ Hso t) as Hpl. unfold ListLin.pledge in Hpl.
  by rewrite Hd, Hop in Hpl.
Qed.

Lemma phase_others t s s' u :
  go t s = Some s' → u ≠ t → phase_of s' u = phase_of s u.
Proof.
  intros Hs Hu. apply phase_frame; [by apply (step_threads (Go t))|intros _].
  by apply (step_lthreads (Go t)).
Qed.

(** One step inside a call of the list. *)
Lemma moves_in_list t s l J :
  ok s → LockFreeList.step (LockFreeList.Go t) (lockfreelist_ s) = Some l →
  at_ (threads s t) = InList ∨ (∃ b cs, at_ (threads s t) = InsertDummy b cs) →
  (∀ res f, LockFreeList.at_ (lthread s t) ≠ LockFreeList.Done res f) →
  moves HashTable.map_perform J s (set_list l s) None.
Proof.
  intros Hok Hl Hat Hnd. pose proof Hok as [Hs Ht].
  assert (∀ u, u ≠ t → phase_of (set_list l s) u = phase_of s u) as Hoth.
  { intros u Hu. apply phase_frame; [done|]. intros _. cbn. by eapply ListLin.go_others. }
  destruct (list_go_inv s t l Hs Hl) as [Ec _ Hp _|r new Hp Ha Hp' _ _|res f Hd _]; [| |by destruct (Hnd res f)].
  - apply moves_silent; cbn; [by rewrite Ec|]. intros u. unfold phase_of. cbn. by rewrite Hp.
  - destruct Hat as [Hat|(b & cs & Hat)].
    + assert (phase_of s t = Running (call (threads s t))) as Hpt by (unfold phase_of; by rewrite Hat, Hp).
      destruct (in_list_oper s t (Ht t) Hat Hpt) as [_ Eo]. rewrite Eo in Ha.
      destruct (list_apply_table _ _ _ _ (ok_map _ Hs) Ha) as [_ Hm].
      eapply moves_effect; [exact Hpt|exact Hm| |exact Hoth]. cbn. unfold phase_of. cbn. by rewrite Hat, Hp'.
    + assert (phase_of (set_list l s) t = phase_of s t) as Hpt by (unfold phase_of; cbn; by rewrite Hat).
      pose proof (Ht t) as Htt. unfold thread_ok in Htt. rewrite Hat in Htt. destruct Htt as (_ & Hc & Eo).
      apply calls_range in Hc as [Hb _]. rewrite Eo in Ha.
      destruct (list_apply_dummy b _ _ _ ltac:(lia) (ok_map _ Hs) Ha) as [_ Hm].
      apply moves_silent; cbn; [done|]. intros u. destruct (decide (u = t)) as [->|Hu]; [done|by apply Hoth].
Qed.

Lemma call_contents t o start l l' :
  LockFreeList.step (LockFreeList.Call t o start) l = Some l' →
  LockFreeList.nodes l' = LockFreeList.nodes l ∧
  LockFreeList.threads l' t = LockFreeList.mkThread o start LockFreeList.TryAgain.
Proof.
  cbn. destruct (LockFreeList.at_ _); try done. destruct (LockFreeList.callable _ _ _); [|done].
  intros [= <-]. cbn. by rewrite upd_eq.
Qed.

Lemma table_moves l s s' J es :
  run HashTable.map_perform make s J es → step l s = Some s' →
  moves HashTable.map_perform J s s' (seen_of l s).
Proof.
  intros Hr Hs. destruct (table_linked s J es Hr) as (Hok & Jl & esl & Hl & HL).
  destruct l as [t o|t].
  { cbn in Hs. destruct (at_ (threads s t)) eqn:Hat; try done. injection Hs as <-.
    apply moves_call; [cbn; unfold phase_of; by rewrite Hat| |done|].
    - cbn. unfold phase_of. cbn. by rewrite upd_eq.
    - intros u Hu. apply phase_frame; [cbn; by rewrite upd_ne|done]. }
  assert (∀ u, u ≠ t → phase_of s' u = phase_of s u) as Hoth by by intros; eapply phase_others.
  assert ((∀ r, at_ (threads s t) ≠ Returned r) → seen_of (Go t) s = None) as Hsee.
  { intros Hn. cbn. destruct (at_ (threads s t)); try done. by destruct (Hn r). }
  assert (∀ u, phase_of s' t = phase_of s t → phase_of s' u = phase_of s u) as Hall.
  { intros u Hp. destruct (decide (u = t)) as [->|]; auto. }
  destruct (go_kind t s s' Hs) as [c El Et Hc Hp Hnr _ _|r Hat ->|c o start l Hc -> Hp Hnr Hcc
    |l Hg -> Hat Hnd|c l res found Hg -> Hd Hat].
  - rewrite Hsee by done. apply moves_silent; cbn; [by rewrite El|]. intros u. by apply Hall.
  - cbn. rewrite Hat. apply moves_return; [|cbn; unfold phase_of; cbn; by rewrite upd_eq|done|exact Hoth].
    pose proof (l_returned _ _ _ HL t r Hat) as Hj. cbn. unfold phase_of in Hj |- *. rewrite Hat in Hj |- *.
    destruct r as [[]|]; [by left|right; eauto..].
  - rewrite Hsee by done. destruct (call_contents _ _ _ _ _ Hc) as [En Eth].
    apply moves_silent; [cbn; by rewrite En|]. intros u. apply Hall. rewrite Hp. unfold phase_of. cbn.
    rewrite upd_eq. cbn. destruct Hcc as [[-> ->]|(b & cs & ->)]; [|done]. rewrite Eth. unfold ListLin.phase_of. cbn.
    by destruct (call (threads s t)).
  - rewrite Hsee; [by apply (moves_in_list t)|].
    by destruct Hat as [->|(b & cs & ->)].
  - rewrite Hsee by (by destruct Hat as [[-> _]|(b & cs & a & -> & _)]).
    apply moves_silent; [|intros u; apply Hall; by eapply phase_done].
    cbn. cbn in Hg. unfold LockFreeList.go in Hg. rewrite Hd in Hg. by injection Hg as <-.
Qed.

#[export] Instance table_laws : Laws HashTable.map_perform make.
Proof.
  split; [|intros l s s' J es; apply table_moves].
  intros t. cbn. unfold phase_of. by destruct (make_idle t) as [-> _].
Qed.

Lemma make_map : table_map (ListLin.contents (lnodes make)) = {[0%Z := 0%Z]}.
Proof. rewrite make_contents. vm_compute. reflexivity. Qed.

(** C5. Linearizability of the hash table: whatever operations any number of
    threads run on a new table, and however their steps interleave, resizing and
    the initialisation of buckets included, the history of calls and returns is
    one of a map, at first with the key 0, whose operations take effect at one
    instant between call and return; the regular nodes of the list that are not
    marked are the bindings of that map.  Its keys are those of the calls modulo
    2^31, and each operation of the vector is one step. *)
Theorem hash_table_linearizable sched s :
  exec step sched make = Some s →
  ∃ p, atomic HashTable.map_perform {[0%Z := 0%Z]} (history sched make)
         (table_map (ListLin.contents (lnodes s))) p.
Proof.
  intros He. destruct (linearizable_history HashTable.map_perform make sched s table_laws He) as [p Hp].
  exists p. cbn in Hp. by rewrite make_map in Hp.
Qed.

(** ** The counter *)

(** How far the counter lags behind the list because of thread [t]. *)
Definition debt (s : state) (t : nat) : Z :=
  match at_ (threads s t) with
  | InList =>
    match ListLin.phase_of (lthread s t), call (threads s t) with
    | Answered _, HashTable.Insert _ _ => 1
    | Answered _, HashTable.Remove _ => -1
    | _, _ => 0
    end
  | ReadCsize | AddCount _ => 1
  | SubCount => -1
  | _ => 0
  end.

(** The debts of the threads below [n]. *)
Fixpoint debts (s : state) (n : nat) : Z :=
  match n with 0 => 0 | S n => debts s n + debt s n end.

(** The number of keys. *)
Definition keys (s : state) : Z := Z.of_nat (size (table_map (ListLin.contents (lnodes s)))).

Lemma debts_upd s s' t n :
  (∀ u, u ≠ t → debt s' u = debt s u) → t < n → debts s' n = (debts s n + debt s' t - debt s t)%Z.
Proof.
  intros Hu. assert (∀ n, n ≤ t → debts s' n = debts s n) as Hle.
  { intros m. induction m as [|m IH]; cbn; [done|]. intros Hm. rewrite IH, Hu by lia. lia. }
  induction n as [|n IH]; [lia|]. intros Ht. cbn. destruct (decide (t = n)) as [->|Hne].
  - rewrite Hle by lia. lia.
  - rewrite IH, (Hu n) by lia. lia.
Qed.

Lemma debt_running s t : phase_of s t = Running (call (threads s t)) → debt s t = 0%Z.
Proof.
  unfold phase_of, debt. destruct (at_ (threads s t)) as [| | | | | | | | | | | | | | | |[[]|]]; try done.
  by destruct (ListLin.phase_of (lthread s t)), (call (threads s t)).
Qed.

Lemma debt_frame s s' u :
  threads s' u = threads s u → lthread s' u = lthread s u → debt s' u = debt s u.
Proof. unfold debt. by intros -> ->. Qed.

(** Outside the list, the counter moves with the debt. *)
Lemma local_count t s s' :
  go t s = Some s' → at_ (threads s t) ≠ InList → lockfreelist_ s' = lockfreelist_ s →
  at_ (threads s' t) ≠ InList → u32 (count_ s' + debt s' t) = u32 (count_ s + debt s t).
Proof.
  intros Hs Hni El Hni'. unfold debt in *. unfold go in Hs.
  assert (∀ x y z, u32 (u32 x + y) = u32 z ↔ u32 (x + y) = u32 z) as Hu.
  { intros x y z. unfold u32. by rewrite Zplus_mod_idemp_l. }
  destruct (at_ (threads s t)) as [| |b|b cs|b cs|b cs|b cs a|b| | |c|c|c i|c i|c| |r] eqn:Hat; try done;
    try (injection Hs as <-; cbn; rewrite upd_eq; done).
  - case_decide; [done|]. injection Hs as <-. cbn. by rewrite upd_eq.
  - destruct (bucket_at b s) as [p|]; cbn in Hs; [|done]. injection Hs as <-. cbn. rewrite upd_eq. cbn.
    destruct p; [done|]. unfold initialize_bucket. by case_decide.
  - destruct (bucket_at (getParent b) s) as [p|]; cbn in Hs; [|done]. injection Hs as <-. cbn. rewrite upd_eq.
    cbn. destruct p; [done|]. unfold initialize_bucket. by case_decide.
  - destruct (bucket_at (parent_of b) s) as [p|]; cbn [mbind option_bind] in Hs; [|done].
    unfold call_list in Hs.
    destruct (LockFreeList.step _ _); cbn [mbind option_bind] in Hs; [|done]. injection Hs as <-. cbn. by rewrite upd_eq.
  - unfold list_step in Hs. destruct (LockFreeList.step _ _) as [l|]; cbn [mbind option_bind] in Hs; [|done].
    destruct (LockFreeList.at_ (lthread s t)) as [| | | | | | | | | |res [a|]]; try (injection Hs as <-); cbn in *.
    all: rewrite ?upd_eq, ?Hat in *; done.
  - destruct (bucket_at b s) as [p|]; cbn in Hs; [|done]. injection Hs as <-. cbn. rewrite upd_eq. by destruct cs.
  - destruct (bucket_at b s) as [p|]; cbn [mbind option_bind] in Hs; [|done].
    unfold call_list in Hs.
    destruct (LockFreeList.step _ _); cbn [mbind option_bind] in Hs; [|done]. injection Hs as <-. cbn in Hni'. by rewrite upd_eq in Hni'.
  - injection Hs as <-. cbn. rewrite upd_eq. cbn. apply Hu. f_equal. lia.
  - case_decide; [done|]. injection Hs as <-. cbn. rewrite upd_eq. cbn. by case_decide.
  - injection Hs as <-. cbn. rewrite upd_eq. cbn. by case_decide.
  - injection Hs as <-. case_decide; cbn; by rewrite upd_eq.
  - injection Hs as <-. cbn. rewrite upd_eq. cbn. apply Hu. f_equal. lia.
Qed.

Lemma debt_done s t c l res found :
  ok s → LockFreeList.at_ (lthread s t) = LockFreeList.Done res found →
  at_ (threads s t) = InList ∧ c = outcome (lockfreelist_ s) (call (threads s t)) res found ∨
  (∃ b cs a, at_ (threads s t) = InsertDummy b cs ∧ c = StoreBucket b cs a) →
  debt (goto t c (set_list l s)) t = debt s t.
Proof.
  intros Hok Hd [[Hat ->]|(b & cs & a & Hat & ->)].
  2:{ unfold debt. cbn. by rewrite upd_eq, Hat. }
  pose proof (proj2 Hok t) as Ht. unfold thread_ok in Ht. rewrite Hat in Ht. destruct Ht as [_ Hop].
  unfold debt. cbn. rewrite upd_eq. cbn. rewrite Hat. unfold ListLin.phase_of, outcome. rewrite Hd.
  destruct (call (threads s t)) as [k v|k|k] eqn:Ec;
    (destruct Hop as [Hop|(d & E & Hop)]; cbn in *; [rewrite Hop|try done; rewrite Hop]); destruct res; try done.
  exfalso. destruct (list_sound s (proj1 Hok)) as (J0 & wi & wo & Hso & _).
  pose proof (ListLin.so_pledge _ _ _ _ Hso t) as Hpl. unfold ListLin.pledge in Hpl.
  by rewrite Hd, Hop in Hpl.
Qed.

(** The effect of an operation changes the number of keys and the debt alike. *)
Lemma effect_debt s t l r :
  HashTable.map_perform (call (threads s t)) (table_map (ListLin.contents (lnodes s))) =
    (conv r, table_map (ListLin.contents (LockFreeList.nodes l))) →
  at_ (threads s t) = InList → debt s t = 0%Z →
  ListLin.phase_of (LockFreeList.threads l t) = Answered r →
  (keys (set_list l s) - debt (set_list l s) t = keys s)%Z.
Proof.
  intros Hm Hat Hd Hp. unfold keys, debt. cbn. rewrite Hat, Hp. clear Hd.
  assert (r = ListLin.RBool true) as ->.
  { unfold ListLin.phase_of in Hp. repeat case_match; by simplify_eq. }
  set (M := table_map (ListLin.contents (lnodes s))) in *.
  set (M' := table_map (ListLin.contents (LockFreeList.nodes l))) in *. clearbody M M'.
  destruct (call (threads s t)) as [k v|k|k]; cbn in Hm; [| |done].
  - destruct (M !! norm k) eqn:Hk; simplify_eq. rewrite map_size_insert_None by done. lia.
  - injection Hm as Hb <-. apply bool_decide_eq_true_1 in Hb as [v Hv].
    rewrite map_size_delete, Hv.
    assert (size M ≠ 0). { intros H0%map_size_empty_inv. subst. done. }
    lia.
Qed.

Lemma count_go t s s' :
  ok s → go t s = Some s' → u32 (count_ s' + debt s' t - keys s') = u32 (count_ s + debt s t - keys s).
Proof.
  intros Hok Hs. pose proof Hok as [Hsh Ht].
  destruct (go_kind t s s' Hs) as [c El Et Hc Hp _ _ Hni|r Hat ->|c o start l Hc -> Hp Hnr Hcc
    |l Hl -> Hat Hnd|c l res found Hl -> Hd Hat].
  - assert (keys s' = keys s) as -> by (unfold keys; by rewrite El).
    pose proof (local_count t s s' Hs Hni El) as E. rewrite Et, upd_eq in E. specialize (E Hc).
    unfold u32 in *. rewrite (Zminus_mod _ (keys s)), E, <- Zminus_mod. done.
  - unfold keys, debt. cbn. by rewrite upd_eq, Hat.
  - destruct (call_contents _ _ _ _ _ Hc) as [En Eth]. unfold keys. cbn. rewrite En.
    rewrite (debt_running s t Hp). f_equal. f_equal. f_equal. unfold debt. cbn. rewrite upd_eq. cbn.
    destruct Hcc as [[-> ->]|(b & cs & ->)]; [|done]. rewrite Eth. unfold ListLin.phase_of. cbn.
    by destruct (call (threads s t)).
  - cbn. destruct (list_go_inv s t l Hsh Hl) as [Ec _ Hp _|r new Hp Ha Hp' _ _|res f Hd _];
      [| |by destruct (Hnd res f)].
    + unfold keys. cbn. rewrite Ec. f_equal. f_equal. f_equal. unfold debt. cbn. by rewrite Hp.
    + destruct Hat as [Hat|(b & cs & Hat)].
      * assert (phase_of s t = Running (call (threads s t))) as Hpt by (unfold phase_of; by rewrite Hat, Hp).
        destruct (in_list_oper s t (Ht t) Hat Hpt) as [_ Eo]. rewrite Eo in Ha.
        destruct (list_apply_table _ _ _ _ (ok_map _ Hsh) Ha) as [_ Hm].
        pose proof (debt_running s t Hpt) as Hd.
        pose proof (effect_debt s t l r Hm Hat Hd Hp') as E. rewrite Hd. f_equal. lia.
      * pose proof (Ht t) as Htt. unfold thread_ok in Htt. rewrite Hat in Htt. destruct Htt as (_ & Hcl & Eo).
        apply calls_range in Hcl as [Hb _]. rewrite Eo in Ha.
        destruct (list_apply_dummy b _ _ _ ltac:(lia) (ok_map _ Hsh) Ha) as [_ Hm].
        unfold keys, debt. cbn. by rewrite Hm, Hat.
  - rewrite (debt_done s t c l res found Hok Hd Hat).
    unfold keys. cbn. cbn in Hl. unfold LockFreeList.go in Hl. rewrite Hd in Hl. by injection Hl as <-.
Qed.

Definition balanced (n : nat) (s : state) : Prop :=
  ok s ∧ u32 (count_ s) = count_ s ∧ u32 (count_ s + debts s n - keys s) = 0%Z.

Lemma count_range l s s' : step l s = Some s' → u32 (count_ s) = count_ s → u32 (count_ s') = count_ s'.
Proof.
  intros Hs Hc. assert (∀ x, u32 (u32 x) = u32 x) as Hu by (intros; apply Zmod_mod).
  destruct l as [t o|t]; cbn in Hs.
  { destruct (at_ (threads s t)); try done. by injection Hs as <-. }
  unfold go, call_list, list_step in Hs.
  destruct (at_ (threads s t)); try done;
    repeat (first [case_match|done|progress simplify_eq/=|progress simplify_option_eq]); auto.
Qed.

Lemma balanced_step n l s s' :
  who l < n → balanced n s → step l s = Some s' → balanced n s'.
Proof.
  intros Hn (Hok & Hr & Hb) Hs. split_and!; [by eapply ok_step|by eapply count_range|].
  assert (∀ u, u ≠ who l → debt s' u = debt s u) as Hu.
  { intros u Hne. apply debt_frame; [by eapply step_threads|by eapply step_lthreads]. }
  rewrite (debts_upd s s' (who l) n Hu Hn).
  assert (u32 (count_ s' + debt s' (who l) - keys s') = u32 (count_ s + debt s (who l) - keys s)) as E.
  { destruct l as [t o|t]; [|by apply count_go]. cbn in Hs.
    destruct (at_ (threads s t)) eqn:Hat; try done. injection Hs as <-.
    unfold keys, debt. cbn. by rewrite upd_eq, Hat. }
  replace (count_ s' + (debts s n + debt s' (who l) - debt s (who l)) - keys s')%Z
    with ((count_ s' + debt s' (who l) - keys s') + (debts s n - debt s (who l)))%Z by lia.
  unfold u32 in *. rewrite Zplus_mod, E, <- Zplus_mod, <- Hb. f_equal. lia.
Qed.

Lemma debts_idle s n : (∀ t, at_ (threads s t) = Idle) → debts s n = 0%Z.
Proof. intros Hi. induction n as [|n IH]; cbn; [done|]. rewrite IH. unfold debt. by rewrite Hi. Qed.

Lemma balanced_make n : balanced n make.
Proof.
  split_and!; [exact make_ok|vm_compute; reflexivity|].
  rewrite debts_idle by (intros t; apply make_idle). unfold keys. rewrite make_map. vm_compute. reflexivity.
Qed.

Lemma balanced_exec n sched : ∀ s s',
  Forall (λ l, who l < n) sched → balanced n s → exec step sched s = Some s' → balanced n s'.
Proof.
  induction sched as [|l sched IH]; intros s s' Hf Hb He; cbn in He; [by simplify_eq|].
  apply Forall_cons in Hf as [Hl Hf]. destruct (step l s) as [s1|] eqn:Hs; cbn in He; [|done].
  eapply IH; [exact Hf| |exact He]. by eapply balanced_step.
Qed.

(** C23. The counter: in any interleaving of threads below [n], it is the number
    of keys less what [insertKey]s have linked and not yet counted and plus what
    [removeKey]s have unlinked and not yet counted, modulo 2^32; when no thread
    is in a call, it is the number of keys. *)
Theorem count_is_number_of_keys n sched s :
  Forall (λ l, who l < n) sched → exec step sched make = Some s →
  getCount s = u32 (keys s - debts s n) ∧
  ((∀ t, at_ (threads s t) = Idle) → getCount s = u32 (keys s)).
Proof.
  intros Hf He. destruct (balanced_exec n sched make s Hf (balanced_make n) He) as (_ & Hr & Hb).
  assert (getCount s = u32 (keys s - debts s n)) as E.
  { unfold getCount, u32 in *. rewrite <- Hr. apply Z.mod_divide in Hb as [q Hq]; [|done].
    replace (count_ s) with (keys s - debts s n + q * 2 ^ 32)%Z at 1 by lia. by rewrite Z_mod_plus_full. }
  split; [exact E|]. intros Hi. by rewrite E, debts_idle, Z.sub_0_r.
Qed.

(** ** Instances *)

Definition after (sched : list label) : state := default members (exec step sched make).

(** Threads 1 and 2 insert keys of bucket 1, which both find [NULL] and both
    initialise, step by step in turn; then thread 3 looks for the second key. *)
Definition two_inserts : list label :=
  Call 1 (HashTable.Insert 1 10) :: Call 2 (HashTable.Insert 3 30) :: concat (replicate 30 [Go 1; Go 2]) ++
  replicate 17 (Go 2) ++ Call 3 (HashTable.Find 3) :: replicate 18 (Go 3).

Lemma two_inserts_run : exec step two_inserts make = Some (after two_inserts).
Proof. apply (exec_default step). vm_compute. reflexivity. Qed.

(** Threads 1 and 2 have linked a key and not yet counted it; thread 3 removes
    both keys, and key 0; the counter wraps around.  Thread 4 inserts a key and
    takes the table to be overloaded. *)
Definition lagging : list label :=
  Call 1 (HashTable.Insert 2 20) :: replicate 15 (Go 1) ++
  Call 2 (HashTable.Insert 6 60) :: replicate 19 (Go 2) ++
  Call 3 (HashTable.Remove 2) :: replicate 21 (Go 3) ++
  Call 3 (HashTable.Remove 6) :: replicate 21 (Go 3) ++
  Call 3 (HashTable.Remove 0) :: replicate 17 (Go 3) ++
  Call 4 (HashTable.Insert 4 40) :: replicate 15 (Go 4).

Definition grown : list label := lagging ++ replicate 6 (Go 4).

(** Key 4 is removed again, and thread 5 finds the same load. *)
Definition racing : list label :=
  lagging ++ Call 3 (HashTable.Remove 4) :: replicate 17 (Go 3) ++
  Call 5 (HashTable.Insert 8 80) :: replicate 15 (Go 5).

Lemma grown_run : exec step grown make = Some (after grown).
Proof. apply (exec_default step). vm_compute. reflexivity. Qed.

Lemma racing_run : exec step racing make = Some (after racing).
Proof. apply (exec_default step). vm_compute. reflexivity. Qed.

(** C24. What the table's growth does not protect.  There are interleavings after
    which the counter has wrapped around to nearly 2^32, since an insertion is
    counted after its key can be seen and removed, and an insertion into a table
    with no other key has doubled it; and there are some in which two threads are
    about to execute [buckets_.push_back(NULL)] at once. *)
Theorem growth_unprotected :
  (∃ sched s, exec step sched make = Some s ∧
     getCount s = (2 ^ 32 - 1)%Z ∧ keys s = 1%Z ∧ getSize s = (2 * getSize make)%Z) ∧
  (∃ sched s t u c i d j, exec step sched make = Some s ∧ t ≠ u ∧
     at_ (threads s t) = PushBack c i ∧ at_ (threads s u) = PushBack d j).
Proof.
  split.
  - exists grown, (after grown). split; [exact grown_run|]. vm_compute. auto.
  - exists racing, (after racing), 4, 5, 2%Z, 0%Z, 2%Z, 0%Z.
    split; [exact racing_run|]. split; [done|]. vm_compute. auto.
Qed.


Lemma hash_table_linearizable_witness :
  history two_inserts make =
    [ECall 1 (HashTable.Insert 1 10); ECall 2 (HashTable.Insert 3 30); EReturn 1 (HashTable.RBool true);
     EReturn 2 (HashTable.RBool true); ECall 3 (HashTable.Find 3);
     EReturn 3 (HashTable.RFind (Some (Some 30%Z)))] ∧
  ∃ p, atomic HashTable.map_perform {[0%Z := 0%Z]} (history two_inserts make)
         (table_map (ListLin.contents (lnodes (after two_inserts)))) p.
Proof.
  split; [vm_compute; reflexivity|].
  exact (hash_table_linearizable two_inserts (after two_inserts) two_inserts_run).
Defined.

Lemma grown_below : Forall (λ l, who l < 6) grown.
Proof. apply (bool_decide_unpack _). vm_compute. exact I. Qed.

Lemma count_is_number_of_keys_witness :
  debts (after grown) 6 = 2%Z ∧
  getCount (after grown) = u32 (keys (after grown) - debts (after grown) 6).
Proof.
  split; [vm_compute; reflexivity|].
  exact (proj1 (count_is_number_of_keys 6 grown (after grown) grown_below grown_run)).
Defined.

End ConcurrentTable.
