(* ===== verification/ThreadPoolNormal.v ===== *)
(** * The thread pool with one queue ([thread_pool_normal.hpp], [.cpp])

    Workers take tasks from a queue under a mutex and sleep on a condition
    variable.  A step is what a thread does while it holds [queue_lock_], or the
    execution of a task.  Tasks are numbers; [once] tells whether a callback is
    of the kind that deletes itself when it is called. *)

From S2P Require Import Prelude.

Module ThreadPoolNormal.
Section pool.
Context (once : nat → bool).

(** A worker in [ExecuteTask]: about to take the lock; asleep in
    [queue_empty_.wait]; woken and about to take the lock again; executing a
    task; returned. *)
Inductive worker := Top | Waiting | Woken | Running (task : nat) | Exited.

#[global] Instance worker_eq_dec : EqDecision worker.
Proof. solve_decision. Defined.

(** [stopping]: a call of [stop()] by a worker or by another thread ([None]) that
    has joined the first [i] threads.  [accepted], [started], [completed] and
    [deleted] record the tasks in the order of the events. *)
Record state := mkState {
  flagstop_ : bool;
  tasks_ : list nat;
  threads_ : list worker;
  stopping : option (option nat * nat);
  accepted : list nat;
  started : list nat;
  completed : list nat;
  deleted : list nat
}.

(** The constructor. *)
Definition make (num_workers : nat) : state :=
  mkState false [] (replicate num_workers Top) None [] [] [] [].

Definition set_worker (w : nat) (p : worker) (s : state) : state :=
  mkState (flagstop_ s) (tasks_ s) (<[w := p]> (threads_ s)) (stopping s)
    (accepted s) (started s) (completed s) (deleted s).

(** From taking the lock to giving it up: the loop's test, then sleep, leave or
    take the first task. *)
Definition take_task (w : nat) (s : state) : state :=
  match tasks_ s with
  | [] => if flagstop_ s then set_worker w Exited s else set_worker w Waiting s
  | task :: tasks =>
    if flagstop_ s then set_worker w Exited s
    else mkState (flagstop_ s) tasks (<[w := Running task]> (threads_ s)) (stopping s)
           (accepted s) (started s ++ [task]) (completed s) (deleted s)
  end.

(** The call of the task, which deletes a task of the once kind, then the deletion of the
    others. *)
Definition run_task (w task : nat) (s : state) : state :=
  let by_call := if once task then [task] else [] in
  let by_pool := if once task then [] else [task] in
  mkState (flagstop_ s) (tasks_ s) (<[w := Top]> (threads_ s)) (stopping s)
    (accepted s) (started s) (completed s ++ [task]) (deleted s ++ by_call ++ by_pool).

Definition ExecuteTask_step (w : nat) (s : state) : option state :=
  p ← threads_ s !! w;
  match p with
  | Top | Woken => Some (take_task w s)
  | Running task =>
    (* inside the task the worker may be waiting in [stop()] *)
    match stopping s with
    | Some (Some c, _) => if decide (c = w) then None else Some (run_task w task s)
    | _ => Some (run_task w task s)
    end
  | Waiting | Exited => None
  end.

(** [queue_empty_.signal()] wakes a sleeping worker, if there is one. *)
Definition signal (wake : option nat) (l : list worker) : option (list worker) :=
  match wake with
  | Some w => if decide (l !! w = Some Waiting) then Some (<[w := Woken]> l) else None
  | None => if decide (Waiting ∈ l) then None else Some l
  end.

Definition addTask (task : nat) (wake : option nat) (s : state) : option state :=
  if flagstop_ s then Some s
  else l ← signal wake (threads_ s);
       Some (mkState false (tasks_ s ++ [task]) l (stopping s)
               (accepted s ++ [task]) (started s) (completed s) (deleted s)).

(** [queue_empty_.signalAll()]. *)
Definition signalAll (l : list worker) : list worker :=
  map (λ p, match p with Waiting => Woken | p => p end) l.

(** A call of [stop()] is made outside the pool or inside a task. *)
Definition may_call (caller : option nat) (s : state) : bool :=
  match caller with
  | None => true
  | Some w => match threads_ s !! w with Some (Running _) => true | _ => false end
  end.

(** [stop()] up to the joins; a second call returns at once. *)
Definition stop (caller : option nat) (s : state) : option state :=
  if may_call caller s then
    if flagstop_ s then Some s
    else Some (mkState true (tasks_ s) (signalAll (threads_ s)) (Some (caller, 0))
                 (accepted s) (started s) (completed s) (deleted s))
  else None.

(** One turn of the loop of joins, or the return; joining oneself fails at once. *)
Definition join (s : state) : option state :=
  match stopping s with
  | None => None
  | Some (caller, i) =>
    let to st := mkState (flagstop_ s) (tasks_ s) (threads_ s) st
                   (accepted s) (started s) (completed s) (deleted s) in
    match threads_ s !! i with
    | None => Some (to None)
    | Some p => if decide (caller = Some i ∨ p = Exited) then Some (to (Some (caller, S i))) else None
    end
  end.

Definition count (s : state) : nat := length (tasks_ s).

(** The destructor: tasks of the once kind that did not start are deleted. *)
Definition destroy (s : state) : list nat := deleted s ++ filter (λ t, once t) (tasks_ s).

Inductive label := Go (w : nat) | Spurious (w : nat) | Add (task : nat) (wake : option nat)
  | Stop (caller : option nat) | Join.

Definition step (l : label) (s : state) : option state :=
  match l with
  | Go w => ExecuteTask_step w s
  | Spurious w => if decide (threads_ s !! w = Some Waiting) then Some (set_worker w Woken s) else None
  | Add task wake => addTask task wake s
  | Stop caller => stop caller s
  | Join => join s
  end.

(** ** The invariant *)

Definition running (l : list worker) : list nat :=
  omap (λ p, match p with Running t => Some t | _ => None end) l.

(** The workers that are about to look at the queue. *)
Definition ready (p : worker) : nat := match p with Top | Woken => 1 | _ => 0 end.

Record Inv (s : state) : Prop := {
  i_order : accepted s = started s ++ tasks_ s;
  i_runs : started s ≡ₚ completed s ++ running (threads_ s);
  i_deleted : deleted s = completed s;
  i_wake : Waiting ∈ threads_ s → length (tasks_ s) ≤ tally ready (threads_ s);
  i_stop : flagstop_ s = true → Waiting ∉ threads_ s;
  i_stopping : ∀ c i, stopping s = Some (c, i) → flagstop_ s = true ∧
    (∀ w, c = Some w → ∃ t, threads_ s !! w = Some (Running t)) ∧
    ∀ j, j < i → c = Some j ∨ threads_ s !! j = Some Exited
}.

Lemma running_insert l w p q :
  l !! w = Some p → running (<[w := q]> l) ++ running [p] ≡ₚ running l ++ running [q].
Proof.
  revert w. induction l as [|x l IH]; intros [|w] Hw; simplify_eq/=.
  - unfold running. cbn. destruct p, q; cbn; solve_Permutation.
  - specialize (IH w Hw). unfold running in *. cbn in *. destruct x; cbn; by rewrite ?IH.
Qed.

Lemma Waiting_insert w p (l : list worker) : Waiting ∈ <[w := p]> l → Waiting = p ∨ Waiting ∈ l.
Proof.
  intros [i Hi]%list_elem_of_lookup. destruct (decide (i = w)) as [->|].
  - apply list_lookup_insert_Some in Hi as [(_ & -> & _)|[? ?]]; [by left|done].
  - rewrite list_lookup_insert_ne in Hi by done. right. by eapply list_elem_of_lookup_2.
Qed.

(** What a worker that is not executing a task does leaves [stop()] alone. *)
Lemma stopping_insert (s : state) w p q c i :
  Inv s → threads_ s !! w = Some p → (∀ t, p ≠ Running t) → p ≠ Exited →
  stopping s = Some (c, i) →
  flagstop_ s = true ∧
    (∀ u, c = Some u → ∃ t, <[w := q]> (threads_ s) !! u = Some (Running t)) ∧
    ∀ j, j < i → c = Some j ∨ <[w := q]> (threads_ s) !! j = Some Exited.
Proof.
  intros Hi Hw Hr He Hst. destruct (i_stopping _ Hi _ _ Hst) as (Hf & Hc & Hj).
  split; [done|]. split.
  - intros u Hu. destruct (Hc u Hu) as [t Ht]. exists t.
    rewrite list_lookup_insert_ne; [done|]. intros ->. rewrite Hw in Ht. simplify_eq. by eapply Hr.
  - intros j Hlt. destruct (Hj j Hlt) as [|Hx]; [by left|right].
    rewrite list_lookup_insert_ne; [done|]. intros ->. rewrite Hw in Hx. by simplify_eq.
Qed.

(** A worker moves without touching the tasks. *)
Lemma Inv_moves s w p q :
  Inv s → threads_ s !! w = Some p → (∀ t, p ≠ Running t) → (∀ t, q ≠ Running t) → p ≠ Exited →
  (q = Waiting → flagstop_ s = false ∧ tasks_ s = []) →
  (flagstop_ s = false → tasks_ s = [] ∨ ready p ≤ ready q) →
  Inv (set_worker w q s).
Proof.
  intros Hi Hw Hp Hq He Hwait Hready. split; cbn; try apply Hi.
  - assert (running [p] = [] ∧ running [q] = []) as [E1 E2].
    { destruct p, q; try done; exfalso; (by eapply Hp) || (by eapply Hq). }
    pose proof (running_insert _ w p q Hw) as Hperm. rewrite E1, E2, !app_nil_r in Hperm.
    rewrite Hperm. apply Hi.
  - intros Hin. destruct (flagstop_ s) eqn:Hf.
    + apply Waiting_insert in Hin as [<-|Hin]; [by destruct Hwait|].
      by destruct (i_stop _ Hi Hf).
    + destruct (Hready eq_refl) as [->|Hle]; [cbn; lia|].
      apply Waiting_insert in Hin as [<-|Hin].
      { destruct Hwait as [_ ->]; [done|]. cbn. lia. }
      pose proof (i_wake _ Hi Hin). pose proof (tally_insert ready _ w p q Hw). lia.
  - intros Hf Hin. apply Waiting_insert in Hin as [<-|Hin].
    { destruct Hwait as [Hx _]; [done|congruence]. }
    by destruct (i_stop _ Hi Hf).
  - intros c i Hst. by eapply stopping_insert.
Qed.

Lemma Inv_take s w p :
  Inv s → threads_ s !! w = Some p → p = Top ∨ p = Woken → Inv (take_task w s).
Proof.
  intros Hi Hw Hp. unfold take_task.
  assert (∀ t, p ≠ Running t) as Hr by (by intros t ->; destruct Hp).
  assert (p ≠ Exited) as He by (by intros ->; destruct Hp).
  destruct (tasks_ s) as [|task tasks] eqn:Ht; destruct (flagstop_ s) eqn:Hf;
    try (eapply Inv_moves; (by intros; congruence) || naive_solver).
  split; cbn; try apply Hi.
  - rewrite (i_order _ Hi), Ht. by rewrite <- app_assoc.
  - pose proof (running_insert _ w p (Running task) Hw) as Hperm.
    replace (running [p]) with (@nil nat) in Hperm by (by destruct Hp as [-> | ->]).
    rewrite app_nil_r in Hperm. rewrite Hperm, (i_runs _ Hi). cbn. by rewrite app_assoc.
  - intros Hin. apply Waiting_insert in Hin as [|Hin]; [done|].
    pose proof (i_wake _ Hi Hin) as Hwk. rewrite Ht in Hwk. cbn in Hwk.
    pose proof (tally_insert ready _ w p (Running task) Hw) as Htl. cbn in Htl.
    destruct Hp as [-> | ->]; cbn in Htl; lia.
  - done.
  - intros c i Hst. destruct (i_stopping _ Hi c i Hst) as [Hx _]. congruence.
Qed.

Lemma Inv_run s w task :
  Inv s → threads_ s !! w = Some (Running task) → (∀ i, stopping s ≠ Some (Some w, i)) →
  Inv (run_task w task s).
Proof.
  intros Hi Hw Hns. unfold run_task. split; cbn; try apply Hi.
  - pose proof (running_insert _ w (Running task) Top Hw) as Hperm. cbn in Hperm.
    rewrite app_nil_r in Hperm. rewrite (i_runs _ Hi), <- Hperm. solve_Permutation.
  - rewrite (i_deleted _ Hi). by destruct (once task).
  - intros Hin. apply Waiting_insert in Hin as [|Hin]; [done|].
    pose proof (i_wake _ Hi Hin). pose proof (tally_insert ready _ w _ Top Hw) as Htl.
    cbn in Htl. lia.
  - intros Hf Hin. apply Waiting_insert in Hin as [|Hin]; [done|]. by destruct (i_stop _ Hi Hf).
  - intros c i Hst. destruct (i_stopping _ Hi _ _ Hst) as (Hf & Hc & Hj). split; [done|]. split.
    + intros u ->. destruct (Hc u eq_refl) as [t Ht]. exists t.
      rewrite list_lookup_insert_ne; [done|]. intros ->. by eapply Hns.
    + intros j Hlt. destruct (Hj j Hlt) as [|Hx]; [by left|right].
      rewrite list_lookup_insert_ne; [done|]. intros ->. congruence.
Qed.

Lemma Inv_add s task wake s' : Inv s → addTask task wake s = Some s' → Inv s'.
Proof.
  intros Hi Ha. unfold addTask in Ha. destruct (flagstop_ s) eqn:Hf; [by simplify_eq|].
  assert (∀ c i, stopping s ≠ Some (c, i)) as Hns.
  { intros c i Hst. destruct (i_stopping _ Hi c i Hst). congruence. }
  destruct (signal wake (threads_ s)) as [l|] eqn:Hs; cbn in Ha; [|done]. simplify_eq.
  assert (running l ≡ₚ running (threads_ s) ∧
          (Waiting ∈ l → S (length (tasks_ s)) ≤ tally ready l)) as [Hr Hw].
  { unfold signal in Hs. destruct wake as [w|]; case_decide as Hd; simplify_eq; [|done].
    pose proof (running_insert _ w Waiting Woken Hd) as Hp. cbn in Hp. rewrite !app_nil_r in Hp.
    split; [done|]. intros _. pose proof (tally_insert ready _ w _ Woken Hd) as Ht. cbn in Ht.
    pose proof (i_wake _ Hi (list_elem_of_lookup_2 _ _ _ Hd)). lia. }
  split; cbn; try apply Hi; try done.
  - by rewrite (i_order _ Hi), app_assoc.
  - by rewrite Hr, (i_runs _ Hi).
  - intros Hin. rewrite length_app. cbn. specialize (Hw Hin). lia.
  - intros c i Hst. by destruct (Hns c i).
Qed.

Lemma signalAll_lookup l w :
  signalAll l !! w = (λ p, match p with Waiting => Woken | p => p end) <$> l !! w.
Proof. apply list_lookup_fmap. Qed.

Lemma Inv_stop c s s' : Inv s → stop c s = Some s' → Inv s'.
Proof.
  intros Hi Hs. unfold stop in Hs. destruct (may_call c s) eqn:Hc; [|done].
  destruct (flagstop_ s) eqn:Hf; simplify_eq; [done|].
  assert (Waiting ∉ signalAll (threads_ s)) as Hn.
  { intros [i Hl]%list_elem_of_lookup. rewrite signalAll_lookup in Hl.
    by destruct (threads_ s !! i) as [[]|]. }
  split; cbn; try apply Hi; try done.
  - rewrite (i_runs _ Hi). f_equiv. generalize (threads_ s). intros l.
    induction l as [|p l IH]; cbn; [done|]. unfold running in *. destruct p; cbn; by rewrite IH.
  - intros c' i ?. simplify_eq. split; [done|]. split; [|lia].
    intros w ->. cbn in Hc. rewrite signalAll_lookup. destruct (threads_ s !! w) as [[]|]; try done.
    eauto.
Qed.

Lemma Inv_join s s' : Inv s → join s = Some s' → Inv s'.
Proof.
  intros Hi Hj. unfold join in Hj. destruct (stopping s) as [[c i]|] eqn:Hst; [|done].
  destruct (i_stopping _ Hi c i Hst) as (Hf & Hc & Hlt).
  destruct (threads_ s !! i) as [p|] eqn:Hp; [case_decide as Hd; [|done]|]; simplify_eq;
    split; cbn; try apply Hi; try done.
  intros c' i' ?. simplify_eq. split; [done|]. split; [done|]. intros j Hji.
  destruct (decide (j = i)) as [->|]; [|apply Hlt; lia].
  destruct Hd as [Hd|Hd]; [by left|right; by rewrite Hp, Hd].
Qed.

Lemma Inv_pool l s s' : Inv s → step l s = Some s' → Inv s'.
Proof.
  intros Hi Hs. destruct l as [w|w|task wake|c|]; cbn in Hs.
  - unfold ExecuteTask_step in Hs. destruct (threads_ s !! w) as [p|] eqn:Hw; cbn in Hs; [|done].
    destruct p as [| | |task|]; try done; simplify_eq.
    + eapply Inv_take; eauto.
    + eapply Inv_take; eauto.
    + destruct (stopping s) as [[[c|] i]|] eqn:Hst; [case_decide; [done|]|..]; simplify_eq;
        apply Inv_run; congruence.
  - case_decide as Hw; [|done]. simplify_eq. eapply Inv_moves; eauto; cbn; try done. lia.
  - by eapply Inv_add.
  - by eapply Inv_stop.
  - by eapply Inv_join.
Qed.

Lemma Inv_new n : Inv (make n).
Proof.
  assert (∀ x, x ∈ replicate n Top → x = Top) as Hx by (intros x Hx; by apply elem_of_replicate in Hx as [? _]).
  split; cbn; try done.
  - induction n as [|n IH]; cbn; [done|]. apply IH. intros x Hin. apply Hx. by right.
  - intros Hin. by apply Hx in Hin.
Qed.

Lemma Inv_reachable n s : reachable step (make n) s → Inv s.
Proof. apply reachable_invariant; [apply Inv_pool|apply Inv_new]. Qed.

(** Whatever the interleaving, tasks are started in the order in which they
    were accepted, each once; what was started and has not been completed is
    being executed by a worker; the tasks deleted by the time are exactly those
    completed, once each, of both kinds; and the destructor adds to them the ones
    of the once kind that were never started. *)
Lemma normal_tasks_run_once_in_order n s :
  reachable step (make n) s →
  accepted s = started s ++ tasks_ s ∧
  started s ≡ₚ completed s ++ running (threads_ s) ∧
  deleted s = completed s ∧
  destroy s = completed s ++ filter (λ t, once t) (tasks_ s).
Proof.
  intros Hi%Inv_reachable. split; [apply Hi|]. split; [apply Hi|]. split; [apply Hi|].
  unfold destroy. by rewrite (i_deleted _ Hi).
Qed.

(** C21. No wake-up is lost: as long as some worker sleeps, there are at least as
    many workers on their way to the queue as there are tasks in it; and once the
    pool is stopped no worker sleeps. *)
Theorem normal_no_lost_wakeup n s :
  reachable step (make n) s → Waiting ∈ threads_ s →
  flagstop_ s = false ∧ count s ≤ tally ready (threads_ s).
Proof.
  intros Hi%Inv_reachable Hw. split; [|by apply (i_wake _ Hi)].
  destruct (flagstop_ s) eqn:Hf; [|done]. by destruct (i_stop _ Hi Hf).
Qed.

(** ** The end of [stop()] *)

(** How many steps a worker can still take in a stopped pool, and how many are
    left of the loop of joins. *)
Definition weight (p : worker) : nat :=
  match p with Running _ => 2 | Top | Woken => 1 | Waiting | Exited => 0 end.
Definition joins_left (s : state) : nat :=
  match stopping s with Some (_, i) => S (length (threads_ s) - i) | None => 0 end.
Definition steps_left (s : state) : nat := tally weight (threads_ s) + joins_left s.

Lemma go_decreases s w s' :
  flagstop_ s = true → step (Go w) s = Some s' → steps_left s' < steps_left s.
Proof.
  intros Hf Hs. cbn in Hs. unfold ExecuteTask_step in Hs.
  destruct (threads_ s !! w) as [p|] eqn:Hw; cbn in Hs; [|done].
  assert (∀ q, weight q < weight p → threads_ s' = <[w := q]> (threads_ s) →
               stopping s' = stopping s → steps_left s' < steps_left s) as Hless.
  { intros q Hq Et Est. unfold steps_left, joins_left. rewrite Et, Est, length_insert.
    pose proof (tally_insert weight _ w p q Hw). lia. }
  destruct p as [| | |task|]; try done.
  - apply (Hless Exited); [cbn; lia|..]; simplify_eq; unfold take_task; rewrite Hf; by destruct (tasks_ s).
  - apply (Hless Exited); [cbn; lia|..]; simplify_eq; unfold take_task; rewrite Hf; by destruct (tasks_ s).
  - assert (s' = run_task w task s) as ->.
    { destruct (stopping s) as [[[c|] i]|]; try (case_decide; [done|]); by simplify_eq. }
    by apply (Hless Top); [cbn; lia|..].
Qed.

Lemma go_flag s w s' : flagstop_ s = true → step (Go w) s = Some s' → flagstop_ s' = true.
Proof.
  intros Hf Hs. cbn in Hs. unfold ExecuteTask_step in Hs.
  destruct (threads_ s !! w) as [[| | |task|]|]; cbn in Hs; try done.
  - simplify_eq. unfold take_task. by destruct (tasks_ s); rewrite Hf.
  - simplify_eq. unfold take_task. by destruct (tasks_ s); rewrite Hf.
  - destruct (stopping s) as [[[c|] i]|]; try (case_decide; [done|]); by simplify_eq.
Qed.

Lemma join_decreases s s' : step Join s = Some s' → steps_left s' < steps_left s.
Proof.
  intros Hs. cbn in Hs. unfold join in Hs. unfold steps_left, joins_left.
  destruct (stopping s) as [[c i]|] eqn:Hst; [|done].
  destruct (threads_ s !! i) as [p|] eqn:Hp; [case_decide; [|done]|]; simplify_eq; cbn; [|lia].
  apply lookup_lt_Some in Hp. lia.
Qed.

(** C36. [stop()] returns, called from a worker or not.  In a stopped pool the
    steps of the workers and of the joins use up a bounded number of steps that
    nothing else renews, as long as the joins are not over one of them can be
    taken, and when they are over all workers but the caller have returned. *)
Theorem normal_stop_returns n s :
  reachable step (make n) s → flagstop_ s = true →
  (∀ w s', step (Go w) s = Some s' → steps_left s' < steps_left s) ∧
  (∀ s', step Join s = Some s' → steps_left s' < steps_left s) ∧
  (∀ l s', step l s = Some s' → steps_left s' ≤ steps_left s ∧ flagstop_ s' = true) ∧
  (stopping s ≠ None → ∃ l s', (l = Join ∨ ∃ w, l = Go w) ∧ step l s = Some s') ∧
  (∀ c i s', stopping s = Some (c, i) → step Join s = Some s' → stopping s' = None →
     ∀ j p, threads_ s !! j = Some p → c = Some j ∨ p = Exited).
Proof.
  intros Hi%Inv_reachable Hf. split_and!.
  - intros w s'. by apply go_decreases.
  - apply join_decreases.
  - intros [w|w|task wake|c|] s' Hs.
    + split; [by apply Nat.lt_le_incl, (go_decreases s w)|by eapply go_flag].
    + cbn in Hs. case_decide as Hw; [|done]. apply list_elem_of_lookup_2 in Hw.
      by destruct (i_stop _ Hi Hf).
    + cbn in Hs. unfold addTask in Hs. rewrite Hf in Hs. by simplify_eq.
    + cbn in Hs. unfold stop in Hs. rewrite Hf in Hs. destruct (may_call c s); by simplify_eq.
    + split; [by apply Nat.lt_le_incl, join_decreases|]. cbn in Hs. unfold join in Hs.
      destruct (stopping s) as [[c i]|]; [|done].
      destruct (threads_ s !! i); [case_decide; [|done]|]; by simplify_eq.
  - destruct (stopping s) as [[c i]|] eqn:Hst; [intros _|done].
    destruct (threads_ s !! i) as [p|] eqn:Hp.
    2: { exists Join. eexists. split; [by left|]. cbn. unfold join. by rewrite Hst, Hp. }
    destruct (decide (c = Some i ∨ p = Exited)) as [Hd|Hd].
    { exists Join. eexists. split; [by left|]. cbn. unfold join. rewrite Hst, Hp.
      by rewrite decide_True. }
    exists (Go i). cbn. unfold ExecuteTask_step. rewrite Hp, Hst. cbn.
    destruct p as [| | |task|]; [eauto|..|tauto].
    + apply list_elem_of_lookup_2 in Hp. by destruct (i_stop _ Hi Hf).
    + eauto.
    + destruct c as [c|]; [rewrite decide_False by naive_solver|]; eauto.
  - intros c i s' Hst Hs Hn j p Hp. cbn in Hs. unfold join in Hs. rewrite Hst in Hs.
    destruct (threads_ s !! i) as [q|] eqn:Hq; [case_decide; [|done]; by simplify_eq|].
    destruct (i_stopping _ Hi c i Hst) as (_ & _ & Hlt). destruct (Hlt j) as [|He].
    + apply lookup_ge_None in Hq. apply lookup_lt_Some in Hp. lia.
    + by left.
    + right. congruence.
Qed.
End pool.

(** ** Instances of the properties *)

Definition even_once (t : nat) : bool := Nat.even t.

(** Two workers; the first sleeps, is woken by task 6 and starts it; tasks 7 and 8
    follow while the second is still on its way. *)
Definition busy : list label := [Go 0; Add 6 (Some 0); Go 0; Add 7 None; Add 8 None; Go 0; Go 0].
Definition busy_state : state :=
  mkState false [8] [Running 7; Top] None [6; 7; 8] [6; 7] [6] [6].

Lemma busy_reachable : reachable (step even_once) (make 2) busy_state.
Proof. exists busy. vm_compute. reflexivity. Defined.

Definition drowsy_state : state := mkState false [6] [Woken; Waiting] None [6] [] [] [].

Lemma normal_no_lost_wakeup_witness : count drowsy_state ≤ tally ready (threads_ drowsy_state).
Proof.
  refine (proj2 (normal_no_lost_wakeup even_once 2 drowsy_state _ _)).
  - exists [Go 0; Go 1; Add 6 (Some 0)]. vm_compute. reflexivity.
  - cbn. right. left.
Defined.

(** The task 7 of the state above stops the pool. *)
Definition stopped_state : state :=
  mkState true [8] [Running 7; Top] (Some (Some 0, 0)) [6; 7; 8] [6; 7] [6] [6].

Lemma normal_stop_returns_witness :
  ∃ l s', (l = Join ∨ ∃ w, l = Go w) ∧ step even_once l stopped_state = Some s'.
Proof.
  refine (proj1 (proj2 (proj2 (proj2 (normal_stop_returns even_once 2 stopped_state _ _)))) _).
  - exists (busy ++ [Stop (Some 0)]). vm_compute. reflexivity.
  - reflexivity.
  - discriminate.
Defined.
End ThreadPoolNormal.
