(* ===== verification/ThreadPoolFast.v ===== *)
(** * The thread pool with free workers ([thread_pool_fast.hpp], [.cpp])

    Every worker has its own slot for a task, a mutex and a condition variable.
    A task goes to the first free worker, or to a queue when there is none; a
    worker that becomes free takes the first task of the queue.  A step is what a
    thread does under one mutex ([m_dispatch_], inside of which a worker's [m_]
    is taken), or the execution of a task. *)

From S2P Require Import Prelude.

Module ThreadPoolFast.

(** Where a worker is in [workerLoop]: about to test [has_task_]; asleep in
    [cv_has_task_.wait]; about to look at the task it got; executing it; about to
    return to the pool; gone because of a [NULL] task; gone because its task
    called [stop()]. *)
Inductive pc := Test | Asleep | Taken | Running (task : nat) | Returning | Gone | GoneLast.

(** The class [Worker], its thread's [last_worker_] and where the thread is.  A
    task is [None] when it is [NULL]. *)
Record Worker := mkWorker { has_task_ : bool; task_ : option nat; last_worker_ : bool; at_ : pc }.

(** The call of [stop()], by a worker's task or from outside: it still has [k]
    stop requests to issue; it has joined [i] threads; it has returned. *)
Inductive stop_state := NotCalled | Adding (caller : option nat) (k : nat)
  | Joining (caller : option nat) (i : nat) | Returned (caller : option nat).

(** [all_workers] are the objects, numbered like their threads in
    [workers_tids_].  [submitted], [dispatched] and [consumed] record the tasks
    that were added, given to a worker, and done with; [before] are the ones
    submitted when [stop()] was called. *)
Record state := mkState {
  dispatch_queue_ : list (option nat);
  workers_ : list nat;
  all_workers : list Worker;
  stopping : stop_state;
  submitted : list (option nat);
  dispatched : list (option nat);
  consumed : list (option nat);
  before : list (option nat)
}.

(** The constructor: each new worker is put in front of the free ones. *)
Definition make (num_workers : nat) : state :=
  mkState [] (reverse (seq 0 num_workers)) (replicate num_workers (mkWorker false None false Test))
    NotCalled [] [] [] [].

Definition set_at (p : pc) (x : Worker) : Worker :=
  mkWorker (has_task_ x) (task_ x) (last_worker_ x) p.

Definition set_worker (w : nat) (x : Worker) (s : state) : state :=
  mkState (dispatch_queue_ s) (workers_ s) (<[w := x]> (all_workers s)) (stopping s)
    (submitted s) (dispatched s) (consumed s) (before s).

Definition set_stopping (st : stop_state) (s : state) : state :=
  mkState (dispatch_queue_ s) (workers_ s) (all_workers s) st
    (submitted s) (dispatched s) (consumed s) (before s).

Definition consume (task : option nat) (s : state) : state :=
  mkState (dispatch_queue_ s) (workers_ s) (all_workers s) (stopping s)
    (submitted s) (dispatched s) (consumed s ++ [task]) (before s).

(** [assignTask]; its signal wakes the worker if it sleeps. *)
Definition assignTask (w : nat) (task : option nat) (s : state) : option state :=
  x ← all_workers s !! w;
  let p := match at_ x with Asleep => Test | p => p end in
  Some (mkState (dispatch_queue_ s) (workers_ s)
          (<[w := mkWorker true task (last_worker_ x) p]> (all_workers s)) (stopping s)
          (submitted s) (dispatched s ++ [task]) (consumed s) (before s)).

Definition queueWorker (w : nat) (s : state) : option state :=
  match dispatch_queue_ s with
  | task :: queue =>
    s ← assignTask w task s;
    Some (mkState queue (workers_ s) (all_workers s) (stopping s)
            (submitted s) (dispatched s) (consumed s) (before s))
  | [] => Some (mkState [] (w :: workers_ s) (all_workers s) (stopping s)
                  (submitted s) (dispatched s) (consumed s) (before s))
  end.

Definition addTask (task : option nat) (s : state) : option state :=
  let s := mkState (dispatch_queue_ s) (workers_ s) (all_workers s) (stopping s)
             (submitted s ++ [task]) (dispatched s) (consumed s) (before s) in
  match workers_ s with
  | worker :: ws =>
    assignTask worker task
      (mkState (dispatch_queue_ s) ws (all_workers s) (stopping s)
         (submitted s) (dispatched s) (consumed s) (before s))
  | [] => Some (mkState (dispatch_queue_ s ++ [task]) [] (all_workers s) (stopping s)
                  (submitted s) (dispatched s) (consumed s) (before s))
  end.

(** The worker's task is inside [stop()]. *)
Definition in_stop (w : nat) (s : state) : bool :=
  match stopping s with
  | Adding (Some c) _ | Joining (Some c) _ => bool_decide (c = w)
  | _ => false
  end.

Definition workerLoop_step (w : nat) (s : state) : option state :=
  x ← all_workers s !! w;
  match at_ x with
  | Test =>
    Some (set_worker w (if has_task_ x then mkWorker false (task_ x) (last_worker_ x) Taken
                        else set_at Asleep x) s)
  | Taken =>
    Some (match task_ x with
          | None => consume None (set_worker w (set_at Gone x) s)
          | Some t => set_worker w (set_at (Running t) x) s
          end)
  | Running t =>
    if in_stop w s then None
    else Some (consume (Some t)
                 (set_worker w (set_at (if last_worker_ x then GoneLast else Returning) x) s))
  | Returning => queueWorker w (set_worker w (set_at Test x) s)
  | Asleep | Gone | GoneLast => None
  end.

Definition num_workers (s : state) : nat := length (all_workers s).

(** [stop()] is called once, outside the pool or inside a task. *)
Definition stop (caller : option nat) (s : state) : option state :=
  let ok := match caller with
            | None => true
            | Some w => match all_workers s !! w with
                        | Some x => match at_ x with Running _ => true | _ => false end
                        | None => false
                        end
            end in
  match stopping s with
  | NotCalled =>
    if (ok : bool)
    then Some (mkState (dispatch_queue_ s) (workers_ s) (all_workers s) (Adding caller (num_workers s))
                 (submitted s) (dispatched s) (consumed s) (submitted s))
    else None
  | _ => None
  end.

Definition gone (x : Worker) : bool := match at_ x with Gone | GoneLast => true | _ => false end.

(** What is left of [stop()]: the loop that adds the stop requests, the loop of
    joins, which leaves the caller's own thread out, and the last lines. *)
Definition stop_step (s : state) : option state :=
  match stopping s with
  | Adding c 0 => Some (set_stopping (Joining c 0) s)
  | Adding c (S k) => addTask None (set_stopping (Adding c k) s)
  | Joining c i =>
    match all_workers s !! i with
    | Some x => if decide (c = Some i) then Some (set_stopping (Joining c (S i)) s)
                else if gone x then Some (set_stopping (Joining c (S i)) s) else None
    | None =>
      let s := set_stopping (Returned c) s in
      match c with
      | Some w => x ← all_workers s !! w;
                  Some (set_worker w (mkWorker (has_task_ x) (task_ x) true (at_ x)) s)
      | None => Some s
      end
    end
  | NotCalled | Returned _ => None
  end.

Definition count (s : state) : nat := length (dispatch_queue_ s).

(** The destructor: the tasks it deletes, [once] being the self-deleting ones. *)
Definition destroy (once : nat → bool) (s : state) : list nat :=
  filter (λ t, once t) (omap id (dispatch_queue_ s)).

Inductive label := Go (w : nat) | Spurious (w : nat) | Add (task : nat) | Stop (caller : option nat)
  | StopGo.

Definition step (l : label) (s : state) : option state :=
  match l with
  | Go w => workerLoop_step w s
  | Spurious w =>
    x ← all_workers s !! w;
    match at_ x with Asleep => Some (set_worker w (set_at Test x) s) | _ => None end
  | Add task => addTask (Some task) s
  | Stop caller => stop caller s
  | StopGo => stop_step s
  end.

(** ** The invariant *)

(** A worker without a task, waiting for one. *)
Definition idle (x : Worker) : bool :=
  negb (has_task_ x) && match at_ x with Test | Asleep => true | _ => false end.

(** The task a worker was given and is not done with. *)
Definition hand (x : Worker) : list (option nat) :=
  if has_task_ x then [task_ x]
  else match at_ x with Taken => [task_ x] | Running t => [Some t] | _ => [] end.

Definition hands (l : list Worker) : list (option nat) := concat (map hand l).

Definition is_null (o : option nat) : nat := match o with None => 1 | Some _ => 0 end.
Definition left_by_null (x : Worker) : nat := match at_ x with Gone => 1 | _ => 0 end.
Abbreviation nulls := (tally is_null).

(** The free workers are the idle ones; a worker that is given a task is idle. *)
Record slots (s : state) : Prop := {
  sl_nodup : NoDup (workers_ s);
  sl_free : ∀ w, w ∈ workers_ s ↔ ∃ x, all_workers s !! w = Some x ∧ idle x = true;
  sl_task : ∀ w x, all_workers s !! w = Some x → has_task_ x = true → at_ x = Test;
  sl_busy : dispatch_queue_ s ≠ [] → workers_ s = []
}.

(** No task is lost or done twice. *)
Record tasks (s : state) : Prop := {
  ta_order : submitted s = dispatched s ++ dispatch_queue_ s;
  ta_hand : dispatched s ≡ₚ consumed s ++ hands (all_workers s);
  ta_null : nulls (consumed s) = tally left_by_null (all_workers s)
}.

(** A worker that [stop()] need not wait for. *)
Definition settled (c : option nat) (j : nat) (x : Worker) : Prop := c = Some j ∨ gone x = true.

Definition calling (c : option nat) (s : state) : Prop :=
  ∀ w, c = Some w → ∃ x t, all_workers s !! w = Some x ∧ at_ x = Running t.

(** How far [stop()] is. *)
Record stops (s : state) : Prop := {
  st_phase : match stopping s with
    | NotCalled => nulls (submitted s) = 0
    | Adding c k => nulls (submitted s) + k = num_workers s ∧ calling c s
    | Joining c i => nulls (submitted s) = num_workers s ∧ calling c s ∧
        ∀ j x, j < i → all_workers s !! j = Some x → settled c j x
    | Returned c => nulls (submitted s) = num_workers s ∧ (∀ w, c = Some w → w < num_workers s) ∧
        ∀ j x, all_workers s !! j = Some x → settled c j x
    end;
  st_last : ∀ w x, all_workers s !! w = Some x → last_worker_ x = true ∨ at_ x = GoneLast →
    stopping s = Returned (Some w);
  st_before : stopping s ≠ NotCalled → nulls (before s) = 0 ∧ before s `prefix_of` submitted s
}.

Record Inv (s : state) : Prop := { i_slots : slots s; i_tasks : tasks s; i_stops : stops s }.

Lemma hands_insert l w x y :
  l !! w = Some x → hands (<[w := y]> l) ++ hand x ≡ₚ hands l ++ hand y.
Proof.
  unfold hands. revert w. induction l as [|z l IH]; intros [|w] Hw; simplify_eq/=.
  - solve_Permutation.
  - rewrite <- !app_assoc. by rewrite (IH w Hw).
Qed.

Lemma nulls_app l k : nulls (l ++ k) = nulls l + nulls k.
Proof. induction l as [|o l IH]; cbn; [done|lia]. Qed.

Lemma nulls_perm l k : l ≡ₚ k → nulls l = nulls k.
Proof. induction 1; cbn; lia. Qed.

(** *** What the change of a worker does *)

Lemma slots_worker s w x y :
  slots s → all_workers s !! w = Some x → idle y = idle x →
  (has_task_ y = true → at_ y = Test) → slots (set_worker w y s).
Proof.
  intros [H1 H2 H3 H4] Hw Hi Ht. split; cbn; try done.
  - intros u. rewrite H2. destruct (decide (u = w)) as [->|Hne].
    + rewrite list_lookup_insert_eq by (by eapply lookup_lt_Some). split.
      * intros (z & Hz & ?). exists y. split; [done|]. congruence.
      * intros (z & Hz & ?). exists x. split; [done|]. congruence.
    + by rewrite list_lookup_insert_ne.
  - intros u z Hz. apply list_lookup_insert_Some in Hz as [(-> & -> & _)|[_ Hz]]; eauto.
Qed.

Lemma tasks_worker s w x y :
  tasks s → all_workers s !! w = Some x → hand y = hand x → left_by_null y = left_by_null x →
  tasks (set_worker w y s).
Proof.
  intros [H1 H2 H3] Hw Hh Hn. split; cbn; [done| |].
  - rewrite H2. f_equiv. pose proof (hands_insert _ w x y Hw) as Hp. rewrite Hh in Hp.
    by apply Permutation_app_inv_r in Hp.
  - pose proof (tally_insert left_by_null _ w x y Hw). lia.
Qed.

(** The caller's task goes on, and who is gone stays gone. *)
Definition carries_on (s : state) (w : nat) (x y : Worker) : Prop :=
  (gone x = true → gone y = true) ∧ (∀ t, in_stop w s = true → at_ x = Running t → at_ y = Running t) ∧
  (last_worker_ y = true ∨ at_ y = GoneLast → last_worker_ x = true ∨ at_ x = GoneLast).

Lemma stops_insert s s' w x y :
  stops s → all_workers s !! w = Some x → carries_on s w x y →
  all_workers s' = <[w := y]> (all_workers s) → stopping s' = stopping s →
  nulls (submitted s') = nulls (submitted s) → before s' = before s →
  submitted s `prefix_of` submitted s' → stops s'.
Proof.
  intros [H1 H2 H3] Hw (Hg & Hc & Hl) Ew Es En Eb Hpre.
  assert (∀ c j z, <[w := y]> (all_workers s) !! j = Some z →
    (∀ z, all_workers s !! j = Some z → settled c j z) → settled c j z) as Hset.
  { intros c j z Hz Hs.
    apply list_lookup_insert_Some in Hz as [(-> & -> & _)|[_ Hz]]; [|by apply Hs].
    destruct (Hs x Hw) as [|?]; [by left|right; auto]. }
  assert (∀ c, (∀ u, c = Some u → u = w → in_stop w s = true) → calling c s → calling c s') as Hcall.
  { intros c Hin Hcl u Hu. destruct (Hcl u Hu) as (z & t & Hz & Ht). rewrite Ew.
    destruct (decide (u = w)) as [->|].
    - simplify_eq. exists y, t. rewrite list_lookup_insert_eq by (by eapply lookup_lt_Some). eauto.
    - exists z, t. by rewrite list_lookup_insert_ne. }
  split; rewrite ?Es, ?En, ?Eb.
  - unfold num_workers, in_stop in *. rewrite Ew, length_insert.
    destruct (stopping s) as [|c k|c i|c]; [done|..]; destruct H1 as (Hn & H1).
    + split; [done|]. apply Hcall; [|done]. intros u -> ->. cbn. by apply bool_decide_eq_true.
    + destruct H1 as [H1 H1']. split_and!; [done|..].
      * apply Hcall; [|done]. intros u -> ->. cbn. by apply bool_decide_eq_true.
      * intros j z Hj Hz. eapply Hset; [done|]. eauto.
    + destruct H1 as [H1 H1']. split_and!; [done|done|]. intros j z Hz. eapply Hset; [done|]. eauto.
  - intros u z Hz Hlast. rewrite Ew in Hz.
    apply list_lookup_insert_Some in Hz as [(-> & -> & _)|[_ Hz]]; eauto.
  - intros Hne. destruct (H3 Hne). split; [done|]. by etrans.
Qed.

Lemma stops_worker s w x y :
  stops s → all_workers s !! w = Some x → carries_on s w x y → stops (set_worker w y s).
Proof. intros Hs Hw Hc. by eapply (stops_insert s _ w x y). Qed.

(** *** Giving a task to a worker *)

Lemma idle_inv x : idle x = true → has_task_ x = false ∧ (at_ x = Test ∨ at_ x = Asleep).
Proof. unfold idle. destruct x as [[] t l []]; cbn; naive_solver. Qed.

Lemma idle_hand x : idle x = true → hand x = [] ∧ left_by_null x = 0 ∧ gone x = false.
Proof.
  intros [Ht Ha]%idle_inv. unfold hand, left_by_null, gone. rewrite Ht. by destruct Ha as [-> | ->].
Qed.

(** The worker [assignTask] leaves. *)
Definition assigned (task : option nat) (x : Worker) : Worker :=
  mkWorker true task (last_worker_ x) (match at_ x with Asleep => Test | p => p end).

Lemma assigned_carries s w x task :
  at_ x = Test ∨ at_ x = Asleep ∨ at_ x = Returning → carries_on s w x (assigned task x).
Proof.
  intros Ha. unfold carries_on, gone. cbn. destruct Ha as [-> | [-> | ->]]; naive_solver.
Qed.

(** A worker without a task in its hands gets one that was next in order. *)
Lemma tasks_assign s w x task y :
  all_workers s !! w = Some x → hand x = [] → left_by_null x = 0 →
  hand y = [task] → left_by_null y = 0 →
  dispatched s ≡ₚ consumed s ++ hands (all_workers s) →
  nulls (consumed s) = tally left_by_null (all_workers s) →
  dispatched s ++ [task] ≡ₚ consumed s ++ hands (<[w := y]> (all_workers s)) ∧
  nulls (consumed s) = tally left_by_null (<[w := y]> (all_workers s)).
Proof.
  intros Hw Hx Hnx Hy Hny H2 H3. split.
  - pose proof (hands_insert _ w x y Hw) as Hp. rewrite Hx, Hy, app_nil_r in Hp.
    by rewrite Hp, H2, app_assoc.
  - pose proof (tally_insert left_by_null _ w x y Hw). lia.
Qed.

(** What [addTask] does to the workers: nothing, or one of them gets the task. *)
Definition gets (s s' : state) : Prop :=
  all_workers s' = all_workers s ∨
  ∃ w x y, all_workers s !! w = Some x ∧ carries_on s w x y ∧
           all_workers s' = <[w := y]> (all_workers s).

Lemma addTask_spec task s :
  slots s → tasks s →
  ∃ s', addTask task s = Some s' ∧ slots s' ∧ tasks s' ∧ gets s s' ∧
    stopping s' = stopping s ∧ submitted s' = submitted s ++ [task] ∧ before s' = before s.
Proof.
  intros [H1 H2 H3 H4] [T1 T2 T3]. unfold addTask. cbn.
  destruct (workers_ s) as [|w ws] eqn:Hws.
  - eexists. split; [done|]. split_and!; [split; cbn|split; cbn|by left|done..]; try done.
    by rewrite T1, app_assoc.
  - destruct (proj1 (H2 w) ltac:(by left)) as (x & Hx & Hi).
    destruct (idle_hand _ Hi) as (Hh & Hn & Hg). pose proof (idle_inv _ Hi) as [Ht Ha].
    unfold assignTask. cbn. rewrite Hx. cbn.
    assert (dispatch_queue_ s = []) as Hq by (destruct (dispatch_queue_ s); [done|by specialize (H4 ltac:(done))]).
    assert (left_by_null (assigned task x) = 0) as Hn' by (by destruct Ha as [E|E]; unfold left_by_null; cbn; rewrite E).
    destruct (tasks_assign s w x task (assigned task x) Hx Hh Hn eq_refl Hn' T2 T3) as [T2' T3'].
    apply NoDup_cons in H1 as [Hnotin Hnd].
    eexists. split; [done|]. split_and!; [split; cbn|split; cbn| |done..].
    + done.
    + intros u. destruct (decide (u = w)) as [->|Hne].
      * split; [done|]. intros (z & Hz & Hidle).
        rewrite list_lookup_insert_eq in Hz by (by eapply lookup_lt_Some). by simplify_eq.
      * rewrite list_lookup_insert_ne, <- H2 by done. rewrite elem_of_cons. naive_solver.
    + intros u z Hz Hz'. apply list_lookup_insert_Some in Hz as [(-> & <- & _)|[_ Hz]]; [|eauto].
      cbn. by destruct Ha as [-> | ->].
    + done.
    + by rewrite T1, Hq, !app_nil_r.
    + exact T2'.
    + exact T3'.
    + right. exists w, x, (assigned task x). split_and!; [done| |done].
      apply assigned_carries. tauto.
Qed.

Lemma stops_add s s' task :
  stops s → gets s s' → stopping s' = stopping s → submitted s' = submitted s ++ [Some task] →
  before s' = before s → stops s'.
Proof.
  intros Hs Hg Es Esub Eb.
  assert (nulls (submitted s') = nulls (submitted s)) as En by (rewrite Esub, nulls_app; cbn; lia).
  assert (submitted s `prefix_of` submitted s') as Hp by (rewrite Esub; by apply prefix_app_r).
  destruct Hg as [Ew|(w & x & y & Hw & Hc & Ew)]; [|by eapply stops_insert].
  destruct Hs as [H1 H2 H3]. split; rewrite ?Es, ?En, ?Eb; unfold num_workers, calling in *; rewrite ?Ew;
    try done. intros Hne. destruct (H3 Hne). split; [done|]. by etrans.
Qed.

Lemma Inv_add_fast task s s' : Inv s → addTask (Some task) s = Some s' → Inv s'.
Proof.
  intros [H1 H2 H3] Ha. destruct (addTask_spec (Some task) s H1 H2) as (t & E & ? & ? & ? & ? & ? & ?).
  rewrite E in Ha. injection Ha as ->. split; [done|done|]. by eapply stops_add.
Qed.

(** *** The steps of a worker *)

Lemma Inv_worker s w x y :
  Inv s → all_workers s !! w = Some x → idle y = idle x → (has_task_ y = true → at_ y = Test) →
  hand y = hand x → left_by_null y = left_by_null x → carries_on s w x y →
  Inv (set_worker w y s).
Proof.
  intros [H1 H2 H3] Hw Hi Ht Hh Hn Hc.
  split; [by eapply slots_worker|by eapply tasks_worker|by eapply stops_worker].
Qed.

Lemma Inv_consume s w x y o :
  Inv s → all_workers s !! w = Some x → idle y = idle x → has_task_ y = false →
  hand x = [o] → hand y = [] → left_by_null y = is_null o + left_by_null x → carries_on s w x y →
  Inv (consume o (set_worker w y s)).
Proof.
  intros [H1 H2 H3] Hw Hi Ht Hx Hy Hn Hc. split.
  - destruct (slots_worker s w x y H1 Hw Hi) as [S1 S2 S3 S4]; [congruence|]. by split.
  - destruct H2 as [T1 T2 T3]. split; cbn; [done| |].
    + pose proof (hands_insert _ w x y Hw) as Hp. rewrite Hx, Hy, app_nil_r in Hp.
      rewrite T2, <- Hp. solve_Permutation.
    + rewrite nulls_app. cbn. pose proof (tally_insert left_by_null _ w x y Hw). lia.
  - by eapply (stops_insert s _ w x y).
Qed.

Lemma Inv_returns s s' w x :
  Inv s → all_workers s !! w = Some x → at_ x = Returning → has_task_ x = false →
  queueWorker w (set_worker w (set_at Test x) s) = Some s' → Inv s'.
Proof.
  intros [[S1 S2 S3 S4] [T1 T2 T3] H3] Hw Ha Ht Hq. unfold queueWorker in Hq. cbn in Hq.
  assert (w < length (all_workers s)) as Hlt by (by eapply lookup_lt_Some).
  assert (hand x = []) as Hh by (unfold hand; by rewrite Ht, Ha).
  assert (left_by_null x = 0) as Hn by (unfold left_by_null; by rewrite Ha).
  assert (w ∉ workers_ s) as Hnot.
  { intros (z & Hz & [_ Hi]%idle_inv)%S2. rewrite Hw in Hz. simplify_eq. rewrite Ha in Hi. naive_solver. }
  destruct (dispatch_queue_ s) as [|task queue] eqn:Hdq.
  - simplify_eq. split.
    + split; cbn; try done; [by apply NoDup_cons| |].
      * intros u. rewrite elem_of_cons, S2. destruct (decide (u = w)) as [->|Hne].
        -- rewrite list_lookup_insert_eq by done. split; [|by left]. intros _.
           eexists. split; [done|]. unfold idle. cbn. by rewrite Ht.
        -- rewrite list_lookup_insert_ne by done. naive_solver.
      * intros u z Hz Hz'. apply list_lookup_insert_Some in Hz as [(-> & <- & _)|[_ Hz]]; [done|eauto].
    + destruct (tasks_worker s w x (set_at Test x)) as [T1' T2' T3']; try done.
      * split; [by rewrite Hdq|done|done].
      * unfold hand. cbn. by rewrite Ht, Ha.
    + eapply (stops_insert s _ w x (set_at Test x)); try done.
      unfold carries_on, gone. cbn. rewrite Ha. naive_solver.
  - unfold assignTask in Hq. cbn in Hq. rewrite list_lookup_insert_eq in Hq by done. cbn in Hq.
    simplify_eq. rewrite list_insert_insert_eq. set (y := mkWorker _ _ _ _).
    assert (workers_ s = []) as Hws by (by apply S4).
    destruct (tasks_assign s w x task y Hw Hh Hn eq_refl eq_refl T2 T3) as [T2' T3'].
    split.
    + split; cbn; rewrite ?Hws; try done; [constructor| |].
      * intros u. rewrite <- Hws, S2. destruct (decide (u = w)) as [->|Hne].
        -- rewrite list_lookup_insert_eq by done. split; [|by intros (z & Hz & Hi); simplify_eq].
           intros Hi. by apply S2 in Hi.
        -- by rewrite list_lookup_insert_ne.
      * intros u z Hz Hz'. apply list_lookup_insert_Some in Hz as [(-> & <- & _)|[_ Hz]]; [done|eauto].
    + split; cbn; [|done|done]. by rewrite T1, <- app_assoc.
    + eapply (stops_insert s _ w x y); try done.
      unfold carries_on, gone. cbn. rewrite Ha. naive_solver.
Qed.

Lemma Inv_loop_fast w s s' : Inv s → workerLoop_step w s = Some s' → Inv s'.
Proof.
  intros Hi Hs. unfold workerLoop_step in Hs.
  destruct (all_workers s !! w) as [[h t l p]|] eqn:Hw; cbn in Hs; [|done].
  assert (h = true → p = Test) as Ht by (apply (sl_task _ (i_slots _ Hi) _ _ Hw)).
  destruct p as [| | |task| | |]; try done.
  - destruct h; simplify_eq; eapply Inv_worker; try done; unfold carries_on; cbn; naive_solver.
  - destruct h; [by specialize (Ht eq_refl)|].
    destruct t as [t|]; simplify_eq; [eapply Inv_worker|eapply Inv_consume]; try done;
      unfold carries_on; cbn; naive_solver.
  - destruct h; [by specialize (Ht eq_refl)|].
    destruct (in_stop w s) eqn:Hin; [done|]. simplify_eq.
    eapply Inv_consume; try done; try (by destruct l).
    unfold carries_on; cbn. rewrite Hin. destruct l; naive_solver.
  - destruct h; [by specialize (Ht eq_refl)|]. by eapply Inv_returns.
Qed.

(** *** The steps of [stop()] *)

Lemma gets_length s s' : gets s s' → num_workers s' = num_workers s.
Proof.
  unfold num_workers. intros [-> |(w & x & y & _ & _ & ->)]; [done|]. apply length_insert.
Qed.

Lemma gets_calling s s' c k :
  gets s s' → stopping s = Adding c k → calling c s → calling c s'.
Proof.
  intros Hg Hst Hc u Hu. destruct (Hc u Hu) as (z & t & Hz & Ht).
  destruct Hg as [-> |(w & x & y & Hw & (_ & Hr & _) & ->)]; [eauto|].
  destruct (decide (u = w)) as [->|Hne].
  - simplify_eq. exists y, t. rewrite list_lookup_insert_eq by (by eapply lookup_lt_Some).
    split; [done|]. apply Hr; [|done]. unfold in_stop. rewrite Hst. by apply bool_decide_eq_true.
  - exists z, t. by rewrite list_lookup_insert_ne.
Qed.

Lemma gets_last s s' :
  gets s s' → (∀ w x, all_workers s !! w = Some x → ¬ (last_worker_ x = true ∨ at_ x = GoneLast)) →
  ∀ w x, all_workers s' !! w = Some x → ¬ (last_worker_ x = true ∨ at_ x = GoneLast).
Proof.
  intros [-> |(w & x & y & Hw & (_ & _ & Hl) & ->)] Hn u z Hz; [eauto|].
  apply list_lookup_insert_Some in Hz as [(-> & -> & _)|[_ Hz]]; naive_solver.
Qed.

Lemma slots_stopping st s : slots s → slots (set_stopping st s).
Proof. intros [? ? ? ?]. by split. Qed.
Lemma tasks_stopping st s : tasks s → tasks (set_stopping st s).
Proof. intros [? ? ?]. by split. Qed.

(** Another stop request. *)
Lemma Inv_request c k s :
  Inv s → stopping s = Adding c (S k) →
  ∃ s', addTask None (set_stopping (Adding c k) s) = Some s' ∧ Inv s'.
Proof.
  intros [H1 H2 H3] Hst. set (s0 := set_stopping (Adding c k) s).
  destruct (addTask_spec None s0 (slots_stopping _ _ H1) (tasks_stopping _ _ H2))
    as (s' & E & S' & T' & Hg & Es & Esub & Eb).
  exists s'. split; [done|]. split; [done|done|].
  pose proof (st_phase _ H3) as Hp. rewrite Hst in Hp. destruct Hp as [Hn Hc].
  split; rewrite ?Es, ?Eb; cbn.
  - rewrite Esub, (gets_length _ _ Hg), nulls_app. cbn. unfold num_workers in *. cbn in *.
    split; [lia|]. by eapply (gets_calling s0).
  - intros w x Hx Hl. exfalso. revert Hl.
    eapply (gets_last s0 s' Hg); [|done]. intros u z Hz Hl.
    pose proof (st_last _ H3 u z Hz Hl). congruence.
  - intros _. destruct (st_before _ H3) as [? ?]; [congruence|]. split; [done|].
    rewrite Esub. by apply prefix_app_r.
Qed.

(** Another thread is joined. *)
Lemma Inv_joined c i s :
  Inv s → stopping s = Joining c i → (∀ x, all_workers s !! i = Some x → settled c i x) →
  Inv (set_stopping (Joining c (S i)) s).
Proof.
  intros [H1 H2 H3] Hst Hi.
  split; [by apply slots_stopping|by apply tasks_stopping|].
  pose proof (st_phase _ H3) as Hp. rewrite Hst in Hp. destruct Hp as (Hn & Hc & Hj).
  split; cbn.
  - split_and!; [done|done|]. intros j x Hlt Hx. destruct (decide (j = i)) as [->|]; [auto|].
    apply (Hj j); [lia|done].
  - intros w x Hx Hl. pose proof (st_last _ H3 w x Hx Hl). congruence.
  - intros _. apply (st_before _ H3). congruence.
Qed.

Lemma Inv_all_joined c i s s' :
  Inv s → stopping s = Joining c i → all_workers s !! i = None → stop_step s = Some s' → Inv s'.
Proof.
  intros Hinv Hst Hi Hs. unfold stop_step in Hs. rewrite Hst, Hi in Hs. pose proof Hinv as [H1 H2 H3].
  pose proof (st_phase _ H3) as Hp. rewrite Hst in Hp. destruct Hp as (Hn & Hc & Hj).
  assert (∀ j x, all_workers s !! j = Some x → settled c j x) as Hall.
  { intros j x Hx. apply (Hj j x); [|done]. apply lookup_ge_None in Hi. apply lookup_lt_Some in Hx. lia. }
  assert (nulls (before s) = 0 ∧ before s `prefix_of` submitted s) as Hb
    by (apply (st_before _ H3); congruence).
  assert (∀ w x, all_workers s !! w = Some x → ¬ (last_worker_ x = true ∨ at_ x = GoneLast)) as Hnl.
  { intros w x Hx Hl. pose proof (st_last _ H3 w x Hx Hl). congruence. }
  destruct c as [w|].
  - destruct (Hc w eq_refl) as (x & t & Hx & Ht). cbn in Hs. rewrite Hx in Hs. cbn in Hs. simplify_eq.
    set (y := mkWorker (has_task_ x) (task_ x) true (at_ x)). split.
    + apply (slots_worker (set_stopping _ s) w x y); [by apply slots_stopping|done|done|].
      apply (sl_task _ H1 w x Hx).
    + by apply (tasks_worker (set_stopping _ s) w x y); [apply tasks_stopping|..].
    + split; cbn; [|intros u z Hz Hl|done].
      * unfold num_workers. cbn. rewrite length_insert.
        split_and!; [done|intros u Hu; simplify_eq; by eapply lookup_lt_Some|]. intros j z Hz.
        apply list_lookup_insert_Some in Hz as [(-> & _ & _)|[_ Hz]]; [by left|by apply Hall].
      * apply list_lookup_insert_Some in Hz as [(-> & _ & _)|[_ Hz]]; [done|by destruct (Hnl u z)].
  - simplify_eq. split; [by apply slots_stopping|by apply tasks_stopping|].
    split; cbn; [done| |done]. intros w x Hx Hl. by destruct (Hnl w x).
Qed.

Lemma Inv_stop_step s s' : Inv s → stop_step s = Some s' → Inv s'.
Proof.
  intros Hinv Hs. destruct (stopping s) as [|c [|k]|c i|c] eqn:Hst; unfold stop_step in Hs;
    rewrite Hst in Hs; try done.
  - simplify_eq. destruct Hinv as [H1 H2 H3].
    split; [by apply slots_stopping|by apply tasks_stopping|].
    pose proof (st_phase _ H3) as Hp. rewrite Hst in Hp. destruct Hp as [Hn Hc]. split; cbn.
    + unfold num_workers in *. cbn. split_and!; [lia|done|lia].
    + intros w x Hx Hl. pose proof (st_last _ H3 w x Hx Hl). congruence.
    + intros _. apply (st_before _ H3). congruence.
  - destruct (Inv_request c k s Hinv Hst) as (s1 & E & Hi). by simplify_eq.
  - destruct (all_workers s !! i) as [x|] eqn:Hx.
    + case_decide as Hc; [|destruct (gone x) eqn:Hg; [|done]]; simplify_eq;
        (apply Inv_joined; [done|done|]); intros z Hz; [by left|right; congruence].
    + eapply Inv_all_joined; [done|done|done|]. unfold stop_step. by rewrite Hst, Hx.
Qed.

Lemma Inv_stop_call c s s' : Inv s → stop c s = Some s' → Inv s'.
Proof.
  intros [[S1 S2 S3 S4] [T1 T2 T3] H3] Hs. unfold stop in Hs.
  destruct (stopping s) eqn:Hst; try done.
  assert (calling c s ∧ s' = mkState (dispatch_queue_ s) (workers_ s) (all_workers s)
    (Adding c (num_workers s)) (submitted s) (dispatched s) (consumed s) (submitted s)) as [Hc ->].
  { destruct c as [w|]; [|by simplify_eq]. destruct (all_workers s !! w) as [x|] eqn:Hx; [|done].
    destruct (at_ x) eqn:Ha; simplify_eq. split; [|done]. intros u Hu. simplify_eq. eauto. }
  pose proof (st_phase _ H3) as Hp. rewrite Hst in Hp. split; [by split|by split|]. split; cbn.
  - unfold num_workers. cbn. split; [lia|done].
  - intros w x Hx Hl. pose proof (st_last _ H3 w x Hx Hl). congruence.
  - done.
Qed.

Lemma Inv_pool_fast l s s' : Inv s → step l s = Some s' → Inv s'.
Proof.
  intros Hi Hs. destruct l as [w|w|task|c|]; cbn in Hs.
  - by eapply Inv_loop_fast.
  - destruct (all_workers s !! w) as [[h t l p]|] eqn:Hw; cbn in Hs; [|done]. destruct p; try done.
    simplify_eq. eapply Inv_worker; try done. unfold carries_on. cbn. naive_solver.
  - by eapply Inv_add_fast.
  - by eapply Inv_stop_call.
  - by eapply Inv_stop_step.
Qed.

Lemma Inv_make_fast n : Inv (make n).
Proof.
  assert (∀ w x, replicate n (mkWorker false None false Test) !! w = Some x →
            x = mkWorker false None false Test ∧ w < n) as Hx by (intros w x; apply lookup_replicate).
  split.
  - split; cbn; try done.
    + rewrite reverse_Permutation. apply NoDup_seq.
    + intros w. rewrite elem_of_reverse, elem_of_seq. split.
      * intros [_ Hlt]. eexists. split; [by apply lookup_replicate|done].
      * intros (x & [_ Hlt]%Hx & _). lia.
    + intros w x [-> _]%Hx. done.
  - split; cbn; [done|..].
    + clear Hx. induction n as [|n IH]; [done|]. by rewrite replicate_S.
    + clear Hx. induction n as [|n IH]; [done|]. by rewrite replicate_S.
  - split; cbn; try done. intros w x [-> _]%Hx [?|?]; done.
Qed.

Lemma Inv_reachable_fast n s : reachable step (make n) s → Inv s.
Proof. apply reachable_invariant; [apply Inv_pool_fast|apply Inv_make_fast]. Qed.

(** ** The properties *)

(** C15. Whatever the interleaving, tasks are given to workers in the order in
    which they were added; no task is lost, given twice or overwritten in a
    worker's slot: those given are the ones done and those in the workers' hands.
    Tasks only queue when no worker is free, and a worker that has a task is not
    asleep. *)
Theorem fast_tasks_run_once_in_order n s :
  reachable step (make n) s →
  submitted s = dispatched s ++ dispatch_queue_ s ∧
  dispatched s ≡ₚ consumed s ++ hands (all_workers s) ∧
  (0 < count s → ∀ w x, all_workers s !! w = Some x → idle x = false) ∧
  (∀ w x, all_workers s !! w = Some x → has_task_ x = true → at_ x = Test ∧ w ∉ workers_ s).
Proof.
  intros [[S1 S2 S3 S4] [T1 T2 T3] _]%Inv_reachable_fast. split_and!; [done|done|..].
  - intros Hq w x Hx. assert (workers_ s = []) as Hws.
    { apply S4. unfold count in Hq. by destruct (dispatch_queue_ s); [cbn in Hq; lia|]. }
    destruct (idle x) eqn:Hi; [|done]. assert (w ∈ workers_ s) as Hin by (apply S2; eauto).
    rewrite Hws in Hin. by apply not_elem_of_nil in Hin.
  - intros w x Hx Ht. split; [eauto|]. intros (y & Hy & [Hf _]%idle_inv)%S2. congruence.
Qed.

Lemma gone_hand s w x : slots s → all_workers s !! w = Some x → gone x = true → hand x = [].
Proof.
  intros Hs Hx Hg. unfold hand, gone in *. pose proof (sl_task _ Hs w x Hx) as Ht.
  destruct (has_task_ x); [rewrite Ht in Hg by done; done|]. by destruct (at_ x).
Qed.

Lemma hands_only l w x :
  l !! w = Some x → (∀ j y, j ≠ w → l !! j = Some y → hand y = []) → hands l = hand x.
Proof.
  revert w. induction l as [|z l IH]; intros [|w] Hx Hy; simplify_eq/=.
  - assert (hands l = []) as E; [|unfold hands in *; cbn; by rewrite E, app_nil_r].
    clear IH. revert Hy. induction l as [|y l IH]; intros Hy; [done|]. unfold hands in *. cbn.
    rewrite (Hy 1 y) by done. apply IH. intros [|j] u Hj Hu; [done|]. by apply (Hy (S (S j))).
  - unfold hands in *. cbn. rewrite (Hy 0 z) by done. cbn. apply (IH w); [done|].
    intros j y Hj. apply (Hy (S j)). lia.
Qed.

Lemma hands_none l : (∀ j y, l !! j = Some y → hand y = []) → hands l = [].
Proof.
  destruct l as [|x l]; [done|]. intros Hy. rewrite (hands_only (x :: l) 0 x); [|done|eauto].
  by apply (Hy 0).
Qed.

(** The tasks that were there before [stop()] go first. *)
Lemma before_dispatched s w x :
  Inv s → stopping s ≠ NotCalled → all_workers s !! w = Some x → at_ x = Gone →
  before s `prefix_of` dispatched s.
Proof.
  intros [_ [T1 T2 T3] H3] Hne Hx Hg. destruct (st_before _ H3 Hne) as [Hn [rest Hr]].
  assert (0 < nulls (dispatched s)) as Hpos.
  { rewrite (nulls_perm _ _ T2), nulls_app, T3.
    pose proof (tally_le left_by_null _ w x Hx) as Hl. unfold left_by_null in Hl at 1.
    rewrite Hg in Hl. lia. }
  rewrite T1 in Hr. destruct (prefix_weak_total (dispatched s) (before s) (before s ++ rest)) as [Hp|Hp];
    [by exists (dispatch_queue_ s)|by apply prefix_app_r| |done].
  destruct Hp as [k Hk]. rewrite Hk, nulls_app in Hn. lia.
Qed.

(** [stop()] waits for the tasks: when it has returned to a caller outside the
    pool, every task added before the call is done; when it has returned to a
    task of a pool of several workers, every such task is done or is the caller
    itself. *)
Lemma fast_stop_drains n s c :
  reachable step (make n) s → stopping s = Returned c →
  match c with
  | None => 0 < num_workers s → before s ⊆+ consumed s
  | Some w => 1 < num_workers s →
      ∃ x, all_workers s !! w = Some x ∧ before s ⊆+ consumed s ++ hand x
  end.
Proof.
  intros Hr%Inv_reachable_fast Hst. pose proof Hr as [H1 [T1 T2 T3] H3].
  pose proof (st_phase _ H3) as Hp. rewrite Hst in Hp. destruct Hp as (_ & Hcl & Hall).
  assert (∀ w x, all_workers s !! w = Some x → c ≠ Some w → at_ x = Gone ∧ hand x = []) as Hg.
  { intros w x Hx Hne. destruct (Hall w x Hx) as [|Hg]; [done|].
    split; [|by eapply gone_hand]. unfold gone in Hg. destruct (at_ x) eqn:Ha; try done.
    pose proof (st_last _ H3 w x Hx (or_intror Ha)). congruence. }
  assert (∀ w, w < num_workers s → c ≠ Some w → before s ⊆+ consumed s ++ hands (all_workers s)) as Hb.
  { intros w [x Hx]%lookup_lt_is_Some Hne. rewrite <- T2. destruct (before_dispatched s w x) as [k ->];
      [done|congruence|done|by apply (Hg w x Hx)|]. by apply submseteq_inserts_r. }
  destruct c as [w|]; intros Hlt.
  - assert (w < num_workers s) as Hw by auto.
    apply lookup_lt_is_Some in Hw as [x Hx]. exists x. split; [done|].
    rewrite <- (hands_only (all_workers s) w x); [|done|].
    2: { intros j y Hj Hy. apply (Hg j); congruence. }
    destruct (decide (w = 0)) as [->|]; [apply (Hb 1)|apply (Hb 0)]; congruence || lia.
  - rewrite (hands_none (all_workers s)), app_nil_r in Hb; [by apply (Hb 0)|].
    intros j y Hy. by apply (Hg j).
Qed.

(** *** [stop()] is never stuck *)

Lemma tally_below {A} (f : A → nat) l i x :
  (∀ j y, l !! j = Some y → f y ≤ 1) → l !! i = Some x → f x = 0 → tally f l < length l.
Proof.
  revert i. induction l as [|z l IH]; intros [|i] Hl Hi Hx; simplify_eq/=.
  - rewrite Hx. enough (tally f l ≤ length l) by lia. clear IH.
    assert (Hl' : ∀ j y, l !! j = Some y → f y ≤ 1) by (intros j y; apply (Hl (S j))).
    clear Hl. induction l as [|u l IH]; cbn; [lia|].
    pose proof (Hl' 0 u eq_refl). specialize (IH (λ j y, Hl' (S j) y)). lia.
  - pose proof (Hl 0 z eq_refl). specialize (IH i (λ j y, Hl (S j) y) Hi Hx). lia.
Qed.

Lemma nulls_hands l : nulls (hands l) = tally (λ x, nulls (hand x)) l.
Proof. unfold hands. induction l as [|x l IH]; cbn; [done|]. rewrite nulls_app. lia. Qed.

Lemma tally_plus {A} (f g : A → nat) l : tally f l + tally g l = tally (λ x, f x + g x) l.
Proof. induction l as [|x l IH]; cbn; lia. Qed.

(** While [stop()] waits for a worker, that worker is not asleep for good: as
    many stop requests were given out as there are workers, at most one to each. *)
Lemma all_requests_given s i x :
  Inv s → nulls (submitted s) = num_workers s → all_workers s !! i = Some x → idle x = false.
Proof.
  intros [[S1 S2 S3 S4] [T1 T2 T3] _] Hn Hx. destruct (idle x) eqn:Hi; [exfalso|done].
  assert (dispatch_queue_ s = []) as Hq.
  { destruct (dispatch_queue_ s) eqn:Hq; [done|]. rewrite S4 in S2 by done.
    assert (i ∈ []) as Hin by (apply S2; eauto). by apply not_elem_of_nil in Hin. }
  rewrite T1, Hq, app_nil_r, (nulls_perm _ _ T2), nulls_app, T3, nulls_hands, tally_plus in Hn.
  assert (tally (λ x, left_by_null x + nulls (hand x)) (all_workers s) < num_workers s) as Hlt;
    [|lia].
  apply (tally_below _ _ i x); [|done|].
  - intros j [h t l p] Hy. specialize (S3 j _ Hy). unfold hand, left_by_null. cbn in *.
    destruct h; [rewrite S3 by done; destruct t; cbn; lia|]. destruct p, t; cbn; lia.
  - destruct (idle_hand x Hi) as (-> & -> & _). done.
Qed.

(** [stop()] never blocks for good: it can always issue its next request, and
    when it waits for a worker that has not left, that worker can take a step. *)
Lemma stop_progress s :
  Inv s →
  (∀ c k, stopping s = Adding c k → is_Some (step StopGo s)) ∧
  (∀ c i, stopping s = Joining c i → is_Some (step StopGo s) ∨ (c ≠ Some i ∧ is_Some (step (Go i) s))).
Proof.
  intros Hi. split.
  - intros c k Hst. cbn. unfold stop_step. rewrite Hst. destruct k as [|k]; [eauto|].
    destruct (Inv_request c k s Hi Hst) as (s' & -> & _). eauto.
  - intros c i Hst. pose proof (st_phase _ (i_stops _ Hi)) as Hp. rewrite Hst in Hp.
    destruct Hp as (Hn & Hc & _). cbn [step]. unfold stop_step. rewrite Hst.
    destruct (all_workers s !! i) as [x|] eqn:Hx.
    2: { left. destruct c as [w|]; [|eauto]. destruct (Hc w eq_refl) as (y & t & Hy & _). cbn. rewrite Hy. cbn. eauto. }
    destruct (decide (c = Some i)) as [Hd|Hd].
    { left. by eexists. }
    destruct (gone x) eqn:Hg; [left; by eexists|]. right. split; [done|].
    pose proof (all_requests_given s i x Hi Hn Hx) as Hidle. pose proof (sl_task _ (i_slots _ Hi) i x Hx) as Ht.
    unfold workerLoop_step. rewrite Hx. cbn [mbind option_bind].
    destruct x as [h t l p]. unfold idle, gone in *. cbn in *.
    destruct p as [| | |task| | |]; try done; try (by eexists).
    + destruct h; [by specialize (Ht eq_refl)|done].
    + assert (in_stop i s = false) as ->; [|by eauto]. unfold in_stop. rewrite Hst.
      destruct c as [c|]; [|done]. apply bool_decide_eq_false. congruence.
    + unfold queueWorker, assignTask. cbn. destruct (dispatch_queue_ s); [by eauto|].
      rewrite list_lookup_insert_eq by (by eapply lookup_lt_Some). cbn. eauto.
Qed.

(** The same in every reachable state. *)
Lemma fast_stop_progress n s :
  reachable step (make n) s →
  (∀ c k, stopping s = Adding c k → ∃ s', step StopGo s = Some s') ∧
  (∀ c i, stopping s = Joining c i → ∃ l s', (l = StopGo ∨ l = Go i) ∧ step l s = Some s').
Proof.
  intros [H1 H2]%Inv_reachable_fast%stop_progress. split; [exact H1|].
  intros c i Hst. destruct (H2 c i Hst) as [[s' Hs]|[_ [s' Hs]]]; eauto.
Qed.

(** ** Instances of the properties *)

(** Two workers, three tasks, then [stop()] from outside. *)
Definition three_tasks : list label := [Add 5; Add 6; Add 7; Go 1; Go 1; Go 1; Go 1].
Definition outside_stop : list label :=
  three_tasks ++ [Stop None; StopGo; StopGo; StopGo] ++
  [Go 0; Go 0; Go 0; Go 0; Go 1; Go 1; Go 1; Go 1; Go 1; Go 1] ++
  [Go 0; Go 0; StopGo; StopGo; StopGo].
Definition three_state : state :=
  mkState [] [] [mkWorker true (Some 6) false Test; mkWorker true (Some 7) false Test] NotCalled
    [Some 5; Some 6; Some 7] [Some 5; Some 6; Some 7] [Some 5] [].
Definition stopped_state : state :=
  mkState [] [] [mkWorker false None false Gone; mkWorker false None false Gone] (Returned None)
    [Some 5; Some 6; Some 7; None; None] [Some 5; Some 6; Some 7; None; None]
    [Some 5; Some 6; Some 7; None; None] [Some 5; Some 6; Some 7].

Lemma fast_tasks_run_once_in_order_witness :
  dispatched three_state ≡ₚ consumed three_state ++ hands (all_workers three_state).
Proof.
  refine (proj1 (proj2 (fast_tasks_run_once_in_order 2 three_state _))).
  exists three_tasks. vm_compute. reflexivity.
Defined.

End ThreadPoolFast.
