(* ===== verification/FileCache.v ===== *)
(** * The file cache ([file_cache.hpp], [.cpp])

    A map from file names to nodes with a buffer and a pin count, a list of the
    names in the order in which they came, and counters.  [pin] is made of what
    it does under the read lock, the reading of the file without a lock, and
    what it does under the write lock; these parts of different calls
    interleave.  The counters, [int]s in the source, do not overflow here. *)

From stdpp Require Import strings.
From S2P Require Import Prelude Buffer.

Module FileCache.
Import Buffer.Buffer.

(** ** Reading a file *)

(** One [read]: an error, or bytes. *)
Inductive read_result := ReadError | ReadOk (d : bytes).

(** What [open] and [fstat] say of a file, and the results of reading it. *)
Inductive file := NoFile | File (st_size : Z) (reads : list read_result).

Inductive loaded := LoadError | Loaded (b : Buffer).

Section load.
Context `{Uninit}.

(** The loop of reads: [read(fd, new_buf->writePtr(), new_buf->writeSize())].
    [to_read] is a [size_t].  The write pointer stays where it is. *)
Fixpoint read_loop (reads : list read_result) (to_read : Z) (new_buf : Buffer)
    : option (loaded) :=
  if decide (to_read > 0)%Z then
    match reads with
    | [] => None
    | r :: reads =>
      '(_, new_buf) ← reserve BlockSize new_buf;
      n ← writeSize new_buf;
      match r with
      | ReadError => Some LoadError
      | ReadOk d =>
        let d := take n d in
        new_buf ← poke d new_buf;
        read_loop reads ((to_read - Z.of_nat (length d)) mod 2 ^ 64)%Z new_buf
      end
    end
  else Some (Loaded new_buf).

(** The new buffer, the loop, and [advance(st_size - to_read)]; after the loop
    [to_read] is 0. *)
Definition load (st_size : Z) (reads : list read_result) : option loaded :=
  l ← read_loop reads st_size new;
  match l with
  | LoadError => Some LoadError
  | Loaded b => '(_, b) ← advance (Z.to_nat st_size) b; Some (Loaded b)
  end.
End load.

(** ** The cache *)

Record Node := mkNode { file_name : string; buf : Buffer; count_unpin : Z }.

(** Nodes have addresses; a handle is the address of a node. *)
Record FileCache := mkCache {
  nodes : list Node;
  cache_map_ : gmap string nat;
  PinnedFiles_ : list string;
  CacheSize_ : Z;
  locked : bool;                 (* [CacheLock_] held for writing, for good *)
  pins_total_ : Z;
  hits_total_ : Z;
  failed_total_ : Z;
  bytes_used_ : Z;
  bytes_unpinned_files_ : Z
}.

Definition make (max_size : Z) : FileCache := mkCache [] ∅ [] max_size false 0 0 0 0 0.

Definition maxSize := CacheSize_.
Definition bytesUsed := bytes_used_.
Definition pins := pins_total_.
Definition hits := hits_total_.
Definition failed := failed_total_.

(** The destructor deletes the buffers of the nodes in the map; the nodes
    themselves are not deleted. *)
Definition destroy (s : FileCache) : list nat := map snd (map_to_list (cache_map_ s)).

(** What [pin] leaves in the caller's [*buf]. *)
Inductive out := Unchanged | Null | Points (a : nat) | Dangling.

Definition set_counts p h f (s : FileCache) : FileCache :=
  mkCache (nodes s) (cache_map_ s) (PinnedFiles_ s) (CacheSize_ s) (locked s)
    (pins_total_ s + p) (hits_total_ s + h) (failed_total_ s + f)
    (bytes_used_ s) (bytes_unpinned_files_ s).

(** The look-up under the read lock; [None]: the lock cannot be had. *)
Definition pin_find (f : string) (s : FileCache) : option (option nat) :=
  if locked s then None else Some (cache_map_ s !! f).

(** After a hit, without the lock: [count_unpin] and [hits_total_]. *)
Definition pin_hit (a : nat) (s : FileCache) : option FileCache :=
  n ← nodes s !! a;
  Some (set_counts 0 1 0
    (mkCache (<[a := mkNode (file_name n) (buf n) (count_unpin n + 1)]> (nodes s))
       (cache_map_ s) (PinnedFiles_ s) (CacheSize_ s) (locked s) (pins_total_ s) (hits_total_ s)
       (failed_total_ s) (bytes_used_ s) (bytes_unpinned_files_ s))).

(** A new node for the buffer, in the map unless the name is there already: then
    the buffer is deleted. *)
Definition insert_node (f : string) (b : Buffer) (s : FileCache)
    : option (option nat * out * FileCache) :=
  match cache_map_ s !! f with
  | Some _ => Some (None, Dangling, set_counts 0 1 0 s)
  | None =>
    bc ← byteCount b;
    let a := length (nodes s) in
    Some (Some a, Points a,
      mkCache (nodes s ++ [mkNode f b 1]) (<[f := a]> (cache_map_ s)) (PinnedFiles_ s ++ [f])
        (CacheSize_ s) (locked s) (pins_total_ s) (hits_total_ s) (failed_total_ s)
        (bytes_used_ s + Z.of_nat bc) (bytes_unpinned_files_ s))
  end.

(** The eviction of [existing_node], the list's element after [pre]. *)
Definition evict_node (pre : list string) (f : string) (l : list string) (n : Node) (s : FileCache)
    : option FileCache :=
  space_freed ← byteCount (buf n);
  Some (mkCache (nodes s) (delete f (cache_map_ s)) (pre ++ l) (CacheSize_ s) (locked s)
          (pins_total_ s) (hits_total_ s) (failed_total_ s)
          (bytes_used_ s - Z.of_nat space_freed) (bytes_unpinned_files_ s)).

(** The loop over [PinnedFiles_]: the elements [pre] have been passed.  Going on
    after [erase(list_iterator)] increments an iterator that is no longer valid:
    [None].  The result is [free_space]. *)
Fixpoint evict (pre l : list string) (st_size free_space : Z) (s : FileCache)
    : option (Z * FileCache) :=
  match l with
  | [] => Some (free_space, s)
  | f :: l =>
    a ← cache_map_ s !! f;
    n ← nodes s !! a;
    if decide (count_unpin n = 0)%Z then
      s ← evict_node pre f l n s;
      let free_space := (maxSize s - bytes_used_ s)%Z in
      if decide (free_space >= st_size)%Z then Some (free_space, s) else None
    else if decide (free_space >= st_size)%Z then Some (free_space, s)
    else evict (pre ++ [f]) l st_size free_space s
  end.

(** The part of [pin] under the write lock: the handle, [*buf] and the cache. *)
Definition pin_insert (f : string) (b : Buffer) (st_size : Z) (s : FileCache)
    : option (option nat * out * FileCache) :=
  if locked s then None else
  let free_space := (maxSize s - bytesUsed s)%Z in
  if decide (free_space >= st_size)%Z then insert_node f b s
  else if decide (free_space + bytes_unpinned_files_ s < st_size)%Z then
    Some (None, Null, set_counts 0 0 1 s)
  else
    '(free_space, s) ← evict [] (PinnedFiles_ s) st_size free_space s;
    if decide (free_space >= st_size)%Z then insert_node f b s
    else Some (None, Null, set_counts 0 0 1 s).

(** The last line of [pin]. *)
Definition pin_count (s : FileCache) : FileCache := set_counts 1 0 0 s.

(** The whole of [pin] when no other call comes between its parts.  The caller's
    [*error] is never set: the assignments change the parameter. *)
Definition pin `{Uninit} (f : string) (d : file) (s : FileCache)
    : option (option nat * out * FileCache) :=
  it ← pin_find f s;
  match it with
  | Some a => s ← pin_hit a s; Some (Some a, Points a, pin_count s)
  | None =>
    match d with
    | NoFile => Some (None, Unchanged, pin_count s)
    | File st_size reads =>
      l ← load st_size reads;
      match l with
      | LoadError => Some (None, Unchanged, s)
      | Loaded b => '(h, o, s) ← pin_insert f b st_size s; Some (h, o, pin_count s)
      end
    end
  end.

(** [unpin]; [None]: the lock cannot be had, or a fatal message ends the
    process.  With the null handle the lock is not given back. *)
Definition unpin (h : option nat) (s : FileCache) : option FileCache :=
  if locked s then None else
  match h with
  | None =>
    Some (mkCache (nodes s) (cache_map_ s) (PinnedFiles_ s) (CacheSize_ s) true (pins_total_ s)
            (hits_total_ s) (failed_total_ s) (bytes_used_ s) (bytes_unpinned_files_ s))
  | Some h =>
    temp ← nodes s !! h;
    a ← cache_map_ s !! file_name temp;
    n ← nodes s !! a;
    if decide (count_unpin n > 0)%Z then
      bc ← byteCount (buf n);
      Some (mkCache (<[a := mkNode (file_name n) (buf n) (count_unpin n - 1)]> (nodes s))
              (cache_map_ s) (PinnedFiles_ s) (CacheSize_ s) (locked s) (pins_total_ s)
              (hits_total_ s) (failed_total_ s) (bytes_used_ s)
              (bytes_unpinned_files_ s + Z.of_nat bc))
    else None
  end.

(** The interleaved parts.  A buffer that is inserted comes from [load]; a hit
    was found by an earlier [pin_find]. *)
Inductive label :=
  | Hit (a : nat)
  | Insert (f : string) (st_size : Z) (reads : list read_result)
  | Unpin (h : option nat)
  | Counted.

Definition step `{Uninit} (l : label) (s : FileCache) : option FileCache :=
  match l with
  | Hit a => pin_hit a s
  | Insert f st_size reads =>
    if decide (0 ≤ st_size)%Z then
      r ← load st_size reads;
      match r with
      | LoadError => Some s
      | Loaded b => '(_, s) ← pin_insert f b st_size s; Some s
      end
    else None
  | Unpin h => unpin h s
  | Counted => Some (pin_count s)
  end.

(** ** What is read *)

Section load_facts.
Context `{Uninit}.

(** A new buffer into which bytes were stored but not counted. *)
Definition untouched (b : Buffer) : Prop :=
  wf b ∧ contents b = [] ∧ wpos_ b = mkPos 0 0 ∧ rpos_ b = mkPos 0 0.

Lemma new_untouched : untouched new.
Proof. destruct new_wf as (Hwf & _ & Hc). split_and!; try done. Qed.

Lemma untouched_room b :
  untouched b → ∃ m, writeArea b = Some m ∧ length m = BlockSize ∧ writeSize b = Some BlockSize ∧
    reserve BlockSize b = Some (true, b).
Proof.
  intros (Hwf & _ & Hw & _). destruct (writeArea_wf _ Hwf) as (m & Hm & Hl & _).
  rewrite Hw in Hl. cbn in Hl. rewrite Nat.sub_0_r in Hl.
  pose proof (writeSize_wf b Hwf) as Hs. rewrite Hw in Hs. cbn in Hs. rewrite Nat.sub_0_r in Hs.
  exists m. split_and!; try done. unfold reserve. rewrite decide_False by lia. rewrite Hs. cbn.
  by rewrite decide_True.
Qed.

Lemma untouched_poke b d :
  untouched b → length d ≤ BlockSize →
  ∃ b' m, poke d b = Some b' ∧ untouched b' ∧ writeArea b' = Some (d ++ m).
Proof.
  intros Hu Hd. destruct (untouched_room b Hu) as (m & Hm & Hl & _). destruct Hu as (Hwf & Hc & Hw & Hr).
  destruct (poke_spec b d m Hwf Hm) as (b' & Hp & Hwf' & Hc' & Hm' & Hw' & Hr' & _); [lia|].
  exists b', (drop (length d) m). split_and!; try done. split_and!; congruence.
Qed.

Lemma read_loop_spec reads : ∀ to_read b l,
  untouched b → read_loop reads to_read b = Some l →
  match l with LoadError => True | Loaded b' => untouched b' end.
Proof.
  induction reads as [|r reads IH]; intros to_read b l Hu Hl; cbn in Hl;
    (case_decide; [|by simplify_eq]); [done|].
  destruct (untouched_room b Hu) as (m & _ & _ & Hs & Hr). rewrite Hr in Hl. cbn in Hl.
  rewrite Hs in Hl. cbn in Hl. destruct r as [|d]; [by injection Hl as <-|].
  destruct (untouched_poke b (take BlockSize d) Hu) as (b' & m' & Hp & Hu' & _).
  { rewrite length_take. lia. }
  rewrite Hp in Hl. cbn in Hl. by eapply IH.
Qed.

(** A file of at most one block ends up in the buffer; of a longer one, nothing. *)
Lemma load_spec st_size reads b :
  (0 ≤ st_size)%Z → load st_size reads = Some (Loaded b) →
  byteCount b = Some (length (contents b)) ∧
  (if decide (st_size ≤ Z.of_nat BlockSize)%Z then Z.of_nat (length (contents b)) = st_size
   else contents b = []).
Proof.
  intros Hsz Hl. unfold load in Hl.
  destruct (read_loop reads st_size new) as [l|] eqn:Hr; cbn in Hl; [|done].
  apply read_loop_spec in Hr; [|by apply new_untouched]. destruct l as [|b0]; [done|].
  destruct (untouched_room b0 Hr) as (m & Hm & Hlm & _). destruct Hr as (Hwf & Hc & Hw & Hrp).
  destruct (decide (st_size = 0 ∨ Z.of_nat BlockSize < st_size)%Z) as [Ho|Ho].
  - rewrite advance_refuse in Hl; [|done|rewrite Hw; cbn; lia]. cbn in Hl. simplify_eq.
    rewrite Hc, byteCount_spec, Hc by (done || by rewrite Hrp). split; [done|]. cbn.
    case_decide; [lia|done].
  - destruct (advance_spec b0 (Z.to_nat st_size) m Hwf Hm) as (b' & E & Hwf' & Hc' & Hr'); [lia|].
    rewrite E in Hl. cbn in Hl. simplify_eq.
    rewrite byteCount_spec by (done || by rewrite Hr', Hrp). split; [done|].
    rewrite decide_True by lia. rewrite Hc', Hc. cbn. rewrite length_take. lia.
Qed.

(** A file that comes in one read. *)
Lemma read_one d b0 :
  0 < length d → length d ≤ BlockSize → untouched b0 →
  ∃ b m, read_loop [ReadOk d] (Z.of_nat (length d)) b0 = Some (Loaded b) ∧ untouched b ∧
         writeArea b = Some (d ++ m).
Proof.
  intros H0 Hd Hu0. cbn [read_loop]. rewrite decide_True by lia.
  destruct (untouched_room b0 Hu0) as (m & _ & _ & Hs & Hr). rewrite Hr.
  cbn [mbind option_bind]. rewrite Hs. cbn [mbind option_bind]. rewrite (take_ge d) by lia.
  destruct (untouched_poke b0 d Hu0 Hd) as (b & m' & Hp & Hu & Hm). rewrite Hp.
  cbn [mbind option_bind]. rewrite Z.sub_diag. rewrite decide_False by done. eauto.
Qed.

Lemma load_one d :
  0 < length d → length d ≤ BlockSize →
  ∃ b, load (Z.of_nat (length d)) [ReadOk d] = Some (Loaded b) ∧ contents b = d ∧
       wf b ∧ rpos_ b = mkPos 0 0.
Proof.
  intros H0 Hd. unfold load. destruct (read_one d new H0 Hd new_untouched) as (b & m & Hr & Hu & Hm).
  rewrite Hr. cbn [mbind option_bind]. rewrite Nat2Z.id. destruct Hu as (Hwf & Hc & _ & Hr0).
  destruct (advance_spec b (length d) (d ++ m) Hwf Hm) as (b' & E & Hwf' & Hc' & Hr').
  { rewrite length_app. lia. }
  rewrite E. exists b'. split_and!; [done| |done|congruence].
  by rewrite Hc', Hc, take_app_length.
Qed.
End load_facts.

(** ** The invariant of the cache *)

(** The bytes of the node at an address, and of the file [f] in the cache. *)
Definition node_bytes (ns : list Node) (a : nat) : Z :=
  match ns !! a ≫= λ n, byteCount (buf n) with Some c => Z.of_nat c | None => 0 end.
Definition file_bytes (ns : list Node) (m : gmap string nat) (f : string) : Z :=
  match m !! f with Some a => node_bytes ns a | None => 0 end.
Fixpoint stored (g : string → Z) (l : list string) : Z :=
  match l with [] => 0 | f :: l => g f + stored g l end.

(** The bytes of the buffers in the cache. *)
Definition cached_bytes (s : FileCache) : Z :=
  stored (file_bytes (nodes s) (cache_map_ s)) (PinnedFiles_ s).

Record Inv (s : FileCache) : Prop := {
  i_nodup : NoDup (PinnedFiles_ s);
  i_listed : ∀ f, f ∈ PinnedFiles_ s ↔ is_Some (cache_map_ s !! f);
  i_node : ∀ f a, cache_map_ s !! f = Some a → ∃ n, nodes s !! a = Some n ∧ file_name n = f ∧
             is_Some (byteCount (buf n));
  i_used : bytes_used_ s = cached_bytes s;
  i_limit : (bytes_used_ s ≤ CacheSize_ s)%Z
}.

(** The destructor deletes the buffers of existing nodes, each once. *)
Lemma destroy_once s : Inv s → NoDup (destroy s) ∧ ∀ a, a ∈ destroy s → is_Some (nodes s !! a).
Proof.
  intros Hi. unfold destroy. split.
  - apply NoDup_fmap_2_strong; [|apply NoDup_map_to_list].
    intros [f a] [g b] Hf%elem_of_map_to_list Hg%elem_of_map_to_list E. cbn in E. subst b.
    destruct (i_node _ Hi _ _ Hf) as (n & Hn & <- & _). destruct (i_node _ Hi _ _ Hg) as (n' & Hn' & <- & _). congruence.
  - intros a Ha. apply list_elem_of_fmap in Ha as ([f b] & -> & Hf%elem_of_map_to_list).
    destruct (i_node _ Hi _ _ Hf) as (n & Hn & _). by exists n.
Qed.

Lemma stored_app g l k : stored g (l ++ k) = (stored g l + stored g k)%Z.
Proof. induction l as [|f l IH]; cbn; lia. Qed.

Lemma stored_ext g g' l : (∀ f, f ∈ l → g f = g' f) → stored g l = stored g' l.
Proof.
  induction l as [|f l IH]; intros Hg; cbn; [done|].
  rewrite Hg by (by left). rewrite IH; [done|]. intros x Hx. apply Hg. by right.
Qed.

Lemma node_bytes_nonneg ns a : (0 ≤ node_bytes ns a)%Z.
Proof. unfold node_bytes. destruct (ns !! a ≫= _); lia. Qed.

Lemma stored_nonneg ns m l : (0 ≤ stored (file_bytes ns m) l)%Z.
Proof.
  induction l as [|f l IH]; cbn; [lia|]. unfold file_bytes at 1.
  destruct (m !! f); [pose proof (node_bytes_nonneg ns n); lia|lia].
Qed.

(** Changing a pin count. *)
Lemma node_bytes_count ns a n c b :
  ns !! a = Some n → node_bytes (<[a := mkNode (file_name n) (buf n) c]> ns) b = node_bytes ns b.
Proof.
  intros Ha. unfold node_bytes. destruct (decide (b = a)) as [->|Hne].
  - rewrite list_lookup_insert_eq by (by eapply lookup_lt_Some). by rewrite Ha.
  - by rewrite list_lookup_insert_ne.
Qed.

Lemma Inv_repin s s' a n c :
  Inv s → nodes s !! a = Some n → nodes s' = <[a := mkNode (file_name n) (buf n) c]> (nodes s) →
  cache_map_ s' = cache_map_ s → PinnedFiles_ s' = PinnedFiles_ s → CacheSize_ s' = CacheSize_ s →
  bytes_used_ s' = bytes_used_ s → Inv s'.
Proof.
  intros [H1 H2 H3 H4 H5] Ha En Em Ep Ec Eu.
  split; rewrite ?En, ?Em, ?Ep, ?Ec, ?Eu; try done.
  - intros f a' Hf. destruct (H3 f a' Hf) as (x & Hx & Hn & Hb).
    destruct (decide (a' = a)) as [->|Hne].
    + rewrite Ha in Hx. injection Hx as <-. eexists.
      split; [apply list_lookup_insert_eq; by eapply lookup_lt_Some|done].
    + exists x. by rewrite list_lookup_insert_ne.
  - rewrite H4. unfold cached_bytes. rewrite En, Em, Ep. apply stored_ext. intros f _.
    unfold file_bytes. destruct (cache_map_ s !! f); [|done]. symmetry. by apply node_bytes_count.
Qed.

Lemma Inv_counts s p h f : Inv s → Inv (set_counts p h f s).
Proof. intros [? ? ? ? ?]. by split. Qed.

Lemma Inv_insert_node f b s h o s' c :
  Inv s → byteCount b = Some c → (bytes_used_ s + Z.of_nat c ≤ CacheSize_ s)%Z →
  insert_node f b s = Some (h, o, s') → Inv s'.
Proof.
  intros Hi Hc Hle Hs. unfold insert_node in Hs. pose proof Hi as [H1 H2 H3 H4 H5].
  destruct (cache_map_ s !! f) as [a|] eqn:Hf.
  { simplify_eq. by apply Inv_counts. }
  rewrite Hc in Hs. cbn in Hs. simplify_eq.
  assert (f ∉ PinnedFiles_ s) as Hnf by (rewrite H2, Hf; by intros []).
  assert (∀ g a, cache_map_ s !! g = Some a → a < length (nodes s)) as Hlt.
  { intros g a Hg. destruct (H3 g a Hg) as (n & Hn & _). by eapply lookup_lt_Some. }
  split; cbn.
  - apply NoDup_app. split_and!; [done| |by apply NoDup_singleton].
    intros g Hg Hgf. apply list_elem_of_singleton in Hgf. by subst.
  - intros g. rewrite elem_of_app, list_elem_of_singleton, H2, lookup_insert_is_Some'. naive_solver.
  - intros g a Hg. apply lookup_insert_Some in Hg as [[<- <-]|[Hne Hg]].
    + exists (mkNode f b 1). rewrite lookup_app_r, Nat.sub_diag by done. eauto.
    + destruct (H3 g a Hg) as (n & Hn & ? & ?). exists n.
      rewrite lookup_app_l by eauto. done.
  - unfold cached_bytes. cbn. rewrite stored_app, H4. f_equal.
    + apply stored_ext. intros g Hg. unfold file_bytes.
      rewrite lookup_insert_ne by (by intros ->).
      destruct (cache_map_ s !! g) as [a|] eqn:Ea; [|done]. unfold node_bytes.
      by rewrite lookup_app_l by eauto.
    + cbn. unfold file_bytes, node_bytes. rewrite lookup_insert_eq, lookup_app_r, Nat.sub_diag by done.
      cbn. rewrite Hc. lia.
  - lia.
Qed.

(** An eviction takes a file out of the map and the list, and its bytes. *)
Lemma Inv_evict_node pre f l n a s s' :
  Inv s → PinnedFiles_ s = pre ++ f :: l → cache_map_ s !! f = Some a → nodes s !! a = Some n →
  evict_node pre f l n s = Some s' → Inv s'.
Proof.
  intros [H1 H2 H3 H4 H5] Hp Hf Ha Hs. unfold evict_node in Hs.
  destruct (byteCount (buf n)) as [c|] eqn:Hc; cbn in Hs; [|done]. simplify_eq.
  rewrite Hp in H1. apply NoDup_app in H1 as (N1 & N2 & N3). apply NoDup_cons in N3 as [N3 N4].
  assert (f ∉ pre) as Hfp by (intros Hin; apply (N2 f Hin); by left).
  split; cbn.
  - apply NoDup_app. split_and!; [done| |done]. intros g Hg Hgl. apply (N2 g Hg). by right.
  - intros g. destruct (decide (g = f)) as [->|Hne].
    + rewrite lookup_delete_eq. split; [|by intros []]. by intros [?|?]%elem_of_app.
    + rewrite lookup_delete_ne, <- H2, Hp, !elem_of_app, elem_of_cons by done. naive_solver.
  - intros g a' [_ Hg]%lookup_delete_Some. eauto.
  - unfold cached_bytes. cbn. rewrite H4. unfold cached_bytes. rewrite Hp, !stored_app. cbn.
    unfold file_bytes at 2. rewrite Hf. unfold node_bytes at 1. rewrite Ha. cbn. rewrite Hc.
    assert (∀ k, f ∉ k → stored (file_bytes (nodes s) (delete f (cache_map_ s))) k =
                         stored (file_bytes (nodes s) (cache_map_ s)) k) as He.
    { intros k Hk. apply stored_ext. intros g Hg. unfold file_bytes.
      rewrite lookup_delete_ne; [done|]. by intros ->. }
    rewrite !He by done. lia.
  - lia.
Qed.

(** Files with pins stay in the cache with their buffers. *)
Definition keeps_pinned (s s' : FileCache) : Prop :=
  ∀ f a n, cache_map_ s !! f = Some a → nodes s !! a = Some n → (0 < count_unpin n)%Z →
    cache_map_ s' !! f = Some a ∧ ∃ n', nodes s' !! a = Some n' ∧ buf n' = buf n.

Lemma keeps_refl s s' : nodes s' = nodes s → cache_map_ s' = cache_map_ s → keeps_pinned s s'.
Proof. intros En Em f a n Hf Ha _. rewrite En, Em. eauto. Qed.

Lemma keeps_repin s s' a n c :
  nodes s !! a = Some n → nodes s' = <[a := mkNode (file_name n) (buf n) c]> (nodes s) →
  cache_map_ s' = cache_map_ s → keeps_pinned s s'.
Proof.
  intros Ha En Em f b n' Hf Hb _. rewrite En, Em. split; [done|].
  destruct (decide (b = a)) as [->|Hne].
  - rewrite list_lookup_insert_eq by (by eapply lookup_lt_Some). eexists. split; [done|]. cbn. congruence.
  - exists n'. by rewrite list_lookup_insert_ne.
Qed.

Lemma evict_spec st_size l : ∀ pre free s free' s',
  Inv s → PinnedFiles_ s = pre ++ l → free = (maxSize s - bytes_used_ s)%Z →
  evict pre l st_size free s = Some (free', s') →
  Inv s' ∧ free' = (maxSize s' - bytes_used_ s')%Z ∧ nodes s' = nodes s ∧ CacheSize_ s' = CacheSize_ s ∧
  keeps_pinned s s'.
Proof.
  induction l as [|f l IH]; intros pre free s free' s' Hi Hp Hf Hs; cbn in Hs.
  { simplify_eq. split_and!; try done. by apply keeps_refl. }
  destruct (cache_map_ s !! f) as [a|] eqn:Ea; cbn in Hs; [|done].
  destruct (nodes s !! a) as [n|] eqn:En; cbn in Hs; [|done].
  case_decide as Hc.
  - destruct (evict_node pre f l n s) as [s1|] eqn:He; cbn in Hs; [|done].
    case_decide; [|done]. injection Hs as <- <-.
    split; [by eapply Inv_evict_node|]. unfold evict_node in He.
    destruct (byteCount (buf n)) as [c|]; cbn in He; [|done]. injection He as <-.
    split_and!; try done. intros g a' n' Hg Ha' Hn'. cbn. rewrite lookup_delete_ne; [eauto|].
    intros ->. rewrite Ea in Hg. injection Hg as ->. rewrite En in Ha'. injection Ha' as ->. lia.
  - case_decide; [injection Hs as <- <-; split_and!; try done; by apply keeps_refl|].
    eapply IH; [done| |done|exact Hs]. by rewrite <- app_assoc.
Qed.

Lemma insert_node_keeps f b s h o s' : insert_node f b s = Some (h, o, s') → keeps_pinned s s'.
Proof.
  unfold insert_node. intros Hs. destruct (cache_map_ s !! f) eqn:Hf.
  { simplify_eq. by apply keeps_refl. }
  destruct (byteCount b) as [c|]; cbn in Hs; [|done]. simplify_eq. intros g a n Hg Ha _. cbn.
  rewrite lookup_insert_ne by congruence. split; [done|]. exists n.
  by rewrite lookup_app_l by (by eapply lookup_lt_Some).
Qed.

Lemma pin_insert_spec f b st_size c s h o s' :
  Inv s → byteCount b = Some c → (Z.of_nat c ≤ st_size)%Z →
  pin_insert f b st_size s = Some (h, o, s') → Inv s' ∧ keeps_pinned s s'.
Proof.
  intros Hi Hc Hle Hs. unfold pin_insert, bytesUsed in Hs. destruct (locked s); [done|].
  case_decide as Hfree.
  { split; [|by eapply insert_node_keeps].
    eapply Inv_insert_node; [done|done| |done]. unfold maxSize in Hfree. lia. }
  case_decide; [injection Hs as <- <- <-; split; [by apply Inv_counts|by apply keeps_refl]|].
  destruct (evict [] (PinnedFiles_ s) st_size (maxSize s - bytes_used_ s) s) as [[free s1]|] eqn:He;
    cbn in Hs; [|done].
  destruct (evict_spec st_size (PinnedFiles_ s) [] _ _ _ _ Hi eq_refl eq_refl He) as (Hi1 & Hf1 & En & Ec & Hk).
  case_decide.
  - pose proof (insert_node_keeps _ _ _ _ _ _ Hs) as Hk'. split.
    + eapply Inv_insert_node; [done|done| |done]. unfold maxSize in *. lia.
    + intros g a n Hg Ha Hn. destruct (Hk g a n Hg Ha Hn) as [Hg1 _].
      rewrite <- En in Ha. by apply Hk'.
  - injection Hs as <- <- <-. split; [by apply Inv_counts|].
    intros g a n Hg Ha Hn. destruct (Hk g a n Hg Ha Hn) as [Hg1 ?]. done.
Qed.

Lemma Inv_cache `{Uninit} l s s' : Inv s → step l s = Some s' → Inv s' ∧ keeps_pinned s s'.
Proof.
  intros Hi Hs. destruct l as [a|f st_size reads|h|]; cbn in Hs.
  - unfold pin_hit in Hs. destruct (nodes s !! a) as [n|] eqn:Ha; cbn in Hs; [|done].
    injection Hs as <-. split; [by eapply (Inv_repin s _ a n)|by eapply (keeps_repin s _ a n)].
  - case_decide as Hsz; [|done]. destruct (load st_size reads) as [r|] eqn:Hl; cbn in Hs; [|done].
    destruct r as [|b]; [injection Hs as <-; split; [done|by apply keeps_refl]|].
    destruct (pin_insert f b st_size s) as [[[h o] s1]|] eqn:He; cbn in Hs; [|done].
    injection Hs as <-. destruct (load_spec st_size reads b Hsz Hl) as [Hc Hlen].
    eapply pin_insert_spec; [done|done| |done].
    case_decide; [lia|]. rewrite Hlen. cbn. lia.
  - unfold unpin in Hs. destruct (locked s); [done|]. destruct h as [h|].
    2: { injection Hs as <-. split; [by destruct Hi; split|by apply keeps_refl]. }
    destruct (nodes s !! h) as [temp|]; cbn in Hs; [|done].
    destruct (cache_map_ s !! file_name temp) as [a|]; cbn in Hs; [|done].
    destruct (nodes s !! a) as [n|] eqn:Ha; cbn in Hs; [|done]. case_decide; [|done].
    destruct (byteCount (buf n)); cbn in Hs; [|done]. injection Hs as <-.
    split; [by eapply (Inv_repin s _ a n)|by eapply (keeps_repin s _ a n)].
  - injection Hs as <-. split; [by apply Inv_counts|by apply keeps_refl].
Qed.

Lemma Inv_make_cache max_size : (0 ≤ max_size)%Z → Inv (make max_size).
Proof.
  intros Hm. split; cbn; try done; [by apply NoDup_nil_2|]. intros f.
  by rewrite lookup_empty, <- not_eq_None_Some, elem_of_nil.
Qed.

(** ** The properties *)

Section properties.
Context `{Uninit}.

Lemma Inv_reachable_cache max_size s :
  (0 ≤ max_size)%Z → reachable step (make max_size) s → Inv s.
Proof.
  intros Hm. apply reachable_invariant; [|by apply Inv_make_cache].
  intros l s1 s2 Hi Hs. by eapply Inv_cache.
Qed.

(** C16. However the parts of [pin] and [unpin] interleave, [bytesUsed()] is the
    number of bytes of the buffers in the cache and does not exceed [maxSize()];
    the eviction list names every cached file once; and no step evicts a pinned
    file or changes its buffer. *)
Theorem cache_within_limit_keeps_pinned max_size s :
  (0 ≤ max_size)%Z → reachable step (make max_size) s →
  bytesUsed s = cached_bytes s ∧ (bytesUsed s ≤ maxSize s)%Z ∧
  NoDup (PinnedFiles_ s) ∧ (∀ f, f ∈ PinnedFiles_ s ↔ is_Some (cache_map_ s !! f)) ∧
  (∀ l s', step l s = Some s' → keeps_pinned s s').
Proof.
  intros Hm Hr. pose proof (Inv_reachable_cache _ _ Hm Hr) as Hi.
  split_and!; [apply Hi|apply Hi|apply Hi|apply Hi|].
  intros l s' Hs. by eapply Inv_cache.
Qed.

(** A miss with enough space left. *)
Lemma pin_miss f st_size reads b c s :
  locked s = false → cache_map_ s !! f = None → load st_size reads = Some (Loaded b) →
  byteCount b = Some c → (st_size ≤ maxSize s - bytesUsed s)%Z →
  let a := length (nodes s) in
  ∃ s', pin f (File st_size reads) s = Some (Some a, Points a, s') ∧ locked s' = false ∧
    cache_map_ s' !! f = Some a ∧ nodes s' !! a = Some (mkNode f b 1) ∧
    bytesUsed s' = (bytesUsed s + Z.of_nat c)%Z ∧ pins s' = (pins s + 1)%Z ∧ hits s' = hits s.
Proof.
  intros Hlk Hf Hl Hc Hsp a. unfold pin, pin_find. rewrite Hlk. cbn [mbind option_bind].
  rewrite Hf, Hl. cbn [mbind option_bind]. unfold pin_insert. rewrite Hlk, decide_True by lia.
  unfold insert_node. rewrite Hf, Hc. cbn [mbind option_bind]. eexists. split; [done|].
  cbn. rewrite lookup_insert_eq, lookup_app_r, Nat.sub_diag by done.
  unfold pins, hits, bytesUsed. cbn. split_and!; try done. lia.
Qed.

Lemma pin_again f d a n s :
  locked s = false → cache_map_ s !! f = Some a → nodes s !! a = Some n →
  ∃ s', pin f d s = Some (Some a, Points a, s') ∧ cache_map_ s' !! f = Some a ∧
    nodes s' !! a = Some (mkNode (file_name n) (buf n) (count_unpin n + 1)) ∧
    pins s' = (pins s + 1)%Z ∧ hits s' = (hits s + 1)%Z.
Proof.
  intros Hlk Hf Ha. unfold pin, pin_find. rewrite Hlk. cbn [mbind option_bind]. rewrite Hf.
  unfold pin_hit. rewrite Ha. cbn. eexists. split; [done|]. cbn.
  rewrite list_lookup_insert_eq by (by eapply lookup_lt_Some). unfold pins, hits. cbn.
  split_and!; try done; lia.
Qed.

(** The contract of [pin] for a file of at most one block that is read at
    once and fits into the free space: the first call returns a handle and a
    buffer with the file's bytes; the next call, whatever the file is by then,
    returns the same handle and buffer, with another pin, and counts a hit. *)
Lemma pin_miss_then_hit f d d' s :
  locked s = false → cache_map_ s !! f = None → 0 < length d → length d ≤ BlockSize →
  (Z.of_nat (length d) ≤ maxSize s - bytesUsed s)%Z →
  ∃ a b s1 s2,
    pin f (File (Z.of_nat (length d)) [ReadOk d]) s = Some (Some a, Points a, s1) ∧
    nodes s1 !! a = Some (mkNode f b 1) ∧ contents b = d ∧
    bytesUsed s1 = (bytesUsed s + Z.of_nat (length d))%Z ∧
    pin f d' s1 = Some (Some a, Points a, s2) ∧ nodes s2 !! a = Some (mkNode f b 2) ∧
    pins s2 = (pins s + 2)%Z ∧ hits s2 = (hits s + 1)%Z.
Proof.
  intros Hlk Hf H0 Hd Hsp. destruct (load_one d H0 Hd) as (b & Hl & Hc & _ & _).
  destruct (load_spec (Z.of_nat (length d)) [ReadOk d] b ltac:(lia) Hl) as [Hbc _]. rewrite Hc in Hbc.
  destruct (pin_miss f _ _ b _ s Hlk Hf Hl Hbc Hsp) as (s1 & Hp & Hlk1 & Hf1 & Ha1 & Hu1 & Hp1 & Hh1).
  destruct (pin_again f d' _ _ s1 Hlk1 Hf1 Ha1) as (s2 & Hp' & Hf2 & Ha2 & Hp2 & Hh2).
  exists (length (nodes s)), b, s1, s2. split_and!; try done; lia.
Qed.

(** A file of more than one block that is read without an error is cached as
    an empty buffer: [pin] returns a handle, the buffer has no bytes and the
    cache does not count any. *)
Lemma large_file_cached_empty f st_size reads b s :
  locked s = false → cache_map_ s !! f = None → (Z.of_nat BlockSize < st_size)%Z →
  load st_size reads = Some (Loaded b) → (st_size ≤ maxSize s - bytesUsed s)%Z →
  ∃ a s', pin f (File st_size reads) s = Some (Some a, Points a, s') ∧
    nodes s' !! a = Some (mkNode f b 1) ∧ contents b = [] ∧ bytesUsed s' = bytesUsed s.
Proof.
  intros Hlk Hf Hsz Hl Hsp. destruct (load_spec st_size reads b ltac:(lia) Hl) as [Hbc Hc].
  rewrite decide_False in Hc by lia. rewrite Hc in Hbc.
  destruct (pin_miss f _ _ b _ s Hlk Hf Hl Hbc Hsp) as (s1 & Hp & _ & _ & Ha1 & Hu1 & _).
  exists (length (nodes s)), s1. split_and!; try done. rewrite Hu1. cbn. lia.
Qed.
End properties.

(** ** Instances of the properties *)

#[local] Instance zero_byte : Uninit := Ascii.zero.

Definition page : bytes := replicate 5 "a"%char.
Definition inserted : FileCache :=
  default (make 100) (step (Insert "f" 5 [ReadOk page]) (make 100)).

Lemma inserted_reachable : reachable step (make 100) inserted.
Proof.
  exists [Insert "f" 5 [ReadOk page]]. unfold inserted. cbn [exec].
  destruct (step (Insert "f" 5 [ReadOk page]) (make 100)) eqn:E; [reflexivity|].
  exfalso. vm_compute in E. discriminate E.
Defined.

Lemma cache_within_limit_keeps_pinned_witness :
  (bytesUsed inserted ≤ maxSize inserted)%Z ∧ bytesUsed inserted = 5%Z.
Proof.
  split; [|vm_compute; reflexivity].
  refine (proj1 (proj2 (cache_within_limit_keeps_pinned 100 inserted _ inserted_reachable))). lia.
Defined.

(** A file of two blocks. *)
Definition block : bytes := replicate (Z.to_nat 4096) "b"%char.

End FileCache.
