(* ===== verification/RequestStats.v ===== *)
(** * Request statistics ([request_stats.hpp], [.cpp])

    Per thread a circular vector with the number of requests in each tenth of the
    last second.  The clock's number of ticks per second is a parameter;
    [TicksClock::ticksPerSecond()] is a whole number held in a double, and sums of
    ticks are taken to be exact, as they are below 2^53.  The times to parse,
    handle and connect, sums of doubles, are left out. *)

From Stdlib Require Import Sorted.
From S2P Require Import Prelude.

Module RequestStats.
Section stats.
Context (ticksPerSecond : Z).

Definition kNumSlots : Z := 10.
Definition kTicksPerSlot : Z := ticksPerSecond / kNumSlots.

Record Counts := mkCounts { base_pos : Z; base_tick : Z; val : list Z }.

Definition u32 (x : Z) : Z := x mod 2 ^ 32.
Definition u64 (x : Z) : Z := x mod 2 ^ 64.

Definition incPos (p : Z) : Z := u32 (p + 1) mod kNumSlots.
Definition posForTick (t : Z) : Z := t / kTicksPerSlot mod kNumSlots.
Definition roundTick (t : Z) : Z := t - t mod kTicksPerSlot.

(** An array access; [None] is out of range. *)
Definition slot (v : list Z) (p : Z) : option Z := v !! Z.to_nat p.
Definition set_slot (v : list Z) (p x : Z) : list Z := <[Z.to_nat p := x]> v.

(** The constructor, for one thread. *)
Definition empty_counts : Counts := mkCounts 0 0 (replicate (Z.to_nat kNumSlots) 0%Z).

Definition make (num_threads : nat) : list Counts := replicate num_threads empty_counts.

(** The loop that clears the slots after [curr_pos] up to [new_pos]. *)
Fixpoint zero_loop (fuel : nat) (curr_pos new_pos : Z) (v : list Z) : option (list Z) :=
  match fuel with
  | 0 => None
  | S fuel =>
    let curr_pos := incPos curr_pos in
    let v := set_slot v curr_pos 0 in
    if decide (curr_pos ≠ new_pos) then zero_loop fuel curr_pos new_pos v else Some v
  end.

(** [finishedRequest] on the thread's own counts. *)
Definition record_request (now : Z) (counts : Counts) : option Counts :=
  counts ←
    (if decide (now > base_tick counts + kTicksPerSlot)%Z then
       let new_pos := posForTick now in
       v ← (if decide (base_tick counts + ticksPerSecond < now)%Z
            then Some (replicate (Z.to_nat kNumSlots) 0%Z)
            else zero_loop (Z.to_nat kNumSlots) (base_pos counts) new_pos (val counts));
       Some (mkCounts new_pos (roundTick now) v)
     else Some counts);
  x ← slot (val counts) (base_pos counts);
  Some (mkCounts (base_pos counts) (base_tick counts)
          (set_slot (val counts) (base_pos counts) (u32 (x + 1)))).

Definition finishedRequest (thread_num : nat) (now : Z) (counts : list Counts)
    : option (list Counts) :=
  c ← counts !! thread_num;
  c ← record_request now c;
  Some (<[thread_num := c]> counts).

(** The loop that adds up the slots after [curr_pos] up to [base_pos]. *)
Fixpoint sum_loop (fuel : nat) (curr_pos stop : Z) (v : list Z) (acc : Z) : option Z :=
  match fuel with
  | 0 => None
  | S fuel =>
    let curr_pos := incPos curr_pos in
    x ← slot v curr_pos;
    let acc := u32 (acc + x) in
    if decide (curr_pos ≠ stop) then sum_loop fuel curr_pos stop v acc else Some acc
  end.

(** The requests of one thread; [now - base_tick] is unsigned. *)
Definition add_thread (now : Z) (acc : Z) (counts : Counts) : option Z :=
  if decide (u64 (now - base_tick counts) > ticksPerSecond)%Z then Some acc
  else sum_loop (Z.to_nat kNumSlots) (posForTick now) (base_pos counts) (val counts) acc.

(** [getStats]: [*reqsLastSec]. *)
Definition getStats (now : Z) (counts : list Counts) : option Z :=
  foldl (λ acc c, acc ← acc; add_thread now acc c) (Some 0%Z) counts.

(** ** The contents of the vector *)

(** The requests counted in slot [j] of time. *)
Definition in_slot (reqs : list Z) (j : Z) : Z := Z.of_nat (length (filter (λ r, r = j) reqs)).

(** The vector holds the slots from [B - 9] to [B]; [reqs] are the slots in which
    the thread's requests were counted. *)
Record holds (c : Counts) (B : Z) (reqs : list Z) : Prop := {
  h_nonneg : (0 ≤ B)%Z;
  h_tick : base_tick c = (B * kTicksPerSlot)%Z;
  h_pos : base_pos c = (B mod kNumSlots)%Z;
  h_len : length (val c) = Z.to_nat kNumSlots;
  h_val : ∀ j, (B - kNumSlots < j ≤ B)%Z →
    slot (val c) (j mod kNumSlots) = Some (u32 (in_slot reqs j));
  h_old : Forall (λ r, r ≤ B)%Z reqs
}.

(** The clock has at least a hundred ticks per second. *)
Context (fast : (100 ≤ ticksPerSecond)%Z).

#[local] Ltac mods := Z.div_mod_to_equations; lia.

Lemma slot_width :
  (10 ≤ kTicksPerSlot)%Z ∧ (10 * kTicksPerSlot ≤ ticksPerSecond < 11 * kTicksPerSlot)%Z.
Proof. unfold kTicksPerSlot, kNumSlots. mods. Qed.

Lemma incPos_mod j : incPos (j mod kNumSlots) = ((j + 1) mod kNumSlots)%Z.
Proof.
  unfold incPos, u32, kNumSlots. rewrite (Z.mod_small _ (2 ^ 32)) by mods.
  by rewrite Zplus_mod_idemp_l.
Qed.

Lemma slot_set v a j x :
  length v = Z.to_nat kNumSlots →
  slot (set_slot v (a mod kNumSlots) x) (j mod kNumSlots) =
    if decide (j mod kNumSlots = a mod kNumSlots)%Z then Some x else slot v (j mod kNumSlots).
Proof.
  intros Hl. unfold slot, set_slot. unfold kNumSlots in *. case_decide as E.
  - rewrite E, list_lookup_insert_eq; [done|]. rewrite Hl. apply Z2Nat.inj_lt; mods.
  - rewrite list_lookup_insert_ne; [done|]. intros He%Z2Nat.inj; [done|mods|mods].
Qed.

Lemma set_slot_length v p x : length (set_slot v p x) = length v.
Proof. apply length_insert. Qed.

Lemma next_same B d :
  (1 ≤ d ≤ 10)%Z → ((B + 1) mod kNumSlots = (B + d) mod kNumSlots)%Z ↔ d = 1%Z.
Proof. unfold kNumSlots. intros Hd. split; [mods|by intros ->]. Qed.

(** The loop clears the [d] slots after [B]. *)
Lemma zero_loop_spec d : ∀ fuel B v,
  0 < d ≤ 10 → d ≤ fuel → length v = Z.to_nat kNumSlots →
  ∃ v', zero_loop fuel (B mod kNumSlots) ((B + Z.of_nat d) mod kNumSlots) v = Some v' ∧
    length v' = Z.to_nat kNumSlots ∧
    ∀ j, slot v' (j mod kNumSlots) =
      if decide ((j - B - 1) mod kNumSlots < Z.of_nat d)%Z then Some 0%Z
      else slot v (j mod kNumSlots).
Proof.
  induction d as [|d IH]; intros fuel B v Hd Hf Hl; [lia|].
  destruct fuel as [|fuel]; [lia|]. cbn [zero_loop]. rewrite incPos_mod.
  case_decide as Hs; rewrite next_same in Hs by lia.
  - destruct (IH fuel (B + 1)%Z (set_slot v ((B + 1) mod kNumSlots) 0)) as (v' & E & Hl' & Hv');
      [lia|lia|by rewrite set_slot_length|].
    replace (B + 1 + Z.of_nat d)%Z with (B + Z.of_nat (S d))%Z in E by lia.
    exists v'. split_and!; [done|done|]. intros j. rewrite Hv', slot_set by done. unfold kNumSlots.
    repeat case_decide; try done; exfalso; mods.
  - assert (d = 0) as -> by lia. eexists. split; [done|]. rewrite set_slot_length. split; [done|].
    intros j. rewrite slot_set by done. unfold kNumSlots.
    repeat case_decide; try done; exfalso; mods.
Qed.

(** *** Counting *)

Lemma in_slot_app reqs r j :
  in_slot (reqs ++ [r]) j = (in_slot reqs j + if decide (r = j) then 1 else 0)%Z.
Proof.
  unfold in_slot. rewrite filter_app, length_app, Nat2Z.inj_add. f_equal.
  rewrite filter_cons. by case_decide.
Qed.

Lemma in_slot_late reqs B j : Forall (λ r, r ≤ B)%Z reqs → (B < j)%Z → in_slot reqs j = 0%Z.
Proof.
  intros Hr Hj. unfold in_slot. induction Hr as [|r reqs Hr _ IH]; [done|].
  rewrite filter_cons, decide_False by lia. done.
Qed.

Lemma u32_add x y : u32 (u32 x + y) = u32 (x + y).
Proof. unfold u32. by rewrite Zplus_mod_idemp_l. Qed.

(** The slot in which the code counts a request at [now]: not that of [now] at the
    first tick of the slot after [B]. *)
Definition counted_in (B now : Z) : Z :=
  if decide (now > B * kTicksPerSlot + kTicksPerSlot)%Z then now / kTicksPerSlot else B.

(** The vector after the slots have moved on to that of [now]. *)
Lemma holds_count c B reqs x :
  length (val c) = Z.to_nat kNumSlots → (0 ≤ B)%Z → base_pos c = (B mod kNumSlots)%Z →
  base_tick c = (B * kTicksPerSlot)%Z → Forall (λ r, r ≤ B)%Z reqs →
  (∀ j, (B - kNumSlots < j ≤ B)%Z → slot (val c) (j mod kNumSlots) = Some (u32 (in_slot reqs j))) →
  slot (val c) (base_pos c) = Some x →
  holds (mkCounts (base_pos c) (base_tick c) (set_slot (val c) (base_pos c) (u32 (x + 1)))) B
    (reqs ++ [B]).
Proof.
  intros Hl HB Hp Ht Hr Hv Hx. split; cbn; try done.
  - by rewrite set_slot_length.
  - intros j Hj. rewrite Hp, slot_set by done. rewrite in_slot_app. case_decide as E.
    + assert (j = B) as -> by (unfold kNumSlots in *; mods).
      rewrite Hp, (Hv B) in Hx by (unfold kNumSlots; lia). simplify_eq.
      by rewrite decide_True, u32_add by done.
    + rewrite (Hv j Hj), decide_False by (by intros ->). f_equal. f_equal. lia.
  - apply Forall_app. split; [done|]. by constructor.
Qed.

Lemma slot_of_now now : (0 ≤ now)%Z →
  (now / kTicksPerSlot * kTicksPerSlot ≤ now < now / kTicksPerSlot * kTicksPerSlot + kTicksPerSlot)%Z.
Proof.
  intros Hn. destruct slot_width as [HK _].
  pose proof (Z.div_mod now kTicksPerSlot ltac:(lia)).
  pose proof (Z.mod_pos_bound now kTicksPerSlot ltac:(lia)). lia.
Qed.

Lemma slot_zeros j : slot (replicate (Z.to_nat kNumSlots) 0%Z) (j mod kNumSlots) = Some 0%Z.
Proof.
  unfold slot. apply lookup_replicate. split; [done|]. apply Z2Nat.inj_lt; unfold kNumSlots; mods.
Qed.

(** [finishedRequest] moves the vector to the slot of [now] and counts there. *)
Lemma record_request_spec c B reqs now :
  holds c B reqs → (0 ≤ now)%Z →
  ∃ c', record_request now c = Some c' ∧
        holds c' (counted_in B now) (reqs ++ [counted_in B now]).
Proof.
  intros [HB Ht Hp Hl Hv Hr] Hnow. destruct slot_width as [HK HP]. pose proof (slot_of_now now Hnow) as Hn.
  unfold record_request, counted_in. rewrite Ht. set (N := (now / kTicksPerSlot)%Z) in *.
  case_decide as Hlate.
  - assert (B < N)%Z as HBN by nia.
    assert (∃ v, (if decide (B * kTicksPerSlot + ticksPerSecond < now)%Z
                  then Some (replicate (Z.to_nat kNumSlots) 0%Z)
                  else zero_loop (Z.to_nat kNumSlots) (base_pos c) (posForTick now) (val c)) = Some v ∧
            length v = Z.to_nat kNumSlots ∧
            ∀ j, (N - kNumSlots < j ≤ N)%Z → slot v (j mod kNumSlots) = Some (u32 (in_slot reqs j)))
      as (v & E & Hlv & Hvv).
    { case_decide as Hold.
      - eexists. split; [done|]. split; [by rewrite length_replicate|]. intros j Hj.
        rewrite slot_zeros, (in_slot_late reqs B); [done|done|]. unfold kNumSlots in *. nia.
      - assert (N ≤ B + 10)%Z as Hd by nia.
        destruct (zero_loop_spec (Z.to_nat (N - B)) (Z.to_nat kNumSlots) B (val c))
          as (v & E & Hlv & Hvv); [lia|unfold kNumSlots; lia|done|].
        replace (B + Z.of_nat (Z.to_nat (N - B)))%Z with N in E by lia.
        exists v. unfold posForTick. fold N. rewrite Hp. split_and!; [done|done|].
        intros j Hj. rewrite Hvv. unfold kNumSlots in *. case_decide as Hz.
        + rewrite (in_slot_late reqs B); [done|done|mods].
        + apply Hv. mods. }
    rewrite E. cbn [mbind option_bind]. cbn [base_pos base_tick val].
    assert (posForTick now = N mod kNumSlots)%Z as Hpos by done.
    pose proof (Hvv N ltac:(unfold kNumSlots; lia)) as HN. rewrite Hpos, HN. cbn [mbind option_bind].
    eexists. split; [done|].
    apply (holds_count (mkCounts (N mod kNumSlots) (roundTick now) v)); cbn; try done; [lia|..].
    + unfold roundTick. pose proof (Z.div_mod now kTicksPerSlot ltac:(lia)). fold N in H. lia.
    + eapply Forall_impl; [done|]. cbn. lia.
  - cbn [mbind option_bind].
    pose proof (Hv B ltac:(unfold kNumSlots; lia)) as HN. rewrite <- Hp in HN. rewrite HN.
    cbn [mbind option_bind]. eexists. split; [done|]. by apply holds_count.
Qed.

(** *** Reading the vector *)

(** The requests counted in the slots after [lo] up to [hi]. *)
Definition between (reqs : list Z) (lo hi : Z) : Z :=
  Z.of_nat (length (filter (λ r, lo < r ≤ hi)%Z reqs)).

Lemma between_next reqs lo hi :
  (lo < hi)%Z → between reqs lo hi = (in_slot reqs (lo + 1) + between reqs (lo + 1) hi)%Z.
Proof.
  intros Hlt. unfold between, in_slot. induction reqs as [|r reqs IH]; [done|].
  rewrite !filter_cons. repeat case_decide; try (exfalso; lia); cbn [length]; lia.
Qed.

Lemma between_empty reqs lo hi : (hi ≤ lo)%Z → between reqs lo hi = 0%Z.
Proof.
  intros Hlo. unfold between. induction reqs as [|r reqs IH]; [done|].
  by rewrite filter_cons, decide_False by lia.
Qed.

Lemma between_none reqs B lo hi :
  Forall (λ r, r ≤ B)%Z reqs → (B ≤ lo)%Z → between reqs lo hi = 0%Z.
Proof.
  intros Hr Hlo. unfold between. induction Hr as [|r reqs Hr _ IH]; [done|].
  rewrite filter_cons, decide_False by lia. done.
Qed.

Lemma between_late reqs B lo hi :
  Forall (λ r, r ≤ B)%Z reqs → (B ≤ hi)%Z → between reqs lo hi = between reqs lo B.
Proof.
  intros Hr Hhi. unfold between. induction Hr as [|r reqs Hr _ IH]; [done|].
  rewrite !filter_cons. repeat case_decide; try (exfalso; lia); cbn [length]; lia.
Qed.

(** The loop adds up the [d] slots up to [B]. *)
Lemma sum_loop_spec B reqs v d : ∀ fuel acc,
  (∀ j, (B - kNumSlots < j ≤ B)%Z → slot v (j mod kNumSlots) = Some (u32 (in_slot reqs j))) →
  0 < d ≤ 10 → d ≤ fuel →
  sum_loop fuel ((B - Z.of_nat d) mod kNumSlots) (B mod kNumSlots) v (u32 acc) =
    Some (u32 (acc + between reqs (B - Z.of_nat d) B)).
Proof.
  induction d as [|d IH]; intros fuel acc Hv Hd Hf; [lia|].
  destruct fuel as [|fuel]; [lia|]. cbn [sum_loop]. rewrite incPos_mod.
  rewrite Hv by (unfold kNumSlots; lia). cbn [mbind option_bind].
  rewrite u32_add, (Z.add_comm acc), u32_add, (between_next _ (B - _)) by lia.
  replace (B - Z.of_nat (S d) + 1)%Z with (B - Z.of_nat d)%Z by lia.
  case_decide as Hs.
  - destruct (decide (d = 0)) as [->|Hd0].
    { exfalso. apply Hs. f_equal. lia. }
    rewrite IH by (done || lia). f_equal. f_equal. lia.
  - assert (d = 0) as -> by (unfold kNumSlots in Hs; mods).
    f_equal. f_equal. rewrite (between_empty reqs (B - Z.of_nat 0)) by lia. lia.
Qed.

(** What [getStats] adds for one thread. *)
Lemma add_thread_spec now acc c B reqs :
  holds c B reqs → (B * kTicksPerSlot ≤ now < 2 ^ 64)%Z →
  (now / kTicksPerSlot ≠ B + kNumSlots ∨ ticksPerSecond < now - B * kTicksPerSlot ∨ reqs = [])%Z →
  add_thread now (u32 acc) c =
    Some (u32 (acc + between reqs (now / kTicksPerSlot - kNumSlots) (now / kTicksPerSlot))).
Proof.
  intros [HB Ht Hp Hl Hv Hr] Hnow HN. destruct slot_width as [HK HP].
  pose proof (slot_of_now now ltac:(lia)) as Hn. set (N := (now / kTicksPerSlot)%Z) in *.
  unfold add_thread, u64. rewrite Ht, (Z.mod_small (now - B * kTicksPerSlot)) by lia.
  case_decide as Hold.
  - rewrite (between_none reqs B); [by rewrite Z.add_0_r|done|]. unfold kNumSlots in *. nia.
  - destruct (decide (N = B + kNumSlots)%Z) as [E|E].
    { destruct HN as [?|[?| ->]]; [done|lia|]. unfold posForTick. fold N. rewrite Hp, E.
      replace ((B + kNumSlots) mod kNumSlots)%Z with ((B - Z.of_nat 10) mod kNumSlots)%Z by (unfold kNumSlots; mods).
      by rewrite (sum_loop_spec B []) by (done || unfold kNumSlots; lia). }
    assert (B ≤ N < B + 10)%Z as HBN by (unfold kNumSlots in *; nia).
    unfold posForTick. fold N. rewrite Hp, (between_late reqs B) by (done || lia).
    replace (N mod kNumSlots)%Z with ((B - Z.of_nat (Z.to_nat (10 - (N - B)))) mod kNumSlots)%Z.
    2: { unfold kNumSlots. mods. }
    rewrite (sum_loop_spec B reqs); [|done|lia|unfold kNumSlots; lia].
    replace (B - Z.of_nat (Z.to_nat (10 - (N - B))))%Z with (N - kNumSlots)%Z
      by (unfold kNumSlots; lia). done.
Qed.

(** ** Sequences of requests *)

(** Requests, each with its thread and time, on all the counts. *)
Fixpoint run (events : list (nat * Z)) (cs : list Counts) : option (list Counts) :=
  match events with
  | [] => Some cs
  | (thread, now) :: events => cs ← finishedRequest thread now cs; run events cs
  end.

(** The times of each thread's requests, in order. *)
Definition log (events : list (nat * Z)) (l : list (list Z)) : list (list Z) :=
  foldl (λ l e, alter (λ ts, ts ++ [e.2]) e.1 l) l events.

(** A thread's clock does not go back. *)
Definition in_order (ts : list Z) : Prop := StronglySorted Z.le ts.

(** [t] lies in slot [r], or is the first tick of the next one. *)
Definition near (t r : Z) : Prop := (r * kTicksPerSlot ≤ t ≤ r * kTicksPerSlot + kTicksPerSlot)%Z.

(** The counts of a thread whose requests came at [ts]: each was counted in its
    slot, or at a slot's first tick perhaps in the one before. *)
Definition counts_of (c : Counts) (ts : list Z) : Prop :=
  ∃ B reqs, holds c B reqs ∧ Forall2 near ts reqs ∧
    match last ts with None => B = 0%Z | Some t => near t B ∧ last reqs = Some B end.

Lemma in_order_snoc ts t : in_order (ts ++ [t]) → in_order ts ∧ Forall (λ x, x ≤ t)%Z ts.
Proof.
  induction ts as [|x ts IH]; cbn; intros Hs; [by repeat constructor|].
  apply StronglySorted_inv in Hs as [Hs Hx]. destruct (IH Hs) as [H1 H2].
  apply Forall_app in Hx as [Hx Ht]. rewrite Forall_singleton in Ht. split; by constructor.
Qed.

Lemma in_order_app ts k : in_order (ts ++ k) → in_order ts.
Proof.
  induction k as [|x k IH] using rev_ind; [by rewrite app_nil_r|].
  rewrite app_assoc. intros [H _]%in_order_snoc. by apply IH.
Qed.

Lemma counts_of_record c ts t :
  counts_of c ts → (0 ≤ t)%Z → in_order (ts ++ [t]) →
  ∃ c', record_request t c = Some c' ∧ counts_of c' (ts ++ [t]).
Proof.
  intros (B & reqs & Hh & H2 & Hl) Ht Ho. destruct slot_width as [HK _].
  destruct (record_request_spec c B reqs t Hh Ht) as (c' & E & Hc'). exists c'. split; [done|].
  pose proof (slot_of_now t Ht) as Hn. apply in_order_snoc in Ho as [_ Ho].
  assert (B * kTicksPerSlot ≤ t)%Z as HB.
  { destruct (last ts) as [x|] eqn:Ex; [|subst B; lia]. destruct Hl as [[Hx _] _].
    apply last_Some in Ex as [ts' ->]. apply Forall_app in Ho as [_ Ho]. rewrite Forall_singleton in Ho. lia. }
  assert (near t (counted_in B t)) as Hr by (unfold near, counted_in; case_decide; lia).
  eexists _, _. split; [exact Hc'|]. split; [by apply Forall2_app; [|constructor]|].
  by rewrite !last_snoc.
Qed.

Lemma log_length events : ∀ l, length (log events l) = length l.
Proof. unfold log. induction events as [|e events IH]; intros l; cbn; [done|]. by rewrite IH, length_alter. Qed.

(** A thread's times only get longer. *)
Lemma log_lookup events t : ∀ l ts, l !! t = Some ts → ∃ ts1, log events l !! t = Some (ts ++ ts1).
Proof.
  induction events as [|[u now] events IH]; intros l ts Hl; cbn; [exists []; by rewrite app_nil_r|].
  destruct (decide (t = u)) as [->|Hne].
  - destruct (IH (alter (λ ts, ts ++ [now]) u l) (ts ++ [now])) as [ts1 H1].
    { by rewrite list_lookup_alter_eq, Hl. }
    exists ([now] ++ ts1). by rewrite app_assoc.
  - apply IH. by rewrite list_lookup_alter_ne.
Qed.

Lemma run_counts events : ∀ cs l,
  Forall2 counts_of cs l → Forall (λ e, e.1 < length cs ∧ (0 ≤ e.2)%Z) events →
  Forall in_order (log events l) →
  ∃ cs', run events cs = Some cs' ∧ Forall2 counts_of cs' (log events l).
Proof.
  induction events as [|[t now] events IH]; intros cs l Hh He Ho; cbn; [eauto|].
  apply Forall_cons in He as [[Ht Hnow] He]. cbn in Ht, Hnow, Ho.
  destruct (lookup_lt_is_Some_2 cs t Ht) as [c Hc].
  destruct (Forall2_lookup_l _ _ _ _ _ Hh Hc) as (ts & Ha & Hca).
  assert (in_order (ts ++ [now])) as Hts.
  { destruct (log_lookup events t (alter (λ ts, ts ++ [now]) t l) (ts ++ [now])) as [ts1 H1].
    { by rewrite list_lookup_alter_eq, Ha. }
    apply (in_order_app _ ts1). exact (Forall_lookup_1 _ _ _ _ Ho H1). }
  destruct (counts_of_record c ts now Hca Hnow Hts) as (c' & E & Hc').
  unfold finishedRequest. rewrite Hc. cbn [mbind option_bind]. rewrite E. cbn [mbind option_bind].
  apply IH; [|by rewrite length_insert|exact Ho].
  apply Forall2_same_length_lookup. split.
  - rewrite length_insert, length_alter. by eapply Forall2_length.
  - intros i x y Hx Hy. destruct (decide (i = t)) as [->|Hne].
    + rewrite list_lookup_insert_eq in Hx by done. rewrite list_lookup_alter_eq, Ha in Hy.
      by simplify_eq/=.
    + rewrite list_lookup_insert_ne in Hx by done. rewrite list_lookup_alter_ne in Hy by done.
      exact (Forall2_lookup_lr _ cs l i x y Hh Hx Hy).
Qed.

Definition no_requests (num_threads : nat) : list (list Z) := replicate num_threads [].

Lemma new_counts n : Forall2 counts_of (make n) (no_requests n).
Proof.
  apply Forall2_replicate. exists 0%Z, []. split; [|by split; [constructor|]].
  split; cbn; try done. intros j _. by rewrite slot_zeros.
Qed.

(** ** The requests of the last second *)

(** The first tick of the ninth slot before that of [now]. *)
Definition window_start (now : Z) : Z := ((now / kTicksPerSlot - (kNumSlots - 1)) * kTicksPerSlot)%Z.

(** The requests of all threads at or after tick [from]; after it. *)
Definition served_from (from : Z) (l : list (list Z)) : Z := Z.of_nat (length (filter (λ t, from ≤ t)%Z (concat l))).
Definition served_after (from : Z) (l : list (list Z)) : Z := Z.of_nat (length (filter (λ t, from < t)%Z (concat l))).

(** A time at which a thread's counts can be read: not before its last request,
    and not, with a request in the tenth slot before, so early in a slot that a
    second has not passed since the start of that one. *)
Definition readable (now : Z) (ts : list Z) : Prop :=
  Forall (λ t, t ≤ now)%Z ts ∧
  (ticksPerSecond mod kNumSlots < now mod kTicksPerSlot ∨
   Forall (λ t, ¬ (window_start now - kTicksPerSlot ≤ t ≤ window_start now)) ts)%Z.

(** What a thread adds lies between the two counts of its requests. *)
Lemma between_served now ts reqs :
  (0 ≤ now)%Z → Forall2 near ts reqs → Forall (λ t, t ≤ now)%Z ts →
  (served_after (window_start now) [ts] ≤
     between reqs (now / kTicksPerSlot - kNumSlots) (now / kTicksPerSlot) ≤ served_from (window_start now) [ts])%Z.
Proof.
  intros Hnow H2. unfold served_after, served_from, between, window_start, kNumSlots. cbn [concat]. rewrite app_nil_r.
  destruct slot_width as [HK _]. pose proof (slot_of_now now Hnow) as HN.
  set (N := (now / kTicksPerSlot)%Z) in *.
  induction H2 as [|t r ts reqs Hr H2 IH]; intros Hn; [cbn; lia|]. apply Forall_cons in Hn as [Ht Hn].
  specialize (IH Hn). unfold near in Hr. rewrite !filter_cons.
  repeat case_decide; cbn [length]; try lia; exfalso; nia.
Qed.

(** Where the test for a second and the slots disagree. *)
Lemma readable_slots now ts B reqs :
  (0 ≤ now)%Z → readable now ts → Forall2 near ts reqs →
  match last ts with None => B = 0%Z | Some t => near t B ∧ last reqs = Some B end →
  (now / kTicksPerSlot ≠ B + kNumSlots ∨ ticksPerSecond < now - B * kTicksPerSlot ∨ reqs = [])%Z.
Proof.
  intros Hnow [Hle Hr] H2 Hl. destruct slot_width as [HK HP].
  destruct (decide (now / kTicksPerSlot = B + kNumSlots)%Z) as [E|]; [right|by left].
  pose proof (Z.div_mod now kTicksPerSlot ltac:(lia)) as Hd. rewrite E in Hd. destruct Hr as [Hr|Hr].
  - left. pose proof (Z.div_mod ticksPerSecond kNumSlots ltac:(unfold kNumSlots; lia)) as Hp.
    fold kTicksPerSlot in Hp. unfold kNumSlots in *. lia.
  - right. destruct (last ts) as [t|] eqn:Et.
    + exfalso. apply last_Some in Et as [ts' ->]. destruct Hl as [HB _].
      apply Forall_app in Hr as [_ Hr]. rewrite Forall_singleton in Hr. apply Hr.
      unfold near, window_start in *. rewrite E. unfold kNumSlots. lia.
    + apply last_None in Et as ->. by inversion H2.
Qed.

Lemma add_thread_served now acc c ts :
  counts_of c ts → (0 ≤ now < 2 ^ 64)%Z → readable now ts →
  ∃ x, add_thread now (u32 acc) c = Some (u32 (acc + x)) ∧
    (served_after (window_start now) [ts] ≤ x ≤ served_from (window_start now) [ts])%Z.
Proof.
  intros (B & reqs & Hh & H2 & Hl) Hnow Hr. pose proof Hr as [Hle _].
  eexists. split; [|apply between_served; [lia|exact H2|done]]. apply (add_thread_spec _ _ _ B); [done| |].
  - split; [|lia]. destruct (last ts) as [t|] eqn:Et; [|subst B; lia]. destruct Hl as [[Hl _] _].
    apply last_Some in Et as [ts' ->]. apply Forall_app in Hle as [_ Hle]. rewrite Forall_singleton in Hle. lia.
  - eapply readable_slots; [lia|done..].
Qed.

Lemma served_cons from ts l :
  (served_from from (ts :: l) = served_from from [ts] + served_from from l ∧
   served_after from (ts :: l) = served_after from [ts] + served_after from l)%Z.
Proof. unfold served_from, served_after. cbn. rewrite app_nil_r, !filter_app, !length_app. lia. Qed.

Lemma getStats_served now l : ∀ cs acc,
  Forall2 counts_of cs l → (0 ≤ now < 2 ^ 64)%Z → Forall (readable now) l →
  ∃ x, foldl (λ acc c, acc ← acc; add_thread now acc c) (Some (u32 acc)) cs = Some (u32 (acc + x)) ∧
    (served_after (window_start now) l ≤ x ≤ served_from (window_start now) l)%Z.
Proof.
  induction l as [|ts l IH]; intros cs acc Hh Hnow Hl.
  { apply Forall2_nil_inv_r in Hh as ->. exists 0%Z. rewrite Z.add_0_r. by split. }
  apply Forall2_cons_inv_r in Hh as (c & cs' & Hc & Hh & ->). apply Forall_cons in Hl as [Hr Hl].
  destruct (add_thread_served now acc c ts Hc Hnow Hr) as (x & E & Hx). cbn [foldl mbind option_bind]. rewrite E.
  destruct (IH cs' (acc + x)%Z Hh Hnow Hl) as (y & -> & Hy). exists (x + y)%Z. rewrite Z.add_assoc. split; [done|].
  destruct (served_cons (window_start now) ts l) as [-> ->]. lia.
Qed.

(** C30. After any requests on any threads, each thread's times in order, [getStats]
    gives the number of all requests, modulo 2^32, since the first tick of the ninth
    slot before that of [now]: of the last second, in tenths.  Requests at exactly
    this tick may be missing, since the code may have counted them one slot too
    early; all others are counted, and none before it.  The time must not be behind
    a thread's last request; and, if a request of the thread is in the tenth slot
    before, [now] must not be one of the first ticks of its slot, where a second has
    not passed since the start of that one. *)
Theorem stats_count_last_second n events now :
  Forall (λ e, e.1 < n ∧ (0 ≤ e.2)%Z) events → Forall in_order (log events (no_requests n)) →
  (0 ≤ now < 2 ^ 64)%Z → Forall (readable now) (log events (no_requests n)) →
  ∃ cs x, run events (make n) = Some cs ∧ getStats now cs = Some (u32 x) ∧
    (served_after (window_start now) (log events (no_requests n)) ≤ x ≤
       served_from (window_start now) (log events (no_requests n)))%Z.
Proof.
  intros He Ho Hnow Hl. destruct (run_counts events (make n) (no_requests n)) as (cs & Hr & Hh).
  { apply new_counts. }
  { unfold make. by rewrite length_replicate. }
  { done. }
  destruct (getStats_served now _ cs 0 Hh Hnow Hl) as (x & Hs & Hx). by exists cs, x.
Qed.
End stats.

(** ** An instance *)

(** Two threads and a thousand ticks per second: at 1450 the requests since 500 are
    counted, in slots 5 to 14, and the one at 100 is not. *)
Definition sample : list (nat * Z) := [(0, 100%Z); (0, 510%Z); (0, 520%Z); (1, 1420%Z)].

Lemma stats_count_last_second_witness : ∃ cs x,
  run 1000 sample (make 2) = Some cs ∧ getStats 1000 1450 cs = Some (u32 x) ∧ x = 3%Z.
Proof.
  destruct (stats_count_last_second 1000 ltac:(lia) 2 sample 1450) as (cs & x & Hr & Hs & Hx).
  - unfold sample. repeat apply Forall_cons_2; try apply Forall_nil_2; cbn; lia.
  - change (log sample (no_requests 2)) with [[100; 510; 520]; [1420]]%Z.
    unfold in_order. repeat (constructor; try lia).
  - lia.
  - change (log sample (no_requests 2)) with [[100; 510; 520]; [1420]]%Z.
    apply Forall_cons_2; [|apply Forall_singleton]; (split; [repeat (constructor; try lia)|left; vm_compute; reflexivity]).
  - exists cs, x. split; [exact Hr|]. split; [exact Hs|].
    change (log sample (no_requests 2)) with [[100; 510; 520]; [1420]]%Z in Hx.
    change (served_after (window_start 1000 1450) [[100; 510; 520]; [1420]]%Z) with 3%Z in Hx.
    change (served_from (window_start 1000 1450) [[100; 510; 520]; [1420]]%Z) with 3%Z in Hx. lia.
Defined.

(** The request at 100 is at the first tick of slot 1 and is counted in slot 0. *)
Lemma first_tick_missing : ∃ cs,
  run 1000 [(0, 100%Z); (0, 250%Z)] (make 1) = Some cs ∧ getStats 1000 1050 cs = Some 1%Z ∧
  served_from (window_start 1000 1050) [[100; 250]]%Z = 2%Z.
Proof.
  exists (default [] (run 1000 [(0, 100%Z); (0, 250%Z)] (make 1))).
  split_and!; vm_compute; reflexivity.
Qed.
End RequestStats.
