(* ===== verification/IOManager.v ===== *)
(** * The IO manager and its descriptors ([io_manager.hpp], [.cpp],
    [descriptor_poller_epoll.cpp])

    One thread polls the sockets, starts the timers that are due, passes the
    events on to the descriptors and frees the descriptors that were given up;
    any other threads use the descriptors, add timers and stop the manager.  A
    step is what a thread does under one mutex; that a method of a descriptor hands
    its callback to the pool, which it does behind its own mutex, is part of its
    step.  Callbacks are numbers; [added] records those handed to the pool. *)

From Stdlib Require Import Sorted.
From S2P Require Import Prelude.

Module IOManager.

(** ** Events *)

(** What [epoll_wait] reports of a descriptor. *)
Record epoll_event := mkEvent { EPOLLERR : bool; EPOLLHUP : bool; EPOLLIN : bool; EPOLLOUT : bool }.

Definition DP_ERROR : Z := 1.
Definition DP_READ_READY : Z := 2.
Definition DP_WRITE_READY : Z := 4.

Definition getEvents (ev : epoll_event) : Z :=
  if EPOLLERR ev then DP_ERROR
  else Z.lor (if EPOLLHUP ev || EPOLLIN ev then DP_READ_READY else 0%Z)
             (if EPOLLHUP ev || EPOLLOUT ev then DP_WRITE_READY else 0%Z).

(** [e & mask], as a condition. *)
Definition has_event (e mask : Z) : bool := bool_decide (Z.land e mask ≠ 0%Z).

(** ** Descriptors *)

Record Descriptor := mkDesc {
  fd_ : Z;
  read_cb_ : option nat;
  write_cb_ : option nat;
  can_read_ : bool;
  can_write_ : bool;
  waiting_read_ : bool;
  waiting_write_ : bool
}.

(** The constructor. *)
Definition new_descriptor (fd : Z) (read_cb write_cb : option nat) : Descriptor :=
  mkDesc fd read_cb write_cb false false false false.

(** The callbacks it replaces are deleted. *)
Definition setUpCalls (read_cb write_cb : option nat) (d : Descriptor) : list nat * Descriptor :=
  (option_list (read_cb_ d) ++ option_list (write_cb_ d),
   mkDesc (fd_ d) read_cb write_cb (can_read_ d) (can_write_ d) (waiting_read_ d) (waiting_write_ d)).

Definition set_read (can waiting : bool) (d : Descriptor) : Descriptor :=
  mkDesc (fd_ d) (read_cb_ d) (write_cb_ d) can (can_write_ d) waiting (waiting_write_ d).
Definition set_write (can waiting : bool) (d : Descriptor) : Descriptor :=
  mkDesc (fd_ d) (read_cb_ d) (write_cb_ d) (can_read_ d) can (waiting_read_ d) waiting.

(** Each returns the callback it hands to the worker pool, if any. *)
Definition readWhenReady (d : Descriptor) : option nat * Descriptor :=
  if can_read_ d then (read_cb_ d, set_read false (waiting_read_ d) d)
  else (None, set_read (can_read_ d) true d).

Definition writeWhenReady (d : Descriptor) : option nat * Descriptor :=
  if can_write_ d then (write_cb_ d, set_write false (waiting_write_ d) d)
  else (None, set_write (can_write_ d) true d).

Definition readIfWaiting (d : Descriptor) : option nat * Descriptor :=
  if waiting_read_ d then (read_cb_ d, set_read (can_read_ d) false d)
  else (None, set_read true (waiting_read_ d) d).

Definition writeIfWaiting (d : Descriptor) : option nat * Descriptor :=
  if waiting_write_ d then (write_cb_ d, set_write (can_write_ d) false d)
  else (None, set_write true (waiting_write_ d) d).

(** ** Timers *)

(** The [multimap]: sorted by time, equal times in the order of insertion. *)
Definition TimerQueue := list (Z * nat).

Fixpoint timer_insert (ts : Z) (task : nat) (q : TimerQueue) : TimerQueue :=
  match q with
  | [] => [(ts, task)]
  | (ts', task') :: q' =>
    if decide (ts < ts')%Z then (ts, task) :: q else (ts', task') :: timer_insert ts task q'
  end.

(** The loop over the queue in [pollBody]: the tasks added to the pool, and the
    queue that is left. *)
Fixpoint run_timers (now : Z) (q : TimerQueue) : list nat * TimerQueue :=
  match q with
  | [] => ([], [])
  | (ts, task) :: q' =>
    if decide (ts > now)%Z then ([], q)
    else let '(tasks, rest) := run_timers now q' in (task :: tasks, rest)
  end.

(** ** The manager *)

(** The polling thread: [poll()] not called; at the test of [stopped()]; before
    the timers; passing on events; before the freeing of descriptors; returned. *)
Inductive poll_pc := NotPolling | AtTest | AtTimers (evs : list (nat * epoll_event))
  | Dispatching (evs : list (nat * epoll_event)) | Collecting | Returned.

(** The first call of [stop()]: not made; waiting for [polling_] to fall; before
    [worker_pool_->stop()]; before the loop that frees descriptors; over. *)
Inductive stop_pc := NotStopping | WaitingForPoll | StoppingWorkers | Freeing | Stopped.

Record state := mkState {
  descriptors : gmap nat Descriptor;   (* the objects that exist *)
  registered : gset nat;               (* those with an open socket in the poller *)
  deleted_desc_ : list nat;
  timer_queue_ : TimerQueue;
  stopped_ : bool;
  polling_ : bool;
  poller : poll_pc;
  stopper : stop_pc;
  added : list nat
}.

Definition init : state := mkState ∅ ∅ [] [] false false NotPolling NotStopping [].

Definition set_poller (p : poll_pc) (s : state) : state :=
  mkState (descriptors s) (registered s) (deleted_desc_ s) (timer_queue_ s) (stopped_ s) (polling_ s)
    p (stopper s) (added s).
Definition set_stopper (p : stop_pc) (s : state) : state :=
  mkState (descriptors s) (registered s) (deleted_desc_ s) (timer_queue_ s) (stopped_ s) (polling_ s)
    (poller s) p (added s).
Definition set_polling (b : bool) (s : state) : state :=
  mkState (descriptors s) (registered s) (deleted_desc_ s) (timer_queue_ s) (stopped_ s) b
    (poller s) (stopper s) (added s).

(** [newDescriptor], at the address [a]; [setEvent] adds it to the poller. *)
Definition newDescriptor (a : nat) (fd : Z) (rcb wcb : option nat) (s : state) : option state :=
  match descriptors s !! a with
  | Some _ => None
  | None =>
    Some (mkState (<[a := new_descriptor fd rcb wcb]> (descriptors s)) ({[a]} ∪ registered s)
            (deleted_desc_ s) (timer_queue_ s) (stopped_ s) (polling_ s) (poller s) (stopper s) (added s))
  end.

(** The owner closes the socket, which takes it out of the poller. *)
Definition close_fd (a : nat) (s : state) : state :=
  mkState (descriptors s) (registered s ∖ {[a]}) (deleted_desc_ s) (timer_queue_ s) (stopped_ s)
    (polling_ s) (poller s) (stopper s) (added s).

Definition delDescriptor (desc : option nat) (s : state) : state :=
  match desc with
  | None => s
  | Some a => mkState (descriptors s) (registered s) (a :: deleted_desc_ s) (timer_queue_ s)
                (stopped_ s) (polling_ s) (poller s) (stopper s) (added s)
  end.

(** A method of the descriptor at [a], and [addTask] for the callback it returns: in
    the code the mutex is given back before. *)
Definition on_descriptor (f : Descriptor → option nat * Descriptor) (a : nat) (s : state)
    : option state :=
  d ← descriptors s !! a;
  let '(cb, d) := f d in
  Some (mkState (<[a := d]> (descriptors s)) (registered s) (deleted_desc_ s) (timer_queue_ s)
          (stopped_ s) (polling_ s) (poller s) (stopper s) (added s ++ option_list cb)).

(** [addTimer]; [ts] is the present time and the delay in ticks. *)
Definition addTimer (ts : Z) (task : nat) (s : state) : state :=
  mkState (descriptors s) (registered s) (deleted_desc_ s) (timer_insert ts task (timer_queue_ s))
    (stopped_ s) (polling_ s) (poller s) (stopper s) (added s).

Definition addTask (task : nat) (s : state) : state :=
  mkState (descriptors s) (registered s) (deleted_desc_ s) (timer_queue_ s) (stopped_ s) (polling_ s)
    (poller s) (stopper s) (added s ++ [task]).

(** The loop that deletes the descriptors of a list. *)
Definition free_descriptors (l : list nat) (m : gmap nat Descriptor) : gmap nat Descriptor :=
  foldr delete m l.

(** [deleted_desc_ = NULL], and the deletions. *)
Definition collect (s : state) : state :=
  mkState (free_descriptors (deleted_desc_ s) (descriptors s)) (registered s) [] (timer_queue_ s)
    (stopped_ s) (polling_ s) (poller s) (stopper s) (added s).

(** One event: [readIfWaiting], then [writeIfWaiting]. *)
Definition dispatch (a : nat) (ev : epoll_event) (s : state) : option state :=
  let e := getEvents ev in
  s ← (if has_event e (Z.lor DP_ERROR DP_READ_READY) then on_descriptor readIfWaiting a s else Some s);
  if has_event e (Z.lor DP_ERROR DP_WRITE_READY) then on_descriptor writeIfWaiting a s else Some s.

(** [poll()] and [pollBody()]: the next step of the polling thread.  [evs] are
    the events [epoll_wait] returns, [now] is the time. *)
Definition poll_step (evs : list (nat * epoll_event)) (now : Z) (s : state) : option state :=
  match poller s with
  | NotPolling => Some (set_poller AtTest (set_polling true s))
  | AtTest => if stopped_ s then Some (set_poller Returned (set_polling false s))
              else Some (set_poller (AtTimers evs) s)
  | AtTimers evs =>
    let '(tasks, rest) := run_timers now (timer_queue_ s) in
    Some (mkState (descriptors s) (registered s) (deleted_desc_ s) rest (stopped_ s) (polling_ s)
            (Dispatching evs) (stopper s) (added s ++ tasks))
  | Dispatching ((a, ev) :: evs) => s ← dispatch a ev s; Some (set_poller (Dispatching evs) s)
  | Dispatching [] => Some (set_poller Collecting s)
  | Collecting => Some (set_poller AtTest (collect s))
  | Returned => None
  end.

(** [stop()]: the first call goes through these steps, others return at once. *)
Definition stop_step (s : state) : option state :=
  match stopper s with
  | NotStopping =>
    Some (mkState (descriptors s) (registered s) (deleted_desc_ s) (timer_queue_ s) true (polling_ s)
            (poller s) WaitingForPoll (added s))
  | WaitingForPoll => if polling_ s then None else Some (set_stopper StoppingWorkers s)
  | StoppingWorkers => Some (set_stopper Freeing s)
  | Freeing => Some (set_stopper Stopped (collect s))
  | Stopped => None
  end.

(** What the users of descriptors may do: use one they have not given up, and
    give one up after they closed its socket. *)
Definition in_use (a : nat) (s : state) : bool :=
  bool_decide (a ∈ dom (descriptors s)) && negb (bool_decide (a ∈ deleted_desc_ s)).

Inductive label :=
  | New (a : nat) (fd : Z) (rcb wcb : option nat)
  | ReadWhenReady (a : nat) | WriteWhenReady (a : nat)
  | SetUpCalls (a : nat) (rcb wcb : option nat)
  | Close (a : nat) | Delete (a : nat)
  | AddTimer (ts : Z) (task : nat) | AddTask (task : nat)
  | Poll (evs : list (nat * epoll_event)) (now : Z)
  | Stop.

Definition step (l : label) (s : state) : option state :=
  match l with
  | New a fd rcb wcb => newDescriptor a fd rcb wcb s
  | ReadWhenReady a => if in_use a s then on_descriptor readWhenReady a s else None
  | WriteWhenReady a => if in_use a s then on_descriptor writeWhenReady a s else None
  | SetUpCalls a rcb wcb =>
    if in_use a s then on_descriptor (λ d, (None, (setUpCalls rcb wcb d).2)) a s else None
  | Close a => if in_use a s then Some (close_fd a s) else None
  | Delete a => if in_use a s && bool_decide (a ∉ registered s)
                then Some (delDescriptor (Some a) s) else None
  | AddTimer ts task => Some (addTimer ts task s)
  | AddTask task => Some (addTask task s)
  | Poll evs now =>
    if forallb (λ e, bool_decide (e.1 ∈ registered s)) evs then poll_step evs now s else None
  | Stop => stop_step s
  end.

(** ** Safety *)

Definition inside (p : poll_pc) : bool :=
  match p with AtTimers _ | Dispatching _ | Collecting => true | _ => false end.

Definition pending (p : poll_pc) : list (nat * epoll_event) :=
  match p with AtTimers evs | Dispatching evs => evs | _ => [] end.

Record Inv (s : state) : Prop := {
  i_registered : registered s ⊆ dom (descriptors s);
  i_deleted : NoDup (deleted_desc_ s);
  i_given_up : ∀ a, a ∈ deleted_desc_ s → a ∈ dom (descriptors s) ∧ a ∉ registered s;
  i_pending : ∀ e, e ∈ pending (poller s) → e.1 ∈ dom (descriptors s);
  i_polling : polling_ s = true ↔ poller s = AtTest ∨ inside (poller s) = true;
  i_stopping : stopper s ≠ NotStopping → stopped_ s = true;
  i_stopped : stopper s ≠ NotStopping → stopper s ≠ WaitingForPoll → inside (poller s) = false
}.

Lemma free_dom l m : dom (free_descriptors l m) = dom m ∖ list_to_set l.
Proof.
  unfold free_descriptors. induction l as [|b l IH]; cbn; [set_solver|].
  rewrite dom_delete_L, IH. set_solver.
Qed.

(** Steps that leave the descriptors' addresses and the threads alone. *)
Lemma Inv_same s s' :
  Inv s → dom (descriptors s') = dom (descriptors s) → registered s' = registered s →
  deleted_desc_ s' = deleted_desc_ s → polling_ s' = polling_ s → poller s' = poller s →
  stopper s' = stopper s → stopped_ s' = stopped_ s → Inv s'.
Proof.
  intros [H1 H2 H3 H4 H5 H6 H7] E1 E2 E3 E4 E5 E6 E7.
  split; rewrite ?E1, ?E2, ?E3, ?E4, ?E5, ?E6, ?E7; done.
Qed.

Lemma on_descriptor_spec f a s s' :
  on_descriptor f a s = Some s' →
  dom (descriptors s') = dom (descriptors s) ∧ registered s' = registered s ∧
  deleted_desc_ s' = deleted_desc_ s ∧ polling_ s' = polling_ s ∧ poller s' = poller s ∧
  stopper s' = stopper s ∧ stopped_ s' = stopped_ s ∧ timer_queue_ s' = timer_queue_ s.
Proof.
  unfold on_descriptor. intros Hs. destruct (descriptors s !! a) as [d|] eqn:Hd; cbn in Hs; [|done].
  destruct (f d). simplify_eq. cbn. split; [|done]. rewrite dom_insert_lookup_L; [done|by eexists].
Qed.

Lemma Inv_on_descriptor f a s s' : Inv s → on_descriptor f a s = Some s' → Inv s'.
Proof.
  intros Hi Hs. destruct (on_descriptor_spec f a s s' Hs) as (? & ? & ? & ? & ? & ? & ? & ?).
  by eapply Inv_same.
Qed.

Lemma dispatch_spec a ev s s' :
  dispatch a ev s = Some s' →
  dom (descriptors s') = dom (descriptors s) ∧ registered s' = registered s ∧
  deleted_desc_ s' = deleted_desc_ s ∧ polling_ s' = polling_ s ∧ poller s' = poller s ∧
  stopper s' = stopper s ∧ stopped_ s' = stopped_ s ∧ timer_queue_ s' = timer_queue_ s.
Proof.
  unfold dispatch. intros Hs. destruct (has_event _ (Z.lor DP_ERROR DP_READ_READY)); cbn [mbind option_bind] in Hs.
  - destruct (on_descriptor readIfWaiting a s) as [s1|] eqn:E1; cbn [mbind option_bind] in Hs; [|done].
    apply on_descriptor_spec in E1 as (? & ? & ? & ? & ? & ? & ? & ?).
    destruct (has_event _ _); [|by simplify_eq].
    apply on_descriptor_spec in Hs as (? & ? & ? & ? & ? & ? & ? & ?). split_and!; congruence.
  - destruct (has_event _ _); [by eapply on_descriptor_spec|by simplify_eq].
Qed.

(** An event of a descriptor that exists can be passed on. *)
Lemma dispatch_total a ev s : a ∈ dom (descriptors s) → is_Some (dispatch a ev s).
Proof.
  assert (∀ f s, a ∈ dom (descriptors s) → is_Some (on_descriptor f a s)) as Hon.
  { intros f s1 [d Hd]%elem_of_dom. unfold on_descriptor. rewrite Hd. cbn. destruct (f d). by eexists. }
  intros Ha. unfold dispatch. destruct (has_event _ (Z.lor DP_ERROR DP_READ_READY)).
  - destruct (Hon readIfWaiting s Ha) as [s1 E1]. rewrite E1. cbn [mbind option_bind].
    apply on_descriptor_spec in E1 as (E & _). destruct (has_event _ _); [apply Hon; by rewrite E|by eexists].
  - cbn [mbind option_bind]. destruct (has_event _ _); [by apply Hon|by eexists].
Qed.

Lemma Inv_collect s :
  Inv s → pending (poller s) = [] → Inv (collect s).
Proof.
  intros [H1 H2 H3 H4 H5 H6 H7] Hp. split; cbn; rewrite ?free_dom; try done.
  - intros a Ha. apply elem_of_difference. split; [by apply H1|].
    intros [_ Hn]%elem_of_list_to_set%H3. done.
  - apply NoDup_nil_2.
  - intros a Ha. by apply not_elem_of_nil in Ha.
  - intros e He. rewrite Hp in He. by apply not_elem_of_nil in He.
Qed.

Lemma Inv_set_poller s p :
  Inv s → (∀ e, e ∈ pending p → e.1 ∈ dom (descriptors s)) →
  (polling_ s = true ↔ p = AtTest ∨ inside p = true) →
  (stopper s ≠ NotStopping → stopper s ≠ WaitingForPoll → inside p = false) →
  Inv (set_poller p s).
Proof. intros [H1 H2 H3 H4 H5 H6 H7] Hp Hq Hr. by split. Qed.

(** While the polling thread is inside its loop, [polling_] is up and [stop()] has
    not come past its wait. *)
Lemma inside_inv s : Inv s → inside (poller s) = true →
  polling_ s = true ∧ (stopper s ≠ NotStopping → stopper s ≠ WaitingForPoll → False).
Proof.
  intros Hi Hp. split; [apply (i_polling _ Hi); by right|].
  intros H1 H2. pose proof (i_stopped _ Hi H1 H2). congruence.
Qed.

Lemma Inv_poll evs now s s' :
  Inv s → Forall (λ e, e.1 ∈ registered s) evs → poll_step evs now s = Some s' → Inv s'.
Proof.
  intros Hi Hev Hs. unfold poll_step in Hs.
  destruct (poller s) as [| |evs'|[|[a ev] evs']| |] eqn:Hp; try done.
  - simplify_eq. destruct Hi as [H1 H2 H3 H4 H5 H6 H7]. split; cbn; try done; set_solver.
  - destruct (stopped_ s) eqn:Hst; simplify_eq.
    + destruct Hi as [H1 H2 H3 H4 H5 H6 H7]. split; cbn; try done; [set_solver|naive_solver].
    + apply Inv_set_poller; [done|..]; cbn.
      * intros e He. rewrite Forall_forall in Hev. by apply (i_registered _ Hi), Hev.
      * split; [by right|]. intros _. apply (i_polling _ Hi). by left.
      * intros Hn _. pose proof (i_stopping _ Hi Hn). congruence.
  - destruct (run_timers now (timer_queue_ s)) as [tasks rest]. simplify_eq.
    destruct Hi as [H1 H2 H3 H4 H5 H6 H7]. rewrite Hp in *. split; cbn in *; try done. naive_solver.
  - simplify_eq. apply Inv_set_poller; [done|..]; destruct Hi as [H1 H2 H3 H4 H5 H6 H7];
      rewrite Hp in *; cbn in *; [intros e He; by apply not_elem_of_nil in He|naive_solver|done].
  - destruct (dispatch a ev s) as [s1|] eqn:Hd; cbn [mbind option_bind] in Hs; [|done]. simplify_eq.
    apply dispatch_spec in Hd as (E1 & E2 & E3 & E4 & E5 & E6 & E7 & _).
    pose proof (Inv_same s s1 Hi E1 E2 E3 E4 E5 E6 E7) as Hi1.
    apply Inv_set_poller; [done|..].
    + intros e He. apply (i_pending _ Hi1). rewrite E5, Hp. by right.
    + rewrite (i_polling _ Hi1), E5, Hp. cbn. naive_solver.
    + intros Hn Hw. pose proof (i_stopped _ Hi1 Hn Hw) as Hin. by rewrite E5, Hp in Hin.
  - simplify_eq. assert (Inv (collect s)) as Hi1 by (apply Inv_collect; [done|by rewrite Hp]).
    apply Inv_set_poller; [done|..]; cbn.
    + intros e He. by apply not_elem_of_nil in He.
    + rewrite (i_polling _ Hi), Hp. cbn. naive_solver.
    + done.
Qed.

Lemma Inv_stop_io s s' : Inv s → stop_step s = Some s' → Inv s'.
Proof.
  intros Hi Hs. unfold stop_step in Hs.
  assert (∀ p, (p ≠ WaitingForPoll → polling_ s = false ∨ (stopper s ≠ NotStopping ∧ stopper s ≠ WaitingForPoll)) →
            stopper s ≠ NotStopping → Inv (set_stopper p s)) as Hset.
  { intros p Hp Hn. pose proof Hi as [H1 H2 H3 H4 H5 H6 H7]. split; cbn; try done; [auto|].
    intros _ Hw. destruct (Hp Hw) as [Hpo|[? ?]]; [|auto].
    destruct (inside (poller s)) eqn:E; [|done]. rewrite (proj2 H5) in Hpo; [done|by right]. }
  destruct (stopper s) eqn:Est; try done.
  - simplify_eq. destruct Hi as [H1 H2 H3 H4 H5 H6 H7]. by split.
  - destruct (polling_ s) eqn:Hp; [done|]. simplify_eq. apply Hset; [by left|done].
  - simplify_eq. apply Hset; [by right|done].
  - simplify_eq. assert (inside (poller s) = false) as Hin
      by (apply (i_stopped _ Hi); congruence).
    assert (Inv (collect s)) as [H1 H2 H3 H4 H5 H6 H7].
    { apply Inv_collect; [done|]. by destruct (poller s). }
    split; cbn in *; try done. intros _. apply H6. congruence.
Qed.

Lemma Inv_io l s s' : Inv s → step l s = Some s' → Inv s'.
Proof.
  intros Hi Hs. destruct l as [a fd rcb wcb|a|a|a rcb wcb|a|a|ts task|task|evs now|]; cbn in Hs.
  - unfold newDescriptor in Hs. destruct (descriptors s !! a) eqn:Ha; [done|]. simplify_eq.
    destruct Hi as [H1 H2 H3 H4 H5 H6 H7]. split; cbn; try done; rewrite ?dom_insert_L.
    + set_solver.
    + intros b Hb. destruct (H3 b Hb) as [Hd Hr]. split; [set_solver|].
      intros [->%elem_of_singleton|?]%elem_of_union; [|done].
      by apply elem_of_dom in Hd as [? ?]; congruence.
    + set_solver.
  - destruct (in_use a s); [|done]. by eapply Inv_on_descriptor.
  - destruct (in_use a s); [|done]. by eapply Inv_on_descriptor.
  - destruct (in_use a s); [|done]. by eapply Inv_on_descriptor.
  - destruct (in_use a s) eqn:Hu; [|done]. simplify_eq.
    destruct Hi as [H1 H2 H3 H4 H5 H6 H7]. split; cbn; try done; set_solver.
  - destruct (in_use a s) eqn:Hu; [|done]. case_bool_decide as Hr; [|done]. injection Hs as <-.
    unfold in_use in Hu. apply andb_true_iff in Hu as [Hd%bool_decide_eq_true Hn].
    apply negb_true_iff, bool_decide_eq_false in Hn.
    destruct Hi as [H1 H2 H3 H4 H5 H6 H7]. split; cbn; try done; [by apply NoDup_cons|].
    intros b [->|Hb]%elem_of_cons; auto.
  - simplify_eq. by eapply Inv_same.
  - simplify_eq. by eapply Inv_same.
  - destruct (forallb _ evs) eqn:Hev; [|done]. eapply Inv_poll; [done| |done].
    apply Forall_forall. intros e He. rewrite forallb_forall in Hev.
    eapply bool_decide_eq_true, Hev. by apply list_elem_of_In.
  - by eapply Inv_stop_io.
Qed.

Lemma Inv_init_io : Inv init.
Proof. split; cbn; try done; try set_solver; first [apply NoDup_nil_2|naive_solver]. Qed.

Lemma Inv_reachable_io s : reachable step init s → Inv s.
Proof. apply reachable_invariant; [apply Inv_io|apply Inv_init_io]. Qed.

(** C13. However the threads interleave, no event is passed on to a descriptor that
    was freed: the next event's descriptor exists, so the step can be taken;
    every descriptor in the poller exists; one that was given up is freed once.
    When [stop()] has come past its wait, the polling thread is outside its
    loop for good: it frees nothing and adds no task to the workers. *)
Theorem io_no_use_after_free s :
  reachable step init s →
  (∀ a ev evs evs' now, poller s = Dispatching ((a, ev) :: evs) → is_Some (poll_step evs' now s)) ∧
  (∀ a, a ∈ registered s → a ∈ dom (descriptors s)) ∧
  (NoDup (deleted_desc_ s) ∧ ∀ a, a ∈ deleted_desc_ s → a ∈ dom (descriptors s)) ∧
  (stopper s ≠ NotStopping → stopper s ≠ WaitingForPoll → ∀ evs now s',
     poll_step evs now s = Some s' → added s' = added s ∧ descriptors s' = descriptors s).
Proof.
  intros Hi%Inv_reachable_io. split; [|split; [|split]].
  - intros a ev evs evs' now Hp. unfold poll_step. rewrite Hp.
    destruct (dispatch_total a ev s) as [s1 ->]; [|by eexists].
    apply (i_pending _ Hi (a, ev)). rewrite Hp. by left.
  - intros a. apply (i_registered _ Hi).
  - split; [apply Hi|]. intros a Ha. by apply (i_given_up _ Hi).
  - intros Hn Hw evs now s' Hs. pose proof (i_stopped _ Hi Hn Hw) as Hin.
    pose proof (i_stopping _ Hi Hn) as Hst. unfold poll_step in Hs.
    destruct (poller s) as [| |?|?| |]; try done; [by simplify_eq|]. rewrite Hst in Hs. by simplify_eq.
Qed.

(** ** Readiness *)

Inductive side := Reading | Writing.

#[global] Instance side_eq_dec : EqDecision side.
Proof. solve_decision. Defined.

(** A request to be called when the socket is ready, and an event from the poller. *)
Definition request (d : side) : Descriptor → option nat * Descriptor :=
  match d with Reading => readWhenReady | Writing => writeWhenReady end.
Definition event (d : side) : Descriptor → option nat * Descriptor :=
  match d with Reading => readIfWaiting | Writing => writeIfWaiting end.

Definition can (d : side) (x : Descriptor) : bool :=
  match d with Reading => can_read_ x | Writing => can_write_ x end.
Definition waiting (d : side) (x : Descriptor) : bool :=
  match d with Reading => waiting_read_ x | Writing => waiting_write_ x end.
Definition cb (d : side) (x : Descriptor) : option nat :=
  match d with Reading => read_cb_ x | Writing => write_cb_ x end.

Inductive use := Request (d : side) | Event (d : side).

Definition apply_use (u : use) : Descriptor → option nat * Descriptor :=
  match u with Request d => request d | Event d => event d end.

(** What an observer of one side counts: the requests, the callbacks handed to
    the pool, and whether an event came since the last callback. *)
Record seen := mkSeen { requests : nat; callbacks : nat; fresh : bool }.

Definition observe (d : side) (u : use) (out : option nat) (o : seen) : seen :=
  match u with
  | Request d' => if decide (d' = d)
                  then mkSeen (S (requests o)) (callbacks o + length (option_list out))
                         (match out with Some _ => false | None => fresh o end)
                  else o
  | Event d' => if decide (d' = d)
                then mkSeen (requests o) (callbacks o + length (option_list out))
                       (match out with Some _ => false | None => true end)
                else o
  end.

(** A run of uses; nobody asks for a callback while an earlier request waits. *)
Fixpoint run_uses (d : side) (us : list use) (x : Descriptor) (o : seen) : option (Descriptor * seen) :=
  match us with
  | [] => Some (x, o)
  | u :: us =>
    match u with
    | Request d' =>
      if waiting d' x then None
      else let '(out, x') := apply_use u x in run_uses d us x' (observe d u out o)
    | Event _ => let '(out, x') := apply_use u x in run_uses d us x' (observe d u out o)
    end
  end.

Definition tracks (d : side) (x : Descriptor) (o : seen) : Prop :=
  callbacks o + (if waiting d x then 1 else 0) = requests o ∧
  can d x = fresh o ∧ (waiting d x = true → fresh o = false).

Lemma use_tracks d u x o :
  (∃ c, cb d x = Some c) → (∀ d', u = Request d' → waiting d' x = false) → tracks d x o →
  tracks d (apply_use u x).2 (observe d u (apply_use u x).1 o) ∧
  cb d (apply_use u x).2 = cb d x.
Proof.
  intros [c Hc] Hu (H1 & H2 & H3).
  assert (∀ d', u = Request d' → waiting d' x = false) as Hw by done. clear Hu.
  destruct x as [fd rcb wcb cr cw wr ww], o as [r k f], d; cbn in *; subst;
    destruct u as [[]|[]]; try specialize (Hw _ eq_refl); cbn in *; subst;
    repeat match goal with b : bool |- _ => destruct b; cbn in * end;
    unfold tracks; cbn; repeat case_decide; try done; cbn; (split; [split_and!|]); lia || naive_solver.
Qed.

(** C35. No readiness is lost and none is used twice.  For a descriptor with both
    callbacks, in any sequence of requests and events of both sides in which
    nobody asks while a request waits: every request has got its callback,
    except the one that still waits, if any; and while one waits, no event has
    come since the last callback: an event that comes early is kept for the
    next request. *)
Theorem descriptor_no_lost_readiness d fd r w us x o :
  run_uses d us (new_descriptor fd (Some r) (Some w)) (mkSeen 0 0 false) = Some (x, o) →
  callbacks o + (if waiting d x then 1 else 0) = requests o ∧
  (waiting d x = true → fresh o = false) ∧ can d x = fresh o.
Proof.
  assert (∀ us y p, (∃ c, cb d y = Some c) → tracks d y p → run_uses d us y p = Some (x, o) →
            tracks d x o) as Hrun.
  { clear us. intros us. induction us as [|u us IH]; intros y p Hc Ht Hr; cbn in Hr; [by simplify_eq|].
    assert ((∀ d', u = Request d' → waiting d' y = false) ∧
            run_uses d us (apply_use u y).2 (observe d u (apply_use u y).1 p) = Some (x, o)) as [Hu Hr'].
    { destruct u as [d'|d'].
      - destruct (waiting d' y) eqn:E; [done|]. split; [by intros ? [= <-]|].
        by destruct (apply_use (Request d') y).
      - split; [done|]. by destruct (apply_use (Event d') y). }
    destruct (use_tracks d u y p Hc Hu Ht) as [Ht' Hc']. eapply IH; [|done|done]. by rewrite Hc'. }
  intros Hr. apply Hrun in Hr as (H1 & H2 & H3); [done|by destruct d; eauto|by destruct d].
Qed.

(** ** Timers *)

Definition by_time (x y : Z * nat) : Prop := (x.1 ≤ y.1)%Z.

Lemma timer_insert_perm ts task q : timer_insert ts task q ≡ₚ (ts, task) :: q.
Proof.
  induction q as [|[ts' task'] q IH]; cbn; [done|]. case_decide; [done|].
  rewrite IH. apply Permutation_swap.
Qed.

Lemma timer_insert_sorted ts task q :
  StronglySorted by_time q → StronglySorted by_time (timer_insert ts task q).
Proof.
  induction 1 as [|[ts' task'] q Hs IH Hq]; cbn; [by repeat constructor|].
  case_decide.
  - constructor; [by constructor|]. constructor; [unfold by_time; cbn; lia|].
    eapply Forall_impl; [done|]. unfold by_time. cbn. lia.
  - constructor; [done|]. rewrite timer_insert_perm. constructor; [unfold by_time; cbn; lia|done].
Qed.

Lemma run_timers_spec now q :
  StronglySorted by_time q →
  run_timers now q = ((filter (λ e, e.1 ≤ now)%Z q).*2, filter (λ e, ¬ e.1 ≤ now)%Z q).
Proof.
  induction 1 as [|[ts task] q Hs IH Hq]; [done|]. cbn [run_timers]. rewrite !filter_cons. cbn.
  case_decide as Hts.
  - rewrite decide_False, decide_True by lia.
    assert (Forall (λ e, ¬ e.1 ≤ now)%Z q) as Hlate.
    { eapply Forall_impl; [done|]. unfold by_time. cbn. lia. }
    by rewrite (filter_drop _ q), (filter_keep _ q).
  - rewrite decide_True, decide_False by lia. by rewrite IH.
Qed.

(** Timers: whatever was added by [addTimer], in any order, the queue is
    sorted by time, and a turn of the polling loop adds to the workers exactly
    the tasks that are due, earliest first, and keeps the others. *)
Lemma timers_fire_in_order adds now :
  let q := foldl (λ q e, timer_insert e.1 e.2 q) [] adds in
  q ≡ₚ adds ∧ StronglySorted by_time q ∧
  run_timers now q = ((filter (λ e, e.1 ≤ now)%Z q).*2, filter (λ e, ¬ e.1 ≤ now)%Z q).
Proof.
  intros q.
  assert (∀ q0, StronglySorted by_time q0 →
    let q := foldl (λ q e, timer_insert e.1 e.2 q) q0 adds in
    q ≡ₚ adds ++ q0 ∧ StronglySorted by_time q) as Hq.
  { clear q. induction adds as [|[ts task] adds IH]; intros q0 Hs; cbn; [done|].
    destruct (IH (timer_insert ts task q0)) as [Hp Hs']; [by apply timer_insert_sorted|].
    split; [|done]. rewrite Hp, timer_insert_perm. solve_Permutation. }
  destruct (Hq [] ltac:(constructor)) as [Hp Hs]. rewrite app_nil_r in Hp.
  split_and!; [done|done|by apply run_timers_spec].
Qed.

(** ** Instances of the properties *)

Definition ready_to_read : epoll_event := mkEvent false false true false.

(** A descriptor is closed and given up while an event of it is pending. *)
Definition late_close : list label :=
  [New 7 3 (Some 1) (Some 2); ReadWhenReady 7; Poll [] 0; Poll [(7, ready_to_read)] 0; Poll [] 0;
   Close 7; Delete 7].

Lemma io_no_use_after_free_witness : ∃ s,
  exec step late_close init = Some s ∧ is_Some (poll_step [] 0 s) ∧ deleted_desc_ s = [7].
Proof.
  destruct (exec step late_close init) as [s|] eqn:E; [|vm_compute in E; discriminate E].
  exists s. split; [reflexivity|].
  pose proof (io_no_use_after_free s (ex_intro _ late_close E)) as (H1 & _).
  vm_compute in E. injection E as <-. split; [|reflexivity].
  apply (H1 7 ready_to_read [] [] 0%Z). reflexivity.
Defined.

(** An event before the first request, another one while the second waits. *)
Lemma descriptor_no_lost_readiness_witness : ∃ x o,
  run_uses Reading [Event Reading; Request Reading; Request Reading; Event Writing; Event Reading]
    (new_descriptor 3 (Some 1) (Some 2)) (mkSeen 0 0 false) = Some (x, o) ∧
  callbacks o + (if waiting Reading x then 1 else 0) = 2.
Proof.
  eexists _, _. split; [reflexivity|].
  exact (proj1 (descriptor_no_lost_readiness Reading 3 1 2
    [Event Reading; Request Reading; Request Reading; Event Writing; Event Reading] _ _ eq_refl)).
Defined.
End IOManager.
