(* ===== verification/Connection.v ===== *)
(** * Connections ([connection.hpp], [connection.cpp])

    A connection reads a socket into [in_] and writes [out_] to it, on the
    threads of the worker pool, and deletes itself when its count of
    references falls to zero.  The first part has the operations as functions on
    the object; the second interleaves them: a step is what a thread does under
    one mutex, or one system call, whose result is an argument. *)

From S2P Require Import Prelude Buffer IOManager.

Module Connection.
Import IOManager Buffer.

Section model.
Context `{Uninit}.

(** ** The object *)

Record Connection := mkConn {
  in_ : Buffer;
  writing_ : bool;
  out_ : Buffer;
  client_fd_ : Z;
  closed_ : bool;
  io_desc_ : option Descriptor;
  in_error_ : bool;
  refs_ : Z
}.

(** The callbacks made of its methods. *)
Definition doRead_cb : nat := 0.
Definition doWrite_cb : nat := 1.
Definition doConnect_cb : nat := 2.

(** The passive (server side) and the active (client side) constructor. *)
Definition passive (client_fd : Z) : Connection :=
  mkConn new false new client_fd false
    (Some (new_descriptor client_fd (Some doRead_cb) (Some doWrite_cb))) false 0.

Definition active : Connection := mkConn new false new (-1) true None false 0.

Definition set_in b c := mkConn b (writing_ c) (out_ c) (client_fd_ c) (closed_ c) (io_desc_ c) (in_error_ c) (refs_ c).
Definition set_writing w c := mkConn (in_ c) w (out_ c) (client_fd_ c) (closed_ c) (io_desc_ c) (in_error_ c) (refs_ c).
Definition set_out b c := mkConn (in_ c) (writing_ c) b (client_fd_ c) (closed_ c) (io_desc_ c) (in_error_ c) (refs_ c).
Definition set_fd fd cl c := mkConn (in_ c) (writing_ c) (out_ c) fd cl (io_desc_ c) (in_error_ c) (refs_ c).
Definition set_desc d c := mkConn (in_ c) (writing_ c) (out_ c) (client_fd_ c) (closed_ c) d (in_error_ c) (refs_ c).
Definition set_error e c := mkConn (in_ c) (writing_ c) (out_ c) (client_fd_ c) (closed_ c) (io_desc_ c) e (refs_ c).
Definition set_refs n c := mkConn (in_ c) (writing_ c) (out_ c) (client_fd_ c) (closed_ c) (io_desc_ c) (in_error_ c) n.

Definition acquire c : Connection := set_refs (refs_ c + 1) c.

(** [release()]: whether the object is deleted. *)
Definition release c : bool * Connection :=
  let c := set_refs (refs_ c - 1) c in (bool_decide (refs_ c = 0%Z), c).

(** A method of [io_desc_]: the callback added to the pool.  [None] is the use
    of a null pointer. *)
Definition on_io_desc (f : Descriptor → option nat * Descriptor) c : option (option nat * Connection) :=
  d ← io_desc_ c;
  let '(cb, d) := f d in
  Some (cb, set_desc (Some d) c).

(** ** Connecting *)

(** What [connect] returns. *)
Inductive connect_result := Connected | InProgress | ConnectError.

(** [startConnect]: the object and what the thread goes on with. *)
Inductive connect_next := NoConnDone | CallDoConnect | WaitForConnect.

Definition startConnect (sock : Z) (res : connect_result) c : connect_next * Connection :=
  let c := set_fd sock (closed_ c) c in
  if decide (sock < 0)%Z then (NoConnDone, set_error true c)
  else
    let c := acquire c in
    match res with
    | Connected => (CallDoConnect, c)
    | ConnectError => (CallDoConnect, set_error true (set_fd (-1) (closed_ c) c))
    | InProgress => (WaitForConnect, set_desc (Some (new_descriptor sock None (Some doConnect_cb))) c)
    end.

(** [doConnect] up to [connDone()]; [error] is what [getsockopt] gives. *)
Definition doConnect (error : Z) c : option Connection :=
  if in_error_ c then Some c
  else if decide (error ≠ 0)%Z then Some (set_error true c)
  else
    let c := set_fd (client_fd_ c) false c in
    '(_, c) ← on_io_desc (λ d, (None, (setUpCalls (Some doRead_cb) (Some doWrite_cb) d).2)) c;
    Some c.

(** From the constructor to [connDone()].  A connection in progress waits for
    its descriptor; the event may come before the wait. *)
Definition connecting (sock : Z) (res : connect_result) (early : bool) (error : Z)
    : option (option nat * Connection) :=
  match startConnect sock res active with
  | (NoConnDone, c) => Some (None, c)
  | (CallDoConnect, c) => c ← doConnect error c; Some (Some doConnect_cb, c)
  | (WaitForConnect, c) =>
    '(cb, c) ← on_io_desc (if early then writeIfWaiting else writeWhenReady) c;
    '(cb', c) ← on_io_desc (if early then writeWhenReady else writeIfWaiting) c;
    c ← doConnect error c;
    Some (match cb with None => cb' | Some _ => cb end, c)
  end.

(** ** Interleaved use *)

(** What [read] and [write] return; no bytes read is the end of the stream. *)
Inductive read_result := Data (d : bytes) | ReadAgain | ReadIntr | ReadError.
Inductive write_result := Wrote (n : nat) | WriteAgain | WriteIntr | WriteError.

(** Where [startWrite] returns to. *)
Inductive ret := ToFree | ToReadDone | ToConnDone.

(** Where a thread is.  [Free] is outside the class; [InReadDone] and
    [InConnDone] are the sub-class's methods. *)
Inductive pc :=
  | Free | InReadDone | InConnDone
  | StartWrite_check (k : ret) | StartWrite_acquire (k : ret)
  | DoWrite_size (k : ret) | DoWrite_write (k : ret) (size : nat) (data : Position)
  | DoWrite_after (k : ret) (size : nat) (r : write_result) | DoWrite_release (k : ret)
  | StartRead_acquire (k : ret) | StartRead_ready (k : ret)
  | DoRead_read | DoRead_acquire | DoRead_ready | DoRead_release
  | DoConnect_release.

(** [held]: references the thread owns; [dirty]: it appended to [out_] and has
    not called [startWrite] since. *)
Record thread := mkThread { at_ : pc; held : nat; dirty : bool }.

(** Beside the object: whether it was deleted, whether it was used after that or
    a null pointer was; the callbacks in the pool's queue; and a history of
    the bytes appended to [out_], accepted by the socket, read from it, and
    consumed by the sub-class.  [failed]: a write ended with an error or 0. *)
Record state := mkState {
  conn : Connection;
  deleted : bool;
  fault : bool;
  tasks : list nat;
  threads : list thread;
  reading : bool;
  failed : bool;
  appended : bytes;
  sent : bytes;
  received : bytes;
  taken : bytes
}.

Definition set_conn c s := mkState c (deleted s) (fault s) (tasks s) (threads s) (reading s) (failed s) (appended s) (sent s) (received s) (taken s).
Definition set_deleted s := mkState (conn s) true (fault s) (tasks s) (threads s) (reading s) (failed s) (appended s) (sent s) (received s) (taken s).
Definition set_fault s := mkState (conn s) (deleted s) true (tasks s) (threads s) (reading s) (failed s) (appended s) (sent s) (received s) (taken s).
Definition set_tasks l s := mkState (conn s) (deleted s) (fault s) l (threads s) (reading s) (failed s) (appended s) (sent s) (received s) (taken s).
Definition set_threads l s := mkState (conn s) (deleted s) (fault s) (tasks s) l (reading s) (failed s) (appended s) (sent s) (received s) (taken s).
Definition set_reading s := mkState (conn s) (deleted s) (fault s) (tasks s) (threads s) true (failed s) (appended s) (sent s) (received s) (taken s).
Definition set_failed s := mkState (conn s) (deleted s) (fault s) (tasks s) (threads s) (reading s) true (appended s) (sent s) (received s) (taken s).
Definition add_out d d' s := mkState (conn s) (deleted s) (fault s) (tasks s) (threads s) (reading s) (failed s) (appended s ++ d) (sent s ++ d') (received s) (taken s).
Definition add_in d d' s := mkState (conn s) (deleted s) (fault s) (tasks s) (threads s) (reading s) (failed s) (appended s) (sent s) (received s ++ d) (taken s ++ d').

(** The operations above, on the object of a state. *)
Definition do_acquire s : state := set_conn (acquire (conn s)) s.
Definition do_release s : state :=
  let '(del, c) := release (conn s) in
  if del then set_deleted (set_conn c s) else set_conn c s.
Definition on_desc (f : Descriptor → option nat * Descriptor) s : state :=
  match on_io_desc f (conn s) with
  | Some (cb, c) => set_tasks (tasks s ++ option_list cb) (set_conn c s)
  | None => set_fault s
  end.

Definition go (t : nat) (p : pc) s : state :=
  match threads s !! t with
  | Some th => set_threads (<[t := mkThread p (held th) (dirty th)]> (threads s)) s
  | None => s
  end.
Definition hold (t n : nat) s : state :=
  match threads s !! t with
  | Some th => set_threads (<[t := mkThread (at_ th) n (dirty th)]> (threads s)) s
  | None => s
  end.
Definition mark (t : nat) (b : bool) s : state :=
  match threads s !! t with
  | Some th => set_threads (<[t := mkThread (at_ th) (held th) b]> (threads s)) s
  | None => s
  end.

Definition back (k : ret) : pc :=
  match k with ToFree => Free | ToReadDone => InReadDone | ToConnDone => InConnDone end.

(** The threads that may use the object: those that own a reference, and those
    that run the sub-class's methods. *)
Definition may_use (th : thread) : option ret :=
  match at_ th with
  | Free => if decide (0 < held th) then Some ToFree else None
  | InReadDone => Some ToReadDone
  | InConnDone => Some ToConnDone
  | _ => None
  end.

(** The bytes at a read pointer of [out_]. *)
Definition memory (b : Buffer) (p : Position) (size : nat) : option bytes :=
  c ← chunks_ b !! idx p; Some (take size (drop (off p) c)).

(** [startWrite()]: the check of [writing_], then [acquire()], then [doWrite()]. *)
Definition startWrite (t : nat) (k : ret) s : state :=
  if writing_ (conn s) then go t (back k) s
  else go t (StartWrite_acquire k) (set_conn (set_writing true (conn s)) s).

(** [doWrite()]: the size and the pointer, under the lock. *)
Definition doWrite_size (t : nat) (k : ret) s : state :=
  match readSize (out_ (conn s)) with
  | Some size => go t (DoWrite_write k size (rpos_ (out_ (conn s)))) s
  | None => set_fault s
  end.

(** [socketWrite]: the system call; it is repeated when interrupted. *)
Definition socketWrite (t : nat) (k : ret) (size : nat) (data : Position) (r : write_result) s : option state :=
  match r with
  | WriteIntr => Some s
  | Wrote n =>
    if decide (n ≤ size) then
      match memory (out_ (conn s)) data size with
      | Some d => Some (go t (DoWrite_after k size r) (add_out [] (take n d) s))
      | None => Some (set_fault s)
      end
    else None
  | _ => Some (go t (DoWrite_after k size r) s)
  end.

(** The rest of the loop's body, under the lock.  Inside it [acquire()] and
    [writeWhenReady()] take their own locks; nothing they guard is used by a
    step that could come in between in another way. *)
Definition doWrite_after (t : nat) (k : ret) (size : nat) (r : write_result) s : state :=
  match r with
  | WriteAgain => go t (DoWrite_release k) (on_desc writeWhenReady (do_acquire s))
  | WriteError | WriteIntr | Wrote 0 => go t (DoWrite_release k) (set_failed s)
  | Wrote n =>
    match consume n (out_ (conn s)) with
    | Some b =>
      let s := set_conn (set_out b (conn s)) s in
      if decide (size = n ∧ readSize b = Some 0)
      then go t (DoWrite_release k) (set_conn (set_writing false (conn s)) s)
      else go t (DoWrite_size k) s
    | None => set_fault s
    end
  end.

(** The top of the loop of [doRead()]: [reserve], [socketRead], [advance]. *)
Definition doRead_fill (d : bytes) (b : Buffer) : option Buffer :=
  '(_, b) ← reserve 1024 b;
  b ← poke d b;
  '(_, b) ← advance (length d) b;
  Some b.

(** What the call of [read] may fill. *)
Definition doRead_room (b : Buffer) : option nat :=
  '(_, b) ← reserve 1024 b; writeSize b.

Definition doRead (t : nat) (r : read_result) s : option state :=
  match r with
  | ReadIntr => Some s
  | ReadAgain => Some (go t DoRead_acquire s)
  | ReadError => Some (go t DoRead_release s)
  | Data d =>
    match doRead_room (in_ (conn s)), doRead_fill d (in_ (conn s)) with
    | Some room, Some b =>
      if decide (length d ≤ room) then
        Some (go t (match d with [] => DoRead_release | _ => InReadDone end)
                (add_in d [] (set_conn (set_in b (conn s)) s)))
      else None
    | Some room, None => if decide (length d ≤ room) then Some (set_fault s) else None
    | None, _ => Some (set_fault s)
    end
  end.

(** A worker takes a callback. *)
Definition take_callback (t : nat) s : option state :=
  match tasks s with
  | [] => None
  | cb :: l =>
    if decide (cb = doRead_cb) then Some (go t DoRead_read (set_tasks l s))
    else if decide (cb = doWrite_cb) then Some (go t (DoWrite_size ToFree) (set_tasks l s))
    else None
  end.

(** What a thread may do next: the classes' methods are used on a connection
    that is connected.  [Go] is the next step of a method; [Read] and
    [Write] are its system calls; the others are calls of the users, the
    sub-class and the worker pool. *)
Inductive action :=
  | Acquire | Release | Give (u : nat)
  | Append (os : list op) | StartWrite | StartRead
  | Consume (n : nat) | Return (more : bool)
  | Take | Go | Read (r : read_result) | Write (r : write_result).

Definition use (t : nat) (a : action) (k : ret) (th : thread) s : option state :=
  match a, k with
  | Acquire, _ => Some (hold t (S (held th)) (do_acquire s))
  | Release, _ => if decide (0 < held th) then Some (hold t (held th - 1) (do_release s)) else None
  | Give u, _ =>
    if decide (0 < held th ∧ u ≠ t) then
      th' ← threads s !! u;
      Some (hold t (held th - 1) (hold u (S (held th')) s))
    else None
  | Append os, _ =>
    match run_ops os (out_ (conn s)) with
    | Some b => Some (mark t true (add_out (queue_ops [] os) [] (set_conn (set_out b (conn s)) s)))
    | None => Some (set_fault s)
    end
  | StartWrite, _ => Some (mark t false (go t (StartWrite_check k) s))
  | StartRead, ToConnDone =>
    if reading s then None else Some (set_reading (go t (StartRead_acquire k) s))
  | Consume n, ToReadDone =>
    match consume n (in_ (conn s)) with
    | Some b => Some (add_in [] (take n (contents (in_ (conn s)))) (set_conn (set_in b (conn s)) s))
    | None => Some (set_fault s)
    end
  | Return more, ToReadDone => Some (go t (if more then DoRead_read else DoRead_release) s)
  | Return _, ToConnDone => Some (go t DoConnect_release s)
  | Take, ToFree => take_callback t s
  | _, _ => None
  end.

Definition proceed (t : nat) (a : action) (p : pc) s : option state :=
  match p, a with
  | Free, Take => take_callback t s
  | StartWrite_check k, Go => Some (startWrite t k s)
  | StartWrite_acquire k, Go => Some (go t (DoWrite_size k) (do_acquire s))
  | DoWrite_size k, Go => Some (doWrite_size t k s)
  | DoWrite_write k size data, Write r => socketWrite t k size data r s
  | DoWrite_after k size r, Go => Some (doWrite_after t k size r s)
  | DoWrite_release k, Go => Some (go t (back k) (do_release s))
  | StartRead_acquire k, Go => Some (go t (StartRead_ready k) (do_acquire s))
  | StartRead_ready k, Go => Some (go t (back k) (on_desc readWhenReady s))
  | DoRead_read, Read r => doRead t r s
  | DoRead_acquire, Go => Some (go t DoRead_ready (do_acquire s))
  | DoRead_ready, Go => Some (go t DoRead_release (on_desc readWhenReady s))
  | DoRead_release, Go | DoConnect_release, Go => Some (go t Free (do_release s))
  | _, _ => None
  end.

Inductive label := Act (t : nat) (a : action) | ReadEvent | WriteEvent.

(** Any action of a thread after the deletion is a fault; the descriptor is
    given up at the deletion, and gets no events then. *)
Definition step (l : label) s : option state :=
  match l with
  | Act t a =>
    th ← threads s !! t;
    s' ← match may_use th with
         | Some k => use t a k th s
         | None => proceed t a (at_ th) s
         end;
    Some (if deleted s then set_fault s' else s')
  | ReadEvent => if deleted s then None else Some (on_desc readIfWaiting s)
  | WriteEvent => if deleted s then None else Some (on_desc writeIfWaiting s)
  end.

(** The state after the constructor of a server connection, in its [startRead()],
    and when [connDone()] is called on a connected client; with [n] more threads. *)
Definition start (c : Connection) (p : pc) (reading : bool) (n : nat) : state :=
  mkState c false false [] (mkThread p 0 false :: replicate n (mkThread Free 0 false))
    reading false [] [] [] [].

Definition server (fd : Z) (n : nat) : state :=
  start (acquire (passive fd)) (StartRead_ready ToFree) true n.
Definition client (c : Connection) (n : nat) : state := start c InConnDone false n.

(** The calls on [out_]: writes, and copies of buffers that nobody consumed. *)
Definition is_write (o : op) : Prop := ok_op Output o ∧ ∀ n, o ≠ OConsume n.
Definition ok_label (l : label) : Prop :=
  match l with Act _ (Append os) => Forall is_write os | _ => True end.

(** ** Facts on the output buffer *)

(** Fill counts only grow, and the read position stays. *)
Definition grew (b b' : Buffer) : Prop :=
  rpos_ b' = rpos_ b ∧
  ∀ i s, sizes_ b !! i = Some s → ∃ s', sizes_ b' !! i = Some s' ∧ s ≤ s'.

#[local] Instance grew_preorder : PreOrder grew.
Proof.
  split.
  - intros b. split; [done|eauto].
  - intros b1 b2 b3 [E1 H1] [E2 H2]. split; [congruence|]. intros i s Hs.
    destruct (H1 i s Hs) as (s1 & Hs1 & ?). destruct (H2 i s1 Hs1) as (s2 & ? & ?).
    exists s2. split; [done|lia].
Qed.

Lemma grew_newChunk b : grew b (newChunk b).
Proof.
  split; [done|]. intros i s Hs. exists s. split; [|done]. cbn. by apply lookup_app_l_Some.
Qed.

Lemma grew_poke d b b' : poke d b = Some b' → grew b b'.
Proof.
  unfold poke. intros Hp. opt_case. opt_case. simplify_eq. split; [done|eauto].
Qed.

Lemma grew_bump n b b' : bump n b = Some b' → grew b b'.
Proof.
  unfold bump, addSize. cbn. intros Hp. destruct (sizes_ b !! idx (wpos_ b)) as [s0|] eqn:E; cbn in Hp; simplify_eq.
  split; [done|]. cbn. intros i s Hs. destruct (decide (i = idx (wpos_ b))) as [->|].
  - exists (s0 + n). rewrite list_lookup_insert_eq by (by eapply lookup_lt_Some). split; [done|]. simplify_eq. lia.
  - exists s. by rewrite list_lookup_insert_ne.
Qed.

Lemma grew_write_loop fuel : ∀ src b b', write_loop fuel src b = Some b' → grew b b'.
Proof.
  induction fuel as [|fuel IH]; intros src b b'; cbn [write_loop]; case_decide; intros Hw; simplify_eq; try done.
  destruct (writeSize b); cbn [mbind option_bind] in Hw; [|done].
  destruct (poke _ b) as [b1|] eqn:E1; cbn [mbind option_bind] in Hw; [|done].
  destruct (bump _ b1) as [b2|] eqn:E2; cbn [mbind option_bind] in Hw; [|done].
  apply IH in Hw. etrans; [by eapply grew_poke|]. etrans; [by eapply grew_bump|].
  case_decide; [|done]. etrans; [apply grew_newChunk|done].
Qed.

Lemma grew_copy_loop cs : ∀ first b b', copy_loop first cs b = Some b' → grew b b'.
Proof.
  induction cs as [|[c len] cs IH]; intros first b b'; cbn [copy_loop]; intros Hc; simplify_eq; [done|].
  destruct (copy_chunk first c len b) as [b1|] eqn:E; cbn [mbind option_bind] in Hc; [|done].
  etrans; [|by eapply IH]. unfold copy_chunk in E.
  destruct (writeSize b); cbn [mbind option_bind] in E; [|done].
  destruct (poke _ _) as [b2|] eqn:E2 in E; cbn [mbind option_bind] in E; [|done].
  transitivity b2; [|by eapply grew_bump]. case_decide; [|by eapply grew_poke].
  etrans; [apply grew_newChunk|by eapply grew_poke].
Qed.

Lemma grew_copyFrom b src b' o : copyFrom b src = Some (Done b' o) → grew b b'.
Proof.
  unfold copyFrom. intros Hc. destruct (isConsumed src); [done|].
  destruct (readSize src); cbn [mbind option_bind] in Hc; [|done].
  case_decide; [by simplify_eq|].
  destruct (copy_loop _ _ b) as [b1|] eqn:E; cbn [mbind option_bind] in Hc; [|done].
  apply grew_copy_loop in E. simplify_eq. case_decide; [|done].
  etrans; [done|apply grew_newChunk].
Qed.

Lemma grew_ops os : ∀ b b', Forall is_write os → run_ops os b = Some b' → grew b b'.
Proof.
  induction os as [|o os IH]; intros b b' Hos; cbn [run_ops]; intros Hr; [by simplify_eq|].
  apply Forall_cons in Hos as [[Ho Hn] Hos].
  destruct (apply_op b o) as [b1|] eqn:E; cbn [mbind option_bind] in Hr; [|done].
  etrans; [|by eapply IH]. destruct o as [p|p src|n d|n]; cbn [apply_op] in E.
  - by eapply grew_write_loop.
  - destruct (write p b) as [b2|] eqn:E2; cbn [mbind option_bind] in E; [|done].
    etrans; [by eapply grew_write_loop|].
    destruct (copyFrom b2 src) as [[|b3 o3]|] eqn:E3; cbn [mbind option_bind] in E; try done.
    simplify_eq. by eapply grew_copyFrom.
  - done.
  - by destruct (Hn n).
Qed.

(** A size read earlier, as far as it is still to be read. *)
Definition fits (size : nat) (b : Buffer) : Prop := ∃ sz, readSize b = Some sz ∧ size ≤ sz.

Lemma fits_grew size b b' : wf b → wf b' → grew b b' → fits size b → fits size b'.
Proof.
  intros Hw Hw' [E Hg] (sz & Hs & Hle). unfold fits, readSize in *.
  destruct (sizes_ b !! idx (rpos_ b)) as [s|] eqn:Hl; cbn in Hs; [|done].
  apply usub_is_Some in Hs as [? ->]. destruct (Hg _ _ Hl) as (s' & Hl' & ?).
  exists (s' - off (rpos_ b)). rewrite E, Hl'. cbn. rewrite usub_Some by lia. split; [done|lia].
Qed.

(** The memory behind the read pointer is what is to be read. *)
Lemma memory_contents b size :
  wf b → fits size b → memory b (rpos_ b) size = Some (take size (contents b)) ∧ size ≤ length (contents b).
Proof.
  intros Hw (sz & Hs & Hle). destruct (readArea_spec b Hw) as (area & rest & Ha & Hr & -> & _).
  rewrite Hr in Hs. simplify_eq. rewrite length_app. split; [|lia].
  unfold memory, readArea in *. rewrite Hr in Ha. cbn in Ha.
  destruct (chunks_ b !! idx (rpos_ b)) as [c|]; cbn in Ha |- *; [|done]. injection Ha as Ha.
  f_equal. rewrite take_app_le by lia. rewrite <- Ha, take_take. f_equal. lia.
Qed.

Lemma readSize_zero b : wf b → readSize b = Some 0 → contents b = [].
Proof.
  intros Hw Hs. destruct (readArea_spec b Hw) as (area & rest & _ & Hr & _ & He).
  apply He. rewrite Hr in Hs. simplify_eq. by apply nil_length_inv.
Qed.

(** Appending: the buffer stays in use, and its contents are a queue's. *)
Lemma queue_ops_app os : Forall is_write os → ∀ q, queue_ops q os = q ++ queue_ops [] os.
Proof.
  induction 1 as [|o os [Ho Hn] Hos IH]; intros q; cbn; [by rewrite app_nil_r|].
  unfold queue_ops in *. rewrite IH, (IH (queue_op [] o)).
  destruct o; cbn in *; rewrite <- ?app_assoc; try done. by destruct (Hn n).
Qed.

Lemma append_spec b os :
  in_use Output b → Forall is_write os → ∃ b',
    run_ops os b = Some b' ∧ in_use Output b' ∧ contents b' = contents b ++ queue_ops [] os ∧
    rpos_ b' = rpos_ b ∧ ∀ size, fits size b → fits size b'.
Proof.
  intros Hb Hos. destruct (run_ops_spec Output os b Hb) as (b' & Hr & Hb' & Hc).
  { eapply Forall_impl; [done|]. by intros o []. }
  pose proof (grew_ops os b b' Hos Hr) as Hg. exists b'.
  rewrite Hc, queue_ops_app by done. split_and!; try done; [apply Hb'..|apply Hg|].
  intros size. apply fits_grew; [apply Hb|apply Hb'|done].
Qed.

Lemma consume_output sd b n :
  in_use sd b → ∃ b', consume n b = Some b' ∧ in_use sd b' ∧ contents b' = drop n (contents b).
Proof.
  intros (Hw & Hi & Hr). destruct (consume_spec b n Hw) as (b' & ? & ? & ? & E1 & E2).
  exists b'. unfold in_use, roomy. rewrite E1, E2. done.
Qed.

(** Filling the input buffer by what the socket gives. *)
Lemma fill_input b :
  in_use Input b → ∃ room, doRead_room b = Some room ∧ 0 < room ∧ ∀ d, length d ≤ room → ∃ b',
    doRead_fill d b = Some b' ∧ in_use Input b' ∧ contents b' = contents b ++ d.
Proof.
  intros (Hw & Hi & _). pose proof BlockSize_val.
  destruct (reserve_spec b 1024 Hw) as (b1 & Hr & Hw1 & Hc1 & Hsz & Hi1 & _); [lia|].
  destruct (writeArea_wf _ Hw1) as (m & Hm & Hlm & Hs).
  exists (BlockSize - off (wpos_ b1)). unfold doRead_room, doRead_fill. rewrite Hr. cbn [mbind option_bind].
  rewrite writeSize_wf by done. split_and!; [done|lia|]. intros d Hd.
  destruct (poke_spec b1 d m Hw1 Hm) as (b2 & -> & Hw2 & Hc2 & Hm2 & Hwp2 & Hr2 & _); [lia|].
  cbn [mbind option_bind]. unfold in_use. destruct (decide (length d = 0)) as [Hz|Hz].
  - rewrite advance_refuse by auto. cbn. apply nil_length_inv in Hz as ->.
    rewrite app_nil_r. exists b2. rewrite Hc2, Hr2, Hi1, Hi, Hc1.
    split; [reflexivity|]. split; [|reflexivity]. split; [exact Hw2|]. by split.
  - destruct (advance_spec b2 (length d) _ Hw2 Hm2) as (b3 & -> & Hw3 & Hc3 & Hr3).
    { rewrite length_app. lia. }
    cbn. exists b3. rewrite Hc3, Hc2, Hr3, Hr2, Hi1, Hi, Hc1, take_app_length.
    split; [reflexivity|]. split; [|reflexivity]. split; [exact Hw3|]. by split.
Qed.

(** ** The invariant *)

(** The references that stand for a thread's activity, and for all of a thread. *)
Definition retw (k : ret) : nat := match k with ToFree => 0 | _ => 1 end.
Definition pc_refs (p : pc) : nat :=
  match p with
  | Free => 0
  | StartWrite_check k | StartWrite_acquire k | StartRead_acquire k => retw k
  | DoWrite_size k | DoWrite_write k _ _ | DoWrite_after k _ _ | DoWrite_release k
  | StartRead_ready k => S (retw k)
  | DoRead_ready => 2
  | _ => 1
  end.
Definition refs_of (th : thread) : nat := pc_refs (at_ th) + held th.

(** The thread owns the writing of [out_]; it owns the reading. *)
Definition writer (th : thread) : nat :=
  match at_ th with
  | StartWrite_acquire _ | DoWrite_size _ | DoWrite_write _ _ _ | DoWrite_after _ _ _ => 1
  | _ => 0
  end.
Definition in_read (k : ret) : nat := match k with ToReadDone => 1 | _ => 0 end.
Definition reader (th : thread) : nat :=
  match at_ th with
  | Free | InConnDone | DoRead_release | DoConnect_release => 0
  | StartWrite_check k | StartWrite_acquire k | DoWrite_size k | DoWrite_write k _ _
  | DoWrite_after k _ _ | DoWrite_release k => in_read k
  | _ => 1
  end.

(** Bytes that the socket took and that are still to be consumed. *)
Definition flight (th : thread) : nat :=
  match at_ th with DoWrite_after _ _ (Wrote n) => n | _ => 0 end.

Definition is_cb (cb x : nat) : nat := if Nat.eqb x cb then 1 else 0.

(** The calls of [doRead] and of [doWrite] to come. *)
Definition armed_read s : nat :=
  tally (is_cb doRead_cb) (tasks s) +
  match io_desc_ (conn s) with Some d => Nat.b2n (waiting_read_ d) | None => 0 end.
Definition armed_write s : nat :=
  tally (is_cb doWrite_cb) (tasks s) +
  match io_desc_ (conn s) with Some d => Nat.b2n (waiting_write_ d) | None => 0 end.

#[local] Arguments armed_read : simpl never.
#[local] Arguments armed_write : simpl never.

Definition thread_ok (o : Buffer) (th : thread) : Prop :=
  (at_ th = Free ∨ 0 < refs_of th) ∧
  match at_ th with
  | DoWrite_write _ size p => p = rpos_ o ∧ fits size o
  | DoWrite_after _ size r => fits size o ∧ ∀ n, r = Wrote n → n ≤ size
  | StartRead_acquire k | StartRead_ready k => k ≠ ToReadDone
  | _ => True
  end.

(** A thread that is about to call [startWrite], or in it before its check. *)
Definition will_write (th : thread) : Prop :=
  dirty th = true ∨ ∃ k, at_ th = StartWrite_check k.

Record Inv s : Prop := {
  i_fault : fault s = false;
  i_desc : ∃ d, io_desc_ (conn s) = Some d ∧ read_cb_ d = Some doRead_cb ∧ write_cb_ d = Some doWrite_cb;
  i_tasks : Forall (λ cb, cb = doRead_cb ∨ cb = doWrite_cb) (tasks s);
  i_refs : refs_ (conn s) = Z.of_nat (tally refs_of (threads s) + armed_read s + armed_write s);
  i_deleted : deleted s = true → refs_ (conn s) = 0%Z;
  i_writers : tally writer (threads s) + armed_write s =
              Nat.b2n (writing_ (conn s) && negb (failed s));
  i_failed : failed s = true → writing_ (conn s) = true;
  i_readers : tally reader (threads s) + armed_read s ≤ Nat.b2n (reading s);
  i_out : in_use Output (out_ (conn s));
  i_in : in_use Input (in_ (conn s));
  i_flight : tally flight (threads s) ≤ length (contents (out_ (conn s)));
  i_sent : appended s = sent s ++ drop (tally flight (threads s)) (contents (out_ (conn s)));
  i_received : received s = taken s ++ contents (in_ (conn s));
  i_threads : ∀ t th, threads s !! t = Some th → thread_ok (out_ (conn s)) th;
  i_dirty : writing_ (conn s) = false → contents (out_ (conn s)) ≠ [] →
            ∃ t th, threads s !! t = Some th ∧ will_write th
}.

Lemma thread_ok_moves o o' (ths : list thread) t th' :
  (∀ u y, ths !! u = Some y → thread_ok o y) → thread_ok o' th' →
  (∀ u y, ths !! u = Some y → u ≠ t → thread_ok o y → thread_ok o' y) →
  ∀ u y, <[t := th']> ths !! u = Some y → thread_ok o' y.
Proof.
  intros Hall Hth Hmono u y Hu. destruct (decide (u = t)) as [->|Hne].
  - assert (t < length ths) by (apply lookup_lt_Some in Hu; by rewrite length_insert in Hu).
    rewrite list_lookup_insert_eq in Hu by done. by simplify_eq.
  - rewrite list_lookup_insert_ne in Hu by done. by eapply Hmono, Hall.
Qed.

Lemma dirty_moves (ths : list thread) t th th' :
  ths !! t = Some th → (will_write th → will_write th') →
  (∃ u y, ths !! u = Some y ∧ will_write y) → ∃ u y, <[t := th']> ths !! u = Some y ∧ will_write y.
Proof.
  intros Hth Hw (u & y & Hu & Hy). destruct (decide (u = t)) as [->|Hne].
  - exists t, th'. rewrite list_lookup_insert_eq by (by eapply lookup_lt_Some). simplify_eq. auto.
  - exists u, y. by rewrite list_lookup_insert_ne.
Qed.

(** The four tallies, after thread [t] went from [th] to [th']. *)
Lemma tallies (ths : list thread) t th th' :
  ths !! t = Some th →
  tally refs_of (<[t := th']> ths) + refs_of th = tally refs_of ths + refs_of th' ∧
  tally writer (<[t := th']> ths) + writer th = tally writer ths + writer th' ∧
  tally reader (<[t := th']> ths) + reader th = tally reader ths + reader th' ∧
  tally flight (<[t := th']> ths) + flight th = tally flight ths + flight th'.
Proof. intros Hth. split_and!; by apply tally_insert. Qed.

(** A step of thread [t] that changes no buffer. *)
Lemma Inv_shift s s' t th th' :
  Inv s → threads s !! t = Some th → threads s' = <[t := th']> (threads s) →
  fault s' = false →
  (∃ d, io_desc_ (conn s') = Some d ∧ read_cb_ d = Some doRead_cb ∧ write_cb_ d = Some doWrite_cb) →
  Forall (λ cb, cb = doRead_cb ∨ cb = doWrite_cb) (tasks s') →
  (refs_ (conn s') - refs_ (conn s) =
   Z.of_nat (refs_of th' + armed_read s' + armed_write s') -
   Z.of_nat (refs_of th + armed_read s + armed_write s))%Z →
  (deleted s' = true → refs_ (conn s') = 0%Z) →
  writer th' + armed_write s' + Nat.b2n (writing_ (conn s) && negb (failed s)) =
  writer th + armed_write s + Nat.b2n (writing_ (conn s') && negb (failed s')) →
  (failed s' = true → writing_ (conn s') = true) →
  reader th' + armed_read s' + Nat.b2n (reading s) ≤ reader th + armed_read s + Nat.b2n (reading s') →
  (out_ (conn s'), in_ (conn s'), appended s', sent s', received s', taken s') =
  (out_ (conn s), in_ (conn s), appended s, sent s, received s, taken s) →
  flight th' = flight th → thread_ok (out_ (conn s)) th' →
  (writing_ (conn s') = false → contents (out_ (conn s)) ≠ [] →
     will_write th' ∨ writing_ (conn s) = false ∧ ¬ will_write th) →
  Inv s'.
Proof.
  intros [H1 H2 H3 H4 H5 H6 H7 H8 H9 H10 H11 H12 H13 H14 H15] Hth Eth Hf Hd Ht Hr Hdel Hw Hfail Hrd Hsame
    Hfl Hok Hdirty.
  destruct (tallies _ t th th' Hth) as (T1 & T2 & T3 & T4). rewrite <- Eth in T1, T2, T3, T4.
  injection Hsame as Eo Ei Ea Es Ere Eta. assert (tally flight (threads s') = tally flight (threads s)) as Et by lia.
  split; rewrite ?Eo, ?Ei, ?Ea, ?Es, ?Ere, ?Eta, ?Et; try done; try lia.
  - rewrite Eth. by apply (thread_ok_moves (out_ (conn s))).
  - intros Hwr Hc. rewrite Eth. destruct (Hdirty Hwr Hc) as [Hww|[Hwr0 Hnw]].
    + exists t, th'. rewrite list_lookup_insert_eq by (by eapply lookup_lt_Some). done.
    + apply (dirty_moves _ t th); [done|by intros|by apply H15].
Qed.

(** What a method of the descriptor leaves. *)
Definition served s s' (dr dw : nat) : Prop :=
  ∃ d l, s' = set_tasks (tasks s ++ l) (set_conn (set_desc (Some d) (conn s)) s) ∧
    read_cb_ d = Some doRead_cb ∧ write_cb_ d = Some doWrite_cb ∧
    Forall (λ cb, cb = doRead_cb ∨ cb = doWrite_cb) l ∧
    armed_read s' = armed_read s + dr ∧ armed_write s' = armed_write s + dw.

Ltac serve d Hd Hr Hw :=
  unfold served, on_desc, on_io_desc; rewrite Hd; cbn [mbind option_bind];
  destruct d as [fd rcb wcb cr cw wr ww]; cbn in *; subst rcb wcb;
  destruct cr, cw, wr, ww; cbn; try done;
  (do 2 eexists; split; [reflexivity|]; unfold armed_read, armed_write;
   cbn; rewrite ?Hd, ?tally_app; cbn in *; split; [reflexivity|]; split; [reflexivity|];
   split; [rewrite ?Forall_cons, ?Forall_nil; auto|]; split; lia).

Lemma on_desc_arm_read s d :
  io_desc_ (conn s) = Some d → read_cb_ d = Some doRead_cb → write_cb_ d = Some doWrite_cb →
  waiting_read_ d = false → served s (on_desc readWhenReady s) 1 0.
Proof. intros Hd Hr Hw Hf. serve d Hd Hr Hw. Qed.

Lemma on_desc_arm_write s d :
  io_desc_ (conn s) = Some d → read_cb_ d = Some doRead_cb → write_cb_ d = Some doWrite_cb →
  waiting_write_ d = false → served s (on_desc writeWhenReady s) 0 1.
Proof. intros Hd Hr Hw Hf. serve d Hd Hr Hw. Qed.

Lemma on_desc_event s d f :
  io_desc_ (conn s) = Some d → read_cb_ d = Some doRead_cb → write_cb_ d = Some doWrite_cb →
  f = readIfWaiting ∨ f = writeIfWaiting → served s (on_desc f s) 0 0.
Proof. intros Hd Hr Hw [-> | ->]; serve d Hd Hr Hw. Qed.

(** What the invariant gives to the thread that writes, that reads, that is
    active at all. *)
Lemma writer_alone s t th :
  Inv s → threads s !! t = Some th → writer th = 1 →
  armed_write s = 0 ∧ writing_ (conn s) = true ∧ failed s = false ∧
  ∀ u y, threads s !! u = Some y → u ≠ t → writer y = 0.
Proof.
  intros Hi Hth Hw. pose proof (i_writers s Hi) as Hn. pose proof (tally_le writer _ _ _ Hth) as Hle.
  assert (armed_write s = 0 ∧ tally writer (threads s) = 1 ∧ (writing_ (conn s) && negb (failed s)) = true)
    as (? & Ht & [-> Hf]%andb_true_iff).
  { destruct (writing_ (conn s) && negb (failed s)); cbn in Hn; [|lia]. split_and!; [lia..|done]. }
  split_and!; [done|done|by destruct (failed s)|]. intros u y Hu Hne.
  pose proof (tally_two writer _ _ _ _ _ Hth Hu (not_eq_sym Hne)). lia.
Qed.

Lemma reader_alone s t th :
  Inv s → threads s !! t = Some th → reader th = 1 → armed_read s = 0 ∧ reading s = true.
Proof.
  intros Hi Hth Hr. pose proof (i_readers s Hi) as Hn. pose proof (tally_le reader _ _ _ Hth) as Hle.
  destruct (reading s); cbn in Hn; [|lia]. split; [lia|done].
Qed.

Lemma active_refs s t th :
  Inv s → threads s !! t = Some th → 0 < refs_of th →
  (Z.of_nat (refs_of th) <= refs_ (conn s))%Z ∧ deleted s = false.
Proof.
  intros Hi Hth Hr. pose proof (i_refs s Hi) as Hn. pose proof (tally_le refs_of _ _ _ Hth) as Hle.
  split; [lia|]. destruct (deleted s) eqn:E; [|done]. apply (i_deleted s Hi) in E. lia.
Qed.

Lemma unarmed_desc s d : io_desc_ (conn s) = Some d →
  (armed_read s = 0 → waiting_read_ d = false) ∧ (armed_write s = 0 → waiting_write_ d = false).
Proof.
  intros Hd. unfold armed_read, armed_write. rewrite Hd.
  split; [destruct (waiting_read_ d)|destruct (waiting_write_ d)]; cbn; [lia|done|lia|done].
Qed.

Lemma go_eq t p s th :
  threads s !! t = Some th → go t p s = set_threads (<[t := mkThread p (held th) (dirty th)]> (threads s)) s.
Proof. intros Hth. unfold go. by rewrite Hth. Qed.
Lemma hold_eq t n s th :
  threads s !! t = Some th → hold t n s = set_threads (<[t := mkThread (at_ th) n (dirty th)]> (threads s)) s.
Proof. intros Hth. unfold hold. by rewrite Hth. Qed.
Lemma mark_eq t b s th :
  threads s !! t = Some th → mark t b s = set_threads (<[t := mkThread (at_ th) (held th) b]> (threads s)) s.
Proof. intros Hth. unfold mark. by rewrite Hth. Qed.

Lemma armed_same s s' :
  tasks s' = tasks s → io_desc_ (conn s') = io_desc_ (conn s) →
  armed_read s' = armed_read s ∧ armed_write s' = armed_write s.
Proof. intros E1 E2. unfold armed_read, armed_write. by rewrite E1, E2. Qed.

(** A step of thread [t] that changes neither a buffer nor the descriptor nor
    the queue. *)
Lemma Inv_local s s' t th th' :
  Inv s → threads s !! t = Some th → threads s' = <[t := th']> (threads s) →
  (fault s', tasks s', io_desc_ (conn s')) = (fault s, tasks s, io_desc_ (conn s)) →
  (out_ (conn s'), in_ (conn s'), appended s', sent s', received s', taken s') =
  (out_ (conn s), in_ (conn s), appended s, sent s, received s, taken s) →
  (refs_ (conn s') - refs_ (conn s) = Z.of_nat (refs_of th') - Z.of_nat (refs_of th))%Z →
  (deleted s' = true → refs_ (conn s') = 0%Z) →
  writer th' + Nat.b2n (writing_ (conn s) && negb (failed s)) =
  writer th + Nat.b2n (writing_ (conn s') && negb (failed s')) →
  (failed s' = true → writing_ (conn s') = true) →
  reader th' + Nat.b2n (reading s) ≤ reader th + Nat.b2n (reading s') →
  flight th' = flight th → thread_ok (out_ (conn s)) th' →
  (writing_ (conn s') = false → contents (out_ (conn s)) ≠ [] →
     will_write th' ∨ writing_ (conn s) = false ∧ ¬ will_write th) →
  Inv s'.
Proof.
  intros Hi Hth Eth Esame Hbuf Hr Hdel Hw Hf Hrd Hfl Hok Hd. injection Esame as Ef Et Ed.
  destruct (armed_same s s' Et Ed) as [Ear Eaw].
  apply (Inv_shift s s' t th th' Hi Hth Eth); rewrite ?Ef, ?Et, ?Ed, ?Ear, ?Eaw; try done; try lia; apply Hi.
Qed.

(** [local_step Hi Hth] applies [Inv_local]; it leaves the side conditions that
    it does not solve. *)
Ltac local_step Hi Hth :=
  eapply (Inv_local _ _ _ _ _ Hi Hth);
  [ reflexivity | reflexivity | reflexivity | unfold refs_of; cbn in *; try lia | cbn in *; try congruence
  | unfold writer; cbn in *; try lia | cbn in *; try exact (i_failed _ Hi); try done
  | unfold reader; cbn in *; try lia | reflexivity
  | split; [unfold refs_of; cbn in *; try first [left; reflexivity|right; lia] | cbn; try first [exact I|discriminate]]
  | unfold will_write; cbn; try congruence ].

(** The duty to call [startWrite] stays with the thread. *)
Ltac same_dirty dr :=
  intros; destruct dr;
  [left; left; reflexivity
  |right; split; [assumption|]; intros [?|[? ?]]; discriminate].

Lemma mark_go t b p s th :
  threads s !! t = Some th →
  mark t b (go t p s) = set_threads (<[t := mkThread p (held th) b]> (threads s)) s.
Proof.
  intros Hth. rewrite (go_eq _ _ _ th) by done. unfold mark. cbn.
  rewrite list_lookup_insert_eq by (by eapply lookup_lt_Some). cbn. by rewrite list_insert_insert_eq.
Qed.

(** The threads that use the object: it is not deleted. *)
Lemma may_use_live s t th k :
  Inv s → threads s !! t = Some th → may_use th = Some k →
  at_ th = back k ∧ 0 < refs_of th ∧ deleted s = false ∧ (Z.of_nat (refs_of th) <= refs_ (conn s))%Z.
Proof.
  intros Hi Hth Hm. assert (at_ th = back k ∧ 0 < refs_of th) as [Ha Hr].
  { unfold may_use, refs_of in *. destruct (at_ th) eqn:E; try done; [|by simplify_eq; cbn; split; [|lia]..].
    case_decide; [|done]. simplify_eq. cbn. split; [done|lia]. }
  by destruct (active_refs s t th Hi Hth Hr).
Qed.

Section steps.
Context (s : state) (t : nat) (h : nat) (dr : bool) (Hi : Inv s).

(** *** Calls of the users and of the sub-class *)

Lemma step_acquire k :
  threads s !! t = Some (mkThread (back k) h dr) → deleted s = false →
  Inv (hold t (S h) (do_acquire s)).
Proof.
  intros Hth Hdel. rewrite (hold_eq _ _ _ (mkThread (back k) h dr)) by done.
  local_step Hi Hth.
  - by destruct k.
  - destruct k; same_dirty dr.
Qed.

Lemma step_release k :
  threads s !! t = Some (mkThread (back k) (S h) dr) → deleted s = false →
  Inv (hold t h (do_release s)).
Proof.
  intros Hth Hdel. assert (threads (do_release s) = threads s) as Et.
  { unfold do_release. cbn. by case_bool_decide. }
  rewrite (hold_eq _ _ _ (mkThread (back k) (S h) dr)) by (by rewrite Et). rewrite Et.
  unfold do_release. cbn. case_bool_decide; local_step Hi Hth.
  all: try (destruct k; cbn; first [done|left; reflexivity|right; lia]).
  all: destruct k; same_dirty dr.
Qed.

Lemma step_start_write k :
  threads s !! t = Some (mkThread (back k) h dr) → 0 < refs_of (mkThread (back k) h dr) →
  deleted s = false → Inv (mark t false (go t (StartWrite_check k) s)).
Proof.
  intros Hth Hr Hdel. rewrite (mark_go _ _ _ _ (mkThread (back k) h dr)) by done.
  destruct k; local_step Hi Hth.
  all: intros; left; right; by eexists.
Qed.

Lemma step_start_read k :
  threads s !! t = Some (mkThread (back k) h dr) → k = ToConnDone → reading s = false →
  deleted s = false → Inv (set_reading (go t (StartRead_acquire k) s)).
Proof.
  intros Hth -> Hr Hdel. rewrite (go_eq _ _ _ (mkThread InConnDone h dr)) by done.
  local_step Hi Hth.
  - rewrite Hr. cbn. lia.
  - same_dirty dr.
Qed.

Lemma step_return k (more : bool) p :
  threads s !! t = Some (mkThread (back k) h dr) → deleted s = false →
  k = ToReadDone ∧ p = (if more then DoRead_read else DoRead_release) ∨ k = ToConnDone ∧ p = DoConnect_release →
  Inv (go t p s).
Proof.
  intros Hth Hdel Hp. rewrite (go_eq _ _ _ (mkThread (back k) h dr)) by done.
  destruct Hp as [[-> ->]|[-> ->]]; [destruct more|]; local_step Hi Hth.
  all: same_dirty dr.
Qed.

(** A reference passes to another thread. *)
Lemma step_give k u th' :
  threads s !! t = Some (mkThread (back k) (S h) dr) → threads s !! u = Some th' → u ≠ t →
  deleted s = false → Inv (hold t h (hold u (S (held th')) s)).
Proof.
  intros Hth Hu Hne Hdel. rewrite (hold_eq u _ _ th') by done.
  rewrite (hold_eq t _ _ (mkThread (back k) (S h) dr)) by (cbn; by rewrite list_lookup_insert_ne).
  cbn. set (y := mkThread (at_ th') (S (held th')) (dirty th')).
  set (x := mkThread (back k) h dr).
  change (Inv (set_threads (<[t := x]> (<[u := y]> (threads s))) s)).
  assert (<[u := y]> (threads s) !! t = Some (mkThread (back k) (S h) dr)) as Hth'
    by (by rewrite list_lookup_insert_ne).
  destruct (tallies _ u th' y Hu) as (A1 & A2 & A3 & A4).
  destruct (tallies _ t _ x Hth') as (B1 & B2 & B3 & B4).
  assert (writer y = writer th' ∧ reader y = reader th' ∧ flight y = flight th' ∧
          refs_of y = S (refs_of th')) as (C1 & C2 & C3 & C4).
  { split_and!; try done. unfold refs_of. cbn. lia. }
  assert (∀ o, thread_ok o th' → thread_ok o y) as Hy.
  { intros o [Hor Hm]. split; [right; lia|exact Hm]. }
  set (x0 := mkThread (back k) (S h) dr) in *.
  assert (writer x = writer x0 ∧ reader x = reader x0 ∧ flight x = flight x0 ∧ S (refs_of x) = refs_of x0)
    as (D1 & D2 & D3 & D4).
  { split_and!; try done. unfold refs_of. cbn. lia. }
  destruct Hi as [H1 H2 H3 H4 H5 H6 H7 H8 H9 H10 H11 H12 H13 H14 H15].
  assert (tally flight (<[t := x]> (<[u := y]> (threads s))) = tally flight (threads s)) as Ef by lia.
  destruct (armed_same s (set_threads (<[t := x]> (<[u := y]> (threads s))) s) eq_refl eq_refl) as [E1 E2].
  split; cbn; rewrite ?Ef, ?E1, ?E2; try done; try lia.
  - eapply (thread_ok_moves (out_ (conn s)) _ _ t).
    + intros v z Hv. eapply (thread_ok_moves (out_ (conn s)) _ _ u); [exact H14| |by intros|exact Hv].
      by apply Hy, (H14 u).
    + split; [|by destruct k]. subst x. unfold refs_of. cbn. destruct k; cbn; [by left|right; lia..].
    + by intros.
  - intros Hw Hc. eapply dirty_moves; [exact Hth'|by destruct k|].
    eapply dirty_moves; [exact Hu|done|by apply H15].
Qed.

(** *** [startWrite], [doWrite] and [doRead] *)

Lemma step_startWrite k :
  threads s !! t = Some (mkThread (StartWrite_check k) h dr) → deleted s = false →
  Inv (startWrite t k s).
Proof.
  intros Hth Hdel. pose proof (i_threads _ Hi _ _ Hth) as [Hok _].
  unfold refs_of in Hok. cbn in Hok. destruct Hok as [?|Hok]; [done|]. unfold startWrite.
  destruct (writing_ (conn s)) eqn:Hw; rewrite (go_eq _ _ _ (mkThread (StartWrite_check k) h dr)) by done;
    destruct k; local_step Hi Hth.
  all: try (rewrite Hw; cbn).
  all: try (destruct (failed s) eqn:Hf; [by rewrite (i_failed _ Hi Hf) in Hw|]; cbn; lia).
Qed.

Lemma step_startWrite_acquire k :
  threads s !! t = Some (mkThread (StartWrite_acquire k) h dr) → deleted s = false →
  Inv (go t (DoWrite_size k) (do_acquire s)).
Proof.
  intros Hth Hdel. rewrite (go_eq _ _ _ (mkThread (StartWrite_acquire k) h dr)) by done.
  destruct k; local_step Hi Hth; same_dirty dr.
Qed.

Lemma in_use_readSize : ∃ sz, readSize (out_ (conn s)) = Some sz.
Proof.
  destruct (readArea_spec (out_ (conn s))) as (area & _ & _ & Hr & _); [apply (i_out _ Hi)|]. by eexists.
Qed.

Lemma step_doWrite_size k :
  threads s !! t = Some (mkThread (DoWrite_size k) h dr) → deleted s = false →
  Inv (doWrite_size t k s).
Proof.
  intros Hth Hdel. destruct in_use_readSize as [sz Hsz]. unfold doWrite_size. rewrite Hsz.
  rewrite (go_eq _ _ _ (mkThread (DoWrite_size k) h dr)) by done.
  destruct k; local_step Hi Hth; try same_dirty dr; (split; [done|by exists sz]).
Qed.

(** The ends of the methods. *)
Lemma step_release_to p q :
  threads s !! t = Some (mkThread p h dr) → deleted s = false →
  (∃ k, p = DoWrite_release k ∧ q = back k) ∨ (p = DoRead_release ∨ p = DoConnect_release) ∧ q = Free →
  Inv (go t q (do_release s)).
Proof.
  intros Hth Hdel Hpq. unfold do_release. cbn.
  destruct (bool_decide _) eqn:Hb; rewrite (go_eq _ _ _ (mkThread p h dr)) by done;
    destruct Hpq as [(k & -> & ->)|[[-> | ->] ->]]; try destruct k; local_step Hi Hth; try same_dirty dr.
  all: intros _; by apply bool_decide_eq_true in Hb.
Qed.

Lemma step_acquire_to p q :
  threads s !! t = Some (mkThread p h dr) → deleted s = false →
  (∃ k, p = StartRead_acquire k ∧ q = StartRead_ready k) ∨ p = DoRead_acquire ∧ q = DoRead_ready →
  Inv (go t q (do_acquire s)).
Proof.
  intros Hth Hdel Hpq. rewrite (go_eq _ _ _ (mkThread p h dr)) by done.
  destruct (i_threads _ Hi _ _ Hth) as [_ Hk].
  destruct Hpq as [(k & -> & ->)|[-> ->]]; try destruct k; local_step Hi Hth; try same_dirty dr.
  all: done.
Qed.

(** The steps that use the descriptor. *)
Lemma step_served p q f dr' dw' :
  threads s !! t = Some (mkThread p h dr) → deleted s = false →
  served s (on_desc f s) dr' dw' →
  refs_of (mkThread q h dr) + dr' + dw' = refs_of (mkThread p h dr) →
  writer (mkThread q h dr) + dw' = writer (mkThread p h dr) →
  reader (mkThread q h dr) + dr' = reader (mkThread p h dr) →
  flight (mkThread p h dr) = 0 → flight (mkThread q h dr) = 0 →
  (∀ k, p ≠ StartWrite_check k) → (∀ k, q ≠ StartWrite_check k) →
  thread_ok (out_ (conn s)) (mkThread q h dr) →
  Inv (go t q (on_desc f s)).
Proof.
  intros Hth Hdel (d & l & E & Hr & Hw & Hl & Ear & Eaw) Erefs Ewr Erd Fp Fq Np Nq Hok.
  assert (threads (on_desc f s) !! t = Some (mkThread p h dr)) as Hth' by (by rewrite E).
  rewrite (go_eq _ _ _ _ Hth').
  destruct (armed_same (on_desc f s) (set_threads (<[t := mkThread q h dr]> (threads (on_desc f s)))
    (on_desc f s)) eq_refl eq_refl) as [A1 A2].
  eapply (Inv_shift s _ t _ (mkThread q h dr) Hi Hth); cbn [held dirty]; rewrite ?A1, ?A2, ?Ear, ?Eaw, ?Fp, ?Fq, ?E;
    cbn in Erefs, Ewr, Erd |- *; try done; try lia.
  - apply Hi.
  - by exists d.
  - apply Forall_app. split; [apply Hi|done].
  - apply Hi.
  - apply Hi.
  - intros Hwr _. destruct dr; [left; by left|right]. split; [done|].
    intros [?|[k Hk]]; [done|]. by destruct (Np k).
Qed.

Lemma step_ready_read p q :
  threads s !! t = Some (mkThread p h dr) → deleted s = false →
  (∃ k, p = StartRead_ready k ∧ q = back k) ∨ p = DoRead_ready ∧ q = DoRead_release →
  Inv (go t q (on_desc readWhenReady s)).
Proof.
  intros Hth Hdel Hpq. destruct (i_desc _ Hi) as (d & Hd & Hr & Hw).
  destruct (i_threads _ Hi _ _ Hth) as [_ Hk].
  assert (reader (mkThread p h dr) = 1) as Hrd by (by destruct Hpq as [(k & -> & ->)|[-> ->]]).
  destruct (reader_alone s t _ Hi Hth Hrd) as [Ha _].
  assert (served s (on_desc readWhenReady s) 1 0) as Hs.
  { eapply on_desc_arm_read; try done. by apply (unarmed_desc s d Hd). }
  destruct Hpq as [(k & -> & ->)|[-> ->]]; [destruct k; [|done|]|];
    (eapply step_served; [exact Hth|exact Hdel|exact Hs|..]; unfold refs_of; cbn; try done; try lia;
     unfold thread_ok, refs_of; cbn; split; first [by left|right; lia|done]).
Qed.

Lemma on_desc_acquire f : on_desc f (do_acquire s) = do_acquire (on_desc f s).
Proof.
  unfold on_desc, on_io_desc. cbn. destruct (io_desc_ (conn s)) as [d|]; cbn; [|done].
  by destruct (f d).
Qed.

Lemma step_again k size :
  threads s !! t = Some (mkThread (DoWrite_after k size WriteAgain) h dr) → deleted s = false →
  Inv (doWrite_after t k size WriteAgain s).
Proof.
  intros Hth Hdel. destruct (i_desc _ Hi) as (d & Hd & Hr & Hw). unfold doWrite_after.
  destruct (writer_alone s t _ Hi Hth eq_refl) as (Ha & Hwr & Hf & _).
  rewrite on_desc_acquire. edestruct (on_desc_arm_write s d Hd Hr Hw) as (d' & l & E & Hr' & Hw' & Hl & Ear & Eaw).
  { by apply (unarmed_desc s d Hd). }
  assert (threads (do_acquire (on_desc writeWhenReady s)) !! t
          = Some (mkThread (DoWrite_after k size WriteAgain) h dr)) as Hth' by (by rewrite E).
  rewrite (go_eq _ _ _ _ Hth'). cbn [held dirty].
  set (s' := set_threads _ _).
  destruct (armed_same (on_desc writeWhenReady s) s' eq_refl eq_refl) as [A1 A2].
  eapply (Inv_shift s s' t _ (mkThread (DoWrite_release k) h dr) Hi Hth);
    rewrite ?A1, ?A2, ?Ear, ?Eaw; subst s'; rewrite ?E; cbn; rewrite ?Hdel, ?Hwr; try done; try apply Hi; try lia.
  - by exists d'.
  - apply Forall_app. split; [apply Hi|done].
  - split; [right; unfold refs_of; cbn; lia|done].
Qed.

(** A write that ends with an error, or with nothing written. *)
Lemma step_write_fails k size r :
  threads s !! t = Some (mkThread (DoWrite_after k size r) h dr) → deleted s = false →
  r = WriteError ∨ r = WriteIntr ∨ r = Wrote 0 →
  Inv (doWrite_after t k size r s).
Proof.
  intros Hth Hdel Hr. destruct (writer_alone s t _ Hi Hth eq_refl) as (Ha & Hwr & Hf & _).
  assert (doWrite_after t k size r s = go t (DoWrite_release k) (set_failed s)) as ->
    by (by destruct Hr as [-> |[-> | ->]]).
  rewrite (go_eq _ _ _ (mkThread (DoWrite_after k size r) h dr)) by done. destruct Hr as [-> |[-> | ->]]; local_step Hi Hth.
  all: rewrite ?Hwr, ?Hf; cbn; try lia; by rewrite Hwr.
Qed.

Lemma step_take : threads s !! t = Some (mkThread Free h dr) → deleted s = false → ∀ s',
  take_callback t s = Some s' → Inv s'.
Proof.
  intros Hth Hdel s' Ht. unfold take_callback in Ht. destruct (tasks s) as [|cb l] eqn:El; [done|].
  assert (Forall (λ cb, cb = doRead_cb ∨ cb = doWrite_cb) l) as Hl.
  { pose proof (i_tasks _ Hi) as Hall. rewrite El in Hall. by apply Forall_cons in Hall as [_ ?]. }
  assert (∀ th', armed_read s = is_cb doRead_cb cb + armed_read (set_threads th' (set_tasks l s)) ∧
          armed_write s = is_cb doWrite_cb cb + armed_write (set_threads th' (set_tasks l s))) as Ha.
  { intros th'. unfold armed_read, armed_write. rewrite El. cbn [tally]. cbn. lia. }
  assert (∃ q, s' = go t q (set_tasks l s) ∧ (cb = doRead_cb ∧ q = DoRead_read ∨ cb = doWrite_cb ∧ q = DoWrite_size ToFree))
    as (q & -> & Hq).
  { destruct (decide (cb = doRead_cb)); [simplify_eq; eexists; eauto|].
    destruct (decide (cb = doWrite_cb)); [simplify_eq; eexists; eauto|done]. }
  rewrite (go_eq _ _ _ (mkThread Free h dr)) by done. cbn [held dirty threads set_tasks].
  destruct (Ha (<[t := mkThread q h dr]> (threads s))) as [Ha1 Ha2].
  eapply (Inv_shift s _ t _ (mkThread q h dr) Hi Hth); rewrite ?Ha1, ?Ha2; cbn; try done; try apply Hi.
  1-3: destruct Hq as [[-> ->]|[-> ->]]; unfold refs_of, writer, reader; cbn; lia.
  all: destruct Hq as [[-> ->]|[-> ->]]; try done.
  1-2: split; [right; unfold refs_of; cbn; lia|done].
  all: same_dirty dr.
Qed.

Lemma step_event f :
  f = readIfWaiting ∨ f = writeIfWaiting → Inv (on_desc f s).
Proof.
  intros Hf. destruct (i_desc _ Hi) as (d & Hd & Hr & Hw).
  destruct (on_desc_event s d f Hd Hr Hw Hf) as (d' & l & E & Hr' & Hw' & Hl & Ear & Eaw).
  split; rewrite ?Ear, ?Eaw; rewrite ?E; cbn; rewrite ?Nat.add_0_r; try apply Hi.
  - by exists d'.
  - apply Forall_app. split; [apply Hi|done].
Qed.

(** *** Steps that change a buffer *)

Lemma step_append k os :
  threads s !! t = Some (mkThread (back k) h dr) → deleted s = false → Forall is_write os → ∀ s',
  use t (Append os) k (mkThread (back k) h dr) s = Some s' → Inv s'.
Proof.
  intros Hth Hdel Hos s'. cbn [use]. destruct (append_spec _ os (i_out _ Hi) Hos)
    as (b & -> & Hb & Hc & Hr & Hfit). intros [= <-].
  rewrite (mark_eq _ _ _ (mkThread (back k) h dr)) by done. cbn [held at_].
  set (th' := mkThread (back k) h true).
  destruct (tallies _ t _ th' Hth) as (T1 & T2 & T3 & T4).
  assert (tally flight (<[t := th']> (threads s)) = tally flight (threads s)) as Ef by (destruct k; cbn in *; lia).
  destruct Hi as [H1 H2 H3 H4 H5 H6 H7 H8 H9 H10 H11 H12 H13 H14 H15].
  set (s' := set_threads _ _). destruct (armed_same s s' eq_refl eq_refl) as [E1 E2].
  split; rewrite ?E1, ?E2; subst s'; cbn; rewrite ?Ef, ?Hc, ?length_app; try done.
  - destruct k; cbn in *; lia.
  - destruct k; cbn in *; lia.
  - destruct k; cbn in *; lia.
  - lia.
  - rewrite H12, drop_app_l by done. by rewrite app_nil_r, app_assoc.
  - eapply (thread_ok_moves (out_ (conn s))); [exact H14| |].
    + destruct (H14 _ _ Hth) as [Hok _]. split; [exact Hok|by destruct k].
    + intros u y Hu _ [Hok Hm]. split; [done|]. destruct (at_ y); try done.
      * rewrite Hr. destruct Hm. auto.
      * destruct Hm. auto.
  - intros _ _. exists t, th'. rewrite list_lookup_insert_eq by (by eapply lookup_lt_Some). split; [done|by left].
Qed.

(** The input buffer and its history change, and the thread moves. *)
Lemma Inv_input th th' b d d' :
  threads s !! t = Some th → deleted s = false → in_use Input b →
  received s ++ d = (taken s ++ d') ++ contents b →
  refs_of th' = refs_of th → writer th' = writer th → reader th' ≤ reader th → flight th' = flight th →
  thread_ok (out_ (conn s)) th' → (will_write th → will_write th') →
  Inv (set_threads (<[t := th']> (threads s)) (add_in d d' (set_conn (set_in b (conn s)) s))).
Proof.
  intros Hth Hdel Hb Hd Er Ew Erd Ef Hok Hww.
  destruct (tallies _ t _ th' Hth) as (T1 & T2 & T3 & T4).
  assert (tally flight (<[t := th']> (threads s)) = tally flight (threads s)) as Efl by lia.
  destruct Hi as [H1 H2 H3 H4 H5 H6 H7 H8 H9 H10 H11 H12 H13 H14 H15].
  set (s' := set_threads _ _). destruct (armed_same s s' eq_refl eq_refl) as [E1 E2].
  split; rewrite ?E1, ?E2; subst s'; cbn; rewrite ?Efl, ?app_nil_r; try done; try lia.
  - by eapply (thread_ok_moves (out_ (conn s))).
  - intros Hw Hc. eapply dirty_moves; [exact Hth|done|by apply H15].
Qed.

Lemma step_consume n :
  threads s !! t = Some (mkThread InReadDone h dr) → deleted s = false → ∀ s',
  use t (Consume n) ToReadDone (mkThread InReadDone h dr) s = Some s' → Inv s'.
Proof.
  intros Hth Hdel s'. cbn [use]. destruct (consume_output _ _ n (i_in _ Hi)) as (b & -> & Hb & Hc).
  intros [= <-]. pose proof (Inv_input _ (mkThread InReadDone h dr) b []
    (take n (contents (in_ (conn s)))) Hth Hdel Hb) as Hs.
  rewrite list_insert_id in Hs by done. apply Hs; try done.
  - rewrite app_nil_r, Hc, <- app_assoc, take_drop. apply Hi.
  - apply (i_threads _ Hi _ _ Hth).
Qed.

Lemma step_doRead r s' :
  threads s !! t = Some (mkThread DoRead_read h dr) → deleted s = false →
  doRead t r s = Some s' → Inv s'.
Proof.
  intros Hth Hdel. destruct r as [d| | |]; cbn [doRead].
  - destruct (fill_input _ (i_in _ Hi)) as (room & -> & Hpos & Hfill).
    destruct (decide (length d ≤ room)) as [Hd|Hd].
    + destruct (Hfill d Hd) as (b & -> & Hb & Hc). intros [= <-].
      rewrite (go_eq _ _ _ (mkThread DoRead_read h dr)) by done. cbn [held dirty].
      apply (Inv_input (mkThread DoRead_read h dr)); try done.
      * rewrite app_nil_r, Hc, (i_received _ Hi). by rewrite app_assoc.
      * by destruct d.
      * by destruct d.
      * destruct d; cbn; lia.
      * by destruct d.
      * split; [right; unfold refs_of; destruct d; cbn; lia|by destruct d].
      * intros [?|[? ?]]; [by left|done].
    + by destruct (doRead_fill d _).
  - intros [= <-]. rewrite (go_eq _ _ _ (mkThread DoRead_read h dr)) by done. local_step Hi Hth; same_dirty dr.
  - by intros [= <-].
  - intros [= <-]. rewrite (go_eq _ _ _ (mkThread DoRead_read h dr)) by done. local_step Hi Hth; same_dirty dr.
Qed.

(** The writer alone has bytes in flight. *)
Lemma flight_single th th' :
  threads s !! t = Some th → writer th = 1 →
  tally flight (<[t := th']> (threads s)) = flight th' ∧ tally flight (threads s) = flight th.
Proof.
  intros Hth Hw. destruct (writer_alone s t th Hi Hth Hw) as (_ & _ & _ & Ho).
  assert (tally flight (threads s) = flight th) as E.
  { apply (tally_single flight _ t); [done|]. intros u y Hu Hne. specialize (Ho u y Hu Hne).
    unfold writer, flight in *. by destruct (at_ y). }
  split; [|done]. destruct (tallies _ t th th' Hth) as (_ & _ & _ & T). lia.
Qed.

(** A step of the writer: bytes leave for the socket, or out of the buffer. *)
Lemma Inv_output th th' b w d :
  threads s !! t = Some th → deleted s = false → writer th = 1 → in_use Output b →
  contents (out_ (conn s)) = take (flight th) (contents (out_ (conn s))) ++ d ++ drop (flight th') (contents b) →
  flight th' ≤ length (contents b) →
  refs_of th' = refs_of th → writer th' = Nat.b2n w → reader th' = reader th →
  (w = false → contents b = []) → thread_ok b th' →
  Inv (set_threads (<[t := th']> (threads s)) (add_out [] d (set_conn (set_writing w (set_out b (conn s))) s))).
Proof.
  intros Hth Hdel Hw Hb Hc Hfl Er Ew Erd Hend Hok.
  destruct (flight_single th th' Hth Hw) as [F1 F2].
  destruct (writer_alone s t th Hi Hth Hw) as (Haw & Hwr & Hf & Ho).
  destruct (tallies _ t _ th' Hth) as (T1 & T2 & T3 & T4).
  destruct Hi as [H1 H2 H3 H4 H5 H6 H7 H8 H9 H10 H11 H12 H13 H14 H15].
  set (s' := set_threads _ _). destruct (armed_same s s' eq_refl eq_refl) as [E1 E2].
  split; rewrite ?E1, ?E2; subst s'; cbn; rewrite ?F1, ?app_nil_r; try done; try lia.
  - rewrite Hwr, Hf in H6. rewrite Hf, andb_true_r. cbn in H6. lia.
  - by rewrite Hf.
  - rewrite H12, F2, <- app_assoc. f_equal. rewrite Hc at 1.
    rewrite drop_app_ge, length_take by (rewrite length_take; lia).
    replace (flight th - flight th `min` length (contents (out_ (conn s)))) with 0 by lia. done.
  - eapply (thread_ok_moves (out_ (conn s))); [exact H14|done|]. intros u y Hu Hne [Ha Hm].
    specialize (Ho u y Hu Hne). unfold writer in Ho. split; [done|]. by destruct (at_ y).
  - intros -> Hne. by destruct (Hne (Hend eq_refl)).
Qed.

Lemma conn_eta : set_conn (set_writing (writing_ (conn s)) (set_out (out_ (conn s)) (conn s))) s = s.
Proof. destruct s as [[] ? ? ? ? ? ? ? ? ? ?]. done. Qed.

Lemma step_socketWrite k size data r s' :
  threads s !! t = Some (mkThread (DoWrite_write k size data) h dr) → deleted s = false →
  socketWrite t k size data r s = Some s' → Inv s'.
Proof.
  intros Hth Hdel Hs. destruct (i_threads _ Hi _ _ Hth) as [_ [-> Hfit]].
  assert (wf (out_ (conn s))) as Hwf by apply (i_out _ Hi).
  destruct (memory_contents _ size Hwf Hfit) as [Hmem Hlen].
  destruct r as [n| | |]; cbn [socketWrite] in Hs; [|injection Hs as <-|by injection Hs as <-|injection Hs as <-].
  - case_decide as Hn; [|done]. rewrite Hmem in Hs. injection Hs as <-.
    rewrite (go_eq _ _ _ (mkThread (DoWrite_write k size (rpos_ (out_ (conn s)))) h dr)) by done.
    cbn [held dirty threads add_out].
    destruct (writer_alone s t _ Hi Hth eq_refl) as (_ & Hwr & _ & _).
    assert (∀ d, add_out [] d s = add_out [] d (set_conn (set_writing true (set_out (out_ (conn s)) (conn s))) s))
      as Ea by (intros d; by rewrite <- Hwr, conn_eta).
    rewrite Ea. eapply Inv_output; try done; try apply Hi; cbn.
    + rewrite take_take, Nat.min_l by lia. by rewrite take_drop.
    + lia.
    + split; [right; unfold refs_of; cbn; lia|]. cbn. split; [done|]. by intros m [= <-].
  - rewrite (go_eq _ _ _ (mkThread (DoWrite_write k size (rpos_ (out_ (conn s)))) h dr)) by done.
    local_step Hi Hth; [done|same_dirty dr].
  - rewrite (go_eq _ _ _ (mkThread (DoWrite_write k size (rpos_ (out_ (conn s)))) h dr)) by done.
    local_step Hi Hth; [done|same_dirty dr].
Qed.

Lemma step_doWrite_after k size r :
  threads s !! t = Some (mkThread (DoWrite_after k size r) h dr) → deleted s = false →
  Inv (doWrite_after t k size r s).
Proof.
  intros Hth Hdel. destruct r as [[|n]| | |]; try (eapply step_write_fails; by eauto); [|by eapply step_again].
  unfold doWrite_after. destruct (consume_output _ _ (S n) (i_out _ Hi)) as (b & -> & Hb & Hc).
  pose proof (tally_le flight _ _ _ Hth) as Hle. cbn in Hle. pose proof (i_flight _ Hi) as Hfl.
  assert (∀ w q, writer (mkThread q h dr) = Nat.b2n w → (w = false → contents b = []) →
    refs_of (mkThread q h dr) = refs_of (mkThread (DoWrite_after k size (Wrote (S n))) h dr) →
    reader (mkThread q h dr) = in_read k → flight (mkThread q h dr) = 0 →
    match q with DoWrite_size _ | DoWrite_release _ => True | _ => False end →
    Inv (set_threads (<[t := mkThread q h dr]> (threads s))
          (set_conn (set_writing w (set_out b (conn s))) s))) as Hgo.
  { intros w q Hw Hend Hr Hrd Hf Hq.
    assert (∀ x y, set_threads x (set_conn y s) = set_threads x (add_out [] [] (set_conn y s))) as Ea.
    { intros x y. unfold add_out, set_threads. cbn. by rewrite !app_nil_r. }
    rewrite Ea. eapply Inv_output; try done.
    - rewrite Hf, Hc, drop_0, app_nil_l. symmetry. apply (take_drop (S n)).
    - rewrite Hf. lia.
    - split; [right|by destruct q]. rewrite Hr. unfold refs_of. cbn. lia. }
  case_decide as Hz.
  - rewrite (go_eq _ _ _ (mkThread (DoWrite_after k size (Wrote (S n))) h dr)) by done.
    apply Hgo; try done. intros _. apply readSize_zero; [apply Hb|apply Hz].
  - rewrite (go_eq _ _ _ (mkThread (DoWrite_after k size (Wrote (S n))) h dr)) by done. cbn [held dirty threads set_conn].
    destruct (writer_alone s t _ Hi Hth eq_refl) as (_ & Hwr & _ & _).
    replace (set_conn (set_out b (conn s)) s) with (set_conn (set_writing true (set_out b (conn s))) s)
      by (rewrite <- Hwr; by destruct s as [[] ? ? ? ? ? ? ? ? ? ?]).
    apply Hgo; done.
Qed.
End steps.

(** *** All steps *)

Lemma Inv_use s t th k a s' :
  Inv s → threads s !! t = Some th → may_use th = Some k → ok_label (Act t a) →
  use t a k th s = Some s' → Inv s'.
Proof.
  intros Hi Hth Hm Hok Hs. destruct (may_use_live s t th k Hi Hth Hm) as (Ha & Hr & Hdel & _).
  destruct th as [p h dr]. cbn [at_] in Ha. subst p.
  destruct a as [| |u|os| | |n|more| | |r|r]; try (cbn in Hs; by destruct k).
  - cbn [use held] in Hs. simplify_eq. by eapply step_acquire.
  - cbn [use held] in Hs. case_decide; [|done]. destruct h as [|h]; [lia|]. simplify_eq.
    rewrite Nat.sub_1_r. cbn [Nat.pred]. by eapply step_release.
  - cbn [use held] in Hs. case_decide as Hh; [|done]. destruct Hh as [Hh Hne]. destruct h as [|h]; [lia|].
    destruct (threads s !! u) as [th'|] eqn:Hu; cbn [mbind option_bind] in Hs; [|done]. simplify_eq.
    rewrite Nat.sub_1_r. cbn [Nat.pred]. by eapply step_give.
  - by eapply step_append.
  - cbn [use] in Hs. simplify_eq. by eapply step_start_write.
  - cbn [use] in Hs. destruct k; try done. destruct (reading s) eqn:E; [done|]. simplify_eq. by eapply step_start_read.
  - destruct k; try done. by eapply step_consume.
  - cbn [use] in Hs. destruct k; try done; simplify_eq; eapply (step_return s t h dr Hi _ more); eauto.
  - cbn [use] in Hs. destruct k; try done. by eapply step_take.
Qed.

Lemma Inv_proceed s t p h dr a s' :
  Inv s → threads s !! t = Some (mkThread p h dr) → deleted s = false →
  proceed t a p s = Some s' → Inv s'.
Proof.
  intros Hi Hth Hdel Hs. destruct p, a; try done; cbn [proceed] in Hs;
    try (injection Hs as <-).
  - by eapply step_take.
  - by eapply step_startWrite.
  - by eapply step_startWrite_acquire.
  - by eapply step_doWrite_size.
  - by eapply step_socketWrite.
  - by eapply step_doWrite_after.
  - eapply step_release_to; eauto.
  - eapply step_acquire_to; eauto.
  - eapply step_ready_read; eauto.
  - by eapply step_doRead.
  - eapply step_acquire_to; eauto.
  - eapply step_ready_read; eauto.
  - eapply step_release_to; eauto.
  - eapply step_release_to; eauto 10.
Qed.

(** After the deletion nothing is left that could act. *)
Lemma deleted_idle s t th :
  Inv s → deleted s = true → threads s !! t = Some th → at_ th = Free ∧ held th = 0 ∧ tasks s = [].
Proof.
  intros Hi Hdel Hth. pose proof (i_deleted _ Hi Hdel) as H0. rewrite (i_refs _ Hi) in H0.
  pose proof (tally_le refs_of _ _ _ Hth) as Hle.
  assert (refs_of th = 0) as Hr by lia. destruct (i_threads _ Hi _ _ Hth) as [[Ha|?] _]; [|lia].
  unfold refs_of in Hr. split_and!; [done|lia|]. destruct (tasks s) as [|cb l] eqn:E; [done|].
  pose proof (i_tasks _ Hi) as Hall. rewrite E in Hall. apply Forall_cons in Hall as [Hcb _].
  assert (0 < armed_read s + armed_write s); [|lia]. unfold armed_read, armed_write. rewrite E.
  destruct Hcb as [-> | ->]; cbn; lia.
Qed.

Lemma Inv_step_conn l s s' : ok_label l → Inv s → step l s = Some s' → Inv s'.
Proof.
  intros Hok Hi Hs. destruct l as [t a| |]; cbn [step] in Hs.
  - destruct (threads s !! t) as [th|] eqn:Hth; cbn [mbind option_bind] in Hs; [|done].
    destruct (deleted s) eqn:Hdel.
    + destruct (deleted_idle s t th Hi Hdel Hth) as (Ha & Hh & Ht). unfold may_use in Hs. rewrite Ha, Hh in Hs.
      cbn in Hs. destruct a; cbn in Hs; try done. unfold take_callback in Hs. by rewrite Ht in Hs.
    + destruct (may_use th) as [k|] eqn:Hm.
      * destruct (use t a k th s) as [s1|] eqn:E; cbn in Hs; [|done]. simplify_eq. by eapply Inv_use.
      * destruct (proceed t a (at_ th) s) as [s1|] eqn:E; cbn in Hs; [|done]. simplify_eq.
        destruct th as [p h dr]. by eapply Inv_proceed.
  - destruct (deleted s); [done|]. simplify_eq. apply step_event; auto.
  - destruct (deleted s); [done|]. simplify_eq. apply step_event; auto.
Qed.

(** ** Runs *)

(** A server connection, or a client whose connection went through. *)
Inductive initial : state → Prop :=
  | initial_server fd n : initial (server fd n)
  | initial_client sock early n c :
    (0 <= sock)%Z → connecting sock InProgress early 0 = Some (Some doConnect_cb, c) →
    initial (client c n).

Definition reaches s0 s : Prop := ∃ sched, Forall ok_label sched ∧ exec step sched s0 = Some s.

(** The count falls to zero only by the [release] that deletes. *)
Definition alive s : Prop := refs_ (conn s) = 0%Z → deleted s = true.

Lemma Inv_start c p n :
  refs_ c = 1%Z → writing_ c = false → in_ c = new → out_ c = new →
  (∃ d, io_desc_ c = Some d ∧ read_cb_ d = Some doRead_cb ∧ write_cb_ d = Some doWrite_cb ∧
        waiting_read_ d = false ∧ waiting_write_ d = false) →
  p = StartRead_ready ToFree ∨ p = InConnDone →
  Inv (start c p (match p with InConnDone => false | _ => true end) n).
Proof.
  intros Hr Hw Hi Ho (d & Hd & Hrc & Hwc & Hwr & Hww) Hp.
  destruct new_wf as (_ & _ & Hc).
  assert (∀ f, f (mkThread Free 0 false) = 0 → tally f (replicate n (mkThread Free 0 false)) = 0) as Ht.
  { intros f Hf. induction n as [|n IH]; cbn; [done|]. by rewrite Hf, IH. }
  split; unfold armed_read, armed_write; cbn; rewrite ?Hd, ?Hwr, ?Hww, ?Ho, ?Hi, ?Hr, ?Hw, ?Hc, ?Ht by done;
    try done; try apply new_in_use.
  - by exists d.
  - by destruct Hp as [-> | ->].
  - by destruct Hp as [-> | ->].
  - by destruct Hp as [-> | ->].
  - destruct Hp as [-> | ->]; cbn; lia.
  - by destruct Hp as [-> | ->].
  - intros [|t] th Hth; cbn in Hth.
    + simplify_eq. destruct Hp as [-> | ->]; (split; [right; unfold refs_of; cbn; lia|done]).
    + apply lookup_replicate in Hth as [-> _]. split; [by left|done].
Qed.

Lemma connecting_ready sock early : (0 <= sock)%Z → ∃ c,
  connecting sock InProgress early 0 = Some (Some doConnect_cb, c) ∧
  refs_ c = 1%Z ∧ writing_ c = false ∧ in_ c = new ∧ out_ c = new ∧ in_error_ c = false ∧ closed_ c = false ∧
  (∃ d, io_desc_ c = Some d ∧ read_cb_ d = Some doRead_cb ∧ write_cb_ d = Some doWrite_cb ∧
        waiting_read_ d = false ∧ waiting_write_ d = false).
Proof.
  intros Hs. unfold connecting, startConnect. rewrite decide_False by lia.
  destruct early; cbn; (eexists; split; [reflexivity|]); split_and!; try reflexivity; eexists; repeat split.
Qed.

Lemma Inv_initial_conn s : initial s → Inv s ∧ alive s.
Proof.
  intros [fd n|sock early n c Hs Hc].
  - split; [|done]. apply (Inv_start (acquire (passive fd)) (StartRead_ready ToFree) n); try done; [|by left].
    eexists. split; [reflexivity|]. done.
  - destruct (connecting_ready sock early Hs) as (c' & Hc' & Hr & Hw & Hi & Ho & _ & _ & Hd).
    rewrite Hc in Hc'. injection Hc' as <-. split; [|by intros ?; cbn in *; lia].
    apply (Inv_start c InConnDone n); try done. by right.
Qed.

(** What a step may do to the count: nothing, one more, or a [release]. *)
Definition counted s s' : Prop :=
  (refs_ (conn s') = refs_ (conn s) ∧ deleted s' = deleted s) ∨
  refs_ (conn s') = (refs_ (conn s) + 1)%Z ∨ alive s'.

Lemma counted_moves t p n b s s' :
  counted s s' → counted s (go t p s') ∧ counted s (hold t n s') ∧ counted s (mark t b s').
Proof. unfold go, hold, mark. by destruct (threads s' !! t). Qed.

Lemma counted_release s s' : counted s (do_release s').
Proof.
  right; right. unfold do_release, alive. cbn. case_bool_decide; cbn; [done|]. intros E. by rewrite E in *.
Qed.

Lemma counted_desc f s s' : counted s s' → counted s (on_desc f s').
Proof.
  unfold on_desc, on_io_desc. destruct (io_desc_ (conn s')) as [d|]; cbn; [|done]. by destruct (f d).
Qed.

Lemma counted_refl s s' :
  refs_ (conn s') = refs_ (conn s) → deleted s' = deleted s → counted s s'.
Proof. by left. Qed.

Lemma counted_acquire s s' : refs_ (conn s') = refs_ (conn s) → counted s (do_acquire s').
Proof. intros E. right; left. cbn. by rewrite E. Qed.

Ltac counting :=
  repeat match goal with
    | |- counted _ (do_release _) => apply counted_release
    | |- counted _ (do_acquire _) => apply counted_acquire; reflexivity
    | |- counted _ (on_desc _ _) => apply counted_desc
    | |- counted _ (go ?t ?p _) => apply (counted_moves t p 0 true)
    | |- counted _ (hold ?t ?n _) => apply (counted_moves t Free n true)
    | |- counted _ (mark ?t ?b _) => apply (counted_moves t Free 0 b)
    | |- counted _ _ => apply counted_refl; reflexivity
    end.

Lemma counted_use t a k th s s' : use t a k th s = Some s' → counted s s'.
Proof.
  destruct a as [| |u|os| | |n|more| | |r|r]; cbn [use].
  - intros [= <-]. counting.
  - case_decide; [|done]. intros [= <-]. counting.
  - case_decide; [|done]. destruct (threads s !! u); cbn [mbind option_bind]; [|done].
    intros [= <-]. counting.
  - destruct (run_ops _ _); intros [= <-]; counting.
  - intros [= <-]. counting.
  - destruct k; try done. destruct (reading s); [done|]. intros [= <-].
    apply counted_refl; unfold go; by destruct (threads s !! t).
  - destruct k; try done. destruct (consume _ _); intros [= <-]; counting.
  - destruct k; try done; intros [= <-]; counting.
  - destruct k; try done. unfold take_callback. destruct (tasks s); [done|].
    repeat (case_decide; [intros [= <-]; counting|]). done.
  - by destruct k.
  - by destruct k.
  - by destruct k.
Qed.

Lemma counted_proceed t a p s s' : proceed t a p s = Some s' → counted s s'.
Proof.
  destruct p, a; try done; cbn [proceed]; try (intros [= <-]; solve [counting]).
  - unfold take_callback. destruct (tasks s); [done|].
    repeat (case_decide; [intros [= <-]; counting|]). done.
  - unfold startWrite. intros [= <-]. case_match; counting.
  - unfold doWrite_size. intros [= <-]. case_match; counting.
  - unfold socketWrite. intros Hs. repeat case_match; simplify_eq; counting.
  - unfold doWrite_after. intros [= <-]. destruct r as [[|n]| | |]; try counting.
    destruct (consume _ _); [|counting]. case_decide; counting.
  - destruct r as [d| | |]; cbn [doRead]; [|intros [= <-]; counting..].
    destruct (doRead_room _) as [room|]; [|intros [= <-]; counting].
    destruct (doRead_fill d _) as [b|]; (case_decide; [|done]); intros [= <-]; counting.
Qed.

Lemma alive_step l s s' : Inv s → alive s → step l s = Some s' → alive s'.
Proof.
  intros Hi Ha Hs. assert (counted s s') as Hc; [|].
  { destruct l as [t a| |]; cbn [step] in Hs.
    - destruct (threads s !! t) as [th|]; cbn [mbind option_bind] in Hs; [|done].
      assert (∃ s1, counted s s1 ∧ s' = if deleted s then set_fault s1 else s1) as (s1 & H1 & ->).
      { destruct (may_use th) as [k|].
        - destruct (use t a k th s) as [s1|] eqn:E; cbn in Hs; [|done]. simplify_eq.
          exists s1. split; [by eapply counted_use|done].
        - destruct (proceed t a (at_ th) s) as [s1|] eqn:E; cbn in Hs; [|done]. simplify_eq.
          exists s1. split; [by eapply counted_proceed|done]. }
      by destruct (deleted s).
    - destruct (deleted s); [done|]. simplify_eq. counting.
    - destruct (deleted s); [done|]. simplify_eq. counting. }
  destruct Hc as [[E1 E2]|[E|?]]; [|intros E0; pose proof (i_refs _ Hi); lia|done].
  unfold alive. by rewrite E1, E2.
Qed.

Lemma Inv_reaches s0 s : Inv s0 ∧ alive s0 → reaches s0 s → Inv s ∧ alive s.
Proof.
  intros H0 (sched & Hok & He). revert s0 H0 He.
  induction Hok as [|l sched Hl Hok IH]; intros s0 H0 He; cbn in He; [by simplify_eq|].
  destruct (step l s0) as [s1|] eqn:E; cbn in He; [|done]. apply (IH s1); [|done].
  destruct H0 as [Hi Ha]. split; [by eapply Inv_step_conn|by eapply alive_step].
Qed.

(** Nobody is inside the class, or about to call [startWrite]. *)
Definition quiet s : Prop := ∀ t th, threads s !! t = Some th → at_ th = Free ∧ dirty th = false.

Lemma tally_zero {A} (f : A → nat) l : (∀ i x, l !! i = Some x → f x = 0) → tally f l = 0.
Proof.
  induction l as [|x l IH]; cbn; intros Hf; [done|].
  rewrite (Hf 0 x) by done. rewrite IH; [done|]. intros i y Hy. by apply (Hf (S i)).
Qed.

Lemma quiet_sent s :
  Inv s → quiet s → armed_write s = 0 → failed s = false → sent s = appended s.
Proof.
  intros Hi Hq Ha Hf. pose proof (i_writers _ Hi) as Hw.
  rewrite (tally_zero writer), Ha, Hf, andb_true_r in Hw
    by (intros t th Hth; unfold writer; by destruct (Hq t th Hth) as [-> _]).
  rewrite (i_sent _ Hi). rewrite (tally_zero flight)
    by (intros t th Hth; unfold flight; by destruct (Hq t th Hth) as [-> _]).
  destruct (contents (out_ (conn s))) eqn:Hc; [by rewrite app_nil_r|]. destruct (i_dirty _ Hi) as (t & th & Hth & Hww).
  - by destruct (writing_ (conn s)).
  - by rewrite Hc.
  - destruct (Hq t th Hth) as [Hfree Hd]. destruct Hww as [?|[? ?]]; congruence.
Qed.

(** *** Only the writer sends *)

Definition kept s s' : Prop := sent s' = sent s ∧ (failed s = true → failed s' = true).

Lemma kept_moves t p n b s s' :
  kept s s' → kept s (go t p s') ∧ kept s (hold t n s') ∧ kept s (mark t b s').
Proof. unfold go, hold, mark. by destruct (threads s' !! t). Qed.

Lemma kept_desc f s s' : kept s s' → kept s (on_desc f s').
Proof.
  unfold on_desc, on_io_desc. destruct (io_desc_ (conn s')) as [d|]; cbn; [|done]. by destruct (f d).
Qed.

Lemma kept_release s s' : kept s s' → kept s (do_release s').
Proof. unfold do_release. cbn. by case_bool_decide. Qed.

Lemma kept_same s s' d e d' :
  sent s' = sent s → failed s' = failed s → kept s s' ∧ kept s (add_out d [] s') ∧ kept s (add_in e d' s').
Proof. unfold kept. cbn. rewrite app_nil_r. intros -> ->. done. Qed.

Ltac keeping :=
  repeat match goal with
    | |- kept _ (do_release _) => apply kept_release
    | |- kept _ (on_desc _ _) => apply kept_desc
    | |- kept _ (go ?t ?p _) => apply (kept_moves t p 0 true)
    | |- kept _ (hold ?t ?n _) => apply (kept_moves t Free n true)
    | |- kept _ (mark ?t ?b _) => apply (kept_moves t Free 0 b)
    | |- kept _ (add_out ?d _ _) => apply (kept_same _ _ d [] []); reflexivity
    | |- kept _ (add_in ?e ?d _) => apply (kept_same _ _ [] e d); reflexivity
    | |- kept _ (set_failed _) => split; reflexivity
    | |- kept _ _ => apply (kept_same _ _ [] [] []); reflexivity
    end.

Lemma kept_use t a k th s s' : use t a k th s = Some s' → kept s s'.
Proof.
  destruct a as [| |u|os| | |n|more| | |r|r]; cbn [use]; intros Hs;
    try unfold take_callback in Hs; repeat case_match; simplify_eq; try solve [keeping].
  - destruct (threads s !! u); cbn [mbind option_bind] in Hs; [|done]. simplify_eq. keeping.
  - apply (kept_moves t (StartRead_acquire ToConnDone) 0 true). keeping.
Qed.

Lemma kept_proceed t a p s s' :
  proceed t a p s = Some s' → kept s s' ∨ ∃ k size data, p = DoWrite_write k size data.
Proof.
  destruct p; eauto; intros Hs; left; destruct a; try done; cbn [proceed] in Hs; simplify_eq; try solve [keeping].
  - unfold take_callback in Hs. repeat case_match; simplify_eq; keeping.
  - unfold startWrite. case_match; keeping.
  - unfold doWrite_size. case_match; keeping.
  - unfold doWrite_after. destruct r as [[|n]| | |]; try keeping.
    all: try (apply (kept_moves _ _ 0 true); done).
    destruct (consume _ _); [|keeping]. case_decide; keeping.
  - revert Hs. destruct r as [d| | |]; cbn [doRead]; [|intros [= <-]; keeping..].
    destruct (doRead_room _) as [room|]; [|intros [= <-]; keeping].
    destruct (doRead_fill d _) as [b|]; (case_decide; [|done]); intros [= <-]; keeping.
Qed.

(** Once a write has failed nobody is the writer any more. *)
Lemma failed_step l s s' :
  Inv s → failed s = true → step l s = Some s' → failed s' = true ∧ sent s' = sent s.
Proof.
  intros Hi Hf Hs. assert (kept s s') as [E1 E2]; [|by rewrite E1; auto].
  destruct l as [t a| |]; cbn [step] in Hs; [|destruct (deleted s); simplify_eq; keeping..].
  destruct (threads s !! t) as [th|] eqn:Hth; cbn [mbind option_bind] in Hs; [|done].
  assert (∃ s1, kept s s1 ∧ s' = if deleted s then set_fault s1 else s1) as (s1 & H1 & ->); [|by destruct (deleted s)].
  destruct (may_use th) as [k|].
  - destruct (use t a k th s) as [s1|] eqn:E; cbn in Hs; [|done]. simplify_eq.
    exists s1. split; [by eapply kept_use|done].
  - destruct (proceed t a (at_ th) s) as [s1|] eqn:E; cbn in Hs; [|done]. simplify_eq.
    exists s1. split; [|done]. apply kept_proceed in E as [?|(k & size & data & E)]; [done|].
    destruct (writer_alone s t th Hi Hth) as (_ & _ & ? & _); [by unfold writer; rewrite E|]. congruence.
Qed.

Lemma failed_final sched s s' :
  Inv s → failed s = true → Forall ok_label sched → exec step sched s = Some s' →
  failed s' = true ∧ sent s' = sent s.
Proof.
  intros Hi Hf Hok. revert s Hi Hf. induction Hok as [|l sched Hl Hok IH]; intros s Hi Hf He; cbn in He; [by simplify_eq|].
  destruct (step l s) as [s1|] eqn:E; cbn in He; [|done].
  destruct (failed_step l s s1 Hi Hf E) as [Hf1 <-]. apply IH; try done. by eapply Inv_step_conn.
Qed.

(** ** Properties *)

(** C2. Whatever the number of threads and however they interleave, the bytes
    given to the socket are those appended to [out_], in order and without
    repetition; at most one thread or callback is in charge of writing; and
    unless a write ended with an error or wrote nothing, when no thread is in
    the class, none has yet to call [startWrite], and no write waits for the
    socket, all of them were given to it. *)
Theorem bytes_sent_in_order s0 s :
  initial s0 → reaches s0 s →
  (∃ rest, appended s = sent s ++ rest) ∧
  tally writer (threads s) + armed_write s ≤ 1 ∧
  (failed s = false → quiet s → armed_write s = 0 → sent s = appended s).
Proof.
  intros H0 Hr. destruct (Inv_reaches s0 s (Inv_initial_conn _ H0) Hr) as [Hi _]. split_and!.
  - eexists. apply (i_sent _ Hi).
  - rewrite (i_writers _ Hi). destruct (_ && _); cbn; lia.
  - intros. by apply quiet_sent.
Qed.

(** C14. The reference count is the number of activities and owners of the
    connection: it is deleted exactly when the count falls to zero, and then no
    thread is in its methods or owns a reference and no callback is queued or
    waits in the descriptor; nothing uses it after that, and no null pointer
    is used. *)
Theorem references_protect s0 s :
  initial s0 → reaches s0 s →
  fault s = false ∧ (deleted s = true ↔ refs_ (conn s) = 0%Z) ∧
  (deleted s = true →
     (∀ t th, threads s !! t = Some th → at_ th = Free ∧ held th = 0) ∧
     tasks s = [] ∧ armed_read s + armed_write s = 0).
Proof.
  intros H0 Hr. destruct (Inv_reaches s0 s (Inv_initial_conn _ H0) Hr) as [Hi Ha].
  split; [apply (i_fault _ Hi)|]. split; [split; [apply (i_deleted _ Hi)|apply Ha]|]. intros Hd. split_and!.
  - intros t th Hth. by destruct (deleted_idle s t th Hi Hd Hth) as (? & ? & _).
  - pose proof (i_deleted _ Hi Hd) as E. rewrite (i_refs _ Hi) in E.
    destruct (tasks s) as [|cb l] eqn:Et; [done|]. pose proof (i_tasks _ Hi) as Hall. rewrite Et in Hall.
    apply Forall_cons in Hall as [Hcb _]. unfold armed_read, armed_write in E. rewrite Et in E.
    destruct Hcb as [-> | ->]; cbn in E; lia.
  - pose proof (i_deleted _ Hi Hd) as E. rewrite (i_refs _ Hi) in E. lia.
Qed.

(** There is one outstanding read at most: the running [doRead] or
    [readDone()], a queued callback or a waiting descriptor.  What the sub-class
    consumed, followed by what is in [in_], is what came from the socket. *)
Lemma bytes_read_in_order s0 s :
  initial s0 → reaches s0 s →
  tally reader (threads s) + armed_read s ≤ 1 ∧ received s = taken s ++ contents (in_ (conn s)).
Proof.
  intros H0 Hr. destruct (Inv_reaches s0 s (Inv_initial_conn _ H0) Hr) as [Hi _].
  split; [|apply (i_received _ Hi)]. pose proof (i_readers _ Hi). destruct (reading s); cbn in *; lia.
Qed.

(** How connecting ends.  In progress: [connDone()] is called with one
    reference held, whether the event comes before or after the wait, in error
    exactly when the socket reports one, else with the callbacks in place and
    nothing waiting.  Refused at once: it is called in error, without a socket.
    No socket: it is not called.  Connected at once: the descriptor is missing,
    and its null pointer is used. *)
Lemma connecting_ends sock early error :
  ((sock < 0)%Z → ∀ res, ∃ c,
     connecting sock res early error = Some (None, c) ∧ in_error_ c = true) ∧
  ((0 <= sock)%Z →
     (∃ c, connecting sock InProgress early error = Some (Some doConnect_cb, c) ∧
        refs_ c = 1%Z ∧ (in_error_ c = true ↔ error ≠ 0%Z) ∧
        (error = 0%Z → ∃ d, io_desc_ c = Some d ∧ read_cb_ d = Some doRead_cb ∧ write_cb_ d = Some doWrite_cb ∧
           waiting_read_ d = false ∧ waiting_write_ d = false)) ∧
     (∃ c, connecting sock ConnectError early error = Some (Some doConnect_cb, c) ∧
        refs_ c = 1%Z ∧ in_error_ c = true ∧ client_fd_ c = (-1)%Z) ∧
     (error = 0%Z → connecting sock Connected early error = None)).
Proof.
  unfold connecting, startConnect. split.
  - intros Hs res. rewrite decide_True by done. eexists. split; reflexivity.
  - intros Hs. split_and!; try (intros ->); rewrite ?decide_False by lia.
    + destruct (decide (error = 0%Z)) as [->|Hne].
      * destruct (connecting_ready sock early Hs) as (c & Hc & Hr & _ & _ & _ & He & _ & Hd).
        unfold connecting, startConnect in Hc. rewrite decide_False in Hc by lia.
        exists c. split; [exact Hc|]. rewrite He. split; [exact Hr|]. done.
      * destruct early; cbn; unfold doConnect; cbn; rewrite decide_True by done; cbn;
          (eexists; split; [reflexivity|]; done).
    + cbn. eexists. split; [reflexivity|]. done.
    + reflexivity.
Qed.

(** *** A write of nothing *)

Definition put (s : string) : list op := [OWrite (MemPiece.of_string (b_ s))].

(** One request comes; the response to it waits for the socket.  While the
    response to the next is appended, another thread writes both; [startWrite]
    then finds nothing to write. *)
Definition overtaken : list label :=
  [Act 0 Go; ReadEvent; Act 1 Take; Act 1 (Read (Data (b_ "xy"))); Act 1 (Consume 1);
   Act 1 (Append (put "a")); Act 1 StartWrite; Act 1 Go; Act 1 Go; Act 1 Go; Act 1 (Write WriteAgain);
   Act 1 Go; Act 1 Go; Act 1 (Consume 1); Act 1 (Append (put "b"));
   WriteEvent; Act 2 Take; Act 2 Go; Act 2 (Write (Wrote 2)); Act 2 Go; Act 2 Go;
   Act 1 StartWrite; Act 1 Go; Act 1 Go; Act 1 Go; Act 1 (Write (Wrote 0)); Act 1 Go; Act 1 Go;
   Act 1 (Return true); Act 1 (Read ReadAgain); Act 1 Go; Act 1 Go; Act 1 Go].

(** A third request, and the response to it. *)
Definition one_more : list label :=
  [ReadEvent; Act 1 Take; Act 1 (Read (Data (b_ "z"))); Act 1 (Consume 1);
   Act 1 (Append (put "c")); Act 1 StartWrite; Act 1 Go;
   Act 1 (Return true); Act 1 (Read ReadAgain); Act 1 Go; Act 1 Go; Act 1 Go].

Definition quietb s : bool :=
  forallb (λ th, match at_ th with Free => negb (dirty th) | _ => false end) (threads s).

Lemma quietb_quiet s : quietb s = true → quiet s.
Proof.
  unfold quietb, quiet. rewrite forallb_forall. intros Hq t th Hth.
  specialize (Hq th (proj1 (list_elem_of_In _ _) (list_elem_of_lookup_2 _ _ _ Hth))).
  destruct (at_ th); try done. by destruct (dirty th).
Qed.

Lemma put_ok t s : ok_label (Act t (Append (put s))).
Proof. apply Forall_cons. split; [split; [exact I|by intros n]|apply Forall_nil; exact I]. Qed.

Lemma overtaken_ok : Forall ok_label overtaken ∧ Forall ok_label one_more.
Proof. split; repeat (apply Forall_cons; split; [first [exact I|apply put_ok]|]); apply Forall_nil; exact I. Qed.

(** What the two runs come to. *)
Definition blocks s0 : bool :=
  match exec step overtaken s0 with
  | Some s1 =>
    (quietb s1 && failed s1) && bool_decide (sent s1 = appended s1) &&
    match exec step one_more s1 with
    | Some s2 => (quietb s2 && negb (deleted s2)) && bool_decide (sent s2 ≠ appended s2)
    | None => false
    end
  | None => false
  end.

Lemma blocks_from s0 : initial s0 → blocks s0 = true →
  ∃ s1 s2, exec step overtaken s0 = Some s1 ∧ quiet s1 ∧ sent s1 = appended s1 ∧
    exec step one_more s1 = Some s2 ∧ quiet s2 ∧ deleted s2 = false ∧ sent s2 ≠ appended s2 ∧
    ∀ s, reaches s2 s → sent s = sent s2.
Proof.
  intros H0 Hr. destruct overtaken_ok as [Ho1 Ho2]. unfold blocks in Hr.
  destruct (exec step overtaken s0) as [s1|] eqn:E1; [|discriminate Hr].
  destruct (exec step one_more s1) as [s2|] eqn:E2; [|by rewrite andb_false_r in Hr].
  apply andb_true_iff in Hr as [[[Hq1 Hf]%andb_true_iff Hs1]%andb_true_iff
                                [[Hq2 Hd2]%andb_true_iff Hs2]%andb_true_iff].
  apply bool_decide_eq_true in Hs1, Hs2.
  destruct (Inv_reaches s0 s1 (Inv_initial_conn _ H0) (ex_intro _ _ (conj Ho1 E1))) as [Hi1 Ha1].
  destruct (Inv_reaches s1 s2 (conj Hi1 Ha1) (ex_intro _ _ (conj Ho2 E2))) as [Hi2 _].
  destruct (failed_final one_more s1 s2 Hi1 Hf Ho2 E2) as [Hf2 _].
  exists s1, s2. split_and!; eauto using quietb_quiet.
  - by destruct (deleted s2).
  - intros s (sched & Hok & He). by destruct (failed_final sched s2 s Hi2 Hf2 Hok He).
Qed.

Lemma overtaken_runs : blocks (server 3 2) = true.
Proof. vm_compute. reflexivity. Qed.

(** C37. A [startWrite] that finds nothing left to write blocks all writing.  Two
    requests arrive in one read; no write ends with an error and every byte of
    the two responses is sent; but the second response went out with the first,
    by another thread, so that [startWrite] writes no bytes, which [doWrite]
    takes for the end and leaves [writing_] set.  The connection stays open and
    takes a third request; its response is never sent, whatever comes next. *)
Theorem empty_write_blocks :
  Forall (λ l, ∀ t, l ≠ Act t (Write WriteError)) (overtaken ++ one_more) ∧
  ∃ s1 s2, exec step overtaken (server 3 2) = Some s1 ∧ quiet s1 ∧ sent s1 = appended s1 ∧
    exec step one_more s1 = Some s2 ∧ quiet s2 ∧ deleted s2 = false ∧ sent s2 ≠ appended s2 ∧
    ∀ s, reaches s2 s → sent s = sent s2.
Proof.
  split; [repeat (apply Forall_cons; split; [by intros t|]); apply Forall_nil; exact I|].
  exact (blocks_from _ (initial_server 3 2) overtaken_runs).
Qed.
End model.

(** ** Witnesses *)

Lemma a_run : ∃ s, reaches (H := NUL) (server (H := NUL) 3 2) s ∧ appended s = b_ "ab".
Proof.
  pose proof overtaken_ok as Ho.
  assert (match exec (step (H := NUL)) overtaken (server (H := NUL) 3 2) with
          | Some s => appended s = b_ "ab" | None => False end) as Ha by (vm_compute; reflexivity).
  generalize dependent (server (H := NUL) 3 2). intros s0 Ha.
  destruct (exec _ overtaken s0) as [s|] eqn:E; [|destruct Ha]. exists s.
  split; [exact (ex_intro _ _ (conj (proj1 Ho) E))|exact Ha].
Qed.

Lemma bytes_sent_in_order_witness : ∃ s, appended s = b_ "ab" ∧ ∃ rest, appended s = sent s ++ rest.
Proof.
  destruct a_run as (s & Hr & Ha). exists s. split; [exact Ha|].
  destruct (bytes_sent_in_order (H := NUL) _ s (initial_server (H := NUL) 3 2) Hr) as (Hs & _). exact Hs.
Defined.

Lemma references_protect_witness : ∃ s, appended s = b_ "ab" ∧ fault s = false.
Proof.
  destruct a_run as (s & Hr & Ha). exists s. split; [exact Ha|].
  destruct (references_protect (H := NUL) _ s (initial_server (H := NUL) 3 2) Hr) as (Hs & _). exact Hs.
Defined.

End Connection.
