(* ===== verification/HttpConnection.v ===== *)
(** * HTTP connections ([http_connection.hpp], [.cpp])

    The sub-classes of [Connection]: what [readDone()] does with the input
    buffer, and the calls of [Connection] that it makes, as a list of the
    actions of [Connection.v].  A server connection uses the file cache and the
    statistics of its service; a client connection keeps the callbacks that wait
    for responses. *)

From S2P Require Import Prelude Buffer BufferIter HttpParser FileCache RequestStats Connection.

Import Buffer.Buffer Iter.

(** ** What a connection needs of the statistics *)

Class StatsOps (T : Type) := {
  stats_get : Z → T → option Z;                    (* [getStats]: the requests of the last second *)
  stats_finished : nat → Z → T → option T          (* [finishedRequest] of a worker *)
}.

Class StatsLaws {T} (O : StatsOps T) (ok : nat → T → Prop) := {
  stats_get_total n now t : ok n t → ∃ x, stats_get now t = Some x ∧ (0 ≤ x < 2 ^ 32)%Z;
  stats_finished_total n me now t : ok n t → me < n → ∃ t', stats_finished me now t = Some t' ∧ ok n t'
}.

(** ** Text *)

(** [out_.write(s)] of a C string. *)
Definition put (s : bytes) : op := OWrite (MemPiece.of_cstr s).
Definition put_line (s : string) : op := put (line_ s).
Definition content_length_line (size : Z) : bytes := b_ "Content-Length: " ++ decimal size.

(** The lines before the empty line of the responses with code 200. *)
Definition ok_lines (size : Z) : list op :=
  [put_line "HTTP/1.1 200 OK"; put_line "Date: Wed, 28 Oct 2009 15:24:11 GMT";
   put_line "Server: Lab02a"; put_line "Accept-Ranges: bytes";
   put (content_length_line size ++ crlf); put_line "Content-Type: text/html"].

Definition stats_response (reqsLastSec : Z) : list op :=
  let stats_string := decimal reqsLastSec in
  ok_lines (Z.of_nat (length stats_string)) ++ [put crlf; put stats_string].

(** The last write and [copyFrom(buf)]. *)
Definition file_response (size : nat) (buf : Buffer) : list op :=
  ok_lines (Z.of_nat size) ++ [OWriteCopy (MemPiece.of_cstr crlf) buf].

Definition html_stream : bytes :=
  line_ "<HTML>" ++ line_ "<HEAD><TITLE>400 Bad Request</TITLE></HEAD>" ++
  line_ "<BODY>Bad Request</BODY>" ++ line_ "</HTML>" ++ crlf.

Definition error_response : list op :=
  [put_line "HTTP/1.1 503 Bad Request"; put_line "Date: Wed, 28 Oct 2009 15:24:11 GMT";
   put_line "Server: MyServer"; put_line "Connection: close"; put_line "Transfer-Encoding: chunked";
   put (content_length_line (Z.of_nat (length html_stream)) ++ crlf);
   put_line "Content-Type: text/html; charset=iso-8859-1"; put crlf; put html_stream].

(** ** The server's side *)

(** ** The loop of the servers' [readDone]

    It is the same in the connections of both services, but for
    [handleRequest], which gives whether more requests are accepted, the calls
    made on the connection, and the service. *)

Abbreviation action := Connection.action.

Section loop.
Context {W S : Type} (handleRequest : W → Request → S → option (bool * list action * S)).

(** [es] are the worlds of the requests to come.  A request has at least one
    byte, so a turn more than there are bytes is enough. *)
Fixpoint readDone_loop (fuel : nat) (es : list W) (in_ : Buffer) (request_ : Request) (sv : S)
    : option (bool * list action * Buffer * S) :=
  match fuel with
  | 0 => None
  | Datatypes.S fuel =>
    '(rc, (it, request_)) ← request_in in_ (Request_clear request_);
    match rc with
    | Uncaught => None
    | Code rc =>
      if decide (rc < 0)%Z then Some (false, [], in_, sv)
      else if decide (rc > 0)%Z then Some (true, [], in_, sv)
      else
        let n := bytes_read_ it in
        in_ ← consume n in_;
        e ← head es;
        '(more, acts, sv) ← handleRequest e request_ sv;
        if (more : bool) then
          '(res, acts', in_, sv) ← readDone_loop fuel (tail es) in_ request_ sv;
          Some (res, Connection.Consume n :: acts ++ acts', in_, sv)
        else Some (false, Connection.Consume n :: acts, in_, sv)
    end
  end.

(** The specification: the requests are handled one after the other. *)
Fixpoint handle_all (es : list W) (rs : list Request) (sv : S) {struct rs}
    : option (list action * S) :=
  match rs, es with
  | [], _ => Some ([], sv)
  | r :: rs, e :: es =>
    '(more, acts, sv) ← handleRequest e r sv;
    if (more : bool) then '(acts', sv) ← handle_all es rs sv; Some (acts ++ acts', sv) else None
  | _ :: _, [] => None
  end.
End loop.

Module HttpServer.
Section server.
Context `{Uninit} {T : Type} `{O : !StatsOps T}.

(** What a connection uses of its service. *)
Record service := mkService { cache : FileCache.FileCache; stats : T; stop_requested : bool }.

(** The world while a request is handled: the time, the worker thread, the disk. *)
Record world := mkWorld { now : Z; me : nat; disk : string → FileCache.file }.

(** [handleRequest]: whether more requests are accepted, the calls made on the
    connection, and the service. *)
Definition handleRequest (e : world) (r : Request) (sv : service)
    : option (bool * list action * service) :=
  if decide (address r = b_ "quit") then Some (false, [], mkService (cache sv) (stats sv) true)
  else
    reqsLastSec ← stats_get (now e) (stats sv);
    if decide (address r = b_ "stats") then
      Some (true, [Connection.Append (stats_response reqsLastSec); Connection.StartWrite], sv)
    else
      let a := if decide (address r = []) then b_ "index.html" else address r in
      let name := String.string_of_list_ascii a in
      '(h, buf, c) ← FileCache.pin name (disk e name) (cache sv);
      os ← match h with
           | Some _ =>
             p ← match buf with FileCache.Points p => Some p | _ => None end;
             n ← FileCache.nodes c !! p;
             size ← readSize (FileCache.buf n);
             Some (file_response size (FileCache.buf n))
           | None => Some error_response
           end;
      st ← stats_finished (me e) (now e) (stats sv);
      Some (true, [Connection.Append os; Connection.StartWrite], mkService c st (stop_requested sv)).

Definition readDone (es : list world) (in_ : Buffer) (request_ : Request) (sv : service)
    : option (bool * list action * Buffer * service) :=
  readDone_loop handleRequest (S (length (contents in_))) es in_ request_ sv.
End server.
End HttpServer.

(** ** The client's side *)

Module HttpClient.
Section client.
Context `{Uninit}.

(** The callbacks that wait, in the order of the requests; those called, with
    their responses. *)
Record client := mkClient { response_cbs_ : list nat; called : list (nat * Response) }.

(** [request->toBuffer(&out_)]. *)
Definition request_ops (r : Request) : list op :=
  [put (method r); put [SP]; put (address r); put [SP]; put (version r); put (crlf ++ crlf)].

(** [asyncSend]: under [m_response_] the callback is queued and the request is
    written. *)
Definition asyncSend (r : Request) (cb : nat) (c : client) : list action * client :=
  ([Connection.Append (request_ops r); Connection.StartWrite],
   mkClient (response_cbs_ c ++ [cb]) (called c)).

(** [handleResponse]: a response that nobody waits for is dropped. *)
Definition handleResponse (response : Response) (c : client) : bool * client :=
  match response_cbs_ c with
  | [] => (true, c)
  | cb :: cbs => (true, mkClient cbs (called c ++ [(cb, response)]))
  end.

(** [connDone]: reading starts if the connection went through; then the user's
    callback is called. *)
Definition connDone (ok : bool) : list action := if ok then [Connection.StartRead] else [].

Fixpoint readDone_loop (fuel : nat) (in_ : Buffer) (c : client)
    : option (bool * list action * Buffer * client) :=
  match fuel with
  | 0 => None
  | S fuel =>
    '(rc, (it, response)) ← response_in in_ (mkResponse [] [] []);
    match rc with
    | Uncaught => None
    | Code rc =>
      if decide (rc < 0)%Z then Some (false, [], in_, c)
      else if decide (rc > 0)%Z then Some (true, [], in_, c)
      else
        let n := bytes_read_ it in
        in_ ← consume n in_;
        let '(ok, c) := handleResponse response c in
        if negb ok then Some (false, [Connection.Consume n], in_, c)
        else if eob in_ it then Some (true, [Connection.Consume n], in_, c)
        else
          '(res, acts, in_, c) ← readDone_loop fuel in_ c;
          Some (res, Connection.Consume n :: acts, in_, c)
    end
  end.

Definition readDone (in_ : Buffer) (c : client) : option (bool * list action * Buffer * client) :=
  readDone_loop (S (length (contents in_))) in_ c.

(** The specification: a queue of callbacks meets the responses in order. *)
Definition answer (c : client) (r : Response) : client := (handleResponse r c).2.
End client.
End HttpClient.

(** ** Numbers as text *)

Definition digit (d : Z) : ascii := ascii_of_nat (48 + Z.to_nat d).

Lemma digit_facts d : (0 ≤ d < 10)%Z →
  is_digit (digit d) = true ∧ digit_val (digit d) = d ∧ is_space (digit d) = false ∧ digit d ≠ CR ∧
  digit d ≠ NUL ∧ digit d ≠ "-"%char ∧ digit d ≠ "+"%char.
Proof.
  intros Hd.
  assert (d = 0 ∨ d = 1 ∨ d = 2 ∨ d = 3 ∨ d = 4 ∨ d = 5 ∨ d = 6 ∨ d = 7 ∨ d = 8 ∨ d = 9)%Z as Hc by lia.
  repeat (destruct Hc as [Hc|Hc]); subst d; (split_and!; first [reflexivity|discriminate]).
Qed.

Definition digits (s : bytes) : Prop := Forall (λ c, ∃ d, (0 ≤ d < 10)%Z ∧ c = digit d) s.

Lemma decimal_loop_spec fuel : ∀ n s, (0 ≤ n < 10 ^ Z.of_nat fuel)%Z → 0 < fuel →
  ∃ ds, decimal_loop fuel n s = ds ++ s ∧ ds ≠ [] ∧ digits ds ∧ length ds ≤ fuel ∧
    ∀ t, digits_value 0 (ds ++ t) = digits_value n t.
Proof.
  induction fuel as [|fuel IH]; intros n s Hn Hf; [lia|]. cbn [decimal_loop].
  assert (0 ≤ n mod 10 < 10)%Z as Hm by (apply Z.mod_pos_bound; lia).
  destruct (digit_facts _ Hm) as (Hd & Hv & _). fold (digit (n mod 10)).
  assert (digits [digit (n mod 10)]) as Hds by (apply Forall_singleton; eauto).
  case_decide as Hz.
  - exists [digit (n mod 10)]. split_and!; try done; try (cbn; lia). intros t. cbn. rewrite Hd, Hv. f_equal.
    apply Z.div_small_iff in Hz; [|lia]. rewrite Z.mod_small by lia. lia.
  - assert (10 ≤ n)%Z as Hn10 by (apply Z.nlt_ge; intros ?; apply Hz, Z.div_small; lia).
    destruct fuel as [|fuel]; [cbn in Hn; lia|].
    destruct (IH (n / 10)%Z (digit (n mod 10) :: s)) as (ds & E & Hne & Hall & Hl & Hval); [|lia|].
    { rewrite Nat2Z.inj_succ, Z.pow_succ_r in Hn by lia. split; [by apply Z.div_pos; lia|].
      apply Z.div_lt_upper_bound; lia. }
    exists (ds ++ [digit (n mod 10)]). rewrite E, <- app_assoc. split_and!; try done.
    + by destruct ds.
    + by apply Forall_app.
    + rewrite length_app. cbn. lia.
    + intros t. rewrite <- app_assoc, Hval. cbn. rewrite Hd, Hv. f_equal.
      pose proof (Z.div_mod n 10). lia.
Qed.

Lemma decimal_spec n : (0 ≤ n)%Z →
  decimal n ≠ [] ∧ digits (decimal n) ∧ ∀ t, digits_value 0 (decimal n ++ t) = digits_value n t.
Proof.
  intros Hn. unfold decimal.
  destruct (decimal_loop_spec (S (Z.to_nat (Z.log2 n))) n []) as (ds & -> & Hne & Hd & _ & Hv); [|lia|].
  - split; [done|]. rewrite Nat2Z.inj_succ, Z2Nat.id by apply Z.log2_nonneg.
    destruct (decide (n = 0)%Z) as [->|]; [done|]. destruct (Z.log2_spec n) as [_ Hlt]; [lia|].
    eapply Z.lt_le_trans; [exact Hlt|]. apply Z.pow_le_mono_l.
    pose proof (Z.log2_nonneg n). lia.
  - by rewrite app_nil_r.
Qed.

(** [ostream] and [istream] agree on an unsigned number. *)
Lemma stream_decimal n old : (0 ≤ n < 2 ^ 64)%Z → stream_size_t old (decimal n) = n.
Proof.
  intros Hn. destruct (decimal_spec n) as (Hne & Hd & Hv); [lia|]. specialize (Hv []).
  rewrite app_nil_r in Hv. unfold stream_size_t. destruct (decimal n) as [|c s] eqn:E; [done|].
  apply Forall_cons in Hd as [(d & Hd & ->) _].
  destruct (digit_facts d Hd) as (_ & _ & Hsp & _ & _ & Hm & Hp). cbn [skip_spaces]. rewrite Hsp.
  rewrite (bool_decide_false (digit d = "-"%char)), (bool_decide_false (digit d = "+"%char)) by done.
  cbn [orb]. rewrite Hv. cbn. rewrite decide_False by lia. done.
Qed.

(** ** The responses *)

Definition ok_headers (size : Z) : list bytes :=
  [b_ "Date: Wed, 28 Oct 2009 15:24:11 GMT"; b_ "Server: Lab02a"; b_ "Accept-Ranges: bytes";
   content_length_line size; b_ "Content-Type: text/html"].
Definition ok_result (body : bytes) : Response :=
  mkResponse (b_ "HTTP/1.1 200 OK") (concat (ok_headers (Z.of_nat (length body)))) body.

Definition error_headers : list bytes :=
  [b_ "Date: Wed, 28 Oct 2009 15:24:11 GMT"; b_ "Server: MyServer"; b_ "Connection: close";
   b_ "Transfer-Encoding: chunked"; content_length_line (Z.of_nat (length html_stream));
   b_ "Content-Type: text/html; charset=iso-8859-1"].
Definition error_result : Response :=
  mkResponse (b_ "HTTP/1.1 503 Bad Request") (concat error_headers) html_stream.

Lemma digits_free s c : digits s → (∀ d, (0 ≤ d < 10)%Z → digit d ≠ c) → c ∉ s.
Proof.
  intros Hs Hc Hin. unfold digits in Hs. rewrite Forall_forall in Hs.
  destruct (Hs c Hin) as (d & Hd & ->). by apply (Hc d).
Qed.

Lemma content_length_line_text size : (0 ≤ size)%Z →
  (NUL ∉ content_length_line size) ∧ line (content_length_line size).
Proof.
  intros Hs. destruct (decimal_spec size Hs) as (_ & Hd & _). unfold content_length_line. split.
  - rewrite elem_of_app. intros [Hin|Hin].
    + revert Hin. apply (bool_decide_unpack _). vm_compute. exact I.
    + revert Hin. apply digits_free; [done|]. intros d Hr. apply (digit_facts d Hr).
  - apply Forall_app. split; [apply (bool_decide_unpack _); vm_compute; exact I|].
    eapply Forall_impl; [exact Hd|]. intros c (d & Hr & ->). apply (digit_facts d Hr).
Qed.

Lemma put_data s : NUL ∉ s → MemPiece.data (MemPiece.of_cstr s) = s.
Proof. intros Hs. by rewrite MemPiece.data_of_cstr, MemPiece.c_str_id. Qed.

Lemma queue_put q s os : NUL ∉ s → queue_ops q (put s :: os) = queue_ops (q ++ s) os.
Proof. intros Hs. unfold queue_ops, put. cbn [fold_left queue_op]. by rewrite put_data. Qed.

Ltac no_nul := apply (bool_decide_unpack _); vm_compute; exact I.
Lemma length_line_no_nul size : (0 ≤ size)%Z → NUL ∉ content_length_line size ++ crlf.
Proof.
  intros Hs. rewrite elem_of_app. intros [Hin|Hin].
  - by apply content_length_line_text in Hin.
  - revert Hin. no_nul.
Qed.

Lemma ok_lines_bytes q size os : (0 ≤ size)%Z →
  queue_ops q (ok_lines size ++ os) =
  queue_ops (q ++ b_ "HTTP/1.1 200 OK" ++ crlf ++ concat (map (λ h, h ++ crlf) (ok_headers size))) os.
Proof.
  intros Hs. unfold ok_lines, put_line. cbn [app].
  do 4 (rewrite queue_put by no_nul). rewrite queue_put by (by apply length_line_no_nul).
  rewrite queue_put by no_nul. f_equal.
  unfold ok_headers, line_. cbn [map concat]. by rewrite app_nil_r, <- !app_assoc.
Qed.

Lemma digits_no_nul s : digits s → NUL ∉ s.
Proof. intros Hs. apply digits_free; [done|]. intros d Hd. apply (digit_facts d Hd). Qed.

Lemma stats_response_bytes n : (0 ≤ n)%Z →
  queue_ops [] (stats_response n) =
  response_head (ok_result (decimal n)) (ok_headers (Z.of_nat (length (decimal n)))) ++ decimal n.
Proof.
  intros Hn. unfold stats_response. rewrite ok_lines_bytes by lia. rewrite queue_put by no_nul.
  rewrite queue_put by (apply digits_no_nul; by apply decimal_spec).
  unfold response_head, header_block. cbn [statusLine ok_result]. unfold queue_ops. cbn [fold_left].
  rewrite app_nil_l. by rewrite <- !app_assoc.
Qed.

Lemma file_response_bytes buf : wf buf → readSize buf = Some (length (contents buf)) →
  queue_ops [] (file_response (length (contents buf)) buf) =
  response_head (ok_result (contents buf)) (ok_headers (Z.of_nat (length (contents buf)))) ++ contents buf.
Proof.
  intros Hw Hs. unfold file_response. rewrite ok_lines_bytes by lia.
  unfold queue_ops. cbn [fold_left queue_op]. rewrite put_data by no_nul.
  unfold response_head, header_block. cbn [statusLine ok_result].
  rewrite app_nil_l. by rewrite <- !app_assoc.
Qed.

Lemma error_response_bytes :
  queue_ops [] error_response = response_head error_result error_headers ++ html_stream.
Proof.
  unfold error_response, put_line. do 5 (rewrite queue_put by no_nul).
  rewrite queue_put by (apply length_line_no_nul; lia). do 3 (rewrite queue_put by no_nul).
  unfold queue_ops. cbn [fold_left]. unfold response_head, header_block, error_headers, line_.
  cbn [statusLine error_result map concat]. by rewrite !app_nil_l, app_nil_r, <- !app_assoc.
Qed.

(** What the client's parser makes of the header lines. *)
Lemma content_length_line_found size : (0 ≤ size)%Z →
  find_str lengthString (content_length_line size) = true ∧
  sizeof_lengthString ≤ length (content_length_line size) ∧
  drop sizeof_lengthString (content_length_line size) = decimal size.
Proof.
  intros Hs. unfold content_length_line. generalize (decimal size). intros d. split_and!.
  - reflexivity.
  - rewrite length_app. cbn. unfold sizeof_lengthString. lia.
  - reflexivity.
Qed.

Lemma content_length_skip n h hs :
  find_str lengthString h = false → content_length n (h :: hs) = content_length n hs.
Proof. intros Hf. unfold content_length. cbn [foldl]. by rewrite Hf. Qed.

Lemma content_length_read n size hs : (0 ≤ size < 2 ^ 64)%Z →
  content_length n (content_length_line size :: hs) = content_length size hs.
Proof.
  intros Hs. unfold content_length. cbn [foldl].
  destruct (content_length_line_found size) as (-> & _ & ->); [lia|]. by rewrite stream_decimal.
Qed.

Lemma plain_header h : bool_decide (h ≠ [] ∧ line h) && negb (find_str lengthString h) = true → response_header h.
Proof.
  intros [Hh Hf]%andb_true_iff. apply bool_decide_eq_true in Hh. split; [exact Hh|].
  intros E. rewrite E in Hf. done.
Qed.

Lemma length_header size : (0 ≤ size)%Z → response_header (content_length_line size).
Proof.
  intros Hs. destruct (content_length_line_found size Hs) as (_ & Hl & _). split; [|done].
  split; [done|]. by apply content_length_line_text.
Qed.

Lemma ok_headers_read size : (0 ≤ size < 2 ^ 64)%Z →
  Forall response_header (ok_headers size) ∧ content_length 0 (ok_headers size) = size.
Proof.
  intros Hs. unfold ok_headers. split.
  - repeat (apply Forall_cons; split; [first [apply length_header; lia|apply plain_header; vm_compute; reflexivity]|]).
    by apply Forall_nil.
  - do 3 (rewrite content_length_skip by (vm_compute; reflexivity)). rewrite content_length_read by done.
    by rewrite content_length_skip by (vm_compute; reflexivity).
Qed.

Lemma error_headers_read :
  Forall response_header error_headers ∧ content_length 0 error_headers = Z.of_nat (length html_stream).
Proof.
  unfold error_headers. split.
  - repeat (apply Forall_cons; split; [first [apply length_header; lia|apply plain_header; vm_compute; reflexivity]|]).
    by apply Forall_nil.
  - do 4 (rewrite content_length_skip by (vm_compute; reflexivity)).
    rewrite content_length_read by (vm_compute; split; [discriminate|reflexivity]).
    by rewrite content_length_skip by (vm_compute; reflexivity).
Qed.

(** ** The file cache under a server

    A server pins files and never unpins them. *)
Section cache.
Context `{Uninit}.
Import FileCache.

Definition buffer_ok (b : Buffer) : Prop :=
  wf b ∧ isConsumed b = false ∧ readSize b = Some (length (contents b)) ∧
  byteCount b = Some (length (contents b)).

Record cache_ok (c : FileCache) : Prop := {
  c_lock : locked c = false;
  c_unpinned : bytes_unpinned_files_ c = 0%Z;
  c_map : ∀ f a, cache_map_ c !! f = Some a → a < length (nodes c);
  c_nodes : ∀ a n, nodes c !! a = Some n → buffer_ok (buf n)
}.

(** The disk's answers are long enough to read the file. *)
Definition file_ok (d : file) : Prop :=
  match d with NoFile => True | File size reads => (0 ≤ size)%Z ∧ is_Some (load size reads) end.

Lemma one_chunk_readSize b :
  wf b → rpos_ b = mkPos 0 0 → idx (wpos_ b) = 0 → byteCount b = Some (length (contents b)) → buffer_ok b.
Proof.
  intros Hw Hr Hi Hb. split_and!; try done.
  - apply isConsumed_false. done.
  - unfold byteCount in Hb. destruct (readSize b) as [rs|] eqn:E; cbn in Hb; [|done].
    pose proof (wf_sizes b Hw) as Hl. rewrite Hi in Hl. destruct (sizes_ b) as [|s [|s' ss]]; try done.
    cbn in Hb. by rewrite Nat.add_0_r in Hb.
Qed.

Lemma advance_idx n b r b' : advance n b = Some (r, b') → idx (wpos_ b') = idx (wpos_ b).
Proof.
  unfold advance. case_decide; [by intros [= <- <-]|].
  destruct (writeSize b) as [ws|]; cbn [mbind option_bind]; [|done].
  case_decide; [|by intros [= <- <-]]. unfold bump, addSize. cbn.
  destruct (sizes_ b !! idx (wpos_ b)); cbn; [|done]. by intros [= <- <-].
Qed.

Lemma load_ok size reads b : (0 ≤ size)%Z → load size reads = Some (Loaded b) → buffer_ok b.
Proof.
  intros Hs Hl. destruct (load_spec size reads b Hs Hl) as [Hb _]. unfold load in Hl.
  destruct (read_loop reads size new) as [l|] eqn:Hr; cbn [mbind option_bind] in Hl; [|done].
  apply read_loop_spec in Hr; [|apply new_untouched]. destruct l as [|b0]; [done|].
  destruct (untouched_room b0 Hr) as (m & Hm & Hlm & _). destruct Hr as (Hwf & Hc & Hw & Hrp).
  destruct (advance _ b0) as [[r b1]|] eqn:Ha; cbn [mbind option_bind] in Hl; [|done]. injection Hl as <-.
  pose proof (advance_idx _ _ _ _ Ha) as Hi. rewrite Hw in Hi.
  destruct (decide (Z.to_nat size = 0 ∨ length m < Z.to_nat size)) as [Ho|Ho].
  - rewrite advance_refuse in Ha; [|done|rewrite Hw; cbn; lia]. injection Ha as <- <-.
    by apply one_chunk_readSize.
  - destruct (advance_spec b0 (Z.to_nat size) m Hwf Hm) as (b2 & E & Hwf' & _ & Hr'); [lia|].
    rewrite E in Ha. injection Ha as <- <-. apply one_chunk_readSize; try done. by rewrite Hr'.
Qed.

Lemma cache_ok_counts p h f c : cache_ok c → cache_ok (set_counts p h f c).
Proof. intros [H1 H2 H3 H4]. by split. Qed.

Lemma pin_insert_ok f b size c :
  cache_ok c → buffer_ok b → (0 ≤ size)%Z → cache_map_ c !! f = None →
  ∃ h o c', pin_insert f b size c = Some (h, o, c') ∧ cache_ok c' ∧
    ∀ a, h = Some a → o = Points a ∧ a < length (nodes c').
Proof.
  intros Hc Hb Hs Hf. pose proof Hc as [H1 H2 H3 H4]. unfold pin_insert. rewrite H1, H2, Z.add_0_r.
  case_decide as Hsp.
  - unfold insert_node. rewrite Hf. pose proof Hb as (_ & _ & _ & Hbc). rewrite Hbc. cbn [mbind option_bind].
    eexists _, _, _. split; [reflexivity|]. split; cbn.
    + split; cbn; try done.
      * intros g a. rewrite length_app. cbn. destruct (decide (g = f)) as [->|Hne].
        -- rewrite lookup_insert_eq. intros [= <-]. lia.
        -- rewrite lookup_insert_ne by done. intros Hg%H3. lia.
      * intros a n. rewrite lookup_app. destruct (nodes c !! a) eqn:E; [intros [= <-]; by eapply H4|].
        destruct (a - length (nodes c)) as [|k]; cbn; [by intros [= <-]|done].
    + intros a [= <-]. rewrite length_app. cbn. split; [done|lia].
  - rewrite decide_True by lia. eexists _, _, _. split; [reflexivity|]. split; [by apply cache_ok_counts|done].
Qed.

Lemma pin_ok f d c : cache_ok c → file_ok d →
  ∃ h o c', pin f d c = Some (h, o, c') ∧ cache_ok c' ∧
    ∀ a, h = Some a → o = Points a ∧ a < length (nodes c').
Proof.
  intros Hc Hd. pose proof Hc as [H1 H2 H3 H4]. unfold pin, pin_find. rewrite H1. cbn [mbind option_bind].
  destruct (cache_map_ c !! f) as [a|] eqn:Hf.
  - destruct (lookup_lt_is_Some_2 (nodes c) a (H3 f a Hf)) as [n Hn].
    unfold pin_hit. rewrite Hn. cbn [mbind option_bind]. eexists _, _, _. split; [reflexivity|]. split.
    + apply cache_ok_counts, cache_ok_counts. split; cbn; try done.
      * intros g b Hg. rewrite length_insert. by apply (H3 g).
      * intros b n' Hb. destruct (decide (b = a)) as [->|Hne].
        -- rewrite list_lookup_insert_eq in Hb by (by eapply lookup_lt_Some). injection Hb as <-. exact (H4 a n Hn).
        -- rewrite list_lookup_insert_ne in Hb by done. by apply (H4 b).
    + intros b [= <-]. cbn. rewrite length_insert. split; [done|by eapply lookup_lt_Some].
  - destruct d as [|size reads]; cbn in Hd.
    + eexists _, _, _. split; [reflexivity|]. split; [by apply cache_ok_counts|done].
    + destruct Hd as [Hs [l Hl]]. rewrite Hl. cbn [mbind option_bind]. destruct l as [|b].
      * eexists _, _, _. split; [reflexivity|]. done.
      * destruct (pin_insert_ok f b size c Hc (load_ok size reads b Hs Hl) Hs Hf)
          as (h & o & c' & -> & Hc' & Ha). cbn [mbind option_bind]. eexists _, _, _.
        split; [reflexivity|]. split; [by apply cache_ok_counts|done].
Qed.
End cache.

(** ** Pipelined requests *)

Definition message : Type := Request * list bytes.
Definition wf_message (m : message) : Prop := wf_request m.1 m.2.
Definition stream (ms : list message) : bytes := concat (map (λ m, request_msg m.1 m.2) ms).

(** The end of what was read: nothing, or the first part of a request. *)
Definition partial (t : bytes) : Prop :=
  quiet t ∧ ∃ r hs, wf_request r hs ∧ proper t (request_msg r hs).

(** The bytes that a list of actions appends. *)
Definition output (acts : list action) : bytes :=
  concat (map (λ a, match a with Connection.Append os => queue_ops [] os | _ => [] end) acts).

(** A response is complete, and a client that reads it finds its body. *)
Definition is_response (q : bytes) (r : Response) : Prop :=
  ∃ hs, q = response_head r hs ++ body r ∧ line (statusLine r) ∧ headerRemainder r = concat hs ∧
    Forall response_header hs ∧ content_length 0 hs = Z.of_nat (length (body r)).

(** The actions of a server connection: reads are consumed, and the answers are
    appended and started. *)
Definition server_action (a : action) : Prop :=
  match a with
  | Connection.Append os => Forall Connection.is_write os ∧ ∃ R, is_response (queue_ops [] os) R
  | Connection.StartWrite | Connection.Consume _ => True
  | _ => False
  end.

Lemma consume_input b n : wf b → idx (rpos_ b) = 0 →
  ∃ b', consume n b = Some b' ∧ wf b' ∧ idx (rpos_ b') = 0 ∧ contents b' = drop n (contents b).
Proof.
  intros Hw Hi. destruct (consume_spec b n Hw) as (b' & ? & ? & ? & E & _). exists b'. by rewrite E.
Qed.

Lemma request_msg_length m : 0 < length (request_msg m.1 m.2).
Proof. unfold request_msg, request_line. rewrite !length_app. cbn. lia. Qed.

Lemma stream_length ms : length ms ≤ length (stream ms).
Proof.
  induction ms as [|m ms IH]; [done|]. unfold stream in *. cbn [map concat length].
  rewrite length_app. pose proof (request_msg_length m). lia.
Qed.

(** A request at the front, and a part of one. *)
Lemma request_front b r0 r hs rest : wf b → idx (rpos_ b) = 0 → wf_request r hs →
  contents b = request_msg r hs ++ rest →
  ∃ it, request_in b r0 = Some (Code 0, (it, r)) ∧ bytes_read_ it = length (request_msg r hs).
Proof.
  intros Hw Hi [Ht Hh] Hc.
  destruct (request_in_wp b r0 (λ x it' r', x = inr tt ∧ r' = r ∧
    rem (s := contents b) (at_ := at_ b) it' rest) Hw Hi) as (x & it & r' & He & -> & -> & Hr).
  - intros it Hr. rewrite Hc in Hr at 2. by eapply (request_ok (L := Iterator_laws b Hw)).
  - exists it. split; [done|]. by eapply rem_bytes_read.
Qed.

Lemma request_part b r0 : wf b → idx (rpos_ b) = 0 → partial (contents b) →
  ∃ st, request_in b r0 = Some (Code 1, st).
Proof.
  intros Hw Hi (Hq & r & hs & [Ht Hh] & Hp).
  destruct (request_in_wp b r0 (λ x _ _, x = inl IncompleteInput) Hw Hi) as (x & it' & r' & He & ->).
  - intros it Hr. by eapply (request_prefix (L := Iterator_laws b Hw)).
  - by eexists.
Qed.

Section pipeline.
Context {W S : Type} (handleRequest : W → Request → S → option (bool * list action * S)).
Context (ok : S → Prop) (wok : W → Prop) (good : Request → Prop).
Context (answers : ∀ e r sv, ok sv → wok e → good r →
  ∃ os sv', handleRequest e r sv = Some (true, [Connection.Append os; Connection.StartWrite], sv') ∧ ok sv' ∧
    server_action (Connection.Append os)).

(** The loop answers the requests at the front, whatever comes next. *)
Lemma readDone_front ms : ∀ fuel es in_ r0 sv rest,
  wf in_ → idx (rpos_ in_) = 0 → contents in_ = stream ms ++ rest →
  Forall wf_message ms → Forall (λ m, good m.1) ms →
  length ms < fuel → length ms ≤ length es → Forall wok es → ok sv →
  ∃ in1 acts sv1 r1,
    readDone_loop handleRequest fuel es in_ r0 sv =
      ('(res, acts', in2, sv2) ←
         readDone_loop handleRequest (fuel - length ms) (drop (length ms) es) in1 r1 sv1;
       Some (res, acts ++ acts', in2, sv2)) ∧
    wf in1 ∧ idx (rpos_ in1) = 0 ∧ contents in1 = rest ∧ ok sv1 ∧ Forall server_action acts ∧
    ∃ acts0, handle_all handleRequest es (map fst ms) sv = Some (acts0, sv1) ∧ output acts = output acts0.
Proof.
  induction ms as [|m ms IH]; intros fuel es in_ r0 sv rest Hw Hi Hc Hms Hq Hf Hes Hwo Hsv.
  { exists in_, [], sv, r0. rewrite Nat.sub_0_r, drop_0. split_and!; try done; [|by exists []].
    by destruct (readDone_loop handleRequest fuel es in_ r0 sv) as [[[[? ?] ?] ?]|]. }
  apply Forall_cons in Hms as [Hm Hms]. apply Forall_cons in Hq as [Hqm Hq].
  destruct es as [|e es]; cbn [length] in Hes; [lia|]. apply Forall_cons in Hwo as [He Hwo].
  destruct fuel as [|fuel]; cbn [length] in Hf; [lia|].
  unfold stream in Hc. cbn [map concat] in Hc. rewrite <- app_assoc in Hc.
  destruct (request_front in_ (Request_clear r0) m.1 m.2 _ Hw Hi Hm Hc) as (it & Hp & Hb).
  destruct (consume_input in_ (bytes_read_ it) Hw Hi) as (in1 & Hcon & Hw1 & Hi1 & Hc1).
  rewrite Hc, Hb, drop_app_length in Hc1.
  destruct (answers e m.1 sv Hsv He Hqm) as (os & sv1 & Hh & Hsv1 & Hos).
  destruct (IH fuel es in1 m.1 sv1 rest Hw1 Hi1 Hc1 Hms Hq) as
    (in2 & acts & sv2 & r2 & Heq & Hw2 & Hi2 & Hc2 & Hsv2 & Hacts & acts0 & Hall & Hout); [lia|lia|done|done|].
  exists in2, (Connection.Consume (bytes_read_ it) :: [Connection.Append os; Connection.StartWrite] ++ acts), sv2, r2.
  split_and!; try done.
  - cbn [readDone_loop]. rewrite Hp. cbn [mbind option_bind].
    rewrite (decide_False (P := (0 < 0)%Z)), (decide_False (P := (0 > 0)%Z)) by lia.
    rewrite Hcon. cbn [mbind option_bind head tail]. rewrite Hh. cbn [mbind option_bind]. rewrite Heq.
    cbn [length]. rewrite Nat.sub_succ. cbn [drop].
    by destruct (readDone_loop handleRequest (fuel - length ms) (drop (length ms) es) in2 r2 sv2) as [[[[? ?] ?] ?]|].
  - apply Forall_cons. split; [exact I|]. apply Forall_app. split; [|exact Hacts].
    apply Forall_cons. split; [exact Hos|]. by apply Forall_singleton.
  - cbn [map handle_all]. rewrite Hh. cbn [mbind option_bind]. rewrite Hall. cbn [mbind option_bind].
    eexists. split; [reflexivity|]. unfold output in *. cbn [app map concat]. by rewrite Hout.
Qed.

(** All there is to read: requests, and a part of one. *)
Lemma readDone_all ms es in_ r0 sv t :
  wf in_ → idx (rpos_ in_) = 0 → contents in_ = stream ms ++ t → partial t →
  Forall wf_message ms → Forall (λ m, good m.1) ms → length ms ≤ length es → Forall wok es → ok sv →
  ∃ acts in' sv' acts0,
    readDone_loop handleRequest (Datatypes.S (length (contents in_))) es in_ r0 sv = Some (true, acts, in', sv') ∧
    wf in' ∧ contents in' = t ∧
    handle_all handleRequest es (map fst ms) sv = Some (acts0, sv') ∧ output acts = output acts0 ∧
    Forall server_action acts ∧ ok sv'.
Proof.
  intros Hw Hi Hc Ht Hms Hq Hes Hwo Hsv. pose proof (stream_length ms) as Hl.
  destruct (readDone_front ms (Datatypes.S (length (contents in_))) es in_ r0 sv t) as
    (in1 & acts & sv1 & r1 & Heq & Hw1 & Hi1 & Hc1 & Hsv1 & Hacts & acts0 & Hall & Hout); try done.
  { rewrite Hc, length_app. lia. }
  destruct (request_part in1 (Request_clear r1) Hw1 Hi1) as ([it r'] & Hpi); [by rewrite Hc1|].
  exists acts, in1, sv1, acts0. split_and!; try done. rewrite Heq.
  replace (Datatypes.S (length (contents in_)) - length ms)
    with (Datatypes.S (length (contents in_) - length ms)) by (rewrite Hc, length_app; lia).
  cbn [readDone_loop]. rewrite Hpi. cbn [mbind option_bind].
  rewrite (decide_False (P := (1 < 0)%Z)), (decide_True (P := (1 > 0)%Z)) by lia.
  cbn [mbind option_bind]. by rewrite app_nil_r.
Qed.

(** Requests, and one that ends the service. *)
Lemma readDone_stops ms q hs es in_ r0 sv rest stop :
  wf in_ → idx (rpos_ in_) = 0 → contents in_ = stream ms ++ request_msg q hs ++ rest → wf_request q hs →
  (∀ e sv, handleRequest e q sv = Some (false, [], stop sv)) →
  Forall wf_message ms → Forall (λ m, good m.1) ms → length ms < length es → Forall wok es → ok sv →
  ∃ acts in' acts0 sv0,
    readDone_loop handleRequest (Datatypes.S (length (contents in_))) es in_ r0 sv
      = Some (false, acts, in', stop sv0) ∧
    contents in' = rest ∧
    handle_all handleRequest es (map fst ms) sv = Some (acts0, sv0) ∧ output acts = output acts0 ∧
    Forall server_action acts.
Proof.
  intros Hw Hi Hc Hr Hquit Hms Hq Hes Hwo Hsv. pose proof (stream_length ms) as Hl.
  destruct (readDone_front ms (Datatypes.S (length (contents in_))) es in_ r0 sv (request_msg q hs ++ rest)) as
    (in1 & acts & sv1 & r1 & Heq & Hw1 & Hi1 & Hc1 & Hsv1 & Hacts & acts0 & Hall & Hout); try done; [|lia|].
  { rewrite Hc, length_app. lia. }
  destruct (request_front in1 (Request_clear r1) q hs rest Hw1 Hi1 Hr Hc1) as (it & Hp & Hb).
  destruct (consume_input in1 (bytes_read_ it) Hw1 Hi1) as (in2 & Hcon & Hw2 & Hi2 & Hc2).
  rewrite Hc1, Hb, drop_app_length in Hc2.
  assert (∃ e es', drop (length ms) es = e :: es') as (e & es' & Ed).
  { destruct (drop (length ms) es) as [|e es'] eqn:Ed; [|by eauto].
    apply (f_equal length) in Ed. rewrite length_drop in Ed. cbn in Ed. lia. }
  exists (acts ++ [Connection.Consume (bytes_read_ it)]), in2, acts0, sv1. split_and!; try done.
  - rewrite Heq, Ed. replace (Datatypes.S (length (contents in_)) - length ms)
      with (Datatypes.S (length (contents in_) - length ms)) by (rewrite Hc, length_app; lia).
    cbn [readDone_loop]. rewrite Hp. cbn [mbind option_bind].
    rewrite (decide_False (P := (0 < 0)%Z)), (decide_False (P := (0 > 0)%Z)) by lia.
    rewrite Hcon. cbn [mbind option_bind head tail]. by rewrite Hquit.
  - unfold output in *. rewrite map_app, concat_app. cbn. by rewrite app_nil_r.
  - apply Forall_app. split; [done|]. by apply Forall_singleton.
Qed.
End pipeline.

(** ** The server *)

Section server.
Context `{Uninit} {T : Type} `{O : !StatsOps T} {stats_ok : nat → T → Prop} `{L : !StatsLaws O stats_ok}.
Import HttpServer.

(** A service with [n] workers, and a world it can be in. *)
Definition service_ok (n : nat) (sv : service) : Prop :=
  cache_ok (cache sv) ∧ stats_ok n (stats sv).
Definition world_ok (n : nat) (e : world) : Prop := me e < n ∧ ∀ f, file_ok (disk e f).

Lemma ok_is_response d : length d ≤ BlockSize →
  is_response (response_head (ok_result d) (ok_headers (Z.of_nat (length d))) ++ d) (ok_result d).
Proof.
  intros Hd. pose proof BlockSize_val. exists (ok_headers (Z.of_nat (length d))).
  destruct (ok_headers_read (Z.of_nat (length d))) as [Hh Hl]; [lia|].
  split_and!; try done. apply (bool_decide_unpack _). vm_compute. exact I.
Qed.

Lemma error_is_response :
  is_response (response_head error_result error_headers ++ html_stream) error_result.
Proof.
  exists error_headers. destruct error_headers_read as [Hh Hl].
  split_and!; try done. apply (bool_decide_unpack _). vm_compute. exact I.
Qed.

Lemma readSize_le b n : wf b → readSize b = Some n → n ≤ BlockSize.
Proof.
  intros Hw Hr. unfold readSize in Hr. destruct (sizes_ b !! idx (rpos_ b)) as [s|] eqn:E; cbn in Hr; [|done].
  pose proof (wf_fill b Hw) as Hf. rewrite Forall_forall in Hf.
  specialize (Hf s (list_elem_of_lookup_2 _ _ _ E)). apply usub_is_Some in Hr. lia.
Qed.

Lemma puts_are_writes ss : Forall Connection.is_write (map put ss).
Proof. induction ss as [|s ss IH]; constructor; [split; [exact I|by intros n]|exact IH]. Qed.

Lemma decimal_short x : (0 ≤ x < 2 ^ 32)%Z → length (decimal x) ≤ BlockSize.
Proof.
  intros Hx. unfold decimal.
  assert (Z.log2 x < 32)%Z as Hl.
  { destruct (decide (x = 0)%Z) as [->|]; [done|]. apply Z.log2_lt_pow2; lia. }
  pose proof (Z.log2_nonneg x) as H0.
  destruct (decimal_loop_spec (S (Z.to_nat (Z.log2 x))) x []) as (ds & -> & _ & _ & Hle & _); [|lia|].
  - split; [lia|]. rewrite Nat2Z.inj_succ, Z2Nat.id by done.
    destruct (decide (x = 0)%Z) as [->|]; [done|]. destruct (Z.log2_spec x) as [_ Hlt]; [lia|].
    eapply Z.lt_le_trans; [exact Hlt|]. apply Z.pow_le_mono_l. lia.
  - rewrite app_nil_r. pose proof BlockSize_val. lia.
Qed.

Lemma ok_lines_are_writes size os : Forall Connection.is_write os → Forall Connection.is_write (ok_lines size ++ os).
Proof. intros Ho. apply Forall_app. split; [|done]. apply (puts_are_writes [_; _; _; _; _; _]). Qed.

(** A request other than [/quit] is answered by one whole response. *)
Lemma handle_ok n e r sv :
  service_ok n sv → world_ok n e → address r ≠ b_ "quit" →
  ∃ os sv' R, handleRequest e r sv = Some (true, [Connection.Append os; Connection.StartWrite], sv') ∧
    service_ok n sv' ∧ stop_requested sv' = stop_requested sv ∧
    Forall Connection.is_write os ∧ is_response (queue_ops [] os) R ∧
    (R = error_result ∨ ∃ d, R = ok_result d).
Proof.
  intros [Hc Hst] [Hme Hdisk] Hq. unfold handleRequest. rewrite decide_False by done.
  destruct (stats_get_total n (now e) (stats sv) Hst) as (x & -> & Hx). cbn [mbind option_bind].
  destruct (decide (address r = b_ "stats")) as [Hs|Hs].
  - eexists _, sv, (ok_result (decimal x)). split; [reflexivity|]. split_and!; try done.
    + apply ok_lines_are_writes, (puts_are_writes [_; _]).
    + rewrite stats_response_bytes by lia. by apply ok_is_response, decimal_short.
    + right. by eexists.
  - set (a := if decide (address r = []) then b_ "index.html" else address r).
    set (name := String.string_of_list_ascii a).
    destruct (pin_ok name (disk e name) (cache sv) Hc (Hdisk name)) as (h & o & c & -> & Hc' & Hp).
    cbn [mbind option_bind].
    destruct (stats_finished_total n (me e) (now e) (stats sv) Hst Hme) as (st & Hfin & Hst').
    destruct h as [p|]; cbn [mbind option_bind].
    + destruct (Hp p eq_refl) as [-> Hlt]. cbn [mbind option_bind].
      destruct (lookup_lt_is_Some_2 _ _ Hlt) as [nd Hn]. rewrite Hn. cbn [mbind option_bind].
      destruct (c_nodes _ Hc' p nd Hn) as (Hw & Hcs & Hr & _). rewrite Hr. cbn [mbind option_bind].
      rewrite Hfin. cbn [mbind option_bind].
      eexists _, _, (ok_result (contents (FileCache.buf nd))). split; [reflexivity|]. split_and!; try done.
      * apply ok_lines_are_writes, Forall_singleton. split; [|by intros m].
        unfold ok_op. rewrite put_data by no_nul. split; [done|]. by split.
      * rewrite file_response_bytes by done. apply ok_is_response. by eapply readSize_le.
      * right. by eexists.
    + rewrite Hfin. cbn [mbind option_bind]. eexists _, _, error_result. split; [reflexivity|]. split_and!; try done.
      * apply (puts_are_writes [_; _; _; _; _; _; _; _; _]).
      * rewrite error_response_bytes. apply error_is_response.
      * by left.
Qed.

Lemma server_answers n b e r sv :
  service_ok n sv ∧ stop_requested sv = b → world_ok n e → address r ≠ b_ "quit" →
  ∃ os sv', handleRequest e r sv = Some (true, [Connection.Append os; Connection.StartWrite], sv') ∧
    (service_ok n sv' ∧ stop_requested sv' = b) ∧ server_action (Connection.Append os).
Proof.
  intros [Hsv Hb] He Hq. destruct (handle_ok n e r sv Hsv He Hq) as (os & sv' & R & Hh & Hsv' & Hs & Hos & HR & _).
  exists os, sv'. split; [done|]. split; [by rewrite Hs|]. split; [done|by exists R].
Qed.

(** C3. Pipelined requests are answered in order.  When the input starts with
    any number of well-formed requests, none of them [/quit], and ends with
    nothing or a part of one more that is not cut behind a carriage return,
    [readDone] returns true with that part left in the buffer; what it appended
    for the requests is what handling them one after the other appends, a whole
    response each. *)
Theorem requests_answered_in_order n ms t es in_ r0 sv :
  wf in_ → idx (rpos_ in_) = 0 → contents in_ = stream ms ++ t → partial t →
  Forall wf_message ms → Forall (λ m, address m.1 ≠ b_ "quit") ms →
  length ms ≤ length es → Forall (world_ok n) es → service_ok n sv →
  ∃ acts in' sv' acts0,
    readDone es in_ r0 sv = Some (true, acts, in', sv') ∧ wf in' ∧ contents in' = t ∧
    handle_all handleRequest es (map fst ms) sv = Some (acts0, sv') ∧ output acts = output acts0 ∧
    Forall server_action acts ∧ service_ok n sv' ∧ stop_requested sv' = stop_requested sv.
Proof.
  intros Hw Hi Hc Ht Hms Hq Hes Hwo Hsv.
  destruct (readDone_all handleRequest _ _ _ (server_answers n (stop_requested sv)) ms es in_ r0 sv t
    Hw Hi Hc Ht Hms Hq Hes Hwo (conj Hsv eq_refl))
    as (acts & in' & sv' & acts0 & E & Hw' & Hc' & Hall & Hout & Hacts & Hsv' & Hst).
  by exists acts, in', sv', acts0.
Qed.

(** A [/quit] request stops the service: the requests before it are answered,
    the ones behind it stay in the buffer, and [readDone] returns false. *)
Lemma quit_stops_service n ms q hs rest es in_ r0 sv :
  wf in_ → idx (rpos_ in_) = 0 → contents in_ = stream ms ++ request_msg q hs ++ rest →
  wf_request q hs → address q = b_ "quit" →
  Forall wf_message ms → Forall (λ m, address m.1 ≠ b_ "quit") ms →
  length ms < length es → Forall (world_ok n) es → service_ok n sv →
  ∃ acts in' sv', readDone es in_ r0 sv = Some (false, acts, in', sv') ∧
    contents in' = rest ∧ stop_requested sv' = true ∧ Forall server_action acts ∧
    ∃ acts0 sv0, handle_all handleRequest es (map fst ms) sv = Some (acts0, sv0) ∧ output acts = output acts0.
Proof.
  intros Hw Hi Hc Hr Hquit Hms Hq Hes Hwo Hsv.
  destruct (readDone_stops handleRequest _ _ _ (server_answers n (stop_requested sv)) ms q hs es in_ r0 sv rest
    (λ sv, mkService (cache sv) (stats sv) true) Hw Hi Hc Hr) as (acts & in' & acts0 & sv0 & E & Hc' & Hall & Hout & Hacts); try done.
  - intros e sv0. unfold handleRequest. by rewrite decide_True.
  - exists acts, in', (mkService (cache sv0) (stats sv0) true). split_and!; try done. by exists acts0, sv0.
Qed.
End server.

(** ** Between client and server *)

Lemma response_read b q R more r0 :
  wf b → idx (rpos_ b) = 0 → is_response q R → contents b = q ++ more →
  ∃ it, response_in b r0 = Some (Code 0, (it, R)) ∧ at_ b it (length q).
Proof.
  intros Hw Hi (hs & -> & Hl & Hh & Hhs & Hcl) Hc. rewrite <- app_assoc in Hc.
  destruct (response_in_wp b r0 (λ x it' r', x = inr tt ∧ r' = R ∧
    rem (s := contents b) (at_ := at_ b) it' more) Hw Hi) as (x & it' & r' & He & -> & -> & p & Hp & Hat).
  - intros it Hr. rewrite Hc in Hr at 2. by eapply (response_ok (L := Iterator_laws b Hw)).
  - exists it'. split; [done|]. rewrite Hc, app_assoc in Hp. apply app_inv_tail in Hp. by rewrite Hp.
Qed.

Section exchange.
Context `{Uninit} {T : Type} `{O : !StatsOps T} {stats_ok : nat → T → Prop} `{L : !StatsLaws O stats_ok}.
Import HttpServer.

(** C4. A client reads back what the server wrote.  Any request but [/quit], on
    any state of the service that it can be in, appends one response, 200 or
    503, and starts the writing; from any buffer that begins with these bytes
    the client's parser takes exactly them, and finds the status, the headers
    and the body that were written. *)
Theorem response_roundtrip n e r sv :
  service_ok (stats_ok := stats_ok) n sv → world_ok n e → address r ≠ b_ "quit" →
  ∃ os sv' R, handleRequest e r sv = Some (true, [Connection.Append os; Connection.StartWrite], sv') ∧
    (R = error_result ∨ ∃ d, R = ok_result d) ∧
    ∀ b more r0, wf b → idx (rpos_ b) = 0 → contents b = queue_ops [] os ++ more →
      ∃ it, response_in b r0 = Some (Code 0, (it, R)) ∧ bytes_read_ it = length (queue_ops [] os).
Proof.
  intros Hsv He Hq. destruct (handle_ok n e r sv Hsv He Hq) as (os & sv' & R & Hh & _ & _ & _ & HR & Hk).
  exists os, sv', R. split_and!; try done. intros b more r0 Hw Hi Hc.
  destruct (response_read b _ R more r0 Hw Hi HR Hc) as (it & Hp & Hat). exists it.
  split; [done|]. apply Hat.
Qed.

(** The request for a cached file. *)
Lemma handle_file n e r sv name p nd c :
  service_ok (stats_ok := stats_ok) n sv → world_ok n e →
  address r ≠ b_ "quit" → address r ≠ b_ "stats" → address r ≠ [] →
  name = String.string_of_list_ascii (address r) →
  FileCache.pin name (disk e name) (cache sv) = Some (Some p, FileCache.Points p, c) →
  FileCache.nodes c !! p = Some nd →
  ∃ os sv', handleRequest e r sv = Some (true, [Connection.Append os; Connection.StartWrite], sv') ∧
    cache sv' = c ∧ service_ok (stats_ok := stats_ok) n sv' ∧
    is_response (queue_ops [] os) (ok_result (contents (FileCache.buf nd))).
Proof.
  intros [Hc Hst] [Hme Hdisk] Hq Hs Hne -> Hpin Hn. unfold handleRequest.
  set (name := String.string_of_list_ascii (address r)) in *.
  destruct (pin_ok name (disk e name) (cache sv) Hc (Hdisk name)) as (h & o & c' & E & Hc' & Hp).
  rewrite Hpin in E. injection E as <- <- <-.
  destruct (c_nodes _ Hc' p nd Hn) as (Hw & Hcs & Hr & _).
  destruct (stats_get_total n (now e) (stats sv) Hst) as (x & -> & Hx).
  destruct (stats_finished_total n (me e) (now e) (stats sv) Hst Hme) as (st & Hfin & Hst').
  rewrite !decide_False by done. cbn [mbind option_bind]. rewrite !decide_False by done.
  cbv zeta. fold name. rewrite Hpin. cbn [mbind option_bind]. rewrite Hn. cbn [mbind option_bind]. rewrite Hr.
  cbn [mbind option_bind]. rewrite Hfin. cbn [mbind option_bind]. eexists _, _. split; [reflexivity|].
  split_and!; try done. rewrite file_response_bytes by done. apply ok_is_response. by eapply readSize_le.
Qed.

(** C34. A file is served.  A request for a file of at most one block that fits
    into the cache is answered with code 200 and the file's bytes; a later
    request for it, with whatever on the disk then, is answered the same. *)
Theorem file_served n e e' r r' sv d :
  service_ok (stats_ok := stats_ok) n sv → world_ok n e → world_ok n e' →
  address r ≠ b_ "quit" → address r ≠ b_ "stats" → address r ≠ [] → address r' = address r →
  let name := String.string_of_list_ascii (address r) in
  FileCache.cache_map_ (cache sv) !! name = None →
  0 < length d ≤ BlockSize →
  (Z.of_nat (length d) ≤ FileCache.maxSize (cache sv) - FileCache.bytesUsed (cache sv))%Z →
  disk e name = FileCache.File (Z.of_nat (length d)) [FileCache.ReadOk d] →
  ∃ os sv1 os' sv2,
    handleRequest e r sv = Some (true, [Connection.Append os; Connection.StartWrite], sv1) ∧
    is_response (queue_ops [] os) (ok_result d) ∧
    handleRequest e' r' sv1 = Some (true, [Connection.Append os'; Connection.StartWrite], sv2) ∧
    is_response (queue_ops [] os') (ok_result d).
Proof.
  intros Hsv He He' Hq Hs Hne Hr' name Hm [H0 Hd] Hsp Hdisk.
  destruct (FileCache.load_one d H0 Hd) as (b & Hl & Hb & _ & _).
  destruct (FileCache.load_spec (Z.of_nat (length d)) [FileCache.ReadOk d] b (Nat2Z.is_nonneg _) Hl) as [Hbc _].
  destruct (FileCache.pin_miss name _ _ b _ (cache sv) (c_lock _ (proj1 Hsv)) Hm Hl Hbc Hsp)
    as (c1 & Hp1 & Hlk1 & Hm1 & Hn1 & _).
  set (a := length (FileCache.nodes (cache sv))) in *.
  destruct (FileCache.pin_again name (disk e' name) _ _ c1 Hlk1 Hm1 Hn1) as (c2 & Hp2 & _ & Hn2 & _).
  rewrite <- Hdisk in Hp1.
  destruct (handle_file n e r sv name a _ c1 Hsv He Hq Hs Hne eq_refl Hp1 Hn1) as (os & sv1 & Hh1 & <- & Hsv1 & HR1).
  rewrite <- Hr' in Hq, Hs, Hne. assert (name = String.string_of_list_ascii (address r')) as Hname by (by rewrite Hr').
  destruct (handle_file n e' r' sv1 name a _ c2 Hsv1 He' Hq Hs Hne Hname Hp2 Hn2) as (os' & sv2 & Hh2 & _ & _ & HR2).
  cbn in HR1, HR2. rewrite Hb in HR1, HR2. by exists os, sv1, os', sv2.
Qed.
End exchange.

(** ** The client *)

Section client.
Context `{Uninit}.
Import HttpClient.

(** The operations of [asyncSend] are [Request::toBuffer]. *)
Lemma request_ops_toBuffer r b : run_ops (request_ops r) b = Request_toBuffer r b.
Proof.
  unfold request_ops, Request_toBuffer, write_cstr. cbn [run_ops apply_op put].
  repeat (match goal with |- (?m ≫= _) = _ => destruct m; cbn [mbind option_bind]; [|reflexivity] end).
  done.
Qed.

(** A response taken out of the buffer leaves the iterator at the end exactly
    when nothing is left. *)
Lemma eob_nothing_left b it k b' : wf b → at_ b it k → consume k b = Some b' →
  contents b' = drop k (contents b) → eob b' it = true → contents b' = [].
Proof.
  intros Hw Hat _ Hc He. rewrite Hc. rewrite <- (at_contents _ _ _ Hat). apply contents_eob; [apply Hat|].
  unfold eob in He. case_decide as Hb; [done|]. pose proof (at_wf _ _ _ Hat) as Hws.
  pose proof (at_budget _ _ _ Hat) as Hbud. unfold getBudget in Hbud.
  destruct (wf_read _ Hws) as (s & Hs & Hle & Hlt). cbn in *. rewrite Hs in Hbud. cbn in Hbud.
  apply usub_is_Some in Hbud as [_ Hbud].
  assert (idx (pos_ it) = idx (wpos_ b)) as Hi.
  { destruct (decide (idx (pos_ it) = idx (wpos_ b))); [done|]. pose proof (wf_order _ Hws) as Ho. cbn in Ho. lia. }
  pose proof (wf_last _ Hws) as Hl. cbn in Hl. rewrite <- Hi, Hs in Hl. injection Hl as Hl.
  destruct (pos_ it), (wpos_ b); cbn in *. subst. f_equal. lia.
Qed.

(** What may come behind the last whole response: nothing; a response cut
    anywhere in its head, but not behind a carriage return; or one whose body is
    not all there. *)
Definition unfinished (t : bytes) : Prop :=
  t = [] ∨ ∃ R hs, line (statusLine R) ∧ Forall response_header hs ∧
    ((proper t (response_head R hs) ∧ quiet t) ∨
     ∃ k, t = response_head R hs ++ k ∧ headerRemainder R = concat hs ∧
       (Z.of_nat (length k) < content_length 0 hs)%Z).

Lemma unfinished_read b r0 : wf b → idx (rpos_ b) = 0 → unfinished (contents b) →
  ∃ st, response_in b r0 = Some (Code 1, st).
Proof.
  intros Hw Hi Hu.
  destruct (response_in_wp b r0 (λ x _ _, x = inl IncompleteInput) Hw Hi) as (x & it' & r' & He & ->); [|by eexists].
  intros it Hr. destruct Hu as [Hc|(R & hs & Hl & Hh & [[Hp Hq]|(k & Hc & Hhr & Hk)])].
  - rewrite Hc in Hr at 2. unfold parseResponse_try. apply wp_bind, wp_on.
    eapply (parseLine_end (L := Iterator_laws b Hw) []); [exact Hr|constructor|]. by intros i' _.
  - by eapply (response_prefix (L := Iterator_laws b Hw) R hs (contents b)).
  - rewrite Hc in Hr at 2. eapply wp_mono; [by eapply (response_short (L := Iterator_laws b Hw))|].
    by intros x i' r' [-> _].
Qed.

Lemma readDone_responses fuel : ∀ qs Rs in_ c t,
  wf in_ → idx (rpos_ in_) = 0 → contents in_ = concat qs ++ t → Forall2 is_response qs Rs → unfinished t →
  length qs < fuel →
  ∃ acts in', readDone_loop fuel in_ c = Some (true, acts, in', foldl answer c Rs) ∧ contents in' = t.
Proof.
  induction fuel as [|fuel IH]; intros qs Rs in_ c t Hw Hi Hc HR Ht Hf; [lia|]. cbn [readDone_loop].
  destruct HR as [|q R qs Rs Hq HR].
  - rewrite app_nil_l in Hc. destruct (unfinished_read in_ (mkResponse [] [] []) Hw Hi) as ([it R] & ->); [by rewrite Hc|].
    cbn [mbind option_bind]. rewrite (decide_False (P := (1 < 0)%Z)), (decide_True (P := (1 > 0)%Z)) by lia.
    eexists _, _. split; [reflexivity|done].
  - cbn [concat] in Hc. rewrite <- app_assoc in Hc.
    destruct (response_read in_ q R _ (mkResponse [] [] []) Hw Hi Hq Hc) as (it & -> & Hat).
    cbn [mbind option_bind]. rewrite (decide_False (P := (0 < 0)%Z)), (decide_False (P := (0 > 0)%Z)) by lia.
    destruct (consume_input in_ (length q) Hw Hi) as (in1 & Hcon & Hw1 & Hi1 & Hc1).
    rewrite (at_read _ _ _ Hat), Hcon. cbn [mbind option_bind].
    destruct (handleResponse R c) as [ok c1] eqn:Eh.
    assert (ok = true ∧ answer c R = c1) as [-> Ea].
    { unfold answer. rewrite Eh. split; [|done]. unfold handleResponse in Eh. by destruct (response_cbs_ c); injection Eh. }
    cbn [negb foldl]. rewrite Ea. destruct (eob in1 it) eqn:Ee.
    + pose proof (eob_nothing_left _ _ _ _ Hw Hat Hcon Hc1 Ee) as Hn. rewrite Hc, drop_app_length in Hc1.
      rewrite Hn in Hc1. symmetry in Hc1. apply app_nil in Hc1 as [Hqs ->].
      assert (Rs = []) as ->.
      { destruct HR as [|q' R' qs' Rs' Hq' HR']; [done|]. destruct Hq' as (hs & -> & _).
        cbn in Hqs. unfold response_head, header_block in Hqs. apply (f_equal length) in Hqs.
        rewrite !length_app in Hqs. cbn in Hqs. lia. }
      eexists _, _. split; [reflexivity|done].
    + rewrite Hc, drop_app_length in Hc1. cbn in Hf.
      destruct (IH qs Rs in1 c1 t Hw1 Hi1 Hc1 HR Ht) as (acts & in2 & -> & Hc2); [lia|].
      cbn [mbind option_bind]. eexists _, _. split; [reflexivity|done].
Qed.
End client.

Section client_properties.
Context `{Uninit}.
Import HttpClient.

(** Requests sent one after the other, each with its callback. *)
Definition send_all (l : list (Request * nat)) (c : client) : list Connection.action * client :=
  foldl (λ s x, let '(acts, c) := asyncSend x.1 x.2 s.2 in (s.1 ++ acts, c)) ([], c) l.

Lemma send_all_spec l c : ∀ acts0,
  foldl (λ s x, let '(acts, c) := asyncSend x.1 x.2 s.2 in (s.1 ++ acts, c)) (acts0, c) l =
  (acts0 ++ concat (map (λ x, [Connection.Append (request_ops x.1); Connection.StartWrite]) l),
   mkClient (response_cbs_ c ++ map snd l) (called c)).
Proof.
  revert c. induction l as [|[r cb] l IH]; intros c acts0; cbn.
  - rewrite !app_nil_r. by destruct c.
  - rewrite IH. cbn. rewrite <- !app_assoc. done.
Qed.

Lemma answer_all Rs : ∀ c,
  foldl answer c Rs =
  mkClient (drop (length Rs) (response_cbs_ c)) (called c ++ zip (response_cbs_ c) Rs).
Proof.
  induction Rs as [|R Rs IH]; intros [cbs ca]; cbn.
  - by rewrite zip_with_nil_r, app_nil_r, drop_0.
  - rewrite IH. unfold answer, handleResponse. cbn. destruct cbs as [|cb cbs]; cbn.
    + by rewrite drop_nil.
    + by rewrite <- app_assoc.
Qed.

Lemma responses_length qs Rs : Forall2 is_response qs Rs → length qs ≤ length (concat qs).
Proof.
  induction 1 as [|q R qs Rs (hs & -> & _) HR IH]; [done|]. cbn [concat length]. rewrite length_app.
  unfold response_head, header_block. rewrite !length_app. cbn. lia.
Qed.

(** C19. Responses meet their callbacks in the order of the requests.  A client
    sends any number of requests; the bytes go out in that order.  When the
    input then starts with any number of whole responses, and ends with nothing or
    with a part of one, cut in its head but not behind a carriage return or in its
    body, [readDone] returns true with that rest in the buffer: each response went to the callback of its request, the other
    callbacks still wait, and responses beyond the requests were dropped. *)
Theorem responses_meet_callbacks l qs Rs t in_ :
  wf in_ → idx (rpos_ in_) = 0 → contents in_ = concat qs ++ t →
  Forall2 is_response qs Rs → unfinished t →
  let '(sent, c) := send_all l (mkClient [] []) in
  output sent = concat (map (λ x, queue_ops [] (request_ops x.1)) l) ∧
  ∃ acts in' c', readDone in_ c = Some (true, acts, in', c') ∧ contents in' = t ∧
    called c' = zip (map snd l) Rs ∧ response_cbs_ c' = drop (length Rs) (map snd l).
Proof.
  intros Hw Hi Hc HR Ht. unfold send_all. rewrite send_all_spec. cbn [app response_cbs_ called]. split.
  - unfold output. induction l as [|x l IH]; [done|]. cbn. by rewrite IH.
  - destruct (readDone_responses (S (length (contents in_))) qs Rs in_ (mkClient (map snd l) []) t)
      as (acts & in' & E & Hc'); try done.
    { rewrite Hc, length_app. pose proof (responses_length _ _ HR). lia. }
    exists acts, in', (foldl answer (mkClient (map snd l) []) Rs). split_and!; [exact E|exact Hc'|..];
      by rewrite answer_all.
Qed.
End client_properties.

(** ** The statistics of [RequestStats.v] *)

Section request_stats.
Context (ticksPerSecond : Z) (fast : (100 ≤ ticksPerSecond)%Z).
Import RequestStats.

#[local] Instance request_stats : StatsOps (list Counts) := {|
  stats_get := getStats ticksPerSecond;
  stats_finished := finishedRequest ticksPerSecond
|}.

Definition count_ok (c : Counts) : Prop := (0 ≤ base_pos c < 10)%Z ∧ length (val c) = 10.
Definition counts_ok (n : nat) (l : list Counts) : Prop := length l = n ∧ Forall count_ok l.

Lemma incPos_small p : (0 ≤ p < 10)%Z → incPos p = ((p + 1) mod 10)%Z.
Proof. intros Hp. unfold incPos, u32, kNumSlots. by rewrite (Z.mod_small (p + 1) (2 ^ 32)) by lia. Qed.

Lemma slot_in v p : length v = 10 → (0 ≤ p < 10)%Z → ∃ x, slot v p = Some x.
Proof.
  intros Hv Hp. unfold slot. destruct (lookup_lt_is_Some_2 v (Z.to_nat p)) as [x Hx]; [lia|by exists x].
Qed.

Lemma sum_loop_total v stop fuel : length v = 10 → (0 ≤ stop < 10)%Z → ∀ curr acc,
  (0 ≤ curr < 10)%Z → ((stop - curr - 1) mod 10 < Z.of_nat fuel)%Z →
  ∃ x, sum_loop fuel curr stop v acc = Some x ∧ (0 ≤ x < 2 ^ 32)%Z.
Proof.
  intros Hv Hs. induction fuel as [|fuel IH]; intros curr acc Hc Hf.
  { pose proof (Z.mod_pos_bound (stop - curr - 1) 10). lia. }
  cbn [sum_loop]. rewrite incPos_small by done.
  assert (0 ≤ (curr + 1) mod 10 < 10)%Z as Hn by (apply Z.mod_pos_bound; lia).
  destruct (slot_in v _ Hv Hn) as [x ->]. cbn [mbind option_bind]. case_decide as Hd.
  - apply IH; [done|]. Z.div_mod_to_equations. lia.
  - eexists. split; [reflexivity|]. apply Z.mod_pos_bound. lia.
Qed.

Lemma zero_loop_total stop fuel : (0 ≤ stop < 10)%Z → ∀ curr v,
  length v = 10 → (0 ≤ curr < 10)%Z → ((stop - curr - 1) mod 10 < Z.of_nat fuel)%Z →
  ∃ v', zero_loop fuel curr stop v = Some v' ∧ length v' = 10.
Proof.
  intros Hs. induction fuel as [|fuel IH]; intros curr v Hv Hc Hf.
  { pose proof (Z.mod_pos_bound (stop - curr - 1) 10). lia. }
  cbn [zero_loop]. rewrite incPos_small by done.
  assert (0 ≤ (curr + 1) mod 10 < 10)%Z as Hn by (apply Z.mod_pos_bound; lia).
  assert (length (set_slot v ((curr + 1) mod 10) 0) = 10) as Hl by (unfold set_slot; by rewrite length_insert).
  case_decide as Hd.
  - apply IH; [done|done|]. Z.div_mod_to_equations. lia.
  - by eexists.
Qed.

Lemma getStats_total now l : ∀ acc, Forall count_ok l → (0 ≤ acc < 2 ^ 32)%Z →
  ∃ x, foldl (λ acc c, acc ← acc; add_thread ticksPerSecond now acc c) (Some acc) l = Some x ∧
    (0 ≤ x < 2 ^ 32)%Z.
Proof.
  induction l as [|c l IH]; intros acc Hl Ha; [by exists acc|]. apply Forall_cons in Hl as [[Hp Hv] Hl].
  cbn [foldl mbind option_bind].
  assert (∃ y, add_thread ticksPerSecond now acc c = Some y ∧ (0 ≤ y < 2 ^ 32)%Z) as (y & -> & Hy).
  { unfold add_thread. case_decide; [by exists acc|].
    apply sum_loop_total; try done.
    - apply Z.mod_pos_bound. done.
    - apply (Z.mod_pos_bound _ 10). done. }
  by apply IH.
Qed.

Lemma record_request_total now c : count_ok c →
  ∃ c', record_request ticksPerSecond now c = Some c' ∧ count_ok c'.
Proof.
  intros [Hp Hv]. unfold record_request.
  assert (0 ≤ posForTick ticksPerSecond now < 10)%Z as Hn by (apply Z.mod_pos_bound; done).
  assert (∃ v, (if decide (base_tick c + ticksPerSecond < now)%Z
                then Some (replicate (Z.to_nat kNumSlots) 0%Z)
                else zero_loop (Z.to_nat kNumSlots) (base_pos c) (posForTick ticksPerSecond now) (val c)) = Some v
               ∧ length v = 10) as (v & E & Hlv).
  { case_decide; [eexists; split; [reflexivity|done]|].
    apply zero_loop_total; try done. apply (Z.mod_pos_bound _ 10). done. }
  destruct (decide (now > base_tick c + kTicksPerSlot ticksPerSecond)%Z).
  - cbn zeta. rewrite E. cbn [mbind option_bind base_pos val base_tick].
    destruct (slot_in v _ Hlv Hn) as [x ->]. cbn [mbind option_bind]. eexists. split; [reflexivity|].
    split; cbn; [done|]. unfold set_slot. by rewrite length_insert.
  - cbn [mbind option_bind]. destruct (slot_in (val c) _ Hv Hp) as [x ->]. cbn [mbind option_bind].
    eexists. split; [reflexivity|]. split; cbn; [done|]. unfold set_slot. by rewrite length_insert.
Qed.

#[local] Instance request_stats_laws : StatsLaws request_stats counts_ok.
Proof.
  split.
  - intros n now l [_ Hl]. by apply (getStats_total now l 0).
  - intros n me now l [Hn Hl] Hme. cbn. unfold finishedRequest.
    destruct (lookup_lt_is_Some_2 l me) as [c Hc]; [lia|]. rewrite Hc. cbn [mbind option_bind].
    rewrite Forall_forall in Hl. destruct (record_request_total now c) as (c' & -> & Hc').
    { apply Hl. by eapply list_elem_of_lookup_2. }
    cbn [mbind option_bind]. eexists. split; [reflexivity|]. split; [by rewrite length_insert|].
    apply Forall_insert; [by apply Forall_forall|done].
Qed.

Lemma fresh_counts_ok n : counts_ok n (make n).
Proof.
  unfold make. split; [apply length_replicate|]. apply Forall_replicate. split; [done|reflexivity].
Qed.
End request_stats.

(** ** Instances of the properties *)

Section witnesses.
#[local] Instance zero_uninit : Uninit := NUL.
#[local] Existing Instances request_stats request_stats_laws.
#[local] Instance the_stats : StatsOps (list RequestStats.Counts) := request_stats 1000.

Lemma the_laws : StatsLaws the_stats counts_ok.
Proof. exact (request_stats_laws 1000). Qed.

Definition x_bytes : bytes := b_ "abc".
Definition a_world : HttpServer.world :=
  HttpServer.mkWorld 5 0 (λ f, if decide (f = "x.html"%string)
                              then FileCache.File 3 [FileCache.ReadOk x_bytes] else FileCache.NoFile).
Definition a_service : HttpServer.service (T := list RequestStats.Counts) :=
  HttpServer.mkService (FileCache.make 100) (RequestStats.make 1) false.
Definition quit : Request := mkRequest (b_ "GET") (b_ "quit") (b_ "HTTP/1.1").

Lemma a_service_ok : service_ok (stats_ok := counts_ok) 1 a_service.
Proof.
  split; [|apply fresh_counts_ok]. by split.
Qed.

Lemma a_world_ok : world_ok 1 a_world.
Proof.
  split; [cbn; lia|]. intros f. cbn. case_decide; [|exact I]. split; [lia|].
  pose proof BlockSize_val. destruct (FileCache.load_one x_bytes) as (b & E & _); [cbn; lia|cbn; lia|].
  by exists (FileCache.Loaded b).
Qed.

Lemma partial_nil : partial [].
Proof.
  split; [done|]. exists get_x, host. split; [apply get_x_wf|].
  exists (request_msg get_x host). split; [done|]. discriminate.
Qed.

Lemma requests_answered_in_order_witness : ∃ acts in' sv',
  HttpServer.readDone (O := the_stats) [a_world] (buf NUL (stream [(get_x, host)])) no_request a_service
    = Some (true, acts, in', sv') ∧ contents in' = [].
Proof.
  destruct (buf_spec NUL (stream [(get_x, host)])) as (Hw & Hi & Hc).
  pose proof the_laws as L.
  destruct (requests_answered_in_order (stats_ok := counts_ok) 1 [(get_x, host)] [] [a_world]
    (buf NUL (stream [(get_x, host)])) no_request a_service Hw Hi) as (acts & in' & sv' & acts0 & E & _ & Hr & _).
  - rewrite Hc, app_nil_r. reflexivity.
  - exact partial_nil.
  - apply Forall_singleton. exact get_x_wf.
  - apply Forall_singleton. discriminate.
  - cbn. lia.
  - apply Forall_singleton. exact a_world_ok.
  - exact a_service_ok.
  - exists acts, in', sv'. split; [exact E|exact Hr].
Defined.

Lemma quit_wf : wf_request quit host.
Proof. split; [|apply get_x_wf]. repeat split; apply (bool_decide_unpack _); vm_compute; exact I. Qed.

Lemma response_roundtrip_witness : ∃ os sv' R,
  HttpServer.handleRequest (O := the_stats) a_world get_x a_service =
    Some (true, [Connection.Append os; Connection.StartWrite], sv') ∧
  (R = error_result ∨ ∃ d, R = ok_result d).
Proof.
  pose proof the_laws as L.
  destruct (response_roundtrip (stats_ok := counts_ok) 1 a_world get_x a_service a_service_ok a_world_ok)
    as (os & sv' & R & E & HR & _).
  - discriminate.
  - exists os, sv', R. split; [exact E|exact HR].
Defined.

Lemma file_served_witness : ∃ os sv',
  HttpServer.handleRequest (O := the_stats) a_world get_x a_service =
    Some (true, [Connection.Append os; Connection.StartWrite], sv') ∧
  is_response (queue_ops [] os) (ok_result (b_ "abc")).
Proof.
  pose proof the_laws as L. pose proof BlockSize_val as HB.
  destruct (file_served (stats_ok := counts_ok) 1 a_world a_world get_x get_x a_service (b_ "abc")
    a_service_ok a_world_ok a_world_ok) as (os & sv1 & os' & sv2 & E & HR & _).
  - discriminate.
  - discriminate.
  - discriminate.
  - reflexivity.
  - reflexivity.
  - cbn. lia.
  - cbn. lia.
  - reflexivity.
  - exists os, sv1. split; [exact E|exact HR].
Defined.

Definition abc_response : bytes := response_head (ok_result (b_ "abc")) (ok_headers 3) ++ b_ "abc".

(** A second response, cut in its status line. *)
Lemma cut_unfinished : unfinished (b_ "HTTP/1.1 200").
Proof.
  right. exists (mkResponse (b_ "HTTP/1.1 200 OK") [] []), [].
  split; [by apply (bool_decide_unpack _); vm_compute|]. split; [constructor|]. left.
  split; [|unfold quiet; vm_compute; discriminate].
  exists (drop 12 (response_head (mkResponse (b_ "HTTP/1.1 200 OK") [] []) [])). split; [reflexivity|discriminate].
Qed.

Lemma responses_meet_callbacks_witness : ∃ acts in' c',
  HttpClient.readDone (buf NUL (abc_response ++ b_ "HTTP/1.1 200")) (HttpClient.mkClient [7; 8] [])
    = Some (true, acts, in', c') ∧
  contents in' = b_ "HTTP/1.1 200" ∧ HttpClient.called c' = [(7, ok_result (b_ "abc"))] ∧
  HttpClient.response_cbs_ c' = [8].
Proof.
  destruct (buf_spec NUL (abc_response ++ b_ "HTTP/1.1 200")) as (Hw & Hi & Hc). pose proof BlockSize_val as HB.
  destruct (responses_meet_callbacks [(get_x, 7); (get_x, 8)] [abc_response] [ok_result (b_ "abc")]
    (b_ "HTTP/1.1 200") _ Hw Hi) as (_ & acts & in' & c' & E & Hr & Hcl & Hcb).
  - rewrite Hc. cbn [concat]. rewrite app_nil_r. reflexivity.
  - apply Forall2_cons. split; [|apply Forall2_nil; exact I]. apply (ok_is_response (b_ "abc")). cbn. lia.
  - exact cut_unfinished.
  - exists acts, in', c'. split; [exact E|]. split; [exact Hr|]. split; [exact Hcl|exact Hcb].
Defined.
End witnesses.
