(* ===== verification/KvConnection.v ===== *)
(** * The key-value service ([kv_service.hpp], [.cpp], [kv_connection.hpp], [.cpp])

    The service owns a hash table, filled when it is built; its connections are
    HTTP connections that answer with the value of the key in the address.  The
    loop of [readDone] and the client's side are those of [HttpConnection.v]:
    the code is the same. *)

From S2P Require Import Prelude Buffer BufferIter HttpParser LockFreeHashTable RequestStats Connection.
From S2P Require Import HttpConnection.

Import Buffer.Buffer Iter.

Module KvServer.
Import HashTable.

(** ** The table *)

Definition value_of (i : Z) : Z :=
  let value := ((i * 10) mod 100)%Z in if decide (value < 10)%Z then (value + 10)%Z else value.

Definition buildHashTable (hash_table_ : LockFreeHashTable) : option LockFreeHashTable :=
  foldl (λ t i, t ← t; '(_, t) ← insertKey i (value_of i) t; Some t) (Some hash_table_) (seqZ 0 500).

(** The constructor's part that concerns the table. *)
Definition new_table : option LockFreeHashTable := t ← HashTable.make; buildHashTable t.

(** ** Requests *)

(** [istringstream(s) >> key] for an [int] that held [junk]: nothing is stored
    when the text is not a number; one out of range gives the nearest.  (That is
    C++98; a compiler whose default is C++11 or later stores 0 for a text that
    is not a number, which is [junk] = 0.) *)
Definition stream_int (junk : Z) (s : bytes) : Z :=
  match skip_spaces s with
  | [] => junk
  | c :: s' =>
    let neg := bool_decide (c = "-"%char) in
    let ds := if neg || bool_decide (c = "+"%char) then s' else c :: s' in
    match ds with
    | d :: _ =>
      if is_digit d then
        let v := if neg then (- digits_value 0 ds)%Z else digits_value 0 ds in
        ((- 2 ^ 31) `max` (v `min` (2 ^ 31 - 1)))%Z
      else junk
    | [] => junk
    end
  end.

(** [sprintf(temp, "%d", value)] with [char temp[2]]: the text and its final NUL
    must fit. *)
Definition sizeof_temp : nat := 2.
Definition sprintf_temp (value : Z) : option bytes :=
  let text := if decide (value < 0)%Z then "-"%char :: decimal (- value) else decimal value in
  if decide (length text + 1 ≤ sizeof_temp) then Some text else None.

Section server.
Context `{Uninit} {T : Type} `{O : !StatsOps T}.

Record service := mkService { hash_table : LockFreeHashTable; stats : T; stop_requested : bool }.

(** The time, the worker thread, and what the local variables hold. *)
Record world := mkWorld { now : Z; me : nat; keyToSearch : Z }.

Definition value_response (buf : Buffer) : list Buffer.op :=
  ok_lines (Z.of_nat sizeof_temp) ++ [OWriteCopy (MemPiece.of_cstr crlf) buf].

Definition handleRequest (e : world) (r : Request) (sv : service)
    : option (bool * list action * service) :=
  if decide (address r = b_ "quit") then Some (false, [], mkService (hash_table sv) (stats sv) true)
  else
    let key := stream_int (keyToSearch e) (address r) in
    (* the [int] becomes the [unsigned int] of [findKey] *)
    '(found, t) ← findKey (u32 key) (hash_table sv);
    os ← match found with
         | Some value =>
           value ← value;
           temp ← sprintf_temp value;
           buf ← Buffer.write (MemPiece.of_cstr temp) new;
           Some (value_response buf)
         | None => Some error_response
         end;
    st ← stats_finished (me e) (now e) (stats sv);
    Some (true, [Connection.Append os; Connection.StartWrite], mkService t st (stop_requested sv)).

Definition readDone (es : list world) (in_ : Buffer) (request_ : Request) (sv : service)
    : option (bool * list action * Buffer * service) :=
  readDone_loop handleRequest (S (length (contents in_))) es in_ request_ sv.
End server.
End KvServer.

(** ** The client's side: the code of [HTTPClientConnection] *)

Module KvClient.
Definition asyncSend := HttpClient.asyncSend.
Definition handleResponse := HttpClient.handleResponse.
Definition connDone := HttpClient.connDone.
Definition readDone := HttpClient.readDone.
End KvClient.

(** ** The table of the service *)

Import HashTable KvServer.

Definition inserts : list HashTable.op := map (λ i, Insert i (value_of i)) (seqZ 0 500).
Definition table_map : gmap Z Z := (map_perform_all inserts {[0%Z := 0%Z]}).2.

Lemma build_performs ks : ∀ t,
  foldl (λ t i, t ← t; '(_, t) ← insertKey i (value_of i) t; Some t) (Some t) ks =
  ('(_, t) ← perform_all (map (λ i, Insert i (value_of i)) ks) t; Some t).
Proof.
  assert (∀ ks, foldl (λ t i, t ← t; '(_, t) ← insertKey i (value_of i) t; Some t) None ks = None) as Hn.
  { clear ks. intros ks. induction ks as [|k ks IH]; [done|exact IH]. }
  induction ks as [|k ks IH]; intros t; cbn [foldl map perform_all perform]; [done|].
  cbn [mbind option_bind]. destruct (insertKey k (value_of k) t) as [[b t1]|]; cbn [mbind option_bind]; [|apply Hn].
  rewrite IH. destruct (perform_all _ t1) as [[rs t2]|]; done.
Qed.

Lemma new_table_spec : ∃ t, new_table = Some t ∧ represents t table_map.
Proof.
  destruct make_spec as (t0 & Hm & Hr). destruct (perform_all_spec inserts t0 _ Hr) as (t & E & Hr').
  exists t. unfold new_table. rewrite Hm. cbn [mbind option_bind]. unfold buildHashTable.
  rewrite build_performs. fold inserts. rewrite E. done.
Qed.

Lemma table_map_found : ∀ k, (1 ≤ k < 500)%Z → table_map !! k = Some (value_of k).
Proof.
  assert (forallb (λ k, bool_decide (table_map !! k = Some (value_of k))) (seqZ 1 499) = true) as Hall
    by (vm_compute; reflexivity).
  intros k Hk. rewrite forallb_forall in Hall.
  assert (k ∈ seqZ 1 499) as Hin by (apply elem_of_seqZ; lia).
  specialize (Hall k (proj1 (list_elem_of_In _ _) Hin)). by apply bool_decide_eq_true in Hall.
Qed.

Lemma table_map_rest : table_map !! 0%Z = Some 0%Z ∧ ∀ k v, table_map !! k = Some v → (k < 500)%Z.
Proof.
  split; [vm_compute; reflexivity|].
  assert (forallb (λ kv, bool_decide (kv.1 < 500)%Z) (map_to_list table_map) = true) as Hall
    by (vm_compute; reflexivity).
  intros k v Hk. rewrite forallb_forall in Hall. apply elem_of_map_to_list in Hk.
  specialize (Hall (k, v) (proj1 (list_elem_of_In _ _) Hk)). by apply bool_decide_eq_true in Hall.
Qed.

Lemma value_of_two_digits k : (10 ≤ value_of k < 100)%Z.
Proof. unfold value_of. pose proof (Z.mod_pos_bound (k * 10) 100). case_decide; lia. Qed.

#[local] Opaque table_map.

(** ** Replies *)

Lemma stream_int_decimal junk k : (0 ≤ k < 2 ^ 31)%Z → stream_int junk (decimal k) = k.
Proof.
  intros Hk. destruct (decimal_spec k) as (Hne & Hd & Hv); [lia|]. specialize (Hv []).
  rewrite app_nil_r in Hv. unfold stream_int. destruct (decimal k) as [|c s] eqn:E; [done|].
  apply Forall_cons in Hd as [(d & Hd & ->) _].
  destruct (digit_facts d Hd) as (Hdig & _ & Hsp & _ & _ & Hm & Hp). cbn [skip_spaces]. rewrite Hsp.
  rewrite (bool_decide_false (digit d = "-"%char)), (bool_decide_false (digit d = "+"%char)) by done.
  cbn [orb]. rewrite Hdig, Hv. cbn [digits_value]. lia.
Qed.

(** The text of an [int]. *)
Definition int_text (k : Z) : bytes :=
  if decide (k < 0)%Z then "-"%char :: decimal (- k) else decimal k.

Lemma stream_int_text junk k : (- 2 ^ 31 ≤ k < 2 ^ 31)%Z → stream_int junk (int_text k) = k.
Proof.
  intros Hk. unfold int_text. case_decide as Hneg; [|apply stream_int_decimal; lia].
  destruct (decimal_spec (- k)) as (Hne & Hd & Hv); [lia|]. specialize (Hv []).
  rewrite app_nil_r in Hv. unfold stream_int.
  change (skip_spaces ("-"%char :: decimal (- k))) with ("-"%char :: decimal (- k)). cbv iota beta zeta.
  rewrite (bool_decide_true ("-"%char = "-"%char)) by done. cbn [orb].
  destruct (decimal (- k)) as [|c s] eqn:E; [done|].
  apply Forall_cons in Hd as [(d & Hd & ->) _]. destruct (digit_facts d Hd) as (Hdig & _).
  rewrite Hdig, Hv. cbn [digits_value]. lia.
Qed.

Lemma text_not_quit k : int_text k ≠ b_ "quit".
Proof.
  unfold int_text. case_decide as Hk; [done|]. intros E.
  destruct (decimal_spec k ltac:(lia)) as (_ & Hd & _). rewrite E in Hd.
  apply Forall_cons in Hd as [(d & Hd & Hc) _]. destruct (digit_facts d Hd) as (Hdig & _).
  rewrite <- Hc in Hdig. done.
Qed.

(** The key that the table looks up: its top bit is lost. *)
Definition found_as (k : Z) : Z := (k mod 2 ^ 31)%Z.

(** A found key finds its value and keeps the table's map. *)
Lemma findKey_spec t M k : represents t M →
  ∃ t', findKey (u32 k) t = Some (Some <$> M !! found_as k, t') ∧ represents t' M.
Proof.
  intros Hr. destruct (perform_spec (Find (u32 k)) t M Hr) as (t' & E & Hr'). cbn in E, Hr'.
  destruct (findKey (u32 k) t) as [[v t1]|]; cbn in E; [|done]. injection E as -> ->.
  exists t'. split; [|done]. do 4 f_equal. unfold found_as, norm, u32.
  change (2 ^ 32)%Z with (2 ^ 31 * 2)%Z. rewrite Z.rem_mul_r by lia.
  rewrite (Z.mul_comm (2 ^ 31)), Z_mod_plus_full. apply Zmod_mod.
Qed.

Section kv.
Context `{Uninit} {T : Type} `{O : !StatsOps T} {stats_ok : nat → T → Prop} `{L : !StatsLaws O stats_ok}.

Definition kv_ok (n : nat) (sv : service) : Prop :=
  represents (hash_table sv) table_map ∧ stats_ok n (stats sv).

Lemma two_digits_overflow v : (10 ≤ v < 100)%Z → sprintf_temp v = None.
Proof.
  intros Hv. unfold sprintf_temp. rewrite (decide_False (P := (v < 0)%Z)) by lia.
  assert (forallb (λ v, bool_decide (2 ≤ length (decimal v))) (seqZ 10 90) = true) as Hall by (vm_compute; reflexivity).
  rewrite forallb_forall in Hall. assert (v ∈ seqZ 10 90) as Hin by (apply elem_of_seqZ; lia).
  specialize (Hall v (proj1 (list_elem_of_In _ _) Hin)). apply bool_decide_eq_true in Hall.
  rewrite decide_False; [done|]. unfold sizeof_temp. lia.
Qed.

(** The response for key 0: its header promises two bytes, its body has one. *)
Lemma zero_response : ∃ buf, Buffer.write (MemPiece.of_cstr (decimal 0)) new = Some buf ∧
  wf buf ∧ isConsumed buf = false ∧
  queue_ops [] (value_response buf) =
    response_head (mkResponse (b_ "HTTP/1.1 200 OK") (concat (ok_headers 2)) []) (ok_headers 2) ++ decimal 0.
Proof.
  destruct new_wf as (Hw & Hwr & Hc).
  destruct (write_spec new (MemPiece.of_cstr (decimal 0)) Hw Hwr) as (buf & E & Hwb & _ & Hcb & Hr & _).
  exists buf. split; [exact E|]. split; [exact Hwb|].
  split; [apply isConsumed_false; rewrite Hr; reflexivity|].
  unfold value_response. change (Z.of_nat sizeof_temp) with 2%Z. rewrite ok_lines_bytes by lia.
  unfold queue_ops. cbn [fold_left queue_op]. rewrite put_data by no_nul. rewrite Hcb, Hc, put_data by no_nul.
  unfold response_head, header_block. cbn [statusLine]. rewrite !app_nil_l. by rewrite <- !app_assoc.
Qed.

End kv.

(** ** A concrete service *)

Section witness.
#[local] Instance kv_uninit : Uninit := NUL.
#[local] Instance kv_stats : StatsOps (list RequestStats.Counts) := request_stats 1000.

Definition key_request (k : Z) : Request := mkRequest (b_ "GET") (int_text k) (b_ "HTTP/1.1").
Definition kv_world : world := mkWorld 0 0 0.

End witness.
