(* ===== verification/ServiceManager.v ===== *)
(** * The service manager and the acceptors ([service_manager.hpp], [.cpp],
    [acceptor.hpp], [.cpp], [http_service.cpp], [kv_service.cpp])

    The composition of the server's machinery: the manager owns the IO manager
    of [IOManager.v] and the acceptors, and the tasks that the IO manager adds go
    to the workers of [ThreadPoolFast.v].  One thread is in [run()]; [stop()] is
    called from outside and by the tasks of the workers, which is how the server
    answers the request [quit].  A step is what a thread does under one mutex, or
    one step of the IO manager or of the pool. *)

From S2P Require Import Prelude ThreadPoolFast IOManager.

(** ** The acceptors' loop and the services' callback *)

Module Acceptor.

(** What [accept] gives: a socket; [EINTR] or [ECONNABORTED]; [EAGAIN]; another
    error.  [accept t] is its result the [t]-th time. *)
Inductive accept_result := Socket (fd : nat) | Interrupted | Again | Error.

(** The result, and the time of the next call. *)
Fixpoint socketAccept (fuel : nat) (accept : nat → accept_result) (t : nat) : option (accept_result * nat) :=
  match fuel with
  | 0 => None
  | S fuel =>
    match accept t with
    | Interrupted => socketAccept fuel accept (S t)
    | res => Some (res, S t)
    end
  end.

(** The argument of [accept_cb_]. *)
Definition fd_of (r : accept_result) : Z := match r with Socket fd => Z.of_nat fd | _ => -1 end.

(** [doAccept]: the arguments of the calls of [accept_cb_], until the socket has no
    more connections and [readWhenReady] is called. *)
Fixpoint doAccept (fuel : nat) (accept : nat → accept_result) (t : nat) : option (list Z) :=
  match fuel with
  | 0 => None
  | S fuel =>
    '(res, t) ← socketAccept fuel accept t;
    match res with
    | Again => Some []
    | _ => fds ← doAccept fuel accept t; Some (fd_of res :: fds)
    end
  end.

(** [acceptConnection] of the services: a new connection, or [stop()]. *)
Inductive accept_action := NewConnection (client_fd : Z) | StopService.

Definition acceptConnection (stopped : bool) (client_fd : Z) : option accept_action :=
  if stopped then None
  else if decide (client_fd < 0)%Z then Some StopService
  else Some (NewConnection client_fd).

(** A result for which the callback is called. *)
Definition reported (r : accept_result) : option Z :=
  match r with Interrupted | Again => None | r => Some (fd_of r) end.

Section accept.
Context (accept : nat → accept_result).

Lemma socketAccept_spec fuel : ∀ t r t',
  socketAccept fuel accept t = Some (r, t') → t < t' ∧ r ≠ Interrupted ∧ accept (t' - 1) = r.
Proof.
  induction fuel as [|fuel IH]; intros t r t' E; cbn in E; [done|].
  destruct (accept t) as [fd| | |] eqn:Ha; try (injection E as <- <-; cbn; rewrite Nat.sub_0_r; split_and!; [lia|done|done]).
  apply IH in E as (? & ? & ?). split_and!; [lia|done|done].
Qed.

Lemma doAccept_more fuel : ∀ t l, doAccept fuel accept t = Some l → doAccept (S fuel) accept t = Some l.
Proof.
  assert (∀ fuel t x, socketAccept fuel accept t = Some x → socketAccept (S fuel) accept t = Some x) as Hs.
  { clear fuel. induction fuel as [|fuel IH]; intros t x E; [done|].
    change (socketAccept (S (S fuel)) accept t) with
      (match accept t with Interrupted => socketAccept (S fuel) accept (S t) | res => Some (res, S t) end).
    cbn in E. destruct (accept t); try done. by apply IH. }
  induction fuel as [|fuel IH]; intros t l E; [done|]. cbn [doAccept] in E.
  destruct (socketAccept fuel accept t) as [[r t']|] eqn:Er; cbn [mbind option_bind] in E; [|done].
  apply Hs in Er. remember (S fuel) as f eqn:Ef. cbn [doAccept]. rewrite Er. cbn [mbind option_bind].
  destruct r; try done; (destruct (doAccept fuel accept t') as [l'|] eqn:E'; cbn [mbind option_bind] in E; [|done]);
    subst f; rewrite (IH _ _ E'); exact E.
Qed.

Lemma doAccept_ends k : ∀ fuel t, k + 2 ≤ fuel →
  (∀ j, t ≤ j < t + k → accept j ≠ Again) → accept (t + k) = Again →
  doAccept fuel accept t = Some (omap reported (map accept (seq t k))).
Proof.
  induction k as [|k IH]; intros [|[|fuel]] t Hf Hn Ha; try lia.
  - rewrite Nat.add_0_r in Ha. cbn. by rewrite Ha.
  - assert (doAccept (S fuel) accept (S t) = Some (omap reported (map accept (seq (S t) k)))) as Hrest.
    { apply IH; [lia|intros j Hj; apply Hn; lia|]. by rewrite <- Ha; f_equal; lia. }
    cbn [seq map omap list_omap]. remember (omap reported (map accept (seq (S t) k))) as l eqn:El. clear El.
    specialize (Hn t). destruct (accept t) as [fd| | |] eqn:Ht; [| |by destruct Hn; [lia|]|].
    1,3: remember (S fuel) as f eqn:Ef; cbn [doAccept]; subst f; cbn [socketAccept]; rewrite Ht;
      cbn [mbind option_bind]; rewrite Hrest; reflexivity.
    cbn [reported]. cbn [doAccept] in Hrest. remember (S fuel) as f eqn:Ef. cbn [doAccept]. subst f. cbn [socketAccept].
    rewrite Ht. destruct (socketAccept fuel accept (S t)) as [[r t']|]; cbn [mbind option_bind] in *; [|done].
    destruct r; try done; (destruct (doAccept fuel accept t') as [l'|] eqn:E'; cbn [mbind option_bind] in Hrest; [|done]);
      rewrite (doAccept_more _ _ _ E'); exact Hrest.
Qed.

Lemma doAccept_runs_on fuel : ∀ t, (∀ j, t ≤ j → accept j ≠ Again) → doAccept fuel accept t = None.
Proof.
  induction fuel as [|fuel IH]; intros t Hn; [done|]. cbn [doAccept].
  destruct (socketAccept fuel accept t) as [[r t']|] eqn:Er; cbn [mbind option_bind]; [|done].
  apply socketAccept_spec in Er as (Hlt & _ & Hr).
  assert (doAccept fuel accept t' = None) as -> by (apply IH; intros j Hj; apply Hn; lia).
  destruct r; try done. by apply Hn in Hr; [|lia].
Qed.

(** C38. The acceptor's loop ends exactly when [accept] says [EAGAIN]; until then the
    callback gets every socket, in order, and -1 for every other error.  If
    [EAGAIN] never comes, as for a listening socket that was closed, the loop
    does not end, even though the services, being stopped, ignore the calls. *)
Theorem accept_loop t :
  (∀ k fuel, k + 2 ≤ fuel → (∀ j, t ≤ j < t + k → accept j ≠ Again) → accept (t + k) = Again →
     doAccept fuel accept t = Some (omap reported (map accept (seq t k)))) ∧
  ((∀ j, t ≤ j → accept j ≠ Again) → ∀ fuel, doAccept fuel accept t = None) ∧
  ∀ fd, acceptConnection true fd = None.
Proof.
  split; [|split; [|done]].
  - intros k fuel. apply doAccept_ends.
  - intros Hn fuel. by apply doAccept_runs_on.
Qed.
End accept.
End Acceptor.

Module ServiceManager.

(** A call of [stop()]: before [m_stop_]; asleep in [cv_stopped_.wait] and woken
    from it; closing the [i]-th acceptor; in [io_manager_->stop()] before, in and
    after [worker_pool_->stop()]; before the last critical section; returned. *)
Inductive stop_pc := Entering | Asleep | Woken | Closing (i : nat) | IoStopping | PoolStopping
  | Freeing | Finishing | Finished.

(** [run()]: not called; calling [startAccept] of the [i]-th acceptor; in
    [poll()]; at the test of [stopped_], asleep, returned; or it used the null
    pointer that a closed acceptor holds. *)
Inductive run_pc := NotRunning | Starting (i : nat) | Polling | Testing | RunAsleep | RunReturned
  | NullDescriptor.

#[global] Instance stop_pc_eq_dec : EqDecision stop_pc.
Proof. solve_decision. Defined.

(** [acceptors_] gives the [io_descr_] of each acceptor, an address or [NULL].
    [due] are the tasks that the polling thread has taken and not yet given to
    the pool; a call of [stop()] is made by a worker's task or from outside. *)
Record state := mkState {
  io : IOManager.state;
  pool : ThreadPoolFast.state;
  acceptors_ : list (option nat);
  stop_requested_ : bool;
  stopped_ : bool;
  runner : run_pc;
  due : list nat;
  calls : list (option nat * stop_pc)
}.

(** The constructor. *)
Definition make (num_workers : nat) : state :=
  mkState IOManager.init (ThreadPoolFast.make num_workers) [] false false NotRunning [] [].

Definition set_io (i : IOManager.state) (s : state) : state :=
  mkState i (pool s) (acceptors_ s) (stop_requested_ s) (stopped_ s) (runner s) (due s) (calls s).
Definition set_pool (p : ThreadPoolFast.state) (s : state) : state :=
  mkState (io s) p (acceptors_ s) (stop_requested_ s) (stopped_ s) (runner s) (due s) (calls s).
Definition set_acceptors (l : list (option nat)) (s : state) : state :=
  mkState (io s) (pool s) l (stop_requested_ s) (stopped_ s) (runner s) (due s) (calls s).
Definition set_runner (p : run_pc) (s : state) : state :=
  mkState (io s) (pool s) (acceptors_ s) (stop_requested_ s) (stopped_ s) p (due s) (calls s).
Definition set_due (l : list nat) (s : state) : state :=
  mkState (io s) (pool s) (acceptors_ s) (stop_requested_ s) (stopped_ s) (runner s) l (calls s).
Definition set_call (i : nat) (c : option nat) (p : stop_pc) (s : state) : state :=
  mkState (io s) (pool s) (acceptors_ s) (stop_requested_ s) (stopped_ s) (runner s) (due s)
    (<[i := (c, p)]> (calls s)).

(** The tasks that a step of the IO manager adds. *)
Definition new_tasks (before after : IOManager.state) : list nat :=
  drop (length (IOManager.added before)) (IOManager.added after).

(** A user's step of the IO manager: what it adds goes to the pool. *)
Definition io_step (l : IOManager.label) (s : state) : option state :=
  i ← IOManager.step l (io s);
  p ← exec ThreadPoolFast.step (map ThreadPoolFast.Add (new_tasks (io s) i)) (pool s);
  Some (set_pool p (set_io i s)).

(** *** Acceptors *)

(** [registerAcceptor]; the acceptor's constructor makes a descriptor, at the
    address [a], of its listening socket. *)
Definition registerAcceptor (a : nat) (listen_fd_ : Z) (doAccept noOp : nat) (s : state)
    : option state :=
  i ← IOManager.newDescriptor a listen_fd_ (Some doAccept) (Some noOp) (io s);
  Some (set_acceptors (acceptors_ s ++ [Some a]) (set_io i s)).

(** [startAccept] of the [k]-th, called by [run()]: [io_descr_->readWhenReady()]. *)
Definition startAccept (k : nat) (o : option nat) (s : state) : option state :=
  match o with
  | Some a => s ← io_step (IOManager.ReadWhenReady a) s; Some (set_runner (Starting (S k)) s)
  | None => Some (set_runner NullDescriptor s)
  end.

(** [Acceptor::close] of the [k]-th: closes the socket and gives up the
    descriptor, if there is one. *)
Definition close (k : nat) (o : option nat) (s : state) : option state :=
  match o with
  | Some a =>
    i ← IOManager.step (IOManager.Close a) (io s);
    i ← IOManager.step (IOManager.Delete a) i;
    Some (set_acceptors (<[k := None]> (acceptors_ s)) (set_io i s))
  | None => Some s
  end.

(** *** [run()] *)

Definition run_step (evs : list (nat * IOManager.epoll_event)) (now : Z) (s : state) : option state :=
  match runner s with
  | NotRunning => Some (set_runner (Starting 0) s)
  | Starting k =>
    match acceptors_ s !! k with
    | Some o => startAccept k o s
    | None => Some (set_runner Polling s)
    end
  | Polling =>
    match due s with
    | task :: l => p ← ThreadPoolFast.addTask (Some task) (pool s); Some (set_due l (set_pool p s))
    | [] =>
      match IOManager.poller (io s) with
      | IOManager.Returned => Some (set_runner Testing s)
      | _ =>
        i ← IOManager.step (IOManager.Poll evs now) (io s);
        Some (set_due (new_tasks (io s) i) (set_io i s))
      end
    end
  | Testing => Some (set_runner (if stopped_ s then RunReturned else RunAsleep) s)
  | RunAsleep | RunReturned | NullDescriptor => None
  end.

(** *** [stop()] *)

(** [cv_stopped_.signalAll()]. *)
Definition wake (p : stop_pc) : stop_pc := match p with Asleep => Woken | p => p end.
Definition wake_runner (p : run_pc) : run_pc := match p with RunAsleep => Testing | p => p end.

Definition stop_step (i : nat) (s : state) : option state :=
  '(c, p) ← calls s !! i;
  match p with
  | Entering =>
    if stop_requested_ s then Some (set_call i c (if stopped_ s then Finished else Asleep) s)
    else Some (set_call i c (Closing 0)
                 (mkState (io s) (pool s) (acceptors_ s) true (stopped_ s) (runner s) (due s) (calls s)))
  | Asleep => None
  | Woken => Some (set_call i c (if stopped_ s then Finished else Asleep) s)
  | Closing k =>
    match acceptors_ s !! k with
    | Some o => s ← close k o s; Some (set_call i c (Closing (S k)) s)
    | None => Some (set_call i c IoStopping s)
    end
  | IoStopping =>
    match IOManager.stopper (io s) with
    | IOManager.NotStopping | IOManager.WaitingForPoll =>
      j ← IOManager.stop_step (io s); Some (set_io j s)
    | IOManager.StoppingWorkers =>
      q ← ThreadPoolFast.stop c (pool s); Some (set_call i c PoolStopping (set_pool q s))
    | _ => Some (set_call i c Finishing s)
    end
  | PoolStopping =>
    match ThreadPoolFast.stopping (pool s) with
    | ThreadPoolFast.Returned _ =>
      j ← IOManager.stop_step (io s); Some (set_call i c Freeing (set_io j s))
    | _ => q ← ThreadPoolFast.stop_step (pool s); Some (set_pool q s)
    end
  | Freeing => j ← IOManager.stop_step (io s); Some (set_call i c Finishing (set_io j s))
  | Finishing =>
    Some (set_call i c Finished
            (mkState (io s) (pool s) (acceptors_ s) (stop_requested_ s) true (wake_runner (runner s))
               (due s) (map (λ x, (x.1, wake x.2)) (calls s))))
  | Finished => None
  end.

Definition stopped (s : state) : bool := stop_requested_ s.

(** *** All steps *)

(** The task of worker [w] is inside of [stop()]. *)
Definition calling (w : nat) (s : state) : bool :=
  existsb (λ x, bool_decide (x.1 = Some w ∧ x.2 ≠ Finished)) (calls s).

Definition runs_task (w : nat) (s : state) : bool :=
  match ThreadPoolFast.all_workers (pool s) !! w with
  | Some x => match ThreadPoolFast.at_ x with ThreadPoolFast.Running _ => true | _ => false end
  | None => false
  end.

(** [stop()] is called by [c], which is not inside of it. *)
Definition call (c : option nat) (s : state) : option state :=
  let ok := match c with Some w => runs_task w s && negb (calling w s) | None => true end in
  if (ok : bool)
  then Some (mkState (io s) (pool s) (acceptors_ s) (stop_requested_ s) (stopped_ s) (runner s) (due s)
               (calls s ++ [(c, Entering)]))
  else None.

(** What users of the IO manager do: poll and stop are the manager's, and only
    the acceptors close their descriptors. *)
Definition by_user (l : IOManager.label) (s : state) : bool :=
  match l with
  | IOManager.Poll _ _ | IOManager.Stop => false
  | IOManager.Close a | IOManager.Delete a => bool_decide (Some a ∉ acceptors_ s)
  | _ => true
  end.

Inductive label :=
  | Register (a : nat) (listen_fd : Z) (doAccept noOp : nat)
  | Use (l : IOManager.label)
  | Work (w : nat) | Spurious (w : nat)
  | Call (c : option nat) | StopGo (i : nat) | SpuriousStop (i : nat)
  | Run (evs : list (nat * IOManager.epoll_event)) (now : Z) | SpuriousRun.

(** Acceptors are registered before [run()] and [stop()]. *)
Definition step (l : label) (s : state) : option state :=
  match l with
  | Register a fd rcb wcb =>
    match runner s, stop_requested_ s with
    | NotRunning, false => registerAcceptor a fd rcb wcb s
    | _, _ => None
    end
  | Use l => if by_user l s then io_step l s else None
  | Work w =>
    if calling w s then None
    else p ← ThreadPoolFast.step (ThreadPoolFast.Go w) (pool s); Some (set_pool p s)
  | Spurious w => p ← ThreadPoolFast.step (ThreadPoolFast.Spurious w) (pool s); Some (set_pool p s)
  | Call c => call c s
  | StopGo i => stop_step i s
  | SpuriousStop i =>
    '(c, p) ← calls s !! i;
    match p with Asleep => Some (set_call i c Woken s) | _ => None end
  | Run evs now => run_step evs now s
  | SpuriousRun => match runner s with RunAsleep => Some (set_runner Testing s) | _ => None end
  end.

(** ** What the steps of the parts leave alone *)

(** *** The pool *)

Definition runs (p : ThreadPoolFast.state) (w : nat) : Prop :=
  ∃ x t, ThreadPoolFast.all_workers p !! w = Some x ∧ ThreadPoolFast.at_ x = ThreadPoolFast.Running t.

Lemma runs_task_spec w s : runs_task w s = true ↔ runs (pool s) w.
Proof.
  unfold runs_task, runs. destruct (_ !! w) as [x|]; split; try done.
  - destruct (ThreadPoolFast.at_ x) as [| | |t| | |] eqn:E; try done. intros _. by exists x, t.
  - intros (y & t & [= <-] & ->). done.
  - by intros (y & t & ? & _).
Qed.

Lemma runs_insert p p' w u x y :
  runs p w → ThreadPoolFast.all_workers p !! u = Some x →
  ThreadPoolFast.all_workers p' = <[u := y]> (ThreadPoolFast.all_workers p) →
  (u = w → ∀ t, ThreadPoolFast.at_ x = ThreadPoolFast.Running t → ThreadPoolFast.at_ y = ThreadPoolFast.Running t) →
  runs p' w.
Proof.
  intros (z & t & Hz & Ht) Hu E Hy. unfold runs. rewrite E. destruct (decide (u = w)) as [->|Hne].
  - rewrite list_lookup_insert_eq by (by eapply lookup_lt_Some). simplify_eq. eauto.
  - rewrite list_lookup_insert_ne by done. eauto.
Qed.

Lemma assign_kept u t p p' :
  ThreadPoolFast.assignTask u t p = Some p' →
  ThreadPoolFast.stopping p' = ThreadPoolFast.stopping p ∧ ∀ w, runs p w → runs p' w.
Proof.
  unfold ThreadPoolFast.assignTask. destruct (_ !! u) as [x|] eqn:Hu; cbn; [|done]. intros [= <-].
  split; [done|]. intros w Hw. eapply runs_insert; [exact Hw|exact Hu|done|].
  intros _ t' Ht. cbn. by rewrite Ht.
Qed.

Lemma add_kept t p p' :
  ThreadPoolFast.addTask t p = Some p' →
  ThreadPoolFast.stopping p' = ThreadPoolFast.stopping p ∧ ∀ w, runs p w → runs p' w.
Proof.
  unfold ThreadPoolFast.addTask. cbn. destruct (ThreadPoolFast.workers_ p) as [|u us].
  - by intros [= <-].
  - intros [? Hr]%assign_kept. done.
Qed.

Lemma loop_kept u p p' :
  ThreadPoolFast.workerLoop_step u p = Some p' →
  ThreadPoolFast.stopping p' = ThreadPoolFast.stopping p ∧ ∀ w, w ≠ u → runs p w → runs p' w.
Proof.
  unfold ThreadPoolFast.workerLoop_step. destruct (_ !! u) as [x|] eqn:Hu; cbn [mbind option_bind]; [|done].
  assert (∀ y w, w ≠ u → runs p w → runs (ThreadPoolFast.set_worker u y p) w) as Hset.
  { intros y w Hne Hw. by eapply (runs_insert p _ w u x y). }
  destruct (ThreadPoolFast.at_ x) as [| | |t| | |]; try done.
  - intros [= <-]. split; [done|]. intros w. apply Hset.
  - intros [= <-]. destruct (ThreadPoolFast.task_ x); (split; [done|]); intros w; apply Hset.
  - destruct (ThreadPoolFast.in_stop u p); [done|]. intros [= <-]. split; [done|]. intros w. apply Hset.
  - unfold ThreadPoolFast.queueWorker. destruct (ThreadPoolFast.dispatch_queue_ _) as [|task q].
    + intros [= <-]. split; [done|]. intros w. apply Hset.
    + destruct (ThreadPoolFast.assignTask u task _) as [p1|] eqn:E; cbn [mbind option_bind]; [|done].
      apply assign_kept in E as [Es Hr]. intros [= <-]. split; [done|]. intros w Hne Hw. by apply Hr, Hset.
Qed.

Lemma spurious_kept u p p' :
  ThreadPoolFast.step (ThreadPoolFast.Spurious u) p = Some p' →
  ThreadPoolFast.stopping p' = ThreadPoolFast.stopping p ∧ ∀ w, runs p w → runs p' w.
Proof.
  cbn. destruct (_ !! u) as [x|] eqn:Hu; cbn [mbind option_bind]; [|done].
  destruct (ThreadPoolFast.at_ x) eqn:Ha; try done. intros [= <-]. split; [done|]. intros w Hw.
  eapply runs_insert; [exact Hw|exact Hu|done|]. intros _ t Ht. congruence.
Qed.

Lemma adds_kept ts : ∀ p p',
  exec ThreadPoolFast.step (map ThreadPoolFast.Add ts) p = Some p' → ThreadPoolFast.Inv p →
  ThreadPoolFast.Inv p' ∧ ThreadPoolFast.stopping p' = ThreadPoolFast.stopping p ∧
  ∀ w, runs p w → runs p' w.
Proof.
  induction ts as [|t ts IH]; intros p p' E Hi; cbn [map exec] in E; [by injection E as ->|].
  destruct (ThreadPoolFast.step _ p) as [p1|] eqn:E1; cbn [mbind option_bind] in E; [|done].
  pose proof (ThreadPoolFast.Inv_pool_fast _ _ _ Hi E1) as Hi1. cbn in E1. apply add_kept in E1 as [Es1 Hr1].
  apply IH in E as (? & Es & Hr); [|done]. split_and!; [done|congruence|auto].
Qed.

Lemma adds_total ts : ∀ p, ThreadPoolFast.Inv p →
  is_Some (exec ThreadPoolFast.step (map ThreadPoolFast.Add ts) p).
Proof.
  induction ts as [|t ts IH]; intros p Hi; cbn [map exec]; [by eexists|].
  destruct (ThreadPoolFast.addTask_spec (Some t) p (ThreadPoolFast.i_slots _ Hi) (ThreadPoolFast.i_tasks _ Hi))
    as (p1 & E & _). cbn [ThreadPoolFast.step]. rewrite E. cbn [mbind option_bind].
  apply IH. by apply (ThreadPoolFast.Inv_add_fast t p p1).
Qed.

(** Who called [stop()] of the pool. *)
Definition caller_of (st : ThreadPoolFast.stop_state) : option (option nat) :=
  match st with
  | ThreadPoolFast.NotCalled => None
  | ThreadPoolFast.Adding c _ | ThreadPoolFast.Joining c _ | ThreadPoolFast.Returned c => Some c
  end.

Lemma pool_stop_kept p p' :
  ThreadPoolFast.stop_step p = Some p' →
  caller_of (ThreadPoolFast.stopping p') = caller_of (ThreadPoolFast.stopping p) ∧ ∀ w, runs p w → runs p' w.
Proof.
  unfold ThreadPoolFast.stop_step. destruct (ThreadPoolFast.stopping p) as [|c [|k]|c i|c] eqn:Hst; try done.
  - by intros [= <-].
  - intros [Es Hr]%add_kept. by rewrite Es.
  - destruct (_ !! i) as [x|] eqn:Hx.
    + case_decide; [by intros [= <-]|]. destruct (ThreadPoolFast.gone x); [by intros [= <-]|done].
    + destruct c as [u|]; [|by intros [= <-]]. cbn.
      destruct (ThreadPoolFast.all_workers p !! u) as [x|] eqn:Hu; cbn; [|done]. intros [= <-]. split; [done|].
      intros w Hw. by eapply (runs_insert p _ w u x).
Qed.

(** *** The IO manager *)

Lemma in_use_spec a i : IOManager.in_use a i = true ↔
  a ∈ dom (IOManager.descriptors i) ∧ a ∉ IOManager.deleted_desc_ i.
Proof. unfold IOManager.in_use. rewrite andb_true_iff, negb_true_iff, bool_decide_eq_true, bool_decide_eq_false. done. Qed.

(** Steps that keep the descriptors' addresses, or free those given up. *)
Lemma in_use_kept a i i' :
  dom (IOManager.descriptors i) ∖ list_to_set (IOManager.deleted_desc_ i) ⊆ dom (IOManager.descriptors i') →
  (∀ b, b ∈ IOManager.deleted_desc_ i' → b ∈ IOManager.deleted_desc_ i) →
  IOManager.in_use a i = true → IOManager.in_use a i' = true.
Proof. rewrite !in_use_spec. intros Hd Hl [H1 H2]. split; [set_solver|]. intros H3. by apply H2, Hl. Qed.

Lemma on_descriptor_kept f b i i' :
  IOManager.on_descriptor f b i = Some i' →
  IOManager.stopper i' = IOManager.stopper i ∧ IOManager.poller i' = IOManager.poller i ∧
  ∀ a, IOManager.in_use a i = true → IOManager.in_use a i' = true.
Proof.
  intros E. apply IOManager.on_descriptor_spec in E as (Ed & _ & El & _ & Ep & Es & _).
  split; [exact Es|]. split; [exact Ep|]. intros a. apply in_use_kept; rewrite ?Ed, ?El; set_solver.
Qed.

Lemma collect_kept a i : IOManager.in_use a i = true → IOManager.in_use a (IOManager.collect i) = true.
Proof.
  apply in_use_kept; cbn; [by rewrite IOManager.free_dom|]. intros b Hb. by apply not_elem_of_nil in Hb.
Qed.

Lemma poll_kept evs now i i' :
  IOManager.poll_step evs now i = Some i' →
  IOManager.stopper i' = IOManager.stopper i ∧
  ∀ a, IOManager.in_use a i = true → IOManager.in_use a i' = true.
Proof.
  unfold IOManager.poll_step. destruct (IOManager.poller i) as [| |evs'|[|[b ev] evs']| |]; try done.
  - by intros [= <-].
  - destruct (IOManager.stopped_ i); by intros [= <-].
  - destruct (IOManager.run_timers _ _). by intros [= <-].
  - by intros [= <-].
  - destruct (IOManager.dispatch b ev i) as [i1|] eqn:E; cbn [mbind option_bind]; [|done]. intros [= <-].
    apply IOManager.dispatch_spec in E as (Ed & _ & El & _ & _ & Es & _). split; [exact Es|]. intros a.
    apply in_use_kept; cbn; rewrite ?Ed, ?El; set_solver.
  - intros [= <-]. split; [done|]. intros a. apply (collect_kept a i).
Qed.

Lemma io_stop_kept i i' :
  IOManager.stop_step i = Some i' →
  IOManager.poller i' = IOManager.poller i ∧
  ∀ a, IOManager.in_use a i = true → IOManager.in_use a i' = true.
Proof.
  unfold IOManager.stop_step. destruct (IOManager.stopper i); try done; try (destruct (IOManager.polling_ i); try done);
    intros [= <-]; (split; [done|]); first [done|intros a; apply (collect_kept a i)].
Qed.

(** A step that is not the poller's or [stop()]'s. *)
Lemma use_kept l i i' :
  IOManager.step l i = Some i' → l ≠ IOManager.Stop → (∀ evs now, l ≠ IOManager.Poll evs now) →
  IOManager.stopper i' = IOManager.stopper i ∧ IOManager.poller i' = IOManager.poller i ∧
  ∀ a, l ≠ IOManager.Delete a → IOManager.in_use a i = true → IOManager.in_use a i' = true.
Proof.
  intros E H1 H2. destruct l as [b fd rcb wcb|b|b|b rcb wcb|b|b|ts task|task|evs now|]; cbn in E; try done;
    try (destruct (IOManager.in_use b i); [|done]).
  - unfold IOManager.newDescriptor in E. destruct (_ !! b) eqn:Hb; [done|]. injection E as <-. split_and!; try done.
    intros a _. apply in_use_kept; cbn; [rewrite dom_insert_L; set_solver|done].
  - apply on_descriptor_kept in E as (? & ? & Hk). split_and!; [done|done|]. intros a _. apply Hk.
  - apply on_descriptor_kept in E as (? & ? & Hk). split_and!; [done|done|]. intros a _. apply Hk.
  - apply on_descriptor_kept in E as (? & ? & Hk). split_and!; [done|done|]. intros a _. apply Hk.
  - by injection E as <-.
  - case_match; [|done]. injection E as <-. split_and!; [done|done|]. intros a Hne. rewrite !in_use_spec. cbn.
    rewrite elem_of_cons. naive_solver.
  - by injection E as <-.
  - by injection E as <-.
  - by destruct (H2 evs now).
Qed.

(** An acceptor's descriptor can be closed and given up. *)
Lemma close_steps a i : IOManager.in_use a i = true →
  ∃ i1 i', IOManager.step (IOManager.Close a) i = Some i1 ∧ IOManager.step (IOManager.Delete a) i1 = Some i' ∧
    IOManager.stopper i' = IOManager.stopper i ∧ IOManager.poller i' = IOManager.poller i ∧
    ∀ b, b ≠ a → IOManager.in_use b i = true → IOManager.in_use b i' = true.
Proof.
  intros Hu. cbn. rewrite Hu. eexists _, _. split; [reflexivity|].
  assert (IOManager.in_use a (IOManager.close_fd a i) = true) as -> by exact Hu.
  rewrite bool_decide_true by (cbn; set_solver). split; [reflexivity|]. split_and!; [done|done|].
  intros b Hne. rewrite !in_use_spec. cbn. rewrite elem_of_cons. naive_solver.
Qed.

(** ** The invariant *)

(** The call that goes through the stopping, past its first lock. *)
Definition active (p : stop_pc) : bool :=
  match p with Closing _ | IoStopping | PoolStopping | Freeing | Finishing => true | _ => false end.

Definition all_closed (s : state) : Prop := ∀ k o, acceptors_ s !! k = Some o → o = None.

(** How far the parts are when the call by [c] is at [p]. *)
Definition phase (c : option nat) (p : stop_pc) (s : state) : Prop :=
  match p with
  | Closing k => (∀ j o, j < k → acceptors_ s !! j = Some o → o = None) ∧
      IOManager.stopper (io s) = IOManager.NotStopping ∧
      ThreadPoolFast.stopping (pool s) = ThreadPoolFast.NotCalled
  | IoStopping => all_closed s ∧ ThreadPoolFast.stopping (pool s) = ThreadPoolFast.NotCalled ∧
      (IOManager.stopper (io s) = IOManager.NotStopping ∨ IOManager.stopper (io s) = IOManager.WaitingForPoll ∨
       IOManager.stopper (io s) = IOManager.StoppingWorkers)
  | PoolStopping => all_closed s ∧ caller_of (ThreadPoolFast.stopping (pool s)) = Some c ∧
      IOManager.stopper (io s) = IOManager.StoppingWorkers
  | Freeing => all_closed s ∧ ThreadPoolFast.stopping (pool s) = ThreadPoolFast.Returned c ∧
      IOManager.stopper (io s) = IOManager.Freeing
  | Finishing => all_closed s ∧ ThreadPoolFast.stopping (pool s) = ThreadPoolFast.Returned c ∧
      IOManager.stopper (io s) = IOManager.Stopped
  | _ => True
  end.

(** The parts, and what the threads have of them. *)
Record machine (s : state) : Prop := {
  m_io : IOManager.Inv (io s);
  m_pool : ThreadPoolFast.Inv (pool s);
  m_use : ∀ k a, acceptors_ s !! k = Some (Some a) → IOManager.in_use a (io s) = true;
  m_distinct : ∀ k k' a, acceptors_ s !! k = Some (Some a) → acceptors_ s !! k' = Some (Some a) → k = k';
  m_run : match runner s with
          | NotRunning | Starting _ | NullDescriptor => IOManager.poller (io s) = IOManager.NotPolling
          | Polling => True
          | _ => IOManager.poller (io s) = IOManager.Returned
          end;
  m_due : due s ≠ [] → runner s = Polling ∧ IOManager.inside (IOManager.poller (io s)) = true
}.

(** A worker that called [stop()] runs its task until it returns. *)
Record busy (s : state) : Prop := {
  b_runs : ∀ i w p, calls s !! i = Some (Some w, p) → p ≠ Finished → runs (pool s) w;
  b_once : ∀ i j w p q, calls s !! i = Some (Some w, p) → calls s !! j = Some (Some w, q) →
    p ≠ Finished → q ≠ Finished → i = j
}.

Record protocol (s : state) : Prop := {
  p_phase : ∀ i c p, calls s !! i = Some (c, p) → active p = true →
    stop_requested_ s = true ∧ stopped_ s = false ∧ phase c p s;
  p_one : ∀ i j c c' p p', calls s !! i = Some (c, p) → calls s !! j = Some (c', p') →
    active p = true → active p' = true → i = j;
  p_flags : match stop_requested_ s, stopped_ s with
    | false, b => b = false ∧ IOManager.stopper (io s) = IOManager.NotStopping ∧
        ThreadPoolFast.stopping (pool s) = ThreadPoolFast.NotCalled ∧ ∀ i c p, calls s !! i = Some (c, p) → p = Entering
    | true, false => ∃ i c p, calls s !! i = Some (c, p) ∧ active p = true
    | true, true => all_closed s ∧ IOManager.stopper (io s) = IOManager.Stopped ∧
        ∃ c, ThreadPoolFast.stopping (pool s) = ThreadPoolFast.Returned c
    end;
  p_back : (∃ i c, calls s !! i = Some (c, Finished)) ∨ runner s = RunReturned → stopped_ s = true
}.

Record Inv (s : state) : Prop := { i_machine : machine s; i_busy : busy s; i_protocol : protocol s }.

(** *** Steps that leave the protocol alone *)

Lemma calling_spec w s : calling w s = true ↔ ∃ i p, calls s !! i = Some (Some w, p) ∧ p ≠ Finished.
Proof.
  unfold calling. rewrite existsb_exists. split.
  - intros ([c p] & Hin & Hb). apply bool_decide_eq_true in Hb as [Hc Hp]. cbn in Hc, Hp. subst c.
    apply list_elem_of_In, list_elem_of_lookup in Hin as [i Hi]. eauto.
  - intros (i & p & Hi & Hp). exists (Some w, p). split; [|by apply bool_decide_eq_true].
    by apply list_elem_of_In, list_elem_of_lookup_2 with i.
Qed.

Lemma busy_frame s s' :
  busy s → calls s' = calls s → (∀ w, calling w s = true → runs (pool s) w → runs (pool s') w) → busy s'.
Proof.
  intros [H1 H2] Ec Hr. split; rewrite Ec; [|exact H2]. intros i w p Hi Hp. apply Hr; [|by eapply H1].
  apply calling_spec. eauto.
Qed.

Lemma protocol_frame s s' :
  protocol s → acceptors_ s' = acceptors_ s → stop_requested_ s' = stop_requested_ s →
  stopped_ s' = stopped_ s → calls s' = calls s →
  IOManager.stopper (io s') = IOManager.stopper (io s) →
  ThreadPoolFast.stopping (pool s') = ThreadPoolFast.stopping (pool s) →
  (runner s' = RunReturned → runner s = RunReturned ∨ stopped_ s = true) → protocol s'.
Proof.
  intros [H1 H2 H3 H4] Ea Er Es Ec Eio Epo Hrun.
  assert (∀ c p, phase c p s' ↔ phase c p s) as Hph.
  { intros c p. unfold phase, all_closed. by rewrite Ea, Eio, Epo. }
  split; rewrite ?Er, ?Es, ?Ec; [|exact H2| |].
  - intros i c p Hi Hp. rewrite Hph. by eapply H1.
  - unfold all_closed in *. rewrite Ea, Eio, Epo. exact H3.
  - intros [Hf|Hf]; [by apply H4; left|]. destruct (Hrun Hf); [by apply H4; right|done].
Qed.

Lemma io_step_spec l s s' :
  io_step l s = Some s' → machine s →
  ∃ i p, s' = set_pool p (set_io i s) ∧ IOManager.step l (io s) = Some i ∧ IOManager.Inv i ∧
    ThreadPoolFast.Inv p ∧ ThreadPoolFast.stopping p = ThreadPoolFast.stopping (pool s) ∧
    ∀ w, runs (pool s) w → runs p w.
Proof.
  intros E Hm. unfold io_step in E. destruct (IOManager.step l (io s)) as [i|] eqn:Ei; cbn [mbind option_bind] in E; [|done].
  destruct (exec _ _ _) as [p|] eqn:Ep; cbn [mbind option_bind] in E; [|done]. injection E as <-.
  destruct (adds_kept _ _ _ Ep (m_pool _ Hm)) as (Hi & Hs & Hr).
  exists i, p. split_and!; try done. by eapply IOManager.Inv_io; [apply m_io|].
Qed.

(** A use of the IO manager that does not give up an acceptor's descriptor. *)
Lemma Inv_use_manager l s s' :
  Inv s → io_step l s = Some s' → l ≠ IOManager.Stop → (∀ evs now, l ≠ IOManager.Poll evs now) →
  (∀ a, l = IOManager.Delete a → Some a ∉ acceptors_ s) → Inv s'.
Proof.
  intros [Hm Hb Hp] E H1 H2 H3. destruct (io_step_spec _ _ _ E Hm) as (i & p & -> & Ei & Hi & Hpi & Es & Hr).
  destruct (use_kept l (io s) i Ei H1 H2) as (Est & Epo & Hu). split.
  - destruct Hm as [M1 M2 M3 M4 M5 M6]. split; cbn; rewrite ?Epo; try done. intros k a Ha. apply Hu; [|by eapply M3].
    intros ->. apply (H3 a eq_refl). by eapply list_elem_of_lookup_2.
  - apply (busy_frame s); [done|done|]. intros w _. apply Hr.
  - apply (protocol_frame s); try done. by left.
Qed.

Lemma Inv_register a fd rcb wcb s s' :
  Inv s → runner s = NotRunning → stop_requested_ s = false → registerAcceptor a fd rcb wcb s = Some s' → Inv s'.
Proof.
  intros [Hm Hb Hp] Hrun Hreq E. unfold registerAcceptor in E.
  destruct (IOManager.newDescriptor a fd (Some rcb) (Some wcb) (io s)) as [i|] eqn:Ei; cbn [mbind option_bind] in E; [|done].
  injection E as <-. pose proof (use_kept (IOManager.New a fd (Some rcb) (Some wcb)) (io s) i Ei) as (Est & Epo & Hu);
    [done|done|]. pose proof (IOManager.Inv_io (IOManager.New a fd (Some rcb) (Some wcb)) _ _ (m_io _ Hm) Ei) as Hi.
  assert ((a ∉ dom (IOManager.descriptors (io s))) ∧ IOManager.in_use a i = true) as [Hfresh Ha].
  { unfold IOManager.newDescriptor in Ei. destruct (_ !! a) eqn:Hd; [done|]. injection Ei as <-.
    apply not_elem_of_dom in Hd. split; [done|]. apply in_use_spec. cbn. split; [set_solver|].
    intros Hin. apply Hd. by apply (IOManager.i_given_up _ (m_io _ Hm)). }
  assert (∀ k, acceptors_ s !! k ≠ Some (Some a)) as Hne.
  { intros k Hk. apply (m_use _ Hm) in Hk. by apply in_use_spec in Hk as [? _]. }
  split; [|by apply (busy_frame s)|].
  - destruct Hm as [M1 M2 M3 M4 M5 M6]. split; cbn; rewrite ?Epo; try done.
    + intros k b [Hk|[_ Hk]]%lookup_app_Some; [by eapply Hu, M3|].
      apply list_lookup_singleton_Some in Hk as [_ [= <-]]. done.
    + intros k k' b [Hk|[Hl Hk]]%lookup_app_Some [Hk'|[Hl' Hk']]%lookup_app_Some; [by eapply M4|..].
      * apply list_lookup_singleton_Some in Hk' as [_ [= <-]]. by destruct (Hne k).
      * apply list_lookup_singleton_Some in Hk as [_ [= <-]]. by destruct (Hne k').
      * apply list_lookup_singleton_Some in Hk as [? _]. apply list_lookup_singleton_Some in Hk' as [? _]. lia.
  - pose proof (p_flags _ Hp) as Hf. destruct Hp as [H1 H2 H3 H4]. rewrite Hreq in Hf.
    destruct Hf as (Hst & Hs1 & Hs2 & Hc). split; cbn; rewrite ?Hreq, ?Est.
    + intros j c p Hj Ha'. by rewrite (Hc _ _ _ Hj) in Ha'.
    + exact H2.
    + done.
    + exact H4.
Qed.

(** *** The polling thread *)

(** The runner moves on; everything else stays. *)
Lemma Inv_runner s p :
  Inv s → due s = [] → (p = RunReturned → stopped_ s = true) →
  match p with
  | NotRunning | Starting _ | NullDescriptor => IOManager.poller (io s) = IOManager.NotPolling
  | Polling => True
  | _ => IOManager.poller (io s) = IOManager.Returned
  end → Inv (set_runner p s).
Proof.
  intros [[M1 M2 M3 M4 M5 M6] Hb Hp] Hd Hret Hpo. split.
  - by split.
  - by apply (busy_frame s).
  - apply (protocol_frame s); try done. intros E. right. by apply Hret.
Qed.

Lemma not_polling_no_due s : machine s → runner s ≠ Polling → due s = [].
Proof. intros Hm Hr. destruct (due s) eqn:E; [done|]. destruct (m_due _ Hm) as [? _]; [by rewrite E|done]. Qed.

Lemma inside_adds evs now i i' :
  IOManager.poll_step evs now i = Some i' → new_tasks i i' ≠ [] → IOManager.inside (IOManager.poller i') = true.
Proof.
  unfold new_tasks, IOManager.poll_step. destruct (IOManager.poller i) as [| |evs'|[|[b ev] evs']| |]; try done.
  - intros [= <-] Hn. cbn in Hn. by rewrite drop_all in Hn.
  - destruct (IOManager.stopped_ i); intros [= <-] Hn; cbn in Hn; by rewrite drop_all in Hn.
  - destruct (IOManager.run_timers _ _). by intros [= <-].
  - by intros [= <-].
  - destruct (IOManager.dispatch _ _ _); cbn [mbind option_bind]; [|done]. by intros [= <-].
  - intros [= <-] Hn. cbn in Hn. by rewrite drop_all in Hn.
Qed.

Lemma Inv_poll_turn evs now s i :
  Inv s → runner s = Polling → due s = [] →
  IOManager.step (IOManager.Poll evs now) (io s) = Some i →
  Inv (set_due (new_tasks (io s) i) (set_io i s)).
Proof.
  intros [[M1 M2 M3 M4 M5 M6] Hb Hp] Hr Hd E.
  pose proof (IOManager.Inv_io _ _ _ M1 E) as Hi. cbn in E. case_match; [|done].
  destruct (poll_kept _ _ _ _ E) as [Es Hu]. split.
  - split; cbn; try done.
    + intros k a Hk. by eapply Hu, M3.
    + by rewrite Hr.
    + intros Hn. split; [done|]. by eapply inside_adds.
  - by apply (busy_frame s).
  - apply (protocol_frame s); try done. by left.
Qed.

Lemma Inv_run_manager evs now s s' : Inv s → run_step evs now s = Some s' → Inv s'.
Proof.
  intros Hi E. pose proof Hi as [Hm Hb Hp]. pose proof (m_run _ Hm) as Hrun. unfold run_step in E.
  pose proof (not_polling_no_due s Hm) as Hd. destruct (runner s) as [|k| | | | |] eqn:Hr; try done.
  - injection E as <-. apply Inv_runner; [done|by apply Hd|done|exact Hrun].
  - destruct (acceptors_ s !! k) as [o|] eqn:Ho.
    + destruct o as [a|]; cbn [startAccept] in E.
      * destruct (io_step (IOManager.ReadWhenReady a) s) as [s1|] eqn:E1; cbn [mbind option_bind] in E; [|done].
        injection E as <-. pose proof (Inv_use_manager _ _ _ Hi E1) as Hi1.
        destruct (io_step_spec _ _ _ E1 Hm) as (i & p & -> & Ei & _).
        destruct (use_kept _ _ _ Ei) as (_ & Epo & _); [done|done|].
        apply Inv_runner; [by apply Hi1|by apply Hd|done|]. cbn. congruence.
      * injection E as <-. apply Inv_runner; [done|by apply Hd|done|exact Hrun].
    + injection E as <-. apply Inv_runner; [done|by apply Hd|done|done].
  - destruct (due s) as [|task l] eqn:Hdue.
    + destruct (IOManager.poller (io s)) eqn:Hpo.
      all: first [ injection E as <-; apply Inv_runner; [done|done|done|exact Hpo]
                 | destruct (IOManager.step _ (io s)) as [i|] eqn:Ei; cbn [mbind option_bind] in E; [|done];
                   injection E as <-; by apply (Inv_poll_turn evs now) ].
    + destruct (ThreadPoolFast.addTask (Some task) (pool s)) as [p|] eqn:Ep; cbn [mbind option_bind] in E; [|done].
      injection E as <-. pose proof (ThreadPoolFast.Inv_add_fast _ _ _ (m_pool _ Hm) Ep) as Hpi.
      apply add_kept in Ep as [Es Hk]. destruct (m_due _ Hm) as [_ Hin]; [by rewrite Hdue|]. split.
      * destruct Hm as [M1 M2 M3 M4 M5 M6]. by split.
      * apply (busy_frame s); [done|done|]. intros w _. apply Hk.
      * apply (protocol_frame s); try done. by left.
  - injection E as <-. apply Inv_runner; [done|by apply Hd|by destruct (stopped_ s)|by destruct (stopped_ s)].
Qed.

(** *** Workers and calls *)

(** A step of the pool that leaves the callers of [stop()] in their tasks. *)
Lemma Inv_set_pool s p :
  Inv s → ThreadPoolFast.Inv p → ThreadPoolFast.stopping p = ThreadPoolFast.stopping (pool s) →
  (∀ w, calling w s = true → runs (pool s) w → runs p w) → Inv (set_pool p s).
Proof.
  intros [Hm Hb Hp] Hi Es Hr. split.
  - destruct Hm. by split.
  - by apply (busy_frame s).
  - apply (protocol_frame s); try done. by left.
Qed.

Lemma Inv_work w s s' : Inv s → step (Work w) s = Some s' → Inv s'.
Proof.
  intros Hi E. cbn [step] in E. destruct (calling w s) eqn:Hc; [done|].
  destruct (ThreadPoolFast.step _ (pool s)) as [p|] eqn:Ep; cbn [mbind option_bind] in E; [|done].
  injection E as <-. pose proof (ThreadPoolFast.Inv_pool_fast _ _ _ (m_pool _ (i_machine _ Hi)) Ep) as Hpi.
  apply loop_kept in Ep as [Es Hr]. apply Inv_set_pool; [done|done|done|]. intros u Hu. apply Hr. congruence.
Qed.

Lemma Inv_spurious w s s' : Inv s → step (Spurious w) s = Some s' → Inv s'.
Proof.
  intros Hi E. cbn [step] in E.
  destruct (ThreadPoolFast.step _ (pool s)) as [p|] eqn:Ep; cbn [mbind option_bind] in E; [|done].
  injection E as <-. pose proof (ThreadPoolFast.Inv_pool_fast _ _ _ (m_pool _ (i_machine _ Hi)) Ep) as Hpi.
  apply spurious_kept in Ep as [Es Hr]. apply Inv_set_pool; [done|done|done|]. intros u _. apply Hr.
Qed.

Lemma Inv_call_manager c s s' : Inv s → call c s = Some s' → Inv s'.
Proof.
  intros [Hm [B1 B2] Hp] E. unfold call in E.
  destruct (match c with Some w => _ | None => true end) eqn:Hok; [|done]. injection E as <-.
  assert (∀ w, c = Some w → runs (pool s) w ∧ ∀ i p, calls s !! i = Some (Some w, p) → p = Finished) as Hc.
  { intros w ->. apply andb_true_iff in Hok as [Hr Hn]. apply runs_task_spec in Hr. split; [done|].
    intros i p Hi. destruct (decide (p = Finished)); [done|]. apply negb_true_iff in Hn.
    rewrite (proj2 (calling_spec w s)) in Hn; [done|]. eauto. }
  split; [destruct Hm; by split| |].
  - split; cbn.
    + intros i w p [Hi|[_ Hi]]%lookup_app_Some Hne; [by eapply B1|].
      apply list_lookup_singleton_Some in Hi as [_ [= -> _]]. by apply Hc.
    + intros i j w p q [Hi|[Hil Hi]]%lookup_app_Some [Hj|[Hjl Hj]]%lookup_app_Some Hne Hne'; [by eapply B2|..].
      * apply list_lookup_singleton_Some in Hj as [_ [= -> _]]. by destruct Hne; apply (Hc w eq_refl) in Hi.
      * apply list_lookup_singleton_Some in Hi as [_ [= -> _]]. by destruct Hne'; apply (Hc w eq_refl) in Hj.
      * apply list_lookup_singleton_Some in Hi as [? _]. apply list_lookup_singleton_Some in Hj as [? _]. lia.
  - destruct Hp as [H1 H2 H3 H4].
    assert (∀ i c' p, (calls s ++ [(c, Entering)]) !! i = Some (c', p) → calls s !! i = Some (c', p) ∨ p = Entering) as Hin.
    { intros i c' p [Hi|[_ Hi]]%lookup_app_Some; [by left|].
      apply list_lookup_singleton_Some in Hi as [_ [= _ <-]]. by right. }
    split; cbn.
    + intros i c' p [Hi| ->]%Hin Ha; [by eapply H1|done].
    + intros i j c1 c2 p p' [Hi| ->]%Hin [Hj| ->]%Hin Ha Ha'; try done. by eapply H2.
    + unfold all_closed in *. cbn. destruct (stop_requested_ s); [destruct (stopped_ s); [exact H3|]|].
      * destruct H3 as (i & c' & p & Hi & Ha). exists i, c', p. split; [by apply lookup_app_l_Some|done].
      * destruct H3 as (? & ? & ? & Hall). split_and!; try done. intros i c' p [Hi|Hi]%Hin; [by eapply Hall|done].
    + intros [(i & c' & Hi)|Hr]; [apply Hin in Hi as [Hi|?]|]; [by apply H4; left; eauto|done|by apply H4; right].
Qed.

(** *** The steps of [stop()] *)

Lemma insert_inv i j c c' p q (l : list (option nat * stop_pc)) :
  <[i := (c, p)]> l !! j = Some (c', q) → (j = i ∧ c' = c ∧ q = p) ∨ (j ≠ i ∧ l !! j = Some (c', q)).
Proof. intros [(-> & [= -> ->] & _)|[? ?]]%list_lookup_insert_Some; [by left|by right]. Qed.

(** A call that has not returned moves on. *)
Lemma busy_insert s s' i c p p' :
  busy s → calls s !! i = Some (c, p) → p ≠ Finished → calls s' = <[i := (c, p')]> (calls s) →
  (∀ w, runs (pool s) w → runs (pool s') w) → busy s'.
Proof.
  intros [B1 B2] Hi Hp Ec Hr. split; rewrite Ec.
  - intros j w q [(-> & <- & ->)|[_ Hj]]%insert_inv Hq; by eapply Hr, B1.
  - intros j k w q r [(-> & <- & ->)|[Hne Hj]]%insert_inv [(-> & E & ->)|[Hne' Hk]]%insert_inv Hq Hr'; try done;
      [by eapply B2|subst c; by eapply B2|by eapply B2].
Qed.

(** A call that was not active, and is not after the step. *)
Lemma Inv_wait_manager s i c p p' :
  Inv s → calls s !! i = Some (c, p) → p ≠ Finished → active p = false → active p' = false →
  stop_requested_ s = true → (p' = Finished → stopped_ s = true) → Inv (set_call i c p' s).
Proof.
  intros [Hm Hb [H1 H2 H3 H4]] Hi Hp Ha Ha' Hreq Hf.
  split; [destruct Hm; by split| |].
  - by apply (busy_insert s _ i c p p').
  - split; cbn; rewrite ?Hreq in *.
    + intros j c' q [(-> & -> & ->)|[_ Hj]]%insert_inv Hq; [congruence|]. by eapply H1.
    + intros j k c1 c2 q r [(-> & -> & ->)|[_ Hj]]%insert_inv [(-> & -> & ->)|[_ Hk]]%insert_inv Hq Hr; try congruence.
      by eapply H2.
    + destruct (stopped_ s); [done|]. destruct H3 as (j & c' & q & Hj & Hq). exists j, c', q. split; [|done].
      rewrite list_lookup_insert_ne; [done|]. intros ->. congruence.
    + intros [(j & c' & Hj)|Hr]; [apply insert_inv in Hj as [(-> & -> & <-)|[_ Hj]]|]; [by apply Hf|by apply H4; left; eauto|by apply H4; right].
Qed.

(** The active call moves on. *)
Lemma Inv_active s s' i c p p' :
  Inv s → calls s !! i = Some (c, p) → active p = true → active p' = true → machine s' →
  (∀ w, runs (pool s) w → runs (pool s') w) → calls s' = <[i := (c, p')]> (calls s) →
  stop_requested_ s' = stop_requested_ s → stopped_ s' = stopped_ s → runner s' = runner s →
  phase c p' s' → Inv s'.
Proof.
  intros [Hm Hb [H1 H2 H3 H4]] Hi Ha Ha' Hm' Hr Ec Ereq Est Erun Hph.
  destruct (H1 i c p Hi Ha) as (Hreq & Hst & _). rewrite Hreq, Hst in *.
  assert (∀ j c' q, j ≠ i → calls s !! j = Some (c', q) → active q ≠ true) as Hone
    by (intros j c' q Hne Hj Hq; by apply Hne; eapply H2).
  assert (p ≠ Finished) as Hpf by (by intros ->).
  split; [done| |].
  - by apply (busy_insert s _ i c p p').
  - split; rewrite ?Ec, ?Ereq, ?Est.
    + intros j c' q [(-> & -> & ->)|[Hne Hj]]%insert_inv Hq; [done|by destruct (Hone j c' q)].
    + intros j k c1 c2 q r [(-> & -> & ->)|[Hne Hj]]%insert_inv [(-> & -> & ->)|[Hne' Hk]]%insert_inv Hq Hr'; [done|..];
        exfalso; by eapply Hone.
    + exists i, c, p'. split; [|done]. apply list_lookup_insert_eq. by eapply lookup_lt_Some.
    + rewrite Erun. intros [(j & c' & Hj)|Hf]; [|by apply H4; right].
      apply insert_inv in Hj as [(-> & -> & <-)|[_ Hj]]; [done|by apply H4; left; eauto].
Qed.

Lemma set_call_same s i c p : calls s !! i = Some (c, p) → <[i := (c, p)]> (calls s) = calls s.
Proof. apply list_insert_id. Qed.

(** The first call starts the stopping. *)
Lemma Inv_start_manager s i c :
  Inv s → calls s !! i = Some (c, Entering) → stop_requested_ s = false →
  Inv (set_call i c (Closing 0)
         (mkState (io s) (pool s) (acceptors_ s) true (stopped_ s) (runner s) (due s) (calls s))).
Proof.
  intros [Hm Hb [H1 H2 H3 H4]] Hi Hreq. rewrite Hreq in H3. destruct H3 as (Hst & Hio & Hpo & Hall).
  assert (∀ j c' q, calls s !! j = Some (c', q) → active q ≠ true) as Hone
    by (intros j c' q Hj; by rewrite (Hall _ _ _ Hj)).
  split; [destruct Hm; by split| |].
  - by apply (busy_insert s _ i c Entering (Closing 0)).
  - split; cbn; rewrite ?Hst.
    + intros j c' q [(-> & -> & ->)|[Hne Hj]]%insert_inv Hq; [|by destruct (Hone j c' q)].
      split_and!; [done|done|]. split_and!; [lia|done|done].
    + intros j k c1 c2 q r [(-> & -> & ->)|[Hne Hj]]%insert_inv [(-> & -> & ->)|[Hne' Hk]]%insert_inv Hq Hr'; [done|..];
        exfalso; by eapply Hone.
    + exists i, c, (Closing 0). split; [|done]. apply list_lookup_insert_eq. by eapply lookup_lt_Some.
    + rewrite <- Hst. intros [(j & c' & Hj)|Hf]; [|by apply H4; right].
      apply insert_inv in Hj as [(-> & -> & ?)|[_ Hj]]; [done|by apply H4; left; eauto].
Qed.

(** The last critical section. *)
Lemma Inv_finish s i c :
  Inv s → calls s !! i = Some (c, Finishing) →
  Inv (set_call i c Finished
         (mkState (io s) (pool s) (acceptors_ s) (stop_requested_ s) true (wake_runner (runner s)) (due s)
            (map (λ x, (x.1, wake x.2)) (calls s)))).
Proof.
  intros [Hm [B1 B2] [H1 H2 H3 H4]] Hi. destruct (H1 i c Finishing Hi eq_refl) as (Hreq & Hst & Hcl & Hpo & Hio).
  assert (∀ j c' q, <[i := (c, Finished)]> (map (λ x, (x.1, wake x.2)) (calls s)) !! j = Some (c', q) →
    (j = i ∧ c' = c ∧ q = Finished) ∨
    (j ≠ i ∧ ∃ q', calls s !! j = Some (c', q') ∧ q = wake q')) as Hin.
  { intros j c' q [(-> & [= -> ->] & _)|[? Hj]]%list_lookup_insert_Some; [by left|right].
    rewrite list_lookup_fmap in Hj. split; [done|]. destruct (calls s !! j) as [[c1 q1]|]; [|done].
    injection Hj as <- <-. eauto. }
  assert (∀ q, wake q = Finished → q = Finished) as Hwf by (by intros []).
  assert (∀ q, active (wake q) = active q) as Hwa by (by intros []).
  assert (∀ j c' q, j ≠ i → calls s !! j = Some (c', q) → active q ≠ true) as Hone
    by (intros j c' q Hne Hj Hq; by apply Hne; eapply H2).
  split; [destruct Hm as [M1 M2 M3 M4 M5 M6]; split; cbn; try done; destruct (runner s); done || naive_solver| |].
  - split; cbn.
    + intros j w q [(-> & <- & ->)|(_ & q' & Hj & ->)]%Hin Hq; [done|]. eapply B1; [done|]. by intros ->.
    + intros j k w q r [(-> & <- & ->)|(_ & q' & Hj & ->)]%Hin [(-> & E & ->)|(_ & r' & Hk & ->)]%Hin Hq Hr; try done.
      eapply B2; [done|done|by intros -> |by intros ->].
  - split; cbn.
    + intros j c' q [(-> & -> & ->)|(Hne & q' & Hj & ->)]%Hin Hq; [done|]. rewrite Hwa in Hq. by destruct (Hone j c' q').
    + intros j k c1 c2 q r [(-> & -> & ->)|(Hne & q' & Hj & ->)]%Hin _ Hq _; [done|].
      rewrite Hwa in Hq. by destruct (Hone j c1 q').
    + rewrite Hreq. split_and!; [exact Hcl|exact Hio|by exists c].
    + done.
Qed.

Lemma Inv_set_call s i c p p' :
  Inv s → calls s !! i = Some (c, p) → active p = true → active p' = true → phase c p' s →
  Inv (set_call i c p' s).
Proof. intros Hi Hc Ha Ha' Hp. eapply Inv_active; try done. by destruct (i_machine _ Hi). Qed.

Lemma machine_io s i :
  machine s → IOManager.Inv i → IOManager.poller i = IOManager.poller (io s) →
  (∀ a, IOManager.in_use a (io s) = true → IOManager.in_use a i = true) → machine (set_io i s).
Proof. intros [M1 M2 M3 M4 M5 M6] Hi Ep Hu. split; cbn; rewrite ?Ep; try done. intros k a Hk. by eapply Hu, M3. Qed.

Lemma machine_pool s p : machine s → ThreadPoolFast.Inv p → machine (set_pool p s).
Proof. intros [M1 M2 M3 M4 M5 M6] Hi. by split. Qed.

Lemma machine_call s i c p : machine s → machine (set_call i c p s).
Proof. intros []. by split. Qed.

(** Another acceptor is closed. *)
Lemma Inv_close i c k o s s' :
  Inv s → calls s !! i = Some (c, Closing k) → acceptors_ s !! k = Some o → close k o s = Some s' →
  Inv (set_call i c (Closing (S k)) s').
Proof.
  intros Hi Hc Hk E. destruct (p_phase _ (i_protocol _ Hi) i c _ Hc eq_refl) as (_ & _ & Hcl & Hio & Hpo).
  assert (∀ j o', j < S k → <[k := None]> (acceptors_ s) !! j = Some o' → o' = None) as Hcl'.
  { intros j o' Hj [(-> & -> & _)|[? ?]]%list_lookup_insert_Some; [done|]. eapply Hcl; [|done]. lia. }
  destruct o as [a|]; cbn [close] in E.
  2: { injection E as <-. eapply Inv_set_call; [done..|]. split; [|done]. intros j o Hj Ho.
       apply (Hcl' j o Hj). by rewrite list_insert_id. }
  pose proof (i_machine _ Hi) as Hm. pose proof Hm as [M1 M2 M3 M4 M5 M6].
  destruct (close_steps a (io s)) as (i1 & i2 & E1 & E2 & Es & Ep & Hu); [by eapply M3|].
  rewrite E1 in E. cbn [mbind option_bind] in E. rewrite E2 in E. injection E as <-.
  assert (∀ j b, <[k := None]> (acceptors_ s) !! j = Some (Some b) → j ≠ k ∧ acceptors_ s !! j = Some (Some b)) as Hl
    by (by intros j b [(? & ? & _)|[? ?]]%list_lookup_insert_Some).
  apply (Inv_active s _ i c (Closing k) (Closing (S k))); try done.
  - split; cbn; rewrite ?Ep; try done.
    + eapply IOManager.Inv_io; [|exact E2]. by eapply IOManager.Inv_io.
    + intros j b [Hne Hj]%Hl. apply Hu; [|by eapply M3]. intros ->. apply Hne. by eapply M4.
    + intros j j' b [_ Hj]%Hl [_ Hj']%Hl. by eapply M4.
  - split; [exact Hcl'|]. cbn; by rewrite Es.
Qed.

Lemma Inv_io_stopping i c s s' :
  Inv s → calls s !! i = Some (c, IoStopping) → stop_step i s = Some s' → Inv s'.
Proof.
  intros Hi Hc E. destruct (p_phase _ (i_protocol _ Hi) i c _ Hc eq_refl) as (_ & _ & Hcl & Hpo & Hio).
  unfold stop_step in E. rewrite Hc in E. cbn [mbind option_bind] in E. pose proof (i_machine _ Hi) as Hm.
  assert (∀ j, IOManager.stop_step (io s) = Some j →
    IOManager.stopper j = IOManager.WaitingForPoll ∨ IOManager.stopper j = IOManager.StoppingWorkers →
    Inv (set_io j s)) as Hset.
  { intros j Ej Hj. pose proof (IOManager.Inv_stop_io _ _ (m_io _ Hm) Ej) as Hij.
    apply io_stop_kept in Ej as [Ep Hu]. apply (Inv_active s _ i c IoStopping IoStopping); try done.
    - by apply machine_io.
    - cbn. by rewrite set_call_same.
    - split_and!; [exact Hcl|exact Hpo|by right]. }
  destruct Hio as [Hio|[Hio|Hio]]; rewrite Hio in E.
  - destruct (IOManager.stop_step (io s)) as [j|] eqn:Ej; cbn [mbind option_bind] in E; [|done].
    injection E as <-. apply Hset; [done|left]. unfold IOManager.stop_step in Ej. rewrite Hio in Ej. by injection Ej as <-.
  - destruct (IOManager.stop_step (io s)) as [j|] eqn:Ej; cbn [mbind option_bind] in E; [|done].
    injection E as <-. apply Hset; [done|right]. unfold IOManager.stop_step in Ej. rewrite Hio in Ej.
    destruct (IOManager.polling_ (io s)); [done|]. by injection Ej as <-.
  - destruct (ThreadPoolFast.stop c (pool s)) as [q|] eqn:Eq; cbn [mbind option_bind] in E; [|done]. injection E as <-.
    pose proof (ThreadPoolFast.Inv_stop_call _ _ _ (m_pool _ Hm) Eq) as Hiq.
    assert (ThreadPoolFast.all_workers q = ThreadPoolFast.all_workers (pool s) ∧
            caller_of (ThreadPoolFast.stopping q) = Some c) as [Ew Eca].
    { unfold ThreadPoolFast.stop in Eq. rewrite Hpo in Eq.
      destruct (match c with None => true | Some w => _ end); [|done]. by injection Eq as <-. }
    apply (Inv_active s _ i c IoStopping PoolStopping); try done.
    + by apply machine_call, machine_pool.
    + intros w. unfold runs. cbn. by rewrite Ew.
Qed.

Lemma Inv_pool_stopping i c s s' :
  Inv s → calls s !! i = Some (c, PoolStopping) → stop_step i s = Some s' → Inv s'.
Proof.
  intros Hi Hc E. destruct (p_phase _ (i_protocol _ Hi) i c _ Hc eq_refl) as (_ & _ & Hcl & Hpo & Hio).
  unfold stop_step in E. rewrite Hc in E. cbn [mbind option_bind] in E. pose proof (i_machine _ Hi) as Hm.
  destruct (ThreadPoolFast.stopping (pool s)) as [|c1 k|c1 k|c1] eqn:Hst; try done; cbn in Hpo; injection Hpo as ->.
  3: { destruct (IOManager.stop_step (io s)) as [j|] eqn:Ej; cbn [mbind option_bind] in E; [|done]. injection E as <-.
       pose proof (IOManager.Inv_stop_io _ _ (m_io _ Hm) Ej) as Hij. pose proof Ej as Ej'.
       apply io_stop_kept in Ej as [Ep Hu]. apply (Inv_active s _ i c PoolStopping Freeing); try done.
       - by apply machine_call, machine_io.
       - unfold IOManager.stop_step in Ej'. rewrite Hio in Ej'. injection Ej' as <-. done. }
  all: destruct (ThreadPoolFast.stop_step (pool s)) as [q|] eqn:Eq; cbn [mbind option_bind] in E; [|done]; injection E as <-;
    pose proof (ThreadPoolFast.Inv_stop_step _ _ (m_pool _ Hm) Eq) as Hiq;
    apply pool_stop_kept in Eq as [Eca Hr]; rewrite Hst in Eca;
    apply (Inv_active s _ i c PoolStopping PoolStopping); try done;
    [by apply machine_pool|cbn; by rewrite set_call_same].
Qed.

Lemma Inv_stop_manager i s s' : Inv s → stop_step i s = Some s' → Inv s'.
Proof.
  intros Hi E. pose proof E as E0. unfold stop_step in E.
  destruct (calls s !! i) as [[c p]|] eqn:Hc; cbn [mbind option_bind] in E; [|done].
  pose proof (i_protocol _ Hi) as Hp. destruct p as [| | |k| | | | |]; try done.
  - destruct (stop_requested_ s) eqn:Hreq; injection E as <-.
    + eapply Inv_wait_manager; try done; by destruct (stopped_ s).
    + by apply Inv_start_manager.
  - injection E as <-. pose proof (p_flags _ Hp) as Hf. destruct (stop_requested_ s) eqn:Hreq.
    + eapply Inv_wait_manager; try done; by destruct (stopped_ s).
    + destruct Hf as (_ & _ & _ & Hall). by apply Hall in Hc.
  - destruct (p_phase _ Hp i c _ Hc eq_refl) as (_ & _ & Hcl & Hio & Hpo).
    destruct (acceptors_ s !! k) as [o|] eqn:Hk.
    + destruct (close k o s) as [s1|] eqn:Ec; cbn [mbind option_bind] in E; [|done]. injection E as <-.
      by eapply Inv_close.
    + injection E as <-. eapply Inv_set_call; [done..|]. split; [|by split; [|left]].
      intros j o Hj. apply (Hcl j o); [|done]. apply lookup_ge_None in Hk. apply lookup_lt_Some in Hj. lia.
  - by eapply Inv_io_stopping.
  - by eapply Inv_pool_stopping.
  - destruct (p_phase _ Hp i c _ Hc eq_refl) as (_ & _ & Hcl & Hpo & Hio).
    destruct (IOManager.stop_step (io s)) as [j|] eqn:Ej; cbn [mbind option_bind] in E; [|done]. injection E as <-.
    pose proof (IOManager.Inv_stop_io _ _ (m_io _ (i_machine _ Hi)) Ej) as Hij. pose proof Ej as Ej'.
    apply io_stop_kept in Ej as [Ep Hu]. apply (Inv_active s _ i c Freeing Finishing); try done.
    + apply machine_call, machine_io; try done. apply Hi.
    + unfold IOManager.stop_step in Ej'. rewrite Hio in Ej'. injection Ej' as <-. done.
  - injection E as <-. by apply Inv_finish.
Qed.

Lemma Inv_step_manager l s s' : Inv s → step l s = Some s' → Inv s'.
Proof.
  intros Hi E. destruct l as [a fd rcb wcb|l|w|w|c|i|i|evs now|]; cbn [step] in E.
  - destruct (runner s) eqn:Hr; try done. destruct (stop_requested_ s) eqn:Hreq; [done|]. by eapply Inv_register.
  - destruct (by_user l s) eqn:Hu; [|done]. eapply Inv_use_manager; [done|done|by intros ->|by intros ? ? ->|].
    intros a ->. cbn in Hu. by apply bool_decide_eq_true in Hu.
  - by apply (Inv_work w s s').
  - by apply (Inv_spurious w s s').
  - by eapply Inv_call_manager.
  - by eapply Inv_stop_manager.
  - destruct (calls s !! i) as [[c p]|] eqn:Hc; cbn [mbind option_bind] in E; [|done]. destruct p; try done.
    injection E as <-. pose proof (p_flags _ (i_protocol _ Hi)) as Hf. destruct (stop_requested_ s) eqn:Hreq.
    + by eapply Inv_wait_manager.
    + destruct Hf as (_ & _ & _ & Hall). by apply Hall in Hc.
  - by eapply Inv_run_manager.
  - destruct (runner s) eqn:Hr; try done. injection E as <-. pose proof (m_run _ (i_machine _ Hi)) as Hm.
    rewrite Hr in Hm. apply Inv_runner; [done| |done|done].
    apply not_polling_no_due; [apply Hi|by rewrite Hr].
Qed.

Lemma Inv_make_manager n : Inv (make n).
Proof.
  split.
  - split; cbn; try done. apply IOManager.Inv_init_io. apply ThreadPoolFast.Inv_make_fast.
  - by split.
  - split; cbn; try done. by intros [(i & c & Hi)|?].
Qed.

Lemma Inv_reachable_manager n s : reachable step (make n) s → Inv s.
Proof. apply reachable_invariant; [apply Inv_step_manager|apply Inv_make_manager]. Qed.

(** ** Properties *)

(** C11. However the threads interleave, one call of [stop()] at most is past its
    first lock, and no call of [stop()] and no [run()] returns before everything
    has stopped: the acceptors are closed, the polling thread is out of its loop
    and every task it took was given to the workers, the IO manager's [stop()]
    is over, and every worker has left, except for the one that called. *)
Theorem stop_waits_for_all n s :
  reachable step (make n) s →
  (∀ i j c c' p p', calls s !! i = Some (c, p) → calls s !! j = Some (c', p') →
     active p = true → active p' = true → i = j) ∧
  ((∃ i c, calls s !! i = Some (c, Finished)) ∨ runner s = RunReturned →
   all_closed s ∧ IOManager.inside (IOManager.poller (io s)) = false ∧ due s = [] ∧
   IOManager.stopper (io s) = IOManager.Stopped ∧
   ∃ c, ThreadPoolFast.stopping (pool s) = ThreadPoolFast.Returned c ∧
     ∀ w x, ThreadPoolFast.all_workers (pool s) !! w = Some x → c = Some w ∨ ThreadPoolFast.gone x = true).
Proof.
  intros [Hm _ Hp]%Inv_reachable_manager. split; [apply (p_one _ Hp)|]. intros Hst%(p_back _ Hp).
  pose proof (p_flags _ Hp) as Hf. rewrite Hst in Hf. destruct (stop_requested_ s); [|by destruct Hf].
  destruct Hf as (Hcl & Hio & c & Hpo).
  assert (IOManager.inside (IOManager.poller (io s)) = false) as Hin
    by (apply (IOManager.i_stopped _ (m_io _ Hm)); by rewrite Hio).
  split_and!; [done|done| |done|].
  - destruct (due s) eqn:Hd; [done|]. destruct (m_due _ Hm) as [_ ?]; [by rewrite Hd|congruence].
  - exists c. split; [done|]. pose proof (ThreadPoolFast.st_phase _ (ThreadPoolFast.i_stops _ (m_pool _ Hm))) as Hph.
    rewrite Hpo in Hph. destruct Hph as (_ & _ & Hs). exact Hs.
Qed.

(** The [j]-th call is by worker [w], and another call carries out the stopping. *)
Definition blocked (j w : nat) (s : state) : Prop :=
  (∃ p, calls s !! j = Some (Some w, p) ∧ p ≠ Finished ∧ active p = false) ∧
  ∃ i c p, calls s !! i = Some (c, p) ∧ active p = true.

(** The worker runs its task, so the pool's [stop()], called by another, has not
    returned. *)
Lemma stop_not_over s j w :
  Inv s → blocked j w s →
  stop_requested_ s = true ∧ stopped_ s = false ∧
  ∀ i c p, calls s !! i = Some (c, p) → active p = true → ThreadPoolFast.stopping (pool s) ≠ ThreadPoolFast.Returned c.
Proof.
  intros [Hm Hb Hp] [(p' & Hj & Hpf & Hpa) (i & c & p & Hi & Ha)].
  destruct (p_phase _ Hp i c p Hi Ha) as (Hreq & Hst & _). split_and!; [done|done|].
  clear i c p Hi Ha. intros i c p Hi Ha Hc.
  destruct (b_runs _ Hb _ _ _ Hj Hpf) as (x & t & Hx & Ht).
  pose proof (ThreadPoolFast.st_phase _ (ThreadPoolFast.i_stops _ (m_pool _ Hm))) as Hph.
  rewrite Hc in Hph. destruct Hph as (_ & _ & Hs). destruct (Hs w x Hx) as [->|Hg].
  - assert (i = j) as -> by (eapply (b_once _ Hb); [done|done|by intros ->|done]). rewrite Hi in Hj. injection Hj as ->. congruence.
  - unfold ThreadPoolFast.gone in Hg. by rewrite Ht in Hg.
Qed.

Lemma io_step_calls l s s' : io_step l s = Some s' → calls s' = calls s.
Proof. unfold io_step. intros E. repeat opt_case. by injection E as <-. Qed.

Lemma run_calls evs now s s' : run_step evs now s = Some s' → calls s' = calls s.
Proof.
  unfold run_step. intros E. destruct (runner s) as [|k| | | | |]; try done; try by injection E as <-.
  - destruct (acceptors_ s !! k) as [[a|]|]; try by injection E as <-. cbn [startAccept] in E.
    destruct (io_step _ s) as [s1|] eqn:E1; cbn [mbind option_bind] in E; [|done]. injection E as <-.
    by apply io_step_calls in E1.
  - destruct (due s); [|repeat opt_case; by injection E as <-].
    destruct (IOManager.poller (io s)); try by injection E as <-.
    all: destruct (IOManager.step _ (io s)); cbn [mbind option_bind] in E; [|done]; by injection E as <-.
Qed.

(** While a worker is blocked, every call stays on its side. *)
Lemma call_kept l s s' i c p :
  Inv s → step l s = Some s' → calls s !! i = Some (c, p) → p ≠ Finished →
  stop_requested_ s = true → stopped_ s = false →
  (∀ i c p, calls s !! i = Some (c, p) → active p = true → ThreadPoolFast.stopping (pool s) ≠ ThreadPoolFast.Returned c) →
  ∃ p', calls s' !! i = Some (c, p') ∧ p' ≠ Finished ∧ active p' = active p.
Proof.
  intros Hinv E Hi Hp Hreq Hst Hnr.
  assert (∀ s1, calls s1 = calls s → ∃ p', calls s1 !! i = Some (c, p') ∧ p' ≠ Finished ∧ active p' = active p) as Hsame
    by (intros s1 ->; eauto).
  assert (∀ s1 j c' q q', calls s1 = calls s → calls s !! j = Some (c', q) → q' ≠ Finished → active q' = active q →
            ∃ p', calls (set_call j c' q' s1) !! i = Some (c, p') ∧ p' ≠ Finished ∧ active p' = active p) as Hset.
  { intros s1 j c' q q' E1 Hj Hq' Ha. cbn. rewrite E1. destruct (decide (j = i)) as [->|].
    - rewrite Hi in Hj. injection Hj as -> ->. exists q'. split; [|done]. apply list_lookup_insert_eq. by eapply lookup_lt_Some.
    - exists p. by rewrite list_lookup_insert_ne. }
  destruct l as [a fd rcb wcb|l|w|w|c1|j|j|evs now|]; cbn [step] in E.
  - rewrite Hreq in E. by destruct (runner s).
  - destruct (by_user l s); [|done]. apply Hsame. by eapply io_step_calls.
  - destruct (calling w s); [done|]. destruct (ThreadPoolFast.step _ _); cbn [mbind option_bind] in E; [|done].
    injection E as <-. by apply Hsame.
  - destruct (ThreadPoolFast.step _ _); cbn [mbind option_bind] in E; [|done]. injection E as <-. by apply Hsame.
  - unfold call in E. destruct (match c1 with Some w => _ | None => true end); [|done]. injection E as <-.
    exists p. split; [|done]. by apply lookup_app_l_Some.
  - unfold stop_step in E. destruct (calls s !! j) as [[c' q]|] eqn:Hj; cbn [mbind option_bind] in E; [|done].
    rewrite Hst, Hreq in E. pose proof (p_phase _ (i_protocol _ Hinv) j c' q Hj) as Hph. specialize (Hnr j c' q Hj).
    destruct q as [| | |k| | | | |]; try done.
    + injection E as <-. by eapply Hset.
    + injection E as <-. by eapply Hset.
    + destruct (acceptors_ s !! k) as [o|]; [|injection E as <-; by eapply Hset].
      destruct (close k o s) as [s1|] eqn:Ec; cbn [mbind option_bind] in E; [|done]. injection E as <-.
      eapply Hset; [|done|done|done]. unfold close in Ec. destruct o; [|by injection Ec as <-]. repeat opt_case. by injection Ec as <-.
    + destruct (IOManager.stopper (io s)); repeat opt_case; injection E as <-; first [by apply Hsame|by eapply Hset].
    + destruct Hph as (_ & _ & _ & Hca & _); [done|].
      destruct (ThreadPoolFast.stopping (pool s)) eqn:Hs; try (cbn in Hca; injection Hca as ->; by destruct Hnr);
        repeat opt_case; injection E as <-; by apply Hsame.
    + destruct (IOManager.stop_step (io s)); cbn [mbind option_bind] in E; [|done]. injection E as <-. by eapply Hset.
    + destruct Hph as (_ & _ & _ & Hr & _); [done|]. by destruct Hnr.
  - destruct (calls s !! j) as [[c' q]|] eqn:Hj; cbn [mbind option_bind] in E; [|done]. destruct q; try done.
    injection E as <-. by eapply Hset.
  - apply Hsame. by eapply run_calls.
  - destruct (runner s); try done. injection E as <-. by apply Hsame.
Qed.

Lemma blocked_kept l s s' j w : Inv s → blocked j w s → step l s = Some s' → blocked j w s'.
Proof.
  intros Hi Hbl E. destruct (stop_not_over s j w Hi Hbl) as (Hreq & Hst & Hnr).
  destruct Hbl as [(p & Hj & Hpf & Hpa) (i & c & q & Hc & Ha)].
  destruct (call_kept l s s' j _ p Hi E Hj Hpf Hreq Hst Hnr) as (p1 & ? & ? & E1).
  destruct (call_kept l s s' i _ q Hi E Hc ltac:(by intros ->) Hreq Hst Hnr) as (q1 & ? & ? & E2).
  split; [exists p1|exists i, c, q1]; split_and!; congruence.
Qed.

(** C12. When the task of a worker calls [stop()] while another call, from outside or
    by another worker, carries it out, as when two clients ask for [quit] at
    once, no call ever returns, and neither does [run()]: the pool's [stop()]
    waits for the worker, which waits for [stopped_]. *)
Theorem concurrent_stops_deadlock n s j w :
  reachable step (make n) s → blocked j w s →
  ∀ s', reachable step s s' → blocked j w s' ∧ stopped_ s' = false ∧ runner s' ≠ RunReturned.
Proof.
  intros Hinv%Inv_reachable_manager Hbl s' Hr.
  assert (Inv s' ∧ blocked j w s') as [Hi' Hbl'].
  { apply (reachable_invariant step (λ s, Inv s ∧ blocked j w s) s s'); [|done|done].
    intros l s1 s2 [Hi Hb] E. split; [by eapply Inv_step_manager|by eapply blocked_kept]. }
  destruct (stop_not_over s' j w Hi' Hbl') as (_ & Hst & _). split_and!; [done|done|].
  intros Hrun. assert (stopped_ s' = true) by (apply (p_back _ (i_protocol _ Hi')); by right). congruence.
Qed.

(** The polling thread can take its next step while [polling_] is up. *)
Lemma poll_enabled s now :
  Inv s → IOManager.polling_ (io s) = true → is_Some (step (Run [] now) s).
Proof.
  intros [Hm _ _] Hpo. apply (IOManager.i_polling _ (m_io _ Hm)) in Hpo. pose proof (m_run _ Hm) as Hr.
  cbn [step]. unfold run_step. destruct (runner s); try (rewrite Hr in Hpo; by destruct Hpo). clear Hr.
  destruct (due s) as [|task l].
  - cbn [IOManager.step forallb]. unfold IOManager.poll_step.
    destruct (IOManager.poller (io s)) as [| |evs'|[|[b ev] evs']| |] eqn:Hp; try by destruct Hpo.
    + destruct (IOManager.stopped_ (io s)); cbn; by eexists.
    + destruct (IOManager.run_timers _ _). cbn. by eexists.
    + destruct (IOManager.dispatch_total b ev (io s)) as [i E].
      { apply (IOManager.i_pending _ (m_io _ Hm) (b, ev)). rewrite Hp. by left. }
      rewrite E. cbn. by eexists.
  - destruct (ThreadPoolFast.addTask_spec (Some task) (pool s) (ThreadPoolFast.i_slots _ (m_pool _ Hm))
      (ThreadPoolFast.i_tasks _ (m_pool _ Hm))) as (p & -> & _). cbn. by eexists.
Qed.

Lemma close_enabled s k o : machine s → acceptors_ s !! k = Some o → is_Some (close k o s).
Proof.
  intros Hm Hk. destruct o as [a|]; cbn [close]; [|by eexists].
  destruct (close_steps a (io s)) as (i1 & i2 & E1 & E2 & _); [by eapply m_use|].
  rewrite E1. cbn [mbind option_bind]. rewrite E2. cbn. by eexists.
Qed.

(** The call that is in the pool's [stop()]. *)
Lemma pool_stop_enabled s i c :
  Inv s → calls s !! i = Some (c, PoolStopping) →
  (∀ j w, ¬ blocked j w s) →
  is_Some (step (StopGo i) s) ∨
  ∃ w, ThreadPoolFast.stopping (pool s) = ThreadPoolFast.Joining c w ∧ is_Some (step (Work w) s).
Proof.
  intros Hi Hc Hone. destruct (p_phase _ (i_protocol _ Hi) i c _ Hc eq_refl) as (_ & _ & _ & Hca & Hio).
  cbn [step]. unfold stop_step. rewrite Hc. cbn [mbind option_bind].
  destruct (ThreadPoolFast.stop_progress (pool s) (m_pool _ (i_machine _ Hi))) as [H1 H2].
  destruct (ThreadPoolFast.stopping (pool s)) as [|c1 k|c1 w|c1] eqn:Hst; try done; cbn in Hca; injection Hca as ->.
  - destruct (H1 c k eq_refl) as [q E]. cbn in E. rewrite E. left. by eexists.
  - destruct (H2 c w eq_refl) as [[q E]|[Hne [q E]]]; cbn in E.
    + rewrite E. left. by eexists.
    + right. exists w. split; [done|]. destruct (calling w s) eqn:Hca.
      * apply calling_spec in Hca as (j & p & Hj & Hp). destruct (Hone j w). split; [|by exists i, c, PoolStopping].
        exists p. split_and!; [done|done|]. destruct (active p) eqn:Ha; [|done].
        assert (i = j) as <- by (by eapply (p_one _ (i_protocol _ Hi))). congruence.
      * cbn [ThreadPoolFast.step]. rewrite E. by eexists.
  - left. unfold IOManager.stop_step. rewrite Hio. by eexists.
Qed.

(** C31. Otherwise [stop()] does not block: while it has been asked for and is not
    over, the call that carries it out can go on, or the polling thread it waits
    for can, or the worker that it joins can.  (A worker's task is taken to return
    when it is not in [stop()]; [doAccept] on a closed socket does not, see
    [accept_loop].) *)
Theorem stop_goes_on n s :
  reachable step (make n) s → stop_requested_ s = true → stopped_ s = false →
  (∀ j w, ¬ blocked j w s) →
  ∃ i c p, calls s !! i = Some (c, p) ∧ active p = true ∧
    (is_Some (step (StopGo i) s) ∨
     (p = IoStopping ∧ ∀ now, is_Some (step (Run [] now) s)) ∨
     (p = PoolStopping ∧ ∃ w, ThreadPoolFast.stopping (pool s) = ThreadPoolFast.Joining c w ∧ is_Some (step (Work w) s))).
Proof.
  intros Hinv%Inv_reachable_manager Hreq Hst Hone. pose proof Hinv as [Hm Hb Hp]. pose proof (p_flags _ Hp) as Hf.
  rewrite Hreq, Hst in Hf. destruct Hf as (i & c & p & Hc & Ha). exists i, c, p. split; [done|]. split; [done|].
  destruct (p_phase _ Hp i c p Hc Ha) as (_ & _ & Hph).
  destruct p as [| | |k| | | | |]; try done; cbn [step]; unfold stop_step at 1; rewrite Hc; cbn [mbind option_bind].
  - left. destruct (acceptors_ s !! k) as [o|] eqn:Hk; [|by eexists].
    destruct (close_enabled s k o Hm Hk) as [s1 ->]. by eexists.
  - destruct Hph as (_ & Hpo & Hio). destruct (IOManager.stopper (io s)) eqn:Hs; try (left; by eexists).
    + left. unfold IOManager.stop_step. rewrite Hs. by eexists.
    + destruct (IOManager.polling_ (io s)) eqn:Hpl.
      * right. left. split; [done|]. intros now. by apply (poll_enabled s now).
      * left. unfold IOManager.stop_step. rewrite Hs, Hpl. by eexists.
    + left. unfold ThreadPoolFast.stop. rewrite Hpo. destruct c as [w|]; [|by eexists].
      destruct (b_runs _ Hb i w _ Hc) as (x & t & -> & ->); [done|]. by eexists.
  - destruct (pool_stop_enabled s i c Hinv Hc Hone) as [He|He].
    + left. cbn [step] in He. unfold stop_step at 1 in He. by rewrite Hc in He.
    + right. right. split; [done|exact He].
  - destruct Hph as (_ & _ & Hio). left. unfold IOManager.stop_step. rewrite Hio. by eexists.
  - left. by eexists.
Qed.

(** ** A run of the server with one worker *)

(** An acceptor is registered; [run()] reaches its loop; a worker is given task 7. *)
Definition started (n : nat) : list label :=
  [Register 0 5 100 101; Run [] 0; Run [] 0; Run [] 0; Run [] 0] ++
  map (λ w, Use (IOManager.AddTask (7 + w))) (seq 0 n) ++
  concat (map (λ w, [Work w; Work w]) (seq 0 n)).

(** The task calls [stop()], which goes through to its end; then [run()] returns. *)
Definition quit : list label :=
  [Call (Some 0); StopGo 0; StopGo 0; StopGo 0; StopGo 0; Run [] 0] ++ replicate 7 (StopGo 0) ++
  [StopGo 0; StopGo 0; Run [] 0; Run [] 0].

Definition run_of (n : nat) (l : list label) : option state := exec step (started n ++ l) (make n).

(** The state that a run reaches. *)
Definition after (n : nat) (l : list label) : state := default (make n) (run_of n l).

Definition succeeds (n : nat) (l : list label) : bool := match run_of n l with Some _ => true | None => false end.

Lemma after_reachable n l : succeeds n l = true → reachable step (make n) (after n l).
Proof.
  unfold succeeds, after. intros H. exists (started n ++ l). change (exec _ _ _) with (run_of n l).
  destruct (run_of n l) as [s|]; [reflexivity|discriminate H].
Qed.

(** [run()] returns, as it should, after the last worker's call of [stop()]; but
    that worker is then still inside of its task, while [run()]'s caller goes on
    to destroy the manager. *)
Lemma run_returns_before_worker :
  ∃ s, reachable step (make 1) s ∧ runner s = RunReturned ∧ runs (pool s) 0.
Proof.
  exists (after 1 quit). split; [apply after_reachable; vm_compute; reflexivity|].
  split; [vm_compute; reflexivity|]. apply runs_task_spec. vm_compute. reflexivity.
Qed.

Lemma stop_waits_for_all_witness : all_closed (after 1 quit) ∧ due (after 1 quit) = [].
Proof.
  destruct (stop_waits_for_all 1 (after 1 quit)) as [_ H].
  - apply after_reachable. vm_compute. reflexivity.
  - destruct H as (Hc & _ & Hd & _); [right; vm_compute; reflexivity|]. exact (conj Hc Hd).
Defined.

(** Two workers call [stop()]; the first starts, the second waits. *)
Definition two_quits : list label := [Call (Some 0); Call (Some 1); StopGo 0; StopGo 1].

Lemma two_quits_blocked : blocked 1 1 (after 2 two_quits).
Proof.
  assert (calls (after 2 two_quits) = [(Some 0, Closing 0); (Some 1, Asleep)]) as E by (vm_compute; reflexivity).
  unfold blocked. rewrite E. clear E. split.
  - exists Asleep. split; [reflexivity|]. split; [discriminate|reflexivity].
  - exists 0, (Some 0), (Closing 0). split; reflexivity.
Qed.

Lemma concurrent_stops_deadlock_witness :
  stopped_ (after 2 two_quits) = false ∧ runner (after 2 two_quits) ≠ RunReturned.
Proof.
  refine (proj2 (concurrent_stops_deadlock 2 (after 2 two_quits) 1 1 _ two_quits_blocked (after 2 two_quits) _)).
  - apply after_reachable. vm_compute. reflexivity.
  - exists []. reflexivity.
Defined.

Lemma stop_goes_on_witness : ∃ i c p, calls (after 1 (take 2 quit)) !! i = Some (c, p) ∧ active p = true.
Proof.
  assert (calls (after 1 (take 2 quit)) = [(Some 0, Closing 0)]) as E by (vm_compute; reflexivity).
  destruct (stop_goes_on 1 (after 1 (take 2 quit))) as (i & c & p & Hc & Ha & _).
  - apply after_reachable. vm_compute. reflexivity.
  - vm_compute. reflexivity.
  - vm_compute. reflexivity.
  - intros j w [(p & Hj & Hp & Ha) _]. rewrite E in Hj. clear E.
    destruct j as [|j]; [injection Hj as _ <-; discriminate Ha|discriminate Hj].
  - exists i, c, p. exact (conj Hc Ha).
Defined.
End ServiceManager.
