(* ===== verification/Exchange.v ===== *)
(** * A server and a client, from end to end

    The composition of [Connection.v] and [HttpConnection.v]: what the threads of
    a server append to a connection, in whatever order they run, is what the
    client at the other end reads.  It models no code of its own. *)

From S2P Require Import Prelude Buffer BufferIter HttpParser Connection HttpConnection.

Import Buffer.Buffer Iter.

Section exchange.
Context `{Uninit}.
Import Connection.

(** The calls on [out_] along a schedule, whichever thread makes them. *)
Definition appends (sched : list label) : list (list op) :=
  omap (λ l, match l with Act _ (Append os) => Some os | _ => None end) sched.

(** The threads do to the connection what the server's sub-class does, and
    appends are whole responses. *)
Definition server_label (l : label) : Prop :=
  match l with Act _ (Append os) => server_action (Append os) | _ => True end.

Definition appended_by (l : label) : bytes :=
  match l with Act _ (Append os) => queue_ops [] os | _ => [] end.

(** *** Only [Append] appends *)

Definition keeps (s s' : state) : Prop := appended s' = appended s.

Lemma go_keeps t p s : appended (go t p s) = appended s.
Proof. unfold go. by destruct (threads s !! t). Qed.
Lemma hold_keeps t n s : appended (hold t n s) = appended s.
Proof. unfold hold. by destruct (threads s !! t). Qed.
Lemma mark_keeps t b s : appended (mark t b s) = appended s.
Proof. unfold mark. by destruct (threads s !! t). Qed.
Lemma on_desc_keeps f s : appended (on_desc f s) = appended s.
Proof. unfold on_desc. by destruct (on_io_desc f (conn s)) as [[cb c]|]. Qed.
Lemma release_keeps s : appended (do_release s) = appended s.
Proof. unfold do_release. destruct (release (conn s)) as [[] c]; done. Qed.

Ltac keeps := unfold keeps;
  repeat (first [rewrite go_keeps|rewrite hold_keeps|rewrite mark_keeps|rewrite on_desc_keeps|rewrite release_keeps
    |progress cbn [appended do_acquire set_conn set_deleted set_fault set_tasks set_threads set_reading set_failed add_out add_in]
    |progress unfold do_acquire]);
  rewrite ?app_nil_r; reflexivity.

Lemma take_keeps t s s' : take_callback t s = Some s' → keeps s s'.
Proof.
  unfold take_callback. intros E. destruct (tasks s); [done|].
  repeat case_decide; try done; injection E as <-; keeps.
Qed.

Lemma startWrite_keeps t k s : keeps s (startWrite t k s).
Proof. unfold startWrite. destruct (writing_ (conn s)); keeps. Qed.

Lemma doWrite_size_keeps t k s : keeps s (doWrite_size t k s).
Proof. unfold doWrite_size. destruct (readSize _); keeps. Qed.

Lemma socketWrite_keeps t k size data r s s' : socketWrite t k size data r s = Some s' → keeps s s'.
Proof.
  unfold socketWrite. intros E. destruct r as [n| | |]; try (injection E as <-; keeps).
  case_decide; [|done]. destruct (memory _ _ _); injection E as <-; keeps.
Qed.

Lemma doWrite_after_keeps t k size r s : keeps s (doWrite_after t k size r s).
Proof.
  unfold doWrite_after. destruct r as [[|n]| | |]; try keeps. destruct (consume _ _); [|keeps].
  cbv zeta. case_decide; keeps.
Qed.

Lemma doRead_keeps t r s s' : doRead t r s = Some s' → keeps s s'.
Proof.
  unfold doRead. intros E. destruct r as [d| | |]; [|injection E as <-; keeps..].
  revert E. generalize (doRead_room (in_ (conn s))) (doRead_fill d (in_ (conn s))). intros room b E.
  destruct room, b; try case_decide; try discriminate E; injection E as <-; keeps.
Qed.

Lemma proceed_keeps t a p s s' : proceed t a p s = Some s' → keeps s s'.
Proof.
  intros E. destruct p, a; cbn [proceed] in E; try discriminate E;
    first [exact (take_keeps _ _ _ E)|exact (socketWrite_keeps _ _ _ _ _ _ _ E)|exact (doRead_keeps _ _ _ _ E)|injection E as <-];
    first [apply startWrite_keeps|apply doWrite_size_keeps|apply doWrite_after_keeps|keeps].
Qed.

Lemma use_appended t a k th s s' :
  use t a k th s = Some s' → fault s' = false → appended s' = appended s ++ appended_by (Act t a).
Proof.
  intros E Hf. destruct a as [| |u|os| | |n|more| | |r|r]; cbn [appended_by]; rewrite ?app_nil_r.
  1-3, 5-12: change (keeps s s'); destruct k; cbn [use] in E; try discriminate E; repeat (case_match; try discriminate E);
    first [exact (take_keeps _ _ _ E)|injection E as <-; keeps|idtac].
  1-3: destruct (threads s !! u) as [th'|]; cbn [mbind option_bind] in E; [|discriminate E]; injection E as <-; keeps.
  cbn [use] in E. destruct (run_ops os (out_ (conn s))); injection E as <-; [|done]. by rewrite mark_keeps.
Qed.

Lemma step_appended l s s' :
  step l s = Some s' → fault s' = false → appended s' = appended s ++ appended_by l.
Proof.
  intros E Hf. destruct l as [t a| |]; cbn [step] in E.
  - destruct (threads s !! t) as [th|]; cbn [mbind option_bind] in E; [|done].
    destruct (may_use th) as [k|].
    + destruct (use t a k th s) as [s1|] eqn:E1; cbn [mbind option_bind] in E; [|done].
      destruct (deleted s); injection E as <-; [done|]. by eapply use_appended.
    + destruct (proceed t a (at_ th) s) as [s1|] eqn:E1; cbn [mbind option_bind] in E; [|done].
      destruct (deleted s); injection E as <-; [done|].
      assert (appended_by (Act t a) = []) as -> by (destruct a; try done; by destruct (at_ th)).
      rewrite app_nil_r. by eapply proceed_keeps.
  - cbn. rewrite app_nil_r. destruct (deleted s); [done|]. injection E as <-. apply on_desc_keeps.
  - cbn. rewrite app_nil_r. destruct (deleted s); [done|]. injection E as <-. apply on_desc_keeps.
Qed.

(** *** The bytes of a schedule *)

Lemma appended_run sched : ∀ s s', Inv s → Forall ok_label sched → exec step sched s = Some s' →
  Inv s' ∧ appended s' = appended s ++ concat (map (queue_ops []) (appends sched)).
Proof.
  induction sched as [|l sched IH]; intros s s' Hi Hok E.
  - injection E as <-. by rewrite app_nil_r.
  - apply Forall_cons in Hok as [Hl Hok]. cbn [exec] in E.
    destruct (step l s) as [s1|] eqn:E1; cbn [mbind option_bind] in E; [|done].
    pose proof (Inv_step_conn l s s1 Hl Hi E1) as Hi1.
    destruct (IH s1 s' Hi1 Hok E) as [Hi' Ha]. split; [done|].
    rewrite Ha, (step_appended l s s1 E1) by apply (i_fault _ Hi1). rewrite <- app_assoc. f_equal.
    unfold appends. cbn [omap list_omap]. by destruct l as [t [| | |os| | | | | | | |]| |].
Qed.

Lemma server_label_ok sched : Forall server_label sched → Forall ok_label sched.
Proof.
  intros Hs. eapply Forall_impl; [exact Hs|]. intros l Hl. destruct l as [t a| |]; [|done..]. destruct a; try done. apply Hl.
Qed.

Lemma server_appends sched : Forall server_label sched →
  ∃ Rs, Forall2 is_response (map (queue_ops []) (appends sched)) Rs.
Proof.
  induction 1 as [|l sched Hl _ [Rs IH]]; [by exists []|]. unfold appends. cbn [omap list_omap].
  destruct l as [t a| |]; [|by exists Rs..]. destruct a; try (by exists Rs).
  destruct Hl as [_ [R HR]]. exists (R :: Rs). by apply Forall2_cons.
Qed.

(** C1. From end to end.  The threads of a server use its connection in any
    interleaving, and what they append are whole responses.  Then what the
    socket was given is at any time a beginning of the responses in the order of
    the calls; and when all is quiet and no write failed, a client that
    received it, with the callbacks of its requests waiting, hands to each
    callback the response in its place and is left with no bytes. *)
Theorem responses_arrive s0 sched s cbs in_ :
  initial s0 → exec step sched s0 = Some s → Forall server_label sched →
  ∃ Rs, Forall2 is_response (map (queue_ops []) (appends sched)) Rs ∧
    (∃ rest, concat (map (queue_ops []) (appends sched)) = sent s ++ rest) ∧
    (failed s = false → quiet s → armed_write s = 0 →
     wf in_ → idx (rpos_ in_) = 0 → contents in_ = sent s →
     ∃ acts in' c', HttpClient.readDone in_ (HttpClient.mkClient cbs []) = Some (true, acts, in', c') ∧
       contents in' = [] ∧ HttpClient.called c' = zip cbs Rs).
Proof.
  intros H0 E Hs. destruct (server_appends sched Hs) as [Rs HR]. exists Rs.
  pose proof (server_label_ok sched Hs) as Hok.
  destruct (appended_run sched s0 s (proj1 (Inv_initial_conn _ H0)) Hok E) as [Hi Ha].
  assert (appended s0 = []) as Ha0 by (by destruct H0).
  rewrite Ha0, app_nil_l in Ha. split; [done|]. split.
  - rewrite <- Ha. eexists. apply (i_sent _ Hi).
  - intros Hf Hq Hw Hwf Hidx Hc. rewrite (quiet_sent s Hi Hq Hw Hf), Ha in Hc.
    destruct (readDone_responses (S (length (contents in_))) (map (queue_ops []) (appends sched)) Rs in_ (HttpClient.mkClient cbs []) [])
      as (acts & in' & Er & Hc'); try done.
    { by rewrite app_nil_r. }
    { by left. }
    { rewrite Hc. pose proof (responses_length _ _ HR). lia. }
    exists acts, in', (foldl HttpClient.answer (HttpClient.mkClient cbs []) Rs).
    split_and!; [exact Er|exact Hc'|]. by rewrite answer_all.
Qed.
End exchange.

(** ** A run: one request, answered with the error page *)

Section witness.
#[local] Instance zero_memory : Uninit := NUL.
Import Connection.

Definition page : bytes := queue_ops [] error_response.

Definition one_answer : list label :=
  [Act 0 Go; ReadEvent; Act 0 Take; Act 0 (Read (Data (b_ "G"))); Act 0 (Consume 1);
   Act 0 (Append error_response); Act 0 StartWrite; Act 0 Go; Act 0 Go; Act 0 Go;
   Act 0 (Write (Wrote (length page))); Act 0 Go; Act 0 Go;
   Act 0 (Return true); Act 0 (Read ReadAgain); Act 0 Go; Act 0 Go; Act 0 Go].

Lemma one_answer_ok : Forall server_label one_answer.
Proof.
  assert (server_label (Act 0 (Append error_response))) as Hl.
  { split; [apply (puts_are_writes [_; _; _; _; _; _; _; _; _])|].
    exists error_result. rewrite error_response_bytes. apply error_is_response. }
  unfold one_answer. repeat (apply Forall_cons; split; [first [exact Hl|exact I]|]). apply Forall_nil. exact I.
Qed.

(** What the run comes to. *)
Definition answered (o : option state) : bool :=
  match o with
  | Some s => quietb s && negb (failed s) && bool_decide (armed_write s = 0) && bool_decide (sent s = page)
  | None => false
  end.

Lemma responses_arrive_witness : ∃ acts in' c' R,
  HttpClient.readDone (buf NUL page) (HttpClient.mkClient [7] []) = Some (true, acts, in', c') ∧
  is_response page R ∧ HttpClient.called c' = [(7, R)].
Proof.
  assert (answered (exec step one_answer (server 3 0)) = true) as Ha by (vm_compute; reflexivity).
  pose proof (initial_server 3 0) as H0. revert Ha H0. generalize (server 3 0). intros s0 Ha H0.
  destruct (exec step one_answer s0) as [s|] eqn:E; [|discriminate Ha]. cbn [answered] in Ha.
  apply andb_true_iff in Ha as [[[Hq Hf]%andb_true_iff Hw]%andb_true_iff Hs]. apply bool_decide_eq_true in Hw, Hs.
  destruct (buf_spec NUL page) as (Hwf & Hi & Hc).
  destruct (responses_arrive s0 one_answer s [7] (buf NUL page) H0 E one_answer_ok) as (Rs & HR & _ & Hrd).
  destruct Hrd as (acts & in' & c' & Er & _ & Hca).
  - by destruct (failed s).
  - by apply quietb_quiet.
  - exact Hw.
  - exact Hwf.
  - exact Hi.
  - congruence.
  - change (map (queue_ops []) (appends one_answer)) with [page] in HR.
    apply Forall2_cons_inv_l in HR as (R & Rs' & HR & HRs & ->). apply Forall2_nil_inv_l in HRs as ->.
    exists acts, in', c', R. split; [exact Er|]. split; [exact HR|exact Hca].
Defined.
End witness.
