(* ===== verification/Logging.v ===== *)
(** * The log ([log_message.cpp], [log_writer.cpp])

    [LOG(severity) << text] makes a message that writes itself to the log when it
    is destroyed; the writer opens the file when it first has something to write.
    One step is the destruction of one message: [write] is a critical section. *)

From S2P Require Import Prelude.

Module Logging.

Inductive Severity := NORMAL | WARNING | ERROR | FATAL.

(** [labels[severity_]]. *)
Definition label (severity : Severity) : ascii :=
  match severity with NORMAL => " " | WARNING => "W" | ERROR => "E" | FATAL => "F" end%char.

(** A message with what was streamed into it. *)
Record LogMessage := mkMessage {
  file : bytes;
  line : Z;
  severity_ : Severity;
  text : bytes
}.

(** [msg_stream_] when [flush()] has ended it. *)
Definition msg_stream_ (m : LogMessage) : bytes :=
  [label (severity_ m); SP] ++ file m ++ b_ ":" ++ decimal (line m) ++ [SP] ++ text m ++ [LF].

Arguments msg_stream_ : simpl never.

(** [log_file_], with what has been written to it, and the process: whether a
    fatal message ends it, whether there was one, its exit code if it ended. *)
Record process := mkProcess {
  log_file_ : option bytes;
  exit_on_fatal : bool;
  has_fatal_message : bool;
  exited : option Z
}.

Definition make : process := mkProcess None true false None.

Definition set_file (f : option bytes) (p : process) : process :=
  mkProcess f (exit_on_fatal p) (has_fatal_message p) (exited p).

(** [createFile()], when [fopen] succeeds or not. *)
Definition createFile (fopen : bool) (p : process) : bool * process :=
  if fopen then (true, set_file (Some []) p) else (false, set_file None p).

(** [LogWriter::write(msg)]. *)
Definition write (fopen : bool) (msg : bytes) (p : process) : process :=
  let '(ok, p) := match log_file_ p with None => createFile fopen p | Some _ => (true, p) end in
  if ok then set_file (Some (default [] (log_file_ p) ++ msg)) p else p.

(** [~LogMessage()], in a process that is running. *)
Definition destroy (fopen : bool) (m : LogMessage) (p : process) : process :=
  let p := write fopen (msg_stream_ m) p in
  match severity_ m with
  | FATAL =>
    if exit_on_fatal p
    then mkProcess (log_file_ p) (exit_on_fatal p) (has_fatal_message p) (Some 1%Z)
    else mkProcess (log_file_ p) (exit_on_fatal p) true (exited p)
  | _ => p
  end.

(** The messages of all threads in the order in which they get the mutex, each
    with the result [fopen] would have; after [exit] there are none. *)
Fixpoint log (ms : list (bool * LogMessage)) (p : process) : process :=
  match ms with
  | [] => p
  | (fopen, m) :: ms => match exited p with Some _ => p | None => log ms (destroy fopen m p) end
  end.

(** *** What the log holds *)

(** The messages up to the one that ends the process. *)
Fixpoint alive (ms : list (bool * LogMessage)) : list (bool * LogMessage) :=
  match ms with
  | [] => []
  | x :: ms => x :: match severity_ x.2 with FATAL => [] | _ => alive ms end
  end.

(** Those that find the file open or open it. *)
Fixpoint opened (ms : list (bool * LogMessage)) : list LogMessage :=
  match ms with
  | [] => []
  | (true, m) :: ms => m :: map snd ms
  | (false, _) :: ms => opened ms
  end.

Definition is_fatal (m : LogMessage) : bool := match severity_ m with FATAL => true | _ => false end.

Lemma write_open fopen msg p d :
  log_file_ p = Some d → write fopen msg p = set_file (Some (d ++ msg)) p.
Proof. intros Hd. unfold write. rewrite Hd. cbn. by rewrite Hd. Qed.

Lemma log_exited ms p c : exited p = Some c → log ms p = p.
Proof. intros Hc. destruct ms as [|[o m] ms]; cbn; [done|]. by rewrite Hc. Qed.

Lemma log_open ms : ∀ p d, log_file_ p = Some d → exit_on_fatal p = true → exited p = None →
  log_file_ (log ms p) = Some (d ++ concat (map msg_stream_ (map snd (alive ms)))) ∧
  exited (log ms p) = (if existsb (λ x, is_fatal x.2) ms then Some 1%Z else None).
Proof.
  induction ms as [|[o m] ms IH]; intros p d Hd He Hx; cbn.
  { by rewrite app_nil_r, Hd, Hx. }
  rewrite Hx. unfold destroy. rewrite (write_open _ _ _ _ Hd). cbn. rewrite He. unfold is_fatal at 1.
  destruct (severity_ m) eqn:Hs; cbn [map snd concat].
  4: { rewrite (log_exited ms _ 1); cbn; [|done]. by rewrite app_nil_r. }
  all: destruct (IH (set_file (Some (d ++ msg_stream_ m)) p) (d ++ msg_stream_ m)) as [H1 H2]; try done;
    by rewrite <- app_assoc in H1.
Qed.

(** The log holds the messages from the first that could open the file, whole and
    in order, up to a fatal one, which ends the process with code 1; those
    before it are lost. *)
Lemma log_holds_messages ms : ∀ p,
  log_file_ p = None → exit_on_fatal p = true → exited p = None →
  log_file_ (log ms p) =
    match opened (alive ms) with [] => None | l => Some (concat (map msg_stream_ l)) end ∧
  exited (log ms p) = (if existsb (λ x, is_fatal x.2) ms then Some 1%Z else None).
Proof.
  induction ms as [|[o m] ms IH]; intros p Hd He Hx; cbn; [by rewrite Hd, Hx|].
  rewrite Hx. unfold destroy, write. rewrite Hd. unfold is_fatal at 1.
  destruct o, (severity_ m) eqn:Hs; cbn; rewrite ?He.
  4: { rewrite (log_exited ms _ 1); cbn; [|done]. by rewrite app_nil_r. }
  7: { by rewrite (log_exited ms _ 1). }
  1-3: by destruct (log_open ms (set_file (Some (msg_stream_ m)) (set_file (Some []) p)) (msg_stream_ m))
         as [-> ->].
  all: by apply IH.
Qed.

End Logging.
