(* ===== verification/Threads.v ===== *)
(** * Threads, their registry, and the report of a crash
      ([thread.cpp], [thread_registry.cpp], [signal_handler.cpp],
      [thread_local.hpp])

    [makeThread] starts threads that enter themselves in a registry while their
    body runs.  When a thread gets SIGSEGV its handler prints its stack, takes a
    copy of the registry, and makes the threads in it print theirs one after the
    other: it sends each SIGUSR1 and waits on a semaphore that the handler of
    SIGUSR1 posts.  Then it lets the signal kill the process. *)

From S2P Require Import Prelude.
From S2P Require Import Logging.

(** ** The registry *)

Module ThreadRegistry.

(** [instance_], which the first call of [instance()] creates. *)
Definition instance (instance_ : option (gset nat)) : gset nat := default ∅ instance_.

(** Each operation is one critical section of [m_]: its result, and
    [thread_ids_]. *)
Definition registerThread (tid : nat) (thread_ids_ : gset nat) : bool * gset nat :=
  (bool_decide (tid ∉ thread_ids_), {[tid]} ∪ thread_ids_).

Definition unregisterThread (tid : nat) (thread_ids_ : gset nat) : bool * gset nat :=
  (bool_decide (tid ∈ thread_ids_), thread_ids_ ∖ {[tid]}).

(** [tids] is the copy in the order in which it is iterated, which is any. *)
Definition getAllThreadIDs (tids : list nat) (thread_ids_ : gset nat) : Prop :=
  NoDup tids ∧ list_to_set tids = thread_ids_.

#[global] Instance getAllThreadIDs_dec tids ids : Decision (getAllThreadIDs tids ids).
Proof. apply _. Defined.

End ThreadRegistry.

(** [makeThread], when [pthread_create] gives a new thread's id or fails: what it
    returns, if it does, and the process after the message it logs. *)
Definition makeThread (created : option nat) (fopen : bool) (p : Logging.process) :
    option Z * Logging.process :=
  match created with
  | Some tid => (Some (Z.of_nat tid), p)
  | None =>
    let p := Logging.destroy fopen
      (Logging.mkMessage (b_ "thread.cpp") 23 Logging.FATAL (b_ "Can't create thread")) p in
    (match Logging.exited p with Some _ => None | None => Some (-1)%Z end, p)
  end.

(** A failure ends the process with code 1, unless fatal messages do not. *)
Lemma makeThread_fails fopen p :
  Logging.exited p = None →
  let '(res, p') := makeThread None fopen p in
  if Logging.exit_on_fatal p
  then res = None ∧ Logging.exited p' = Some 1%Z
  else res = Some (-1)%Z ∧ Logging.has_fatal_message p' = true.
Proof.
  intros Hx. unfold makeThread, Logging.destroy. cbn [Logging.severity_].
  assert (∀ m, Logging.exit_on_fatal (Logging.write fopen m p) = Logging.exit_on_fatal p ∧
    Logging.exited (Logging.write fopen m p) = None) as Hw.
  { intros m. unfold Logging.write, Logging.createFile. destruct (Logging.log_file_ p), fopen; by split. }
  destruct (Hw (Logging.msg_stream_ (Logging.mkMessage (b_ "thread.cpp") 23 Logging.FATAL
    (b_ "Can't create thread")))) as [He Hx'].
  revert He Hx'. generalize (Logging.write fopen (Logging.msg_stream_ (Logging.mkMessage (b_ "thread.cpp") 23
    Logging.FATAL (b_ "Can't create thread"))) p).
  intros q -> Hx'. destruct (Logging.exit_on_fatal p); cbn; by rewrite ?Hx'.
Qed.

(** ** Threads and handlers *)

Module SignalHandler.
Import ThreadRegistry.

(** [rawWrite(fd, msg, len)]: the bytes that reach the file when each [write]
    returns this and ends with [errno == EINTR] or not; [None] when the loop needs
    more results.  A [write] of fewer than [len] bytes is not continued. *)
Fixpoint rawWrite (results : list (Z * bool)) (msg : bytes) (len : nat) : option bytes :=
  match results with
  | [] => None
  | (bytes, interrupted) :: results =>
    if decide (bytes ≤ 0)%Z
    then if interrupted then rawWrite results msg len else Some []
    else Some (take (Z.to_nat bytes `min` len) msg)
  end.

(** A C string literal in memory. *)
Definition literal (s : string) : bytes := b_ s ++ [LF; NUL].

Section handler.

(** What [backtrace] and [backtrace_symbols_fd] find of a thread, when they find
    frames. *)
Context (symbols : nat → option bytes).

(** The writes of [printStackTrace()]. *)
Definition printStackTrace (t : nat) : list bytes :=
  [take 27 (literal "==== start backtrace ====");
   match symbols t with
   | Some frames => frames
   | None => take 27 (literal "Could not get stack trace")
   end;
   take 25 (literal "==== end backtrace ====")].

Definition got_signal : bytes := b_ "Got signal 11" ++ [LF].

(** What a thread does: nothing yet; [threadFunction] before it registers, while
    the body runs, before it unregisters, and before it returns; nothing more.
    The main thread is not one of [makeThread]'s. *)
Inductive pc := Absent | Entry | Body | Leave | Exit | Ended | Main.

(** Handlers that run on top of the thread: [dumpStackHandler] with the writes
    that are left; [fatalSignalHandler] before the test of [in_progress], with the
    writes that are left, before the copy of the registry, at element [i] of the
    copy, waiting for the thread at [i], after the loop, and before the default
    action. *)
Inductive handler :=
  | Dump (ws : list bytes)
  | Fatal
  | Report (ws : list bytes)
  | Copy
  | Loop (tids : list nat) (i : nat)
  | SemWait (tids : list nat) (i : nat)
  | Close (tids : list nat)
  | Default (tids : list nat).

#[global] Instance pc_eq_dec : EqDecision pc.
Proof. solve_decision. Defined.

(** [usr1] and [segv]: signals that are pending. *)
Record thread := mkThread { at_ : pc; usr1 : bool; segv : bool; handlers : list handler }.

(** The registry, the threads, the handler's flag and semaphore, what has been
    written to the standard error, whether the process is dead. *)
Record state := mkState {
  instance_ : option (gset nat);
  threads : nat → thread;
  in_progress : bool;
  sem : nat;
  err : list bytes;
  died : bool
}.

(** Thread 0 is the main thread. *)
Definition init : state :=
  mkState None (upd 0 (mkThread Main false false []) (λ _, mkThread Absent false false [])) false 0 [] false.

Definition set_thread (t : nat) (th : thread) (s : state) : state :=
  mkState (instance_ s) (upd t th (threads s)) (in_progress s) (sem s) (err s) (died s).
Definition set_ids (ids : gset nat) (s : state) : state :=
  mkState (Some ids) (threads s) (in_progress s) (sem s) (err s) (died s).
Definition set_sem (n : nat) (s : state) : state :=
  mkState (instance_ s) (threads s) (in_progress s) n (err s) (died s).
Definition set_in_progress (s : state) : state :=
  mkState (instance_ s) (threads s) true (sem s) (err s) (died s).
Definition write (w : bytes) (s : state) : state :=
  mkState (instance_ s) (threads s) (in_progress s) (sem s) (err s ++ [w]) (died s).
Definition die (s : state) : state :=
  mkState (instance_ s) (threads s) (in_progress s) (sem s) (err s) true.

Definition set_at (t : nat) (p : pc) (s : state) : state :=
  set_thread t (mkThread p (usr1 (threads s t)) (segv (threads s t)) (handlers (threads s t))) s.
Definition set_usr1 (t : nat) (b : bool) (s : state) : state :=
  set_thread t (mkThread (at_ (threads s t)) b (segv (threads s t)) (handlers (threads s t))) s.
Definition set_handlers (t : nat) (hs : list handler) (s : state) : state :=
  set_thread t (mkThread (at_ (threads s t)) (usr1 (threads s t)) (segv (threads s t)) hs) s.

(** One step of [threadFunction]. *)
Definition thread_step (t : nat) (s : state) : option state :=
  match at_ (threads s t) with
  | Entry => Some (set_at t Body (set_ids (registerThread t (instance (instance_ s))).2 s))
  | Leave => Some (set_at t Exit (set_ids (unregisterThread t (instance (instance_ s))).2 s))
  | Exit => Some (set_at t Ended s)
  | _ => None
  end.

(** [pthread_kill(u, SIGUSR1)]: an error, which is not looked at, when [u] is no
    longer there. *)
Definition pthread_kill (u : nat) (s : state) : state :=
  match at_ (threads s u) with Absent | Ended => s | _ => set_usr1 u true s end.

(** [raise(sig)] in the handler of [sig], which is blocked there: the signal is
    pending until the handler returns. *)
Definition raise (t : nat) (s : state) : state :=
  set_thread t (mkThread (at_ (threads s t)) (usr1 (threads s t)) true (handlers (threads s t))) s.

(** One step of the handler [h] that thread [t] is in, below which there are [hs].
    At its end [signal(sig, SIG_DFL)] and [raise(sig)]: when the handler returns the
    pending signal kills the process. *)
Definition handler_step (t : nat) (h : handler) (hs : list handler) (s : state) : option state :=
  let continue h := set_handlers t (h :: hs) in
  match h with
  | Dump (w :: ws) => Some (continue (Dump ws) (write w s))
  | Dump [] => Some (set_handlers t hs (set_sem (S (sem s)) s))
  | Fatal =>
    let s := if in_progress s then raise t s else s in
    Some (continue (Report (got_signal :: printStackTrace t)) (set_in_progress s))
  | Report (w :: ws) => Some (continue (Report ws) (write w s))
  | Report [] => Some (continue Copy s)
  | Copy => None
  | Loop tids i =>
    match tids !! i with
    | None => Some (continue (Close tids) s)
    | Some u =>
      if decide (u = t) then Some (continue (Loop tids (S i)) s)
      else Some (continue (SemWait tids i) (pthread_kill u s))
    end
  | SemWait tids i =>
    match sem s with
    | 0 => None
    | S n => Some (continue (Loop tids (S i)) (set_sem n s))
    end
  | Close tids => Some (continue (Default tids) s)
  | Default tids => Some (die (raise t s))
  end.

(** [SIGUSR1] is blocked while its own handler runs. *)
Definition in_dump (hs : list handler) : bool := match hs with Dump _ :: _ => true | _ => false end.

(** A step of thread [t]; a pending signal is taken before anything else. *)
Definition go (t : nat) (s : state) : option state :=
  let th := threads s t in
  if usr1 th && negb (in_dump (handlers th))
  then Some (set_thread t (mkThread (at_ th) false (segv th) (Dump (printStackTrace t) :: handlers th)) s)
  else match handlers th with
       | h :: hs => handler_step t h hs s
       | [] => thread_step t s
       end.

(** Thread [t] runs its body and nothing else. *)
Definition running (t : nat) (s : state) : Prop :=
  at_ (threads s t) = Body ∧ usr1 (threads s t) = false ∧ handlers (threads s t) = [].

#[global] Instance running_dec t s : Decision (running t s).
Proof. unfold running. destruct (handlers (threads s t)); [apply _|right; naive_solver]. Defined.

(** Somebody calls [makeThread] and [pthread_create] succeeds with a new thread;
    a thread steps; its body returns; it gets SIGSEGV; it copies the registry. *)
Inductive label := Create (t : nat) | Go (t : nat) | Return (t : nat) | Fault (t : nat)
                 | Copied (t : nat) (tids : list nat).

Definition step (l : label) (s : state) : option state :=
  if died s then None else
  match l with
  | Create t => if decide (at_ (threads s t) = Absent) then Some (set_at t Entry s) else None
  | Go t => go t s
  | Return t => if decide (running t s) then Some (set_at t Leave s) else None
  | Fault t =>
    if decide (running t s ∨ (at_ (threads s t) = Main ∧ handlers (threads s t) = []))
    then Some (set_handlers t [Fatal] s) else None
  | Copied t tids =>
    match handlers (threads s t) with
    | Copy :: hs =>
      if decide (getAllThreadIDs tids (instance (instance_ s)))
      then Some (set_handlers t (Loop tids 0 :: hs)
             (mkState (Some (instance (instance_ s))) (threads s) (in_progress s) (sem s) (err s) (died s)))
      else None
    | _ => None
    end
  end.

(** ** The registry holds the threads that run *)

Definition registered (p : pc) : bool := match p with Body | Leave => true | _ => false end.

Definition registry_ok (s : state) : Prop :=
  ∀ t, t ∈ instance (instance_ s) ↔ registered (at_ (threads s t)) = true.

(** A step that moves thread [t]. *)
Lemma registry_move t s s' :
  registry_ok s → (∀ u, u ≠ t → at_ (threads s' u) = at_ (threads s u)) →
  (∀ u, u ≠ t → u ∈ instance (instance_ s') ↔ u ∈ instance (instance_ s)) →
  (t ∈ instance (instance_ s') ↔ registered (at_ (threads s' t)) = true) →
  registry_ok s'.
Proof.
  intros Hr Ha Hi Ht u. destruct (decide (u = t)) as [->|Hne]; [done|].
  rewrite Hi, Ha by done. apply Hr.
Qed.

(** A step that moves no thread and leaves the registry alone. *)
Lemma registry_keep s s' :
  registry_ok s → instance (instance_ s') = instance (instance_ s) →
  (∀ t, at_ (threads s' t) = at_ (threads s t)) → registry_ok s'.
Proof. intros Hr Hi Ha t. rewrite Hi, Ha. apply Hr. Qed.

Lemma at_set_thread t th s u :
  at_ th = at_ (threads s t) → at_ (upd t th (threads s) u) = at_ (threads s u).
Proof. intros Ha. by upd_cases u t. Qed.

Lemma pthread_kill_at u s t : at_ (threads (pthread_kill u s) t) = at_ (threads s t).
Proof. unfold pthread_kill. destruct (at_ (threads s u)); try done; cbn; by apply at_set_thread. Qed.

Lemma pthread_kill_instance u s : instance_ (pthread_kill u s) = instance_ s.
Proof. unfold pthread_kill. by destruct (at_ (threads s u)). Qed.

(** The threads of [s'] are where those of [s] are. *)
Ltac at_kept :=
  intros; cbn; repeat match goal with |- context [upd ?t _ _ ?u] => upd_cases u t; cbn end;
  rewrite ?upd_eq; done.

Lemma handler_keeps t h hs s s' :
  handler_step t h hs s = Some s' →
  instance_ s' = instance_ s ∧ ∀ u, at_ (threads s' u) = at_ (threads s u).
Proof.
  intros Hs. destruct h as [[|w ws]| |[|w ws]| |tids i|tids i|tids|tids]; cbn in Hs; simplify_eq; cbn;
    try (by split; [done|at_kept]).
  - destruct (in_progress s); split; try done; intros u; cbn; upd_cases u t; cbn; by rewrite ?upd_eq.
  - destruct (tids !! i) as [v|]; [case_decide|]; simplify_eq; cbn;
      try (by split; [done|at_kept]).
    split; [apply pthread_kill_instance|]. intros u. upd_cases u t; cbn; by rewrite pthread_kill_at.
  - destruct (sem s); simplify_eq. by split; [done|at_kept].
Qed.

Lemma registry_step l s s' : registry_ok s → step l s = Some s' → registry_ok s'.
Proof.
  intros Hr Hs. unfold step in Hs. destruct (died s); [done|]. destruct l as [t|t|t|t|t tids].
  - case_decide as Ha; simplify_eq. apply (registry_move t s); cbn; [done| | |].
    + intros u Hu. by rewrite upd_ne.
    + done.
    + rewrite upd_eq. cbn. rewrite (Hr t), Ha. done.
  - unfold go in Hs. case_match; simplify_eq; cbn.
    + apply (registry_keep s); cbn; [done..|]. intros u. by apply at_set_thread.
    + destruct (handlers (threads s t)) as [|h hs].
      * unfold thread_step in Hs. destruct (at_ (threads s t)) eqn:Ha; simplify_eq;
          (apply (registry_move t s); cbn; [done|intros u Hu; by rewrite upd_ne| |rewrite upd_eq; cbn]).
        -- intros u Hu. set_solver.
        -- set_solver.
        -- intros u Hu. set_solver.
        -- set_solver.
        -- done.
        -- rewrite (Hr t), Ha. done.
      * destruct (handler_keeps _ _ _ _ _ Hs) as [Hi Ha]. apply (registry_keep s); [done|by rewrite Hi|done].
  - case_decide as Ha; simplify_eq. destruct Ha as [Ha _]. apply (registry_move t s); cbn; [done| |done|].
    + intros u Hu. by rewrite upd_ne.
    + rewrite upd_eq. cbn. rewrite (Hr t), Ha. done.
  - case_decide as Ha; simplify_eq. apply (registry_keep s); cbn; [done..|]. intros u. by apply at_set_thread.
  - destruct (handlers (threads s t)) as [|[] hs]; try done. case_decide; simplify_eq.
    apply (registry_keep s); cbn; [done..|]. intros u. by apply at_set_thread.
Qed.

(** ** The report of a crash *)

(** What the standard error gets when thread [f] crashes and the copy of the
    registry is [tids]. *)
Definition report (f : nat) (tids : list nat) : list bytes :=
  got_signal :: printStackTrace f ++ concat (map printStackTrace (filter (λ u, u ≠ f) tids)).

Lemma report_self f tids i : tids !! i = Some f → report f (take (S i) tids) = report f (take i tids).
Proof.
  intros Hi. unfold report. rewrite (take_S_r _ _ f) by done. rewrite filter_app, filter_cons_False by naive_solver.
  by rewrite filter_nil, app_nil_r.
Qed.

Lemma report_other f tids i u : tids !! i = Some u → u ≠ f →
  report f (take (S i) tids) = report f (take i tids) ++ printStackTrace u.
Proof.
  intros Hi Hne. unfold report. rewrite (take_S_r _ _ u) by done.
  rewrite filter_app, filter_cons_True by done. rewrite filter_nil, map_app, concat_app. cbn [map concat].
  by rewrite app_nil_r, app_assoc.
Qed.

(** Only thread [f] crashes. *)
Definition crashes_only (f : nat) (l : label) : Prop := match l with Fault t => t = f | _ => True end.

(** A thread that no signal concerns. *)
Definition quiet (s : state) (t : nat) : Prop :=
  usr1 (threads s t) = false ∧ handlers (threads s t) = [].

#[global] Instance quiet_dec s t : Decision (quiet s t).
Proof. unfold quiet. destruct (handlers (threads s t)); [apply _|right; naive_solver]. Defined.

(** What the thread [u] at place [i] has done about the signal it was sent: it has
    not noticed it, is printing its stack, has printed it, or did not get it. *)
Inductive answer (f : nat) (tids : list nat) (i u : nat) (s : state) : Prop :=
  | Asked :
    usr1 (threads s u) = true → handlers (threads s u) = [] → sem s = 0 →
    err s = report f (take i tids) → answer f tids i u s
  | Answering ws :
    usr1 (threads s u) = false → handlers (threads s u) = [Dump ws] → sem s = 0 →
    err s ++ ws = report f (take (S i) tids) → answer f tids i u s
  | Answered :
    quiet s u → sem s = 1 → err s = report f (take (S i) tids) → answer f tids i u s
  | Lost :
    quiet s u → sem s = 0 → err s = report f (take i tids) → answer f tids i u s.

Definition calm (f : nat) (s : state) : Prop := sem s = 0 ∧ ∀ u, u ≠ f → quiet s u.

(** How far the handler of thread [f] is. *)
Definition handling (f : nat) (h : handler) (s : state) : Prop :=
  match h with
  | Dump _ => False
  | Fatal => calm f s ∧ err s = []
  | Report ws => calm f s ∧ err s ++ ws = report f []
  | Copy => calm f s ∧ err s = report f []
  | Loop tids i => calm f s ∧ NoDup tids ∧ i ≤ length tids ∧ err s = report f (take i tids)
  | SemWait tids i =>
    NoDup tids ∧ ∃ u, tids !! i = Some u ∧ u ≠ f ∧ answer f tids i u s ∧
    ∀ v, v ≠ f → v ≠ u → quiet s v
  | Close tids | Default tids => calm f s ∧ NoDup tids ∧ err s = report f tids
  end.

Definition stage (f : nat) (s : state) : Prop :=
  match handlers (threads s f) with
  | [] => calm f s ∧ err s = []
  | [h] => handling f h s
  | _ => False
  end.

Record crash (f : nat) (s : state) : Prop := {
  c_usr1 : usr1 (threads s f) = false;
  c_stage : stage f s;
  c_died : died s = true → ∃ tids, handlers (threads s f) = [Default tids]
}.

(** A step that concerns no signal and no output. *)
Lemma crash_same f s s' :
  crash f s →
  (∀ u, usr1 (threads s' u) = usr1 (threads s u) ∧ handlers (threads s' u) = handlers (threads s u)) →
  sem s' = sem s → err s' = err s → died s' = died s → crash f s'.
Proof.
  intros [Hu Hst Hd] Hsame Hsem Herr Hd'.
  assert (∀ u, quiet s u → quiet s' u) as Hq.
  { intros u. unfold quiet. destruct (Hsame u) as [-> ->]. done. }
  assert (calm f s → calm f s') as Hc by (intros [??]; split; [congruence|auto]).
  destruct (Hsame f) as [Huf Hhf]. split; [by rewrite Huf| |by rewrite Hd', Hhf].
  unfold stage in *. rewrite Hhf. destruct (handlers (threads s f)) as [|h [|? ?]]; [|destruct h|done];
    cbn in Hst |- *; rewrite ?Herr; try (destruct Hst as [Hs0 Hst]; split; [by apply Hc|done]); try done.
  destruct Hst as (Hn & u & Hi & Hne & Ha & Ho). split; [done|]. exists u. split_and!; try done; [|by auto].
  destruct (Hsame u) as [Hu1 Hu2].
  destruct Ha as [? ?|ws ? ?|Hqa ? ?|Hqa ? ?];
    [apply Asked|eapply (Answering _ _ _ _ _ ws)|apply Answered|apply Lost];
    try (by auto); rewrite ?Hu1, ?Hu2, ?Herr, ?Hsem; done.
Qed.

(** The steps of the thread that is to print its stack. *)
Lemma crash_answer f tids i u s s' :
  answer f tids i u s → ¬ quiet s u → tids !! i = Some u → u ≠ f → go u s = Some s' →
  answer f tids i u s' ∧ died s' = died s ∧ ∀ v, v ≠ u → threads s' v = threads s v.
Proof.
  intros Ha Hq Hi Hne Hs. unfold go in Hs.
  assert (Hfree : ∀ v th, v ≠ u → upd u th (threads s) v = threads s v) by (intros; by apply upd_ne).
  destruct Ha as [Hu Hh Hsem He|ws Hu Hh Hsem He|Hqa ? ?|Hqa ? ?]; try done.
  - rewrite Hu, Hh in Hs. cbn in Hs. simplify_eq. cbn. split_and!; try done; [|by auto].
    apply (Answering _ _ _ _ _ (printStackTrace u)); cbn; rewrite ?upd_eq; try done.
    by rewrite He, (report_other _ _ _ _ Hi Hne).
  - rewrite Hu, Hh in Hs. cbn in Hs. destruct ws as [|w ws]; cbn in Hs; simplify_eq; cbn;
      (split_and!; [|done|by auto]).
    + rewrite app_nil_r in He. apply Answered; cbn; [|by rewrite Hsem|done].
      unfold quiet. cbn. rewrite !upd_eq. done.
    + apply (Answering _ _ _ _ _ ws); cbn; rewrite ?upd_eq; try done. by rewrite <- app_assoc.
Qed.

(** The thread that crashed, or will, when its own state is all that changes. *)
Lemma crash_self f s s' h :
  calm f s → (∀ u, u ≠ f → threads s' u = threads s u) →
  usr1 (threads s' f) = false → handlers (threads s' f) = [h] →
  sem s' = 0 → (died s' = true → ∃ tids, h = Default tids) →
  (calm f s' → handling f h s') → crash f s'.
Proof.
  intros [Hsem Hc] Ht Hu Hh Hsem' Hd Hst.
  assert (calm f s') as Hc'.
  { split; [done|]. intros u Hne. unfold quiet. rewrite Ht by done. by apply Hc. }
  split; [done| |].
  - unfold stage. rewrite Hh. by apply Hst.
  - rewrite Hh. intros [tids ->]%Hd. by exists tids.
Qed.

(** Closes the conditions of [crash_self] that a step of the handler satisfies by
    its shape. *)
Ltac own_step :=
  cbn; rewrite ?upd_eq; try done; try (by intros; rewrite ?upd_ne by done); try congruence.

(** [pthread_kill] of the thread at place [i]. *)
Lemma crash_kill f tids i u s :
  usr1 (threads s f) = false → died s = false → calm f s → NoDup tids →
  err s = report f (take i tids) → tids !! i = Some u → u ≠ f →
  crash f (set_handlers f [SemWait tids i] (pthread_kill u s)).
Proof.
  intros Hu Hd [Hsem Hc] Hn He Hi Hne.
  assert (sem (pthread_kill u s) = 0 ∧ err (pthread_kill u s) = err s ∧ died (pthread_kill u s) = false ∧
    ∀ v, v ≠ u → threads (pthread_kill u s) v = threads s v) as (Hs' & He' & Hd' & Ht').
  { unfold pthread_kill. destruct (at_ (threads s u)); cbn; split_and!; try done; intros; by rewrite upd_ne. }
  assert (quiet (pthread_kill u s) u ∨
    usr1 (threads (pthread_kill u s) u) = true ∧ handlers (threads (pthread_kill u s) u) = []) as Hk.
  { pose proof (Hc u Hne) as [Hq1 Hq2]. unfold pthread_kill, quiet.
    destruct (at_ (threads s u)); cbn; rewrite ?upd_eq; auto. }
  split; cbn; rewrite ?upd_eq; cbn; [by rewrite Ht' by done| |by rewrite Hd'].
  unfold stage. cbn. rewrite upd_eq. cbn. split; [done|]. exists u. split_and!; try done.
  - destruct Hk as [[Hk1 Hk2]|[Hk1 Hk2]]; [apply Lost|apply Asked]; cbn; unfold quiet; cbn;
      rewrite ?upd_ne by done; rewrite ?Hs', ?He'; try done.
  - intros v Hv1 Hv2. unfold quiet. cbn. rewrite upd_ne, Ht' by done. by apply Hc.
Qed.

(** The steps of the handler of the thread that crashed. *)
Lemma crash_handler f h s s' :
  usr1 (threads s f) = false → handlers (threads s f) = [h] → died s = false → handling f h s →
  handler_step f h [] s = Some s' → crash f s'.
Proof.
  intros Hu Hh Hd Hst Hs. destruct h as [ws| |[|w ws]| |tids i|tids i|tids|tids]; cbn in Hst, Hs; try done.
  - destruct Hst as [Hc He]. simplify_eq. pose proof Hc as [Hsem _].
    apply (crash_self f s _ (Report (got_signal :: printStackTrace f))); destruct (in_progress s); own_step.
    all: intros Hc'; split; [done|]; cbn; by rewrite He.
  - destruct Hst as [Hc He]. simplify_eq. pose proof Hc as [Hsem _].
    apply (crash_self f s _ Copy); own_step. intros Hc'. split; [done|]. by rewrite app_nil_r in He.
  - destruct Hst as [Hc He]. simplify_eq. pose proof Hc as [Hsem _].
    apply (crash_self f s _ (Report ws)); own_step. intros Hc'. split; [done|]. cbn. by rewrite <- app_assoc.
  - destruct Hst as (Hc & Hn & Hi & He). pose proof Hc as [Hsem _].
    destruct (tids !! i) as [u|] eqn:Hl; [case_decide as Huf|]; simplify_eq.
    + apply (crash_self f s _ (Loop tids (S i))); own_step.
      intros Hc'. split_and!; [done|done| |by rewrite (report_self _ _ _ Hl)].
      apply lookup_lt_Some in Hl. lia.
    + by apply crash_kill.
    + apply (crash_self f s _ (Close tids)); own_step.
      intros Hc'. split_and!; [done|done|]. cbn. apply lookup_ge_None in Hl. by rewrite take_ge in He.
  - destruct Hst as (Hn & u & Hl & Hne & Ha & Ho).
    destruct (sem s) as [|n] eqn:Hsem; simplify_eq.
    destruct Ha as [? ? Ha ?|ws ? ? Ha ?|Hq Ha He|? Ha ?]; rewrite Hsem in Ha; simplify_eq.
    apply (crash_self f (set_sem 0 s) _ (Loop tids (S i))); own_step.
    + split; [done|]. intros v Hv. destruct (decide (v = u)) as [->|]; [done|by apply Ho].
    + intros Hc'. split_and!; [done|done| |done]. apply lookup_lt_Some in Hl. lia.
  - destruct Hst as (Hc & Hn & He). simplify_eq. pose proof Hc as [Hsem _].
    apply (crash_self f s _ (Default tids)); own_step.
  - destruct Hst as (Hc & Hn & He). simplify_eq. pose proof Hc as [Hsem _].
    apply (crash_self f s _ (Default tids)); own_step. intros _. by exists tids.
Qed.

(** A thread other than [f] that has a handler or a pending signal is the one the
    handler waits for. *)
Lemma crash_busy f s v :
  crash f s → v ≠ f → ¬ quiet s v →
  ∃ tids i, handlers (threads s f) = [SemWait tids i] ∧ NoDup tids ∧ tids !! i = Some v ∧
    answer f tids i v s ∧ ∀ w, w ≠ f → w ≠ v → quiet s w.
Proof.
  intros [_ Hst _] Hne Hq. unfold stage in Hst.
  assert (calm f s → False) as Hc by (intros [_ Hc]; by apply Hq, Hc).
  destruct (handlers (threads s f)) as [|h [|? ?]]; [by destruct Hst|destruct h|done]; cbn in Hst;
    try (by destruct Hst). destruct Hst as (Hn & u & Hi & Hu & Ha & Ho).
  destruct (decide (v = u)) as [->|]; [|by destruct Hq; apply Ho]. by exists tids, i.
Qed.

Lemma crash_go_other f v s s' : crash f s → v ≠ f → ¬ quiet s v → go v s = Some s' → crash f s'.
Proof.
  intros HI Hne Hq Hs. destruct (crash_busy f s v HI Hne Hq) as (tids & i & Hh & Hn & Hi & Ha & Ho).
  destruct HI as [Hu Hst Hd]. destruct (crash_answer _ _ _ _ _ _ Ha Hq Hi Hne Hs) as (Ha' & Hd' & Ht).
  assert (threads s' f = threads s f) as Hf by (apply Ht; congruence).
  split; [by rewrite Hf| |by rewrite Hd', Hf].
  unfold stage. rewrite Hf, Hh. cbn. split; [done|]. exists v. split_and!; try done.
  intros w Hw1 Hw2. unfold quiet. rewrite Ht by done. by apply Ho.
Qed.

Ltac same_signals :=
  let v := fresh "v" in
  intros v; cbn; match goal with |- context [upd ?t _ _ v] => by upd_cases v t end.

Lemma crash_go f v s s' : crash f s → died s = false → go v s = Some s' → crash f s'.
Proof.
  intros HI Hd Hs. pose proof Hs as Hgo. unfold go in Hs.
  destruct (usr1 (threads s v) && negb (in_dump (handlers (threads s v)))) eqn:Hp.
  { apply andb_true_iff in Hp as [Hu _]. apply (crash_go_other f v s); [done| |intros [Hq _]; congruence|done].
    intros ->. by rewrite (c_usr1 _ _ HI) in Hu. }
  destruct (handlers (threads s v)) as [|h hs] eqn:Hh.
  - apply (crash_same f s); [done|..]; unfold thread_step in Hs;
      destruct (at_ (threads s v)); simplify_eq; try done; same_signals.
  - destruct (decide (v = f)) as [->|Hne].
    + pose proof HI as [Hu Hst _]. unfold stage in Hst. rewrite Hh in Hst.
      destruct hs; [|done]. by apply (crash_handler f h s).
    + apply (crash_go_other f v s); [done|done| |done]. intros [_ Hq]; congruence.
Qed.

(** Whatever happens, the handler goes on as planned. *)
Lemma crash_step f l s s' : crash f s → crashes_only f l → step l s = Some s' → crash f s'.
Proof.
  intros HI Hok Hs. unfold step in Hs. destruct (died s) eqn:Hd; [done|].
  destruct l as [t|t|t|t|t tids].
  - case_decide; simplify_eq. apply (crash_same f s); try done. same_signals.
  - by eapply crash_go.
  - case_decide; simplify_eq. apply (crash_same f s); try done. same_signals.
  - cbn in Hok. subst t. case_decide as Hr; simplify_eq.
    assert (handlers (threads s f) = []) as Hh by (destruct Hr as [(_ & _ & ?)|[_ ?]]; done).
    pose proof HI as [Hu Hst _]. unfold stage in Hst. rewrite Hh in Hst. destruct Hst as [Hc He].
    pose proof Hc as [Hsem _]. apply (crash_self f s _ Fatal); own_step.
  - destruct (handlers (threads s t)) as [|[] hs] eqn:Hh; try done.
    case_decide as Hg; simplify_eq. pose proof HI as [Hu Hst _].
    destruct (decide (t = f)) as [->|Hne].
    + unfold stage in Hst. rewrite Hh in Hst. destruct hs; [|done]. destruct Hst as [Hc He].
      pose proof Hc as [Hsem _]. apply (crash_self f s _ (Loop tids 0)); own_step.
      intros Hc'. split_and!; [done|apply Hg|lia|done].
    + destruct (crash_busy f s t HI Hne) as (? & ? & _ & _ & _ & Ha & _); [intros [_ Hq]; congruence|].
      destruct Ha as [? Hb|ws ? Hb|[_ Hb]|[_ Hb]]; congruence.
Qed.

Lemma crash_init f : crash f init.
Proof.
  assert (∀ u, quiet init u) as Hq by (intros u; unfold quiet; cbn; by upd_cases u 0).
  split; [apply Hq| |done]. unfold stage. destruct (Hq f) as [_ ->]. by split.
Qed.

(** Executions in which only [f] crashes. *)
Definition runs (f : nat) (s s' : state) : Prop :=
  ∃ sched, Forall (crashes_only f) sched ∧ exec step sched s = Some s'.

Lemma runs_invariant f (P : state → Prop) s s' :
  (∀ l s s', P s → crashes_only f l → step l s = Some s' → P s') → P s → runs f s s' → P s'.
Proof.
  intros Hstep HP (sched & Hok & He). revert s HP He.
  induction Hok as [|l sched Hl Hok IH]; intros s HP He; cbn in He; [by simplify_eq|].
  destruct (step l s) as [s1|] eqn:Hs; cbn in He; [|done]. eapply IH; [|exact He]. by eapply Hstep.
Qed.

Lemma runs_refl f s : runs f s s.
Proof. exists []. by split. Qed.

Lemma runs_trans f s1 s2 s3 : runs f s1 s2 → runs f s2 s3 → runs f s1 s3.
Proof.
  intros (l1 & Hl1 & H1) (l2 & Hl2 & H2). exists (l1 ++ l2). split; [by apply Forall_app|].
  by rewrite exec_app, H1.
Qed.

Lemma runs_go f t s s' : died s = false → go t s = Some s' → runs f s s'.
Proof.
  intros Hd Hs. exists [Go t]. split; [by repeat constructor|]. cbn. unfold step. by rewrite Hd, Hs.
Qed.

Lemma crash_runs f s s' : crash f s → runs f s s' → crash f s'.
Proof. apply runs_invariant. intros l s1 s2 ???. by eapply crash_step. Qed.

Lemma not_died f s tids i : crash f s → handlers (threads s f) = [Loop tids i] → died s = false.
Proof.
  intros HI Hh. destruct (died s) eqn:Hd; [|done]. destruct (c_died _ _ HI Hd) as [? He]. congruence.
Qed.

(** *** The handler gets past a thread that is there *)

(** The steps of [t] that leave the others where they are. *)
Definition beside (t : nat) (s s' : state) : Prop :=
  died s' = died s ∧ (∀ u, at_ (threads s' u) = at_ (threads s u)) ∧ ∀ u, u ≠ t → threads s' u = threads s u.

Lemma dump_ends f u ws : ∀ s,
  died s = false → handlers (threads s u) = [Dump ws] →
  ∃ s', runs f s s' ∧ beside u s s' ∧ sem s' = S (sem s).
Proof.
  induction ws as [|w ws IH]; intros s Hd Hh.
  - assert (go u s = Some (set_handlers u [] (set_sem (S (sem s)) s))) as Hs.
    { unfold go. rewrite Hh. by rewrite andb_false_r. }
    eexists. split; [by eapply runs_go|]. cbn. split; [|done]. split; [done|].
    split; [at_kept|]. intros v Hv. cbn. by rewrite upd_ne.
  - assert (go u s = Some (set_handlers u [Dump ws] (write w s))) as Hs.
    { unfold go. rewrite Hh. by rewrite andb_false_r. }
    destruct (IH (set_handlers u [Dump ws] (write w s))) as (s' & Hr & (Hd' & Ha & Ho) & Hsem);
      [done|cbn; by rewrite upd_eq|].
    exists s'. split; [eapply runs_trans; [by eapply runs_go|exact Hr]|]. split; [|done].
    split; [done|]. split.
    + intros v. rewrite Ha. at_kept.
    + intros v Hv. rewrite Ho by done. cbn. by rewrite upd_ne.
Qed.

Definition there (p : pc) : Prop := p ≠ Absent ∧ p ≠ Ended.

Lemma pass_thread f s tids i u :
  crash f s → handlers (threads s f) = [Loop tids i] → tids !! i = Some u → u ≠ f →
  there (at_ (threads s u)) →
  ∃ s', runs f s s' ∧ handlers (threads s' f) = [Loop tids (S i)] ∧
        ∀ v, at_ (threads s' v) = at_ (threads s v).
Proof.
  intros HI Hh Hi Hne [Hab Hen]. pose proof (not_died _ _ _ _ HI Hh) as Hd.
  pose proof HI as [Huf Hst _]. unfold stage in Hst. rewrite Hh in Hst. destruct Hst as ([Hsem Hc] & _).
  destruct (Hc u Hne) as [Hqu Hqh].
  set (s1 := set_handlers f [SemWait tids i] (set_usr1 u true s)).
  assert (go f s = Some s1) as H1.
  { unfold go. rewrite Huf, Hh. cbn. rewrite Hi, decide_False by done. unfold pthread_kill.
    by destruct (at_ (threads s u)). }
  set (s2 := set_thread u (mkThread (at_ (threads s1 u)) false (segv (threads s1 u))
    [Dump (printStackTrace u)]) s1).
  assert (go u s1 = Some s2) as H2.
  { unfold go, s2, s1. cbn. rewrite (upd_ne f u) by done. rewrite upd_eq. cbn. by rewrite Hqh. }
  destruct (dump_ends f u (printStackTrace u) s2) as (s3 & Hr3 & (Hd3 & Ha3 & Ho3) & Hs3).
  { by unfold s2, s1. }
  { unfold s2. cbn. by rewrite upd_eq. }
  assert (threads s3 f = threads s1 f) as Hf3.
  { rewrite Ho3 by done. unfold s2. cbn. by rewrite upd_ne. }
  assert (threads s1 f = mkThread (at_ (threads s f)) false (segv (threads s f)) [SemWait tids i]) as Hf1.
  { unfold s1. cbn. rewrite upd_eq, upd_ne by done. by rewrite Huf. }
  assert (go f s3 = Some (set_handlers f [Loop tids (S i)] (set_sem 0 s3))) as H4.
  { unfold go. rewrite Hf3, Hf1. cbn. rewrite Hs3. unfold s2, s1. cbn. by rewrite Hsem. }
  exists (set_handlers f [Loop tids (S i)] (set_sem 0 s3)). split_and!.
  - eapply runs_trans; [by eapply runs_go|]. eapply runs_trans; [by eapply (runs_go _ u)|].
    eapply runs_trans; [exact Hr3|]. eapply runs_go; [|exact H4]. by rewrite Hd3.
  - cbn. by rewrite upd_eq.
  - intros v. trans (at_ (threads s3 v)); [at_kept|]. rewrite Ha3. unfold s2, s1. at_kept.
Qed.

(** So it gets to its end when all that are left are there. *)
Lemma loop_ends f tids n : ∀ s i,
  n = length tids - i → crash f s → handlers (threads s f) = [Loop tids i] →
  (∀ u, u ∈ drop i tids → u ≠ f → there (at_ (threads s u))) →
  ∃ s', runs f s s' ∧ died s' = true ∧ err s' = report f tids.
Proof.
  induction n as [|n IH]; intros s i Hn HI Hh Hthere; pose proof (not_died _ _ _ _ HI Hh) as Hd;
    pose proof (c_usr1 _ _ HI) as Hu.
  - assert (go f s = Some (set_handlers f [Close tids] s)) as H1.
    { unfold go. rewrite Hu, Hh. cbn. by rewrite lookup_ge_None_2 by lia. }
    set (s1 := set_handlers f [Close tids] s) in *.
    assert (go f s1 = Some (set_handlers f [Default tids] s1)) as H2.
    { unfold go, s1. cbn. rewrite upd_eq. cbn. by rewrite Hu. }
    set (s2 := set_handlers f [Default tids] s1) in *.
    assert (go f s2 = Some (die (raise f s2))) as H3.
    { unfold go, s2, s1. cbn. rewrite upd_eq. cbn. rewrite upd_eq. cbn. by rewrite Hu. }
    assert (runs f s (die (raise f s2))) as Hr.
    { eapply runs_trans; [by eapply runs_go|]. eapply runs_trans; by eapply runs_go. }
    eexists. split; [exact Hr|]. split; [done|].
    destruct (crash_runs _ _ _ HI Hr) as [_ Hst _]. unfold stage in Hst.
    unfold s2 in Hst. cbn in Hst. rewrite !upd_eq in Hst. apply Hst.
  - destruct (lookup_lt_is_Some_2 tids i) as [u Hi]; [lia|].
    assert (∃ s1, runs f s s1 ∧ handlers (threads s1 f) = [Loop tids (S i)] ∧
      ∀ v, at_ (threads s1 v) = at_ (threads s v)) as (s1 & Hr1 & Hh1 & Ha1).
    { destruct (decide (u = f)) as [->|Hne].
      - eexists. split; [eapply (runs_go f f); [done|]|split].
        + unfold go. rewrite Hu, Hh. cbn. rewrite Hi, decide_True by done. reflexivity.
        + cbn. by rewrite upd_eq.
        + at_kept.
      - apply (pass_thread _ _ _ _ u); try done. apply Hthere; [|done].
        rewrite (drop_S tids u i) by done. left. }
    destruct (IH s1 (S i)) as (s' & Hr' & Hs'); [lia|by eapply crash_runs|done| |].
    { intros v Hv Hne. rewrite Ha1. apply Hthere; [|done]. rewrite (drop_S tids u i) by done. by right. }
    exists s'. split; [by eapply runs_trans|done].
Qed.

(** *** It never gets past a thread that has ended *)

Record hangs (f u : nat) (tids : list nat) (i : nat) (s : state) : Prop := {
  h_crash : crash f s;
  h_ended : at_ (threads s u) = Ended;
  h_here : tids !! i = Some u ∧ u ≠ f;
  h_waits : handlers (threads s f) = [Loop tids i] ∨
            handlers (threads s f) = [SemWait tids i] ∧ sem s = 0 ∧ ∀ v, v ≠ f → quiet s v
}.

Lemma hangs_quiet f u tids i s v : hangs f u tids i s → v ≠ f → quiet s v.
Proof.
  intros [HI _ _ [Hh|(_ & _ & Hq)]] Hv; [|by apply Hq].
  destruct HI as [_ Hst _]. unfold stage in Hst. rewrite Hh in Hst. by apply Hst.
Qed.

Lemma hangs_died f u tids i s : hangs f u tids i s → died s = false.
Proof.
  intros [HI _ _ Hw]. destruct (died s) eqn:Hd; [|done]. destruct (c_died _ _ HI Hd) as [? He].
  destruct Hw as [Hw|[Hw _]]; congruence.
Qed.

(** The steps of the others. *)
Lemma hangs_same f u tids i s s' :
  hangs f u tids i s → crash f s' → at_ (threads s' u) = Ended → sem s' = sem s →
  (∀ v, usr1 (threads s' v) = usr1 (threads s v) ∧ handlers (threads s' v) = handlers (threads s v)) →
  hangs f u tids i s'.
Proof.
  intros HI Hc Hu Hsem Hsame. split; [done|done|apply HI|].
  destruct (h_waits _ _ _ _ _ HI) as [Hh|(Hh & Hs & Hq)]; [left|right]; rewrite (proj2 (Hsame f)); [done|].
  split_and!; [done|congruence|]. intros v Hv. unfold quiet. destruct (Hsame v) as [-> ->]. by apply Hq.
Qed.

Lemma hangs_step f u tids i l s s' :
  hangs f u tids i s → crashes_only f l → step l s = Some s' → hangs f u tids i s'.
Proof.
  intros HI Hok Hs. assert (crash f s') as Hc by (eapply crash_step; [apply HI|done|done]).
  pose proof (hangs_died _ _ _ _ _ HI) as Hd. pose proof (h_ended _ _ _ _ _ HI) as Hu.
  destruct (h_here _ _ _ _ _ HI) as [Hi Hne].
  unfold step in Hs. rewrite Hd in Hs. destruct l as [t|t|t|t|t tids'].
  - case_decide as Ha; simplify_eq. apply (hangs_same f u tids i s); try done; [|same_signals].
    cbn. rewrite upd_ne by congruence. done.
  - destruct (decide (t = f)) as [->|Htf].
    + unfold go in Hs. rewrite (c_usr1 _ _ (h_crash _ _ _ _ _ HI)) in Hs. cbn in Hs.
      destruct (h_waits _ _ _ _ _ HI) as [Hh|(Hh & Hsem & Hq)]; rewrite Hh in Hs; cbn in Hs.
      * rewrite Hi, decide_False in Hs by done. unfold pthread_kill in Hs. rewrite Hu in Hs. simplify_eq.
        split; [done|cbn; by rewrite upd_ne|done|]. right. cbn. rewrite upd_eq.
        pose proof (h_crash _ _ _ _ _ HI) as [_ Hst _]. unfold stage in Hst. rewrite Hh in Hst.
        split_and!; [done|apply Hst|]. intros v Hv. unfold quiet. cbn. rewrite upd_ne by done.
        by eapply hangs_quiet.
      * by rewrite Hsem in Hs.
    + destruct (hangs_quiet _ _ _ _ _ t HI Htf) as [Hq1 Hq2]. unfold go in Hs. rewrite Hq1, Hq2 in Hs.
      cbn in Hs. unfold thread_step in Hs.
      destruct (at_ (threads s t)) eqn:Ha; simplify_eq; apply (hangs_same f u tids i s); try done;
        try same_signals; cbn; rewrite upd_ne by congruence; done.
  - case_decide as Hr; simplify_eq. destruct Hr as [Ha _]. apply (hangs_same f u tids i s); try done; [|same_signals].
    cbn. rewrite upd_ne by congruence. done.
  - cbn in Hok. subst t. case_decide as Hr; simplify_eq. exfalso.
    assert (handlers (threads s f) = []) as Hh by (destruct Hr as [(_ & _ & ?)|[_ ?]]; done).
    destruct (h_waits _ _ _ _ _ HI) as [Hw|[Hw _]]; congruence.
  - destruct (handlers (threads s t)) as [|[] hs] eqn:Hh; try done. exfalso.
    destruct (decide (t = f)) as [->|Htf].
    + destruct (h_waits _ _ _ _ _ HI) as [Hw|[Hw _]]; congruence.
    + destruct (hangs_quiet _ _ _ _ _ t HI Htf). congruence.
Qed.

Lemma registry_init : registry_ok init.
Proof. intros t. cbn. upd_cases t 0; split; try done; set_solver. Qed.

(** C27.  The report of a crash, when one thread crashes: the handler copies the ids
    of the threads whose body runs; when it gets the process killed it has printed
    its own stack and then that of every other thread of the copy, whole and once.
    In its loop it has printed those before its place; it can get to the end
    when all the threads that are left are there, and never gets there when the one
    at its place has ended since the copy. *)
Theorem crash_report f s :
  runs f init s →
  (∀ tids s', step (Copied f tids) s = Some s' →
     ∀ t, t ∈ tids ↔ registered (at_ (threads s t)) = true) ∧
  (died s = true → ∃ tids, NoDup tids ∧ err s = report f tids) ∧
  ∀ tids i, handlers (threads s f) = [Loop tids i] →
    NoDup tids ∧ err s = report f (take i tids) ∧
    ((∀ u, u ∈ drop i tids → u ≠ f → there (at_ (threads s u))) →
     ∃ s', runs f s s' ∧ died s' = true ∧ err s' = report f tids) ∧
    (∀ u, tids !! i = Some u → u ≠ f → at_ (threads s u) = Ended →
     ∀ s', runs f s s' → died s' = false).
Proof.
  intros Hr. assert (crash f s) as HI by (eapply crash_runs; [apply crash_init|done]).
  assert (registry_ok s) as Hreg.
  { eapply (runs_invariant f registry_ok); [|apply registry_init|exact Hr].
    intros. by eapply registry_step. }
  split_and!.
  - intros tids s' Hs t. unfold step in Hs. destruct (died s); [done|].
    destruct (handlers (threads s f)) as [|[] ?]; try done. case_decide as Hg; [|done].
    destruct Hg as [_ Hg]. rewrite <- (Hreg t), <- Hg. set_solver.
  - intros Hd. destruct (c_died _ _ HI Hd) as [tids Hh]. exists tids.
    pose proof (c_stage _ _ HI) as Hst. unfold stage in Hst. rewrite Hh in Hst. apply Hst.
  - intros tids i Hh. pose proof (c_stage _ _ HI) as Hst. unfold stage in Hst. rewrite Hh in Hst.
    destruct Hst as (_ & Hn & _ & He). split_and!; [done|done| |].
    + intros Ht. by eapply loop_ends.
    + intros u Hi Hne Hu s' Hr'. apply (hangs_died f u tids i).
      apply (runs_invariant f (hangs f u tids i) s s'); [|split; auto|done]. intros. by eapply hangs_step.
Qed.

End handler.

(** *** A program of two threads that crashes *)

(** Threads 1 and 2 are in their bodies when the main thread crashes. *)
Definition crash_schedule : list label :=
  [Create 1; Create 2; Go 1; Go 2; Fault 0] ++ replicate 6 (Go 0) ++ [Copied 0 [1; 2]].

Definition no_symbols : nat → option bytes := λ _, None.

Definition crashed : state := default init (exec (step no_symbols) crash_schedule init).

(** Thread 1 ends after its id was copied. *)
Definition late_schedule : list label := crash_schedule ++ [Return 1; Go 1; Go 1].

Definition too_late : state := default init (exec (step no_symbols) late_schedule init).

Lemma crashed_run : runs no_symbols 0 init crashed.
Proof.
  exists crash_schedule. split; [by repeat constructor|].
  apply (exec_default (step no_symbols)). vm_compute. reflexivity.
Qed.

Lemma too_late_run : runs no_symbols 0 init too_late.
Proof.
  exists late_schedule. split; [by repeat constructor|].
  apply (exec_default (step no_symbols)). vm_compute. reflexivity.
Qed.

Lemma crash_report_witness :
  (∃ s, runs no_symbols 0 crashed s ∧ died s = true ∧ err s = report no_symbols 0 [1; 2]) ∧
  (∀ s, runs no_symbols 0 too_late s → died s = false).
Proof.
  split.
  - destruct (crash_report no_symbols 0 crashed crashed_run) as (_ & _ & Hl).
    destruct (Hl [1; 2] 0) as (_ & _ & He & _); [vm_compute; reflexivity|].
    apply He. intros u Hu _. cbn in Hu. rewrite !elem_of_cons in Hu.
    destruct Hu as [->|[->|Hu%elem_of_nil]]; [split; vm_compute; discriminate..|done].
  - destruct (crash_report no_symbols 0 too_late too_late_run) as (_ & _ & Hl).
    destruct (Hl [1; 2] 0) as (_ & _ & _ & Hn); [vm_compute; reflexivity|].
    apply (Hn 1); [reflexivity|discriminate|vm_compute; reflexivity].
Defined.

(** The flag [in_progress] does not keep the handler from running twice: two
    threads that crash are both past it. *)
Lemma two_handlers :
  ∃ sched s, exec (step no_symbols) sched init = Some s ∧ died s = false ∧
    handlers (threads s 0) = [Copy] ∧ handlers (threads s 1) = [Copy].
Proof.
  exists ([Create 1; Go 1; Fault 0; Fault 1] ++ replicate 6 (Go 0) ++ replicate 6 (Go 1)).
  eexists. split; [apply (exec_default (step no_symbols) _ init); vm_compute; reflexivity|].
  split_and!; vm_compute; reflexivity.
Qed.

(** An interrupted [write] is made again; a short one is not continued. *)
Lemma rawWrite_retries n k results msg len :
  (0 < k)%Z → rawWrite (replicate n ((-1)%Z, true) ++ (k, false) :: results) msg len =
  Some (take (Z.to_nat k `min` len) msg).
Proof. intros Hk. induction n as [|n IH]; cbn; [by rewrite decide_False by lia|exact IH]. Qed.

End SignalHandler.

(** ** Thread-local storage ([thread_local.hpp]) *)

Module ThreadLocal.
Section local.
Context {T : Type} (fresh : T).

(** The values of the key: the instance of each thread that has one, and how
    many instances were made; [new T] makes the next, with unknown contents. *)
Record ThreadLocal := mkThreadLocal { specific : gmap nat nat; heap : list T }.

Definition make : ThreadLocal := mkThreadLocal ∅ [].

(** [getLocalState()] of thread [t], which is [getAddr()]. *)
Definition getLocalState (t : nat) (l : ThreadLocal) : nat * ThreadLocal :=
  match specific l !! t with
  | Some p => (p, l)
  | None => let p := length (heap l) in (p, mkThreadLocal (<[t := p]> (specific l)) (heap l ++ [fresh]))
  end.

Definition getVal (t : nat) (l : ThreadLocal) : option T * ThreadLocal :=
  let '(p, l) := getLocalState t l in (heap l !! p, l).

Definition setVal (t : nat) (val : T) (l : ThreadLocal) : ThreadLocal :=
  let '(p, l) := getLocalState t l in mkThreadLocal (specific l) (<[p := val]> (heap l)).

(** The instances are those of different threads. *)
Definition ok (l : ThreadLocal) : Prop :=
  (∀ t p, specific l !! t = Some p → p < length (heap l)) ∧
  ∀ t u p, specific l !! t = Some p → specific l !! u = Some p → t = u.

(** What thread [t] would read. *)
Definition value (t : nat) (l : ThreadLocal) : T :=
  match specific l !! t with Some p => default fresh (heap l !! p) | None => fresh end.

Lemma getLocalState_spec t l : ok l →
  let '(p, l') := getLocalState t l in
  ok l' ∧ specific l' !! t = Some p ∧ p < length (heap l') ∧ ∀ u, value u l' = value u l.
Proof.
  intros [Hb Hi]. unfold getLocalState. destruct (specific l !! t) as [p|] eqn:Hp.
  { split_and!; [done|done|by eapply Hb|done]. }
  cbn. rewrite length_app. cbn. split_and!.
  - split; cbn.
    + intros u p [[<- <-]|[Hne Hu]]%lookup_insert_Some; rewrite length_app; cbn; [lia|].
      apply Hb in Hu. lia.
    + intros u v p [[<- <-]|[Hne Hu]]%lookup_insert_Some [[<- Hv]|[Hne' Hv]]%lookup_insert_Some.
      * done.
      * apply Hb in Hv. lia.
      * subst. apply Hb in Hu. lia.
      * by eapply Hi.
  - by rewrite lookup_insert_eq.
  - lia.
  - intros u. unfold value. cbn. destruct (decide (t = u)) as [<-|Hne].
    + rewrite lookup_insert_eq, Hp. by rewrite lookup_snoc.
    + rewrite lookup_insert_ne by done. destruct (specific l !! u) as [q|] eqn:Hq; [|done].
      by rewrite lookup_app_l by (by eapply Hb).
Qed.

(** A value that a thread sets is what it reads, and no other thread's changes. *)
Lemma setVal_getVal t val l u : ok l →
  ok (setVal t val l) ∧ value u (setVal t val l) = (if decide (u = t) then val else value u l) ∧
  (getVal t (setVal t val l)).1 = Some val.
Proof.
  intros Hok. unfold setVal. pose proof (getLocalState_spec t l Hok) as H.
  destruct (getLocalState t l) as [p l']. destruct H as ([Hb Hi] & Hp & Hlt & Hv). split_and!.
  - split; cbn; [|done]. intros v q Hq. rewrite length_insert. by eapply Hb.
  - unfold value at 1. cbn. case_decide as Hut.
    + subst u. rewrite Hp. by rewrite list_lookup_insert_eq.
    + rewrite <- Hv. unfold value. destruct (specific l' !! u) as [q|] eqn:Hq; [|done].
      rewrite list_lookup_insert_ne; [done|]. intros ->. by destruct Hut; eapply Hi.
  - unfold getVal, getLocalState. cbn. rewrite Hp. cbn. by rewrite list_lookup_insert_eq.
Qed.

End local.
End ThreadLocal.
