(* ===== verification/FdStream.v ===== *)
(** * Reading from a file descriptor ([ifdstream.hpp]), and the process that
      writes to it ([child_process.cpp])

    [fdinbuf] is a [std::streambuf] with one array: four bytes to put characters
    back, then room for what one [read] returns.  [setg] sets the three pointers
    of the base class, whose functions [sgetc], [sbumpc] and [sungetc] use them and
    call [underflow()] at the end of the buffer. *)

From S2P Require Import Prelude.

Module FdStream.

Definition pbSize : nat := 4.
Definition bufSize : nat := 1024.

(** The array, the pointers as places in it, and the results of the calls of
    [read] to come: the bytes read, or an error or the end ([None]); after the
    last, the end. *)
Record fdinbuf := mkBuf {
  buffer : bytes;
  eback : nat;
  gptr : nat;
  egptr : nat;
  input : list (option bytes)
}.

(** The constructor; the array is not initialised. *)
Definition make (memory : bytes) (input : list (option bytes)) : fdinbuf :=
  mkBuf memory pbSize pbSize pbSize input.

(** The [n] bytes at [i]. *)
Definition slice (i n : nat) (l : bytes) : bytes := take n (drop i l).

(** [underflow()]: the next character or [EOF]; [None] when memory outside the
    array is used. *)
Definition underflow (b : fdinbuf) : option (option ascii * fdinbuf) :=
  if decide (gptr b < egptr b) then c ← buffer b !! gptr b; Some (Some c, b)
  else
    let numPutback := (gptr b - eback b) `min` pbSize in
    m ← mem_write (buffer b) (pbSize - numPutback) (slice (gptr b - numPutback) numPutback (buffer b));
    match input b with
    | [] => Some (None, mkBuf m (eback b) (gptr b) (egptr b) [])
    | None :: input => Some (None, mkBuf m (eback b) (gptr b) (egptr b) input)
    | Some d :: input =>
      m ← mem_write m pbSize d;
      c ← m !! pbSize;
      Some (Some c, mkBuf m (pbSize - numPutback) pbSize (pbSize + length d) input)
    end.

(** The operations of the base class. *)
Inductive op := Get | Bump | Unget.

Definition bump (b : fdinbuf) : fdinbuf :=
  mkBuf (buffer b) (eback b) (S (gptr b)) (egptr b) (input b).
Definition back (b : fdinbuf) : fdinbuf :=
  mkBuf (buffer b) (eback b) (gptr b - 1) (egptr b) (input b).

Definition perform (o : op) (b : fdinbuf) : option (option ascii * fdinbuf) :=
  match o with
  | Get => underflow b
  | Bump =>
    '(c, b) ← underflow b;
    Some (c, match c with Some _ => bump b | None => b end)
  | Unget =>
    if decide (eback b < gptr b)
    then c ← buffer b !! (gptr b - 1); Some (Some c, back b)
    else Some (None, b)
  end.

Fixpoint run (ops : list op) (b : fdinbuf) : option (list (option ascii) * fdinbuf) :=
  match ops with
  | [] => Some ([], b)
  | o :: ops => '(c, b) ← perform o b; '(cs, b) ← run ops b; Some (c :: cs, b)
  end.

(** ** What a reader may rely on *)

(** The text that arrives before the end or the first error. *)
Fixpoint text (input : list (option bytes)) : bytes :=
  match input with Some d :: input => d ++ text input | _ => [] end.

(** A tape on which one can go back by four characters from the farthest place
    that was reached, until the end is met: the results of the operations,
    [None] when they ask for more. *)
Fixpoint tape (t : bytes) (ops : list op) (pos far : nat) : option (list (option ascii)) :=
  match ops with
  | [] => Some []
  | Get :: ops =>
    match t !! pos with
    | Some c => cs ← tape t ops pos far; Some (Some c :: cs)
    | None => match ops with [] => Some [None] | _ => None end
    end
  | Bump :: ops =>
    match t !! pos with
    | Some c => cs ← tape t ops (S pos) (far `max` S pos); Some (Some c :: cs)
    | None => match ops with [] => Some [None] | _ => None end
    end
  | Unget :: ops =>
    if decide (0 < pos ∧ far - pos < pbSize)
    then c ← t !! (pos - 1); cs ← tape t ops (pos - 1) far; Some (Some c :: cs)
    else None
  end.

(** [read] returns at least one byte and no more than it was asked for. *)
Definition readable (input : list (option bytes)) : Prop :=
  Forall (λ o, match o with Some d => 0 < length d ≤ bufSize | None => True end) input.

(** The buffer holds the text around [pos]; [m] is where it was filled last. *)
Record holds (t : bytes) (pos far m : nat) (b : fdinbuf) : Prop := {
  ho_memory : length (buffer b) = pbSize + bufSize;
  ho_eback : eback b = pbSize - m `min` pbSize;
  ho_gptr : gptr b + m = pos + pbSize;
  ho_order : eback b ≤ gptr b ≤ egptr b;
  ho_egptr : pbSize ≤ egptr b ≤ pbSize + bufSize;
  ho_far : m ≤ far;
  ho_text j : eback b ≤ j < egptr b → buffer b !! j = t !! (m + j - pbSize);
  ho_rest : drop (m + egptr b - pbSize) t = text (input b);
  ho_length : m + egptr b - pbSize ≤ length t;
  ho_input : readable (input b)
}.

(** ** Memory *)

Lemma mem_write_lookup m o d m' j :
  mem_write m o d = Some m' → m' !! j = if decide (o ≤ j < o + length d) then d !! (j - o) else m !! j.
Proof.
  unfold mem_write. case_decide as Hl; intros; simplify_eq. case_decide as Hj.
  - rewrite lookup_app_r, length_take by (rewrite length_take; lia).
    rewrite lookup_app_l by lia. f_equal. lia.
  - destruct (decide (j < o)) as [Hlt|Hge].
    + rewrite lookup_app_l by (rewrite length_take; lia). by apply lookup_take_lt.
    + rewrite lookup_app_r, length_take by (rewrite length_take; lia).
      rewrite lookup_app_r by lia. rewrite lookup_drop. f_equal. lia.
Qed.

Lemma slice_length i n l : i + n ≤ length l → length (slice i n l) = n.
Proof. intros. unfold slice. rewrite length_take, length_drop. lia. Qed.

Lemma slice_lookup i n l j : j < n → slice i n l !! j = l !! (i + j).
Proof. intros. unfold slice. by rewrite lookup_take_lt, lookup_drop. Qed.

(** The characters that are put aside when the buffer is filled again. *)
Lemma putback_moved t pos far m b :
  holds t pos far m b → gptr b = egptr b →
  let n := (gptr b - eback b) `min` pbSize in
  n = pos `min` pbSize ∧
  ∃ mem, mem_write (buffer b) (pbSize - n) (slice (gptr b - n) n (buffer b)) = Some mem ∧
    length mem = pbSize + bufSize ∧
    ∀ j, pbSize - n ≤ j < pbSize → mem !! j = t !! (pos + j - pbSize).
Proof.
  intros [Hm He Hg Ho Heg Hf Ht Hr Hl Hi] Hend n. unfold pbSize, bufSize in *.
  assert (n = pos `min` 4) as Hn by (unfold n; lia). split; [done|].
  assert (length (slice (gptr b - n) n (buffer b)) = n) as Hs by (apply slice_length; lia).
  destruct (mem_write (buffer b) (4 - n) (slice (gptr b - n) n (buffer b))) as [mem|] eqn:Hw.
  2: { rewrite mem_write_Some in Hw; [done|]. rewrite Hs, Hm. lia. }
  exists mem. split_and!; [done|by rewrite (mem_write_length _ _ _ _ Hw)|].
  intros j Hj. rewrite (mem_write_lookup _ _ _ _ j Hw), Hs, decide_True by lia.
  rewrite slice_lookup by lia. rewrite Ht by lia. f_equal. lia.
Qed.

Lemma underflow_spec t pos far m b :
  holds t pos far m b → pos ≤ far →
  match t !! pos with
  | Some c => ∃ m' b', underflow b = Some (Some c, b') ∧ holds t pos far m' b' ∧ gptr b' < egptr b'
  | None => ∃ b', underflow b = Some (None, b')
  end.
Proof.
  intros Hb Hpf. pose proof Hb as [Hm He Hg Ho Heg Hf Ht Hr Hl Hi]. unfold underflow. case_decide as Hlt.
  { rewrite Ht by lia. replace (m + gptr b - pbSize) with pos by lia.
    destruct (lookup_lt_is_Some_2 t pos) as [c Hc]; [lia|]. rewrite Hc. cbn. by exists m, b. }
  assert (gptr b = egptr b) as Hend by lia.
  destruct (putback_moved _ _ _ _ _ Hb Hend) as (Hn & mem & Hw & Hlen & Hback).
  replace (m + egptr b - pbSize) with pos in * by lia. rewrite Hw. cbn.
  destruct (input b) as [|[d|] input'] eqn:Hin; cbn in Hr.
  - rewrite lookup_ge_None_2; [by eexists|]. apply (f_equal length) in Hr. rewrite length_drop in Hr. cbn in Hr. lia.
  - apply Forall_cons in Hi as [Hd Hi]. unfold pbSize, bufSize in *.
    destruct (mem_write mem 4 d) as [mem'|] eqn:Hw'.
    2: { rewrite mem_write_Some in Hw'; [done|]. lia. }
    assert (∀ k, t !! (pos + k) = (d ++ text input') !! k) as Htl.
    { intros k. by rewrite <- Hr, lookup_drop. }
    destruct (lookup_lt_is_Some_2 d 0) as [c Hc]; [lia|].
    assert (t !! pos = Some c) as Hpos.
    { rewrite <- (Nat.add_0_r pos), Htl, lookup_app_l by lia. done. }
    rewrite Hpos. cbn. rewrite (mem_write_lookup _ _ _ _ 4 Hw'), decide_True by lia. cbn. rewrite Hc. cbn.
    eexists pos, _. split; [reflexivity|]. split; [|cbn; lia].
    split; cbn; unfold pbSize, bufSize in *; try lia.
    + by rewrite (mem_write_length _ _ _ _ Hw').
    + intros j Hj. rewrite (mem_write_lookup _ _ _ _ j Hw'). case_decide as Hj4.
      * replace (pos + j - 4) with (pos + (j - 4)) by lia. rewrite Htl, lookup_app_l by lia. done.
      * apply Hback. lia.
    + match goal with |- drop ?n t = _ => replace n with (pos + length d) by lia end.
      rewrite <- drop_drop, Hr. by rewrite drop_app_length.
    + apply (f_equal length) in Hr. rewrite length_drop, length_app in Hr. lia.
    + done.
  - rewrite lookup_ge_None_2; [by eexists|]. apply (f_equal length) in Hr. rewrite length_drop in Hr. cbn in Hr. lia.
Qed.

#[local] Arguments underflow : simpl never.

Lemma run_tape t ops : ∀ pos far m b cs,
  holds t pos far m b → pos ≤ far → tape t ops pos far = Some cs → ∃ b', run ops b = Some (cs, b').
Proof.
  induction ops as [|o ops IH]; intros pos far m b cs Hb Hpf Ht; cbn in Ht.
  { simplify_eq. by exists b. }
  assert (o ≠ Unget → t !! pos = None → match ops with [] => Some [None] | _ => None end = Some cs →
    ∃ b', run (o :: ops) b = Some (cs, b')) as Hend.
  { intros Ho Hn Hc. destruct ops; [|done]. simplify_eq. pose proof (underflow_spec _ _ _ _ _ Hb Hpf) as Hu.
    rewrite Hn in Hu. destruct Hu as [b' Hu]. exists b'. destruct o; [| |done]; cbn; by rewrite Hu. }
  destruct o.
  - destruct (t !! pos) as [c|] eqn:Hc; [|by apply Hend].
    destruct (tape t ops pos far) as [cs'|] eqn:Ht'; cbn in Ht; [|done]. simplify_eq.
    pose proof (underflow_spec _ _ _ _ _ Hb Hpf) as Hu. rewrite Hc in Hu.
    destruct Hu as (m' & b1 & Hu & Hb1 & _). cbn. rewrite Hu. cbn.
    destruct (IH _ _ _ _ _ Hb1 Hpf Ht') as [b' ->]. by exists b'.
  - destruct (t !! pos) as [c|] eqn:Hc; [|by apply Hend].
    destruct (tape t ops (S pos) _) as [cs'|] eqn:Ht'; cbn in Ht; [|done]. simplify_eq.
    pose proof (underflow_spec _ _ _ _ _ Hb Hpf) as Hu. rewrite Hc in Hu.
    destruct Hu as (m' & b1 & Hu & Hb1 & Hlt). cbn. rewrite Hu. cbn.
    destruct (IH (S pos) (far `max` S pos) m' (bump b1) cs') as [b' ->]; [|lia|done|by exists b'].
    destruct Hb1 as [? ? ? ? ? ? ? ? ? ?]. split; cbn; try done; lia.
  - case_decide as Hd; [|done]. unfold pbSize in *.
    destruct (t !! (pos - 1)) as [c|] eqn:Hc; cbn in Ht; [|done].
    destruct (tape t ops (pos - 1) far) as [cs'|] eqn:Ht'; cbn in Ht; [|done]. simplify_eq.
    pose proof Hb as [Hm He Hg Ho Heg Hf Htx Hr Hl Hi]. unfold pbSize, bufSize in *.
    cbn. rewrite decide_True by lia. rewrite Htx by lia. unfold pbSize.
    replace (m + (gptr b - 1) - 4) with (pos - 1) by lia. rewrite Hc. cbn.
    destruct (IH (pos - 1) far m (back b) cs') as [b' ->]; [|lia|done|by exists b'].
    split; cbn; unfold pbSize, bufSize in *; try done; lia.
Qed.

(**  What is read from the stream is what arrives at the descriptor, in order,
    however it is cut into pieces, then the end; and at any time four of the
    characters that were read can be put back and read again. *)
Lemma fd_stream_is_tape memory input ops cs :
  length memory = pbSize + bufSize → readable input →
  tape (text input) ops 0 0 = Some cs → ∃ b, run ops (make memory input) = Some (cs, b).
Proof.
  intros Hm Hi Ht. eapply run_tape; [|done|exact Ht].
  split; cbn; unfold pbSize, bufSize in *; try done; try lia.
Qed.

(** Reading it all. *)
Lemma tape_all t : tape t (replicate (S (length t)) Bump) 0 0 = Some (map Some t ++ [None]).
Proof.
  enough (∀ k pos far, pos + k = length t →
    tape t (replicate (S k) Bump) pos far = Some (map Some (drop pos t) ++ [None])) as H.
  { by rewrite (H (length t) 0 0). }
  induction k as [|k IH]; intros pos far Hp.
  - cbn. rewrite lookup_ge_None_2 by lia. by rewrite drop_ge by lia.
  - destruct (lookup_lt_is_Some_2 t pos) as [c Hc]; [lia|].
    change (replicate (S (S k)) Bump) with (Bump :: replicate (S k) Bump). cbn [tape]. rewrite Hc.
    rewrite IH by lia. cbn. by rewrite (drop_S t c pos).
Qed.

Definition abcdef : list (option bytes) := [Some (b_ "abcd"); Some (b_ "ef")].

(** The end spoils the characters before it: [underflow()] moves them before it
    knows whether it can fill the buffer, and leaves the pointers.  After the
    end of "abcd" and "e", the second character put back is not "d". *)
Lemma end_spoils_putback : ∃ b,
  run (replicate 6 Bump ++ [Unget; Unget]) (make (replicate 1028 NUL) [Some (b_ "abcd"); Some (b_ "e")]) =
  Some ((Some <$> b_ "abcde") ++ None :: (Some <$> b_ "ee"), b).
Proof. eexists. vm_compute. reflexivity. Qed.

End FdStream.

(** ** Child processes *)

Module ChildProcess.

(** What [start()] does, in the order of the calls: [close] and [dup2] of the ends
    of the pipe (0 to read, 1 to write), the run of the callback. *)
Inductive effect := CloseEnd (i : nat) | Dup2Stderr (i : nat) | RunCallback.

(** The object; [pfd_] are the descriptors of the pipe. *)
Record ChildProcess := mkChild { child_pid_ : Z; pfd_ : option (Z * Z) }.

Definition make : ChildProcess := mkChild (-1) None.

(** [start()]: its result in the process it returns in, given what [pipe] and
    [fork] return. *)
Definition start (pipe : option (Z * Z)) (fork : Z) (c : ChildProcess) : bool * list effect * ChildProcess :=
  match pipe with
  | None => (false, [], c)
  | Some fds =>
    let c := mkChild fork (Some fds) in
    if decide (fork = -1)%Z then (false, [], c)
    else if decide (fork = 0)%Z then (true, [CloseEnd 0; Dup2Stderr 1; CloseEnd 1; RunCallback], c)
    else (true, [CloseEnd 1], c)
  end.

(** [wait()] returns what [waitpid] returned, not the status that it stored. *)
Definition wait (waitpid : Z * Z) : Z := let '(pid, status) := waitpid in pid.

(** So the macros of [waitpid] are applied to the child's id: [WIFSIGNALED] holds of
    some ids and not of others, whatever ended the child. *)
Definition WIFSIGNALED (status : Z) : bool :=
  let low := Z.land status 0x7f in bool_decide (0 < low < 0x7f)%Z.

Lemma wait_is_no_status :
  WIFSIGNALED (wait (256, 11)%Z) = false ∧ WIFSIGNALED (wait (257, 0)%Z) = true ∧ WIFSIGNALED 11 = true.
Proof. by repeat split. Qed.

End ChildProcess.
