(* ===== verification/Timer.v ===== *)
(** * Clocks ([timer.hpp], [ticks_clock.cpp]), and the tables of the lock
      benchmarks ([lock_benchmark.cpp], [lock_benchmark_MCS.cpp])

    What the clocks say is an argument.  A [double] is the rational number that the
    expression denotes; rounding is not modelled. *)

From Stdlib Require Import QArith Lqa.
From S2P Require Import Prelude.

#[local] Open Scope Q_scope.

Module Timer.

(** [struct timeval]. *)
Record timeval := mkTime { tv_sec : Z; tv_usec : Z }.

Record Timer := mkTimer { start_ : timeval; end_ : timeval }.

Definition reset (t : Timer) : Timer := mkTimer (mkTime 0 0) (mkTime 0 0).

(** [start()] and [end()], with what [gettimeofday] gives. *)
Definition start (now : timeval) (t : Timer) : Timer := mkTimer now (end_ t).
Definition stop (now : timeval) (t : Timer) : Timer := mkTimer (start_ t) now.

Definition elapsed (t : Timer) : Q :=
  if decide (tv_usec (end_ t) < tv_usec (start_ t))%Z
  then inject_Z (tv_sec (end_ t) - 1 - tv_sec (start_ t)) +
       inject_Z (tv_usec (end_ t) + 1000000 - tv_usec (start_ t)) / inject_Z 1000000
  else inject_Z (tv_sec (end_ t) - tv_sec (start_ t)) +
       inject_Z (tv_usec (end_ t) - tv_usec (start_ t)) / inject_Z 1000000.

(** A time in microseconds. *)
Definition usecs (t : timeval) : Z := tv_sec t * 1000000 + tv_usec t.

(** The time between [start()] and [end()], to the microsecond. *)
Lemma elapsed_exact (t : Timer) :
  elapsed t == inject_Z (usecs (end_ t) - usecs (start_ t)) / inject_Z 1000000.
Proof.
  unfold elapsed, usecs. case_decide; unfold Qeq, Qdiv, Qplus, Qmult, Qinv, inject_Z; cbn; lia.
Qed.

End Timer.

Module TicksClock.

(** [rdtsc] gives the halves of the counter; the result is a [uint64_t]. *)
Definition getTicks (hi lo : Z) : Z := Z.lor (Z.shiftl hi 32 mod 2 ^ 64) lo.

(** [moduleInit()], from the counter before and after half a second. *)
Definition ticks_per_second (before after : Z) : Z := ((after - before) mod 2 ^ 64 * 2) mod 2 ^ 64.

Lemma getTicks_joins hi lo : (0 ≤ hi < 2 ^ 32)%Z → (0 ≤ lo < 2 ^ 32)%Z → getTicks hi lo = (hi * 2 ^ 32 + lo)%Z.
Proof.
  intros Hhi Hlo. unfold getTicks. rewrite Z.shiftl_mul_pow2 by lia.
  rewrite Z.mod_small by lia. pose proof (Z.add_lor_land (hi * 2 ^ 32) lo) as Hadd.
  assert (Z.land (hi * 2 ^ 32) lo = 0%Z) as Hl; [|rewrite Hl in Hadd; lia].
  apply Z.bits_inj'. intros i Hi. rewrite Z.land_spec, Z.bits_0.
  destruct (decide (i < 32)%Z); [by rewrite Z.mul_pow2_bits_low|].
  replace (Z.testbit lo i) with false; [apply andb_false_r|].
  destruct (decide (lo = 0)%Z) as [->|]; [by rewrite Z.bits_0|].
  symmetry. apply Z.bits_above_log2; [lia|]. enough (Z.log2 lo < 32)%Z by lia.
  apply Z.log2_lt_pow2; lia.
Qed.

End TicksClock.

(** ** The tables of the benchmarks *)

Module LockBenchmark.

(** [findLarger]: the percentage and which time is larger; [None] for the quotient
    of zeros, which is no number. *)
Definition findLarger (arg1 arg2 : Q) : option (Q * Z) :=
  if Qle_bool arg2 arg1
  then if Qeq_bool arg1 0 then None else Some ((1 - arg2 / arg1) * 100, 1%Z)
  else Some ((1 - arg1 / arg2) * 100, 2%Z).

(** A line of the results: the number of threads, the two times, whether the
    spinning lock is said to be the faster one, and by how much. *)
Record row := mkRow { threads : nat; spin : Q; other : Q; spin_faster : bool; percentage : Q }.

(** [SmallCriticalResults()] and [LargeCriticalResults()]: the loop over the times,
    of which there are as many for both locks ([at] throws otherwise). *)
Fixpoint results (i : nat) (spins others : list Q) : option (list row) :=
  match spins with
  | [] => Some []
  | t :: spins =>
    match others with
    | [] => None
    | u :: others =>
      '(p, larger) ← findLarger t u;
      rows ← results (S i) spins others;
      Some (mkRow (2 + i) t u (bool_decide (larger = 2%Z)) p :: rows)
    end
  end.

(** What a line says is right: the lock named as the faster one took no longer, and
    the percentage is how much less. *)
Lemma findLarger_right t u p larger :
  0 < t → 0 < u → findLarger t u = Some (p, larger) →
  0 <= p < 100 ∧
  (larger = 1%Z ∧ u <= t ∧ u == t * (1 - p / 100) ∨ larger = 2%Z ∧ t < u ∧ t == u * (1 - p / 100)).
Proof.
  intros Ht Hu Hf. unfold findLarger in Hf.
  assert (∀ a b, 0 < a → 0 < b → a <= b → 0 <= (1 - a / b) * 100 < 100 ∧ a == b * (1 - (1 - a / b) * 100 / 100)) as Hq.
  { intros a b Ha Hb Hab. assert (0 < a / b) by (apply Qlt_shift_div_l; [done|]; by rewrite Qmult_0_l).
    assert (a / b <= 1) by (apply Qle_shift_div_r; [done|]; by rewrite Qmult_1_l).
    split; [generalize dependent (a / b); intros x Hx1 Hx2; split; lra|].
    field. intros Hz. rewrite Hz in Hb. by apply Qlt_irrefl in Hb. }
  destruct (Qle_bool u t) eqn:Hle.
  - apply Qle_bool_iff in Hle. destruct (Qeq_bool t 0); [done|]. simplify_eq.
    destruct (Hq u t Hu Ht Hle) as [? ?]. split; [done|]. by left.
  - assert (t < u) as Hlt. { apply Qnot_le_lt. intros Hn%Qle_bool_iff. congruence. }
    simplify_eq. destruct (Hq t u Ht Hu) as [? ?]; [by apply Qlt_le_weak|]. split; [done|]. by right.
Qed.

End LockBenchmark.
