(* ===== verification/TestUnit.v ===== *)
(** * The unit test framework ([test_unit.hpp])

    Test cases register themselves; the main program of a test runs them all, or
    those named on the command line, and returns the number of errors.  A case
    is its names and the number of its expectations that fail. *)

From S2P Require Import Prelude.
From S2P Require Import ParamMap.

Module TestUnit.

Record TestCase := mkTest { group_ : bytes; name_ : bytes; failing : nat }.

Definition fullName (t : TestCase) : bytes := group_ t ++ b_ "(" ++ name_ t ++ b_ ")".

(** The lines that are printed: the names of the cases; a case that is run, and
    whether it passed; a requested name that no case has; the usage. *)
Inductive output :=
  | Listed (full_name : bytes)
  | Running (full_name : bytes) (passed : bool)
  | WrongName (name : bytes)
  | Usage.

Record TestRegistry := mkRegistry { tests_ : list TestCase; args_ : ParamMap.ParamMap }.

(** The constructor. *)
Definition make : TestRegistry :=
  mkRegistry [] (ParamMap.addParam (b_ "listcases") (b_ "false") (b_ "list the test cases for this test")
    (ParamMap.addParam (b_ "case") (b_ "all") (b_ "csv list of test cases to run") ParamMap.make).2).2.

Definition registerCase (t : TestCase) (r : TestRegistry) : TestRegistry :=
  mkRegistry (tests_ r ++ [t]) (args_ r).

Definition runListCases (tests : list TestCase) : list output := map (λ t, Listed (fullName t)) tests.

Definition COMMA : ascii := ","%char.

(** [filter.insert(make_pair(name, false))], which keeps an entry that is there. *)
Definition new_key (name : bytes) (filter : gmap bytes bool) : gmap bytes bool :=
  match filter !! name with Some _ => filter | None => <[name := false]> filter end.

(** The loop over the pieces of [cases].  [pos] is [npos] in the last turn; each turn before it drops a character. *)
Fixpoint split_loop (fuel : nat) (curr : bytes) (filter : gmap bytes bool) : option (gmap bytes bool) :=
  match fuel with
  | 0 => None
  | S fuel =>
    match ParamMap.find_char COMMA curr with
    | None => Some (new_key curr filter)
    | Some pos => split_loop fuel (drop (pos + 1) curr) (new_key (take pos curr) filter)
    end
  end.

Definition make_filter (cases : bytes) : option (gmap bytes bool) :=
  if decide (cases = b_ "all") then Some ∅ else split_loop (S (length cases)) cases ∅.

(** The loop over the tests: those the filter lets through are run and marked. *)
Fixpoint tests_loop (tests : list TestCase) (filter : gmap bytes bool) (errors : nat)
    (out : list output) : gmap bytes bool * nat * list output :=
  match tests with
  | [] => (filter, errors, out)
  | t :: tests =>
    let run (filter : gmap bytes bool) :=
      tests_loop tests filter (errors + failing t)
        (out ++ [Running (fullName t) (bool_decide (failing t = 0))]) in
    if decide (filter = ∅) then run filter
    else match filter !! name_ t with
         | None => tests_loop tests filter errors out
         | Some _ => run (<[name_ t := true]> filter)
         end
  end.

(** The loop over the filter. *)
Definition missed (x : bytes * bool) : list bytes := if x.2 then [] else [x.1].

Definition unexecuted (filter : gmap bytes bool) : list bytes :=
  map_to_list filter ≫= missed.

Definition runSomeCases (tests : list TestCase) (cases : bytes) : option (nat * list output) :=
  filter ← make_filter cases;
  let '(filter, errors, out) := tests_loop tests filter 0 [] in
  let wrong := unexecuted filter in
  Some (errors + length wrong, out ++ map WrongName wrong).

(** [runAndResetWithArgs]: the number of errors, which [main] returns, and what
    was printed.  The registry is deleted at the end. *)
Definition runAndResetWithArgs (program : bytes) (args : list bytes) (r : TestRegistry) :
    option (nat * list output) :=
  let '(ok, a) := ParamMap.parseArgv program args (args_ r) in
  if negb ok then Some (1, [Usage])
  else
    if decide (ParamMap.getParam (b_ "listcases") a = Some (b_ "true"))
    then Some (0, runListCases (tests_ r))
    else match ParamMap.getParam (b_ "case") a with
         | Some cases => runSomeCases (tests_ r) cases
         | None => Some (0, [])
         end.

(** ** What a run does *)

(** The pieces of a list separated by commas. *)
Fixpoint pieces (s : bytes) : list bytes :=
  match s with
  | [] => [[]]
  | c :: s =>
    match pieces s with
    | p :: ps => if decide (c = COMMA) then [] :: p :: ps else (c :: p) :: ps
    | [] => []
    end
  end.

(** The names that are asked for; [None] for all. *)
Definition requested (cases : bytes) : option (gset bytes) :=
  if decide (cases = b_ "all") then None else Some (list_to_set (pieces cases)).

Definition selected (names : option (gset bytes)) (t : TestCase) : Prop :=
  match names with None => True | Some X => name_ t ∈ X end.

#[global] Instance selected_dec names t : Decision (selected names t).
Proof. destruct names; unfold selected; apply _. Defined.

(** Those that no case has. *)
Definition wrong_names (names : option (gset bytes)) (tests : list TestCase) : gset bytes :=
  default ∅ names ∖ list_to_set (map name_ tests).

Lemma pieces_nonempty s : pieces s ≠ [].
Proof. induction s as [|c s IH]; cbn; [done|]. destruct (pieces s); [done|]. by case_decide. Qed.

Lemma pieces_find s : match ParamMap.find_char COMMA s with
  | None => pieces s = [s]
  | Some pos => pieces s = take pos s :: pieces (drop (pos + 1) s)
  end.
Proof.
  unfold ParamMap.find_char. induction s as [|c s IH]; cbn; [done|].
  pose proof (pieces_nonempty s) as Hn. case_decide as Hc; cbn.
  - subst c. rewrite drop_0. destruct (pieces s) as [|p ps]; [done|]. by rewrite decide_True.
  - destruct (list_find (eq COMMA) s) as [[i x]|]; cbn in *; rewrite IH; by rewrite decide_False by congruence.
Qed.

Lemma new_key_lookup name f k :
  new_key name f !! k = match f !! k with Some b => Some b | None => if decide (k = name) then Some false else None end.
Proof.
  unfold new_key. destruct (f !! name) eqn:Hn.
  - destruct (f !! k) eqn:Hk; [done|]. rewrite decide_False; [done|congruence].
  - destruct (decide (k = name)) as [->|Hne]; [by rewrite lookup_insert_eq, Hn|].
    rewrite lookup_insert_ne by done. by destruct (f !! k).
Qed.

Lemma split_loop_spec fuel : ∀ curr f, length curr < fuel →
  ∃ f', split_loop fuel curr f = Some f' ∧
  ∀ k, f' !! k = match f !! k with Some b => Some b | None =>
    if decide (k ∈ pieces curr) then Some false else None end.
Proof.
  induction fuel as [|fuel IH]; intros curr f Hl; [lia|]. cbn. pose proof (pieces_find curr) as Hp.
  destruct (ParamMap.find_char COMMA curr) as [pos|] eqn:Hf.
  - assert (pos < length curr) as Hlt.
    { unfold ParamMap.find_char in Hf. destruct (list_find (eq COMMA) curr) as [[i x]|] eqn:E; [|done].
      cbn in Hf. simplify_eq. apply list_find_Some in E as (E & _). by apply lookup_lt_Some in E. }
    destruct (IH (drop (pos + 1) curr) (new_key (take pos curr) f)) as (f' & He & Hk).
    { rewrite length_drop. lia. }
    exists f'. split; [done|]. intros k. rewrite Hk, new_key_lookup, Hp. destruct (f !! k); [done|].
    rewrite (decide_ext (k ∈ take pos curr :: pieces (drop (pos + 1) curr))
      (k = take pos curr ∨ k ∈ pieces (drop (pos + 1) curr))) by apply elem_of_cons.
    destruct (decide (k = take pos curr)); [rewrite decide_True by auto; done|].
    apply (f_equal (λ b : option bool, b)). repeat case_decide; naive_solver.
  - eexists. split; [reflexivity|]. intros k. rewrite new_key_lookup, Hp. destruct (f !! k); [done|].
    repeat case_decide; set_solver.
Qed.

(** The filter, and what it lets through. *)
Definition covers (names : option (gset bytes)) (f : gmap bytes bool) : Prop :=
  match names with None => f = ∅ | Some X => dom f = X ∧ X ≠ ∅ end.

Lemma make_filter_spec cases : ∃ f,
  make_filter cases = Some f ∧ covers (requested cases) f ∧ ∀ k b, f !! k = Some b → b = false.
Proof.
  unfold make_filter, requested. case_decide as Hall.
  { exists ∅. split_and!; [done|done|]. intros k b Hk. by rewrite lookup_empty in Hk. }
  destruct (split_loop_spec (S (length cases)) cases ∅) as (f & He & Hk); [lia|].
  exists f. split_and!; [done| |].
  - cbn. assert (dom f = list_to_set (pieces cases)) as Hd.
    { apply set_eq. intros k. rewrite elem_of_dom, Hk, lookup_empty, elem_of_list_to_set.
      case_decide; split; naive_solver. }
    split; [done|]. destruct (pieces cases) as [|p ps] eqn:Hp; [by apply pieces_nonempty in Hp|]. set_solver.
  - intros k b. rewrite Hk, lookup_empty. case_decide; congruence.
Qed.

Definition ran (t : TestCase) : output := Running (fullName t) (bool_decide (failing t = 0)).

Lemma tests_loop_spec names tests : ∀ f errors out, covers names f →
  ∃ f', tests_loop tests f errors out =
    (f', errors + sum_list_with failing (filter (selected names) tests),
     out ++ map ran (filter (selected names) tests)) ∧
  covers names f' ∧
  ∀ k, f' !! k = if decide (k ∈ map name_ tests) then (λ _, true) <$> f !! k else f !! k.
Proof.
  induction tests as [|t tests IH]; intros f errors out Hc; cbn [tests_loop].
  { exists f. rewrite filter_nil, app_nil_r, Nat.add_0_r. split_and!; [done|done|]. intros k. by rewrite decide_False by set_solver. }
  destruct names as [X|]; cbn in Hc.
  - destruct Hc as [Hd Hne].
    rewrite decide_False by (intros ->; apply Hne; by rewrite <- Hd, dom_empty_L).
    destruct (f !! name_ t) as [b|] eqn:Hf.
    + rewrite filter_cons_True by (cbn; rewrite <- Hd; apply elem_of_dom; by rewrite Hf).
      destruct (IH (<[name_ t := true]> f) (errors + failing t) (out ++ [ran t])) as (f' & He & Hc' & Hk).
      { split; [|done]. rewrite dom_insert_L, <- Hd. apply elem_of_dom_2 in Hf. set_solver. }
      exists f'. split_and!; [|done|].
      * unfold ran in *. rewrite He. cbn. by rewrite <- app_assoc, Nat.add_assoc.
      * intros k. rewrite Hk. cbn [map]. destruct (decide (k = name_ t)) as [->|Hkne].
        -- rewrite lookup_insert_eq, Hf. rewrite (decide_True (P := _ ∈ _ :: _)) by set_solver. by case_decide.
        -- rewrite lookup_insert_ne by done. repeat case_decide; set_solver.
    + rewrite filter_cons_False by (cbn; rewrite <- Hd; by apply not_elem_of_dom).
      destruct (IH f errors out) as (f' & He & Hc' & Hk); [done|]. exists f'. split_and!; [done|done|].
      intros k. rewrite Hk. cbn [map]. destruct (decide (k = name_ t)) as [->|Hkne].
      * rewrite Hf. by repeat case_decide.
      * repeat case_decide; set_solver.
  - subst f. rewrite decide_True by done. rewrite filter_cons_True by done.
    destruct (IH ∅ (errors + failing t) (out ++ [ran t])) as (f' & He & Hc' & Hk); [done|].
    exists f'. split_and!; [|done|].
    + unfold ran in *. rewrite He. cbn. by rewrite <- app_assoc, Nat.add_assoc.
    + intros k. rewrite Hk, lookup_empty. by repeat case_decide.
Qed.

Lemma unexecuted_list (l : list (bytes * bool)) : NoDup l.*1 →
  NoDup (l ≫= missed) ∧ ∀ k, k ∈ l ≫= missed ↔ (k, false) ∈ l.
Proof.
  induction l as [|[k b] l IH]; cbn; [by split; [constructor|set_solver]|].
  intros [Hk Hl]%NoDup_cons. destruct (IH Hl) as [Hn He]. destruct b; cbn.
  - split; [done|]. intros k'. rewrite He. set_solver.
  - split.
    + constructor; [|done]. rewrite He. intros Hin. apply Hk. apply list_elem_of_fmap. by exists (k, false).
    + intros k'. rewrite !elem_of_cons, He. naive_solver.
Qed.

Lemma unexecuted_spec (f : gmap bytes bool) (X : gset bytes) :
  (∀ k, k ∈ X ↔ f !! k = Some false) → unexecuted f ≡ₚ elements X.
Proof.
  intros HX. destruct (unexecuted_list (map_to_list f)) as [Hn He]; [apply NoDup_fst_map_to_list|].
  apply NoDup_Permutation; [done|apply NoDup_elements|].
  intros k. unfold unexecuted. rewrite He, elem_of_map_to_list, elem_of_elements. by rewrite HX.
Qed.

(** What [runSomeCases] does: it runs the requested cases, in the order in which
    they were registered, and counts their failing expectations and the names
    that no case has. *)
Lemma run_some_cases tests cases :
  let names := requested cases in
  let wrong := wrong_names names tests in
  ∃ ws, ws ≡ₚ elements wrong ∧
  runSomeCases tests cases =
    Some (sum_list_with failing (filter (selected names) tests) + size wrong,
          map ran (filter (selected names) tests) ++ map WrongName ws).
Proof.
  cbn. unfold runSomeCases. destruct (make_filter_spec cases) as (f & -> & Hc & Hb). cbn.
  destruct (tests_loop_spec (requested cases) tests f 0 [] Hc) as (f' & -> & Hc' & Hk).
  exists (unexecuted f').
  assert (unexecuted f' ≡ₚ elements (wrong_names (requested cases) tests)) as Hu.
  { apply unexecuted_spec. intros k. unfold wrong_names. rewrite elem_of_difference, elem_of_list_to_set, Hk.
    destruct (requested cases) as [X|]; cbn in *.
    - destruct Hc as [Hd _]. rewrite <- Hd, elem_of_dom.
      case_decide as Hin; [|by split; [intros [[b Hf] _]; rewrite (Hb _ _ Hf) in Hf|naive_solver]].
      destruct (f !! k); cbn; naive_solver.
    - subst f. rewrite lookup_empty. case_decide; set_solver. }
  split; [done|]. cbn. f_equal. f_equal. rewrite Hu. done.
Qed.

(** C44.  The main program of a test, on a command line of parameters: it lists the
    cases when [listcases] is "true"; otherwise it runs the cases that [case]
    names, all of them by default, in their order, and returns the number of
    their failing expectations and of the names that no case has.  On any other
    command line it prints the usage and returns 1. *)
Lemma test_main_runs_cases r prog l bad rest :
  Forall ParamMap.param_ok l →
  let values := ParamMap.given l (ParamMap.key_to_value_map_ (args_ r)) in
  (values !! b_ "listcases" = Some (b_ "true") →
   runAndResetWithArgs prog (map ParamMap.format l) r = Some (0, runListCases (tests_ r))) ∧
  (∀ cases, values !! b_ "listcases" ≠ Some (b_ "true") → values !! b_ "case" = Some cases →
   let run := filter (selected (requested cases)) (tests_ r) in
   let wrong := wrong_names (requested cases) (tests_ r) in
   ∃ ws, ws ≡ₚ elements wrong ∧
   runAndResetWithArgs prog (map ParamMap.format l) r =
     Some (sum_list_with failing run + size wrong, map ran run ++ map WrongName ws)) ∧
  (bad = b_ "--help" ∨ ParamMap.starts (b_ "--=") bad = true ∨ ParamMap.starts (b_ "--") bad = false →
   runAndResetWithArgs prog (map ParamMap.format l ++ bad :: rest) r = Some (1, [Usage])).
Proof.
  intros Hl values. unfold runAndResetWithArgs.
  destruct (ParamMap.argv_roundtrip prog l rest bad (args_ r) Hl) as [Hok Hbad]. split_and!.
  - intros Ht. rewrite Hok. cbn [negb]. unfold ParamMap.getParam. cbn [ParamMap.key_to_value_map_].
    by rewrite decide_True.
  - intros cases Ht Hc. rewrite Hok. cbn [negb]. unfold ParamMap.getParam. cbn [ParamMap.key_to_value_map_].
    fold values. rewrite decide_False, Hc by done. apply run_some_cases.
  - intros Hb. by rewrite (Hbad Hb).
Qed.

(** A test with three cases, two of them asked for, and a name that is none. *)
Definition demo : TestRegistry :=
  registerCase (mkTest (b_ "B") (b_ "two") 1) (registerCase (mkTest (b_ "A") (b_ "two") 2)
    (registerCase (mkTest (b_ "A") (b_ "one") 0) make)).

Lemma test_main_runs_cases_witness :
  runAndResetWithArgs (b_ "test") [b_ "--case=two,three"] demo =
    Some (4, [Running (b_ "A(two)") false; Running (b_ "B(two)") false; WrongName (b_ "three")]) ∧
  runAndResetWithArgs (b_ "test") [b_ "--case=two"; b_ "--help"] demo = Some (1, [Usage]).
Proof.
  split; [vm_compute; reflexivity|].
  refine (proj2 (proj2 (test_main_runs_cases demo (b_ "test") [(b_ "case", Some (b_ "two"))]
    (b_ "--help") [] _)) _); [|by left].
  repeat constructor; cbn; try discriminate. apply (bool_decide_unpack _). vm_compute. exact I.
Defined.

End TestUnit.
