(* ===== verification/LockClients.v ===== *)
(** * The programs that test and measure the locks
      ([spinlock_test.cpp], [lock_benchmark.cpp], [lock_benchmark_MCS.cpp])

    Threads that increment a counter under a lock, and the main program that
    starts and joins them.  The programs are written once over the interface
    [Lock], and their theorem uses nothing of a lock but [LockLaws]; [Spinlock]
    and [Mutex] discharge them.  The main program of the test reads the requests
    and the counter; those of the benchmarks do not, and what is noted for them is
    what they would read. *)

From S2P Require Import Prelude.
From S2P Require Import Spinlock.
From S2P Require Import Locks.
From S2P Require Import SpinlockMCS.

(** ** Locks *)

(** What a client sees of a thread: it has no part in the lock, is in [lock()],
    has the lock, or is in [unlock()]. *)
Inductive phase := Outside | Locking | Inside | Unlocking.

#[global] Instance phase_eq_dec : EqDecision phase.
Proof. solve_decision. Defined.

(** A lock: its state, what it shows of a thread, and a thread's next step.  A
    step of a thread that is outside enters [lock()], one of a thread that is
    inside enters [unlock()]. *)
Class Lock := {
  lk : Type;
  lk_init : lk;
  lk_phase : lk → nat → phase;
  lk_step : nat → lk → option lk
}.

(** The phases in the order of a turn. *)
Definition leads (p q : phase) : Prop :=
  match p with
  | Outside | Locking => q = Locking ∨ q = Inside
  | Inside | Unlocking => q = Unlocking ∨ q = Outside
  end.

(** What a lock promises: its invariant gives mutual exclusion; a step is
    the business of one thread; when nobody has the lock, a thread can take it, and
    the one who has it can give it back. *)
Class LockLaws (L : Lock) := {
  lk_ok : lk → Prop;
  lk_ok_init : lk_ok lk_init;
  lk_ok_step t l l' : lk_ok l → lk_step t l = Some l' → lk_ok l';
  lk_outside t : lk_phase lk_init t = Outside;
  lk_excludes l t u : lk_ok l → lk_phase l t = Inside → lk_phase l u = Inside → t = u;
  lk_others t l l' u : lk_step t l = Some l' → u ≠ t → lk_phase l' u = lk_phase l u;
  lk_leads t l l' : lk_step t l = Some l' → leads (lk_phase l t) (lk_phase l' t);
  lk_acquire t l :
    lk_ok l → (∀ u, lk_phase l u = Outside ∨ lk_phase l u = Locking) →
    ∃ n l', exec lk_step (replicate n t) l = Some l' ∧ lk_phase l' t = Inside;
  lk_release t l :
    lk_ok l → lk_phase l t = Inside ∨ lk_phase l t = Unlocking →
    ∃ n l', exec lk_step (replicate n t) l = Some l' ∧ lk_phase l' t = Outside
}.

(** ** The two blocking locks *)

Definition spin_phase (p : Spinlock.pc) : phase :=
  match p with Spinlock.Out => Outside | Spinlock.Held => Inside | _ => Locking end.

#[export] Instance spinlock : Lock := {|
  lk := Spinlock.state;
  lk_init := Spinlock.init;
  lk_phase l t := spin_phase (Spinlock.pcs l t);
  lk_step := Spinlock.step
|}.

#[export] Instance mutex : Lock := {|
  lk := Mutex;
  lk_init := Mutex_init;
  lk_phase l t := if decide (owner l = Some t) then Inside else Outside;
  lk_step t l := if decide (owner l = Some t) then Mutex_unlock t l else Mutex_lock t l
|}.

(** A thread that has the lock, when it is taken. *)
Definition spin_ok (l : Spinlock.state) : Prop :=
  Spinlock.Inv l ∧ (Spinlock.locked_ l = true → ∃ t, Spinlock.pcs l t = Spinlock.Held).

Lemma spin_inside p : spin_phase p = Inside ↔ p = Spinlock.Held.
Proof. by destruct p. Qed.

Lemma spin_ok_step t l l' : spin_ok l → Spinlock.step t l = Some l' → spin_ok l'.
Proof.
  intros [HI Hh] Hs. split; [by eapply Spinlock.Inv_step|].
  destruct HI as [H1 _]. unfold Spinlock.step, Spinlock.lock_step, Spinlock.test_and_set in Hs.
  assert (∀ p, Spinlock.pcs l t ≠ Spinlock.Held → Spinlock.locked_ l = true →
    ∃ u, upd t p (Spinlock.pcs l) u = Spinlock.Held) as Hkeep.
  { intros p Hp Hl. destruct (Hh Hl) as [u Hu]. exists u. rewrite upd_ne; [done|]. congruence. }
  destruct (Spinlock.pcs l t) eqn:Hp; cbn in Hs; simplify_eq; cbn; intros Hl; try (by apply Hkeep).
  - destruct (Spinlock.locked_ l); [by apply Hkeep|]. exists t. apply upd_eq.
  - destruct (Spinlock.locked_ l); [by apply Hkeep|]. exists t. apply upd_eq.
Qed.

#[export] Instance spinlock_laws : LockLaws spinlock.
Proof.
  unshelve refine (@Build_LockLaws spinlock spin_ok _ _ _ _ _ _ _ _); cbn.
  - by split; [apply Spinlock.Inv_init|].
  - apply spin_ok_step.
  - done.
  - intros l t u [[_ H2] _] Ht%spin_inside Hu%spin_inside. by apply H2.
  - intros t l l' u Hs Hu. f_equal. unfold Spinlock.step, Spinlock.lock_step in Hs.
    destruct (Spinlock.pcs l t); cbn in Hs; simplify_eq; cbn; by apply upd_ne.
  - intros t l l' Hs. unfold Spinlock.step, Spinlock.lock_step in Hs.
    destruct (Spinlock.pcs l t); cbn in Hs; simplify_eq; cbn; rewrite upd_eq; cbn; auto;
      repeat case_match; cbn; auto.
  - intros t l [_ Hh] Hidle. assert (Spinlock.locked_ l = false) as Hl.
    { destruct (Spinlock.locked_ l); [|done]. destruct (Hh eq_refl) as [u Hu].
      destruct (Hidle u); rewrite Hu in *; done. }
    assert (Spinlock.pcs l t ≠ Spinlock.Held) as Hp.
    { intros Hp. destruct (Hidle t); rewrite Hp in *; done. }
    destruct (Spinlock.spinlock_free_is_taken t l Hl Hp) as (l' & He & Ht & _).
    exists (Spinlock.distance (Spinlock.pcs l t)), l'. by rewrite Ht.
  - intros t l _ [Hp%spin_inside|Hp]; [|by destruct (Spinlock.pcs l t)].
    exists 1, (Spinlock.unlock t l). cbn. unfold Spinlock.step. rewrite Hp. cbn. by rewrite upd_eq.
Defined.

Lemma mutex_inside (l : Mutex) t : lk_phase (Lock := mutex) l t = Inside ↔ owner l = Some t.
Proof. cbn. by case_decide. Qed.

#[export] Instance mutex_laws : LockLaws mutex.
Proof.
  unshelve refine (@Build_LockLaws mutex (λ _, True) _ _ _ _ _ _ _ _); try done.
  - intros l t u _ Ht%mutex_inside Hu%mutex_inside. congruence.
  - intros t [o] l' u Hs Hu; cbn in *. unfold Mutex_unlock, Mutex_lock in Hs; cbn in Hs.
    repeat case_decide; repeat case_match; simplify_eq; cbn in *; congruence.
  - intros t [o] l' Hs; cbn in *. unfold Mutex_unlock, Mutex_lock in Hs; cbn in Hs.
    repeat case_decide; repeat case_match; simplify_eq; cbn in *; auto; try congruence.
  - intros t [o] _ Hidle. assert (o = None) as ->.
    { destruct o as [u|]; [|done].
      assert (lk_phase (Lock := mutex) (mkMutex (Some u)) u = Inside) by by apply mutex_inside.
      destruct (Hidle u); congruence. }
    exists 1, (mkMutex (Some t)). split; [reflexivity|by apply mutex_inside].
  - intros t [o] _ [Hp%mutex_inside|Hp]; cbn in Hp; [subst o|by case_decide].
    exists 1, (mkMutex None). cbn. rewrite decide_True by done. unfold Mutex_unlock. cbn.
    rewrite decide_True by done. split; reflexivity.
Defined.

(** The queue lock, with the node each thread has in its [ThreadLocal]; what is
    in a new node is not known.  It has no [LockLaws]. *)
Definition mcs_phase (q : SpinlockMCS.pc) : phase :=
  match q with
  | SpinlockMCS.Out => Outside
  | SpinlockMCS.ReadTail | SpinlockMCS.Swap _ | SpinlockMCS.Flag _ | SpinlockMCS.Link _
  | SpinlockMCS.Spin => Locking
  | SpinlockMCS.Held => Inside
  | SpinlockMCS.TestNext | SpinlockMCS.Release | SpinlockMCS.AwaitNext | SpinlockMCS.Wake => Unlocking
  end.

Definition mcs (nodes : nat → SpinlockMCS.Node) : Lock := {|
  lk := SpinlockMCS.state;
  lk_init := SpinlockMCS.init nodes;
  lk_phase l t := mcs_phase (SpinlockMCS.pcs l t);
  lk_step := SpinlockMCS.step
|}.

(** ** The programs *)

Module LockTester.

(** The loop of a tester takes the lock for every increment, or once. *)
Inductive critical := Small | Large.

(** Where the thread of a tester is: not started; before the test of the loop;
    calling [lock()]; before reading and before writing the counter; calling
    [unlock()]; ended. *)
Inductive pc := Unborn | Test | CallLock | Load | Store (v : Z) | CallUnlock | Done.

#[global] Instance pc_eq_dec : EqDecision pc.
Proof. solve_decision. Defined.

(** [increments] is the loop's variable. *)
Record tester := mkTester { at_ : pc; increments : Z; requests_ : Z }.

(** What the main program reads: the requests of a tester after [join()], and
    the counter after the last of a round of so many testers. *)
Inductive reading := Requests (r : Z) | Total (threads : nat) (counter : Z).

(** Where the main program is: before a round, with those that are left; about
    to start tester [i]; about to join tester [i]; at its end. *)
Inductive main :=
  | NewRound (rounds : list nat)
  | Starting (i : nat) (rounds : list nat)
  | Joining (i : nat) (rounds : list nat)
  | Finished.

(** The numbers of testers of the rounds, the increments of each tester. *)
Record program := mkProgram { region : critical; rounds_ : list nat; incs : Z }.

(** [TEST(Concurrency, counters)] of [spinlock_test.cpp]. *)
Definition counters : program := mkProgram Small [128] 50000.

(** The same of [spinlock_mcs_test.cpp]. *)
Definition counters_MCS : program := mkProgram Small [30] 100.

(** [for(; threads <= MAX_THREADS; threads++)]. *)
Definition thread_counts (threads MAX_THREADS : nat) : list nat := seq threads (S MAX_THREADS - threads).

(** The measurements of [lock_benchmark.cpp], *)
Definition SpinLocksShortCritical := mkProgram Small (thread_counts 2 8) 50000.
Definition SpinLocksLongCritical := mkProgram Large (thread_counts 2 8) 50000.
Definition BlockingLocksShortCritical := mkProgram Small (thread_counts 2 8) 50000.
Definition BlockingLocksLongCritical := mkProgram Large (thread_counts 2 8) 50000.

(** and of [lock_benchmark_MCS.cpp]. *)
Definition MCS_SpinLocksShortCritical := mkProgram Small (thread_counts 2 8) 200.
Definition MCS_SpinLocksLongCritical := mkProgram Large (thread_counts 2 8) 200.
Definition SpinLocksMCSShortCritical := mkProgram Small (thread_counts 2 8) 200.
Definition SpinLocksMCSLongCritical := mkProgram Large (thread_counts 2 8) 200.

(** [++] on an [int]. *)
Definition incr (x : Z) : option Z := if decide (x + 1 < 2 ^ 31)%Z then Some (x + 1)%Z else None.

Section client.
Context {L : Lock} (p : program).

Record state := mkState {
  lock_ : lk;
  counter_ : Z;
  testers : list tester;
  main_ : main;
  readings : list reading
}.

Definition init : state := mkState lk_init 0 [] (NewRound (rounds_ p)) [].

Definition set_tester (t : nat) (th : tester) (s : state) : state :=
  mkState (lock_ s) (counter_ s) (<[t := th]> (testers s)) (main_ s) (readings s).
Definition set_lock (l : lk) (s : state) : state :=
  mkState l (counter_ s) (testers s) (main_ s) (readings s).
Definition set_counter (c : Z) (s : state) : state :=
  mkState (lock_ s) c (testers s) (main_ s) (readings s).
Definition set_main (m : main) (s : state) : state :=
  mkState (lock_ s) (counter_ s) (testers s) m (readings s).
Definition note (r : reading) (s : state) : state :=
  mkState (lock_ s) (counter_ s) (testers s) (main_ s) (readings s ++ [r]).

Definition goto (t : nat) (q : pc) (th : tester) (s : state) : state :=
  set_tester t (mkTester q (increments th) (requests_ th)) s.

(** One step of [test(increments)].  The delay of the large region has no
    effect; [requests_] belongs to the tester alone until it is joined, and is
    incremented in the step that writes the counter. *)
Definition test_step (t : nat) (th : tester) (s : state) : option state :=
  match at_ th with
  | Unborn | Done => None
  | Test =>
    let left := (increments th - 1)%Z in
    let next := if decide (0 < increments th)%Z
      then match region p with Small => CallLock | Large => Load end
      else match region p with Small => Done | Large => CallUnlock end in
    Some (set_tester t (mkTester next left (requests_ th)) s)
  | CallLock =>
    l ← lk_step t (lock_ s);
    let s := set_lock l s in
    Some (if decide (lk_phase l t = Inside)
          then goto t match region p with Small => Load | Large => Test end th s
          else s)
  | Load => Some (goto t (Store (counter_ s)) th s)
  | Store v =>
    c ← incr v;
    r ← incr (requests_ th);
    Some (set_tester t
      (mkTester match region p with Small => CallUnlock | Large => Test end (increments th) r)
      (set_counter c s))
  | CallUnlock =>
    l ← lk_step t (lock_ s);
    let s := set_lock l s in
    Some (if decide (lk_phase l t = Outside)
          then goto t match region p with Small => Test | Large => Done end th s
          else s)
  end.

(** The constructor of a tester, and [start(increments)]. *)
Definition new_tester : tester := mkTester Unborn 0 0.
Definition started : tester :=
  mkTester match region p with Small => Test | Large => CallLock end (incs p) 0.

(** One step of the main program: the creation of a round's testers with the
    counter at 0; [start]; [join], which blocks until the thread has ended; the
    end of a round. *)
Definition main_step (s : state) : option state :=
  match main_ s with
  | NewRound [] => Some (set_main Finished s)
  | NewRound (threads :: rounds) =>
    Some (mkState (lock_ s) 0 (replicate threads new_tester) (Starting 0 rounds) (readings s))
  | Starting i rounds =>
    if decide (i < length (testers s))
    then Some (set_main (Starting (S i) rounds) (set_tester i started s))
    else Some (set_main (Joining 0 rounds) s)
  | Joining i rounds =>
    match testers s !! i with
    | Some th =>
      if decide (at_ th = Done)
      then Some (set_main (Joining (S i) rounds) (note (Requests (requests_ th)) s))
      else None
    | None => Some (set_main (NewRound rounds) (note (Total (length (testers s)) (counter_ s)) s))
    end
  | Finished => None
  end.

Inductive label := Main | Thread (t : nat).

Definition step (l : label) (s : state) : option state :=
  match l with
  | Main => main_step s
  | Thread t => th ← testers s !! t; test_step t th s
  end.

(** What a round should read: [EXPECT_EQ(testers[i]->requests(), incs)] and
    [EXPECT_EQ(counter, threads*incs)]. *)
Definition expected_round (threads : nat) : list reading :=
  replicate threads (Requests (incs p)) ++ [Total threads (Z.of_nat threads * incs p)].

Definition expected (rounds : list nat) : list reading := rounds ≫= expected_round.

(** ** The invariant *)

Context `{!LockLaws L}.

Definition phase_ok (q : pc) (ph : phase) : Prop :=
  match q with
  | Unborn | Done => ph = Outside
  | Test => ph = match region p with Small => Outside | Large => Inside end
  | CallLock => ph = Outside ∨ ph = Locking
  | Load | Store _ => ph = Inside
  | CallUnlock => ph = Inside ∨ ph = Unlocking
  end.

(** What is left of the increments, next to those under way. *)
Definition left_ok (th : tester) (under_way : Z) : Prop :=
  (0 ≤ increments th ∧ requests_ th + increments th + under_way = incs p)%Z.

Definition count_ok (th : tester) : Prop :=
  (0 ≤ requests_ th)%Z ∧
  match at_ th with
  | Unborn => requests_ th = 0%Z
  | Test => left_ok th 0
  | CallLock => left_ok th match region p with Small => 1 | Large => 0 end
  | Load | Store _ => left_ok th 1
  | CallUnlock => match region p with Small => left_ok th 0 | Large => requests_ th = incs p end
  | Done => requests_ th = incs p
  end.

Definition all_done (s : state) : Prop := ∀ t th, testers s !! t = Some th → at_ th = Done.

Definition main_ok (s : state) : Prop :=
  match main_ s with
  | NewRound rs => ∃ ds, rounds_ p = ds ++ rs ∧ readings s = expected ds ∧ all_done s
  | Starting i rs => ∃ ds,
    rounds_ p = ds ++ length (testers s) :: rs ∧ readings s = expected ds ∧
    i ≤ length (testers s) ∧ ∀ t th, testers s !! t = Some th → (at_ th = Unborn ↔ i ≤ t)
  | Joining i rs => ∃ ds,
    rounds_ p = ds ++ length (testers s) :: rs ∧
    readings s = expected ds ++ replicate i (Requests (incs p)) ∧ i ≤ length (testers s) ∧
    ∀ t th, testers s !! t = Some th → at_ th ≠ Unborn ∧ (t < i → at_ th = Done)
  | Finished => readings s = expected (rounds_ p) ∧ all_done s
  end.

Definition made (th : tester) : nat := Z.to_nat (requests_ th).

Record Inv (s : state) : Prop := {
  i_lock : lk_ok (lock_ s);
  i_phase t th : testers s !! t = Some th → phase_ok (at_ th) (lk_phase (lock_ s) t);
  i_away t : testers s !! t = None → lk_phase (lock_ s) t = Outside;
  i_count t th : testers s !! t = Some th → count_ok th;
  i_total : counter_ s = Z.of_nat (tally made (testers s));
  i_store t th v : testers s !! t = Some th → at_ th = Store v → v = counter_ s;
  i_main : main_ok s
}.

Hypothesis incs_pos : (0 ≤ incs p)%Z.
Hypothesis no_overflow : Forall (λ n, Z.of_nat n * incs p < 2 ^ 31)%Z (rounds_ p).

Lemma client_init : Inv init.
Proof.
  split; cbn; try done; [apply lk_ok_init|by intros; apply lk_outside|].
  by exists [].
Qed.

(** A thread that makes a step stays between its start and its end. *)
Lemma main_ok_insert s t th th' l c :
  main_ok s → testers s !! t = Some th → at_ th ≠ Done → (at_ th' = Unborn ↔ at_ th = Unborn) →
  main_ok (mkState l c (<[t := th']> (testers s)) (main_ s) (readings s)).
Proof.
  intros Hm Ht Hd Hu. unfold main_ok, all_done in *; cbn in *. rewrite length_insert.
  destruct (main_ s) as [rs|i rs|i rs|].
  - destruct Hm as (ds & _ & _ & Ha). destruct Hd. by eapply Ha.
  - destruct Hm as (ds & ? & ? & ? & Ha). exists ds. split_and!; try done.
    intros u thu [(<- & <- & _)|[_ Hl]]%list_lookup_insert_Some; [|by apply Ha].
    rewrite Hu. by apply Ha.
  - destruct Hm as (ds & ? & ? & ? & Ha). exists ds. split_and!; try done.
    intros u thu [(<- & <- & _)|[_ Hl]]%list_lookup_insert_Some; [|by apply Ha].
    destruct (Ha _ _ Ht) as [Hb Hi]. split; [by rewrite Hu|]. intros Hlt. by destruct Hd; apply Hi.
  - destruct Hm as [_ Ha]. destruct Hd. by eapply Ha.
Qed.

Lemma client_insert s t th th' l c :
  Inv s → testers s !! t = Some th → at_ th ≠ Unborn → at_ th ≠ Done → at_ th' ≠ Unborn →
  lk_ok l → (∀ u, u ≠ t → lk_phase l u = lk_phase (lock_ s) u) →
  phase_ok (at_ th') (lk_phase l t) → count_ok th' →
  (c = counter_ s + (requests_ th' - requests_ th))%Z →
  (c = counter_ s ∨ lk_phase (lock_ s) t = Inside) →
  (∀ v, at_ th' = Store v → v = c) →
  Inv (mkState l c (<[t := th']> (testers s)) (main_ s) (readings s)).
Proof.
  intros HI Ht Hu Hd Hu' Hl Ho Hp Hc Hcount Hex Hst. split; cbn; [done| | | | | |].
  - intros u thu [(<- & <- & _)|[Hne Hx]]%list_lookup_insert_Some; [done|].
    rewrite Ho by done. by apply (i_phase _ HI).
  - intros u Hx. apply list_lookup_insert_None in Hx. rewrite Ho; [by apply (i_away _ HI)|].
    intros ->. congruence.
  - intros u thu [(<- & <- & _)|[Hne Hx]]%list_lookup_insert_Some; [done|]. by eapply (i_count _ HI).
  - pose proof (tally_insert made _ _ _ th' Ht) as Hs. rewrite Hcount, (i_total _ HI).
    destruct Hc as [Hpos _]. destruct (i_count _ HI _ _ Ht) as [Hpos' _]. unfold made in *. lia.
  - intros u thu v [(<- & <- & _)|[Hne Hx]]%list_lookup_insert_Some Hv; [by apply Hst|].
    destruct Hex as [->|Hin]; [by eapply (i_store _ HI)|].
    destruct Hne. apply (lk_excludes (lock_ s)); [apply HI|done|].
    pose proof (i_phase _ HI _ _ Hx) as Hph. by rewrite Hv in Hph.
  - eapply main_ok_insert; [apply HI|done..|]. by split.
Qed.

(** A started tester has made fewer increments than all of them can. *)
Lemma tally_room (l : list tester) t th b :
  (∀ u thu, l !! u = Some thu → made thu ≤ b) → l !! t = Some th → made th < b →
  tally made l + 1 ≤ length l * b.
Proof.
  intros Hb Ht Hlt. pose proof (tally_insert made l t th (mkTester Done 0 (Z.of_nat b)) Ht) as Hs.
  enough (tally made (<[t := mkTester Done 0 (Z.of_nat b)]> l) ≤ length l * b) as Hle.
  { unfold made at 4 in Hs. cbn in Hs. lia. }
  rewrite <- (length_insert l t (mkTester Done 0 (Z.of_nat b))).
  assert (∀ u thu, <[t := mkTester Done 0 (Z.of_nat b)]> l !! u = Some thu → made thu ≤ b) as Hb'.
  { intros u thu [(_ & <- & _)|[_ Hu]]%list_lookup_insert_Some; [unfold made; cbn; lia|eauto]. }
  revert Hb'. generalize (<[t := mkTester Done 0 (Z.of_nat b)]> l). clear. intros l.
  induction l as [|x l IH]; intros Hb; cbn; [done|].
  pose proof (Hb 0 x eq_refl). specialize (IH (λ u, Hb (S u))). lia.
Qed.

Lemma round_size s t th :
  Inv s → testers s !! t = Some th → at_ th ≠ Done → (Z.of_nat (length (testers s)) * incs p < 2 ^ 31)%Z.
Proof.
  intros HI Ht Hd. pose proof (i_main _ HI) as Hm. pose proof no_overflow as Hn.
  rewrite Forall_forall in Hn. unfold main_ok, all_done in Hm. destruct (main_ s).
  - destruct Hm as (ds & _ & _ & Hm). destruct Hd. by eapply Hm.
  - destruct Hm as (ds & Hr & _). apply Hn. rewrite Hr. set_solver.
  - destruct Hm as (ds & Hr & _). apply Hn. rewrite Hr. set_solver.
  - destruct Hm as [_ Hm]. destruct Hd. by eapply Hm.
Qed.

(** The increment of the counter does not overflow. *)
Lemma counter_room s t th :
  Inv s → testers s !! t = Some th → at_ th ≠ Done → (requests_ th + 1 ≤ incs p)%Z →
  (counter_ s + 1 < 2 ^ 31 ∧ requests_ th + 1 < 2 ^ 31)%Z.
Proof.
  intros HI Ht Hd Hr. pose proof (round_size _ _ _ HI Ht Hd) as Hn.
  destruct (i_count _ HI _ _ Ht) as [Hpos _].
  assert (tally made (testers s) + 1 ≤ length (testers s) * Z.to_nat (incs p)) as Hle.
  { apply (tally_room _ t th); [|done|unfold made; lia].
    intros u thu Hu. destruct (i_count _ HI _ _ Hu) as [Hp Hc]. unfold made.
    unfold left_ok in Hc. destruct (at_ thu), (region p); lia. }
  rewrite (i_total _ HI). pose proof (tally_le made _ _ _ Ht) as Hm. unfold made in *. lia.
Qed.

Lemma incr_Some x y : incr x = Some y → y = (x + 1)%Z.
Proof. unfold incr. case_decide; congruence. Qed.

(** A thread that waits in [lock()] or [unlock()]. *)
Lemma client_wait s t th l :
  Inv s → testers s !! t = Some th → at_ th ≠ Unborn → at_ th ≠ Done →
  lk_ok l → (∀ u, u ≠ t → lk_phase l u = lk_phase (lock_ s) u) →
  phase_ok (at_ th) (lk_phase l t) → Inv (set_lock l s).
Proof.
  intros HI Ht Hu Hd Hl Ho Hp.
  pose proof (client_insert s t th th l (counter_ s) HI Ht Hu Hd Hu Hl Ho Hp (i_count _ HI _ _ Ht)) as Hw.
  rewrite list_insert_id in Hw by done. apply Hw; [lia|by left|].
  intros v. by apply (i_store _ HI t th).
Qed.

(** The side conditions of [client_insert] for a step of thread [t] after which
    it has what its new place requires. *)
Ltac tester_moved s t th :=
  eapply (client_insert s t th); cbn; try done;
  try (match goal with H : at_ th = _ |- _ => by rewrite H end); try lia; try (by left);
  try (by eapply lk_ok_step); try (by intros; eapply lk_others);
  unfold phase_ok, count_ok, left_ok in *; destruct (region p); cbn in *; try done; try lia;
  try congruence; auto.

Lemma client_thread t th s s' :
  Inv s → testers s !! t = Some th → test_step t th s = Some s' → Inv s'.
Proof.
  intros HI Ht Hs. pose proof (i_count _ HI _ _ Ht) as [Hpos Hc].
  pose proof (i_phase _ HI _ _ Ht) as Hp. pose proof (i_lock _ HI) as Hl.
  unfold test_step in Hs. destruct (at_ th) eqn:Hat; cbn in Hs, Hc, Hp; simplify_eq.
  - case_decide; tester_moved s t th.
  - destruct (lk_step t (lock_ s)) as [l|] eqn:El; cbn in Hs; [|done]. simplify_eq.
    pose proof (lk_leads _ _ _ El) as Hle. case_decide as Hin; [tester_moved s t th|].
    eapply (client_wait _ t th); [done|done|by rewrite Hat|by rewrite Hat|by eapply lk_ok_step| |].
    + intros. by eapply lk_others.
    + rewrite Hat. destruct Hp as [Hp|Hp]; rewrite Hp in Hle; destruct Hle; cbn; auto; by destruct Hin.
  - tester_moved s t th.
  - pose proof (counter_room _ _ _ HI Ht ltac:(by rewrite Hat)) as Hr.
    rewrite (i_store _ HI _ _ _ Ht Hat) in *.
    destruct (incr (counter_ s)) as [c|] eqn:Ec; cbn in Hs; [|done].
    destruct (incr (requests_ th)) as [r|] eqn:Er; cbn in Hs; [|done]. simplify_eq.
    apply incr_Some in Ec as ->. apply incr_Some in Er as ->. tester_moved s t th.
  - destruct (lk_step t (lock_ s)) as [l|] eqn:El; cbn in Hs; [|done]. simplify_eq.
    pose proof (lk_leads _ _ _ El) as Hle. case_decide as Hin; [tester_moved s t th|].
    eapply (client_wait _ t th); [done|done|by rewrite Hat|by rewrite Hat|by eapply lk_ok_step| |].
    + intros. by eapply lk_others.
    + rewrite Hat. destruct Hp as [Hp|Hp]; rewrite Hp in Hle; destruct Hle; cbn; auto; by destruct Hin.
Qed.

Lemma expected_app ds rs : expected (ds ++ rs) = expected ds ++ expected rs.
Proof. apply bind_app. Qed.

Lemma lookup_done s t th : Inv s → all_done s → testers s !! t = Some th → requests_ th = incs p.
Proof. intros HI Ha Ht. destruct (i_count _ HI _ _ Ht) as [_ Hc]. by rewrite (Ha _ _ Ht) in Hc. Qed.

(** At the end of a round the counter is what it should be. *)
Lemma total_done s : Inv s → all_done s → counter_ s = (Z.of_nat (length (testers s)) * incs p)%Z.
Proof.
  intros HI Ha. rewrite (i_total _ HI).
  assert (∀ t th, testers s !! t = Some th → made th = Z.to_nat (incs p)) as Hm.
  { intros t th Ht. unfold made. by rewrite (lookup_done _ _ _ HI Ha Ht). }
  revert Hm. generalize (testers s). clear - incs_pos. intros l.
  induction l as [|x l IH]; intros Hm; cbn [tally length]; [done|].
  rewrite (Hm 0 x eq_refl). specialize (IH (λ t, Hm (S t))). lia.
Qed.

(** All the threads are outside when no tester is under way. *)
Lemma all_outside s t : Inv s → all_done s → lk_phase (lock_ s) t = Outside.
Proof.
  intros HI Ha. destruct (testers s !! t) as [th|] eqn:Ht; [|by apply (i_away _ HI)].
  pose proof (i_phase _ HI _ _ Ht) as Hp. by rewrite (Ha _ _ Ht) in Hp.
Qed.

Lemma started_ok t s : Inv s → lk_phase (lock_ s) t = Outside →
  count_ok started ∧ phase_ok (at_ started) (lk_phase (lock_ s) t).
Proof.
  intros _ Hp. rewrite Hp. unfold started, count_ok, left_ok, phase_ok.
  destruct (region p); cbn; auto with lia.
Qed.

Lemma client_set_main s m :
  Inv s → main_ok (set_main m s) → Inv (set_main m s).
Proof. intros HI Hm. split; try apply HI; done. Qed.

Lemma client_start s i rs : Inv s → main_ s = Starting i rs → i < length (testers s) →
  Inv (set_main (Starting (S i) rs) (set_tester i started s)).
Proof.
  intros HI Hm Hi. pose proof (i_main _ HI) as Hmain. unfold main_ok in Hmain. rewrite Hm in Hmain.
  destruct Hmain as (ds & Hr & Hd & _ & Ha).
  destruct (lookup_lt_is_Some_2 _ _ Hi) as [th Ht].
  assert (at_ th = Unborn) as Hu by (by eapply Ha).
  pose proof (i_phase _ HI _ _ Ht) as Hp. rewrite Hu in Hp. cbn in Hp.
  destruct (i_count _ HI _ _ Ht) as [_ Hc]. rewrite Hu in Hc.
  destruct (started_ok i s HI Hp) as [Hsc Hsp].
  assert (at_ started ≠ Unborn) as Hsu by (unfold started; cbn; by destruct (region p)).
  split; cbn; [apply HI| | | | | |].
  - intros u thu [(<- & <- & _)|[Hne Hx]]%list_lookup_insert_Some; [done|]. by apply (i_phase _ HI).
  - intros u Hx%list_lookup_insert_None. by apply (i_away _ HI).
  - intros u thu [(<- & <- & _)|[Hne Hx]]%list_lookup_insert_Some; [done|]. by eapply (i_count _ HI).
  - pose proof (tally_insert made _ _ _ started Ht) as Hs. rewrite (i_total _ HI).
    unfold made in Hs at 2 4. rewrite Hc in Hs. cbn in Hs. by rewrite !Nat.add_0_r in Hs; rewrite Hs.
  - intros u thu v [(<- & <- & _)|[Hne Hx]]%list_lookup_insert_Some Hv.
    + unfold started in Hv. cbn in Hv. by destruct (region p).
    + by eapply (i_store _ HI).
  - exists ds. cbn. rewrite length_insert. split_and!; try done.
    intros u thu [(<- & <- & _)|[Hne Hx]]%list_lookup_insert_Some.
    + split; [done|lia].
    + rewrite (Ha _ _ Hx). lia.
Qed.

Lemma client_main s s' : Inv s → main_step s = Some s' → Inv s'.
Proof.
  intros HI Hs. pose proof (i_main _ HI) as Hm. unfold main_step in Hs. unfold main_ok in Hm.
  destruct (main_ s) as [[|n rs]|i rs|i rs|] eqn:Em; simplify_eq.
  - apply client_set_main; [done|]. destruct Hm as (ds & Hr & Hd & Ha). split; [|done].
    cbn. by rewrite Hr, app_nil_r.
  - destruct Hm as (ds & Hr & Hd & Ha).
    assert (∀ t th, replicate n new_tester !! t = Some th → th = new_tester) as Hnew
      by (by intros t th [-> _]%lookup_replicate).
    split; cbn; [apply HI| | | | | |].
    + intros t th ->%Hnew. cbn. by apply all_outside.
    + intros t _. by apply all_outside.
    + intros t th ->%Hnew. by split.
    + clear. induction n as [|n IH]; cbn; [done|]. exact IH.
    + by intros t th v ->%Hnew.
    + exists ds. cbn. rewrite length_replicate. split_and!; try done; [lia|].
      intros t th ->%Hnew. split; [lia|done].
  - case_decide as Hi; simplify_eq; [by apply client_start|]. apply client_set_main; [done|].
    destruct Hm as (ds & Hr & Hd & Hi' & Ha). exists ds. cbn. rewrite app_nil_r.
    split_and!; try done; [lia|]. intros t th Ht. split; [|lia]. rewrite (Ha _ _ Ht).
    apply lookup_lt_Some in Ht. lia.
  - destruct Hm as (ds & Hr & Hd & Hi & Ha). destruct (testers s !! i) as [th|] eqn:Ht.
    + case_decide as Hdone; simplify_eq. split; try apply HI. exists ds. cbn.
      pose proof (lookup_lt_Some _ _ _ Ht). split_and!; [done| |lia|].
      * destruct (i_count _ HI _ _ Ht) as [_ Hc]. rewrite Hdone in Hc. rewrite Hc, Hd.
        by rewrite replicate_cons_app, app_assoc.
      * intros t thu Hu. destruct (Ha _ _ Hu) as [Hb Hlt]. split; [done|]. intros ?.
        destruct (decide (t = i)) as [->|]; [congruence|]. apply Hlt. lia.
    + simplify_eq. apply lookup_ge_None in Ht. assert (i = length (testers s)) as -> by lia.
      assert (all_done s) as Had.
      { intros t th Hl. apply (Ha _ _ Hl). by eapply lookup_lt_Some. }
      split; try apply HI. exists (ds ++ [length (testers s)]). cbn.
      rewrite Hr, <- app_assoc. split_and!; [done| |done].
      rewrite expected_app, Hd, (total_done _ HI Had). unfold expected at 3. cbn.
      unfold expected_round. by rewrite app_nil_r, app_assoc.
Qed.

Lemma client_step l s s' : Inv s → step l s = Some s' → Inv s'.
Proof.
  intros HI Hs. destruct l as [|t]; cbn in Hs; [by eapply client_main|].
  destruct (testers s !! t) as [th|] eqn:Ht; cbn in Hs; [|done]. by eapply client_thread.
Qed.

(** ** The program can always be run to its end *)

(** Some steps of thread [t] lead from [s] to [s']. *)
Record alone (t : nat) (s s' : state) : Prop := {
  al_run : reachable step s s';
  al_main : main_ s' = main_ s;
  al_readings : readings s' = readings s;
  al_length : length (testers s') = length (testers s);
  al_testers u : u ≠ t → testers s' !! u = testers s !! u;
  al_phase u : u ≠ t → lk_phase (lock_ s') u = lk_phase (lock_ s) u
}.

Lemma alone_refl t s : alone t s s.
Proof. split; try done. by exists []. Qed.

Lemma alone_trans t s1 s2 s3 : alone t s1 s2 → alone t s2 s3 → alone t s1 s3.
Proof.
  intros H1 H2. split.
  - eapply reachable_trans; [apply H1|apply H2].
  - by rewrite (al_main _ _ _ H2), (al_main _ _ _ H1).
  - by rewrite (al_readings _ _ _ H2), (al_readings _ _ _ H1).
  - by rewrite (al_length _ _ _ H2), (al_length _ _ _ H1).
  - intros u Hu. by rewrite (al_testers _ _ _ H2), (al_testers _ _ _ H1).
  - intros u Hu. by rewrite (al_phase _ _ _ H2), (al_phase _ _ _ H1).
Qed.

Lemma alone_Inv t s s' : Inv s → alone t s s' → Inv s'.
Proof. intros HI [Hr _ _ _ _ _]. eapply reachable_invariant; [apply client_step|exact HI|exact Hr]. Qed.

(** A step that moves the tester and perhaps the lock. *)
Lemma alone_step t s th th' l c :
  testers s !! t = Some th →
  test_step t th s = Some (mkState l c (<[t := th']> (testers s)) (main_ s) (readings s)) →
  (∀ u, u ≠ t → lk_phase l u = lk_phase (lock_ s) u) →
  let s' := mkState l c (<[t := th']> (testers s)) (main_ s) (readings s) in
  alone t s s' ∧ testers s' !! t = Some th'.
Proof.
  intros Ht Hs Hp s'. split.
  - split; cbn; try done.
    + apply (reachable_step _ (Thread t)). cbn. by rewrite Ht.
    + by rewrite length_insert.
    + intros u Hu. by rewrite list_lookup_insert_ne.
  - cbn. rewrite list_lookup_insert_eq; [done|]. by eapply lookup_lt_Some.
Qed.

(** A thread alone gets through a call of the lock. *)
Lemma alone_call t n s th q l' ph :
  testers s !! t = Some th →
  (∀ s, test_step t th s = l ← lk_step t (lock_ s);
    Some (if decide (lk_phase l t = ph) then goto t q th (set_lock l s) else set_lock l s)) →
  lk_phase (lock_ s) t ≠ ph →
  exec lk_step (replicate n t) (lock_ s) = Some l' → lk_phase l' t = ph →
  ∃ s', alone t s s' ∧ testers s' !! t = Some (mkTester q (increments th) (requests_ th)).
Proof.
  intros Ht Hstep. revert s Ht. induction n as [|n IH]; intros s Ht Hne He Hph; cbn in He; [congruence|].
  destruct (lk_step t (lock_ s)) as [l|] eqn:El; cbn in He; [|done].
  specialize (Hstep s) as Hs. rewrite El in Hs. cbn in Hs.
  assert (∀ u, u ≠ t → lk_phase l u = lk_phase (lock_ s) u) as Ho by (intros; by eapply lk_others).
  destruct (decide (lk_phase l t = ph)) as [Hin|Hin].
  - destruct (alone_step t s th _ _ _ Ht Hs Ho) as [Ha Ht']. eauto.
  - destruct (IH (set_lock l s)) as (s' & Ha & Ht'); try done.
    exists s'. split; [|done]. eapply alone_trans; [|exact Ha].
    split; try done. apply (reachable_step _ (Thread t)). cbn. by rewrite Ht.
Qed.

(** How far a thread is from its end. *)
Definition measure (th : tester) : nat :=
  match at_ th with
  | Unborn | Done => 0
  | CallUnlock => match region p with Small => 5 * S (Z.to_nat (increments th)) + 1 | Large => 1 end
  | Test => 5 * S (Z.to_nat (increments th))
  | Store _ => 5 * S (Z.to_nat (increments th)) + 2
  | Load => 5 * S (Z.to_nat (increments th)) + 3
  | CallLock => 5 * S (Z.to_nat (increments th)) + 4
  end.

(** A thread without a part in the lock, or that has asked for it. *)
Definition idle (l : lk) (t : nat) : Prop := lk_phase l t = Outside ∨ lk_phase l t = Locking.

Definition under_way (th : tester) : Prop := at_ th ≠ Unborn.

(** Ends the proof that a thread got nearer to its end, from what it did. *)
Ltac nearer Ha Ht' :=
  eexists _, _; split; [exact Ha|]; split; [exact Ht'|]; unfold measure;
  match goal with H : at_ _ = _ |- _ => rewrite H end; cbn;
  repeat case_decide; destruct (region p); cbn; split; try done; lia.

(** A thread under way gets nearer to its end; to enter [lock()] it needs the
    others to be idle. *)
Lemma turn t s th :
  Inv s → testers s !! t = Some th → under_way th → at_ th ≠ Done →
  (at_ th = CallLock → ∀ u, idle (lock_ s) u) →
  ∃ s' th', alone t s s' ∧ testers s' !! t = Some th' ∧ under_way th' ∧ measure th' < measure th.
Proof.
  intros HI Ht Hu Hd Hidle. pose proof (i_count _ HI _ _ Ht) as [Hpos Hc].
  pose proof (i_phase _ HI _ _ Ht) as Hp. unfold under_way, left_ok, phase_ok in *.
  destruct (at_ th) eqn:Hat; try done.
  - edestruct (alone_step t s th) as [Ha Ht']; [done|unfold test_step; rewrite Hat; reflexivity|done|].
    nearer Ha Ht'.
  - destruct (lk_acquire t (lock_ s)) as (n & l' & He & Hl'); [apply HI|by apply Hidle|].
    edestruct (alone_call t n s th) as (s' & Ha & Ht'); [done| | |exact He|exact Hl'|].
    { intros s0. unfold test_step. rewrite Hat. reflexivity. }
    { destruct Hp as [Hp|Hp]; by rewrite Hp. }
    nearer Ha Ht'.
  - edestruct (alone_step t s th) as [Ha Ht']; [done|unfold test_step; rewrite Hat; reflexivity|done|].
    nearer Ha Ht'.
  - assert (v = counter_ s) as -> by by eapply (i_store _ HI).
    destruct (counter_room _ _ _ HI Ht) as [Hr1 Hr2]; [by rewrite Hat|lia|].
    edestruct (alone_step t s th) as [Ha Ht']; [done| |done|].
    { unfold test_step. rewrite Hat. unfold incr. rewrite !decide_True by done. reflexivity. }
    nearer Ha Ht'.
  - destruct (lk_release t (lock_ s)) as (n & l' & He & Hl'); [apply HI|done|].
    edestruct (alone_call t n s th) as (s' & Ha & Ht'); [done| | |exact He|exact Hl'|].
    { intros s0. unfold test_step. rewrite Hat. reflexivity. }
    { destruct Hp as [Hp|Hp]; by rewrite Hp. }
    nearer Ha Ht'.
Qed.

(** A thread that has the lock gives it back. *)
Lemma retreat t s th :
  Inv s → testers s !! t = Some th → under_way th →
  ∃ s' th', alone t s s' ∧ testers s' !! t = Some th' ∧ under_way th' ∧ idle (lock_ s') t.
Proof.
  remember (measure th) as n eqn:Hn. revert s th Hn.
  induction (lt_wf n) as [n _ IH]. intros s th -> HI Ht Hu.
  destruct (decide (lk_phase (lock_ s) t = Outside)) as [Ho|Ho].
  { exists s, th. split_and!; try done; [apply alone_refl|by left]. }
  destruct (decide (lk_phase (lock_ s) t = Locking)) as [Ho'|Ho'].
  { exists s, th. split_and!; try done; [apply alone_refl|by right]. }
  pose proof (i_phase _ HI _ _ Ht) as Hp.
  destruct (turn t s th) as (s1 & th1 & Ha & Ht1 & Hu1 & Hlt); try done.
  - intros Hd. rewrite Hd in Hp. done.
  - intros Hd. rewrite Hd in Hp. by destruct Hp.
  - destruct (IH _ Hlt s1 th1) as (s2 & th2 & Ha2 & ?); [done|by eapply alone_Inv|done|done|].
    exists s2, th2. split; [by eapply alone_trans|done].
Qed.

(** When all are idle, a thread that is under way can end. *)
Lemma finish t s th :
  Inv s → testers s !! t = Some th → under_way th → (∀ u, u ≠ t → idle (lock_ s) u) →
  ∃ s' th', alone t s s' ∧ testers s' !! t = Some th' ∧ at_ th' = Done.
Proof.
  remember (measure th) as n eqn:Hn. revert s th Hn.
  induction (lt_wf n) as [n _ IH]. intros s th -> HI Ht Hu Hidle.
  destruct (decide (at_ th = Done)) as [Hd|Hd].
  { exists s, th. split; [apply alone_refl|done]. }
  destruct (turn t s th) as (s1 & th1 & Ha & Ht1 & Hu1 & Hlt); try done.
  - intros Hc u. destruct (decide (u = t)) as [->|]; [|by apply Hidle].
    pose proof (i_phase _ HI _ _ Ht) as Hp. by rewrite Hc in Hp.
  - destruct (IH _ Hlt s1 th1) as (s2 & th2 & Ha2 & ?); try done; [by eapply alone_Inv| |].
    + intros u Hne. unfold idle. rewrite (al_phase _ _ _ Ha) by done. by apply Hidle.
    + exists s2, th2. split; [by eapply alone_trans|done].
Qed.

(** Some steps of the testers lead from [s] to [s']. *)
Record quietly (s s' : state) : Prop := {
  qu_run : reachable step s s';
  qu_main : main_ s' = main_ s;
  qu_length : length (testers s') = length (testers s)
}.

Lemma quietly_Inv s s' : Inv s → quietly s s' → Inv s'.
Proof. intros HI [Hr _ _]. eapply reachable_invariant; [apply client_step|exact HI|exact Hr]. Qed.

Lemma quietly_alone t s s1 s2 : quietly s s1 → alone t s1 s2 → quietly s s2.
Proof.
  intros H1 H2. split.
  - eapply reachable_trans; [apply H1|apply H2].
  - by rewrite (al_main _ _ _ H2), (qu_main _ _ H1).
  - by rewrite (al_length _ _ _ H2), (qu_length _ _ H1).
Qed.

Definition all_under_way (s : state) : Prop := ∀ t th, testers s !! t = Some th → under_way th.

Lemma all_under_way_alone t s s' th' :
  all_under_way s → alone t s s' → testers s' !! t = Some th' → under_way th' → all_under_way s'.
Proof.
  intros Hs Ha Ht Hu u thu Hl. destruct (decide (u = t)) as [->|Hne]; [by simplify_eq|].
  rewrite (al_testers _ _ _ Ha) in Hl by done. by eapply Hs.
Qed.

Lemma settle s k :
  Inv s → all_under_way s → k ≤ length (testers s) →
  ∃ s', quietly s s' ∧ all_under_way s' ∧ ∀ t, t < k → idle (lock_ s') t.
Proof.
  intros HI Ha. induction k as [|k IH]; intros Hk.
  { exists s. split_and!; [split; [by exists []|done..]|done|lia]. }
  destruct IH as (s1 & Hq & Ha1 & Hid); [lia|].
  destruct (lookup_lt_is_Some_2 (testers s1) k) as [th Ht]; [rewrite (qu_length _ _ Hq); lia|].
  destruct (retreat k s1 th) as (s2 & th2 & Hal & Ht2 & Hu2 & Hk2); [by eapply quietly_Inv|done|by eapply Ha1|].
  exists s2. split_and!; [by eapply quietly_alone|by eapply all_under_way_alone|].
  intros t Ht'. destruct (decide (t = k)) as [->|]; [done|].
  unfold idle. rewrite (al_phase _ _ _ Hal) by done. apply Hid. lia.
Qed.

Lemma finish_all s k :
  Inv s → all_under_way s → (∀ t, idle (lock_ s) t) → k ≤ length (testers s) →
  ∃ s', quietly s s' ∧ all_under_way s' ∧ (∀ t, idle (lock_ s') t) ∧
        ∀ t th, t < k → testers s' !! t = Some th → at_ th = Done.
Proof.
  intros HI Ha Hidle. induction k as [|k IH]; intros Hk.
  { exists s. split_and!; [split; [by exists []|done..]|done|done|lia]. }
  destruct IH as (s1 & Hq & Ha1 & Hid & Hd); [lia|].
  destruct (lookup_lt_is_Some_2 (testers s1) k) as [th Ht]; [rewrite (qu_length _ _ Hq); lia|].
  destruct (finish k s1 th) as (s2 & th2 & Hal & Ht2 & Hd2); [by eapply quietly_Inv|done|by eapply Ha1|done|].
  assert (quietly s s2) as Hq2 by by eapply quietly_alone.
  exists s2. split_and!; [done| | |].
  - eapply all_under_way_alone; [done..|]. unfold under_way. by rewrite Hd2.
  - intros t. destruct (decide (t = k)) as [->|Hne].
    + left. pose proof (i_phase _ (quietly_Inv _ _ HI Hq2) _ _ Ht2) as Hp. by rewrite Hd2 in Hp.
    + unfold idle. rewrite (al_phase _ _ _ Hal) by done. apply Hid.
  - intros t th' Hlt Hl. destruct (decide (t = k)) as [->|]; [by simplify_eq|].
    rewrite (al_testers _ _ _ Hal) in Hl by done. apply (Hd t); [lia|done].
Qed.

(** From the middle of a round all the testers can be brought to their end, *)
Lemma round_can_end s i rs :
  Inv s → main_ s = Joining i rs →
  ∃ s', reachable step s s' ∧ Inv s' ∧ main_ s' = NewRound rs.
Proof.
  intros HI Hm. assert (all_under_way s) as Hu.
  { pose proof (i_main _ HI) as Hmain. unfold main_ok in Hmain. rewrite Hm in Hmain.
    destruct Hmain as (ds & _ & _ & _ & Ha). intros t th Ht. by apply (Ha _ _ Ht). }
  destruct (settle s _ HI Hu (le_n _)) as (s1 & Hq1 & Hu1 & Hid).
  pose proof (quietly_Inv _ _ HI Hq1) as HI1.
  destruct (finish_all s1 (length (testers s1)) HI1 Hu1) as (s2 & Hq2 & Hu2 & _ & Hd); [|done|].
  { intros t. destruct (decide (t < length (testers s))) as [Hlt|Hge]; [by apply Hid|].
    left. apply (i_away _ HI1). apply lookup_ge_None. rewrite (qu_length _ _ Hq1). lia. }
  pose proof (quietly_Inv _ _ HI1 Hq2) as HI2.
  assert (all_done s2) as Had.
  { intros t th Ht. apply (Hd t); [|done]. apply lookup_lt_Some in Ht. by rewrite (qu_length _ _ Hq2) in Ht. }
  assert (reachable step s s2) as Hr by (eapply reachable_trans; [apply Hq1|apply Hq2]).
  assert (main_ s2 = Joining i rs) as Hm2 by by rewrite (qu_main _ _ Hq2), (qu_main _ _ Hq1).
  clear - Hr HI2 Had Hm2 LockLaws0 incs_pos no_overflow.
  remember (length (testers s2) - i) as n eqn:Hn. revert s2 i Hr HI2 Had Hm2 Hn.
  induction n as [|n IH]; intros s2 i Hr HI2 Had Hm2 Hn;
    destruct (testers s2 !! i) as [th|] eqn:Ht; try (pose proof (lookup_lt_Some _ _ _ Ht); lia);
    try (apply lookup_ge_None in Ht; lia).
  - assert (step Main s2 =
      Some (set_main (NewRound rs) (note (Total (length (testers s2)) (counter_ s2)) s2))) as Hs.
    { cbn. unfold main_step. by rewrite Hm2, Ht. }
    eexists. split_and!; [eapply reachable_trans; [exact Hr|by eapply reachable_step]|by eapply client_step|done].
  - assert (step Main s2 = Some (set_main (Joining (S i) rs) (note (Requests (requests_ th)) s2))) as Hs.
    { cbn. unfold main_step. rewrite Hm2, Ht, decide_True by by eapply Had. done. }
    eapply (IH _ (S i)); [|by eapply client_step|done|done|cbn; lia].
    eapply reachable_trans; [exact Hr|]. by eapply reachable_step.
Qed.

(** and from its beginning they can be started. *)
Lemma round_can_start s i rs :
  Inv s → main_ s = Starting i rs →
  ∃ s', reachable step s s' ∧ Inv s' ∧ main_ s' = Joining 0 rs.
Proof.
  remember (length (testers s) - i) as n eqn:Hn. revert s i Hn.
  induction n as [|n IH]; intros s i Hn HI Hm.
  - assert (step Main s = Some (set_main (Joining 0 rs) s)) as Hs.
    { cbn. unfold main_step. rewrite Hm, decide_False by lia. done. }
    eexists. split_and!; [by eapply reachable_step|by eapply client_step|done].
  - assert (step Main s = Some (set_main (Starting (S i) rs) (set_tester i started s))) as Hs.
    { cbn. unfold main_step. rewrite Hm, decide_True by lia. done. }
    destruct (IH (set_main (Starting (S i) rs) (set_tester i started s)) (S i))
      as (s' & Hr & HI' & Hm'); [cbn; rewrite length_insert; lia|by eapply client_step|done|].
    exists s'. split_and!; [|done..]. eapply reachable_trans; [by eapply reachable_step|done].
Qed.

Lemma rounds_can_end rs : ∀ s,
  Inv s → main_ s = NewRound rs → ∃ s', reachable step s s' ∧ Inv s' ∧ main_ s' = Finished.
Proof.
  induction rs as [|n rs IH]; intros s HI Hm.
  - assert (step Main s = Some (set_main Finished s)) as Hs by (cbn; unfold main_step; by rewrite Hm).
    eexists. split_and!; [by eapply reachable_step|by eapply client_step|done].
  - assert (step Main s =
      Some (mkState (lock_ s) 0 (replicate n new_tester) (Starting 0 rs) (readings s))) as Hs.
    { cbn. unfold main_step. by rewrite Hm. }
    edestruct round_can_start as (s1 & Hr1 & HI1 & Hm1); [by eapply client_step|reflexivity|].
    destruct (round_can_end _ _ _ HI1 Hm1) as (s2 & Hr2 & HI2 & Hm2).
    destruct (IH _ HI2 Hm2) as (s3 & Hr3 & ?). exists s3. split; [|done].
    eapply reachable_trans; [by eapply reachable_step|].
    eapply reachable_trans; [exact Hr1|]. by eapply reachable_trans.
Qed.

Lemma can_end s : Inv s → ∃ s', reachable step s s' ∧ Inv s' ∧ main_ s' = Finished.
Proof.
  intros HI. destruct (main_ s) as [rs|i rs|i rs|] eqn:Hm.
  - by eapply rounds_can_end.
  - destruct (round_can_start _ _ _ HI Hm) as (s1 & Hr1 & HI1 & Hm1).
    destruct (round_can_end _ _ _ HI1 Hm1) as (s2 & Hr2 & HI2 & Hm2).
    destruct (rounds_can_end _ _ HI2 Hm2) as (s3 & Hr3 & ?). exists s3. split; [|done].
    eapply reachable_trans; [exact Hr1|]. by eapply reachable_trans.
  - destruct (round_can_end _ _ _ HI Hm) as (s2 & Hr2 & HI2 & Hm2).
    destruct (rounds_can_end _ _ HI2 Hm2) as (s3 & Hr3 & ?). exists s3. split; [|done].
    by eapply reachable_trans.
  - exists s. split; [by exists []|done].
Qed.

(** What the program has read is what it should have read so far. *)
Lemma readings_prefix s : Inv s → readings s `prefix_of` expected (rounds_ p).
Proof.
  intros HI. pose proof (i_main _ HI) as Hm. unfold main_ok in Hm. destruct (main_ s) as [rs|i rs|i rs|].
  - destruct Hm as (ds & -> & -> & _). rewrite expected_app. apply prefix_app_r. done.
  - destruct Hm as (ds & -> & -> & _). rewrite expected_app. apply prefix_app_r. done.
  - destruct Hm as (ds & -> & -> & Hi & _). rewrite expected_app. apply prefix_app.
    unfold expected, expected_round. cbn.
    replace (length (testers s)) with (i + (length (testers s) - i)) at 1 by lia.
    rewrite replicate_add, <- !app_assoc. by apply prefix_app_r.
  - by destruct Hm as [-> _].
Qed.
End client.

(** C25.  The programs that test and measure the locks lose no increment, whatever
    the lock: under every schedule, the requests and counters that the main
    program reads (in the benchmarks, would read) are those that are expected, up to
    the last one if it ends;
    and it can always end: no state it gets into is a deadlock. *)
Theorem lock_programs_exact {L : Lock} {HL : LockLaws L} p (s : state) :
  (0 ≤ incs p)%Z → Forall (λ n, Z.of_nat n * incs p < 2 ^ 31)%Z (rounds_ p) →
  reachable (step p) (init p) s →
  readings s `prefix_of` expected p (rounds_ p) ∧
  (main_ s = Finished → readings s = expected p (rounds_ p)) ∧
  ∃ s', reachable (step p) s s' ∧ main_ s' = Finished.
Proof.
  intros Hp Ho Hr. assert (Inv p s) as HI.
  { eapply reachable_invariant; [by apply client_step|by apply client_init|exact Hr]. }
  split_and!; [by apply (readings_prefix p)| |].
  - intros Hm. pose proof (i_main _ _ HI) as Hmain. unfold main_ok in Hmain. rewrite Hm in Hmain.
    apply Hmain.
  - destruct (can_end p Hp Ho s HI) as (s' & ? & _ & ?). eauto.
Qed.

(** The benchmark of the spinning lock, and that of the mutex, after some steps. *)
Lemma lock_programs_exact_witness :
  (∃ s, exec (step (L := spinlock) SpinLocksShortCritical) (replicate 4 Main)
      (init SpinLocksShortCritical) = Some s ∧
    ∃ s', reachable (step SpinLocksShortCritical) s s' ∧ main_ s' = Finished) ∧
  (∃ s', reachable (step (L := mutex) BlockingLocksLongCritical)
      (init BlockingLocksLongCritical) s' ∧ main_ s' = Finished).
Proof.
  split.
  - eexists. split; [reflexivity|].
    eapply (lock_programs_exact (L := spinlock) SpinLocksShortCritical).
    + done.
    + repeat constructor; cbn; lia.
    + by exists (replicate 4 Main).
  - eapply (lock_programs_exact (L := mutex) BlockingLocksLongCritical (init _)).
    + done.
    + repeat constructor; cbn; lia.
    + by exists [].
Defined.

(** ** The test of the queue lock *)

(** Thread [u] waits in [unlock()] for a successor that will never come. *)
Record stranded (u : nat) (l : SpinlockMCS.state) : Prop := {
  sr_waits : SpinlockMCS.pcs l u = SpinlockMCS.AwaitNext;
  sr_alone : SpinlockMCS.next (SpinlockMCS.nodes l u) = None;
  sr_tail : SpinlockMCS.tail_ l ≠ Some u;
  sr_free t : SpinlockMCS.pcs l t ≠ SpinlockMCS.Flag u ∧ SpinlockMCS.pcs l t ≠ SpinlockMCS.Link u
}.

(** Another thread leaves it so when it does not become its successor. *)
Lemma stranded_goto u t q l tl ns :
  stranded u l → t ≠ u → tl ≠ Some u → SpinlockMCS.next (ns u) = None →
  q ≠ SpinlockMCS.Flag u → q ≠ SpinlockMCS.Link u →
  stranded u (SpinlockMCS.mkState tl ns (upd t q (SpinlockMCS.pcs l))).
Proof.
  intros [Hw Ha Ht Hf] Hne Htl Hns Hq1 Hq2. split; cbn; [by rewrite upd_ne|done..|].
  intros v. upd_cases v t; [done|apply Hf].
Qed.

Lemma stranded_step u t l l' : stranded u l → SpinlockMCS.step t l = Some l' → stranded u l'.
Proof.
  intros Hu Hs. pose proof Hu as [Hw Ha Ht Hf]. unfold SpinlockMCS.step in Hs.
  destruct (decide (t = u)) as [->|Hne].
  { rewrite Hw in Hs. cbn in Hs. rewrite Ha in Hs. by simplify_eq. }
  assert (∀ n, SpinlockMCS.next (upd t n (SpinlockMCS.nodes l) u) = None) as Hother
    by (intros; by rewrite upd_ne).
  destruct (Hf t) as [Hf1 Hf2].
  destruct (SpinlockMCS.pcs l t) eqn:Hp; cbn in Hs;
    unfold SpinlockMCS.cas_tail, SpinlockMCS.goto, SpinlockMCS.set_next, SpinlockMCS.set_locked,
      SpinlockMCS.set_node in Hs; cbn in Hs; simplify_eq.
  - by apply stranded_goto.
  - by apply stranded_goto.
  - destruct (SpinlockMCS.tail_ l) as [q|] eqn:Hl;
      case_decide; cbn; apply stranded_goto; cbn; try done; congruence.
  - apply stranded_goto; try done. congruence.
  - apply stranded_goto; try done. rewrite upd_ne; [done|]. congruence.
  - case_match; [done|]. by apply stranded_goto.
  - by apply stranded_goto.
  - case_match; by apply stranded_goto.
  - case_decide; cbn; apply stranded_goto; cbn; try done; by case_decide.
  - case_match; [|done]. by apply stranded_goto.
  - destruct (SpinlockMCS.next _) as [q|]; cbn in Hs; simplify_eq. apply stranded_goto; try done.
    upd_cases u q; cbn; done.
Qed.

(** So the program never ends: the tester is never joined. *)
Record stuck (nodes : nat → SpinlockMCS.Node) (u : nat) (s : state (L := mcs nodes)) : Prop := {
  st_lock : stranded u (lock_ s);
  st_tester : ∃ th, testers s !! u = Some th ∧ at_ th = CallUnlock;
  st_main : ∃ i rs, main_ s = Joining i rs ∧ i ≤ u
}.

Lemma test_step_shape {L : Lock} p t th (s s' : state) :
  test_step p t th s = Some s' →
  main_ s' = main_ s ∧ (lock_ s' = lock_ s ∨ lk_step t (lock_ s) = Some (lock_ s')) ∧
  ∀ v, v ≠ t → testers s' !! v = testers s !! v.
Proof.
  intros Hs. unfold test_step in Hs. destruct (at_ th); try done;
    repeat match type of Hs with
    | context [mbind _ ?m] => destruct m eqn:?; cbn in Hs; [|done]
    end; repeat case_decide; simplify_eq; cbn; split_and!; auto;
    intros; by rewrite ?list_lookup_insert_ne.
Qed.

Lemma stuck_step p nodes u l s s' :
  stuck nodes u s → step (L := mcs nodes) p l s = Some s' → stuck nodes u s'.
Proof.
  intros [Hl (th & Ht & Hat) (i & rs & Hm & Hi)] Hs. destruct l as [|t]; cbn in Hs.
  - unfold main_step in Hs. rewrite Hm in Hs. destruct (testers s !! i) as [thi|] eqn:Hti.
    + case_decide as Hd; simplify_eq. split; [done|by exists th|]. exists (S i), rs. split; [done|].
      destruct (decide (i = u)) as [->|]; [|lia]. simplify_eq. congruence.
    + apply lookup_ge_None in Hti. apply lookup_lt_Some in Ht. lia.
  - destruct (testers s !! t) as [tht|] eqn:Htt; cbn in Hs; [|done].
    destruct (test_step_shape (L := mcs nodes) _ _ _ _ _ Hs) as (Hm' & Hl' & Ho).
    assert (stranded u (lock_ s')) as Hstr.
    { destruct Hl' as [->|Hl']; [done|]. by eapply stranded_step. }
    split; [done| |exists i, rs; by rewrite Hm'].
    destruct (decide (t = u)) as [->|Hne]; [|exists th; by rewrite Ho].
    simplify_eq. unfold test_step in Hs. rewrite Hat in Hs.
    destruct (lk_step u (lock_ s)) as [l1|] eqn:El; cbn in Hs; [|done].
    simplify_eq. pose proof (sr_waits _ _ (stranded_step _ _ _ _ Hl El)) as Hw.
    cbn. rewrite Hw. cbn. by exists th.
Qed.

(** Three testers of the test get through the schedule that defeats the lock, and
    two of them read the same counter. *)
Definition defeat : list label :=
  replicate 32 Main ++ map Thread
    ([0; 1; 2] ++ [0; 0; 0] ++ [1; 1] ++ [0; 0; 0; 0; 0] ++ [1] ++ [2; 2; 2] ++
     [1; 2; 1; 2] ++ [1; 1; 1]).

Definition defeated nodes : state (L := mcs nodes) :=
  default (init counters_MCS) (exec (step counters_MCS) defeat (init counters_MCS)).

Lemma defeat_succeeds nodes :
  succeeds (step (L := mcs nodes) counters_MCS) defeat (init counters_MCS) = true.
Proof. vm_compute. reflexivity. Qed.

Lemma defeat_run nodes :
  exec (step (L := mcs nodes) counters_MCS) defeat (init counters_MCS) = Some (defeated nodes).
Proof. exact (exec_default _ _ _ _ (defeat_succeeds nodes)). Qed.

Lemma defeated_stuck nodes : stuck nodes 1 (defeated nodes).
Proof.
  split.
  - split; [vm_compute; reflexivity..|vm_compute; discriminate|].
    intros [|[|[|t]]]; vm_compute; split; discriminate.
  - exists (mkTester CallUnlock 99 1). split; vm_compute; reflexivity.
  - exists 0, []. split; [vm_compute; reflexivity|lia].
Qed.

(** C26.  The test of the queue lock fails: its threads can get into a state in
    which they have made three increments but the counter is 2, and from which the
    program never ends, as one of them waits in [unlock()] for a successor that
    cannot come. *)
Theorem mcs_test_hangs nodes :
  let run := reachable (step (L := mcs nodes) counters_MCS) in
  ∃ s, run (init counters_MCS) s ∧
    counter_ s = 2%Z ∧ tally made (testers s) = 3 ∧
    ∀ s', run s s' → main_ s' ≠ Finished.
Proof.
  intros run. exists (defeated nodes).
  split_and!; [exists defeat; apply defeat_run|vm_compute; reflexivity|vm_compute; reflexivity|].
  intros s' Hr Hf. assert (stuck nodes 1 s') as [_ _ (i & rs & Hm & _)].
  { eapply reachable_invariant; [|apply defeated_stuck|exact Hr]. intros l s1 s2. apply stuck_step. }
  congruence.
Qed.

End LockTester.
