(* ===== verification/CacheThreads.v ===== *)
(** * Threads that use the file cache ([file_cache_test1.cpp], [file_cache_test2.cpp])

    The tests of the cache create files, pin and unpin them from several threads,
    and delete them.  Here are the fixture, and the threads as machines over
    [FileCache.v] whose steps are its critical sections.  Threads that neither
    insert nor evict leave a cache that can be computed without running them. *)

From stdpp Require Import strings.
From S2P Require Import Prelude.
From S2P Require Import Buffer.
From S2P Require Import BufferIter.
From S2P Require Import FileCache.

(** ** The files *)

Module FileFixture.

(** [vector<int> fds_], [vector<string> names_], and the directory. *)
Record FileFixture := mkFixture {
  files_ : list string;
  fds_ : list Z;
  names_ : list string;
  disk : gmap string bytes
}.

Definition make (files : list string) : FileFixture := mkFixture files [] [] ∅.

(** [atoi] of a string of digits. *)
Fixpoint atoi_loop (s : bytes) (n : nat) : nat :=
  match s with
  | [] => n
  | c :: s => if decide (48 ≤ nat_of_ascii c ≤ 57) then atoi_loop s (n * 10 + (nat_of_ascii c - 48)) else n
  end.
Definition atoi (s : string) : nat := atoi_loop (b_ s) 0.

(** [createFile(name, size, c)]; the results of [creat] and [write] are [fd] and
    [n].  [None]: [exit(1)]. *)
Definition createFile (name : string) (size : nat) (c : ascii) (fd n : Z) (f : FileFixture) :
    option FileFixture :=
  if decide (fd < 0)%Z then None
  else if decide (n < 0)%Z then None
  else Some (mkFixture (files_ f) (fds_ f ++ [fd]) (names_ f ++ [name])
               (<[name := take (Z.to_nat n) (replicate size c)]> (disk f))).

(** The loop of [startUp], with the results of the system calls for each file;
    reading past the end of [files_] is [None]. *)
Fixpoint startUp_loop (files : list string) (calls : list (Z * Z)) (f : FileFixture) : option FileFixture :=
  match files, calls with
  | name :: size :: c :: files, (fd, n) :: calls =>
    x ← head (b_ c);
    f ← createFile name (atoi size) x fd n f;
    startUp_loop files calls f
  | [], _ => Some f
  | _, _ => None
  end.

Definition startUp (calls : list (Z * Z)) (f : FileFixture) : option FileFixture :=
  startUp_loop (files_ f) calls f.

(** [tearDown()]: what is left of the directory, and the descriptors closed. *)
Definition tearDown (f : FileFixture) : gmap string bytes * list Z :=
  (foldr delete (disk f) (take (length (fds_ f)) (names_ f)), fds_ f).

(** The files of both programs. *)
Definition files : list string :=
  ["a.html"; "2500"; "x";
   "b.html"; "2500"; "y";
   "c.html"; "5000"; "z";
   "1.html"; "2048"; "1";
   "2.html"; "2048"; "2";
   "3.html"; "2048"; "3";
   "4.html"; "2048"; "4";
   "5.html"; "2048"; "5"]%string.

(** When every call succeeds and writes the whole file. *)
Definition all_written : list (Z * Z) :=
  zip [3; 4; 5; 6; 7; 8; 9; 10]%Z [2500; 2500; 5000; 2048; 2048; 2048; 2048; 2048]%Z.

Definition started : FileFixture := default (make files) (startUp all_written (make files)).

(** What reading a file gives, block by block. *)
Fixpoint reads (fuel : nat) (d : bytes) : list FileCache.read_result :=
  match fuel, d with
  | S fuel, _ :: _ => FileCache.ReadOk (take Buffer.BlockSize d) :: reads fuel (drop Buffer.BlockSize d)
  | _, _ => []
  end.

Definition file_of (disk : gmap string bytes) (name : string) : FileCache.file :=
  match disk !! name with
  | None => FileCache.NoFile
  | Some d => FileCache.File (Z.of_nat (length d)) (reads (length d) d)
  end.

(** *** What the fixture leaves *)

Definition tidy (f : FileFixture) : Prop :=
  length (fds_ f) = length (names_ f) ∧ ∀ x, x ∉ names_ f → disk f !! x = None.

Lemma createFile_tidy name size c fd n f f' : tidy f → createFile name size c fd n f = Some f' → tidy f'.
Proof.
  intros [Hl Hd] E. unfold createFile in E. do 2 (case_decide; [done|]). injection E as <-. split; cbn.
  - by rewrite !length_app, Hl.
  - intros x Hx. rewrite lookup_insert_ne by (intros <-; apply Hx; set_solver). apply Hd. set_solver.
Qed.

Lemma startUp_tidy calls : ∀ l f f', tidy f → startUp_loop l calls f = Some f' → tidy f'.
Proof.
  induction calls as [|[fd n] calls IH]; intros l f f' Hf E.
  - destruct l as [|? [|? [|? ?]]]; cbn in E; by simplify_eq.
  - destruct l as [|name [|size [|c l]]]; cbn in E; try done; [by simplify_eq|].
    destruct (head (b_ c)) as [x|]; cbn in E; [|done].
    destruct (createFile name (atoi size) x fd n f) as [f1|] eqn:E1; cbn in E; [|done].
    eapply IH; [by eapply createFile_tidy|done].
Qed.

Lemma foldr_delete_lookup {A} (l : list string) (m : gmap string A) x :
  foldr delete m l !! x = if decide (x ∈ l) then None else m !! x.
Proof.
  induction l as [|y l IH]; cbn; [done|]. destruct (decide (x = y)) as [->|Hne].
  - by rewrite lookup_delete_eq, decide_True by set_solver.
  - rewrite lookup_delete_ne, IH by done. repeat case_decide; set_solver.
Qed.

(** [tearDown] closes every descriptor and removes every file that [startUp] made. *)
Lemma fixture_cleans files calls f :
  startUp calls (make files) = Some f → tearDown f = (∅, fds_ f).
Proof.
  intros E. apply startUp_tidy in E as [Hl Hd]; [|by split]. unfold tearDown. f_equal.
  rewrite Hl, firstn_all. apply map_eq. intros x. rewrite foldr_delete_lookup, lookup_empty.
  case_decide; [done|by apply Hd].
Qed.

End FileFixture.

(** ** Threads that use a cache *)

Module CacheThreads.
Import Buffer.Buffer FileCache.FileCache.

(** A thread pins a file, unpins a handle, or does one turn of
    [FileTester::test]: pin the file, look for a byte other than [c], unpin. *)
Inductive command :=
  | DoPin (f : string)
  | DoUnpin (h : option nat)
  | DoRequest (f : string) (c : ascii).

(** Between commands; in [pin] after the look-up, and before the last line; in a
    turn of [test] with the buffer and before [unpin]. *)
Inductive pc :=
  | Next
  | Looked (f : string) (k : option ascii) (it : option nat)
  | Got (k : option ascii) (h : option nat)
  | Reading (a : nat) (c : ascii)
  | Unpinning (a : nat).

Record thread := mkThread { at_ : pc; todo : list command; in_error_ : bool }.

(** [fatal_message] is [MCP_BASE_has_fatal_message]: in the tests the message does
    not end the process. *)
Record state := mkState { cache : FileCache; threads : list thread; fatal_message : bool }.

Definition spawn (l : list command) : thread := mkThread Next l false.

(** Whether [unpin(h)] logs a fatal message: the file has been evicted, or it has
    been unpinned. *)
Definition fatal (h : option nat) (s : FileCache) : bool :=
  match h ≫= λ h, nodes s !! h with
  | None => false
  | Some temp =>
    match cache_map_ s !! file_name temp with
    | None => true
    | Some a =>
      match nodes s !! a with
      | None => false
      | Some n => bool_decide (¬ (count_unpin n > 0)%Z)
      end
    end
  end.

(** [unpin] in a process that goes on after a fatal message. *)
Definition unpin_on (h : option nat) (s : FileCache) : option (bool * FileCache) :=
  if locked s then None
  else if fatal h s then Some (true, s)
  else s ← unpin h s; Some (false, s).

Section machine.
Context `{Uninit}.

(** The loop over the buffer in [FileTester::test]: [true] when a byte is not [c]. *)
Fixpoint other_char (fuel : nat) (c : ascii) (b : Buffer) (it : BufferIter.Iter.Iterator) : option bool :=
  match fuel with
  | 0 => None
  | S fuel =>
    if BufferIter.Iter.eob b it then Some false
    else
      x ← BufferIter.Iter.getChar b it;
      if decide (x = c) then it ← BufferIter.Iter.next b it; other_char fuel c b it
      else Some true
  end.

Definition check_buffer (a : nat) (c : ascii) (s : FileCache) : option bool :=
  n ← nodes s !! a;
  it ← BufferIter.Iter.begin (buf n);
  other_char (S (BufferIter.Iter.bytes_total_ it)) c (buf n) it.

Context (disk : gmap string bytes).

(** A miss: the file is read and goes into the cache, or not; after an error of
    [read] the call returns at once. *)
Definition miss (f : string) (k : option ascii) (s : FileCache) : option (pc * FileCache) :=
  match FileFixture.file_of disk f with
  | NoFile => Some (Got k None, s)
  | File st_size reads =>
    l ← load st_size reads;
    match l with
    | LoadError => Some (Next, s)
    | Loaded b => '(h, _, s) ← pin_insert f b st_size s; Some (Got k h, s)
    end
  end.

Definition put (t : nat) (th : thread) (c : FileCache) (s : state) : state :=
  mkState c (<[t := th]> (threads s)) (fatal_message s).

Definition fatal_if (b : bool) (s : state) : state :=
  mkState (cache s) (threads s) (b || fatal_message s).

(** The next step of the thread [t]. *)
Definition step (t : nat) (s : state) : option state :=
  th ← threads s !! t;
  let to (p : pc) := mkThread p (todo th) (in_error_ th) in
  match at_ th with
  | Next =>
    match todo th with
    | [] => None
    | DoPin f :: l =>
      it ← pin_find f (cache s);
      Some (put t (mkThread (Looked f None it) l (in_error_ th)) (cache s) s)
    | DoRequest f c :: l =>
      it ← pin_find f (cache s);
      Some (put t (mkThread (Looked f (Some c) it) l (in_error_ th)) (cache s) s)
    | DoUnpin h :: l =>
      '(bad, c) ← unpin_on h (cache s);
      Some (fatal_if bad (put t (mkThread Next l (in_error_ th)) c s))
    end
  | Looked f k (Some a) => c ← pin_hit a (cache s); Some (put t (to (Got k (Some a))) c s)
  | Looked f k None => '(p, c) ← miss f k (cache s); Some (put t (to p) c s)
  | Got k h =>
    let p := match k, h with Some c, Some a => Reading a c | _, _ => Next end in
    Some (put t (to p) (pin_count (cache s)) s)
  | Reading a c =>
    bad ← check_buffer a c (cache s);
    Some (put t (mkThread (Unpinning a) (todo th) (bad || in_error_ th)) (cache s) s)
  | Unpinning a =>
    '(bad, c) ← unpin_on (Some a) (cache s);
    Some (fatal_if bad (put t (to Next) c s))
  end.

Definition start (c : FileCache) (ls : list (list command)) : state := mkState c (map spawn ls) false.

Definition idle (th : thread) : Prop := at_ th = Next ∧ todo th = [].
Definition finished (s : state) : Prop := ∀ t th, threads s !! t = Some th → idle th.

(** ** The steps that are left *)

Definition steps_at (p : pc) : nat :=
  match p with Next => 0 | Looked _ _ _ => 4 | Got _ _ => 3 | Reading _ _ => 2 | Unpinning _ => 1 end.

(** A measure of a thread: of where it is and of what it has to do. *)
Definition pending (wp : pc → nat) (wc : command → nat) (th : thread) : nat := wp (at_ th) + tally wc (todo th).

Definition left_ (th : thread) : nat := pending steps_at (λ _, 5) th.
Definition work (s : state) : nat := tally left_ (threads s).

Lemma put_moves (f : thread → nat) t th th' (ths : list thread) :
  ths !! t = Some th → tally f (<[t := th']> ths) + f th = tally f ths + f th'.
Proof. apply tally_insert. Qed.

(** What a step does to the thread: it starts a command or goes on with one. *)
Definition moved (th th' : thread) : Prop :=
  (∃ cmd, at_ th = Next ∧ todo th = cmd :: todo th' ∧ steps_at (at_ th') < 5) ∨
  todo th' = todo th ∧ steps_at (at_ th') < steps_at (at_ th).

Ltac run_step Hs :=
  repeat first
    [ progress cbn [mbind option_bind] in Hs
    | match type of Hs with context [mbind _ ?m] =>
        let x := fresh "x" in let E := fresh "E" in destruct m as [x|] eqn:E; [repeat match type of x with prod _ _ => destruct x as [x ?] end|discriminate Hs] end ].

Lemma step_moves t s s' : step t s = Some s' → ∃ th th',
  threads s !! t = Some th ∧ threads s' = <[t := th']> (threads s) ∧ moved th th'.
Proof.
  unfold step. intros Hs. destruct (threads s !! t) as [th|] eqn:Ht; cbn in Hs; [|done].
  destruct (at_ th) as [|f k [a|]|k h|a c|a] eqn:Hp; [destruct (todo th) as [|[f|h|f c] l] eqn:Hl; [done|..]|..];
    run_step Hs; injection Hs as <-; exists th; eexists; (split; [done|]); (split; [done|]); unfold moved; cbn;
    rewrite ?Hp, ?Hl; cbn; try (left; eexists; split_and!; eauto; lia); right; (split; [done|]); cbn; try lia.
  - unfold miss in E. destruct (FileFixture.file_of disk f) as [|sz rs]; [by injection E as <- <-; cbn; lia|].
    destruct (load sz rs) as [[|b]|]; cbn in E; [injection E as <- <-; cbn; lia| |done].
    run_step E. injection E as <- <-. cbn. lia.
  - destruct k, h; cbn; lia.
Qed.

Lemma step_work t s s' : step t s = Some s' → work s' < work s.
Proof.
  intros Hs. destruct (step_moves t s s' Hs) as (th & th' & Ht & E & Hm). unfold work. rewrite E.
  pose proof (tally_insert left_ _ _ _ th' Ht). unfold left_, pending in *.
  destruct Hm as [(cmd & Ha & Ht' & Hlt)|[Ht' Hlt]]; [rewrite Ha, Ht' in *|rewrite Ht' in *]; cbn in *; lia.
Qed.

(** Every run is finite. *)
Lemma exec_work sched : ∀ s s', exec step sched s = Some s' → length sched + work s' ≤ work s.
Proof.
  induction sched as [|t sched IH]; intros s s' He; cbn in He; [simplify_eq; cbn; lia|].
  destruct (step t s) as [s1|] eqn:E; cbn in He; [|done]. apply step_work in E. apply IH in He. cbn. lia.
Qed.

(** ** Threads whose calls neither insert nor evict

    Their calls find the file in the cache, find no room for it, or unpin one of
    the pins taken before. *)

Definition pin_cmd (cmd : command) : nat := match cmd with DoUnpin _ => 0 | _ => 1 end.
Definition pin_at (p : pc) : nat := match p with Looked _ _ _ | Got _ _ => 1 | _ => 0 end.

Definition hit_cmd (c : FileCache) (cmd : command) : nat :=
  match cmd with
  | DoPin f => match cache_map_ c !! f with Some _ => 1 | None => 0 end
  | _ => 0
  end.
Definition hit_at (p : pc) : nat := match p with Looked _ _ (Some _) => 1 | _ => 0 end.

Definition fail_cmd (c : FileCache) (cmd : command) : nat :=
  match cmd with
  | DoPin f => match cache_map_ c !! f with Some _ => 0 | None => 1 end
  | _ => 0
  end.
Definition fail_at (p : pc) : nat := match p with Looked _ _ None => 1 | _ => 0 end.

Definition pin_of_cmd (c : FileCache) (a : nat) (cmd : command) : nat :=
  match cmd with
  | DoPin f => if decide (cache_map_ c !! f = Some a) then 1 else 0
  | _ => 0
  end.
Definition pin_of_at (a : nat) (p : pc) : nat :=
  match p with Looked _ _ (Some b) => if decide (b = a) then 1 else 0 | _ => 0 end.

Definition unpin_of_cmd (a : nat) (cmd : command) : nat :=
  match cmd with DoUnpin (Some b) => if decide (b = a) then 1 else 0 | _ => 0 end.

Definition bytes_cmd (c : FileCache) (cmd : command) : nat :=
  match cmd with
  | DoUnpin (Some a) => default 0 (nodes c !! a ≫= λ n, byteCount (buf n))
  | _ => 0
  end.

Definition nowhere (p : pc) : nat := 0.

(** The cache that such threads leave when they have finished. *)
Definition count_later (c : FileCache) (ths : list thread) (a : nat) (n : Node) : Node :=
  mkNode (file_name n) (buf n)
    (count_unpin n + Z.of_nat (tally (pending (pin_of_at a) (pin_of_cmd c a)) ths)
     - Z.of_nat (tally (pending nowhere (unpin_of_cmd a)) ths)).

Definition outcome (c : FileCache) (ths : list thread) : FileCache :=
  mkCache (imap (count_later c ths) (nodes c)) (cache_map_ c) (PinnedFiles_ c) (CacheSize_ c) (locked c)
    (pins_total_ c + Z.of_nat (tally (pending pin_at pin_cmd) ths))
    (hits_total_ c + Z.of_nat (tally (pending hit_at (hit_cmd c)) ths))
    (failed_total_ c + Z.of_nat (tally (pending fail_at (fail_cmd c)) ths))
    (bytes_used_ c)
    (bytes_unpinned_files_ c + Z.of_nat (tally (pending nowhere (bytes_cmd c)) ths)).

(** A file that cannot get room while at most [top] bytes are unpinned. *)
Definition no_room (c : FileCache) (top : Z) (f : string) : bool :=
  match FileFixture.file_of disk f with
  | NoFile => false
  | File sz reads =>
    match load sz reads with
    | Some (Loaded _) => bool_decide (maxSize c - bytesUsed c + top < sz)%Z
    | _ => false
    end
  end.

Definition ok_pin (c : FileCache) (top : Z) (f : string) (it : option nat) : bool :=
  match it with Some a => bool_decide (is_Some (nodes c !! a)) | None => no_room c top f end.

Definition ok_cmd (c : FileCache) (top : Z) (cmd : command) : bool :=
  match cmd with
  | DoPin f => ok_pin c top f (cache_map_ c !! f)
  | DoUnpin (Some a) =>
    match nodes c !! a with
    | Some n => bool_decide (cache_map_ c !! file_name n = Some a) && bool_decide (is_Some (byteCount (buf n)))
    | None => false
    end
  | _ => false
  end.

Definition ok_at (c : FileCache) (top : Z) (p : pc) : bool :=
  match p with
  | Next | Got None _ => true
  | Looked f None it => ok_pin c top f it
  | _ => false
  end.

Definition ok_thread (c : FileCache) (top : Z) (th : thread) : bool :=
  ok_at c top (at_ th) && forallb (ok_cmd c top) (todo th).

Record Steady (top : Z) (c : FileCache) (ths : list thread) : Prop := {
  st_lock : locked c = false;
  st_top : (bytes_unpinned_files_ c + Z.of_nat (tally (pending nowhere (bytes_cmd c)) ths) = top)%Z;
  st_bytes : (0 ≤ bytes_unpinned_files_ c)%Z;
  st_ok : ∀ t th, ths !! t = Some th → ok_thread c top th = true;
  st_pins : ∀ a n, nodes c !! a = Some n →
    (Z.of_nat (tally (pending nowhere (unpin_of_cmd a)) ths) ≤ count_unpin n)%Z
}.

(** Two caches that differ in counters only. *)
Record same_files (c c' : FileCache) : Prop := {
  sf_nodes : ∀ a, (λ n, (file_name n, buf n)) <$> nodes c' !! a = (λ n, (file_name n, buf n)) <$> nodes c !! a;
  sf_map : cache_map_ c' = cache_map_ c;
  sf_list : PinnedFiles_ c' = PinnedFiles_ c;
  sf_size : CacheSize_ c' = CacheSize_ c;
  sf_lock : locked c' = locked c;
  sf_used : bytes_used_ c' = bytes_used_ c
}.

Lemma same_files_counts p h f c : same_files c (set_counts p h f c).
Proof. by split. Qed.

Lemma same_files_node c c' a : same_files c c' →
  match nodes c !! a, nodes c' !! a with
  | Some n, Some n' => file_name n' = file_name n ∧ buf n' = buf n
  | None, None => True
  | _, _ => False
  end.
Proof.
  intros Hs. pose proof (sf_nodes _ _ Hs a) as E.
  destruct (nodes c !! a), (nodes c' !! a); cbn in E; [by injection E|done..].
Qed.

Lemma ok_cmd_same c c' top cmd : same_files c c' → ok_cmd c' top cmd = ok_cmd c top cmd.
Proof.
  intros Hs. pose proof Hs as [_ Em _ Esz _ Eu].
  destruct cmd as [f|[a|]|]; cbn; try done.
  - rewrite Em. unfold ok_pin, no_room, maxSize, bytesUsed. rewrite Esz, Eu.
    destruct (cache_map_ c !! f) as [a|]; [|done]. apply bool_decide_ext.
    pose proof (same_files_node c c' a Hs). by destruct (nodes c !! a), (nodes c' !! a).
  - pose proof (same_files_node c c' a Hs) as Ha. rewrite Em.
    destruct (nodes c !! a), (nodes c' !! a); try done. by destruct Ha as [-> ->].
Qed.

Lemma ok_at_same c c' top p : same_files c c' → ok_at c' top p = ok_at c top p.
Proof.
  intros Hs. destruct p as [|f [k|] it|[k|] h|a k|a]; try done. cbn. unfold ok_pin.
  destruct it as [a|].
  - apply bool_decide_ext. pose proof (same_files_node c c' a Hs). by destruct (nodes c !! a), (nodes c' !! a).
  - destruct Hs as [_ _ _ Esz _ Eu]. unfold no_room, maxSize, bytesUsed. by rewrite Esz, Eu.
Qed.

Lemma ok_thread_same c c' top th : same_files c c' → ok_thread c' top th = ok_thread c top th.
Proof.
  intros Hs. unfold ok_thread. rewrite (ok_at_same _ _ _ _ Hs). f_equal.
  induction (todo th) as [|cmd l IH]; [done|]. cbn. by rewrite (ok_cmd_same _ _ _ _ Hs), IH.
Qed.

Lemma tally_ext {A} (f g : A → nat) l : (∀ x, f x = g x) → tally f l = tally g l.
Proof. intros E. induction l; cbn; congruence. Qed.

Lemma pending_ext wp wc wc' th : (∀ cmd, wc cmd = wc' cmd) → pending wp wc th = pending wp wc' th.
Proof. intros E. unfold pending. f_equal. by apply tally_ext. Qed.

Lemma bytes_cmd_same c c' cmd : same_files c c' → bytes_cmd c' cmd = bytes_cmd c cmd.
Proof.
  intros Hs. destruct cmd as [f|[a|]|]; cbn; try done. pose proof (same_files_node c c' a Hs) as Ha.
  destruct (nodes c !! a), (nodes c' !! a); cbn; try done. by destruct Ha as [_ ->].
Qed.

(** A step that moves what is pending to the counters. *)
Record Balanced (c c' : FileCache) (th th' : thread) : Prop := {
  ba_files : same_files c c';
  ba_count : ∀ a n n', nodes c !! a = Some n → nodes c' !! a = Some n' →
    (count_unpin n' + Z.of_nat (pending (pin_of_at a) (pin_of_cmd c a) th')
       - Z.of_nat (pending nowhere (unpin_of_cmd a) th') =
     count_unpin n + Z.of_nat (pending (pin_of_at a) (pin_of_cmd c a) th)
       - Z.of_nat (pending nowhere (unpin_of_cmd a) th))%Z ∧
    (count_unpin n - Z.of_nat (pending nowhere (unpin_of_cmd a) th) ≤
     count_unpin n' - Z.of_nat (pending nowhere (unpin_of_cmd a) th'))%Z;
  ba_pins : (pins_total_ c' + Z.of_nat (pending pin_at pin_cmd th') =
             pins_total_ c + Z.of_nat (pending pin_at pin_cmd th))%Z;
  ba_hits : (hits_total_ c' + Z.of_nat (pending hit_at (hit_cmd c) th') =
             hits_total_ c + Z.of_nat (pending hit_at (hit_cmd c) th))%Z;
  ba_failed : (failed_total_ c' + Z.of_nat (pending fail_at (fail_cmd c) th') =
               failed_total_ c + Z.of_nat (pending fail_at (fail_cmd c) th))%Z;
  ba_unpinned : (bytes_unpinned_files_ c' + Z.of_nat (pending nowhere (bytes_cmd c) th') =
                 bytes_unpinned_files_ c + Z.of_nat (pending nowhere (bytes_cmd c) th))%Z;
  ba_grow : (bytes_unpinned_files_ c ≤ bytes_unpinned_files_ c')%Z
}.

Section balanced.
Context (c c' : FileCache) (ths : list thread) (t : nat) (th th' : thread).
Context (Ht : ths !! t = Some th) (Hb : Balanced c c' th th').

Lemma balanced_tally (f g : thread → nat) :
  (∀ x, g x = f x) → tally g (<[t := th']> ths) + f th = tally f ths + f th'.
Proof. intros E. rewrite (tally_ext g f) by done. by apply tally_insert. Qed.

Lemma bytes_balanced x :
  pending nowhere (bytes_cmd c') x = pending nowhere (bytes_cmd c) x.
Proof. apply pending_ext. intros cmd. apply bytes_cmd_same, Hb. Qed.

Lemma outcome_balanced : outcome c' (<[t := th']> ths) = outcome c ths.
Proof using Ht Hb.
  destruct Hb as [Hf Hc H1 H2 H3 H4 _]. pose proof Hf as [_ Em El Es Elk Eu]. unfold outcome.
  assert (∀ wp f g, (∀ cmd, g cmd = f cmd) → tally (pending wp g) (<[t := th']> ths) + pending wp f th =
            tally (pending wp f) ths + pending wp f th') as Hw.
  { intros wp f g E. apply balanced_tally. intros x. by apply pending_ext. }
  pose proof (Hw pin_at pin_cmd pin_cmd (λ _, eq_refl)).
  pose proof (Hw hit_at (hit_cmd c) (hit_cmd c') ltac:(intros []; cbn; by rewrite ?Em)).
  pose proof (Hw fail_at (fail_cmd c) (fail_cmd c') ltac:(intros []; cbn; by rewrite ?Em)).
  pose proof (Hw nowhere (bytes_cmd c) (bytes_cmd c') (λ cmd, bytes_cmd_same _ _ cmd Hf)).
  f_equal; try done; try lia. apply list_eq. intros a. rewrite !list_lookup_imap.
  pose proof (same_files_node c c' a Hf) as Ha.
  destruct (nodes c !! a) as [n|] eqn:En, (nodes c' !! a) as [n'|] eqn:En'; try done. cbn.
  destruct Ha as [Ef Eb]. destruct (Hc a n n' En En') as [Hca _]. unfold count_later. rewrite Ef, Eb.
  pose proof (Hw (pin_of_at a) (pin_of_cmd c a) (pin_of_cmd c' a) ltac:(intros []; cbn; by rewrite ?Em)).
  pose proof (Hw nowhere (unpin_of_cmd a) (unpin_of_cmd a) (λ _, eq_refl)).
  do 2 f_equal. lia.
Qed.

Lemma Steady_balanced top :
  Steady top c ths → ok_thread c top th' = true → Steady top c' (<[t := th']> ths).
Proof using Ht Hb.
  intros [Hl Htop Hb0 Hok Hp] Hok'. pose proof Hb as [Hf Hc _ _ _ H4 Hg].
  pose proof (balanced_tally (pending nowhere (bytes_cmd c)) (pending nowhere (bytes_cmd c')) bytes_balanced).
  split.
  - by rewrite (sf_lock _ _ Hf).
  - lia.
  - lia.
  - intros u x Hu. rewrite (ok_thread_same _ _ _ _ Hf). apply list_lookup_insert_Some in Hu.
    destruct Hu as [(-> & -> & _)|[_ Hu]]; [done|by eapply Hok].
  - intros a n' Hn'. pose proof (same_files_node c c' a Hf) as Ha. rewrite Hn' in Ha.
    destruct (nodes c !! a) as [n|] eqn:Hn; [|done]. destruct (Hc a n n' Hn Hn') as [_ Hge].
    specialize (Hp a n Hn).
    pose proof (tally_insert (pending nowhere (unpin_of_cmd a)) ths t th th' Ht). lia.
Qed.
End balanced.

Lemma recount_lookup (ns : list Node) a n d : ns !! a = Some n →
  let ns' := <[a := mkNode (file_name n) (buf n) (count_unpin n + d)]> ns in
  ∀ b m', ns' !! b = Some m' → ∃ m, ns !! b = Some m ∧ file_name m' = file_name m ∧ buf m' = buf m ∧
    count_unpin m' = (count_unpin m + if decide (a = b) then d else 0)%Z.
Proof.
  intros Hn ns' b m' Hb. apply list_lookup_insert_Some in Hb. destruct Hb as [(-> & <- & _)|[Hne Hb]].
  - exists n. rewrite decide_True by done. done.
  - exists m'. rewrite decide_False by done. rewrite Z.add_0_r. done.
Qed.

Lemma same_files_recount c c' a n d : nodes c !! a = Some n →
  nodes c' = <[a := mkNode (file_name n) (buf n) (count_unpin n + d)]> (nodes c) →
  cache_map_ c' = cache_map_ c → PinnedFiles_ c' = PinnedFiles_ c → CacheSize_ c' = CacheSize_ c →
  locked c' = locked c → bytes_used_ c' = bytes_used_ c → same_files c c'.
Proof.
  intros Hn En. split; try done. intros b. rewrite En.
  destruct (decide (a = b)) as [->|Hne]; [|by rewrite list_lookup_insert_ne].
  rewrite list_lookup_insert_eq by (by eapply lookup_lt_Some). by rewrite Hn.
Qed.

(** A step that does not change the cache. *)
Lemma Balanced_still c th th' :
  (∀ a, pending (pin_of_at a) (pin_of_cmd c a) th' = pending (pin_of_at a) (pin_of_cmd c a) th ∧
        pending nowhere (unpin_of_cmd a) th' = pending nowhere (unpin_of_cmd a) th) →
  pending pin_at pin_cmd th' = pending pin_at pin_cmd th →
  pending hit_at (hit_cmd c) th' = pending hit_at (hit_cmd c) th →
  pending fail_at (fail_cmd c) th' = pending fail_at (fail_cmd c) th →
  pending nowhere (bytes_cmd c) th' = pending nowhere (bytes_cmd c) th → Balanced c c th th'.
Proof.
  intros Ha H1 H2 H3 H4. split; rewrite ?H1, ?H2, ?H3, ?H4; try done.
  intros a n n' Hn Hn'. destruct (Ha a) as [-> ->].
  rewrite Hn in Hn'. injection Hn' as <-. lia.
Qed.

(** A step that changes counters of the cache. *)
Lemma Balanced_counts c th th' (p h f : nat) :
  (∀ a, pending (pin_of_at a) (pin_of_cmd c a) th' = pending (pin_of_at a) (pin_of_cmd c a) th ∧
        pending nowhere (unpin_of_cmd a) th' = pending nowhere (unpin_of_cmd a) th) →
  p + pending pin_at pin_cmd th' = pending pin_at pin_cmd th →
  h + pending hit_at (hit_cmd c) th' = pending hit_at (hit_cmd c) th →
  f + pending fail_at (fail_cmd c) th' = pending fail_at (fail_cmd c) th →
  pending nowhere (bytes_cmd c) th' = pending nowhere (bytes_cmd c) th →
  Balanced c (set_counts (Z.of_nat p) (Z.of_nat h) (Z.of_nat f) c) th th'.
Proof.
  intros Ha H1 H2 H3 H4. split; try (by split);
    cbn [pins_total_ hits_total_ failed_total_ bytes_unpinned_files_ nodes set_counts]; try lia. intros a n n' Hn Hn'. destruct (Ha a) as [-> ->].
  rewrite Hn in Hn'. injection Hn' as <-. lia.
Qed.

(** [unpin] of a pinned file that is still in the cache. *)
Lemma unpin_on_again c a n bc :
  locked c = false → nodes c !! a = Some n → cache_map_ c !! file_name n = Some a →
  byteCount (buf n) = Some bc → (0 < count_unpin n)%Z →
  unpin_on (Some a) c = Some (false,
    mkCache (<[a := mkNode (file_name n) (buf n) (count_unpin n + -1)]> (nodes c)) (cache_map_ c)
      (PinnedFiles_ c) (CacheSize_ c) (locked c) (pins_total_ c) (hits_total_ c) (failed_total_ c)
      (bytes_used_ c) (bytes_unpinned_files_ c + Z.of_nat bc)).
Proof.
  intros Hlk Hn Hm Hbc Hp. unfold unpin_on, fatal, unpin. rewrite Hlk. cbn. rewrite Hn. cbn. rewrite Hm. cbn.
  rewrite Hn. cbn. rewrite bool_decide_false, decide_True by lia. by rewrite Hbc.
Qed.

Section steady.
Context (top : Z) (c : FileCache) (ths : list thread) (t : nat) (th : thread).
Context (Hs : Steady top c ths) (Ht : ths !! t = Some th).

Definition goes (s : state) : Prop :=
  ∃ c' th', step t s = Some (put t th' c' s) ∧ Balanced c c' th th' ∧ ok_thread c top th' = true.

Lemma thread_ok : ok_at c top (at_ th) = true ∧ forallb (ok_cmd c top) (todo th) = true.
Proof using Hs Ht. apply andb_prop. by eapply st_ok. Qed.

Lemma goes_pin f l m : at_ th = Next → todo th = DoPin f :: l → goes (mkState c ths m).
Proof using Hs Ht.
  intros Ha Hl. destruct thread_ok as [_ Hok]. rewrite Hl in Hok. apply andb_prop in Hok as [Hf Hl']. cbn in Hf.
  unfold goes, step. cbn. rewrite Ht. cbn. rewrite Ha, Hl. unfold pin_find. rewrite (st_lock _ _ _ Hs). cbn.
  eexists c, _. split; [done|]. split; [|by apply andb_true_intro].
  apply Balanced_still; unfold pending; rewrite ?Ha, ?Hl; cbn; try done;
    try by destruct (cache_map_ c !! f).
  intros a. rewrite ?Hl, ?Ha. cbn.  split; [|done]. destruct (cache_map_ c !! f) as [b|]; [|done].
  destruct (decide (b = a)) as [->|Hne]; [by rewrite decide_True|rewrite decide_False; [done|congruence]].
Qed.

Lemma goes_hit f a m : at_ th = Looked f None (Some a) → goes (mkState c ths m).
Proof using Hs Ht.
  intros Ha. destruct thread_ok as [Hf Hl]. rewrite Ha in Hf. cbn in Hf. apply bool_decide_eq_true in Hf as [n Hn].
  unfold goes, step. cbn. rewrite Ht. cbn. rewrite Ha. unfold pin_hit. rewrite Hn. cbn.
  eexists _, _. split; [done|]. split; [|by apply andb_true_intro].
  split; unfold pending; rewrite ?Ha; cbn; try lia.
  - by eapply same_files_recount.
  - intros b x y Hx Hy. destruct (recount_lookup _ a n 1 Hn b y Hy) as (x' & Hx' & _ & _ & ->).
    rewrite Hx in Hx'. injection Hx' as <-. destruct (decide (a = b)); lia.
Qed.

Lemma goes_miss f m : at_ th = Looked f None None → goes (mkState c ths m).
Proof using Hs Ht.
  intros Ha. destruct thread_ok as [Hf Hl]. rewrite Ha in Hf. cbn in Hf. unfold no_room in Hf.
  unfold goes, step. cbn. rewrite Ht. cbn. rewrite Ha. unfold miss.
  destruct (FileFixture.file_of disk f) as [|sz rs]; [done|].
  destruct (load sz rs) as [[|b]|]; [done| |done]. apply bool_decide_eq_true in Hf. cbn.
  destruct Hs as [Hlk Htop Hb0 _ _]. unfold pin_insert. rewrite Hlk.
  rewrite decide_False by lia. rewrite decide_True by lia. cbn.
  eexists _, _. split; [done|]. split; [|by apply andb_true_intro].
  apply (Balanced_counts c _ _ 0 0 1); unfold pending; rewrite ?Ha; cbn; try done; lia.
Qed.

Lemma goes_count h m : at_ th = Got None h → goes (mkState c ths m).
Proof using Hs Ht.
  intros Ha. destruct thread_ok as [_ Hl].
  unfold goes, step. cbn. rewrite Ht. cbn. rewrite Ha. cbn.
  eexists _, _. split; [done|]. split; [|by apply andb_true_intro].
  apply (Balanced_counts c _ _ 1 0 0); unfold pending; rewrite ?Ha; cbn; try done; lia.
Qed.

Lemma goes_unpin a l m : at_ th = Next → todo th = DoUnpin (Some a) :: l → goes (mkState c ths m).
Proof using Hs Ht.
  intros Ha Hl. destruct thread_ok as [_ Hok]. rewrite Hl in Hok. apply andb_prop in Hok as [Hf Hl'].
  cbn in Hf. destruct (nodes c !! a) as [n|] eqn:Hn; [|done].
  apply andb_prop in Hf as [Hm Hbc]. apply bool_decide_eq_true in Hm. apply bool_decide_eq_true in Hbc as [bc Hbc].
  pose proof (st_pins _ _ _ Hs a n Hn) as Hp. pose proof (tally_le (pending nowhere (unpin_of_cmd a)) _ _ _ Ht) as Hle.
  unfold pending in Hle at 1. rewrite Hl in Hle. cbn in Hle. rewrite decide_True in Hle by done.
  unfold goes, step. cbn. rewrite Ht. cbn.
  rewrite Ha, Hl, (unpin_on_again c a n bc) by (done || apply Hs || lia). cbn.
  eexists _, _. split; [done|]. split; [|by apply andb_true_intro].
  split; unfold pending; rewrite ?Ha, ?Hl; cbn; rewrite ?Hn; cbn; rewrite ?Hbc; cbn; try lia.
  - by eapply (same_files_recount _ _ a n (-1)).
  - intros b x y Hx Hy. destruct (recount_lookup _ a n (-1) Hn b y Hy) as (x' & Hx' & _ & _ & ->).
    rewrite Hx in Hx'. injection Hx' as <-. destruct (decide (a = b)); lia.
Qed.

Lemma steady_goes m : idle th ∨ goes (mkState c ths m).
Proof using Hs Ht.
  destruct thread_ok as [Hf Hl]. unfold idle.
  destruct (at_ th) as [|f [k|] it|[k|] h|a k|a] eqn:Ha; try done.
  - destruct (todo th) as [|[f|[a|]|f k] l] eqn:Hl'; [by left|..]; try (by cbn in Hl); right.
    + by eapply goes_pin.
    + by eapply goes_unpin.
  - right. destruct it; [by eapply goes_hit|by eapply goes_miss].
  - right. by eapply goes_count.
Qed.
End steady.

(** One step, and a step that can be done. *)
Lemma steady_step top t s s' :
  Steady top (cache s) (threads s) → step t s = Some s' →
  Steady top (cache s') (threads s') ∧ outcome (cache s') (threads s') = outcome (cache s) (threads s) ∧
  fatal_message s' = fatal_message s.
Proof.
  intros Hs E. destruct (step_moves t s s' E) as (th & _ & Ht & _). destruct s as [c ths m]. cbn in *.
  destruct (steady_goes top c ths t th Hs Ht m) as [[Ha Hl]|(c' & th' & E' & Hb & Hok)].
  - unfold step in E. cbn in E. rewrite Ht in E. cbn in E. by rewrite Ha, Hl in E.
  - rewrite E' in E. injection E as <-. cbn. split_and!; [|by eapply outcome_balanced|done].
    by eapply Steady_balanced.
Qed.

Lemma steady_exec top sched : ∀ s s',
  Steady top (cache s) (threads s) → exec step sched s = Some s' →
  Steady top (cache s') (threads s') ∧ outcome (cache s') (threads s') = outcome (cache s) (threads s) ∧
  fatal_message s' = fatal_message s.
Proof.
  induction sched as [|t sched IH]; intros s s' Hs E; cbn in E; [by simplify_eq|].
  destruct (step t s) as [s1|] eqn:E1; cbn in E; [|done].
  destruct (steady_step top t s s1 Hs E1) as (Hs1 & Eo & Ef).
  destruct (IH s1 s' Hs1 E) as (Hs' & -> & ->). done.
Qed.

#[global] Instance idle_dec th : Decision (idle th).
Proof.
  unfold idle. destruct (at_ th); [|right; by intros [? _]..].
  destruct (todo th); [by left|right; by intros [_ ?]].
Defined.

(** Either all threads are done or one has something to do. *)
Lemma finished_or s : finished s ∨ ∃ t th, threads s !! t = Some th ∧ ¬ idle th.
Proof.
  destruct (decide (Exists (λ th, ¬ idle th) (threads s))) as [He|Hn].
  - right. apply Exists_exists in He as (th & Hin & Hi). apply list_elem_of_lookup in Hin as [t Ht]. eauto.
  - left. intros t th Ht. destruct (decide (idle th)) as [|Hi]; [done|].
    destruct Hn. apply Exists_exists. exists th. split; [|done]. by eapply list_elem_of_lookup_2.
Qed.

Lemma tally_none (f : thread → nat) ths : (∀ t th, ths !! t = Some th → f th = 0) → tally f ths = 0.
Proof.
  induction ths as [|th ths IH]; intros Hf; cbn; [done|]. rewrite (Hf 0 th), IH; try done.
  intros t. apply (Hf (S t)).
Qed.

(** What is pending comes to nothing. *)
Lemma outcome_done s : finished s → outcome (cache s) (threads s) = cache s.
Proof.
  intros Hf. assert (∀ wp wc, wp Next = 0 → tally (pending wp wc) (threads s) = 0) as Hz.
  { intros wp wc Hw. apply tally_none. intros t th Ht. destruct (Hf t th Ht) as [Ha Hl].
    unfold pending. by rewrite Ha, Hl, Hw. }
  unfold outcome. rewrite !Hz by done. rewrite !Z.add_0_r.
  replace (imap (count_later (cache s) (threads s)) (nodes (cache s))) with (nodes (cache s)); [by destruct (cache s)|].
  apply list_eq. intros a. rewrite list_lookup_imap. destruct (nodes (cache s) !! a) as [n|]; [|done]. cbn.
  unfold count_later. rewrite !Hz by done. rewrite Z.add_0_r, Z.sub_0_r. by destruct n.
Qed.

(** What a run of such threads gives: it is finite, goes on until all have
    finished, and then the cache is [outcome]. *)
Definition always_ends (s0 : state) (P : state → Prop) : Prop :=
  ∀ sched s, exec step sched s0 = Some s →
    length sched ≤ work s0 ∧ (finished s ∧ P s ∨ ∃ t s', step t s = Some s').

Lemma steady_ends top s0 :
  Steady top (cache s0) (threads s0) →
  always_ends s0 (λ s, cache s = outcome (cache s0) (threads s0) ∧ fatal_message s = fatal_message s0).
Proof.
  intros Hs sched s E. pose proof (exec_work _ _ _ E). split; [lia|].
  destruct (steady_exec top sched s0 s Hs E) as (Hs' & Eo & Ef).
  destruct (finished_or s) as [Hf|(t & th & Ht & Hi)]; [left|right].
  - rewrite <- Eo, outcome_done; done.
  - destruct s as [c ths m]. destruct (steady_goes top c ths t th Hs' Ht m) as [?|(c' & th' & E' & _)]; [done|eauto].
Qed.

(** A check of the conditions for threads at their start. *)
Definition steady_start (c : FileCache) (ls : list (list command)) : bool :=
  let ths := map spawn ls in
  let top := (bytes_unpinned_files_ c + Z.of_nat (tally (pending nowhere (bytes_cmd c)) ths))%Z in
  negb (locked c) && bool_decide (0 ≤ bytes_unpinned_files_ c)%Z && forallb (ok_thread c top) ths &&
  forallb (λ '(a, n), bool_decide (Z.of_nat (tally (pending nowhere (unpin_of_cmd a)) ths) ≤ count_unpin n)%Z)
    (imap pair (nodes c)).

Lemma steady_start_ends c ls :
  steady_start c ls = true →
  always_ends (start c ls) (λ s, cache s = outcome c (map spawn ls) ∧ fatal_message s = false).
Proof.
  unfold steady_start. intros Hs. repeat (apply andb_prop in Hs as [Hs ?]).
  eapply (steady_ends _ (start c ls)). split; cbn; [by destruct (locked c)|done|by eapply bool_decide_eq_true| |].
  - intros t th Ht. eapply forallb_forall; [done|]. apply list_elem_of_In. by eapply list_elem_of_lookup_2.
  - intros a n Hn. eapply (bool_decide_eq_true_1 _).
    match goal with H : forallb _ (imap _ _) = true |- _ => eapply (proj1 (forallb_forall _ _) H (a, n)) end.
    apply list_elem_of_In, list_elem_of_lookup. exists a. by rewrite list_lookup_imap, Hn.
Qed.
End machine.
End CacheThreads.

