(* ===== verification/CacheTests.v ===== *)
(** * The tests of the file cache ([file_cache_test1.cpp], [file_cache_test2.cpp])

    The test cases, run on the definitions of [FileCache.v] and, where they start
    threads, on those of [CacheThreads.v]: what is proved of these holds in every
    interleaving. *)

From stdpp Require Import strings.
From S2P Require Import Prelude.
From S2P Require Import Buffer.
From S2P Require Import BufferIter.
From S2P Require Import FileCache.
From S2P Require Import CacheThreads.

(** ** The test cases *)

Module CacheTests.
Import Buffer.Buffer FileCache.FileCache CacheThreads.CacheThreads.

(** A running case: its cache and the number of expectations that failed. *)
Record case := mkCase { my_cache : FileCache; errors : nat }.

Definition T (A : Type) : Type := case → option (A * case).

#[export] Instance T_ret : MRet T := λ A x s, Some (x, s).
#[export] Instance T_bind : MBind T := λ A B f m s, '(x, s) ← m s; f x s.

Definition construct (max_size : Z) : T () := λ s, Some ((), mkCase (make max_size) (errors s)).
Definition get {A} (f : FileCache → A) : T A := λ s, Some (f (my_cache s), s).
Definition expect (b : bool) : T () :=
  λ s, Some ((), mkCase (my_cache s) (if b then errors s else S (errors s))).
Definition expect_eq (f : FileCache → Z) (x : Z) : T () := y ← get f; expect (bool_decide (y = x)).

(** [size_t i] loops. *)
Fixpoint for_ (i n : nat) (body : nat → T ()) : T () :=
  match n with 0 => mret () | S n => body i ;; for_ (S i) n body end.

(** [EXPECT_GT(h, 0)] and [EXPECT_EQ(h, 0)] of a pointer. *)
Definition not_null {A} (h : option A) : bool := bool_decide (is_Some h).

Definition failing (t : T ()) : option nat := '(_, s) ← t (mkCase (make 0) 0); Some (errors s).

Section cases.
Context `{Uninit}.

Definition disk : gmap string bytes := FileFixture.disk FileFixture.started.

Definition pin_ (f : string) : T (option nat * out) :=
  λ s, '(h, o, c) ← pin f (FileFixture.file_of disk f) (my_cache s); Some ((h, o), mkCase c (errors s)).

(** [unpin], and whether it logged a fatal message. *)
Definition unpin_ (h : option nat) : T bool :=
  λ s, '(bad, c) ← unpin_on h (my_cache s); Some (bad, mkCase c (errors s)).

(** [string(buf->readPtr(), buf->readSize())]. *)
Definition read_string (o : out) : T bytes :=
  λ s, match o with
       | Points a => n ← nodes (my_cache s) !! a; d ← readArea (buf n); Some (d, s)
       | _ => None
       end.

(** *** [file_cache_test1.cpp] *)

Definition size_of (n : Z) : Z := Z.shiftl (n * 10) 10 / 10.

Definition Sequential_NoSpace : T () :=
  construct (size_of 5) ;;
  pin_ "a.html" ;; expect_eq failed 0 ;; expect_eq bytesUsed 2500 ;;
  pin_ "b.html" ;; expect_eq failed 0 ;; expect_eq bytesUsed 5000 ;;
  for_ 0 5 (λ i,
    pin_ "c.html" ;; expect_eq failed (Z.of_nat i * 2 + 1) ;; expect_eq bytesUsed 5000 ;;
    pin_ "2.html" ;; expect_eq failed (Z.of_nat i * 2 + 2) ;; expect_eq bytesUsed 5000).

Definition Sequential_PinAndUnpin : T () :=
  construct (size_of 8) ;;
  '(h, _) ← pin_ "a.html"; expect_eq failed 0 ;;
  pin_ "b.html" ;; expect_eq failed 0 ;;
  pin_ "1.html" ;; expect_eq failed 0 ;; expect_eq bytesUsed 7048 ;;
  pin_ "2.html" ;; expect_eq failed 1 ;; expect_eq bytesUsed 7048 ;;
  unpin_ h ;;
  pin_ "2.html" ;; expect_eq failed 1 ;; expect_eq bytesUsed 6596.

Definition Sequential_PinnedFileNotEvicted : T () :=
  construct (size_of 5) ;;
  pin_ "a.html" ;; expect_eq failed 0 ;;
  pin_ "b.html" ;; expect_eq failed 0 ;;
  for_ 0 10 (λ _, pin_ "a.html" ;; pin_ "b.html" ;; mret ()) ;;
  expect_eq bytesUsed 5000 ;; expect_eq hits 20 ;; expect_eq pins 22.

(** A concurrent case: what comes before the threads, which gives what each of
    them does, and what comes after they have been joined. *)
Record concurrent := mkConcurrent { before : T (list (list command)); after : T () }.

Definition threads_Pin (f : string) : list command := replicate 10 (DoPin f).

Definition Concurrent_NoSpace : concurrent := mkConcurrent
  (construct (size_of 5) ;;
   pin_ "a.html" ;; expect_eq failed 0 ;; expect_eq bytesUsed 2500 ;;
   pin_ "b.html" ;; expect_eq failed 0 ;; expect_eq bytesUsed 5000 ;;
   mret [threads_Pin "c.html"; threads_Pin "1.html"; threads_Pin "2.html"; threads_Pin "3.html"])
  (expect_eq bytesUsed 5000 ;; expect_eq failed 40).

Definition Concurrent_PinAndUnpin (last_expected : Z) : concurrent := mkConcurrent
  (construct (size_of 10) ;;
   '(h0, _) ← pin_ "a.html"; expect_eq failed 0 ;;
   '(h1, _) ← pin_ "b.html"; expect_eq failed 0 ;;
   '(h2, _) ← pin_ "2.html"; expect_eq failed 0 ;;
   '(h3, _) ← pin_ "3.html"; expect_eq failed 0 ;;
   expect_eq bytesUsed 9096 ;;
   pin_ "1.html" ;; expect_eq failed 1 ;;
   pin_ "4.html" ;; expect_eq failed 2 ;;
   pin_ "5.html" ;; expect_eq failed 3 ;;
   expect_eq bytesUsed 9096 ;;
   mret [[DoUnpin h0; DoUnpin h1]; [DoUnpin h2]; [DoUnpin h3]])
  (pin_ "1.html" ;; pin_ "4.html" ;; pin_ "5.html" ;; pin_ "2.html" ;;
   expect_eq bytesUsed last_expected).

Definition Concurrent_PinnedFileNotEvicted : concurrent := mkConcurrent
  (construct (size_of 5) ;;
   pin_ "a.html" ;; expect_eq failed 0 ;;
   pin_ "b.html" ;; expect_eq failed 0 ;;
   mret [threads_Pin "a.html"; threads_Pin "a.html"; threads_Pin "b.html"; threads_Pin "b.html"])
  (expect_eq bytesUsed 5000 ;; expect_eq hits 40 ;; expect_eq pins 42).

(** *** [file_cache_test2.cpp] *)

Definition SingleFile : T () :=
  construct 3000 ;;
  '(h, buf) ← pin_ "a.html";
  expect (not_null h) ;; expect_eq bytesUsed 2500 ;; expect_eq pins 1 ;; expect_eq hits 0 ;; expect_eq failed 0 ;;
  d ← read_string buf; expect (bool_decide (replicate 2500 "x"%char = d)) ;;
  unpin_ h ;; expect_eq bytesUsed 2500 ;;
  pin_ "a.html" ;;
  expect_eq bytesUsed 2500 ;; expect_eq pins 2 ;; expect_eq hits 1 ;; expect_eq failed 0.

Definition Eviction : T () :=
  construct 3000 ;;
  '(h, _) ← pin_ "a.html"; unpin_ h ;; expect_eq bytesUsed 2500 ;;
  '(h, _) ← pin_ "b.html";
  expect (not_null h) ;; expect_eq bytesUsed 2500 ;; expect_eq pins 2 ;; expect_eq hits 0 ;; expect_eq failed 0.

Definition MultiplePin : T () :=
  construct 3000 ;;
  '(h1, _) ← pin_ "a.html"; '(h2, _) ← pin_ "a.html"; '(h3, _) ← pin_ "a.html";
  expect_eq bytesUsed 2500 ;; expect_eq pins 3 ;; expect_eq hits 2 ;;
  unpin_ h1 ;; unpin_ h2 ;; unpin_ h3 ;; expect_eq bytesUsed 2500.

(** [*buf] is set to NULL, or points to the buffer. *)
Definition is_null (o : out) : bool := match o with Null => true | _ => false end.
Definition points (o : out) : bool := match o with Points _ => true | _ => false end.

Definition NoUnpinnedSpaceEnough : T () :=
  construct 3000 ;;
  '(h, buf_a) ← pin_ "a.html"; expect (not_null h) ;; expect (points buf_a) ;;
  '(h, buf_b) ← pin_ "b.html"; expect (negb (not_null h)) ;; expect (is_null buf_b).

Definition FileTooBig : T () :=
  construct 3000 ;;
  '(h, buf_a) ← pin_ "c.html"; expect (negb (not_null h)) ;; expect (is_null buf_a) ;;
  expect_eq pins 1 ;; expect_eq failed 1.

Definition NegativeReferenceCount : T () :=
  construct 3000 ;;
  '(h, _) ← pin_ "a.html"; unpin_ h ;; bad ← unpin_ h; expect bad.

Definition sequential : list (T ()) :=
  [Sequential_NoSpace; Sequential_PinAndUnpin; Sequential_PinnedFileNotEvicted;
   SingleFile; Eviction; MultiplePin; NoUnpinnedSpaceEnough; FileTooBig; NegativeReferenceCount].

(** However the threads interleave they all end, and then [n] expectations of
    the case have failed, and no fatal message has been logged. *)
Definition always_fails (k : concurrent) (n : nat) : Prop :=
  ∃ ls s0, before k (mkCase (make 0) 0) = Some (ls, s0) ∧
  always_ends disk (start (my_cache s0) ls) (λ s,
    fatal_message s = false ∧ ∃ s', after k (mkCase (cache s) (errors s0)) = Some ((), s') ∧ errors s' = n).

(** The same, computed. *)
Definition fails_b (k : concurrent) (n : nat) : bool :=
  match before k (mkCase (make 0) 0) with
  | None => false
  | Some (ls, s0) =>
    steady_start disk (my_cache s0) ls &&
    match after k (mkCase (outcome (my_cache s0) (map spawn ls)) (errors s0)) with
    | None => false
    | Some (_, s') => bool_decide (errors s' = n)
    end
  end.

Lemma fails_b_always k n : fails_b k n = true → always_fails k n.
Proof.
  unfold fails_b, always_fails. intros Hb.
  destruct (before k (mkCase (make 0) 0)) as [[ls s0]|]; [|done]. exists ls, s0. split; [done|].
  apply andb_prop in Hb as [Hs Ha]. intros sched s E.
  destruct (steady_start_ends disk _ _ Hs sched s E) as [Hl [(Hf & Hc & Hm)|Ht]]; (split; [done|]); [left|by right].
  split; [done|]. split; [done|]. rewrite Hc.
  destruct (after k _) as [[[] s']|]; [|done]. exists s'. split; [done|]. by apply bool_decide_eq_true in Ha.
Qed.

Lemma sequential_pass : map failing sequential = replicate 9 (Some 0).
Proof. vm_compute. reflexivity. Qed.

Lemma NoSpace_b : fails_b Concurrent_NoSpace 0 = true.
Proof. vm_compute. reflexivity. Qed.
Lemma Pinned_b : fails_b Concurrent_PinnedFileNotEvicted 0 = true.
Proof. vm_compute. reflexivity. Qed.
Lemma PinAndUnpin_b : fails_b (Concurrent_PinAndUnpin 8192) 1 = true ∧ fails_b (Concurrent_PinAndUnpin 10240) 0 = true.
Proof. vm_compute. split; reflexivity. Qed.

(** What the tests of the cache find: every sequential case passes; the
    concurrent ones end in every interleaving of their threads, and those about
    space and about hits pass in all of them; but the last expectation of the
    case that unpins in parallel fails in all of them, since the cache then uses
    10240 bytes and not 8192: the file the case pins last has not been evicted. *)
Lemma cache_tests :
  map failing sequential = replicate 9 (Some 0) ∧
  always_fails Concurrent_NoSpace 0 ∧ always_fails Concurrent_PinnedFileNotEvicted 0 ∧
  always_fails (Concurrent_PinAndUnpin 8192) 1 ∧ always_fails (Concurrent_PinAndUnpin 10240) 0.
Proof.
  split_and!; [apply sequential_pass|apply fails_b_always..].
  - apply NoSpace_b.
  - apply Pinned_b.
  - apply PinAndUnpin_b.
  - apply PinAndUnpin_b.
Qed.

End cases.
End CacheTests.

(** ** The concurrent case of [file_cache_test2.cpp] *)

Module Mayhem.
Import Buffer.Buffer FileCache.FileCache CacheThreads.CacheThreads.

Definition num_files : nat := 5.
Definition threads_ : nat := 4.
Definition requests_ : nat := 100.

(** [file_names_[i]] and [char('0' + i+1)]. *)
Definition file_names_ (i : nat) : string :=
  String.string_of_list_ascii (decimal (Z.of_nat (i + 1)) ++ b_ ".html").
Definition c_ (i : nat) : ascii := ascii_of_nat (48 + i + 1).

(** [FileTester::test(requests)]; the [k]-th number that [unif_distr(eng)] gives
    is [unif k]: the engines of all the testers start alike. *)
Definition test (unif : nat → nat) (requests : nat) : list command :=
  map (λ k, DoRequest (file_names_ (unif k)) (c_ (unif k))) (seq 0 requests).

Definition mayhem (unif : nat → nat) : state :=
  start (make (2048 * (Z.of_nat num_files - 2))) (replicate threads_ (test unif requests_)).

Section facts.
Context `{Uninit}.

Abbreviation disk := CacheTests.disk.
#[local] Arguments CacheTests.disk : simpl never.
#[local] Arguments file_names_ : simpl never.
#[local] Arguments c_ : simpl never.

Definition page (i : nat) : bytes := replicate 2048 (c_ i).

Ltac each_file i Hi :=
  let D := fresh in
  assert (i = 0 ∨ i = 1 ∨ i = 2 ∨ i = 3 ∨ i = 4) as D by (unfold num_files in Hi; lia); clear Hi;
  destruct D as [D|[D|[D|[D|D]]]]; subst i.

Lemma file_of_name i : i < num_files → FileFixture.file_of disk (file_names_ i) = File 2048 [ReadOk (page i)].
Proof. intros Hi. each_file i Hi; vm_compute; reflexivity. Qed.

Lemma file_names_inj i j : i < num_files → j < num_files → file_names_ i = file_names_ j → i = j.
Proof. intros Hi Hj. each_file i Hi; each_file j Hj; vm_compute; congruence. Qed.

(** *** The cache during the case *)

Definition named (c : FileCache) (a i : nat) : Prop := ∃ nd, nodes c !! a = Some nd ∧ file_name nd = file_names_ i.

Definition node_ok (nd : Node) : Prop :=
  ∃ i, i < num_files ∧ file_name nd = file_names_ i ∧ contents (buf nd) = page i ∧ wf (buf nd) ∧
    rpos_ (buf nd) = mkPos 0 0.

Record CInv (c : FileCache) : Prop := {
  ci_inv : Inv c;
  ci_lock : locked c = false;
  ci_size : CacheSize_ c = 6144%Z;
  ci_nodes : ∀ a nd, nodes c !! a = Some nd → node_ok nd
}.

Definition grows (c c' : FileCache) : Prop :=
  ∀ a nd, nodes c !! a = Some nd → ∃ nd', nodes c' !! a = Some nd' ∧ file_name nd' = file_name nd.

Lemma grows_nodes c c' : nodes c' = nodes c → grows c c'.
Proof. intros E a nd Ha. rewrite E. eauto. Qed.

Lemma grows_counts p h f c : grows c (set_counts p h f c).
Proof. by apply grows_nodes. Qed.

Lemma pins_counts h f c : pins (set_counts 0 h f c) = pins c.
Proof. unfold pins. cbn. lia. Qed.

Lemma CInv_counts p h f c : CInv c → CInv (set_counts p h f c).
Proof. intros Hc. split; [by apply Inv_counts, Hc|apply Hc..]. Qed.

Lemma named_grows c c' a i : grows c c' → named c a i → named c' a i.
Proof. intros Hg (nd & Ha & Hn). destruct (Hg a nd Ha) as (nd' & ? & E). exists nd'. split; [done|congruence]. Qed.

Lemma node_bytes_ok nd : node_ok nd → byteCount (buf nd) = Some 2048.
Proof.
  intros (i & _ & _ & Hc & Hwf & Hr). rewrite byteCount_spec, Hc by (done || by rewrite Hr).
  unfold page. by rewrite length_replicate.
Qed.

(** The count of a node changes. *)
Lemma recounted c c' a n k :
  CInv c → Inv c' → nodes c !! a = Some n → nodes c' = <[a := mkNode (file_name n) (buf n) k]> (nodes c) →
  locked c' = false → CacheSize_ c' = CacheSize_ c → CInv c' ∧ grows c c'.
Proof.
  intros Hc Hi Hn E Hl Hs. assert (a < length (nodes c)) as Hlt by (by eapply lookup_lt_Some). split.
  - split; try done; [by rewrite Hs; apply Hc|]. intros b nd Hb. rewrite E in Hb.
    apply list_lookup_insert_Some in Hb. destruct Hb as [(-> & <- & _)|[_ Hb]]; [|by eapply ci_nodes].
    exact (ci_nodes _ Hc b n Hn).
  - intros b nd Hb. rewrite E. destruct (decide (a = b)) as [->|Hne].
    + rewrite list_lookup_insert_eq by done. rewrite Hn in Hb. injection Hb as <-. eauto.
    + rewrite list_lookup_insert_ne by done. eauto.
Qed.

Lemma hit_ok c a : CInv c → is_Some (nodes c !! a) →
  ∃ c', pin_hit a c = Some c' ∧ CInv c' ∧ grows c c' ∧ pins c' = pins c.
Proof.
  intros Hc [n Hn]. pose proof (Inv_cache (Hit a) c) as Hi. unfold FileCache.step, pin_hit in *.
  rewrite Hn in *. cbn in *. destruct (Hi _ (ci_inv _ Hc) eq_refl) as [Hi' _].
  eexists. split; [done|]. destruct (recounted c _ a n _ Hc Hi' Hn eq_refl (ci_lock _ Hc) eq_refl).
  split_and!; try done. apply (Z.add_0_r (pins_total_ c)).
Qed.

Lemma unpin_ok c a : CInv c → is_Some (nodes c !! a) →
  ∃ bad c', unpin_on (Some a) c = Some (bad, c') ∧ CInv c' ∧ grows c c' ∧ pins c' = pins c.
Proof.
  intros Hc [temp Ha]. unfold unpin_on. rewrite (ci_lock _ Hc).
  destruct (fatal (Some a) c) eqn:Hf; [exists true, c; split_and!; try done; by apply grows_nodes|].
  unfold fatal in Hf. cbn in Hf. rewrite Ha in Hf.
  destruct (cache_map_ c !! file_name temp) as [b|] eqn:Hm; [|done].
  destruct (i_node _ (ci_inv _ Hc) _ _ Hm) as (n & Hn & Ef & _). rewrite Hn in Hf.
  apply bool_decide_eq_false, dec_stable in Hf.
  pose proof (Inv_cache (Unpin (Some a)) c) as Hi. unfold FileCache.step, unpin in *.
  rewrite (ci_lock _ Hc) in *. rewrite Ha in *. cbn in *. rewrite Hm in *. cbn in *. rewrite Hn in *. cbn in *.
  rewrite decide_True in * by done. rewrite (node_bytes_ok n) in * by (by eapply ci_nodes). cbn in *.
  destruct (Hi _ (ci_inv _ Hc) eq_refl) as [Hi' _].
  exists false. eexists. split; [done|]. destruct (recounted c _ b n _ Hc Hi' Hn eq_refl eq_refl eq_refl); done.
Qed.

(** *** Making room *)

Lemma used_pages c : CInv c → bytes_used_ c = (2048 * Z.of_nat (length (PinnedFiles_ c)))%Z.
Proof.
  intros Hc. pose proof (ci_inv _ Hc) as Hi. rewrite (i_used _ Hi). unfold cached_bytes.
  assert (∀ l, (∀ f, f ∈ l → f ∈ PinnedFiles_ c) →
    stored (file_bytes (nodes c) (cache_map_ c)) l = (2048 * Z.of_nat (length l))%Z) as Hl; [|by apply Hl].
  induction l as [|f l IH]; intros Hin; cbn; [done|]. rewrite IH by (intros; apply Hin; by right).
  destruct (proj1 (i_listed _ Hi f) (Hin f ltac:(by left))) as [a Ha].
  destruct (i_node _ Hi _ _ Ha) as (n & Hn & _). unfold file_bytes, node_bytes. rewrite Ha, Hn. cbn.
  rewrite (node_bytes_ok n) by (by eapply ci_nodes). lia.
Qed.

(** The eviction of one file is enough. *)
Lemma evict_ok c l : ∀ pre, CInv c → PinnedFiles_ c = pre ++ l →
  ∃ free c', evict pre l 2048 0 c = Some (free, c') ∧ locked c' = false ∧ pins c' = pins c.
Proof.
  induction l as [|f l IH]; intros pre Hc Hp; cbn; [eexists _, c; split_and!; try done; apply Hc|].
  destruct (proj1 (i_listed _ (ci_inv _ Hc) f)) as [a Ha]; [rewrite Hp; set_solver|].
  destruct (i_node _ (ci_inv _ Hc) _ _ Ha) as (n & Hn & _). rewrite Ha. cbn. rewrite Hn. cbn.
  case_decide.
  - unfold evict_node. rewrite (node_bytes_ok n) by (by eapply ci_nodes). cbn. unfold maxSize. cbn.
    pose proof (i_limit _ (ci_inv _ Hc)). rewrite decide_True by lia.
    eexists _, _. split; [done|]. split; [apply Hc|done].
  - apply IH; [done|]. by rewrite <- app_assoc.
Qed.

Lemma insert_ok c i b : CInv c → i < num_files → contents b = page i → wf b → rpos_ b = mkPos 0 0 →
  (bytes_used_ c + 2048 ≤ CacheSize_ c)%Z → ∃ h o c', insert_node (file_names_ i) b c = Some (h, o, c') ∧
  CInv c' ∧ grows c c' ∧ pins c' = pins c ∧ ∀ a, h = Some a → named c' a i.
Proof.
  intros Hc Hi Hb Hwf Hr Hroom.
  assert (byteCount b = Some 2048) as Hbc.
  { apply (node_bytes_ok (mkNode (file_names_ i) b 1)). by exists i. }
  destruct (insert_node (file_names_ i) b c) as [[[h o] c']|] eqn:E.
  2: { unfold insert_node in E. rewrite Hbc in E. by destruct (cache_map_ c !! file_names_ i). }
  exists h, o, c'. split; [done|].
  assert (Inv c') as Hi' by (eapply (Inv_insert_node (file_names_ i) b c h o c' 2048); [apply Hc|done|lia|done]).
  unfold insert_node in E. rewrite Hbc in E. destruct (cache_map_ c !! file_names_ i).
  { injection E as <- <- <-. split_and!; [by apply CInv_counts|apply grows_counts|apply pins_counts|done]. }
  cbn in E. injection E as <- <- <-. split_and!; try done.
  - split; [done|apply Hc..|]. cbn. intros a nd Ha.
    apply lookup_app_Some in Ha as [Ha|[_ Ha]]; [by eapply ci_nodes|].
    apply list_lookup_singleton_Some in Ha as [_ <-]. by exists i.
  - intros a nd Ha. cbn. rewrite lookup_app_l by (by eapply lookup_lt_Some). eauto.
  - intros a [= <-]. unfold named. cbn. rewrite lookup_app_r, Nat.sub_diag by done. cbn. eauto.
Qed.

Lemma page_inserted c i b : CInv c → i < num_files → contents b = page i → wf b → rpos_ b = mkPos 0 0 →
  ∃ h o c', pin_insert (file_names_ i) b 2048 c = Some (h, o, c') ∧
  CInv c' ∧ grows c c' ∧ pins c' = pins c ∧ ∀ a, h = Some a → named c' a i.
Proof.
  intros Hc Hi Hb Hwf Hr. unfold pin_insert, maxSize, bytesUsed. rewrite (ci_lock _ Hc).
  pose proof (used_pages c Hc). pose proof (ci_size _ Hc). pose proof (i_limit _ (ci_inv _ Hc)).
  case_decide; [by apply insert_ok; try lia|].
  case_decide.
  { eexists _, _, _. split; [done|].
    split_and!; [by apply CInv_counts|apply grows_counts|apply pins_counts|done]. }
  assert (CacheSize_ c - bytes_used_ c = 0)%Z as Hz by lia. rewrite Hz.
  destruct (evict_ok c (PinnedFiles_ c) [] Hc eq_refl) as (free & c1 & E & Hl1 & Hp1). rewrite E. cbn.
  destruct (evict_spec 2048 _ [] 0 c free c1 (ci_inv _ Hc) eq_refl) as (Hi1 & Hf1 & En & Ec & _); [unfold maxSize; lia|done|].
  unfold maxSize in Hf1.
  assert (CInv c1) as Hc1.
  { split; [done|done|by rewrite Ec|]. intros a nd. rewrite En. by apply Hc. }
  case_decide.
  - destruct (insert_ok c1 i b) as (h & o & c' & Ei & Hc' & Hg & Hp & Hn); try done; [lia|].
    exists h, o, c'. split_and!; try done; [|congruence]. intros a nd. rewrite <- En. apply Hg.
  - eexists _, _, _. split; [done|].
    split_and!; [by apply CInv_counts|by apply grows_nodes|by rewrite pins_counts|done].
Qed.

Lemma miss_ok c i k : CInv c → i < num_files → ∃ h c', miss disk (file_names_ i) k c = Some (Got k h, c') ∧
  CInv c' ∧ grows c c' ∧ pins c' = pins c ∧ ∀ a, h = Some a → named c' a i.
Proof.
  intros Hc Hi. unfold miss. rewrite file_of_name by done. pose proof BlockSize_val.
  destruct (load_one (page i)) as (b & El & Hb & Hwf & Hr); [unfold page; rewrite length_replicate; lia..|].
  replace (Z.of_nat (length (page i))) with 2048%Z in El by (unfold page; rewrite length_replicate; done).
  rewrite El. cbn [mbind option_bind]. destruct (page_inserted c i b Hc Hi Hb Hwf Hr) as (h & o & c' & -> & Ho).
  cbn [mbind option_bind]. exists h, c'. split; [reflexivity|exact Ho].
Qed.

(** The test finds no other character in the buffer. *)
Lemma other_char_none b c n : wf b → contents b = replicate n c → ∀ fuel k it,
  Iter.at_ b it k → n < fuel + k → other_char fuel c b it = Some false.
Proof.
  intros Hwf Hb. induction fuel as [|fuel IH]; intros k it Hat Hf; cbn.
  { pose proof (Iter.at_le _ _ _ Hat) as Hle. rewrite Hb, length_replicate in Hle. lia. }
  rewrite (Iter.eob_spec b it k) by done. rewrite Hb, length_replicate. case_bool_decide as Hk; [done|].
  pose proof (Iter.at_le _ _ _ Hat) as Hle. rewrite Hb, length_replicate in Hle.
  rewrite (Iter.getChar_spec b it k c); [|done|rewrite Hb; apply lookup_replicate_2; lia]. cbn.
  rewrite decide_True by done.
  destruct (Iter.next_spec b it k) as (it' & -> & Hat'); [done|done|rewrite Hb, length_replicate; lia|].
  cbn. eapply IH; [done|lia].
Qed.

Lemma check_ok c a i : CInv c → i < num_files → named c a i → check_buffer a (c_ i) c = Some false.
Proof.
  intros Hc Hi (nd & Ha & Hn). unfold check_buffer. rewrite Ha. cbn.
  destruct (ci_nodes _ Hc a nd Ha) as (j & Hj & Hnj & Hb & Hwf & Hr).
  assert (j = i) as -> by (apply file_names_inj; congruence).
  destruct (Iter.begin_spec (buf nd)) as (it & -> & Hat); [done|by rewrite Hr|]. cbn [mbind option_bind].
  apply (other_char_none (buf nd) (c_ i) 2048 Hwf Hb (S (Iter.bytes_total_ it)) 0); [done|].
  rewrite (Iter.at_total _ _ _ Hat), Hb. unfold page. rewrite length_replicate. lia.
Qed.

(** *** The threads *)

Definition is_request (cmd : command) : Prop := ∃ i, i < num_files ∧ cmd = DoRequest (file_names_ i) (c_ i).

Definition at_ok (c : FileCache) (p : pc) : Prop :=
  match p with
  | Next => True
  | Looked f k it => ∃ i, i < num_files ∧ f = file_names_ i ∧ k = Some (c_ i) ∧ ∀ a, it = Some a → named c a i
  | Got k h => ∃ i, i < num_files ∧ k = Some (c_ i) ∧ ∀ a, h = Some a → named c a i
  | Reading a x => ∃ i, i < num_files ∧ x = c_ i ∧ named c a i
  | Unpinning a => is_Some (nodes c !! a)
  end.

Definition th_ok (c : FileCache) (th : thread) : Prop :=
  in_error_ th = false ∧ Forall is_request (todo th) ∧ at_ok c (at_ th).

Lemma th_ok_grows c c' th : grows c c' → th_ok c th → th_ok c' th.
Proof.
  intros Hg (He & Hl & Ha). split_and!; [done|done|]. destruct (at_ th) as [|f k it|k h|a x|a]; cbn in *; [done|..].
  - destruct Ha as (i & Hi & Hf & Hk & Hn). exists i. split_and!; try done.
    intros a Ha. eapply named_grows; [done|by apply Hn].
  - destruct Ha as (i & Hi & Hk & Hn). exists i. split_and!; try done.
    intros a Ha. eapply named_grows; [done|by apply Hn].
  - destruct Ha as (i & Hi & Hk & Hn). exists i. split_and!; try done. by eapply named_grows.
  - destruct Ha as [nd Ha]. destruct (Hg a nd Ha) as (nd' & ? & _). eauto.
Qed.

Record MInv (n : Z) (s : state) : Prop := {
  mi_cache : CInv (cache s);
  mi_threads : ∀ t th, threads s !! t = Some th → th_ok (cache s) th;
  mi_pins : (pins (cache s) + Z.of_nat (tally (pending pin_at pin_cmd) (threads s)) = n)%Z
}.

Lemma MInv_put n s t th th' c' bad :
  MInv n s → threads s !! t = Some th → CInv c' → grows (cache s) c' → th_ok c' th' →
  (pins c' + Z.of_nat (pending pin_at pin_cmd th') = pins (cache s) + Z.of_nat (pending pin_at pin_cmd th))%Z →
  MInv n (fatal_if bad (put t th' c' s)).
Proof.
  intros [Hc Ht Hp] Hth Hc' Hg Hok Hpp. split; cbn; [done| |].
  - intros u x Hu. apply list_lookup_insert_Some in Hu. destruct Hu as [(-> & -> & _)|[_ Hu]]; [done|].
    eapply th_ok_grows; [done|by eapply Ht].
  - pose proof (tally_insert (pending pin_at pin_cmd) (threads s) t th th' Hth). lia.
Qed.

(** A thread that is not done can go on, and the invariant holds after it. *)
Lemma mayhem_goes n s t th :
  MInv n s → threads s !! t = Some th → idle th ∨ ∃ s', step disk t s = Some s' ∧ MInv n s'.
Proof.
  intros Hm Ht. pose proof (mi_cache _ _ Hm) as Hc. destruct (mi_threads _ _ Hm t th Ht) as (He & Hl & Ha).
  assert (∀ th' c' bad, step disk t s = Some (fatal_if bad (put t th' c' s)) → CInv c' → grows (cache s) c' →
    th_ok c' th' →
    (pins c' + Z.of_nat (pending pin_at pin_cmd th') = pins (cache s) + Z.of_nat (pending pin_at pin_cmd th))%Z →
    ∃ s', step disk t s = Some s' ∧ MInv n s') as Hgo.
  { intros th' c' bad E ? ? ? ?. eexists. split; [exact E|]. by eapply MInv_put. }
  destruct (at_ th) as [|f k it|k h|a x|a] eqn:Hp; cbn in Ha; [|right..].
  - destruct (todo th) as [|cmd l] eqn:El; [by left|right]. inversion_clear Hl as [|? ? Hcmd Hl'].
    destruct Hcmd as (i & Hi & ->). 
    eapply (Hgo _ (cache s) false);
      [unfold step; rewrite Ht; cbn; rewrite Hp, El; unfold pin_find; rewrite (ci_lock _ Hc); cbn; by destruct s|done|by apply grows_nodes| |].
    + split_and!; [done|done|]. exists i. split_and!; try done. intros a Ea.
      destruct (i_node _ (ci_inv _ Hc) _ _ Ea) as (nd & Hn & Ef & _). exists nd. done.
    + unfold pending. rewrite Hp, El. done.
  - destruct Ha as (i & Hi & -> & -> & Hn). destruct it as [a|].
    + destruct (hit_ok (cache s) a Hc) as (c' & E & Hc' & Hg & Hpc); [destruct (Hn a eq_refl) as (nd & ? & _); eauto|].
      eapply (Hgo _ c' false);
        [unfold step; rewrite Ht; cbn -[miss unpin_on pin_hit]; rewrite Hp; cbn -[miss unpin_on pin_hit]; rewrite E; cbn; by destruct s|done|done| |].
      * split_and!; [done|done|]. exists i. split_and!; try done. intros b [= <-].
        eapply named_grows; [done|by apply Hn].
      * unfold pending. rewrite Hp, Hpc. done.
    + destruct (miss_ok (cache s) i (Some (c_ i)) Hc Hi) as (h & c' & E & Hc' & Hg & Hpc & Hh).
      eapply (Hgo _ c' false);
        [unfold step; rewrite Ht; cbn -[miss unpin_on pin_hit]; rewrite Hp; cbn -[miss unpin_on pin_hit]; rewrite E; cbn; by destruct s|done|done| |].
      * split_and!; [done|done|]. by exists i.
      * unfold pending. rewrite Hp, Hpc. done.
  - destruct Ha as (i & Hi & -> & Hn).
    eapply (Hgo _ (pin_count (cache s)) false);
      [unfold step; rewrite Ht; cbn; rewrite Hp; cbn; by destruct s|by apply CInv_counts|apply grows_counts| |].
    + split_and!; [done|done|]. cbn. destruct h as [a|]; cbn; [|done]. exists i. split_and!; try done. by apply Hn.
    + unfold pending. rewrite Hp. cbn. unfold pins. destruct h; cbn; lia.
  - destruct Ha as (i & Hi & -> & Hn). 
    eapply (Hgo _ (cache s) false); [unfold step; rewrite Ht; cbn -[check_buffer]; rewrite Hp; cbn -[check_buffer];
      rewrite (check_ok (cache s) a i Hc Hi Hn); cbn; by destruct s|done|by apply grows_nodes| |].
    + split_and!; [done|done|]. cbn. destruct Hn as (nd & ? & _). eauto.
    + unfold pending. rewrite Hp. done.
  - destruct (unpin_ok (cache s) a Hc Ha) as (bad & c' & E & Hc' & Hg & Hpc). 
    eapply (Hgo _ c' bad); [unfold step; rewrite Ht; cbn -[miss unpin_on pin_hit]; rewrite Hp; cbn -[miss unpin_on pin_hit]; rewrite E; done|done|done|done|]. unfold pending. rewrite Hp, Hpc. done.
Qed.

Lemma mayhem_step n t s s' : MInv n s → step disk t s = Some s' → MInv n s'.
Proof.
  intros Hm E. destruct (step_moves disk t s s' E) as (th & th' & Ht & _ & Hmv).
  destruct (mayhem_goes n s t th Hm Ht) as [[Ha Hl]|(s1 & E1 & Hm1)]; [|congruence].
  destruct Hmv as [(cmd & _ & E' & _)|[_ Hlt]]; [congruence|]. rewrite Ha in Hlt. cbn in Hlt. lia.
Qed.

Definition total : Z := Z.of_nat (threads_ * requests_).

Lemma requests_pins l : Forall is_request l → tally pin_cmd l = length l.
Proof. induction 1 as [|cmd l (i & _ & ->) _ IH]; cbn; [done|]. by rewrite IH. Qed.

Lemma MInv_start ls : Forall (Forall is_request) ls →
  MInv (Z.of_nat (tally length ls)) (start (make 6144) ls).
Proof.
  intros Hl. split.
  - split; try done. by apply Inv_make_cache.
  - intros t th Ht. apply list_lookup_fmap_Some in Ht as (l & -> & Hin).
    split_and!; [done| |done]. by eapply (Forall_lookup_1 _ _ _ _ Hl).
  - change (pins _) with 0%Z. cbn [threads start]. rewrite Z.add_0_l. f_equal.
    induction Hl as [|l ls Hl' _ IH]; cbn; [done|]. rewrite IH. unfold pending. cbn. by rewrite requests_pins.
Qed.

Lemma test_requests unif n : (∀ k, unif k < num_files) → Forall is_request (test unif n).
Proof. intros Hu. apply Forall_map, Forall_forall. intros k _. by exists (unif k). Qed.

Lemma mayhem_start unif : (∀ k, unif k < num_files) → MInv total (mayhem unif).
Proof.
  intros Hu. pose proof (test_requests unif requests_ Hu) as Hr.
  replace total with (Z.of_nat (tally length (replicate threads_ (test unif requests_)))).
  - apply MInv_start. by apply Forall_replicate.
  - reflexivity.
Qed.

Lemma mayhem_ends unif : (∀ k, unif k < num_files) → always_ends disk (mayhem unif) (λ s,
  (∀ t th, threads s !! t = Some th → in_error_ th = false) ∧ pins (cache s) = total).
Proof.
  intros Hu sched s E. pose proof (exec_work disk sched _ _ E). split; [lia|].
  assert (MInv total s) as Hm.
  { revert E. apply exec_invariant; [|by apply mayhem_start]. intros t s1 s2. apply mayhem_step. }
  destruct (finished_or s) as [Hf|(t & th & Ht & Hi)]; [left|right].
  - split; [done|]. split; [intros t th Ht; by apply (mi_threads _ _ Hm t th)|].
    pose proof (mi_pins _ _ Hm) as Hp. rewrite tally_none in Hp; [lia|]. intros t th Ht.
    destruct (Hf t th Ht) as [Ha Hl]. unfold pending. by rewrite Ha, Hl.
  - destruct (mayhem_goes _ s t th Hm Ht) as [?|(s' & E' & _)]; [done|eauto].
Qed.

(** The first thread has been through [1.html]; the second finds it; the first
    goes on to three other files, the last of which takes its place. *)
Definition overtaken : list nat := replicate 5 0 ++ [1] ++ replicate 15 0 ++ replicate 4 1.
Definition in_turn (k : nat) : nat := k mod num_files.
Definition evicted_under_way : state := default (mayhem in_turn) (exec (step disk) overtaken (mayhem in_turn)).

Lemma overtaken_pins_run : succeeds (step disk) overtaken (mayhem in_turn) && fatal_message evicted_under_way = true.
Proof. vm_compute. reflexivity. Qed.

(** C17. The case in which four threads pin, read and unpin five files in a cache
    that has room for three passes in every interleaving, whatever files they
    draw: each run ends, every buffer holds its own file while it is read, and
    [pins()] counts the requests.  But a file can be evicted between the look-up
    that finds it and the increment of its pin count, and then [unpin] of the
    handle that [pin] returned logs the fatal message that ends a server; the
    test, in which such messages do not end the process, does not notice. *)
Theorem mayhem_passes (unif : nat → nat) :
  (∀ k, unif k < num_files) →
  always_ends disk (mayhem unif) (λ s,
    (∀ t th, threads s !! t = Some th → in_error_ th = false) ∧ pins (cache s) = total) ∧
  ∃ sched s, exec (step disk) sched (mayhem in_turn) = Some s ∧ fatal_message s = true.
Proof.
  intros Hu. split; [by apply mayhem_ends|]. exists overtaken, evicted_under_way.
  pose proof overtaken_pins_run as Hr. apply andb_prop in Hr as [Hr Hf]. split; [|exact Hf].
  exact (exec_default _ _ _ _ Hr).
Qed.

End facts.

#[local] Instance zero_memory : Uninit := NUL.

Lemma mayhem_passes_witness :
  (∀ k, in_turn k < num_files) ∧ ∃ sched s, exec (step CacheTests.disk) sched (mayhem in_turn) = Some s ∧ fatal_message s = true.
Proof.
  assert (∀ k, in_turn k < num_files) as Hu by (intros k; unfold in_turn, num_files; apply Nat.mod_upper_bound; lia).
  split; [exact Hu|exact (proj2 (mayhem_passes in_turn Hu))].
Defined.

End Mayhem.
