(* ===== verification/AsyncClient.v ===== *)
(** * The asynchronous clients ([client_async.cpp], [kv_benchmark.cpp])

    A [Client] keeps one request going on a connection: the callback of a
    response schedules the next request, by a timer ([client_async.cpp]) or as a
    task ([kv_benchmark.cpp]).  It is a machine over [Connection.v]: its own steps
    are calls of the connection's methods, between which the connection's steps
    come in any order.  [ProgressMeter] ends the program. *)

From S2P Require Import Prelude.
From S2P Require Import Buffer.
From S2P Require Import BufferIter.
From S2P Require Import HttpParser.
From S2P Require Import Connection.
From S2P Require Import HttpConnection.
From S2P Require Import Exchange.

(** ** The progress meter *)

Module ProgressMeter.

(** [check()]: the static counter; the service is stopped, or the next check is
    put on a timer. *)
Inductive next_ := Stop | AddTimer.

Definition check (i : nat) : next_ * nat :=
  let i := S i in if decide (i = 10) then (Stop, i) else (AddTimer, i).

(** The checks that the timers make, until there is none. *)
Fixpoint checks (fuel i : nat) : list next_ :=
  match fuel with
  | 0 => []
  | S fuel =>
    let '(r, i) := check i in
    r :: match r with Stop => [] | AddTimer => checks fuel i end
  end.

(** The service is stopped once, by the tenth check, which is the last. *)
Lemma tenth_check_stops fuel : 10 ≤ fuel → checks fuel 0 = replicate 9 AddTimer ++ [Stop].
Proof.
  intros Hf. replace fuel with (10 + (fuel - 10)) by lia. generalize (fuel - 10). intros k. reflexivity.
Qed.

End ProgressMeter.

(** ** Connecting *)

Module Connect.
Import Connection.

Section connect.
Context `{Uninit}.

(** [asyncConnect(host, port, cb)], with the answer of [stopped()] and the results
    of the system calls: the callback is called with a connection, or never.
    [None]: a null pointer is used. *)
Inductive called_with := Never | CalledWith (conn : Connection).

Definition asyncConnect (stopped : bool) (sock : Z) (res : connect_result) (early : bool) (error : Z) :
    option called_with :=
  if stopped then Some Never
  else
    '(cb, c) ← connecting sock res early error;
    Some (match cb with None => Never | Some _ => CalledWith c end).

(** [connect(host, port, conn)]: [connectInternal] stores the connection and
    notifies; the call waits for that. *)
Inductive connected := Waits | Returns (conn : Connection).

Definition connectInternal (new_conn : Connection) : connected := Returns new_conn.

Definition connect (stopped : bool) (sock : Z) (res : connect_result) (early : bool) (error : Z) :
    option connected :=
  r ← asyncConnect stopped sock res early error;
  Some (match r with Never => Waits | CalledWith c => connectInternal c end).

(** [connect] returns, with a connection or an error, unless the service is
    stopped or there is no socket: then it waits for ever. *)
Lemma connect_returns stopped sock res early error :
  (stopped = true ∨ (sock < 0)%Z → connect stopped sock res early error = Some Waits) ∧
  (stopped = false → (0 <= sock)%Z → (res = Connected → error ≠ 0%Z) →
    ∃ c, connect stopped sock res early error = Some (Returns c) ∧
      (in_error_ c = true ↔ res = ConnectError ∨ error ≠ 0%Z)).
Proof.
  unfold connect, asyncConnect. split.
  - intros [->|Hs]; [done|]. destruct stopped; [done|]. unfold connecting, startConnect.
    by rewrite decide_True by done.
  - intros -> Hs Hc. pose proof (connecting_ends sock early error) as [_ He].
    destruct (He Hs) as ((c1 & E1 & _ & H1 & _) & (c2 & E2 & _ & H2 & _) & _). destruct res.
    + specialize (Hc eq_refl). unfold connecting, startConnect. rewrite decide_False by lia.
      unfold doConnect. cbn. rewrite decide_True by done. cbn. eexists. split; [done|]. cbn. naive_solver.
    + rewrite E1. cbn. eexists. split; [done|]. rewrite H1. naive_solver.
    + rewrite E2. cbn. eexists. split; [done|]. rewrite H2. naive_solver.
Qed.
End connect.
End Connect.

(** ** A client *)

Module AsyncClient.
Import Buffer.Buffer Iter Connection HttpClient.

(** Where [doRequest] was called from, and the methods of the client.  [Start]
    comes after [startRead] in [connDone]; [DoRequest], [Write] and [Release] are
    the parts of [doRequest]; [RequestDone] and [AddTimer] those of [requestDone],
    and [Back] is the rest of the loop in [readDone], with whether [it.eob()]. *)
Inductive caller := FromStart | FromTimer.

Inductive cpc :=
  | Outside
  | ConnDone | Start | ReturnConn
  | DoRequest (k : caller) | Write (k : caller) | Release (k : caller)
  | RequestDone (e : bool) | AddTimer (e : bool) | Back (e : bool).

#[export] Instance caller_eq_dec : EqDecision caller.
Proof. solve_decision. Defined.
#[export] Instance cpc_eq_dec : EqDecision cpc.
Proof. solve_decision. Defined.

(** The connection with its threads, of which the last stands for the queue of
    timers and tasks; the callbacks of [HTTPClientConnection]; where each thread is
    in the client; and the number of requests made. *)
Record state := mkState {
  net : Connection.state;
  cbs : HttpClient.client;
  prog : list cpc;
  requests : nat
}.

Definition response_cb_ : nat := 0.

Section client.
Context `{Uninit}.
Context (request : nat → Request) (queue : nat).

Definition ok (s : state) : bool := negb (in_error_ (conn (net s))).

(** A call of the connection by the thread [t], which then is at [p]. *)
Definition call (t : nat) (a : action) (p : cpc) (s : state) : option state :=
  n ← Connection.step (Act t a) (net s);
  Some (mkState n (cbs s) (<[t := p]> (prog s)) (requests s)).

Definition goto (t : nat) (p : cpc) (s : state) : state :=
  mkState (net s) (cbs s) (<[t := p]> (prog s)) (requests s).

(** A turn of the loop of [readDone], with [handleResponse]. *)
Definition readDone (t : nat) (s : state) : option state :=
  '(rc, (it, response)) ← response_in (in_ (conn (net s))) (mkResponse [] [] []);
  match rc with
  | Uncaught => None
  | Code rc =>
    if decide (rc < 0)%Z then call t (Return false) Outside s
    else if decide (rc > 0)%Z then call t (Return true) Outside s
    else
      s' ← call t (Consume (bytes_read_ it)) Outside s;
      let e := eob (in_ (conn (net s'))) it in
      let p := match response_cbs_ (cbs s) with [] => Back e | _ => RequestDone e end in
      let '(_, c) := handleResponse response (cbs s) in
      Some (mkState (net s') c (<[t := p]> (prog s)) (requests s))
  end.

(** [doRequest()] up to the release of the locks in [asyncSend]. *)
Definition doRequest (t : nat) (k : caller) (s : state) : option state :=
  if ok s then
    let r := request (requests s) in
    let '(_, c) := asyncSend r response_cb_ (cbs s) in
    s' ← call t (Append (request_ops r)) (Write k) s;
    Some (mkState (net s') c (prog s') (S (requests s)))
  else Some (goto t (Release k) s).

(** The next step of the client in the thread [t]. *)
Definition client_step (t : nat) (s : state) : option state :=
  th ← threads (net s) !! t;
  p ← prog s !! t;
  match p with
  | Outside => match at_ th with InReadDone => readDone t s | _ => None end
  | ConnDone => if ok s then call t StartRead Start s else Some (goto t Start s)
  | Start => if ok s then call t Acquire (DoRequest FromStart) s else Some (goto t ReturnConn s)
  | ReturnConn => call t (Return true) Outside s
  | DoRequest k => doRequest t k s
  | Write k => call t StartWrite (Release k) s
  | Release k => call t Connection.Release (match k with FromStart => ReturnConn | FromTimer => Outside end) s
  | RequestDone e => if ok s then call t Acquire (AddTimer e) s else Some (goto t (Back e) s)
  | AddTimer e => call t (Give queue) (Back e) s
  | Back e => if e then call t (Return true) Outside s else Some (goto t Outside s)
  end.

(** The steps of the connection itself; its callbacks run on workers that do
    nothing else. *)
Definition inner (l : label) (s : state) : bool :=
  match l with
  | Act t Go | Act t (Read _) | Act t (Connection.Write _) => true
  | Act t Take => bool_decide (prog s !! t = Some Outside ∧ t ≠ queue)
  | Act _ _ => false
  | ReadEvent | WriteEvent => true
  end.

(** A worker runs [request_cb_], scheduled before. *)
Definition fire (t : nat) (s : state) : option state :=
  th ← threads (net s) !! t;
  match at_ th with
  | Free =>
    if decide (prog s !! t = Some Outside) then
      n ← Connection.step (Act queue (Give t)) (net s);
      Some (mkState n (cbs s) (<[t := DoRequest FromTimer]> (prog s)) (requests s))
    else None
  | _ => None
  end.

Inductive clabel := Net (l : label) | Client (t : nat) | Fire (t : nat).

Definition step (l : clabel) (s : state) : option state :=
  match l with
  | Net l =>
    if inner l s then
      n ← Connection.step l (net s); Some (mkState n (cbs s) (prog s) (requests s))
    else None
  | Client t => client_step t s
  | Fire t => fire t s
  end.
End client.

(** [connDone()] is called on a connected client, in the first of [n] + 1 threads
    beside the queue. *)
Definition start (c : Connection) (n : nat) : state :=
  mkState (Connection.client c (S n)) (mkClient [] []) (ConnDone :: replicate (S n) Outside) 0.

(** *** What becomes of the one request *)

(** A thread is about to make a request, or to schedule one. *)
Definition making (p : cpc) : nat :=
  match p with ConnDone | Start | DoRequest _ | RequestDone _ | AddTimer _ => 1 | _ => 0 end.

(** The reference that a method of the client owns. *)
Definition owns (p : cpc) : nat :=
  match p with DoRequest _ | Write _ | Release _ | AddTimer _ => 1 | _ => 0 end.

(** The request callbacks in the queue of timers. *)
Definition scheduled (queue : nat) (s : state) : nat :=
  match threads (net s) !! queue with Some th => held th | None => 0 end.

(** The responses that are awaited. *)
Definition awaited (s : state) : nat := length (response_cbs_ (cbs s)).

(** ** What the connection's steps leave alone *)

Section frames.
Context `{Uninit}.
Implicit Types (n : Connection.state) (t u : nat).

(** Only the thread [t] has moved; nobody's references have changed hands. *)
Record moves_only t n n' : Prop := {
  mo_held : held <$> threads n' = held <$> threads n;
  mo_error : in_error_ (conn n') = in_error_ (conn n);
  mo_others : ∀ u, u ≠ t → threads n' !! u = threads n !! u
}.

Lemma moves_refl t n : moves_only t n n.
Proof. by split. Qed.

Lemma moves_trans t n1 n2 n3 : moves_only t n1 n2 → moves_only t n2 n3 → moves_only t n1 n3.
Proof.
  intros [A1 A2 A3] [B1 B2 B3]. split; [congruence|congruence|]. intros u Hu. rewrite B3, A3; done.
Qed.

Lemma moves_thread t n th th' :
  threads n !! t = Some th → held th' = held th → moves_only t n (set_threads (<[t := th']> (threads n)) n).
Proof.
  intros Ht Hh. split; cbn; [|done|intros u Hu; by rewrite list_lookup_insert_ne].
  rewrite (list_fmap_insert held). apply list_insert_id. by rewrite list_lookup_fmap, Ht, Hh.
Qed.

Lemma moves_go t p n : moves_only t n (go t p n).
Proof. unfold go. destruct (threads n !! t) eqn:Ht; [|apply moves_refl]. by eapply moves_thread. Qed.

Lemma moves_mark t b n : moves_only t n (mark t b n).
Proof. unfold mark. destruct (threads n !! t) eqn:Ht; [|apply moves_refl]. by eapply moves_thread. Qed.

(** The steps that do not touch the threads. *)
Lemma moves_same t n n' :
  threads n' = threads n → in_error_ (conn n') = in_error_ (conn n) → moves_only t n n'.
Proof. intros E1 E2. split; rewrite ?E1; done. Qed.

Lemma moves_desc t f n : moves_only t n (on_desc f n).
Proof.
  apply moves_same; unfold on_desc, on_io_desc; destruct (io_desc_ (conn n)) as [d|]; cbn; try done;
    by destruct (f d).
Qed.

Lemma moves_release t n : moves_only t n (do_release n).
Proof. apply moves_same; unfold do_release, release; by repeat case_decide. Qed.

Lemma moves_acquire t n : moves_only t n (do_acquire n).
Proof. by apply moves_same. Qed.

Ltac moves :=
  repeat first
    [ apply moves_refl
    | eapply moves_trans; [|solve [apply moves_go]]
    | eapply moves_trans; [|solve [apply moves_mark]]
    | eapply moves_trans; [|solve [apply moves_desc]]
    | eapply moves_trans; [|solve [apply moves_release]]
    | eapply moves_trans; [|solve [apply moves_acquire]]
    | solve [by apply moves_same] ].

Lemma moves_take t n n' : take_callback t n = Some n' → moves_only t n n'.
Proof.
  unfold take_callback. intros E. destruct (tasks n); [done|].
  repeat case_decide; try done; injection E as <-; moves.
Qed.

Lemma moves_startWrite t k n : moves_only t n (startWrite t k n).
Proof. unfold startWrite. destruct (writing_ (conn n)); moves. Qed.

Lemma moves_doWrite_size t k n : moves_only t n (doWrite_size t k n).
Proof. unfold doWrite_size. destruct (readSize _); moves. Qed.

Lemma moves_socketWrite t k size data r n n' : socketWrite t k size data r n = Some n' → moves_only t n n'.
Proof.
  unfold socketWrite. intros E. destruct r as [m| | |]; try (injection E as <-; moves).
  case_decide; [|done]. destruct (memory _ _ _); injection E as <-; moves.
Qed.

Lemma moves_doWrite_after t k size r n : moves_only t n (doWrite_after t k size r n).
Proof.
  unfold doWrite_after. destruct r as [[|m]| | |]; try moves. destruct (consume _ _); [|moves].
  cbv zeta. case_decide; moves.
Qed.

Lemma moves_doRead t r n n' : doRead t r n = Some n' → moves_only t n n'.
Proof.
  unfold doRead. intros E. destruct r as [d| | |]; [|injection E as <-; moves..].
  revert E. generalize (doRead_room (in_ (conn n))) (doRead_fill d (in_ (conn n))). intros room b E.
  destruct room, b; try case_decide; try discriminate E; injection E as <-; moves.
Qed.

Lemma moves_proceed t a p n n' : proceed t a p n = Some n' → moves_only t n n'.
Proof.
  intros E. destruct p, a; cbn [proceed] in E; try discriminate E;
    first [exact (moves_take _ _ _ E)|exact (moves_socketWrite _ _ _ _ _ _ _ E)
          |exact (moves_doRead _ _ _ _ E)|injection E as <-];
    first [apply moves_startWrite|apply moves_doWrite_size|apply moves_doWrite_after|moves].
Qed.

(** The calls that do not hand references over. *)
Definition plain (a : action) : bool :=
  match a with Acquire | Connection.Release | Give _ => false | _ => true end.

Lemma moves_use t a k th n n' : plain a = true → use t a k th n = Some n' → moves_only t n n'.
Proof.
  intros Hp E. destruct a as [| |u|os| | |m|more| | |r|r]; try discriminate Hp;
    destruct k; cbn [use] in E; try discriminate E; repeat (case_match; try discriminate E);
    first [exact (moves_take _ _ _ E)|injection E as <-; first [solve [moves]|eapply moves_trans; [apply moves_go|by apply moves_same]]].
Qed.

Lemma moves_fault t n n' : moves_only t n n' → moves_only t n (if deleted n then set_fault n' else n').
Proof. intros Hm. destruct (deleted n); [|done]. eapply moves_trans; [exact Hm|by apply moves_same]. Qed.

Lemma moves_step t a n n' : plain a = true → Connection.step (Act t a) n = Some n' → moves_only t n n'.
Proof.
  intros Hp E. cbn [Connection.step] in E. destruct (threads n !! t) as [th|]; cbn [mbind option_bind] in E; [|done].
  destruct (may_use th) as [k|].
  - destruct (use t a k th n) as [n1|] eqn:E1; cbn [mbind option_bind] in E; [|done]. injection E as <-.
    apply moves_fault. by eapply moves_use.
  - destruct (proceed t a (at_ th) n) as [n1|] eqn:E1; cbn [mbind option_bind] in E; [|done]. injection E as <-.
    apply moves_fault. by eapply moves_proceed.
Qed.

(** What the calls that hand references over do. *)
Lemma step_live t a n n' : Inv n' → Connection.step (Act t a) n = Some n' → ∃ th,
  threads n !! t = Some th ∧
  match may_use th with Some k => use t a k th n | None => proceed t a (at_ th) n end = Some n'.
Proof.
  intros Hi E. cbn [Connection.step] in E. destruct (threads n !! t) as [th|]; cbn [mbind option_bind] in E; [|done].
  exists th. split; [done|]. destruct (may_use th) as [k|].
  - destruct (use t a k th n) as [n1|]; cbn [mbind option_bind] in E; [|done]. destruct (deleted n); [|done].
    injection E as <-. pose proof (i_fault _ Hi) as Hf. discriminate Hf.
  - destruct (proceed t a (at_ th) n) as [n1|]; cbn [mbind option_bind] in E; [|done]. destruct (deleted n); [|done].
    injection E as <-. pose proof (i_fault _ Hi) as Hf. discriminate Hf.
Qed.

(** A call of the users is made between the connection's methods. *)
Definition user (a : action) : bool :=
  match a with Go | Take | Read _ | Connection.Write _ => false | _ => true end.

Lemma user_step t a n n' : user a = true → Inv n' → Connection.step (Act t a) n = Some n' →
  ∃ th k, threads n !! t = Some th ∧ may_use th = Some k ∧ use t a k th n = Some n'.
Proof.
  intros Ha Hi E. destruct (step_live t a n n' Hi E) as (th & Ht & E1). destruct (may_use th) as [k|] eqn:Hk; [eauto|].
  by destruct (at_ th), a.
Qed.

Lemma release_error n : in_error_ (conn (do_release n)) = in_error_ (conn n).
Proof. unfold do_release, release. by repeat case_decide. Qed.

Lemma release_threads n : threads (do_release n) = threads n.
Proof. unfold do_release, release. by repeat case_decide. Qed.

Lemma hold_eq' t x n th : threads n !! t = Some th →
  hold t x n = set_threads (<[t := mkThread (at_ th) x (dirty th)]> (threads n)) n.
Proof. intros Ht. unfold hold. by rewrite Ht. Qed.

Lemma acquire_step t n n' : Inv n' → Connection.step (Act t Acquire) n = Some n' → ∃ th,
  threads n !! t = Some th ∧ threads n' = <[t := mkThread (at_ th) (S (held th)) (dirty th)]> (threads n) ∧
  in_error_ (conn n') = in_error_ (conn n).
Proof.
  intros Hi E. destruct (user_step t Acquire n n' eq_refl Hi E) as (th & k & Ht & _ & E1). exists th. split; [done|].
  cbn in E1. injection E1 as <-. by rewrite (hold_eq' _ _ _ th) by done.
Qed.

Lemma release_step t n n' : Inv n' → Connection.step (Act t Connection.Release) n = Some n' → ∃ th,
  threads n !! t = Some th ∧ threads n' = <[t := mkThread (at_ th) (held th - 1) (dirty th)]> (threads n) ∧
  in_error_ (conn n') = in_error_ (conn n).
Proof.
  intros Hi E. destruct (user_step t Connection.Release n n' eq_refl Hi E) as (th & k & Ht & _ & E1). exists th. split; [done|].
  cbn [use] in E1. case_decide; [|done]. injection E1 as <-.
  rewrite (hold_eq' t _ (do_release n) th) by (by rewrite release_threads).
  cbn [threads set_threads conn]. by rewrite release_threads, release_error.
Qed.

Lemma give_step t u n n' : Inv n' → Connection.step (Act t (Give u)) n = Some n' → ∃ th th',
  t ≠ u ∧ 0 < held th ∧ threads n !! t = Some th ∧ threads n !! u = Some th' ∧
  threads n' = <[t := mkThread (at_ th) (held th - 1) (dirty th)]>
                 (<[u := mkThread (at_ th') (S (held th')) (dirty th')]> (threads n)) ∧
  in_error_ (conn n') = in_error_ (conn n).
Proof.
  intros Hi E. destruct (user_step t (Give u) n n' eq_refl Hi E) as (th & k & Ht & _ & E1). cbn [use] in E1.
  case_decide as Hd; [|done]. destruct Hd as [Hd Hne]. destruct (threads n !! u) as [th'|] eqn:Hu; [|done]. cbn in E1. injection E1 as <-.
  exists th, th'. split_and!; try done; rewrite (hold_eq' u _ n th') by done.
  - rewrite (hold_eq' t _ _ th); [done|]. cbn. by rewrite list_lookup_insert_ne by done.
  - rewrite (hold_eq' t _ _ th); [done|]. cbn. by rewrite list_lookup_insert_ne by done.
Qed.

Lemma startRead_step t n n' : Inv n' → Connection.step (Act t StartRead) n = Some n' → ∃ th',
  threads n' !! t = Some th' ∧ at_ th' = StartRead_acquire ToConnDone.
Proof.
  intros Hi E. destruct (user_step t StartRead n n' eq_refl Hi E) as (th & k & Ht & _ & E1). destruct k; try done.
  cbn [use] in E1. destruct (reading n); [done|]. injection E1 as <-. unfold go. rewrite Ht. cbn.
  rewrite list_lookup_insert_eq by (by eapply lookup_lt_Some). eauto.
Qed.

Lemma consume_step t m n n' : Inv n' → Connection.step (Act t (Consume m)) n = Some n' → ∃ th,
  threads n' !! t = Some th ∧ at_ th = InReadDone.
Proof.
  intros Hi E. destruct (user_step t (Consume m) n n' eq_refl Hi E) as (th & k & Ht & Hk & E1). destruct k; try done.
  cbn [use] in E1. assert (threads n' = threads n) as Et.
  { destruct (consume m (in_ (conn n))); injection E1 as <-; done. }
  exists th. rewrite Et. split; [done|]. unfold may_use in Hk. destruct (at_ th); try done. by case_decide.
Qed.

End frames.

(** ** The invariant *)

Section invariant.
Context `{Uninit}.
Context (request : nat → Request) (queue : nat).

(** Where the thread is in the connection. *)
Definition at_ok (p : cpc) (a : pc) : Prop :=
  match p with
  | ConnDone => a = InConnDone
  | Start => a = StartRead_acquire ToConnDone ∨ a = StartRead_ready ToConnDone ∨ a = InConnDone
  | RequestDone _ => a = InReadDone
  | _ => True
  end.

Definition sent_bytes (k : nat) : bytes := queue_ops [] (request_ops (request k)).

Record W (s : state) : Prop := {
  w_inv : Inv (net s);
  w_len : length (prog s) = length (threads (net s));
  w_ok : in_error_ (conn (net s)) = false;
  w_queue : ∃ th, threads (net s) !! queue = Some th ∧ at_ th = Free;
  w_outside : prog s !! queue = Some Outside;
  w_held : ∀ t th p, t ≠ queue → threads (net s) !! t = Some th → prog s !! t = Some p → held th = owns p;
  w_at : ∀ t th p, threads (net s) !! t = Some th → prog s !! t = Some p → at_ok p (at_ th);
  w_one : tally making (prog s) + scheduled queue s + awaited s = 1;
  w_count : requests s = length (called (cbs s)) + awaited s;
  w_bytes : appended (net s) = concat (map sent_bytes (seq 0 (requests s)))
}.

(** A step of one thread, perhaps with a reference to or from the queue. *)
Lemma W_step s s' t p p' : W s → prog s !! t = Some p → t ≠ queue →
  Inv (net s') → in_error_ (conn (net s')) = in_error_ (conn (net s)) →
  prog s' = <[t := p']> (prog s) → length (threads (net s')) = length (threads (net s)) →
  (∀ u, u ≠ t → u ≠ queue → threads (net s') !! u = threads (net s) !! u) →
  (∃ th, threads (net s') !! queue = Some th ∧ at_ th = Free) →
  (∀ th, threads (net s') !! t = Some th → held th = owns p' ∧ at_ok p' (at_ th)) →
  making p' + scheduled queue s' + awaited s' = making p + scheduled queue s + awaited s →
  requests s' = length (called (cbs s')) + awaited s' →
  appended (net s') = concat (map sent_bytes (seq 0 (requests s'))) → W s'.
Proof.
  intros Hw Hp Hne Hi Ho Ep Hln Hu Hq Ht H1 Hc Hb. split; try done.
  - rewrite Ep, length_insert, Hln. apply Hw.
  - rewrite Ho. apply Hw.
  - rewrite Ep, list_lookup_insert_ne by done. apply Hw.
  - intros u th q Huq Hth Hpu. rewrite Ep in Hpu. apply list_lookup_insert_Some in Hpu.
    destruct Hpu as [(-> & -> & _)|[Hut Hpu]]; [by apply Ht|]. rewrite Hu in Hth by done. by eapply (w_held _ Hw).
  - intros u th q Hth Hpu. rewrite Ep in Hpu. apply list_lookup_insert_Some in Hpu.
    destruct Hpu as [(-> & -> & _)|[Hut Hpu]]; [by apply Ht|]. destruct (decide (u = queue)) as [->|Huq].
    + rewrite (w_outside _ Hw) in Hpu. by injection Hpu as <-.
    + rewrite Hu in Hth by done. by eapply (w_at _ Hw).
  - rewrite Ep. pose proof (tally_insert making _ _ _ p' Hp). pose proof (w_one _ Hw). lia.
Qed.

(** A call that hands nothing over. *)
Lemma W_plain s t a p p' n c r : W s → prog s !! t = Some p → t ≠ queue → plain a = true →
  ok_label (Act t a) → Connection.step (Act t a) (net s) = Some n → owns p' = owns p →
  (∀ th, threads n !! t = Some th → at_ok p' (at_ th)) →
  making p' + length (response_cbs_ c) = making p + awaited s →
  r = length (called c) + length (response_cbs_ c) →
  concat (map sent_bytes (seq 0 (requests s))) ++ appended_by (Act t a) = concat (map sent_bytes (seq 0 r)) →
  W (mkState n c (<[t := p']> (prog s)) r).
Proof.
  intros Hw Hp Hne Hpl Hok E Ho Hat H1 Hc Hb.
  assert (Inv n) as Hi by (by eapply Inv_step_conn; [| |exact E]; [done|apply Hw]).
  destruct (moves_step t a _ n Hpl E) as [Hh He Hu].
  assert (∀ u, held <$> threads n !! u = held <$> threads (net s) !! u) as Hhu.
  { intros u. by rewrite <- !list_lookup_fmap, Hh. }
  eapply (W_step s _ t p p'); cbn [net prog cbs requests]; try done.
  - by apply (f_equal length) in Hh; rewrite !length_fmap in Hh.
  - by intros u Hut _; apply Hu.
  - destruct (w_queue _ Hw) as (th & Hq & Ha). exists th. by rewrite Hu.
  - intros th Hth. split; [|by apply Hat]. specialize (Hhu t). rewrite Hth in Hhu.
    destruct (threads (net s) !! t) as [th0|] eqn:Ht0; [|done]. injection Hhu as ->.
    rewrite Ho. by eapply (w_held _ Hw).
  - unfold scheduled, awaited in *. cbn. rewrite (Hu queue) by done. lia.
  - rewrite (step_appended _ _ _ E) by apply Hi. by rewrite (w_bytes _ Hw).
Qed.

Lemma W_call s s' t a p p' : W s → prog s !! t = Some p → t ≠ queue → plain a = true →
  ok_label (Act t a) → appended_by (Act t a) = [] → call t a p' s = Some s' → owns p' = owns p →
  (∀ n th, Inv n → Connection.step (Act t a) (net s) = Some n → threads n !! t = Some th → at_ok p' (at_ th)) →
  making p' = making p → W s'.
Proof.
  intros Hw Hp Hne Hpl Hok Ha E Ho Hat Hm. unfold call in E.
  destruct (Connection.step (Act t a) (net s)) as [n|] eqn:En; cbn in E; [|done]. injection E as <-.
  assert (Inv n) as Hi by (by eapply Inv_step_conn; [| |exact En]; [done|apply Hw]).
  eapply W_plain; try done; [intros th; exact (Hat n th Hi eq_refl)|unfold awaited; lia|by apply (w_count _ Hw)|by rewrite Ha, app_nil_r].
Qed.

Lemma W_goto s t p p' : W s → prog s !! t = Some p → t ≠ queue → owns p' = owns p → making p' = making p →
  (∀ th, threads (net s) !! t = Some th → at_ok p' (at_ th)) → W (goto t p' s).
Proof.
  intros Hw Hp Hne Ho Hm Hat. eapply (W_step s _ t p p'); cbn [net prog cbs requests goto]; try done.
  - apply Hw.
  - apply Hw.
  - intros th Hth. split; [|by apply Hat]. rewrite Ho. by eapply (w_held _ Hw).
  - unfold scheduled, awaited. cbn. lia.
  - apply Hw.
  - apply Hw.
Qed.

(** A step of the connection itself. *)
Lemma inner_at t a p n n' th th' : Inv n' → inner queue (Act t a) (mkState n (mkClient [] []) p 0) = true →
  ∀ q, p !! t = Some q → Connection.step (Act t a) n = Some n' →
  threads n !! t = Some th → threads n' !! t = Some th' → at_ok q (at_ th) → at_ok q (at_ th').
Proof.
  intros Hi Hin q Hq E Ht Ht' Hat. destruct (step_live t a n n' Hi E) as (x & Hx & E1).
  rewrite Ht in Hx. injection Hx as <-. assert (q = Outside ∨ a ≠ Take) as Htk.
  { destruct a; try (right; congruence). left. cbn in Hin. apply bool_decide_eq_true in Hin as [Hin _]. congruence. }
  assert (∀ k, may_use th = Some k → q = Outside) as Hm.
  { intros k Hk. rewrite Hk in E1. destruct Htk as [->|Htk]; [done|]. by destruct a, k. }
  assert (∀ pc', n' = go t pc' n → at_ th' = pc') as Hgo.
  { intros pc' ->. unfold go in Ht'. rewrite Ht in Ht'. cbn in Ht'.
    rewrite list_lookup_insert_eq in Ht' by (by eapply lookup_lt_Some). by injection Ht' as <-. }
  destruct q; try done; cbn in Hat |- *.
  - unfold may_use in Hm. rewrite Hat in Hm. by specialize (Hm _ eq_refl).
  - destruct Hat as [Hat|[Hat|Hat]].
    + unfold may_use in E1. rewrite Hat in E1. destruct a; try done. cbn in E1. injection E1 as <-. right; left.
      unfold go in Ht'. cbn in Ht'. rewrite Ht in Ht'. cbn in Ht'.
      rewrite list_lookup_insert_eq in Ht' by (by eapply lookup_lt_Some). by injection Ht' as <-.
    + unfold may_use in E1. rewrite Hat in E1. destruct a; try done. cbn in E1. injection E1 as <-. right; right.
      pose proof (λ f, mo_others _ _ _ (moves_desc (S t) f n) t ltac:(lia)) as Hd.
      unfold go in Ht'. rewrite Hd, Ht in Ht'. cbn in Ht'.
      rewrite list_lookup_insert_eq in Ht' by (rewrite Hd || idtac; apply lookup_lt_is_Some; rewrite Hd; eauto).
      by injection Ht' as <-.
    + unfold may_use in Hm. rewrite Hat in Hm. by specialize (Hm _ eq_refl).
  - unfold may_use in Hm. rewrite Hat in Hm. by specialize (Hm _ eq_refl).
Qed.

Lemma W_net s l n : W s → inner queue l s = true → Connection.step l (net s) = Some n →
  W (mkState n (cbs s) (prog s) (requests s)).
Proof.
  intros Hw Hin E. assert (ok_label l) as Hok by (destruct l as [t []| |]; done).
  assert (appended_by l = []) as Hap by (destruct l as [t []| |]; done).
  assert (Inv n) as Hi by (by eapply Inv_step_conn; [| |exact E]; [done|apply Hw]).
  assert (appended n = concat (map sent_bytes (seq 0 (requests s)))) as Hb.
  { rewrite (step_appended _ _ _ E) by apply Hi. by rewrite Hap, app_nil_r, (w_bytes _ Hw). }
  destruct l as [t a| |].
  2-3: assert (moves_only 0 (net s) n ∧ threads n = threads (net s)) as [[_ He _] Et];
    [cbn in E; destruct (deleted (net s)); [done|]; injection E as <-; split; [apply moves_desc|];
     unfold on_desc; by destruct (on_io_desc _ _) as [[] |]|];
    destruct Hw as [w1 w0 w2 w3 w4 w5 w6 w7 w8 w9]; split; unfold scheduled; cbn; rewrite ?Et; try done; congruence.
  assert (plain a = true) as Hpl by (by destruct a).
  destruct (moves_step t a _ n Hpl E) as [Hh He Hu].
  destruct (step_live t a (net s) n Hi E) as (th & Ht & E1).
  assert (t ≠ queue) as Hne.
  { intros ->. destruct (w_queue _ Hw) as (x & Hx & Hfree). rewrite Ht in Hx. injection Hx as <-.
    unfold may_use in E1. rewrite Hfree in E1. destruct a; try done; [cbn in Hin; by apply bool_decide_eq_true in Hin as [_ ?]|..];
      by case_decide. }
  assert (∀ u x, threads n !! u = Some x → ∃ y, threads (net s) !! u = Some y ∧ held x = held y) as Hhu.
  { intros u x Hx. assert (held <$> threads n !! u = held <$> threads (net s) !! u) as Hq by (by rewrite <- !list_lookup_fmap, Hh).
    rewrite Hx in Hq. destruct (threads (net s) !! u) as [y|]; [|done]. injection Hq as Hq. eauto. }
  destruct Hw as [w1 w0 w2 w3 w4 w5 w6 w7 w8 w9]. split; cbn; try done.
  - apply (f_equal length) in Hh. rewrite !length_fmap in Hh. congruence.
  - congruence.
  - rewrite Hu by done. done.
  - intros u x p Huq Hx Hp. destruct (Hhu u x Hx) as (y & Hy & ->). by eapply w5.
  - intros u x p Hx Hp. destruct (decide (u = t)) as [->|Hut].
    + eapply (inner_at t a (prog s) (net s) n); try done. by eapply w6.
    + rewrite Hu in Hx by done. by eapply w6.
  - unfold scheduled. cbn. rewrite (Hu queue) by done. done.
Qed.

(** A call of [acquire()] or [release()]. *)
Lemma W_refs s t p p' n th x : W s → prog s !! t = Some p → t ≠ queue → Inv n →
  threads (net s) !! t = Some th → threads n = <[t := mkThread (at_ th) x (dirty th)]> (threads (net s)) →
  in_error_ (conn n) = in_error_ (conn (net s)) → appended n = appended (net s) →
  x = owns p' → (∀ a, at_ok p' a) → making p' = making p →
  W (mkState n (cbs s) (<[t := p']> (prog s)) (requests s)).
Proof.
  intros Hw Hp Hne Hi Ht Et He Ea Hx Hat Hm. eapply (W_step s _ t p p'); cbn [net prog cbs requests]; try done.
  - by rewrite Et, length_insert.
  - intros u Hut _. by rewrite Et, list_lookup_insert_ne.
  - destruct (w_queue _ Hw) as (y & Hy & Hf). exists y. by rewrite Et, list_lookup_insert_ne.
  - intros y Hy. rewrite Et, list_lookup_insert_eq in Hy by (by eapply lookup_lt_Some). by injection Hy as <-.
  - unfold scheduled, awaited. cbn. rewrite Et, list_lookup_insert_ne by done. lia.
  - apply Hw.
  - rewrite Ea. apply Hw.
Qed.

Lemma ok_true s : W s → ok s = true.
Proof. intros Hw. unfold ok. by rewrite (w_ok _ Hw). Qed.

Lemma next_inv s t a n : W s → ok_label (Act t a) → Connection.step (Act t a) (net s) = Some n →
  Inv n ∧ appended n = appended (net s) ++ appended_by (Act t a).
Proof.
  intros Hw Hok E. assert (Inv n) as Hi by (by eapply Inv_step_conn; [| |exact E]; [done|apply Hw]).
  split; [done|]. by apply step_appended; [|apply Hi].
Qed.

Lemma W_acquire s s' t p p' : W s → prog s !! t = Some p → t ≠ queue → call t Acquire p' s = Some s' →
  owns p = 0 → owns p' = 1 → (∀ a, at_ok p' a) → making p' = making p → W s'.
Proof.
  intros Hw Hp Hne E Ho Ho' Hat Hm. unfold call in E.
  destruct (Connection.step (Act t Acquire) (net s)) as [n|] eqn:En; cbn [mbind option_bind] in E; [|done]. injection E as <-.
  destruct (next_inv s t Acquire n Hw I En) as [Hi Ha]. rewrite app_nil_r in Ha.
  destruct (acquire_step t (net s) n Hi En) as (th & Ht & Et & He).
  eapply W_refs; try done. pose proof (w_held _ Hw t th p Hne Ht Hp). lia.
Qed.

Lemma W_release s s' t p p' : W s → prog s !! t = Some p → t ≠ queue → call t Connection.Release p' s = Some s' →
  owns p = 1 → owns p' = 0 → (∀ a, at_ok p' a) → making p' = making p → W s'.
Proof.
  intros Hw Hp Hne E Ho Ho' Hat Hm. unfold call in E.
  destruct (Connection.step (Act t Connection.Release) (net s)) as [n|] eqn:En; cbn [mbind option_bind] in E; [|done]. injection E as <-.
  destruct (next_inv s t Connection.Release n Hw I En) as [Hi Ha]. rewrite app_nil_r in Ha.
  destruct (release_step t (net s) n Hi En) as (th & Ht & Et & He).
  eapply W_refs; try done. pose proof (w_held _ Hw t th p Hne Ht Hp). lia.
Qed.

(** [addTimer]: the reference goes to the queue. *)
Lemma W_schedule s s' t e : W s → prog s !! t = Some (AddTimer e) → t ≠ queue →
  call t (Give queue) (Back e) s = Some s' → W s'.
Proof.
  intros Hw Hp Hne E. unfold call in E.
  destruct (Connection.step (Act t (Give queue)) (net s)) as [n|] eqn:En; cbn [mbind option_bind] in E; [|done]. injection E as <-.
  destruct (next_inv s t (Give queue) n Hw I En) as [Hi Ha]. rewrite app_nil_r in Ha.
  destruct (give_step t queue (net s) n Hi En) as (th & thq & _ & Hpos & Ht & Hq & Et & He).
  pose proof (w_held _ Hw t th _ Hne Ht Hp) as Hh. cbn in Hh.
  assert (threads n !! queue = Some (mkThread (at_ thq) (S (held thq)) (dirty thq))) as Hq'.
  { rewrite Et, list_lookup_insert_ne, list_lookup_insert_eq by (done || by eapply lookup_lt_Some). done. }
  eapply (W_step s _ t (AddTimer e) (Back e)); cbn [net prog cbs requests]; try done.
  - by rewrite Et, !length_insert.
  - intros u Hut Huq. by rewrite Et, !list_lookup_insert_ne.
  - destruct (w_queue _ Hw) as (y & Hy & Hf). rewrite Hq in Hy. injection Hy as <-. eauto.
  - intros y Hy. rewrite Et, list_lookup_insert_eq in Hy by (rewrite length_insert; by eapply lookup_lt_Some).
    injection Hy as <-. cbn. split; [lia|done].
  - unfold scheduled, awaited. cbn. rewrite Hq', Hq. cbn. lia.
  - apply Hw.
  - rewrite Ha. apply Hw.
Qed.

(** A worker runs the callback and takes the reference over. *)
Lemma W_fire s s' t : W s → fire queue t s = Some s' → W s'.
Proof.
  intros Hw E. unfold fire in E. destruct (threads (net s) !! t) as [th0|] eqn:Ht0; cbn [mbind option_bind] in E; [|done].
  destruct (at_ th0); try done. destruct (decide (prog s !! t = Some Outside)) as [Hp|]; [|done].
  destruct (Connection.step (Act queue (Give t)) (net s)) as [n|] eqn:En; cbn [mbind option_bind] in E; [|done]. injection E as <-.
  destruct (next_inv s queue (Give t) n Hw I En) as [Hi Ha]. rewrite app_nil_r in Ha.
  destruct (give_step queue t (net s) n Hi En) as (thq & th & Hne & Hpos & Hq & Ht & Et & He).
  assert (t ≠ queue) as Hne' by done. pose proof (w_held _ Hw t th _ Hne' Ht Hp) as Hh. cbn in Hh.
  assert (threads n !! queue = Some (mkThread (at_ thq) (held thq - 1) (dirty thq))) as Hq'.
  { rewrite Et, list_lookup_insert_eq by (rewrite length_insert; by eapply lookup_lt_Some). done. }
  eapply (W_step s _ t Outside (DoRequest FromTimer)); cbn [net prog cbs requests]; try done.
  - by rewrite Et, !length_insert.
  - intros u Hut Huq. by rewrite Et, !list_lookup_insert_ne.
  - destruct (w_queue _ Hw) as (y & Hy & Hf). rewrite Hq in Hy. injection Hy as <-. eauto.
  - intros y Hy. rewrite Et, list_lookup_insert_ne, list_lookup_insert_eq in Hy by (done || by eapply lookup_lt_Some).
    injection Hy as <-. cbn. split; [lia|done].
  - unfold scheduled, awaited. cbn. rewrite Hq', Hq. cbn. lia.
  - apply Hw.
  - rewrite Ha. apply Hw.
Qed.

Lemma W_doRequest s s' t k : W s → prog s !! t = Some (DoRequest k) → t ≠ queue →
  doRequest request t k s = Some s' → W s'.
Proof.
  intros Hw Hp Hne E. unfold doRequest in E. rewrite ok_true in E by done. cbn [asyncSend] in E. unfold call in E.
  destruct (Connection.step (Act t (Append (request_ops (request (requests s))))) (net s)) as [n|] eqn:En;
    cbn [mbind option_bind] in E; [|done]. injection E as <-.
  cbn [net prog].
  eapply W_plain; [exact Hw|exact Hp|exact Hne| | |exact En|done|done|..]; [done|apply (puts_are_writes [_; _; _; _; _; _])|..].
  - cbn. rewrite length_app. unfold awaited. cbn. lia.
  - cbn. rewrite length_app, (w_count _ Hw). unfold awaited. cbn. lia.
  - rewrite seq_S, map_app, concat_app. cbn. by rewrite app_nil_r.
Qed.

Ltac w_call := eapply W_call; [eassumption|eassumption|assumption| | | |eassumption|..]; try done.

Lemma W_readDone s s' t : W s → prog s !! t = Some Outside → t ≠ queue → readDone t s = Some s' → W s'.
Proof.
  intros Hw Hp Hne E. unfold readDone in E.
  destruct (response_in (in_ (conn (net s))) (mkResponse [] [] [])) as [[rc [it response]]|]; cbn [mbind option_bind] in E; [|done].
  destruct rc as [rc|]; [|done]. case_decide; [by w_call|]. case_decide; [by w_call|].
  unfold call in E.
  destruct (Connection.step (Act t (Consume (bytes_read_ it))) (net s)) as [n|] eqn:En; cbn [mbind option_bind] in E; [|done].
  destruct (next_inv s t (Consume (bytes_read_ it)) n Hw I En) as [Hi _].
  destruct (consume_step t _ (net s) n Hi En) as (th & Ht & Hat).
  pose proof (w_count _ Hw) as Hc. unfold awaited in Hc. unfold handleResponse in E.
  destruct (response_cbs_ (cbs s)) as [|cb l] eqn:El; cbn [net] in E; injection E as <-;
    (eapply W_plain; [exact Hw|exact Hp|exact Hne| | |exact En|done|..]); try done;
    cbn; unfold awaited; rewrite ?El, ?app_nil_r; try done.
  - intros x Hx. congruence.
  - rewrite Hc, length_app. cbn. lia.
Qed.

Lemma W_client s s' t : W s → client_step request queue t s = Some s' → W s'.
Proof.
  intros Hw E. unfold client_step in E.
  destruct (threads (net s) !! t) as [th|] eqn:Ht; cbn [mbind option_bind] in E; [|done].
  destruct (prog s !! t) as [p|] eqn:Hp; cbn [mbind option_bind] in E; [|done].
  assert (t ≠ queue) as Hne.
  { intros ->. destruct (w_queue _ Hw) as (y & Hy & Hf). rewrite Ht in Hy. injection Hy as <-.
    rewrite (w_outside _ Hw) in Hp. injection Hp as <-. by rewrite Hf in E. }
  rewrite ?ok_true in E by done. destruct p as [| | | |k|k|k|e|e|e].
  - destruct (at_ th); try done. by eapply W_readDone.
  - w_call. intros n x Hi En Hx. destruct (startRead_step t _ n Hi En) as (y & Hy & Ha).
    rewrite Hx in Hy. injection Hy as <-. by left.
  - by eapply (W_acquire s s' t Start (DoRequest FromStart)).
  - by w_call.
  - by eapply W_doRequest.
  - by w_call.
  - eapply (W_release s s' t); try done; by destruct k.
  - by eapply (W_acquire s s' t (RequestDone e) (AddTimer e)).
  - by eapply W_schedule.
  - destruct e; [by w_call|]. injection E as <-. by eapply W_goto.
Qed.

Lemma W_step_any l s s' : W s → step request queue l s = Some s' → W s'.
Proof.
  intros Hw E. destruct l as [l|t|t]; cbn [step] in E; [|by eapply W_client|by eapply W_fire].
  destruct (inner queue l s) eqn:Hin; [|done].
  destruct (Connection.step l (net s)) as [n|] eqn:En; cbn [mbind option_bind] in E; [|done]. injection E as <-.
  by eapply W_net.
Qed.

Lemma W_exec sched s s' : W s → exec (step request queue) sched s = Some s' → W s'.
Proof. intros Hw E. eapply exec_invariant; [|exact Hw|exact E]. intros l s1 s2. apply W_step_any. Qed.

(** A connection that was deleted: nobody has a reference any more. *)
Lemma deleted_unreferenced n : Inv n → deleted n = true → ∀ t th, threads n !! t = Some th → refs_of th = 0.
Proof.
  intros Hi Hd t th Ht. pose proof (i_deleted _ Hi Hd) as Hz. rewrite (i_refs _ Hi) in Hz.
  pose proof (tally_le refs_of _ _ _ Ht). lia.
Qed.

Lemma deleted_awaited s : W s → deleted (net s) = true → awaited s = 1.
Proof.
  intros Hw Hd. pose proof (w_len _ Hw) as Hlen. pose proof (deleted_unreferenced _ (w_inv _ Hw) Hd) as Hr. pose proof (w_one _ Hw) as H1.
  assert (scheduled queue s = 0) as Hs.
  { unfold scheduled. destruct (w_queue _ Hw) as (th & Hq & Ha). rewrite Hq.
    specialize (Hr _ _ Hq). unfold refs_of in Hr. lia. }
  assert (tally making (prog s) = 0) as Hm; [|lia].
  destruct (decide (tally making (prog s) = 0)) as [|Hn]; [done|].
  destruct (tally_ex making (prog s)) as (t & p & Hp & Hpos); [lia|].
  destruct (lookup_lt_is_Some_2 (threads (net s)) t) as [th Ht]; [rewrite <- Hlen; by eapply lookup_lt_Some|].
  specialize (Hr _ _ Ht). unfold refs_of in Hr. pose proof (w_at _ Hw t th p Ht Hp) as Hat.
  destruct (decide (t = queue)) as [->|Hne].
  { rewrite (w_outside _ Hw) in Hp. injection Hp as <-. cbn in Hpos. lia. }
  pose proof (w_held _ Hw t th p Hne Ht Hp) as Hh. destruct p; cbn in *; try lia.
  - rewrite Hat in Hr. cbn in Hr. lia.
  - destruct Hat as [Hat|[Hat|Hat]]; rewrite Hat in Hr; cbn in Hr; lia.
  - rewrite Hat in Hr. cbn in Hr. lia.
Qed.

End invariant.

(** *** The property *)

Section property.
Context `{Uninit}.

Lemma W_start request sock early n c :
  (0 <= sock)%Z → connecting sock InProgress early 0 = Some (Some doConnect_cb, c) →
  W request (S n) (start c n).
Proof.
  intros Hs Hc. pose proof (proj1 (Inv_initial_conn _ (initial_client sock early (S n) c Hs Hc))) as Hi.
  destruct (connecting_ready sock early Hs) as (c' & Hc' & _ & _ & _ & _ & He & _). rewrite Hc in Hc'. injection Hc' as <-.
  assert (∀ t p, (ConnDone :: replicate (S n) Outside) !! t = Some p → t ≠ 0 → p = Outside) as Hp.
  { intros [|t] p Hp Ht; [done|]. by apply lookup_replicate in Hp as [-> _]. }
  assert (threads (net (start c n)) !! S n = Some (mkThread Free 0 false)) as Hq.
  { cbn [start net Connection.client Connection.start threads lookup list_lookup]. apply lookup_replicate_2. lia. }
  split; try done.
  - cbn. by rewrite !length_replicate.
  - eexists. split; [exact Hq|done].
  - cbn [start prog lookup list_lookup]. apply lookup_replicate_2. lia.
  - intros [|t] th p _ Ht Hpt; cbn [start net prog Connection.client Connection.start threads lookup list_lookup] in Ht, Hpt.
    + by simplify_eq.
    + apply lookup_replicate in Ht as [-> _]. by apply lookup_replicate in Hpt as [-> _].
  - intros [|t] th p Ht Hpt; cbn [start net prog Connection.client Connection.start threads lookup list_lookup] in Ht, Hpt.
    + by simplify_eq.
    + by apply lookup_replicate in Hpt as [-> _].
  - unfold scheduled. rewrite Hq. cbn. assert (∀ m, tally making (replicate m Outside) = 0) as Hz by (induction m; done).
    by rewrite Hz.
Qed.

(** C20. A client on a connection that went through, whose workers interleave in
    any way with the timers and the events of the socket: the connection is not
    used after its deletion; there is at any time exactly one request, which is
    being made, or awaits its response, or is scheduled; what was written is the
    requests one after the other, one more than were answered unless the next is
    not made yet.  But when the connection is deleted, as it is after the server
    closed it or sent nonsense, the last request still awaits its response: its
    callback is not called, and the client is not told. *)
Theorem async_client_one_request request sock early n c sched s :
  (0 <= sock)%Z → connecting sock InProgress early 0 = Some (Some doConnect_cb, c) →
  exec (step request (S n)) sched (start c n) = Some s →
  fault (net s) = false ∧
  tally making (prog s) + scheduled (S n) s + awaited s = 1 ∧
  requests s = length (called (cbs s)) + awaited s ∧
  appended (net s) = concat (map (sent_bytes request) (seq 0 (requests s))) ∧
  (deleted (net s) = true → awaited s = 1).
Proof.
  intros Hs Hc E. pose proof (W_exec _ _ _ _ _ (W_start request sock early n c Hs Hc) E) as Hw.
  split_and!; [apply (i_fault _ (w_inv _ _ _ Hw))|apply Hw|apply Hw|apply Hw|by apply deleted_awaited with (request := request) (queue := S n)].
Qed.
End property.

(** *** A run: two requests, of which the server answers the first *)

#[local] Instance zero_memory : Uninit := NUL.

(** [doRequest()] of [client_async.cpp]. *)
Definition index_request (k : nat) : Request := mkRequest (b_ "GET") (b_ "/index.html") (b_ "HTTP/1.1").

(** That of [kv_benchmark.cpp], with the results of [rand()]. *)
Definition kv_request (rand : nat → Z) (k : nat) : Request :=
  mkRequest (b_ "GET") (b_ "/" ++ decimal (rand k mod 300 + 1)) (b_ "HTTP/1.1").

Definition opened : option Connection := snd <$> connecting 3 InProgress false 0.
Definition c3 : Connection := default active opened.

Definition goes (t k : nat) : list clabel := replicate k (Net (Act t Go)).

(** The thread writes all of a request. *)
Definition writes (t : nat) : list clabel :=
  goes t 3 ++ [Net (Act t (Connection.Write (Wrote (length (sent_bytes index_request 0)))))] ++ goes t 2.

Definition two_requests : list clabel :=
  [Client 0] ++ goes 0 2 ++ [Client 0; Client 0; Client 0] ++ writes 0 ++ [Client 0; Client 0] ++ goes 0 1 ++
  [Net ReadEvent; Net (Act 1 Take); Net (Act 1 (Read (Data abc_response))); Client 1; Client 1; Client 1; Client 1;
   Net (Act 1 (Read ReadAgain))] ++ goes 1 3 ++
  [Fire 0; Client 0; Client 0] ++ writes 0 ++ [Client 0] ++
  [Net ReadEvent; Net (Act 1 Take); Net (Act 1 (Read (Data [])))] ++ goes 1 1.

Definition after_two : state :=
  default (start c3 1) (exec (step index_request 2) two_requests (start c3 1)).

Lemma two_requests_run :
  succeeds (step index_request 2) two_requests (start c3 1) && deleted (net after_two) &&
  bool_decide (requests after_two = 2) = true.
Proof. vm_compute. reflexivity. Qed.

Lemma async_client_one_request_witness :
  requests after_two = 2 ∧ fault (net after_two) = false ∧ awaited after_two = 1.
Proof.
  pose proof two_requests_run as Hr. apply andb_prop in Hr as [[Hr Hd]%andb_prop Hn].
  apply bool_decide_eq_true in Hn. split; [exact Hn|].
  destruct (async_client_one_request index_request 3 false 1 c3 two_requests after_two) as (Hf & _ & _ & _ & Ha).
  - lia.
  - reflexivity.
  - exact (exec_default _ _ _ _ Hr).
  - split; [exact Hf|exact (Ha Hd)].
Defined.

End AsyncClient.
