(* ===== verification/TestUtil.v ===== *)
(** * Helpers of the tests, and the benchmark of the pools ([test_util.hpp],
    [thread_pool_benchmark.cpp])

    A [Counter] is an [int] behind a mutex.  A program is a list of calls of its
    methods; the tasks of a pool run such programs on the workers.  One step is
    one method, which is one critical section, except that [between] reads
    without the lock. *)

From stdpp Require Import list sorting.
From S2P Require Import Prelude.
From S2P Require Import OpGenerator.

Module TestUtil.

(** ** The counter *)

Record Counter := mkCounter { count_ : Z; locked : bool }.

(** The methods.  [IncByIf i j a b] is the body of the second loop of
    [LongTask::task]: [incBy(a)] when [between(i, j)], else [incBy(b)]. *)
Inductive op :=
  | Inc | IncBy (i : Z) | Set_ (i : Z) | Reset | Count
  | IncByIf (i j a b : Z).

(** [between(i, j)]. *)
Definition between (i j : Z) (c : Counter) : bool :=
  if decide (i > count_ c)%Z then false else if decide (j < count_ c)%Z then false else true.

(** The sum of two [int]s; [None]: it overflows. *)
Definition int_add (a b : Z) : option Z := OpGenerator.int (a + b).

(** What a method makes of the value, between [lock()] and [unlock()]. *)
Definition update (o : op) (n : Z) : option Z :=
  match o with
  | Inc => int_add n 1
  | IncBy i => int_add n i
  | Set_ i => Some i
  | Reset => Some 0%Z
  | Count | IncByIf _ _ _ _ => Some n
  end.

(** A thread: what it has to do, and what its calls of [count()] returned. *)
Record thread := mkThread { todo : list op; counted : list Z }.

Record state := mkState { counter : Counter; overflow : bool; threads : list thread }.

(** The next method of the thread [t].  [count()] returns before its [unlock()]. *)
Definition step (t : nat) (s : state) : option state :=
  th ← threads s !! t;
  match todo th with
  | [] => None
  | IncByIf i j a b :: l =>
    let o := if between i j (counter s) then IncBy a else IncBy b in
    Some (mkState (counter s) (overflow s) (<[t := mkThread (o :: l) (counted th)]> (threads s)))
  | Count :: l =>
    if locked (counter s) then None
    else Some (mkState (mkCounter (count_ (counter s)) true) (overflow s)
                 (<[t := mkThread l (counted th ++ [count_ (counter s)])]> (threads s)))
  | o :: l =>
    if locked (counter s) then None
    else
      let ths := <[t := mkThread l (counted th)]> (threads s) in
      match update o (count_ (counter s)) with
      | Some n => Some (mkState (mkCounter n false) (overflow s) ths)
      | None => Some (mkState (counter s) true ths)
      end
  end.

(** A new counter, and threads with their programs. *)
Definition start (progs : list (list op)) : state :=
  mkState (mkCounter 0 false) false (map (λ l, mkThread l []) progs).

Definition finished (s : state) : Prop := ∀ t th, threads s !! t = Some th → todo th = [].

(** ** The tasks *)

(** [int i] loops of 100000 turns. *)
Definition turns : nat := Z.to_nat 100000.

(** [LongTask::task] and [ShortTask::task]. *)
Definition LongTask : list op := replicate turns Inc ++ [Reset] ++ replicate turns (IncByIf 0 50000 10 20).
Definition ShortTask : list op := [Inc].

(** ** The benchmark *)

Definition NO_OF_CORES : nat := 8.
Definition tasks_ : nat := 30.

(** The sizes of the pools that [FastConsumer] and [SlowConsumer] measure. *)
Definition pool_sizes : list nat := seq 1 NO_OF_CORES.

(** A turn of the loops of [FastConsumer] and [SlowConsumer]: a pool gives each of
    the tasks to one of its threads, and those of a thread run in turn.
    [shares] is what each thread got. *)
Definition shares_of (task : list op) (no_of_threads : nat) (shares : list (list (list op))) : Prop :=
  length shares = no_of_threads ∧ concat shares ≡ₚ replicate tasks_ task.

Definition consume (shares : list (list (list op))) : state := start (map (@concat op) shares).

(** The numbers printed for the times: each divided by the one before, of which
    the first is 1. *)
Section speedup.
Context {T : Type} (one : T) (div : T → T → T).

Definition speedups (times : list T) : list T :=
  let speedup := one :: times in zip_with div (tail speedup) speedup.
End speedup.

(** ** The value of the counter *)

(** Whether a program keeps the counter usable, and at least 0; how much it can
    add; whether all it does is add. *)
Definition ok_op (o : op) : bool :=
  match o with
  | Inc | Reset => true
  | IncBy i | Set_ i => bool_decide (0 ≤ i)%Z
  | IncByIf _ _ a b => bool_decide (0 ≤ a)%Z && bool_decide (0 ≤ b)%Z
  | Count => false
  end.

Definition weight (o : op) : nat :=
  match o with
  | Inc => 1
  | IncBy i | Set_ i => Z.to_nat i
  | IncByIf _ _ a b => Nat.max (Z.to_nat a) (Z.to_nat b)
  | Reset | Count => 0
  end.

Definition adds (o : op) : bool := match o with Inc | IncBy _ => true | _ => false end.

Definition cost (o : op) : nat := match o with IncByIf _ _ _ _ => 2 | _ => 1 end.

Definition in_threads (f : op → nat) (ths : list thread) : nat := tally (λ th, tally f (todo th)) ths.

#[local] Arguments in_threads : simpl never.

Definition work (s : state) : nat := in_threads cost (threads s).

Record Inv (B : Z) (exact_ : bool) (s : state) : Prop := {
  in_over : overflow s = false;
  in_lock : locked (counter s) = false;
  in_pos : (0 ≤ count_ (counter s))%Z;
  in_bound : (count_ (counter s) + Z.of_nat (in_threads weight (threads s)) ≤ B)%Z;
  in_exact : exact_ = true → (count_ (counter s) + Z.of_nat (in_threads weight (threads s)) = B)%Z;
  in_ops : ∀ t th, threads s !! t = Some th → Forall (λ o, ok_op o = true ∧ (exact_ = true → adds o = true)) (todo th)
}.

Lemma in_threads_insert f ths t th th' : ths !! t = Some th →
  in_threads f (<[t := th']> ths) + tally f (todo th) = in_threads f ths + tally f (todo th').
Proof. intros Ht. exact (tally_insert (λ th, tally f (todo th)) ths t th th' Ht). Qed.

Lemma int_small n : (0 ≤ n ≤ OpGenerator.INT_MAX)%Z → OpGenerator.int n = Some n.
Proof. intros Hn. apply OpGenerator.int_in. split; [|lia]. transitivity 0%Z; [done|lia]. Qed.

(** A thread that is not done makes a step. *)
Lemma counter_goes B e s t th o l : (B ≤ OpGenerator.INT_MAX)%Z →
  Inv B e s → threads s !! t = Some th → todo th = o :: l →
  ∃ s', step t s = Some s' ∧ Inv B e s' ∧ work s' < work s.
Proof.
  intros HB [Hov Hlk Hpos Hb He Hops] Ht Hl. pose proof (Hops t th Ht) as Ho. rewrite Hl in Ho.
  apply Forall_cons in Ho as [[Hok Hadd] Hrest].
  assert (∀ l' c, Forall (λ o, ok_op o = true ∧ (e = true → adds o = true)) l' →
    ∀ u x, <[t := mkThread l' c]> (threads s) !! u = Some x →
      Forall (λ o, ok_op o = true ∧ (e = true → adds o = true)) (todo x)) as Hrec.
  { intros l' c Hl' u x Hx. apply list_lookup_insert_Some in Hx as [(_ & <- & _)|[_ Hx]]; [done|by eapply Hops]. }
  assert (∀ f l' c, in_threads f (<[t := mkThread l' c]> (threads s)) + (f o + tally f l) =
    in_threads f (threads s) + tally f l') as Hf.
  { intros f l' c. pose proof (in_threads_insert f _ _ _ (mkThread l' c) Ht) as E. rewrite Hl in E. exact E. }
  unfold step, work. rewrite Ht. cbn [mbind option_bind]. rewrite Hl.
  destruct o as [|i|i| | |i j a b]; cbn in Hok; try discriminate Hok; rewrite ?Hlk; cbn [update];
    try apply bool_decide_eq_true in Hok.
  - pose proof (Hf weight l (counted th)) as E. cbn in E. unfold int_add. rewrite int_small by lia.
    eexists. split; [reflexivity|]. pose proof (Hf cost l (counted th)) as E'. cbn in E'. split; [|cbn; lia].
    split; cbn; try done; try lia; [intros Hx; specialize (He Hx); lia|by apply Hrec].
  - pose proof (Hf weight l (counted th)) as E. cbn in E. unfold int_add. rewrite int_small by lia.
    eexists. split; [reflexivity|]. pose proof (Hf cost l (counted th)) as E'. cbn in E'. split; [|cbn; lia].
    split; cbn; try done; try lia; [intros Hx; specialize (He Hx); lia|by apply Hrec].
  - pose proof (Hf weight l (counted th)) as E. cbn in E.
    eexists. split; [reflexivity|]. pose proof (Hf cost l (counted th)) as E'. cbn in E'. split; [|cbn; lia].
    split; cbn; try done; try lia; [intros Hx; by specialize (Hadd Hx)|by apply Hrec].
  - pose proof (Hf weight l (counted th)) as E. cbn in E.
    eexists. split; [reflexivity|]. pose proof (Hf cost l (counted th)) as E'. cbn in E'. split; [|cbn; lia].
    split; cbn; try done; try lia; [intros Hx; by specialize (Hadd Hx)|by apply Hrec].
  - apply andb_prop in Hok as [Ha Hb']. apply bool_decide_eq_true in Ha, Hb'.
    set (o := if between i j (counter s) then IncBy a else IncBy b).
    pose proof (Hf weight (o :: l) (counted th)) as E. pose proof (Hf cost (o :: l) (counted th)) as E'.
    assert (weight o ≤ Nat.max (Z.to_nat a) (Z.to_nat b) ∧ cost o = 1 ∧ ok_op o = true) as (Hw & Hc & Hok).
    { subst o. destruct (between i j (counter s)); cbn; split_and!; try lia; by apply bool_decide_eq_true. }
    cbn [tally] in E, E'. rewrite Hc in E'. cbn [weight cost] in E, E'.
    eexists. split; [reflexivity|]. split; [|cbn; lia].
    split; cbn; try done; try lia; [intros Hx; by specialize (Hadd Hx)|].
    apply Hrec. constructor; [|done]. split; [done|]. intros Hx. by specialize (Hadd Hx).
Qed.

(** Every run is finite and goes on until all threads are done. *)
Definition always_ends (s0 : state) (P : state → Prop) : Prop :=
  ∀ sched s, exec step sched s0 = Some s →
    length sched ≤ work s0 ∧ (finished s ∧ P s ∨ ∃ t s', step t s = Some s').

Lemma counter_step B e t s s' : (B ≤ OpGenerator.INT_MAX)%Z → Inv B e s → step t s = Some s' → Inv B e s' ∧ work s' < work s.
Proof.
  intros HB Hi E. destruct (threads s !! t) as [th|] eqn:Ht; [|unfold step in E; by rewrite Ht in E].
  destruct (todo th) as [|o l] eqn:Hl; [unfold step in E; rewrite Ht in E; cbn in E; by rewrite Hl in E|].
  destruct (counter_goes B e s t th o l HB Hi Ht Hl) as (s1 & E1 & Hi1 & Hw). rewrite E in E1. by injection E1 as <-.
Qed.

Lemma counter_exec B e sched : ∀ s s', (B ≤ OpGenerator.INT_MAX)%Z → Inv B e s → exec step sched s = Some s' →
  Inv B e s' ∧ length sched + work s' ≤ work s.
Proof.
  induction sched as [|t sched IH]; intros s s' HB Hi E; cbn in E; [by simplify_eq|].
  destruct (step t s) as [s1|] eqn:E1; cbn in E; [|done].
  destruct (counter_step B e t s s1 HB Hi E1) as [Hi1 Hw]. destruct (IH s1 s' HB Hi1 E) as [Hi' Hl]. split; [done|]. cbn. lia.
Qed.

Lemma in_threads_start f progs : in_threads f (map (λ l, mkThread l []) progs) = tally f (concat progs).
Proof. unfold in_threads. induction progs as [|l progs IH]; cbn; [done|]. by rewrite tally_app, IH. Qed.

Lemma counter_ends e progs :
  Forall (λ o, ok_op o = true ∧ (e = true → adds o = true)) (concat progs) →
  (Z.of_nat (tally weight (concat progs)) ≤ OpGenerator.INT_MAX)%Z →
  always_ends (start progs) (λ s, overflow s = false ∧ locked (counter s) = false ∧
    (0 ≤ count_ (counter s) ≤ Z.of_nat (tally weight (concat progs)))%Z ∧
    (e = true → count_ (counter s) = Z.of_nat (tally weight (concat progs)))).
Proof.
  intros Hok HB. set (B := Z.of_nat (tally weight (concat progs))) in *.
  assert (Inv B e (start progs)) as Hi.
  { split; cbn; try done; rewrite ?in_threads_start; [unfold B; lia|done|].
    intros t th Ht. apply list_lookup_fmap_Some in Ht as (l & -> & Hl). cbn.
    apply Forall_concat in Hok. exact (Forall_lookup_1 _ _ _ _ Hok Hl). }
  intros sched s E. destruct (counter_exec B e sched _ _ HB Hi E) as [[H1 H2 H3 H4 H5 H6] Hl]. split; [lia|].
  destruct (decide (Forall (λ th, todo th = []) (threads s))) as [Hf|Hn].
  - left. assert (finished s) as Hfin by (intros t th Ht; by eapply (Forall_lookup_1 _ _ _ _ Hf)).
    split; [done|]. assert (in_threads weight (threads s) = 0) as Hz.
    { unfold in_threads. clear -Hf. induction Hf as [|th ths Hth _ IH]; cbn; [done|]. by rewrite Hth, IH. }
    rewrite Hz in *. split_and!; try done; [lia|]. intros He. specialize (H5 He). lia.
  - right. apply not_Forall_Exists in Hn; [|apply _]. apply Exists_exists in Hn as (th & Hin & Hth).
    apply list_elem_of_lookup in Hin as [t Ht]. destruct (todo th) as [|o l] eqn:Hl'; [done|].
    destruct (counter_goes B e s t th o l HB (Build_Inv B e s H1 H2 H3 H4 H5 H6) Ht Hl') as (s' & E' & _). eauto.
Qed.

(** *** The tasks of the benchmark *)

Lemma tally_replicate {A} (f : A → nat) n x : tally f (replicate n x) = n * f x.
Proof. induction n as [|n IH]; cbn; [done|]. rewrite IH. lia. Qed.

Lemma tally_concat {A} (f : A → nat) ls : tally f (concat ls) = tally (tally f) ls.
Proof. induction ls as [|l ls IH]; cbn; [done|]. by rewrite tally_app, IH. Qed.

Lemma tally_perm {A} (f : A → nat) l k : l ≡ₚ k → tally f l = tally f k.
Proof. induction 1; cbn; lia. Qed.

Lemma long_weight : tally weight LongTask = 21 * turns.
Proof. unfold LongTask. rewrite !tally_app, !tally_replicate. cbn [tally weight]. lia. Qed.

Lemma long_ok : Forall (λ o, ok_op o = true ∧ (false = true → adds o = true)) LongTask.
Proof.
  unfold LongTask. repeat apply Forall_app_2; [apply Forall_replicate|apply Forall_singleton|apply Forall_replicate]; done.
Qed.

Lemma concat_concat {A} (ls : list (list (list A))) : concat (map (@concat A) ls) = concat (concat ls).
Proof. induction ls as [|l ls IH]; cbn; [done|]. by rewrite concat_app, IH. Qed.

Lemma short_ok : Forall (λ o, ok_op o = true ∧ (true = true → adds o = true)) ShortTask.
Proof. by apply Forall_singleton. Qed.

(** What the shares of a task come to. *)
Lemma shares_weight task k shares : shares_of task k shares →
  tally weight (concat (map (@concat op) shares)) = tasks_ * tally weight task.
Proof.
  intros [_ Hp]. rewrite concat_concat, tally_concat, (tally_perm _ _ _ Hp). by rewrite tally_replicate.
Qed.

Lemma shares_ok (P : op → Prop) task k shares : shares_of task k shares → Forall P task →
  Forall P (concat (map (@concat op) shares)).
Proof.
  intros [_ Hp] Hok. rewrite concat_concat. apply Forall_concat. rewrite Hp. by apply Forall_replicate.
Qed.

(** [TEST(Once, Binding)] of [callback_test.cpp], and of [thread_test.cpp], where
    each call but [count()] is made in a thread that is joined. *)
Definition Once_Binding : list op := [IncBy 2; Count; Reset; IncBy 3; Count].
Definition Once_Binding_threads : list op := [IncBy 3; Count; Reset; Count; IncBy 1; Count].

Definition never_finishes (prog : list op) : Prop :=
  ∀ sched s, exec step sched (start [prog]) = Some s → ¬ finished s.

(** [count()] keeps the mutex: the next method that locks waits for ever. *)
Lemma reset_waits i l : (OpGenerator.INT_MIN ≤ i ≤ OpGenerator.INT_MAX)%Z →
  never_finishes (IncBy i :: Count :: Reset :: l).
Proof.
  intros Hi sched s E Hf. specialize (Hf 0). unfold start in E.
  destruct sched as [|[|t] sched]; cbn in E; [injection E as <-; by specialize (Hf _ eq_refl)| |done].
  unfold int_add in E. rewrite OpGenerator.int_in in E by done. cbn in E.
  destruct sched as [|[|t] sched]; cbn in E; [injection E as <-; by specialize (Hf _ eq_refl)| |done].
  destruct sched as [|[|t] sched]; cbn in E; [injection E as <-; by specialize (Hf _ eq_refl)|done|done].
Qed.

(** The tasks of the benchmark of the pools.  However a pool shares them out
    to its threads and these interleave, they all end, the counter's [int] does
    not overflow, it is at most 63 000 000, and 30 after the short tasks.  But a
    program that looks at a counter with [count()] and goes on using it never
    ends, as the tests [Once, Binding] of the callbacks and of the threads do. *)
Lemma consumers_count task k shares :
  shares_of task k shares → task = ShortTask ∨ task = LongTask →
  always_ends (consume shares) (λ s, overflow s = false ∧ (0 ≤ count_ (counter s) ≤ 63000000)%Z ∧
    (task = ShortTask → count_ (counter s) = 30%Z)) ∧
  never_finishes Once_Binding ∧ never_finishes Once_Binding_threads.
Proof.
  intros Hs Ht. split; [|split; apply reset_waits; unfold OpGenerator.INT_MIN, OpGenerator.INT_MAX; lia].
  pose proof (shares_weight _ _ _ Hs) as Hw. destruct Ht as [-> | ->]; intros sched s E.
  - change (tasks_ * tally weight ShortTask) with 30 in Hw.
    destruct (counter_ends true (map (@concat op) shares)
                (shares_ok _ _ _ _ Hs short_ok) ltac:(by rewrite Hw) sched s E) as [Hl [(Hf & Ho & _ & Hc & Hx)|Hg]];
      (split; [done|]); [left|by right].
    rewrite Hw in *. specialize (Hx eq_refl). split; [done|]. split; [done|]. split; [lia|by intros _].
  - rewrite long_weight in Hw.
    assert (Z.of_nat (tally weight (concat (map (@concat op) shares))) = 63000000%Z) as Hz.
    { rewrite Hw. unfold tasks_, turns. lia. }
    destruct (counter_ends false (map (@concat op) shares)
                (shares_ok _ _ _ _ Hs long_ok) ltac:(by rewrite Hz) sched s E) as [Hl [(Hf & Ho & _ & Hc & _)|Hg]];
      (split; [done|]); [left|by right].
    rewrite Hz in Hc. split; [done|]. split; [done|]. split; [done|]. intros Hx.
    apply (f_equal length) in Hx. unfold LongTask, turns in Hx. rewrite !length_app, !length_replicate in Hx. cbn in Hx. lia.
Qed.

End TestUtil.
