(* ===== verification/Programs.v ===== *)
(** * The programs ([server.cpp], [client_sync.cpp]) and the measurements of single
    classes ([buffer_benchmark.cpp], [callback_benchmark.cpp],
    [false_sharing_benchmark.cpp])

    What the main functions make of their arguments and of the answers of the
    classes; the loops that are measured, over the definitions of the classes
    they measure. *)

From S2P Require Import Prelude.
From S2P Require Import Buffer.
From S2P Require Import BufferIter.
From S2P Require Import HttpParser.
From S2P Require Import Callback.
From S2P Require Import OpGenerator.
From S2P Require Import Connection.
From S2P Require Import HttpConnection.
From S2P Require Import KvConnection.
From S2P Require Import AsyncClient.
From S2P Require Import TestUtil.

(** ** [server.cpp] *)

Module Server.

(** What [main] does: print the usage and return 1, or make the service manager
    with its workers, and the two services on their ports, and run them. *)
Inductive outcome :=
  | Usage
  | Serve (num_workers http_port kv_port : Z).

(** [argv] has the name of the program; the [int]s are not initialised.  [None]:
    [http_port + 1] overflows. *)
Definition main (junk junk' : Z) (argv : list bytes) : option outcome :=
  match argv with
  | [_; port; threads] =>
    let http_port := KvServer.stream_int junk port in
    kv_port ← OpGenerator.int (http_port + 1);
    let num_workers := KvServer.stream_int junk' threads in
    Some (Serve num_workers http_port kv_port)
  | _ => Some Usage
  end.

(** Two numbers are read back and give the key-value service the next port, if
    there is one; any other number of arguments gives the usage. *)
Lemma main_args junk junk' argv :
  (∀ name port n, argv = [name; decimal port; decimal n] →
     (0 ≤ port < 2 ^ 31)%Z → (0 ≤ n < 2 ^ 31)%Z →
     main junk junk' argv =
       if decide (port = 2 ^ 31 - 1)%Z then None else Some (Serve n port (port + 1))) ∧
  (length argv ≠ 3 → main junk junk' argv = Some Usage).
Proof.
  split.
  - intros name port n -> Hp Hn. unfold main. rewrite !KvConnection.stream_int_decimal by done.
    unfold OpGenerator.int, OpGenerator.INT_MIN, OpGenerator.INT_MAX.
    case_decide as Hm; case_decide as Hm'; try done; lia.
  - intros Hl. destruct argv as [|? [|? [|? [|? ?]]]]; done.
Qed.

(** A port that is not a number is what the stack had there. *)
Lemma main_junk junk junk' name :
  (- 2 ^ 31 ≤ junk < 2 ^ 31 - 1)%Z →
  main junk junk' [name; b_ "http"; b_ "8"] = Some (Serve 8 junk (junk + 1)).
Proof.
  intros Hj. unfold main. change (KvServer.stream_int junk (b_ "http")) with junk.
  change (KvServer.stream_int junk' (b_ "8")) with 8%Z.
  unfold OpGenerator.int, OpGenerator.INT_MIN, OpGenerator.INT_MAX.
  rewrite decide_True by lia. done.
Qed.
End Server.

(** ** [client_sync.cpp] *)

Module SyncClient.
Import Connection.

(** What [main] comes to: it waits in [connect] for ever, calls [exit(1)], or sends
    the requests, each on its connection. *)
Inductive outcome :=
  | Waits
  | Exit (code : Z)
  | Sends (reqs : list (Connection * Request)).

Definition ok (c : Connection) : bool := negb (in_error_ c).

Definition req1 : Request := mkRequest (b_ "GET") (b_ "/index.html") (b_ "HTTP/1.1").

(** A call of [connect]: whether the service is stopped, and what the system calls
    give. *)
Record world := mkWorld {
  stopped : bool; sock : Z; res : connect_result; early : bool; error : Z
}.

Section main.
Context `{Uninit}.

Definition connect (w : world) : option Connect.connected :=
  Connect.connect (stopped w) (sock w) (res w) (early w) (error w).

Definition main (w1 w2 : world) : option outcome :=
  r1 ← connect w1;
  match r1 with
  | Connect.Waits => Some Waits
  | Connect.Returns c1 =>
    r2 ← connect w2;
    match r2 with
    | Connect.Waits => Some Waits
    | Connect.Returns c2 =>
      if negb (ok c1) || negb (ok c2) then Some (Exit 1)
      else
        let req2 := Request_cloneFrom (mkRequest [] [] []) req1 in
        Some (Sends [(c1, req1); (c2, req2)])
    end
  end.

(** The calls of [connect] return (one that the system connects at once needs an error
    in the socket: else it uses the descriptor before there is one). *)
Definition answers (w : world) : Prop :=
  stopped w = false ∧ (0 ≤ sock w)%Z ∧ (res w = Connected → error w ≠ 0%Z).
Definition refused (w : world) : Prop := res w = ConnectError ∨ error w ≠ 0%Z.

(** Whether the program goes on is what the two connections came to: it hangs when
    the first is not answered, exits when one was refused, and otherwise sends the
    same request on both, which are without error. *)
Lemma main_connects w1 w2 :
  (stopped w1 = true ∨ (sock w1 < 0)%Z → main w1 w2 = Some Waits) ∧
  (answers w1 → answers w2 →
     (refused w1 ∨ refused w2 → main w1 w2 = Some (Exit 1)) ∧
     (¬ refused w1 → ¬ refused w2 → ∃ c1 c2,
        main w1 w2 = Some (Sends [(c1, req1); (c2, req1)]) ∧ ok c1 = true ∧ ok c2 = true)).
Proof.
  pose proof (Connect.connect_returns (stopped w1) (sock w1) (res w1) (early w1) (error w1)) as [Hw H1].
  pose proof (Connect.connect_returns (stopped w2) (sock w2) (res w2) (early w2) (error w2)) as [_ H2].
  unfold main, connect, answers, refused, ok. split.
  { intros Hs. by rewrite (Hw Hs). }
  intros (Hs1 & Hk1 & Hc1) (Hs2 & Hk2 & Hc2).
  destruct (H1 Hs1 Hk1 Hc1) as (c1 & -> & He1). destruct (H2 Hs2 Hk2 Hc2) as (c2 & -> & He2).
  cbn [mbind option_bind]. rewrite !negb_involutive. split.
  - intros [Hr|Hr]; [rewrite (proj2 He1 Hr)|rewrite (proj2 He2 Hr), orb_true_r]; done.
  - intros Hr1 Hr2. apply (not_iff_compat He1), not_true_is_false in Hr1.
    apply (not_iff_compat He2), not_true_is_false in Hr2. rewrite Hr1, Hr2. by exists c1, c2; rewrite Hr1, Hr2.
Qed.
End main.
End SyncClient.

(** ** [buffer_benchmark.cpp] *)

Module BufferBenchmark.
Import Buffer.Buffer BufferIter.Iter.

Section buffers.
Context `{Uninit}.

(** The loop of [FixtureBuffer(len)]. *)
Fixpoint fill_buf (len : nat) (buf : Buffer) : option Buffer :=
  match len with
  | 0 => Some buf
  | S len => buf ← write (MemPiece.of_cstr (b_ "x")) buf; fill_buf len buf
  end.

Definition FixtureBuffer (len : nat) : option Buffer := fill_buf len new.

Definition fixture_buffer1 : option Buffer := FixtureBuffer 1500.
Definition fixture_buffer2 : option Buffer := FixtureBuffer (BlockSize * 2).

(** [while (!it.eob()) it.next();], with the number of turns. *)
Fixpoint to_end (fuel : nat) (b : Buffer) (it : Iterator) : option nat :=
  match fuel with
  | 0 => None
  | S fuel =>
    if eob b it then Some 0
    else it ← next b it; n ← to_end fuel b it; Some (S n)
  end.

(** The measured loop of [SingleChunk] and [MultipleChunk]: the turns of all walks
    from [begin()]. *)
Fixpoint walks (times fuel : nat) (b : Buffer) : option nat :=
  match times with
  | 0 => Some 0
  | S times =>
    it ← begin b;
    n ← to_end fuel b it;
    m ← walks times fuel b;
    Some (n + m)
  end.

Lemma fill_buf_spec len : ∀ b, in_use Output b →
  ∃ b', fill_buf len b = Some b' ∧ in_use Output b' ∧
    contents b' = contents b ++ replicate len "x"%char.
Proof.
  induction len as [|len IH]; intros b Hb; cbn [fill_buf].
  { exists b. by rewrite app_nil_r. }
  destruct (apply_op_spec Output b (OWrite (MemPiece.of_cstr (b_ "x"))) Hb) as (b1 & Hw & Hb1 & Hc1);
    [done|]. cbn [apply_op] in Hw. rewrite Hw. cbn [mbind option_bind].
  destruct (IH b1 Hb1) as (b' & -> & Hb' & Hc'). exists b'. split_and!; [done..|].
  rewrite Hc', Hc1. cbn [queue_op]. rewrite MemPiece.data_of_cstr.
  change (MemPiece.c_str (b_ "x")) with ["x"%char]. by rewrite <- app_assoc.
Qed.

Lemma to_end_spec b fuel : ∀ it k, wf b → at_ b it k → length (contents b) - k < fuel →
  to_end fuel b it = Some (length (contents b) - k).
Proof.
  induction fuel as [|fuel IH]; intros it k Hwf Hat Hf; [lia|]. cbn [to_end].
  pose proof (at_le _ _ _ Hat) as Hle. rewrite (eob_spec b it k Hwf Hat).
  case_bool_decide as Hk. { rewrite Hk. f_equal. lia. }
  destruct (next_spec b it k Hwf Hat) as (it' & -> & Hat'); [lia|]. cbn [mbind option_bind].
  rewrite (IH it' (S k) Hwf Hat') by lia. cbn. f_equal. lia.
Qed.

(** The benchmarks walk what they wrote: every walk from [begin()] ends after as many
    turns as there were calls of [write], in one chunk or in more. *)
Lemma benchmark_walks len times :
  ∃ b, FixtureBuffer len = Some b ∧ contents b = replicate len "x"%char ∧
    walks times (S len) b = Some (times * len).
Proof.
  destruct (fill_buf_spec len new (new_in_use Output)) as (b & Hf & (Hwf & Hi & _) & Hc).
  destruct new_wf as (_ & Hn & _). exists b. split; [exact Hf|].
  assert (contents b = replicate len "x"%char) as Hb by (rewrite Hc; cbn; reflexivity).
  split; [exact Hb|]. induction times as [|times IH]; [done|]. cbn [walks].
  destruct (begin_spec b Hwf Hi) as (it & -> & Hat). cbn [mbind option_bind].
  rewrite (to_end_spec b (S len) it 0 Hwf Hat); rewrite Hb, length_replicate; [|lia].
  cbn [mbind option_bind]. rewrite IH. cbn. f_equal. lia.
Qed.
End buffers.
End BufferBenchmark.

(** ** [callback_benchmark.cpp] *)

Module CallbackBenchmark.
Import Callback.Callback TestUtil.TestUtil.

(** [Counter::inc] on the value of a counter; [None] when it overflowed. *)
Definition inc (n : option Z) : option Z * unit := ((n ≫= update Inc), tt).

(** [makeCallableOnce(&Counter::inc, &counters[2])], for each place of [cb2]. *)
Definition cb2 (repeats : nat) : list (cell (option Z) unit unit) :=
  replicate repeats (Some (CallableOnce_0_0_void inc)).

(** Calling them one after the other: the counter, and what is left of them. *)
Fixpoint call_each {W} (cbs : list (cell W unit unit)) (w : W) : option (W * list (cell W unit unit)) :=
  match cbs with
  | [] => Some (w, [])
  | cb :: cbs =>
    '(_, w, cb) ← call cb w tt;
    '(w, cbs) ← call_each cbs w;
    Some (w, cb :: cbs)
  end.

(** Direct calls; then [cb3]. *)
Definition direct (repeats : nat) (w : option Z) : option Z := Nat.iter repeats (λ w, (inc w).1) w.
Definition cb3 : cell (option Z) unit unit := makeCallableMany_0_0 inc.

(** [SimpleCall]: what [counters[0]], [counters[2]] and [counters[3]] hold at the
    end, and the callbacks that were not deleted. *)
Definition SimpleCall (repeats : nat) : option (list (option Z) * list (cell (option Z) unit unit)) :=
  let c0 := direct repeats (Some 0%Z) in
  '(c2, cbs) ← call_each (cb2 repeats) (Some 0%Z);
  '(_, c3, _) ← calls cb3 (Some 0%Z) (replicate repeats tt);
  Some ([c0; c2; c3], filter is_Some cbs).

Lemma iter_inc n : ∀ z, (0 ≤ z)%Z → (z + Z.of_nat n < 2 ^ 31)%Z →
  direct n (Some z) = Some (z + Z.of_nat n)%Z.
Proof.
  unfold direct. induction n as [|n IH]; intros z Hz Hn; [by rewrite Z.add_0_r|].
  rewrite Nat.iter_succ, IH by lia. cbn [inc fst mbind option_bind update]. unfold int_add.
  rewrite OpGenerator.int_in; [f_equal; lia|]. unfold OpGenerator.INT_MIN, OpGenerator.INT_MAX. lia.
Qed.

Lemma iter_S_in {A} (f : A → A) n x : Nat.iter n f (f x) = Nat.iter (S n) f x.
Proof. by rewrite Nat.iter_succ_r. Qed.

Lemma direct_S n w : direct n (inc w).1 = direct (S n) w.
Proof. apply (iter_S_in (λ w, (inc w).1)). Qed.

Lemma call_once w : call (Some (CallableOnce_0_0_void inc)) w tt = Some (tt, (inc w).1, None).
Proof. reflexivity. Qed.

Lemma call_each_spec n : ∀ w, call_each (cb2 n) w = Some (direct n w, replicate n None).
Proof.
  unfold cb2. induction n as [|n IH]; intros w; [done|].
  cbn [replicate call_each]. rewrite call_once. cbn [mbind option_bind].
  rewrite IH. cbn [mbind option_bind]. by rewrite direct_S.
Qed.

Lemma apply_all_inc n : ∀ w,
  (apply_all (target (CallableMany_0_0 inc)) w (replicate n tt)).2 = direct n w.
Proof.
  induction n as [|n IH]; intros w; [done|]. rewrite <- direct_S, <- IH.
  cbn [replicate apply_all target CallableMany_0_0]. unfold inc at 1. cbn [fst].
  by destruct (apply_all _ _ _).
Qed.

(** The three ways count the same, without overflow, and every callback for one use
    was deleted by its call. *)
Lemma SimpleCall_counts repeats : (Z.of_nat repeats < 2 ^ 31)%Z →
  SimpleCall repeats = Some (replicate 3 (Some (Z.of_nat repeats)), []).
Proof.
  intros Hr. unfold SimpleCall. rewrite call_each_spec. cbn [mbind option_bind].
  unfold cb3, makeCallableMany_0_0. rewrite calls_many by done. cbn [mbind option_bind].
  rewrite apply_all_inc. rewrite iter_inc by lia. do 2 f_equal.
  clear Hr. by induction repeats.
Qed.
End CallbackBenchmark.

(** ** [false_sharing_benchmark.cpp] *)

Module FalseSharing.

(** The loop of [Adder::add]: [val *= 3], on an [int] that was not initialised;
    [None]: it overflows. *)
Fixpoint add (turns : nat) (val : Z) : option Z :=
  match turns with
  | 0 => Some val
  | S turns => val ← OpGenerator.int (val * 3); add turns val
  end.

Lemma add_pow turns : ∀ val, add turns val = Some (val * 3 ^ Z.of_nat turns)%Z ∨ add turns val = None.
Proof.
  induction turns as [|n IH]; intros val; cbn [add]; [left; f_equal; lia|].
  unfold OpGenerator.int. case_decide; cbn [mbind option_bind]; [|by right].
  destruct (IH (val * 3)%Z) as [-> | ->]; [left; f_equal|by right].
  rewrite Nat2Z.inj_succ, Z.pow_succ_r by lia. lia.
Qed.

Lemma add_in turns : ∀ val val', turns ≠ 0 → add turns val = Some val' →
  (OpGenerator.INT_MIN ≤ val' ≤ OpGenerator.INT_MAX)%Z.
Proof.
  induction turns as [|n IH]; intros val val' Ht; cbn [add]; [done|].
  unfold OpGenerator.int. case_decide as Hi; cbn [mbind option_bind]; [|done].
  destruct n as [|n]; [intros [= <-]; exact Hi|]. by apply IH.
Qed.

(** Whatever the value was, twenty turns overflow, unless it was zero: the result
    of the loop, which has ten million, is not defined. *)
Lemma add_overflows turns val : 20 ≤ turns → val ≠ 0%Z → add turns val = None.
Proof.
  intros Ht Hv. destruct (add_pow turns val) as [E | ->]; [|done].
  pose proof (add_in turns val _ ltac:(lia) E) as [Hlo Hhi].
  unfold OpGenerator.INT_MIN, OpGenerator.INT_MAX in *.
  assert (3 ^ 20 ≤ 3 ^ Z.of_nat turns)%Z by (apply Z.pow_le_mono_r; lia).
  change (3 ^ 20)%Z with 3486784401%Z in *. nia.
Qed.

Lemma add_zero turns : add turns 0 = Some 0%Z.
Proof. induction turns as [|n IH]; [done|]. exact IH. Qed.
End FalseSharing.
